(* ===== verification/_CoqProject ===== *)
-Q . S2P
prelude.v
seq_number.v
time.v
bytes.v
data_packet.v
control_packet.v
packet.v
btree_map.v
loss_list.v
ack_window.v
rcv_buffer.v
snd_buffer.v
float.v
flow.v
configuration.v
rate_control.v
socket_state.v
world.v
socket.v
samples.v
socket_status.v
socket_sender.v
socket_receiver.v
socket_control.v
snd_queue.v
rcv_queue.v
udt.v
listener.v
rcv_worker.v
registry.v
snd_worker.v
udp.v
delivery.v
connections.v
cleanup.v
stream_invariant.v
stream_sender.v
stream_receiver.v
stream.v
handshake.v
wire_types.v
waits.v
locks.v
repair.v
bounds.v
datagram_stream.v
resend_race.v
