(* ===== verification/prelude.v ===== *)
(** * A verification of tokio-udt

    tokio-udt implements UDT, a reliable, congestion-controlled stream protocol over
    UDP, as an asynchronous Rust library.  This development translates the protocol
    code of [src/src/] into executable definitions and proves what each part promises
    to the next; where the code breaks such a promise, the theorem says exactly when.

    ** The program and the files that model it

    Data flows through the program as follows.  The application writes a message
    ([UdtSocket::send]); it is cut into blocks of the send buffer; the send queue of
    the multiplexer wakes the socket, which hands out packets as the flow window, the
    congestion window and the pacing allow ([next_data_packets]).  The receive queue of
    the peer parses each datagram and gives it to its socket ([process_packet]): data
    goes to the receive buffer, gaps to the loss list and to a NAK; the timers
    ([check_timers]) send acknowledgements, keep-alives and retransmissions.

    - [prelude]: results of fallible code ([outcome]), integers of a given width,
      the tactics and the lemmas that all files share.
    - [seq_number] (seq_number.rs): cyclic sequence numbers, [⊕] and [⊖].
    - [time]: [Instant] and [Duration] of tokio, in nanoseconds.  [float]: [f64].
      [bytes]: big-endian integers and slices.  [btree_map]: [BTreeMap] of the
      Standard Library of Rust, as the sorted list of its entries.
    - [data_packet], [control_packet], [packet] (the files of the same names, common.rs):
      the wire format, with the panics of every unchecked slice.
    - [loss_list] (loss_list.rs), [ack_window] (ack_window.rs), [rcv_buffer],
      [snd_buffer] (queue/): the data structures of a connection.  Each has an
      abstraction ([lost], [recent], [readable], [in_flight] and [unsent]), an invariant,
      and one theorem for each operation.
    - [flow] (flow.rs), [rate_control] (rate_control.rs), [configuration]
      (configuration.rs), [socket_state] (state/socket_state.rs).
    - [world]: the effects of a method.  [M St A] passes the object [St], the clock
      readings and the trace of events (packets sent, notifications, calls of other
      components), and ends in an [outcome]; the changes made before an error persist.
    - [socket] (socket.rs): the state of a socket and all its methods, one definition
      for each block of the code, composed as the code composes them.
    - [samples]: concrete sockets for the witnesses.
    - [socket_status], [socket_sender], [socket_receiver], [socket_control]: the theorems
      about sockets: life cycle; sending; receiving; reports, timers and handshakes.
    - [snd_queue] (queue/snd_queue.rs): the schedule of the sockets that have data to
      send, against an interface for [BinaryHeap] and its laws.
    - [rcv_queue] (queue/rcv_queue.rs): the timer queue of a multiplexer.  [udt] (udt.rs,
      multiplexer.rs): the registry, a heap of shared sockets with the maps that lead to
      them; its methods run in [M] over the registry, and [on r m] runs the method [m] of
      the socket at address [r], whose events reach its multiplexer ([Udt.absorb]).
      [listener] (listener.rs, connection.rs), [rcv_worker] (the worker of rcv_queue.rs).
    - [registry], [delivery], [connections]: the theorems about the registry: its
      invariant; what a datagram can reach and how timers are kept; opening, accepting,
      closing.
    - [snd_worker] (the worker of queue/snd_queue.rs): the worker, its cache and the
      sending task as a transition system, with the steps of other tasks between theirs,
      against an interface for the bounded channel between them and its laws.
    - [udp] (multiplexer.rs, the system calls of queue/rcv_queue.rs): the UDP socket as a
      sequence of system calls whose answers are the class [Udp] with the laws [UdpLaws];
      the batched and the portable way to send and to receive.
    - [stream_invariant], [stream_sender], [stream_receiver], [stream]: two ends of a
      connection as a transition system whose steps are the methods of the sockets, the
      delivery of a packet sent, and forged control packets; the simulation between the
      two sockets and the stream of blocks.  [next_data_packets] is two steps there, cut
      where it gives up the lock of the state; [Endpoint.begun] is what it keeps in
      between, and [undisturbed] says that no acknowledgement releases blocks there.
      [datagram_stream]: the same over UDP, with the slots that datagrams are received in;
      the theorems about the stream.  [resend_race]: a run in which an acknowledgement
      does release blocks in between.  [handshake]: the state both ends start from,
      as the handshake leaves it.  [wire_types]: every field of every packet and socket
      fits its width, by a type system for methods ([has_type]) with one typing lemma for
      each method.
    - [repair]: the two ends of a connection, one after the other, while a burst of losses
      is repaired.
    - [bounds]: how much an end keeps and how large its datagrams are.
    - [waits] (the waits of socket.rs): tasks that sleep until a method of another task
      notifies them; [Notify] is the number of notifications in the trace.
    - [cleanup] (the cleanup task of udt.rs): what its turns make of the statuses and of the
      registry, in whichever order the tasks that they spawn run.
    - [locks] (every lock of the process): a method is the locks it takes, guard by guard,
      and its waits for the operating system; a type system for methods ([ordered]) bounds
      what is asked for while a lock is held.  Each multiplexer has its own queues,
      listener and receiving worker.

    ** What the theorems show

    - End to end: over a network that loses, repeats, delays and reorders datagrams and
      forges control packets (but no acknowledgement, drop request or malformed loss
      report), what an end has received in order is a prefix of what the other has written,
      and the sender releases only what has arrived ([datagram_stream.reliable_stream]); so
      a flush that is ready means delivery ([flushed_is_delivered]).
      [handshake_establishes] gives the initial state.  Three more hypotheses delimit this.
      The numbers in flight stay away from the wrap-around point ([in_range]; [seq_number]
      shows what breaks there).  Datagrams arrive whole: the slots of both ends hold the
      packets of both, which [handshake.negotiated_size_ignored] shows to fail between ends
      with different packet sizes.  And no acknowledgement releases blocks while the sending
      worker is between the two locks of a retransmission: one that does makes it send the
      wrong bytes ([resend_race_corrupts]).
    - Repair: a gap that the receiver sees is reported, retransmitted and filled by the
      methods of the two ends, whatever the order in which the network delivers
      ([repair.gap_repaired]); the run is assumed shorter than five centuries, so that the
      credits of the pacing fit, and the receive buffer to have room for the burst.
    - On the wire: every packet an end ever sends is serialised without overflow and parsed
      back by the other end ([wire_types]).
    - Sizes: the send buffer keeps within its capacity and every datagram within a packet
      ([bounds.sizes_bounded]).
    - Waiting: no reader and no connecting task sleeps through what it waits for
      ([waits.sleepers_are_woken]); those who wait for an acknowledgement of a connection
      that has ended do, for ever ([ack_waiters_hang]).
    - Locks: the tasks on connected sockets, with a receiving worker for each multiplexer,
      never wait for each other's locks in a circle, and no task sleeps with a lock, though
      it may wait for the operating system with one ([locks.locks_never_deadlock]).  It is
      assumed that each receiving worker meets only sockets of its own multiplexer, which
      the code does not check: two workers on one socket do deadlock, as do two callers
      outside of the order of the locks ([unordered_callers_deadlock]).
    - Cleanup: two turns of the cleanup task reap every connection that has ended
      ([cleanup.cleanup_reaps]).
    - The sending worker: it never sleeps through a node that is due, serves a node only
      when it is due and schedules it again at the time its pacing gives, and its batches
      reach the network in order, none being lost until one fails to be sent; that failure
      loses the batches in the channel and ends both tasks.
    - Datagrams: what is parsed is what the system has received, whatever the buffer held;
      which errors of the system are dropped and which end a batch.
    - Receiving: the invariant [socket_receiver.rcv_inv] says that every number from the
      last acknowledgement to the largest one received is either in the receive buffer
      or in the loss list.  Accepting a packet and advancing the acknowledgement keep
      it, and hence an acknowledgement never covers a packet that has not arrived.
    - Sending: [socket_sender.snd_inv] says that block [i] of the send buffer carries
      number [last_data_ack_processed + i] and that only numbers in flight are in the
      loss list.  New packets, retransmissions and acknowledgements keep it; what is
      retransmitted under a number is what was sent under it.
    - The whole process: in every reachable registry identifiers lead to their sockets; a
      packet reaches at most the socket it is addressed to, from its peer; no live socket
      loses its timers; a handshake makes one connection and its repetition none.
    - Loss reports: the NAK that the receiver builds is what the sender records.
    - Wire format: printing and parsing are inverse, and the truncated datagrams on
      which parsing panics are characterised exactly.
    - Data structures: refinement of the abstract states above, queues and sets of
      numbers, by the interval maps and buffers of the code.
    - Arithmetic: subtraction of sequence numbers is the cyclic difference away from the
      wrap-around point and its opposite across it; the theorems about a connection
      carry the hypothesis that keeps them on the right side of it.
    - Hostile or unlucky peers: each place where a packet makes the receiving task panic
      or recurse for ever is a theorem that gives the condition.

    ** Choices of the model

    - A [u32], [u64] or [usize] is a [Z]; every arithmetic operation of the code goes
      through [arith_u] or [arith_s] of [prelude], whose behaviour on overflow is that of
      the build: the class [Profile] is [true] with overflow checks (a panic), [false]
      without (wrapping).  Theorems hold in both profiles unless they name one.
    - The clock is an arbitrary function of the number of readings; nothing assumes that
      it is monotonic except where a theorem says so.  A method may consume more
      readings than the code (an [elapsed()] behind [&&], one reading per block of a full
      batch); since the clock is arbitrary, this is no loss.
    - The result of a UDP send, the random draws and the hash of the handshake cookie are
      the environment [Env]; [powf] and [log10] are the class [FloatLib].
    - [LossList.insert] and [remove_all] recurse on an interval that wraps around.  They
      carry fuel; two is enough for numbers in range (the first call splits the interval
      once), and [loss_list_unbounded_recursion] shows that no fuel is enough otherwise.
      [chunks] carries the length of its list as fuel, and reading loops are structural
      on the entries that they consume.
    - A method runs without interruption: tasks interleave between methods, and where the
      code waits ([recv], [accept], [close], the sending worker and its channel).  In
      [stream] and what builds on it [next_data_packets] is cut in two as well, since it
      uses, after it has given up the lock of the state, a place in the send buffer that
      another task may move.  The other methods are not cut: what they share with another
      task they read and write under one lock, or they read it for a decision that stays
      right while the other task goes on (the room in the receive buffer only grows while a
      packet is processed; only the receiving worker empties the send buffer).  [locks] cuts
      every method at every lock, but looks at nothing else.  [stream], [snd_worker] and
      [waits] let the tasks run in any order; [delivery] and [registry] are about one turn of
      the receiving worker and any sequence of operations.
      When a [Result] is propagated by [?] the state changes made before
      it remain; on a panic the step that panicked changes nothing.
    - An [Arc<UdtSocket>] or [Weak<UdtSocket>] is an address of the heap; a socket is never
      freed, and whether a weak reference can be upgraded is decided by the registry or,
      for the holders outside of it, by the arbitrary [held] of the class [Os], which also
      gives the ports of new UDP sockets.  Multiplexers are never dropped, so they are
      identified by their number.
    - A clock reading may be taken a step later than in the code ([push_back] reads it when
      the method of the socket has ended).

    ** Not modelled

    The tokio runtime (spawning, wakers), the fairness of its scheduler, what another task
    does between two locks of a method ([next_data_packets] excepted), poisoned locks, the
    global instance of the registry behind its [OnceCell], and the debug output.  lib.rs
    and the mod.rs files hold documentation and re-exports; the programs of bin/ are
    command-line front ends. *)

From stdpp Require Export base tactics numbers list option sets sorting.
From Stdlib Require Export Lia.

#[global] Open Scope Z_scope.

(** ** Results of fallible code

    [Ok] and [Err] are the constructors of [std::io::Result]; an error keeps
    only its [ErrorKind].  [Panic] is a Rust panic (out-of-range slice, failed
    [unwrap], checked overflow): the running task is unwound. *)

Inductive ErrorKind :=
  | InvalidData | InvalidInput | OutOfMemory | NotConnected | BrokenPipe
  | ConnectionRefused | PermissionDenied | Unsupported | AlreadyExists
  | WouldBlock | Other.

Inductive outcome (A : Type) : Type :=
  | Ok (a : A)
  | Err (e : ErrorKind)
  | Panic.
Arguments Ok {A} _.
Arguments Err {A} _.
Arguments Panic {A}.

#[export] Instance outcome_ret : MRet outcome := @Ok.
#[export] Instance outcome_bind : MBind outcome := λ A B f x,
  match x with Ok a => f a | Err e => Err e | Panic => Panic end.
#[export] Instance outcome_fmap : FMap outcome := λ A B f x,
  match x with Ok a => Ok (f a) | Err e => Err e | Panic => Panic end.

#[export] Instance ErrorKind_eq_dec : EqDecision ErrorKind.
Proof. solve_decision. Defined.
#[export] Instance outcome_eq_dec `{EqDecision A} : EqDecision (outcome A).
Proof. solve_decision. Defined.

#[export] Instance Ok_inj A : Inj (=) (=) (@Ok A).
Proof. by intros x y [= ->]. Qed.

Definition is_ok {A} (x : outcome A) : bool :=
  match x with Ok _ => true | _ => false end.
Definition is_panic {A} (x : outcome A) : bool :=
  match x with Panic => true | _ => false end.

(** [opt.unwrap()] and [opt.expect(..)]. *)
Definition unwrap {A} (o : option A) : outcome A :=
  match o with Some a => Ok a | None => Panic end.

Lemma bind_Ok {A B} (f : A → outcome B) a : (Ok a ≫= f) = f a.
Proof. done. Qed.

Lemma bind_is_Ok {A B} (x : outcome A) (f : A → outcome B) b :
  x ≫= f = Ok b ↔ ∃ a, x = Ok a ∧ f a = Ok b.
Proof. destruct x; naive_solver. Qed.

Lemma bind_is_Panic {A B} (x : outcome A) (f : A → outcome B) :
  x ≫= f = Panic ↔ x = Panic ∨ ∃ a, x = Ok a ∧ f a = Panic.
Proof. destruct x; naive_solver. Qed.

(** ** Machine integers

    A [w]-bit integer is a [Z].  [+], [-], [*] on Rust integers panic on
    overflow when overflow checks are compiled in (the default of a debug
    build) and wrap otherwise (the default of a release build); the repository
    does not fix the setting, so every model is parameterised by it. *)

Class Profile := overflow_checks : bool.

Definition in_u (w z : Z) : bool := (0 <=? z) && (z <? 2 ^ w).
Definition in_s (w z : Z) : bool := (- 2 ^ (w - 1) <=? z) && (z <? 2 ^ (w - 1)).

(** [as u<w>] and [as i<w>]. *)
Definition wrap_u (w z : Z) : Z := z mod 2 ^ w.
Definition wrap_s (w z : Z) : Z := (z + 2 ^ (w - 1)) mod 2 ^ w - 2 ^ (w - 1).

Definition arith_u `{Profile} (w z : Z) : outcome Z :=
  if in_u w z then Ok z else if overflow_checks then Panic else Ok (wrap_u w z).
Definition arith_s `{Profile} (w z : Z) : outcome Z :=
  if in_s w z then Ok z else if overflow_checks then Panic else Ok (wrap_s w z).

Notation U32_MAX := 4294967295.

Lemma arith_u_ok `{Profile} w z : 0 <= z < 2 ^ w → arith_u w z = Ok z.
Proof.
  intros ?. unfold arith_u, in_u.
  by rewrite (proj2 (Z.leb_le _ _)), (proj2 (Z.ltb_lt _ _)) by lia.
Qed.

Lemma arith_s_ok `{Profile} w z : - 2 ^ (w - 1) <= z < 2 ^ (w - 1) → arith_s w z = Ok z.
Proof.
  intros ?. unfold arith_s, in_s.
  by rewrite (proj2 (Z.leb_le _ _)), (proj2 (Z.ltb_lt _ _)) by lia.
Qed.

Lemma arith_u_bad `{Profile} w z :
  ¬ (0 <= z < 2 ^ w) →
  arith_u w z = if overflow_checks then Panic else Ok (wrap_u w z).
Proof.
  intros Hz. unfold arith_u, in_u.
  destruct (Z.leb_spec 0 z), (Z.ltb_spec z (2 ^ w)); simpl; (done || lia).
Qed.

(** A result has the width of its operation. *)
Lemma wrap_u_range w z : 0 <= w → 0 <= wrap_u w z < 2 ^ w.
Proof. intros. apply Z.mod_pos_bound. lia. Qed.

Lemma arith_u_range `{Profile} w z r : 0 <= w → arith_u w z = Ok r → 0 <= r < 2 ^ w.
Proof.
  intros Hw. unfold arith_u, in_u. pose proof (wrap_u_range w z Hw).
  destruct (Z.leb_spec 0 z), (Z.ltb_spec z (2 ^ w)); simpl; [by intros [= <-]|..];
    destruct overflow_checks; by intros [= <-].
Qed.

Lemma wrap_u_small w z : 0 <= z < 2 ^ w → wrap_u w z = z.
Proof. apply Z.mod_small. Qed.

Lemma wrap_s_small w z : 0 < w → - 2 ^ (w - 1) <= z < 2 ^ (w - 1) → wrap_s w z = z.
Proof.
  intros Hw Hz. unfold wrap_s.
  assert (2 ^ w = 2 * 2 ^ (w - 1)) as E
    by (rewrite <- Z.pow_succ_r by lia; f_equal; lia).
  rewrite Z.mod_small; lia.
Qed.

(** ** Slices *)

Definition len {A} (l : list A) : Z := Z.of_nat (length l).

(** [&raw[i..j]], [&raw[i..]] and [raw[i]]: out of range panics. *)
Definition slice {A} (i j : nat) (raw : list A) : outcome (list A) :=
  if decide (i ≤ j ≤ length raw)%nat then Ok (take (j - i) (drop i raw)) else Panic.
Definition slice_from {A} (i : nat) (raw : list A) : outcome (list A) :=
  if decide (i ≤ length raw)%nat then Ok (drop i raw) else Panic.
Definition index {A} (i : nat) (raw : list A) : outcome A := unwrap (raw !! i).

(** [slice.chunks(n)] for [n > 0], with fuel [length l] (each chunk is not empty). *)
Fixpoint chunks_fuel {A} (fuel n : nat) (l : list A) : list (list A) :=
  match fuel, l with
  | _, [] => []
  | O, _ => []
  | S fuel, _ => take n l :: chunks_fuel fuel n (drop n l)
  end.
Definition chunks {A} (n : nat) (l : list A) : list (list A) :=
  chunks_fuel (length l) n l.

Lemma chunks_fuel_cons {A} fuel n (l : list A) :
  l ≠ [] → chunks_fuel (S fuel) n l = take n l :: chunks_fuel fuel n (drop n l).
Proof. by destruct l. Qed.

Lemma chunks_fuel_concat {A} fuel n (l : list A) :
  (0 < n)%nat → (length l ≤ fuel)%nat → concat (chunks_fuel fuel n l) = l.
Proof.
  intros Hn. revert l. induction fuel as [|fuel IH]; intros [|x l] Hl; try done; simpl in Hl.
  - lia.
  - cbn [chunks_fuel concat]. rewrite IH; [by rewrite take_drop|].
    rewrite length_drop; simpl; lia.
Qed.

Lemma chunks_concat {A} n (l : list A) : (0 < n)%nat → concat (chunks n l) = l.
Proof. intros. by apply chunks_fuel_concat. Qed.

(** ** Filtered lists *)

Lemma filter_none {A} (P : A → Prop) `{!∀ x, Decision (P x)} (l : list A) : (∀ x, x ∈ l → ¬ P x) → filter P l = [].
Proof.
  intros Hn. apply elem_of_nil_inv. intros x [HP Hx]%list_elem_of_filter. by eapply Hn.
Qed.

Lemma filter_all {A} (P : A → Prop) `{!∀ x, Decision (P x)} (l : list A) : (∀ x, x ∈ l → P x) → filter P l = l.
Proof.
  induction l as [|x l IH]; intros Ha; [done|]. rewrite filter_cons_True by (apply Ha; left).
  f_equal. apply IH. intros y Hy. apply Ha. by right.
Qed.

Lemma filter_congr {A} (P Q : A → Prop) `{!∀ x, Decision (P x), !∀ x, Decision (Q x)} (l : list A) :
  (∀ x, x ∈ l → P x ↔ Q x) → filter P l = filter Q l.
Proof.
  induction l as [|x l IH]; intros Hl; [done|]. rewrite !filter_cons, IH by (intros; apply Hl; by right).
  pose proof (Hl x ltac:(left)). do 2 case_decide; tauto.
Qed.

Lemma StronglySorted_filter {A} (R : A → A → Prop) (P : A → Prop) `{!∀ x, Decision (P x)} l :
  StronglySorted R l → StronglySorted R (filter P l).
Proof.
  induction 1 as [|x l Hl IH Hx]; [constructor|]. rewrite filter_cons. case_decide; [|done].
  constructor; [done|]. rewrite Forall_forall in *. intros y [_ Hy]%list_elem_of_filter. by apply Hx.
Qed.
