(* ===== verification/seq_number.v ===== *)
(** * Sequence numbers ([src/seq_number.rs])

    [GenericSeqNumber<T>] is a [u32] tagged with [T::MAX_NUMBER]: a number is a
    [Z], the constant is the first argument of every operation.  [SeqNumber] and
    [AckSeqNumber] have [MAX_NUMBER = 0x7fff_ffff], [MsgNumber] has
    [0x1fff_ffff].  [From<u32>] does not check the range, so a number read from
    a packet may be any [u32]; [valid] singles out the documented range. *)

From S2P Require Import prelude.

Declare Scope seq_scope.
Delimit Scope seq_scope with seq.

Definition SEQ_MAX : Z := 2147483647.
Definition MSG_MAX : Z := 536870911.

(** [impl Sub], [impl Add<i32>], [impl Sub<i32>] for [GenericSeqNumber<T>]. *)
Module GenericSeqNumber.
Section operations.
Context `{Profile} (MAX_NUMBER : Z).

Definition threshold : Z := MAX_NUMBER / 2.

(** [MAX_NUMBER + 1 + lo - hi], evaluated left to right in [u32]. *)
Definition wrapped_distance (lo hi : Z) : outcome Z :=
  x ← arith_u 32 (lo + MAX_NUMBER);
  y ← arith_u 32 (x + 1);
  arith_u 32 (y - hi).

Definition sub (self other : Z) : outcome Z :=
  if Z.abs (self - other) <=? threshold then
    arith_s 32 (wrap_s 32 self - wrap_s 32 other)
  else if self <? threshold then
    z ← wrapped_distance self other; arith_s 32 (wrap_s 32 z * -1)
  else
    z ← wrapped_distance other self; Ok (wrap_s 32 z).

(** [i64] arithmetic on a [u32] and an [i32] cannot overflow. *)
Definition add (self rhs : Z) : Z := (self + rhs) mod (MAX_NUMBER + 1).

Definition sub_i32 (self rhs : Z) : outcome Z :=
  r ← arith_s 32 (rhs * -1); Ok (add self r).
End operations.
End GenericSeqNumber.

Notation "a ⊖ b" := (GenericSeqNumber.sub SEQ_MAX a b)
  (at level 50, left associativity) : seq_scope.
Notation "a ⊕ r" := (GenericSeqNumber.add SEQ_MAX a r)
  (at level 50, left associativity) : seq_scope.
#[global] Open Scope seq_scope.

(** The documented range [[0, MAX_NUMBER]] of a sequence number. *)
Definition valid (a : Z) : Prop := 0 <= a <= SEQ_MAX.
#[export] Instance valid_dec a : Decision (valid a).
Proof. unfold valid. apply _. Defined.

(** Reference semantics: the number of increments that lead from [a] to [b], and
    the signed distance of 31-bit cyclic arithmetic. *)
Definition steps (a b : Z) : Z := (b - a) mod 2 ^ 31.
Definition cyclic_sub (a b : Z) : Z := wrap_s 31 (a - b).

Ltac seq_unfold :=
  unfold valid, steps, cyclic_sub, GenericSeqNumber.add, GenericSeqNumber.threshold,
    wrap_s, wrap_u, SEQ_MAX, MSG_MAX in *; simpl Z.sub in *.

(** ** Elementary facts, used through the hint database [seq] *)

Create HintDb seq discriminated.

Lemma seq_add_valid a r : valid (a ⊕ r).
Proof. seq_unfold. pose proof (Z.mod_pos_bound (a + r) (2147483647 + 1)). lia. Qed.

Lemma seq_add_small a r : 0 <= a + r <= SEQ_MAX → a ⊕ r = a + r.
Proof. intros. unfold GenericSeqNumber.add. apply Z.mod_small. unfold SEQ_MAX in *; lia. Qed.

Lemma seq_add_add a r s : (a ⊕ r) ⊕ s = a ⊕ (r + s).
Proof. unfold GenericSeqNumber.add. rewrite Z.add_mod_idemp_l by done. f_equal; lia. Qed.

Lemma seq_add_0 a : valid a → a ⊕ 0 = a.
Proof. intros. rewrite seq_add_small; unfold valid in *; lia. Qed.

Lemma seq_zero_valid : valid 0. Proof. done. Qed.
Lemma seq_max_valid : valid SEQ_MAX. Proof. done. Qed.

#[export] Hint Resolve seq_add_valid seq_zero_valid seq_max_valid : seq.

Section facts.
Context `{Profile}.

Lemma sub_i32_small a r : -2147483647 <= r <= 2147483647 →
  GenericSeqNumber.sub_i32 SEQ_MAX a r = Ok (a ⊕ (- r)).
Proof.
  intros. unfold GenericSeqNumber.sub_i32.
  rewrite arith_s_ok by (simpl Z.sub; lia). simpl. do 3 f_equal. lia.
Qed.

Lemma wrapped_distance_ok lo hi :
  valid lo → valid hi → 
  GenericSeqNumber.wrapped_distance SEQ_MAX lo hi = Ok (2 ^ 31 + lo - hi).
Proof.
  intros. unfold GenericSeqNumber.wrapped_distance, valid, SEQ_MAX in *.
  rewrite arith_u_ok by lia. cbn [mbind outcome_bind].
  rewrite arith_u_ok by lia. cbn [mbind outcome_bind].
  rewrite arith_u_ok by lia. f_equal; lia.
Qed.

(** The value of a subtraction of valid numbers, in both build profiles. *)
Lemma seq_sub_value a b : valid a → valid b →
  a ⊖ b = Ok (if Z.abs (a - b) <=? 1073741823 then a - b
              else if a <? b then - (2 ^ 31 + a - b) else 2 ^ 31 + b - a).
Proof.
  intros Ha Hb. unfold GenericSeqNumber.sub.
  change (GenericSeqNumber.threshold SEQ_MAX) with 1073741823.
  rewrite !wrapped_distance_ok by done. unfold valid, SEQ_MAX in *.
  rewrite (wrap_s_small 32 a), (wrap_s_small 32 b) by (simpl Z.sub; lia).
  cbn [mbind outcome_bind].
  destruct (Z.leb_spec (Z.abs (a - b)) 1073741823).
  - by rewrite arith_s_ok by (simpl Z.sub; lia).
  - destruct (Z.ltb_spec a 1073741823).
    + destruct (Z.ltb_spec a b); [|lia].
      rewrite wrap_s_small by (simpl Z.sub; lia).
      rewrite arith_s_ok by (simpl Z.sub; lia). f_equal; lia.
    + destruct (Z.ltb_spec a b).
      * assert (a = 1073741823 ∧ b = 2147483647) as [-> ->] by lia. done.
      * rewrite wrap_s_small by (simpl Z.sub; lia). done.
Qed.

(** Inside a window of [threshold] numbers, subtraction is the integer difference. *)
Lemma seq_sub_near a b : valid a → valid b → Z.abs (a - b) <= 1073741823 →
  a ⊖ b = Ok (a - b).
Proof.
  intros. rewrite seq_sub_value by done. by rewrite (proj2 (Z.leb_le _ _)).
Qed.

Lemma seq_sub_is_ok a b : valid a → valid b → ∃ d, a ⊖ b = Ok d.
Proof. intros. rewrite seq_sub_value by done. eauto. Qed.
(** The distance covered by an advance of less than half the number space. *)
Lemma seq_advance_sub a r : valid a → 0 <= r < 2 ^ 30 →
  (a ⊕ r) ⊖ a = Ok (if a + r <=? SEQ_MAX then r else - r).
Proof.
  intros Ha Hr.
  assert (a ⊕ r = if a + r <=? SEQ_MAX then a + r else a + r - 2 ^ 31) as E.
  { unfold valid, SEQ_MAX in *. destruct (Z.leb_spec (a + r) 2147483647).
    - apply seq_add_small. unfold SEQ_MAX; lia.
    - unfold GenericSeqNumber.add. rewrite <- (Z_mod_plus_full _ (-1)), Z.mod_small by lia. lia. }
  rewrite seq_sub_value by auto with seq. rewrite E.
  unfold valid, SEQ_MAX in *. f_equal. repeat case_match; lia.
Qed.
End facts.


Lemma steps_add a r : valid a → 0 <= r < 2 ^ 31 → steps a (a ⊕ r) = r.
Proof.
  intros Ha Hr. unfold steps, GenericSeqNumber.add.
  change (SEQ_MAX + 1) with (2 ^ 31).
  rewrite Zminus_mod_idemp_l. replace (a + r - a) with r by lia. by apply Z.mod_small.
Qed.

Lemma steps_value a b : valid a → valid b →
  steps a b = if b <? a then b - a + 2 ^ 31 else b - a.
Proof.
  unfold valid, steps, SEQ_MAX. intros. destruct (Z.ltb_spec b a).
  - by rewrite <- (Z_mod_plus_full _ 1), Z.mod_small by lia.
  - by rewrite Z.mod_small by lia.
Qed.

Lemma cyclic_sub_value a b : valid a → valid b →
  cyclic_sub a b =
    if a - b <? - 2 ^ 30 then a - b + 2 ^ 31
    else if a - b <? 2 ^ 30 then a - b else a - b - 2 ^ 31.
Proof.
  unfold valid, cyclic_sub, wrap_s, SEQ_MAX. intros. simpl Z.sub.
  destruct (Z.ltb_spec (a - b) (- 2 ^ 30)).
  - rewrite <- (Z_mod_plus_full _ 1), Z.mod_small by lia. lia.
  - destruct (Z.ltb_spec (a - b) (2 ^ 30)).
    + rewrite Z.mod_small by lia. lia.
    + rewrite <- (Z_mod_plus_full _ (-1)), Z.mod_small by lia. lia.
Qed.

(** ** Properties *)

Section properties.
Context `{Profile}.

(** C39. [SeqNumber - SeqNumber] against 31-bit cyclic arithmetic: for two valid
    numbers it never overflows, it is the cyclic difference as long as the two
    numbers are less than [2^30] apart as integers, and it is the cyclic
    difference with the {e opposite sign} as soon as the interval between them
    crosses the wrap-around point ([0 - MAX_NUMBER] is [-1], not [1]). *)
Theorem seq_sub_cyclic a b :
  valid a → valid b → Z.abs (a - b) ≠ 2 ^ 30 →
  a ⊖ b = Ok (if Z.abs (a - b) <? 2 ^ 30 then cyclic_sub a b else - cyclic_sub a b).
Proof.
  intros Ha Hb Hne. rewrite seq_sub_value, cyclic_sub_value by done.
  unfold valid, SEQ_MAX in *. f_equal. repeat case_match; lia.
Qed.

(** Advancing a number by [r < 2^30] and subtracting the origin gives back
    [r] when the addition does not wrap, and [-r] when it does: across the
    wrap-around point the later of two numbers compares as the earlier one. *)
Theorem seq_add_sub_roundtrip a r :
  valid a → 0 <= r < 2 ^ 30 →
  (a ⊕ r) ⊖ a = Ok (if a + r <=? SEQ_MAX then r else - r).
Proof. apply seq_advance_sub. Qed.

(** Subtraction of valid numbers is total, antisymmetric, bounded by half the
    number space and zero on equal numbers only, whatever the build profile. *)
Theorem seq_sub_antisymmetric a b :
  valid a → valid b →
  ∃ d, a ⊖ b = Ok d ∧ b ⊖ a = Ok (- d) ∧ Z.abs d <= 2 ^ 30 ∧ (d = 0 ↔ a = b).
Proof.
  intros Ha Hb. rewrite !seq_sub_value by done. eexists; split; [done|].
  unfold valid, SEQ_MAX in *.
  split; [f_equal|split]; repeat case_match; lia.
Qed.

(** A number outside the documented range, which [From<u32>] accepts, makes
    the subtraction overflow: a panic when overflow checks are on, a negative
    wrapped distance when they are off. *)
Theorem seq_sub_out_of_range a b :
  valid b → b + 2 ^ 31 < a <= U32_MAX →
  a ⊖ b = if overflow_checks then Panic else Ok (b + 2 ^ 31 - a).
Proof.
  intros Hb Ha. unfold GenericSeqNumber.sub.
  change (GenericSeqNumber.threshold SEQ_MAX) with 1073741823. unfold valid, SEQ_MAX in *.
  rewrite (proj2 (Z.leb_gt _ _)), (proj2 (Z.ltb_ge _ _)) by lia.
  unfold GenericSeqNumber.wrapped_distance, SEQ_MAX.
  rewrite arith_u_ok by lia. cbn [mbind outcome_bind].
  rewrite arith_u_ok by lia. cbn [mbind outcome_bind].
  rewrite arith_u_bad by lia. destruct overflow_checks; [done|].
  cbn [mbind outcome_bind]. f_equal. unfold wrap_u.
  rewrite <- (Z_mod_plus_full _ 1), Z.mod_small by lia.
  unfold wrap_s. change (2 ^ (32 - 1)) with (2 ^ 31).
  rewrite <- (Z_mod_plus_full _ (-1)), Z.mod_small by lia. lia.
Qed.
End properties.

Lemma seq_sub_cyclic_witness :
  @GenericSeqNumber.sub true SEQ_MAX 0 SEQ_MAX = Ok (-1) ∧ cyclic_sub 0 SEQ_MAX = 1.
Proof.
  split; [|reflexivity].
  apply (@seq_sub_cyclic true 0 SEQ_MAX); (lia || done).
Defined.

Lemma seq_add_sub_roundtrip_witness :
  @GenericSeqNumber.sub true SEQ_MAX (SEQ_MAX ⊕ 3) SEQ_MAX = Ok (-3).
Proof. apply (@seq_add_sub_roundtrip true SEQ_MAX 3); (lia || done). Defined.

Lemma seq_sub_antisymmetric_witness :
  ∃ d, @GenericSeqNumber.sub false SEQ_MAX 7 3 = Ok d
     ∧ @GenericSeqNumber.sub false SEQ_MAX 3 7 = Ok (- d)
     ∧ Z.abs d <= 2 ^ 30 ∧ (d = 0 ↔ 7 = 3).
Proof. apply (@seq_sub_antisymmetric false 7 3); done. Defined.

Lemma seq_sub_out_of_range_witness :
  @GenericSeqNumber.sub true SEQ_MAX U32_MAX 0 = Panic.
Proof. apply (@seq_sub_out_of_range true U32_MAX 0); (lia || done). Defined.
