(* ===== verification/time.v ===== *)
(** * Time

    [tokio::time::Instant] is a number of nanoseconds on a monotonic clock,
    [Duration] a number of nanoseconds of at most [DURATION_MAX].  [Duration]
    operators panic on overflow in every build profile; subtracting instants
    saturates at zero. *)

From S2P Require Import prelude.

(** [Duration::MAX]: [u64::MAX] seconds and 999_999_999 nanoseconds. *)
Definition DURATION_MAX : Z := 18446744073709551615 * 1000000000 + 999999999.

Definition from_micros (us : Z) : Z := us * 1000.
Definition from_millis (ms : Z) : Z := ms * 1000000.
Definition from_secs (s : Z) : Z := s * 1000000000.

Definition duration (d : Z) : outcome Z :=
  if (0 <=? d) && (d <=? DURATION_MAX) then Ok d else Panic.

Definition dur_add (a b : Z) : outcome Z := duration (a + b).
Definition dur_sub (a b : Z) : outcome Z := duration (a - b).
Definition dur_mul (n d : Z) : outcome Z := duration (n * d).
Definition dur_div (d n : Z) : outcome Z := if n =? 0 then Panic else Ok (d / n).

(** [later - earlier] and [earlier.elapsed()] at time [later]. *)
Definition duration_since (later earlier : Z) : Z := Z.max 0 (later - earlier).

Definition as_micros (d : Z) : Z := d / 1000.
Definition as_secs (d : Z) : Z := d / 1000000000.

Definition wf_duration (d : Z) : Prop := 0 <= d <= DURATION_MAX.

Lemma duration_ok d : wf_duration d → duration d = Ok d.
Proof.
  unfold wf_duration, duration. intros.
  by rewrite (proj2 (Z.leb_le 0 d)), (proj2 (Z.leb_le d DURATION_MAX)) by lia.
Qed.

Lemma duration_since_nonneg a b : 0 <= duration_since a b.
Proof. unfold duration_since. lia. Qed.

Lemma duration_inv d r : duration d = Ok r → r = d ∧ wf_duration d.
Proof.
  unfold duration, wf_duration. destruct (_ && _) eqn:E; [|done].
  intros <-%(inj Ok). apply andb_true_iff in E as [? ?]. lia.
Qed.

(** ** Durations far from overflow

    Every duration the code measures between two instants of one run is far below
    this bound, which exceeds half a billion years. *)
Definition SANE_DURATION : Z := DURATION_MAX / 1024.
Definition sane (d : Z) : Prop := 0 <= d <= SANE_DURATION.

Lemma sane_duration n d : sane d → 0 <= n <= 512 → dur_mul n d = Ok (n * d).
Proof.
  unfold sane, dur_mul. intros. apply duration_ok. unfold wf_duration.
  assert (512 * SANE_DURATION <= DURATION_MAX) by done. nia.
Qed.
