(* ===== verification/bytes.v ===== *)
(** * Byte strings

    Big-endian integers ([to_be_bytes], [from_be_bytes]) and reads at an offset
    of a byte slice, as the packet codecs of [src/control_packet.rs] and
    [src/data_packet.rs] use them. *)

From S2P Require Import prelude.

(** ** Big-endian encoding: [to_be_bytes] and [from_be_bytes]; a byte is a [Z] in [0, 256). *)

Definition is_byte (b : Z) : Prop := 0 <= b < 256.

Fixpoint to_be_bytes (n : nat) (v : Z) : list Z :=
  match n with
  | O => []
  | S n => (v / 256 ^ Z.of_nat n) mod 256 :: to_be_bytes n v
  end.

Fixpoint from_be_bytes (bs : list Z) : Z :=
  match bs with
  | [] => 0
  | b :: bs => b * 256 ^ len bs + from_be_bytes bs
  end.

Lemma length_to_be_bytes n v : length (to_be_bytes n v) = n.
Proof. by induction n; simpl; f_equal. Qed.

Lemma to_be_bytes_is_byte n v : Forall is_byte (to_be_bytes n v).
Proof. induction n; simpl; constructor; [unfold is_byte; apply Z.mod_pos_bound; lia|done]. Qed.

Lemma from_to_be_bytes n v : from_be_bytes (to_be_bytes n v) = v mod 256 ^ Z.of_nat n.
Proof.
  induction n as [|n IH]; [by rewrite Z.mod_1_r|].
  cbn [to_be_bytes from_be_bytes]. rewrite IH. unfold len. rewrite length_to_be_bytes.
  replace (Z.of_nat (S n)) with (Z.of_nat n + 1) by lia.
  rewrite Z.pow_add_r, Z.pow_1_r by lia.
  assert (0 < 256 ^ Z.of_nat n) by (apply Z.pow_pos_nonneg; lia).
  rewrite Z.rem_mul_r by lia. lia.
Qed.

Lemma from_to_be_bytes_small n v :
  0 <= v < 256 ^ Z.of_nat n → from_be_bytes (to_be_bytes n v) = v.
Proof. intros. by rewrite from_to_be_bytes, Z.mod_small. Qed.

Lemma from_be_bytes_cons b bs :
  from_be_bytes (b :: bs) = b * 256 ^ len bs + from_be_bytes bs.
Proof. done. Qed.

Lemma from_be_bytes_range bs :
  Forall is_byte bs → 0 <= from_be_bytes bs < 256 ^ len bs.
Proof.
  induction 1 as [|b bs Hb Hbs IH]; [done|]. unfold is_byte in Hb.
  cbn [from_be_bytes]. unfold len in *. cbn [length].
  rewrite Nat2Z.inj_succ, Z.pow_succ_r by lia. nia.
Qed.

Lemma to_from_be_bytes bs :
  Forall is_byte bs → to_be_bytes (length bs) (from_be_bytes bs) = bs.
Proof.
  assert (∀ n v k, to_be_bytes n (k * 256 ^ Z.of_nat n + v) = to_be_bytes n v) as Haux.
  { induction n as [|n IH]; intros v k; [done|]. cbn [to_be_bytes].
    assert (0 < 256 ^ Z.of_nat n) by (apply Z.pow_pos_nonneg; lia).
    rewrite Nat2Z.inj_succ, Z.pow_succ_r by lia.
    replace (k * (256 * 256 ^ Z.of_nat n) + v) with ((k * 256) * 256 ^ Z.of_nat n + v) by ring.
    rewrite IH. f_equal. rewrite Z.div_add_l by lia.
    rewrite Z.add_comm. by rewrite Z.mod_add by lia. }
  induction 1 as [|b bs Hb Hbs IH]; [done|]. unfold is_byte in Hb.
  cbn [length to_be_bytes from_be_bytes]. unfold len in *.
  pose proof (from_be_bytes_range bs Hbs) as Hr. unfold len in Hr.
  rewrite Haux, IH. f_equal.
  rewrite Z.div_add_l, (Z.div_small (from_be_bytes bs)) by lia.
  rewrite Z.add_0_r. by apply Z.mod_small.
Qed.



(** [u16::from_be_bytes(raw[off..off+2].try_into().unwrap())] and the [u32] form. *)
Definition u16_at (off : nat) (raw : list Z) : outcome Z :=
  bs ← slice off (off + 2) raw; Ok (from_be_bytes bs).
Definition u32_at (off : nat) (raw : list Z) : outcome Z :=
  bs ← slice off (off + 4) raw; Ok (from_be_bytes bs).

(** The [get_u32] closure of the control field parsers: the word at index [idx]. *)
Definition get_u32 (raw : list Z) (idx : nat) : outcome Z := u32_at (idx * 4) raw.

(** A sequence of [u32] words, each in big-endian order. *)
Definition words (ws : list Z) : list Z := concat (map (to_be_bytes 4) ws).

(** ** Slices of concatenations *)

Section slices.
Context {A : Type}.
Implicit Types l : list A.

Lemma slice_ok i j l : (i ≤ j ≤ length l)%nat → slice i j l = Ok (take (j - i) (drop i l)).
Proof. intros. unfold slice. by rewrite decide_True. Qed.

Lemma slice_is_panic i j l : slice i j l = Panic ↔ ¬ (i ≤ j ≤ length l)%nat.
Proof. unfold slice. case_decide; naive_solver. Qed.

Lemma slice_from_ok i l : (i ≤ length l)%nat → slice_from i l = Ok (drop i l).
Proof. intros. unfold slice_from. by rewrite decide_True. Qed.

Lemma slice_app_middle i j l1 l2 l3 :
  length l1 = i → length l2 = (j - i)%nat → (i ≤ j)%nat →
  slice i j (l1 ++ l2 ++ l3) = Ok l2.
Proof.
  intros <- Hl Hij. rewrite slice_ok by (rewrite !length_app; lia).
  by rewrite drop_app_length, <- Hl, take_app_length.
Qed.

Lemma slice_app_first j l1 l2 : length l1 = j → slice 0 j (l1 ++ l2) = Ok l1.
Proof. intros. apply (slice_app_middle 0 j []); simpl; lia. Qed.

Lemma slice_from_app i l1 l2 : length l1 = i → slice_from i (l1 ++ l2) = Ok l2.
Proof.
  intros <-. rewrite slice_from_ok by (rewrite length_app; lia).
  by rewrite drop_app_length.
Qed.
End slices.

(** ** Reads *)

Lemma words_app ws1 ws2 : words (ws1 ++ ws2) = words ws1 ++ words ws2.
Proof. unfold words. by rewrite map_app, concat_app. Qed.

Lemma words_cons w ws : words (w :: ws) = to_be_bytes 4 w ++ words ws.
Proof. done. Qed.

Lemma length_words ws : length (words ws) = (4 * length ws)%nat.
Proof.
  induction ws as [|w ws IH]; [done|].
  rewrite words_cons, length_app, length_to_be_bytes, IH. simpl; lia.
Qed.

Lemma words_is_byte ws : Forall is_byte (words ws).
Proof.
  induction ws; [constructor|]. rewrite words_cons.
  apply Forall_app; split; [apply to_be_bytes_is_byte|done].
Qed.

Lemma u32_at_words off i pre ws post w :
  ws !! i = Some w → off = (length pre + 4 * i)%nat →
  u32_at off (pre ++ words ws ++ post) = Ok (w mod 2 ^ 32).
Proof.
  intros Hw ->. apply list_elem_of_split_length in Hw as (ws1 & ws2 & -> & Hi).
  unfold u32_at. rewrite words_app, words_cons.
  replace (pre ++ (words ws1 ++ to_be_bytes 4 w ++ words ws2) ++ post)
    with ((pre ++ words ws1) ++ to_be_bytes 4 w ++ (words ws2 ++ post))
    by (by rewrite <- !app_assoc).
  rewrite slice_app_middle.
  - cbn [mbind outcome_bind]. by rewrite from_to_be_bytes.
  - rewrite length_app, length_words. lia.
  - rewrite length_to_be_bytes. lia.
  - lia.
Qed.

Lemma u32_at_words_first off i ws post w :
  ws !! i = Some w → off = (4 * i)%nat → u32_at off (words ws ++ post) = Ok (w mod 2 ^ 32).
Proof. intros Hi ->. by apply (u32_at_words _ i []). Qed.

Lemma get_u32_words ws post i w :
  ws !! i = Some w → 0 <= w < 2 ^ 32 → get_u32 (words ws ++ post) i = Ok w.
Proof.
  intros Hi Hw. unfold get_u32.
  rewrite (u32_at_words_first _ i ws post w) by (done || lia). f_equal. by apply Z.mod_small.
Qed.

Lemma u16_at_app off pre v post :
  off = length pre → u16_at off (pre ++ to_be_bytes 2 v ++ post) = Ok (v mod 2 ^ 16).
Proof.
  intros ->. unfold u16_at. rewrite slice_app_middle.
  - cbn [mbind outcome_bind]. by rewrite from_to_be_bytes.
  - done.
  - rewrite length_to_be_bytes. lia.
  - lia.
Qed.

Lemma to_be_bytes_4_head v : to_be_bytes 4 v !! 0%nat = Some ((v / 2 ^ 24) mod 256).
Proof. done. Qed.

Lemma u32_at_ok off raw : (off + 4 ≤ length raw)%nat →
  u32_at off raw = Ok (from_be_bytes (take 4 (drop off raw))).
Proof.
  intros. unfold u32_at. rewrite slice_ok by lia.
  replace (off + 4 - off)%nat with 4%nat by lia. done.
Qed.

Lemma u16_at_ok off raw : (off + 2 ≤ length raw)%nat →
  u16_at off raw = Ok (from_be_bytes (take 2 (drop off raw))).
Proof.
  intros. unfold u16_at. rewrite slice_ok by lia.
  replace (off + 2 - off)%nat with 2%nat by lia. done.
Qed.

Lemma u32_at_short off raw : (length raw < off + 4)%nat → u32_at off raw = Panic.
Proof. intros. unfold u32_at. rewrite (proj2 (slice_is_panic _ _ _)); [done|lia]. Qed.

Lemma u32_at_range off raw v :
  Forall is_byte raw → u32_at off raw = Ok v → 0 <= v < 2 ^ 32.
Proof.
  intros Hraw. destruct (decide (off + 4 ≤ length raw)%nat).
  - rewrite u32_at_ok by done. intros [= <-].
    assert (Forall is_byte (take 4 (drop off raw))) as Hb by (by apply Forall_take, Forall_drop).
    apply from_be_bytes_range in Hb. unfold len in Hb.
    rewrite length_take, length_drop in Hb.
    replace (4 `min` (length raw - off))%nat with 4%nat in Hb by lia. apply Hb.
  - rewrite u32_at_short by lia. done.
Qed.

Lemma u16_at_app_first v post : u16_at 0 (to_be_bytes 2 v ++ post) = Ok (v mod 2 ^ 16).
Proof. by apply (u16_at_app 0 []). Qed.

Lemma chunks_words ws : chunks 4 (words ws) = map (to_be_bytes 4) ws.
Proof.
  unfold chunks. assert (∀ fuel, (length (words ws) ≤ fuel)%nat →
    chunks_fuel fuel 4 (words ws) = map (to_be_bytes 4) ws) as Haux; [|by apply Haux].
  induction ws as [|w ws IH]; intros fuel Hfuel; [by destruct fuel|].
  rewrite length_words in Hfuel. simpl in Hfuel. destruct fuel as [|fuel]; [lia|].
  rewrite words_cons, chunks_fuel_cons by done.
  rewrite take_app_length', drop_app_length' by (by rewrite length_to_be_bytes).
  rewrite IH; [done|]. rewrite length_words. lia.
Qed.

(** A property of bytes can be checked by enumeration. *)
Lemma byte_enumerate (f : Z → bool) :
  forallb f (map Z.of_nat (seq 0 256)) = true → ∀ b, is_byte b → f b = true.
Proof.
  intros Hf b Hb. rewrite forallb_forall in Hf. apply Hf.
  apply in_map_iff. exists (Z.to_nat b). unfold is_byte in Hb.
  split; [lia|]. apply in_seq. lia.
Qed.

#[global] Arguments to_be_bytes : simpl never.
#[global] Arguments from_be_bytes : simpl never.
#[global] Arguments words : simpl never.
