(* ===== verification/data_packet.v ===== *)
(** * Data packets ([src/data_packet.rs])

    The 16-byte header and its payload.  [UdtDataPacket::deserialize] slices the
    datagram before the header parser checks its length, so a datagram shorter
    than 16 bytes panics and the [InvalidData] branch of the header parser is
    not reachable through it. *)

From S2P Require Import prelude seq_number bytes.

Definition UDT_DATA_HEADER_SIZE : nat := 16.

Inductive PacketPosition := First | Last | Only | Middle.

#[export] Instance PacketPosition_eq_dec : EqDecision PacketPosition.
Proof. solve_decision. Defined.

Module PacketPosition.
(** [position as u32]: the discriminants of the enum. *)
Definition as_u32 (p : PacketPosition) : Z :=
  match p with First => 2 | Last => 1 | Only => 3 | Middle => 0 end.

(** [impl TryFrom<u8>]. *)
Definition try_from (raw_position : Z) : outcome PacketPosition :=
  if raw_position =? 2 then Ok First
  else if raw_position =? 1 then Ok Last
  else if raw_position =? 3 then Ok Only
  else if raw_position =? 0 then Ok Middle
  else Err InvalidData.
End PacketPosition.

Module UdtDataPacketHeader.
Record t := mk {
  seq_number : Z;
  position : PacketPosition;
  in_order : bool;
  msg_number : Z;
  timestamp : Z;
  dest_socket_id : Z
}.

Definition deserialize (raw : list Z) : outcome t :=
  if decide (length raw < 16)%nat then Err InvalidData else
  seq_word ← u32_at 0 raw;
  raw4 ← index 4 raw;
  position ← PacketPosition.try_from (Z.shiftr (Z.land raw4 192) 6);
  let in_order := negb (Z.land raw4 32 =? 0) in
  msg_word ← u32_at 4 raw;
  timestamp ← u32_at 8 raw;
  dest_socket_id ← u32_at 12 raw;
  Ok (mk (Z.land seq_word 2147483647) position in_order
         (Z.land msg_word 536870911) timestamp dest_socket_id).

(** [+] on [u32] is checked arithmetic; [<<] drops the bits shifted out. *)
Definition serialize `{Profile} (h : t) : outcome (list Z) :=
  block ← arith_u 32 (wrap_u 32 (Z.shiftl (PacketPosition.as_u32 (position h)) 30)
                      + wrap_u 32 (Z.shiftl (Z.b2z (in_order h)) 29));
  block ← arith_u 32 (block + msg_number h);
  Ok (to_be_bytes 4 (seq_number h) ++ to_be_bytes 4 block
      ++ to_be_bytes 4 (timestamp h) ++ to_be_bytes 4 (dest_socket_id h)).

(** The ranges the bit layout provides. *)
Definition wf (h : t) : Prop :=
  valid (seq_number h) ∧ 0 <= msg_number h <= MSG_MAX
  ∧ 0 <= timestamp h < 2 ^ 32 ∧ 0 <= dest_socket_id h < 2 ^ 32.
End UdtDataPacketHeader.

Module UdtDataPacket.
Record t := mk { header : UdtDataPacketHeader.t; data : list Z }.

Definition deserialize (raw : list Z) : outcome t :=
  raw_header ← slice 0 UDT_DATA_HEADER_SIZE raw;
  header ← UdtDataPacketHeader.deserialize raw_header;
  data ← slice_from UDT_DATA_HEADER_SIZE raw;
  Ok (mk header data).

Definition payload_len (p : t) : Z := wrap_u 32 (len (data p)).

Definition serialize `{Profile} (p : t) : outcome (list Z) :=
  h ← UdtDataPacketHeader.serialize (header p); Ok (h ++ data p).
End UdtDataPacket.

#[export] Instance data_header_eq_dec : EqDecision UdtDataPacketHeader.t.
Proof. solve_decision. Defined.
#[export] Instance data_packet_eq_dec : EqDecision UdtDataPacket.t.
Proof. solve_decision. Defined.

(** ** The second word of the header: position, order flag and message number *)

Definition header_block (h : UdtDataPacketHeader.t) : Z :=
  PacketPosition.as_u32 (UdtDataPacketHeader.position h) * 2 ^ 30
  + Z.b2z (UdtDataPacketHeader.in_order h) * 2 ^ 29 + UdtDataPacketHeader.msg_number h.

Lemma try_from_as_u32 p : PacketPosition.try_from (PacketPosition.as_u32 p) = Ok p.
Proof. by destruct p. Qed.

Lemma try_from_top_bits b : is_byte b →
  ∃ p, PacketPosition.try_from (Z.shiftr (Z.land b 192) 6) = Ok p
     ∧ PacketPosition.as_u32 p = b / 64.
Proof.
  intros Hb.
  assert (match PacketPosition.try_from (Z.shiftr (Z.land b 192) 6) with
          | Ok p => PacketPosition.as_u32 p =? b / 64 | _ => false end = true) as E.
  { pattern b. refine (byte_enumerate (λ b, _) _ b Hb). by vm_compute. }
  case_match; try done. eexists; split; [done|lia].
Qed.

Lemma order_bit b : is_byte b → Z.b2z (negb (Z.land b 32 =? 0)) = (b / 32) mod 2.
Proof.
  intros Hb. apply Z.eqb_eq. pattern b.
  refine (byte_enumerate (λ b, _) _ b Hb). by vm_compute.
Qed.

Section header.
Context `{Profile}.
Import UdtDataPacketHeader.

Lemma header_block_range h : wf h → 0 <= header_block h < 2 ^ 32.
Proof.
  unfold wf, header_block, MSG_MAX. intros.
  destruct (position h), (in_order h); simpl; lia.
Qed.

Lemma header_serialize_ok h : wf h →
  serialize h = Ok (words [seq_number h; header_block h; timestamp h; dest_socket_id h]).
Proof.
  intros Hwf. pose proof (header_block_range h Hwf) as Hr.
  unfold serialize, header_block, wf, MSG_MAX in *.
  rewrite (wrap_u_small 32 (Z.shiftl _ 30)), (wrap_u_small 32 (Z.shiftl _ 29))
    by (rewrite Z.shiftl_mul_pow2 by lia; destruct (position h), (in_order h); simpl; lia).
  rewrite !Z.shiftl_mul_pow2 by lia.
  rewrite arith_u_ok by (destruct (position h), (in_order h); simpl in *; lia).
  cbn [mbind outcome_bind]. rewrite arith_u_ok by lia. done.
Qed.

Lemma header_block_first_byte h rest : wf h →
  index 4 (words [seq_number h; header_block h] ++ rest) = Ok (header_block h / 2 ^ 24).
Proof.
  intros Hwf. pose proof (header_block_range h Hwf).
  unfold index. rewrite lookup_app_l by (rewrite length_words; simpl; lia).
  rewrite words_cons, lookup_app_r, length_to_be_bytes by (rewrite length_to_be_bytes; lia).
  change (4 - 4)%nat with 0%nat. rewrite words_cons.
  rewrite lookup_app_l, to_be_bytes_4_head by (rewrite length_to_be_bytes; lia).
  cbn [unwrap]. rewrite Z.mod_small; [done|]. split.
  - apply Z.div_pos; lia.
  - apply Z.div_lt_upper_bound; lia.
Qed.

Lemma header_parse_serialized h : wf h →
  deserialize (words [seq_number h; header_block h; timestamp h; dest_socket_id h]) = Ok h.
Proof.
  intros Hwf. pose proof (header_block_range h Hwf) as Hr.
  set (ws := [seq_number h; header_block h; timestamp h; dest_socket_id h]).
  assert (∀ i w, ws !! i = Some w → u32_at (4 * i) (words ws) = Ok (w mod 2 ^ 32)) as Hat.
  { intros i w Hw. rewrite <- (app_nil_r (words ws)). by apply (u32_at_words _ i []). }
  unfold deserialize. rewrite decide_False by (rewrite length_words; simpl; lia).
  rewrite (Hat 0%nat _ eq_refl : u32_at 0 _ = _), (Hat 1%nat _ eq_refl : u32_at 4 _ = _),
    (Hat 2%nat _ eq_refl : u32_at 8 _ = _), (Hat 3%nat _ eq_refl : u32_at 12 _ = _).
  cbn [mbind outcome_bind].
  change (words ws) with (words [seq_number h; header_block h] ++ words [timestamp h; dest_socket_id h]).
  rewrite header_block_first_byte by done. cbn [mbind outcome_bind].
  set (b := header_block h / 2 ^ 24).
  assert (is_byte b) as Hb.
  { unfold b, is_byte. split; [apply Z.div_pos; lia|apply Z.div_lt_upper_bound; lia]. }
  destruct (try_from_top_bits b Hb) as (p & Hp & Hpb). rewrite Hp. cbn [mbind outcome_bind].
  pose proof (order_bit b Hb) as Ho.
  change 2147483647 with (Z.ones 31). change 536870911 with (Z.ones 29).
  rewrite !Z.land_ones by lia.
  unfold b, header_block, wf, MSG_MAX, valid, SEQ_MAX in *.
  destruct h as [s pos io m ts d]; cbn in *.
  f_equal. f_equal.
  - rewrite Z.mod_small; rewrite Z.mod_small; lia.
  - destruct p, pos, io; cbn in *; (done || (exfalso; Z.to_euclidean_division_equations; lia)).
  - destruct (Z.land _ 32 =? 0), io, pos; cbn in *;
      (done || (exfalso; Z.to_euclidean_division_equations; lia)).
  - destruct io, pos; cbn in *; Z.to_euclidean_division_equations; lia.
  - apply Z.mod_small; lia.
  - apply Z.mod_small; lia.
Qed.
End header.

(** ** Parsing arbitrary bytes *)

Section parse.
Context `{Profile}.
Import UdtDataPacketHeader.

Lemma header_parse_ok raw : Forall is_byte raw → length raw = 16%nat →
  ∃ h, deserialize raw = Ok h ∧ wf h
     ∧ from_be_bytes (take 4 raw) mod 2 ^ 31 = seq_number h
     ∧ from_be_bytes (take 4 (drop 4 raw)) = header_block h
     ∧ from_be_bytes (take 4 (drop 8 raw)) = timestamp h
     ∧ from_be_bytes (take 4 (drop 12 raw)) = dest_socket_id h.
Proof.
  intros Hraw Hlen. unfold deserialize. rewrite decide_False by lia.
  rewrite !u32_at_ok by lia. cbn [mbind outcome_bind].
  rewrite (drop_0 raw).
  assert (∃ b c d e, take 4 (drop 4 raw) = [b; c; d; e] ∧ raw !! 4%nat = Some b)
    as (b & c & d & e & Hw & Hb).
  { do 8 (destruct raw as [|? raw]; [done|]). simpl. eauto 10. }
  unfold index. rewrite Hb. cbn [unwrap mbind outcome_bind].
  assert (is_byte b) as Hbb by exact (Forall_lookup_1 _ _ _ _ Hraw Hb).
  destruct (try_from_top_bits b Hbb) as (p & -> & Hp). cbn [mbind outcome_bind].
  eexists. split; [done|].
  assert (∀ off, Forall is_byte (take 4 (drop off raw))) as Hbs
    by (intros; by apply Forall_take, Forall_drop).
  assert (∀ off, 0 <= from_be_bytes (take 4 (drop off raw)) < 2 ^ 32) as Hr.
  { intros off. pose proof (from_be_bytes_range _ (Hbs off)) as Hr.
    assert (256 ^ len (take 4 (drop off raw)) <= 256 ^ 4) as Hle.
    { apply Z.pow_le_mono_r; [lia|]. unfold len. rewrite length_take. lia. }
    lia. }
  change 2147483647 with (Z.ones 31). change 536870911 with (Z.ones 29).
  rewrite !Z.land_ones by lia.
  unfold wf, header_block, valid, SEQ_MAX, MSG_MAX; cbn.
  rewrite (order_bit b) by done. rewrite Hp.
  pose proof (Hr 8%nat). pose proof (Hr 12%nat). pose proof (Hr 4%nat).
  pose proof (Z.mod_pos_bound (from_be_bytes (take 4 raw)) (2 ^ 31)).
  pose proof (Z.mod_pos_bound (from_be_bytes (take 4 (drop 4 raw))) (2 ^ 29)).
  assert (from_be_bytes (take 4 (drop 4 raw)) / 2 ^ 24 = b) as Hq.
  { rewrite Hw. pose proof (Hbs 4%nat) as Hcde. rewrite Hw in Hcde.
    apply Forall_cons_1, proj2 in Hcde.
    pose proof (from_be_bytes_range _ Hcde) as Hlow.
    rewrite from_be_bytes_cons. change (256 ^ len [c; d; e]) with (2 ^ 24) in *.
    rewrite Z.div_add_l, Z.div_small by lia. lia. }
  repeat split; try lia. unfold is_byte in Hbb.
  clear -Hq Hbb. Z.to_euclidean_division_equations. lia.
Qed.

Lemma data_deserialize_total raw : Forall is_byte raw →
  if decide (length raw < 16)%nat then UdtDataPacket.deserialize raw = Panic
  else ∃ h, UdtDataPacket.deserialize raw = Ok (UdtDataPacket.mk h (drop 16 raw))
          ∧ deserialize (take 16 raw) = Ok h ∧ wf h.
Proof.
  intros Hraw. unfold UdtDataPacket.deserialize, UDT_DATA_HEADER_SIZE. case_decide.
  - rewrite (proj2 (slice_is_panic _ _ _)) by lia. done.
  - rewrite slice_ok by lia. cbn [mbind outcome_bind]. rewrite drop_0.
    destruct (header_parse_ok (take 16 raw)) as (h & Hh & Hwf & _).
    + by apply Forall_take.
    + rewrite length_take. lia.
    + change (16 - 0)%nat with 16%nat. rewrite Hh. cbn [mbind outcome_bind].
      rewrite slice_from_ok by lia. eauto.
Qed.

(** Four consecutive words of 16 bytes are those bytes. *)
Lemma words_of_16 raw : Forall is_byte raw → length raw = 16%nat →
  words [from_be_bytes (take 4 raw); from_be_bytes (take 4 (drop 4 raw));
         from_be_bytes (take 4 (drop 8 raw)); from_be_bytes (take 4 (drop 12 raw))] = raw.
Proof.
  intros Hraw Hlen.
  assert (∀ off, (off + 4 ≤ 16)%nat →
    to_be_bytes 4 (from_be_bytes (take 4 (drop off raw))) = take 4 (drop off raw)) as Hw.
  { intros off Hoff. rewrite <- (to_from_be_bytes (take 4 (drop off raw))) at 2
      by (by apply Forall_take, Forall_drop).
    f_equal. rewrite length_take, length_drop. lia. }
  rewrite !words_cons. rewrite <- (drop_0 raw) at 1. rewrite !Hw by lia.
  do 16 (destruct raw as [|? raw]; [done|]). by destruct raw.
Qed.

(** A data packet whose header fields fit their bit fields is serialised without
    overflow, and parsing the bytes gives the packet back. *)
Lemma data_packet_roundtrip p : wf (UdtDataPacket.header p) →
  UdtDataPacket.serialize p ≫= UdtDataPacket.deserialize = Ok p.
Proof.
  intros Hwf. unfold UdtDataPacket.serialize. rewrite header_serialize_ok by done.
  cbn [mbind outcome_bind]. unfold UdtDataPacket.deserialize, UDT_DATA_HEADER_SIZE.
  rewrite slice_app_first by (by rewrite length_words).
  cbn [mbind outcome_bind]. rewrite header_parse_serialized by done.
  cbn [mbind outcome_bind]. rewrite slice_from_app by (by rewrite length_words).
  by destruct p.
Qed.

(** Printing is inverse to parsing: the header layout loses no bit, so that the
    bytes of any datagram that starts with a 0 bit and parses as a data packet are
    exactly the serialisation of the packet obtained. *)
Theorem data_packet_parse_print raw p :
  Forall is_byte raw → from_be_bytes (take 4 raw) < 2 ^ 31 →
  UdtDataPacket.deserialize raw = Ok p → UdtDataPacket.serialize p = Ok raw.
Proof.
  intros Hraw Htop Hp. pose proof (data_deserialize_total raw Hraw) as Ht.
  case_decide as Hlen; [congruence|]. destruct Ht as (h & Hd & Hh & Hwf).
  rewrite Hd in Hp. injection Hp as <-.
  destruct (header_parse_ok (take 16 raw)) as (h' & Hh' & _ & Hs & Hb & Ht & Hi).
  { by apply Forall_take. } { rewrite length_take; lia. }
  rewrite Hh in Hh'. injection Hh' as <-.
  unfold UdtDataPacket.serialize. cbn. rewrite header_serialize_ok by done.
  cbn [mbind outcome_bind]. f_equal. rewrite <- Hs, <- Hb, <- Ht, <- Hi.
  rewrite take_take. change (4 `min` 16)%nat with 4%nat.
  pose proof (from_be_bytes_range (take 4 raw)) as Hr.
  rewrite Z.mod_small by (split; [apply Hr; by apply Forall_take|done]).
  replace (take 4 raw) with (take 4 (take 16 raw)) by (by rewrite take_take).
  rewrite words_of_16; [by rewrite take_drop|by apply Forall_take|rewrite length_take; lia].
Qed.
End parse.

Definition sample_header : UdtDataPacketHeader.t :=
  UdtDataPacketHeader.mk 2147483647 Only true 536870911 77 4294967295.

Definition sample_datagram : list Z :=
  [127; 255; 255; 255; 255; 255; 255; 255; 0; 0; 0; 77; 255; 255; 255; 255; 1; 2; 3].

Lemma data_packet_parse_print_witness :
  @UdtDataPacket.serialize false (UdtDataPacket.mk sample_header [1; 2; 3]) = Ok sample_datagram.
Proof.
  apply (@data_packet_parse_print false sample_datagram).
  - repeat constructor; unfold is_byte; lia.
  - by vm_compute.
  - by vm_compute.
Defined.
