(* ===== verification/control_packet.v ===== *)
(** * Control packets ([src/control_packet.rs], [src/common.rs], [SocketType] of [src/socket.rs])

    The 16-byte control header and the control information field of each packet
    type.  The field parsers index their slice without checking its length: the
    model keeps the resulting panics. *)

From S2P Require Import prelude seq_number bytes.

(** ** Data *)

Inductive SocketType := Stream | Datagram.
#[export] Instance SocketType_eq_dec : EqDecision SocketType.
Proof. solve_decision. Defined.

Module SocketType.
Definition as_u32 (t : SocketType) : Z :=
  match t with Stream => 1 | Datagram => 2 end.
Definition try_from (value : Z) : outcome SocketType :=
  if value =? 1 then Ok Stream
  else if value =? 2 then Ok Datagram
  else Err InvalidData.
End SocketType.

(** [std::net::IpAddr]; the octets of a [V4] are 4 bytes, of a [V6] 16 bytes. *)
Inductive IpAddr := V4 (octets : list Z) | V6 (octets : list Z).
#[export] Instance IpAddr_eq_dec : EqDecision IpAddr.
Proof. solve_decision. Defined.

Definition ip_to_bytes (ip : IpAddr) : list Z :=
  match ip with
  | V4 octets => octets ++ replicate 12 0
  | V6 octets => octets
  end.

Module HandShakeInfo.
Record t := mk {
  udt_version : Z;
  socket_type : SocketType;
  initial_seq_number : Z;
  max_packet_size : Z;
  max_window_size : Z;
  connection_type : Z;
  socket_id : Z;
  syn_cookie : Z;
  ip_address : IpAddr
}.

Definition serialize (hs : t) : list Z :=
  words [udt_version hs; SocketType.as_u32 (socket_type hs); initial_seq_number hs;
         max_packet_size hs; max_window_size hs]
  ++ to_be_bytes 4 (connection_type hs)
  ++ to_be_bytes 4 (socket_id hs)
  ++ to_be_bytes 4 (syn_cookie hs)
  ++ ip_to_bytes (ip_address hs).

Definition deserialize (raw : list Z) : outcome t :=
  tail ← slice 36 48 raw;
  addr ← (if forallb (λ b, b =? 0) tail
          then octets ← slice 32 36 raw; Ok (V4 octets)
          else octets ← slice 32 48 raw; Ok (V6 octets));
  udt_version ← get_u32 raw 0;
  socket_type_id ← get_u32 raw 1;
  socket_type ← SocketType.try_from socket_type_id;
  initial_seq_number ← get_u32 raw 2;
  max_packet_size ← get_u32 raw 3;
  max_window_size ← get_u32 raw 4;
  connection_type ← u32_at 20 raw;
  socket_id ← get_u32 raw 6;
  syn_cookie ← get_u32 raw 7;
  Ok (mk udt_version socket_type initial_seq_number max_packet_size max_window_size
         (wrap_s 32 connection_type) socket_id syn_cookie addr).
End HandShakeInfo.

Module AckOptionalInfo.
Record t := mk {
  rtt : Z;
  rtt_variance : Z;
  available_buf_size : Z;
  pack_recv_rate : Z;
  link_capacity : Z
}.
End AckOptionalInfo.

Module AckInfo.
Record t := mk { next_seq_number : Z; info : option AckOptionalInfo.t }.

Definition deserialize (raw : list Z) : outcome t :=
  next_seq_number ← get_u32 raw 0;
  if decide (length raw ≤ 4)%nat then Ok (mk next_seq_number None) else
  rtt ← get_u32 raw 1;
  rtt_variance ← get_u32 raw 2;
  available_buf_size ← get_u32 raw 3;
  pack_recv_rate ← get_u32 raw 4;
  link_capacity ← get_u32 raw 5;
  Ok (mk next_seq_number
         (Some (AckOptionalInfo.mk rtt rtt_variance available_buf_size
                                   pack_recv_rate link_capacity))).

Definition serialize (a : t) : list Z :=
  match info a with
  | None => to_be_bytes 4 (next_seq_number a)
  | Some extra =>
      words [next_seq_number a; AckOptionalInfo.rtt extra; AckOptionalInfo.rtt_variance extra;
             AckOptionalInfo.available_buf_size extra; AckOptionalInfo.pack_recv_rate extra;
             AckOptionalInfo.link_capacity extra]
  end.
End AckInfo.

Module NakInfo.
Record t := mk { loss_info : list Z }.

Definition deserialize (raw : list Z) : outcome t :=
  Ok (mk (omap (λ chunk, if decide (length chunk < 4)%nat then None
                         else Some (from_be_bytes chunk)) (chunks 4 raw))).

Definition serialize (n : t) : list Z := words (loss_info n).
End NakInfo.

Module DropRequestInfo.
Record t := mk { first_seq_number : Z; last_seq_number : Z }.

Definition deserialize (raw : list Z) : outcome t :=
  first ← get_u32 raw 0;
  last ← get_u32 raw 1;
  Ok (mk first last).

Definition serialize (d : t) : list Z := words [first_seq_number d; last_seq_number d].
End DropRequestInfo.

Inductive ControlPacketType :=
  | Handshake (hs : HandShakeInfo.t)
  | KeepAlive
  | Ack (a : AckInfo.t)
  | Nak (n : NakInfo.t)
  | Shutdown
  | Ack2
  | MsgDropRequest (d : DropRequestInfo.t)
  | UserDefined.

Module ControlPacketType.
Definition type_as_u15 (p : ControlPacketType) : Z :=
  match p with
  | Handshake _ => 0
  | KeepAlive => 1
  | Ack _ => 2
  | Nak _ => 3
  | Shutdown => 5
  | Ack2 => 6
  | MsgDropRequest _ => 7
  | UserDefined => 32767
  end.

Definition control_info_field (p : ControlPacketType) : list Z :=
  match p with
  | Handshake hs => HandShakeInfo.serialize hs
  | Ack ack => AckInfo.serialize ack
  | Nak nak => NakInfo.serialize nak
  | MsgDropRequest drop => DropRequestInfo.serialize drop
  | _ => []
  end.

Definition deserialize (raw : list Z) : outcome ControlPacketType :=
  type_word ← u16_at 0 raw;
  let type_id := Z.land type_word 32767 in
  if type_id =? 0 then
    cif ← slice_from 16 raw; hs ← HandShakeInfo.deserialize cif; Ok (Handshake hs)
  else if type_id =? 1 then Ok KeepAlive
  else if type_id =? 2 then
    cif ← slice_from 16 raw; ack ← AckInfo.deserialize cif; Ok (Ack ack)
  else if type_id =? 3 then
    cif ← slice_from 16 raw; nak ← NakInfo.deserialize cif; Ok (Nak nak)
  else if type_id =? 5 then Ok Shutdown
  else if type_id =? 6 then Ok Ack2
  else if type_id =? 7 then
    cif ← slice_from 16 raw; drop ← DropRequestInfo.deserialize cif;
    Ok (MsgDropRequest drop)
  else if type_id =? 32767 then Ok UserDefined
  else Err InvalidData.
End ControlPacketType.

Module UdtControlPacket.
Record t := mk {
  packet_type : ControlPacketType;
  reserved : Z;
  additional_info : Z;
  timestamp : Z;
  dest_socket_id : Z
}.

Definition new_handshake (hs : HandShakeInfo.t) (dest : Z) : t := mk (Handshake hs) 0 0 0 dest.
Definition new_nak (loss_list : list Z) (dest : Z) : t :=
  mk (Nak (NakInfo.mk loss_list)) 0 0 0 dest.
Definition new_ack2 (seq dest : Z) : t := mk Ack2 0 seq 0 dest.
Definition new_drop (msg_id first last dest : Z) : t :=
  mk (MsgDropRequest (DropRequestInfo.mk first last)) 0 msg_id 0 dest.
Definition new_keep_alive (dest : Z) : t := mk KeepAlive 0 0 0 dest.
Definition new_shutdown (dest : Z) : t := mk Shutdown 0 0 0 dest.
Definition new_ack (ack_number next_seq_number dest : Z)
    (info : option AckOptionalInfo.t) : t :=
  mk (Ack (AckInfo.mk next_seq_number info)) 0 ack_number 0 dest.

Definition ack_seq_number (p : t) : option Z :=
  match packet_type p with
  | Ack _ => Some (additional_info p)
  | Ack2 => Some (additional_info p)
  | _ => None
  end.

Definition msg_seq_number (p : t) : option Z :=
  match packet_type p with
  | MsgDropRequest _ => Some (Z.land (additional_info p) MSG_MAX)
  | _ => None
  end.

(** [0x8000 + type_as_u15()] fits a [u16]: no overflow check is needed. *)
Definition serialize (p : t) : list Z :=
  to_be_bytes 2 (32768 + ControlPacketType.type_as_u15 (packet_type p))
  ++ to_be_bytes 2 (reserved p)
  ++ to_be_bytes 4 (additional_info p)
  ++ to_be_bytes 4 (timestamp p)
  ++ to_be_bytes 4 (dest_socket_id p)
  ++ ControlPacketType.control_info_field (packet_type p).

Definition deserialize (raw : list Z) : outcome t :=
  if decide (length raw < 16)%nat then Err InvalidData else
  reserved ← u16_at 2 raw;
  additional_info ← u32_at 4 raw;
  timestamp ← u32_at 8 raw;
  dest_socket_id ← u32_at 12 raw;
  packet_type ← ControlPacketType.deserialize raw;
  Ok (mk packet_type reserved additional_info timestamp dest_socket_id).
End UdtControlPacket.

(** ** Well-formed values: every field fits its Rust type *)

Definition u32_range (v : Z) : Prop := 0 <= v < 2 ^ 32.

Definition wf_ip (ip : IpAddr) : Prop :=
  match ip with
  | V4 octets => length octets = 4%nat ∧ Forall is_byte octets
  | V6 octets => length octets = 16%nat ∧ Forall is_byte octets
  end.

Definition wf_handshake (hs : HandShakeInfo.t) : Prop :=
  Forall u32_range [HandShakeInfo.udt_version hs; HandShakeInfo.initial_seq_number hs;
    HandShakeInfo.max_packet_size hs; HandShakeInfo.max_window_size hs;
    HandShakeInfo.socket_id hs; HandShakeInfo.syn_cookie hs]
  ∧ - 2 ^ 31 <= HandShakeInfo.connection_type hs < 2 ^ 31
  ∧ wf_ip (HandShakeInfo.ip_address hs).

Definition wf_ack (a : AckInfo.t) : Prop :=
  u32_range (AckInfo.next_seq_number a)
  ∧ match AckInfo.info a with
    | None => True
    | Some x =>
        Forall u32_range [AckOptionalInfo.rtt x; AckOptionalInfo.rtt_variance x;
          AckOptionalInfo.available_buf_size x; AckOptionalInfo.pack_recv_rate x;
          AckOptionalInfo.link_capacity x]
    end.

Definition wf_packet_type (p : ControlPacketType) : Prop :=
  match p with
  | Handshake hs => wf_handshake hs
  | Ack a => wf_ack a
  | Nak n => Forall u32_range (NakInfo.loss_info n)
  | MsgDropRequest d =>
      u32_range (DropRequestInfo.first_seq_number d)
      ∧ u32_range (DropRequestInfo.last_seq_number d)
  | _ => True
  end.

Definition wf_control (p : UdtControlPacket.t) : Prop :=
  wf_packet_type (UdtControlPacket.packet_type p)
  ∧ 0 <= UdtControlPacket.reserved p < 2 ^ 16
  ∧ Forall u32_range [UdtControlPacket.additional_info p; UdtControlPacket.timestamp p;
                      UdtControlPacket.dest_socket_id p].

(** The address a parser recovers from the 16 address bytes: an IPv6 address whose
    last 12 bytes are zero is taken for an IPv4 address. *)
Definition canonical_ip (ip : IpAddr) : IpAddr :=
  match ip with
  | V4 octets => V4 octets
  | V6 octets =>
      if forallb (λ b, b =? 0) (drop 4 octets) then V4 (take 4 octets) else V6 octets
  end.

Definition canonical_type (p : ControlPacketType) : ControlPacketType :=
  match p with
  | Handshake (HandShakeInfo.mk v st isn mps mws ct sid ck ip) =>
      Handshake (HandShakeInfo.mk v st isn mps mws ct sid ck (canonical_ip ip))
  | p => p
  end.

Definition canonical (p : UdtControlPacket.t) : UdtControlPacket.t :=
  UdtControlPacket.mk (canonical_type (UdtControlPacket.packet_type p))
    (UdtControlPacket.reserved p) (UdtControlPacket.additional_info p)
    (UdtControlPacket.timestamp p) (UdtControlPacket.dest_socket_id p).

(** ** Control information fields *)

Lemma length_ip_to_bytes ip : wf_ip ip → length (ip_to_bytes ip) = 16%nat.
Proof. destruct ip; cbn [ip_to_bytes wf_ip]; intros [Hl _]; rewrite ?length_app, Hl; done. Qed.

Lemma ip_slices pre ip : length pre = 32%nat → wf_ip ip →
  slice 32 48 (pre ++ ip_to_bytes ip) = Ok (ip_to_bytes ip)
  ∧ slice 32 36 (pre ++ ip_to_bytes ip) = Ok (take 4 (ip_to_bytes ip))
  ∧ slice 36 48 (pre ++ ip_to_bytes ip) = Ok (drop 4 (ip_to_bytes ip)).
Proof.
  intros Hpre Hip. pose proof (length_ip_to_bytes ip Hip) as Hl.
  split_and!; rewrite slice_ok by (rewrite length_app; lia); f_equal.
  - rewrite drop_app_length' by done. apply take_ge. lia.
  - by rewrite drop_app_length' by done.
  - rewrite drop_app_ge by lia. rewrite Hpre. apply take_ge. rewrite length_drop. lia.
Qed.

Lemma handshake_layout hs :
  HandShakeInfo.serialize hs =
  words [HandShakeInfo.udt_version hs; SocketType.as_u32 (HandShakeInfo.socket_type hs);
         HandShakeInfo.initial_seq_number hs; HandShakeInfo.max_packet_size hs;
         HandShakeInfo.max_window_size hs; HandShakeInfo.connection_type hs;
         HandShakeInfo.socket_id hs; HandShakeInfo.syn_cookie hs]
  ++ ip_to_bytes (HandShakeInfo.ip_address hs).
Proof. unfold HandShakeInfo.serialize. by rewrite !words_cons, <- !app_assoc. Qed.

Ltac split_wf :=
  repeat match goal with
  | H : Forall _ (_ :: _) |- _ => apply Forall_cons_1 in H as [? H]
  | H : _ ∧ _ |- _ => destruct H
  end.

Lemma wrap_s_mod w v : 0 < w → wrap_s w (v mod 2 ^ w) = wrap_s w v.
Proof. intros. unfold wrap_s. by rewrite Z.add_mod_idemp_l by lia. Qed.

Lemma socket_type_range st : 0 <= SocketType.as_u32 st < 2 ^ 32.
Proof. by destruct st. Qed.

Lemma handshake_roundtrip hs : wf_handshake hs →
  (hs' ← HandShakeInfo.deserialize (HandShakeInfo.serialize hs); Ok (Handshake hs'))
  = Ok (canonical_type (Handshake hs)).
Proof.
  intros (Hf & Hct & Hip). unfold u32_range in Hf. split_wf.
  rewrite handshake_layout. unfold HandShakeInfo.deserialize.
  set (ws := [_; _; _; _; _; _; _; _]).
  destruct (ip_slices (words ws) (HandShakeInfo.ip_address hs)) as (E1 & E2 & E3);
    [by rewrite length_words|done|].
  rewrite E1, E2, E3. cbn [mbind outcome_bind].
  rewrite (get_u32_words ws _ 0 _ eq_refl), (get_u32_words ws _ 1 _ eq_refl),
    (get_u32_words ws _ 2 _ eq_refl), (get_u32_words ws _ 3 _ eq_refl),
    (get_u32_words ws _ 4 _ eq_refl), (get_u32_words ws _ 6 _ eq_refl),
    (get_u32_words ws _ 7 _ eq_refl) by first [done | apply socket_type_range].
  rewrite (u32_at_words_first 20 5 ws _ _ eq_refl eq_refl).
  destruct hs as [v st isn mps mws ct sid ck ip]; cbn in *.
  rewrite wrap_s_mod, wrap_s_small by (simpl Z.sub; lia).
  assert (SocketType.try_from (SocketType.as_u32 st) = Ok st) as Est by (by destruct st).
  destruct ip as [o|o]; destruct Hip as [Ho _]; cbn [ip_to_bytes canonical_ip].
  - rewrite drop_app_length', take_app_length' by done. cbn [forallb replicate].
    cbn. by rewrite Est.
  - destruct (forallb _ _); cbn; by rewrite Est.
Qed.

Lemma ack_roundtrip a : wf_ack a → AckInfo.deserialize (AckInfo.serialize a) = Ok a.
Proof.
  intros [Hseq Hinfo]. unfold u32_range in *. destruct a as [seq [x|]]; cbn in *.
  - split_wf. unfold AckInfo.serialize; cbn. set (ws := [_; _; _; _; _; _]).
    rewrite <- (app_nil_r (words ws)). unfold AckInfo.deserialize.
    rewrite (get_u32_words ws _ 0 _ eq_refl) by done. cbn [mbind outcome_bind].
    rewrite decide_False by (rewrite length_app, length_words; simpl; lia).
    rewrite (get_u32_words ws _ 1 _ eq_refl), (get_u32_words ws _ 2 _ eq_refl),
      (get_u32_words ws _ 3 _ eq_refl), (get_u32_words ws _ 4 _ eq_refl),
      (get_u32_words ws _ 5 _ eq_refl) by done.
    by destruct x.
  - unfold AckInfo.serialize, AckInfo.deserialize; cbn [AckInfo.info AckInfo.next_seq_number].
    change (to_be_bytes 4 seq) with (words [seq] ++ []).
    rewrite (get_u32_words [seq] [] 0 seq) by done. done.
Qed.

Lemma nak_roundtrip n : Forall u32_range (NakInfo.loss_info n) →
  NakInfo.deserialize (NakInfo.serialize n) = Ok n.
Proof.
  destruct n as [l]; cbn. intros Hl. unfold NakInfo.deserialize, NakInfo.serialize; cbn.
  rewrite chunks_words. do 2 f_equal.
  induction Hl as [|w l Hw Hl IH]; [done|]. cbn [map omap list_omap].
  rewrite decide_False by (rewrite length_to_be_bytes; lia).
  rewrite from_to_be_bytes_small by done. by f_equal.
Qed.

Lemma drop_roundtrip d :
  u32_range (DropRequestInfo.first_seq_number d) → u32_range (DropRequestInfo.last_seq_number d) →
  DropRequestInfo.deserialize (DropRequestInfo.serialize d) = Ok d.
Proof.
  destruct d as [f l]; unfold u32_range; cbn. intros Hf Hl.
  unfold DropRequestInfo.deserialize, DropRequestInfo.serialize; cbn.
  rewrite <- (app_nil_r (words _)).
  rewrite (get_u32_words [f; l] _ 0 _ eq_refl), (get_u32_words [f; l] _ 1 _ eq_refl) by done.
  done.
Qed.

(** ** Whole packets *)

Lemma control_layout p :
  UdtControlPacket.serialize p =
  to_be_bytes 2 (32768 + ControlPacketType.type_as_u15 (UdtControlPacket.packet_type p))
  ++ to_be_bytes 2 (UdtControlPacket.reserved p)
  ++ words [UdtControlPacket.additional_info p; UdtControlPacket.timestamp p;
            UdtControlPacket.dest_socket_id p]
  ++ ControlPacketType.control_info_field (UdtControlPacket.packet_type p).
Proof. unfold UdtControlPacket.serialize. by rewrite !words_cons, <- !app_assoc. Qed.

Lemma packet_type_roundtrip t x r y z : wf_packet_type t →
  ControlPacketType.deserialize
    (to_be_bytes 2 (32768 + ControlPacketType.type_as_u15 t) ++ to_be_bytes 2 r
     ++ words [x; y; z] ++ ControlPacketType.control_info_field t)
  = Ok (canonical_type t).
Proof.
  intros Hwf. unfold ControlPacketType.deserialize.
  rewrite u16_at_app_first. cbn [mbind outcome_bind].
  assert (∀ cif, slice_from 16 (to_be_bytes 2 (32768 + ControlPacketType.type_as_u15 t)
      ++ to_be_bytes 2 r ++ words [x; y; z] ++ cif) = Ok cif) as Hcif.
  { intros cif. rewrite !app_assoc. apply slice_from_app.
    by rewrite !length_app, !length_to_be_bytes, length_words. }
  rewrite Hcif.
  destruct t as [hs| |a|n| | |d|]; try done;
    cbn -[NakInfo.deserialize NakInfo.serialize] in Hwf |- *.
  - by apply handshake_roundtrip.
  - by rewrite ack_roundtrip.
  - by rewrite nak_roundtrip.
  - destruct Hwf. by rewrite drop_roundtrip.
Qed.

(** Parsing is inverse to printing for every control packet whose fields fit their
    types, except that a handshake with an IPv6 address ending in twelve zero bytes
    comes back with an IPv4 address ([canonical]). *)
Lemma control_packet_roundtrip p : wf_control p →
  UdtControlPacket.deserialize (UdtControlPacket.serialize p) = Ok (canonical p).
Proof.
  intros (Ht & Hr & Hu). unfold u32_range in Hu. split_wf.
  rewrite control_layout. unfold UdtControlPacket.deserialize.
  rewrite decide_False
    by (rewrite !length_app, !length_to_be_bytes, length_words; simpl; lia).
  rewrite packet_type_roundtrip by done.
  set (h := to_be_bytes 2 (32768 + _)).
  rewrite (u16_at_app 2 h) by (unfold h; by rewrite length_to_be_bytes).
  rewrite (app_assoc h).
  set (ws := [_; _; _]).
  assert (length (h ++ to_be_bytes 2 (UdtControlPacket.reserved p)) = 4%nat) as Hlen
    by (unfold h; by rewrite length_app, !length_to_be_bytes).
  rewrite (u32_at_words 4 0 _ ws _ _ eq_refl), (u32_at_words 8 1 _ ws _ _ eq_refl),
    (u32_at_words 12 2 _ ws _ _ eq_refl) by (rewrite Hlen; lia).
  cbn [mbind outcome_bind]. unfold canonical. by rewrite !Z.mod_small.
Qed.

(** ** Parsing arbitrary bytes: exactly which control fields panic *)

Lemma get_u32_ok raw i : (4 * i + 4 ≤ length raw)%nat → ∃ v, get_u32 raw i = Ok v.
Proof. intros. unfold get_u32. rewrite u32_at_ok by lia. eauto. Qed.

Lemma get_u32_short raw i : (length raw < 4 * i + 4)%nat → get_u32 raw i = Panic.
Proof. intros. unfold get_u32. apply u32_at_short. lia. Qed.

(** Evaluate reads that are known to be inside ([get_u32_ok]) the slice. *)
Ltac read_words raw :=
  repeat match goal with
  | |- context [get_u32 raw ?i] =>
      let v := fresh "v" in let E := fresh "E" in
      destruct (get_u32_ok raw i) as [v E]; [lia|rewrite E; clear E; cbn [mbind outcome_bind]]
  end.

Lemma handshake_panics raw :
  HandShakeInfo.deserialize raw = Panic ↔ (length raw < 48)%nat.
Proof.
  unfold HandShakeInfo.deserialize. destruct (decide (length raw < 48)%nat) as [Hl|Hl].
  - rewrite (proj2 (slice_is_panic 36 48 raw)) by lia. done.
  - rewrite !slice_ok, (u32_at_ok 20) by lia. cbn [mbind outcome_bind].
    destruct (forallb _ _); cbn [mbind outcome_bind]; read_words raw;
      destruct (SocketType.try_from _) eqn:Est; cbn [mbind outcome_bind];
      read_words raw; (split; [done|lia]) ||
      (unfold SocketType.try_from in Est; repeat case_match; done).
Qed.

Lemma ack_panics raw :
  AckInfo.deserialize raw = Panic ↔ (length raw < 4 ∨ 4 < length raw < 24)%nat.
Proof.
  unfold AckInfo.deserialize. destruct (decide (length raw < 4)%nat).
  { rewrite (get_u32_short raw 0) by lia. cbn. split; [lia|done]. }
  read_words raw. case_decide; [split; [done|lia]|].
  destruct (decide (length raw < 24)%nat) as [Hl|Hl].
  - split; [lia|intros _].
    destruct (decide (length raw < 8)%nat); [by rewrite (get_u32_short raw 1) by lia|].
    destruct (get_u32_ok raw 1) as [? ->]; [lia|cbn [mbind outcome_bind]].
    destruct (decide (length raw < 12)%nat); [by rewrite (get_u32_short raw 2) by lia|].
    destruct (get_u32_ok raw 2) as [? ->]; [lia|cbn [mbind outcome_bind]].
    destruct (decide (length raw < 16)%nat); [by rewrite (get_u32_short raw 3) by lia|].
    destruct (get_u32_ok raw 3) as [? ->]; [lia|cbn [mbind outcome_bind]].
    destruct (decide (length raw < 20)%nat); [by rewrite (get_u32_short raw 4) by lia|].
    destruct (get_u32_ok raw 4) as [? ->]; [lia|cbn [mbind outcome_bind]].
    by rewrite (get_u32_short raw 5) by lia.
  - read_words raw. split; [done|lia].
Qed.

Lemma drop_panics raw : DropRequestInfo.deserialize raw = Panic ↔ (length raw < 8)%nat.
Proof.
  unfold DropRequestInfo.deserialize. destruct (decide (length raw < 4)%nat).
  { rewrite (get_u32_short raw 0) by lia. cbn. split; [lia|done]. }
  destruct (get_u32_ok raw 0) as [? ->]; [lia|cbn [mbind outcome_bind]].
  destruct (decide (length raw < 8)%nat).
  - rewrite (get_u32_short raw 1) by lia. cbn. split; [lia|done].
  - read_words raw. split; [done|lia].
Qed.

(** The type field of the header and the datagrams that make the parser panic. *)
Definition type_field (raw : list Z) : Z := Z.land (from_be_bytes (take 2 raw)) 32767.

Definition control_truncated (raw : list Z) : Prop :=
  (16 ≤ length raw)%nat ∧
  (type_field raw = 0 ∧ (length raw < 16 + 48)%nat
   ∨ type_field raw = 2 ∧ (length raw < 16 + 4 ∨ 16 + 4 < length raw < 16 + 24)%nat
   ∨ type_field raw = 7 ∧ (length raw < 16 + 8)%nat).

#[export] Instance control_truncated_dec raw : Decision (control_truncated raw).
Proof. unfold control_truncated. apply _. Defined.

Lemma bind_Ok_panics {A B} (x : outcome A) (f : A → B) :
  x ≫= (λ a, Ok (f a)) = Panic ↔ x = Panic.
Proof. destruct x; naive_solver. Qed.

Lemma control_deserialize_panics raw :
  UdtControlPacket.deserialize raw = Panic ↔ control_truncated raw.
Proof.
  unfold UdtControlPacket.deserialize, control_truncated. case_decide; [split; [done|lia]|].
  rewrite u16_at_ok, !u32_at_ok by lia. cbn [mbind outcome_bind].
  rewrite bind_Ok_panics. unfold ControlPacketType.deserialize.
  rewrite u16_at_ok, slice_from_ok by lia. cbn [mbind outcome_bind]. rewrite drop_0.
  fold (type_field raw).
  repeat lazymatch goal with
  | |- context [Z.eqb (type_field raw) ?n] =>
      destruct (Z.eqb_spec (type_field raw) n) as [->|?];
      rewrite ?bind_Ok_panics, ?handshake_panics, ?ack_panics, ?drop_panics, ?length_drop
  end; first [split; [done|lia] | lia].
Qed.
