(* ===== verification/packet.v ===== *)
(** * Packets ([src/packet.rs])

    The first bit of a datagram selects the control or the data parser.  This is
    the entry point of [UdtRcvQueue::worker] for every datagram the UDP socket
    delivers, so its panics unwind the receiving task. *)

From S2P Require Import prelude seq_number bytes data_packet control_packet.

Inductive UdtPacket :=
  | Control (p : UdtControlPacket.t)
  | Data (p : UdtDataPacket.t).

Module UdtPacket.
Definition get_dest_socket_id (p : UdtPacket) : Z :=
  match p with
  | Control p => UdtControlPacket.dest_socket_id p
  | Data p => UdtDataPacketHeader.dest_socket_id (UdtDataPacket.header p)
  end.

Definition serialize `{Profile} (p : UdtPacket) : outcome (list Z) :=
  match p with
  | Control p => Ok (UdtControlPacket.serialize p)
  | Data p => UdtDataPacket.serialize p
  end.

Definition deserialize (raw : list Z) : outcome UdtPacket :=
  if decide (raw = []) then Err InvalidData else
  raw0 ← index 0 raw;
  let first_bit := negb (Z.shiftr raw0 7 =? 0) in
  if first_bit then p ← UdtControlPacket.deserialize raw; Ok (Control p)
  else p ← UdtDataPacket.deserialize raw; Ok (Data p).

Definition handshake (p : UdtPacket) : option HandShakeInfo.t :=
  match p with
  | Control ctrl =>
      match UdtControlPacket.packet_type ctrl with
      | Handshake info => Some info
      | _ => None
      end
  | Data _ => None
  end.
End UdtPacket.

Definition wf_packet (p : UdtPacket) : Prop :=
  match p with
  | Control p => wf_control p
  | Data p => UdtDataPacketHeader.wf (UdtDataPacket.header p)
  end.

Definition canonical_packet (p : UdtPacket) : UdtPacket :=
  match p with Control p => Control (canonical p) | Data p => Data p end.

(** The datagrams on which the parser panics. *)
Definition crashing_datagram (raw : list Z) : Prop :=
  match raw with
  | [] => False
  | b :: _ => if b <? 128 then (length raw < 16)%nat else control_truncated raw
  end.

#[export] Instance crashing_datagram_dec raw : Decision (crashing_datagram raw).
Proof. destruct raw; cbn; [apply _|case_match; apply _]. Defined.

(** ** The first bit *)

Lemma first_bit_spec b : is_byte b → negb (Z.shiftr b 7 =? 0) = negb (b <? 128).
Proof.
  intros Hb. apply eqb_true_iff. pattern b. refine (byte_enumerate (λ b, _) _ b Hb).
  by vm_compute.
Qed.

Lemma deserialize_cons b raw : is_byte b →
  UdtPacket.deserialize (b :: raw) =
    if b <? 128 then p ← UdtDataPacket.deserialize (b :: raw); Ok (Data p)
    else p ← UdtControlPacket.deserialize (b :: raw); Ok (Control p).
Proof.
  intros Hb. unfold UdtPacket.deserialize. rewrite decide_False by done.
  unfold index; cbn [lookup list_lookup unwrap mbind outcome_bind].
  rewrite first_bit_spec by done. by destruct (b <? 128).
Qed.

Lemma to_be_bytes_cons n v :
  to_be_bytes (S n) v = (v / 256 ^ Z.of_nat n) mod 256 :: to_be_bytes n v.
Proof. done. Qed.

Section properties.
Context `{Profile}.

Lemma data_serialize_first p raw : UdtDataPacketHeader.wf (UdtDataPacket.header p) →
  UdtDataPacket.serialize p = Ok raw → ∃ b raw', raw = b :: raw' ∧ is_byte b ∧ b < 128.
Proof.
  intros Hwf. unfold UdtDataPacket.serialize. rewrite header_serialize_ok by done.
  cbn [mbind outcome_bind]. intros <-%(inj Ok). rewrite words_cons, to_be_bytes_cons.
  cbn [app]. eexists _, _. split; [done|].
  destruct Hwf as [Hs _]. unfold valid, SEQ_MAX, is_byte in *.
  set (s := UdtDataPacketHeader.seq_number _) in *.
  change (256 ^ Z.of_nat 3) with (2 ^ 24).
  assert (0 <= s / 2 ^ 24 < 128) by (split; [apply Z.div_pos|apply Z.div_lt_upper_bound]; lia).
  rewrite Z.mod_small; lia.
Qed.

Lemma control_serialize_first p :
  ∃ b raw', UdtControlPacket.serialize p = b :: raw' ∧ is_byte b ∧ 128 <= b.
Proof.
  unfold UdtControlPacket.serialize. rewrite to_be_bytes_cons. cbn [app].
  eexists _, _. split; [done|]. change (256 ^ Z.of_nat 1) with (2 ^ 8). unfold is_byte.
  by destruct (UdtControlPacket.packet_type p).
Qed.

Lemma packet_survives p : wf_packet p →
  UdtPacket.serialize p ≫= UdtPacket.deserialize = Ok (canonical_packet p).
Proof.
  destruct p as [p|p]; cbn [wf_packet UdtPacket.serialize canonical_packet]; intros Hwf.
  - cbn [mbind outcome_bind].
    destruct (control_serialize_first p) as (b & raw & E & Hb & Hge).
    rewrite E, deserialize_cons, <- E by done. rewrite (proj2 (Z.ltb_ge b 128)) by done.
    by rewrite control_packet_roundtrip.
  - pose proof (data_packet_roundtrip p Hwf) as Hrt.
    destruct (UdtDataPacket.serialize p) as [raw|e|] eqn:E; [|done..].
    cbn [mbind outcome_bind] in *.
    destruct (data_serialize_first p raw) as (b & raw' & -> & Hb & Hlt); [done..|].
    rewrite deserialize_cons, (proj2 (Z.ltb_lt b 128)) by done. by rewrite Hrt.
Qed.

(** C25. Any packet whose fields fit their widths survives the wire: it serialises
    without overflow and the receiver's parser returns it (with the address of a
    handshake in canonical form). *)
Theorem packet_roundtrip p : wf_packet p →
  UdtPacket.serialize p ≫= UdtPacket.deserialize = Ok (canonical_packet p).
Proof. apply packet_survives. Qed.

(** C24. The receiving task is unwound by exactly these datagrams: a non-empty one
    shorter than 16 bytes whose first bit is 0, and a control packet whose
    handshake, acknowledgement or drop-request field is cut short.  Every other
    byte string is parsed or rejected with an error. *)
Theorem packet_deserialize_panics raw : Forall is_byte raw →
  UdtPacket.deserialize raw = Panic ↔ crashing_datagram raw.
Proof.
  intros Hraw. destruct raw as [|b raw]; [done|].
  assert (is_byte b) by (by apply Forall_cons_1 in Hraw as [? _]).
  rewrite deserialize_cons by done. unfold crashing_datagram.
  destruct (b <? 128); rewrite bind_Ok_panics.
  - pose proof (data_deserialize_total (b :: raw) Hraw) as Ht.
    case_decide; [by rewrite Ht|]. destruct Ht as (h & -> & _). split; [done|lia].
  - apply control_deserialize_panics.
Qed.
End properties.

Definition sample_handshake : UdtPacket :=
  Control (UdtControlPacket.new_handshake
    (HandShakeInfo.mk 4 Stream 2147483647 1500 8192 (-1) 42 3735928559
       (V6 [32; 1; 13; 184; 0; 0; 0; 0; 0; 0; 0; 0; 0; 0; 0; 0])) 7).

Lemma packet_roundtrip_witness :
  @UdtPacket.serialize true sample_handshake ≫= UdtPacket.deserialize =
  Ok (Control (UdtControlPacket.new_handshake
    (HandShakeInfo.mk 4 Stream 2147483647 1500 8192 (-1) 42 3735928559
       (V4 [32; 1; 13; 184])) 7)).
Proof.
  apply (@packet_roundtrip true sample_handshake).
  repeat first [apply Forall_nil_2 | apply Forall_cons_2 | split]; cbn; unfold u32_range, is_byte; lia.
Defined.

Lemma packet_deserialize_panics_witness :
  crashing_datagram [0] ∧ UdtPacket.deserialize [0] = Panic
  ∧ ¬ crashing_datagram (replicate 16 255).
Proof.
  split_and!; [cbn; lia| |vm_compute; naive_solver lia].
  apply (packet_deserialize_panics [0]); [repeat constructor; unfold is_byte; lia|cbn; lia].
Defined.
