(* ===== verification/btree_map.v ===== *)
(** * Ordered maps

    [std::collections::BTreeMap] with [u32] keys, as the loss lists, the
    acknowledgement window and the receive buffer use it: the list of its entries
    in increasing key order.  [range(..)] yields a sublist, [next()] and
    [next_back()] its ends.  The laws are stated on membership, so that clients
    never look at the representation. *)

From S2P Require Import prelude.
From stdpp Require Export sorting.
#[global] Open Scope Z_scope.

Module BTreeMap.
Section operations.
Context {V : Type}.
Implicit Types m : list (Z * V).

Definition insert (k : Z) (v : V) m : list (Z * V) :=
  filter (λ p, p.1 < k) m ++ (k, v) :: filter (λ p, k < p.1) m.
Definition remove (k : Z) m : list (Z * V) := filter (λ p, p.1 ≠ k) m.
Definition get (k : Z) m : option V := snd <$> head (filter (λ p, p.1 = k) m).
Definition retain (f : Z → V → bool) m : list (Z * V) := filter (λ p, f p.1 p.2 = true) m.

(** [range(..=k)], [range(k..)], [range(lo..=hi)] and [range(lo..hi)]. *)
Definition range_to (k : Z) m : list (Z * V) := filter (λ p, p.1 <= k) m.
Definition range_from (k : Z) m : list (Z * V) := filter (λ p, k <= p.1) m.
Definition range_incl (lo hi : Z) m : list (Z * V) := filter (λ p, lo <= p.1 <= hi) m.
Definition range (lo hi : Z) m : list (Z * V) := filter (λ p, lo <= p.1 < hi) m.

Definition key_lt (p q : Z * V) : Prop := p.1 < q.1.
Definition sorted m : Prop := StronglySorted key_lt m.
End operations.
End BTreeMap.

Section laws.
Context {V : Type}.
Implicit Types m : list (Z * V).

Lemma sorted_nil : BTreeMap.sorted (@nil (Z * V)).
Proof. constructor. Qed.

Lemma sorted_filter (P : Z * V → Prop) `{!∀ x, Decision (P x)} m :
  BTreeMap.sorted m → BTreeMap.sorted (filter P m).
Proof.
  apply StronglySorted_filter.
Qed.

Lemma sorted_insert k v m : BTreeMap.sorted m → BTreeMap.sorted (BTreeMap.insert k v m).
Proof.
  intros Hm. unfold BTreeMap.insert. apply StronglySorted_app_2; [..|].
  - intros p q Hp Hq. apply list_elem_of_filter in Hp as [Hp _]. unfold BTreeMap.key_lt.
    apply elem_of_cons in Hq as [->|Hq]; [done|].
    apply list_elem_of_filter in Hq as [Hq _]. lia.
  - by apply sorted_filter.
  - constructor; [by apply sorted_filter|].
    rewrite Forall_forall. intros q Hq. by apply list_elem_of_filter in Hq as [? _].
Qed.

Lemma sorted_remove k m : BTreeMap.sorted m → BTreeMap.sorted (BTreeMap.remove k m).
Proof. apply sorted_filter. Qed.

Lemma sorted_retain f m : BTreeMap.sorted m → BTreeMap.sorted (BTreeMap.retain f m).
Proof. apply sorted_filter. Qed.

Lemma elem_of_insert k v m p :
  p ∈ BTreeMap.insert k v m ↔ p = (k, v) ∨ (p ∈ m ∧ p.1 ≠ k).
Proof.
  unfold BTreeMap.insert. rewrite elem_of_app, elem_of_cons, !list_elem_of_filter.
  destruct (Z.lt_trichotomy p.1 k) as [?|[?|?]]; naive_solver lia.
Qed.

Lemma elem_of_remove k m p : p ∈ BTreeMap.remove k m ↔ p ∈ m ∧ p.1 ≠ k.
Proof. unfold BTreeMap.remove. rewrite list_elem_of_filter. naive_solver. Qed.

Lemma elem_of_range_incl lo hi m p : p ∈ BTreeMap.range_incl lo hi m ↔ p ∈ m ∧ lo <= p.1 <= hi.
Proof. unfold BTreeMap.range_incl. rewrite list_elem_of_filter. naive_solver. Qed.

Lemma elem_of_range lo hi m p : p ∈ BTreeMap.range lo hi m ↔ p ∈ m ∧ lo <= p.1 < hi.
Proof. unfold BTreeMap.range. rewrite list_elem_of_filter. naive_solver. Qed.

(** An entry is determined by its key. *)
Lemma sorted_unique m p q : BTreeMap.sorted m → p ∈ m → q ∈ m → p.1 = q.1 → p = q.
Proof.
  unfold BTreeMap.sorted. induction 1 as [|r m Hm IH Hr]; [by intros ?%elem_of_nil|].
  rewrite Forall_forall in Hr. unfold BTreeMap.key_lt in Hr.
  rewrite !elem_of_cons. intros [->|Hp] [->|Hq] E; [done|..|by apply IH].
  - specialize (Hr q Hq). lia.
  - specialize (Hr p Hp). lia.
Qed.

Lemma sorted_app_lt m1 m2 p q : BTreeMap.sorted (m1 ++ m2) → p ∈ m1 → q ∈ m2 → p.1 < q.1.
Proof.
  unfold BTreeMap.sorted. intros Hs Hp Hq.
  by eapply (StronglySorted_app_1_elem_of _ m1 m2 p q) in Hs.
Qed.

(** The first and the last entry have the least and the greatest key. *)
Lemma head_spec m p : BTreeMap.sorted m → head m = Some p →
  p ∈ m ∧ ∀ q, q ∈ m → p.1 <= q.1.
Proof.
  destruct m as [|r m]; [done|]. intros Hs [= ->]. split; [left|].
  intros q [->|Hq]%elem_of_cons; [done|].
  apply Z.lt_le_incl, (sorted_app_lt [p] m p q Hs); [left|done].
Qed.

Lemma last_spec m p : BTreeMap.sorted m → last m = Some p →
  p ∈ m ∧ ∀ q, q ∈ m → q.1 <= p.1.
Proof.
  intros Hs (m' & ->)%last_Some. split; [apply elem_of_app; right; left|].
  intros q [Hq|Hq]%elem_of_app.
  - apply Z.lt_le_incl, (sorted_app_lt m' [p] q p Hs); [done|left].
  - apply list_elem_of_singleton in Hq as ->. done.
Qed.

Lemma head_None_iff m : head m = None ↔ m = [].
Proof. by destruct m. Qed.

(** [range(..=k).next_back()]: the entry with the greatest key up to [k]. *)
Lemma last_range_to_Some k m p : BTreeMap.sorted m → last (BTreeMap.range_to k m) = Some p →
  p ∈ m ∧ p.1 <= k ∧ ∀ q, q ∈ m → q.1 <= k → q.1 <= p.1.
Proof.
  intros Hs [Hp Hmax]%last_spec; [|by apply sorted_filter].
  unfold BTreeMap.range_to in *. apply list_elem_of_filter in Hp as [? ?].
  split_and!; [done..|]. intros q ? ?. apply Hmax. by apply list_elem_of_filter.
Qed.

Lemma last_range_to_None k m p : last (BTreeMap.range_to k m) = None → p ∈ m → k < p.1.
Proof.
  intros Hl%last_None Hp. apply Z.nle_gt. intros Hle.
  assert (p ∈ BTreeMap.range_to k m) as Hin by (by apply list_elem_of_filter).
  rewrite Hl in Hin. by apply elem_of_nil in Hin.
Qed.

(** [range(k..).next()]: the entry with the least key from [k] on. *)
Lemma head_range_from_Some k m p : BTreeMap.sorted m → head (BTreeMap.range_from k m) = Some p →
  p ∈ m ∧ k <= p.1 ∧ ∀ q, q ∈ m → k <= q.1 → p.1 <= q.1.
Proof.
  intros Hs [Hp Hmin]%head_spec; [|by apply sorted_filter].
  unfold BTreeMap.range_from in *. apply list_elem_of_filter in Hp as [? ?].
  split_and!; [done..|]. intros q ? ?. apply Hmin. by apply list_elem_of_filter.
Qed.

Lemma head_range_from_None k m p : head (BTreeMap.range_from k m) = None → p ∈ m → p.1 < k.
Proof.
  intros Hl%head_None_iff Hp. apply Z.nle_gt. intros Hle.
  assert (p ∈ BTreeMap.range_from k m) as Hin by (by apply list_elem_of_filter).
  rewrite Hl in Hin. by apply elem_of_nil in Hin.
Qed.

(** Point lookups. *)
Lemma get_Some k v m : BTreeMap.sorted m → BTreeMap.get k m = Some v ↔ (k, v) ∈ m.
Proof.
  intros Hs. unfold BTreeMap.get. destruct (head (filter (λ p, p.1 = k) m)) as [[k' v']|] eqn:E.
  - assert ((k', v') ∈ filter (λ p, p.1 = k) m) as [Hk Hin]%list_elem_of_filter.
    { destruct (filter _ m); [done|]. injection E as ->. left. }
    simpl in *. subst k'. split; [by intros [= <-]|].
    intros Hin'. pose proof (sorted_unique m _ _ Hs Hin Hin' eq_refl). by simplify_eq.
  - split; [done|]. intros Hin. apply head_None_iff in E.
    assert ((k, v) ∈ filter (λ p : Z * V, p.1 = k) m) as Hf by (by apply list_elem_of_filter).
    rewrite E in Hf. by apply elem_of_nil in Hf.
Qed.

Lemma get_insert k v m j : BTreeMap.sorted m →
  BTreeMap.get j (BTreeMap.insert k v m) = if decide (j = k) then Some v else BTreeMap.get j m.
Proof.
  intros Hs. apply option_eq. intros w.
  rewrite get_Some by (by apply sorted_insert). rewrite elem_of_insert.
  case_decide; subst; [naive_solver|]. rewrite get_Some by done. naive_solver.
Qed.

Lemma get_remove k m j : BTreeMap.sorted m →
  BTreeMap.get j (BTreeMap.remove k m) = if decide (j = k) then None else BTreeMap.get j m.
Proof.
  intros Hs. apply option_eq. intros w.
  rewrite get_Some by (by apply sorted_remove). rewrite elem_of_remove.
  case_decide; subst; [naive_solver|]. rewrite get_Some by done. naive_solver.
Qed.

(** Inserting a new key adds one entry. *)
Lemma filter_lt_gt k m : (∀ p, p ∈ m → p.1 ≠ k) →
  length m = (length (filter (λ p, (p.1 < k)%Z) m) + length (filter (λ p, (k < p.1)%Z) m))%nat.
Proof.
  induction m as [|p m IH]; intros Hk; [done|].
  assert (p.1 ≠ k) by (apply Hk; left).
  specialize (IH (λ q Hq, Hk q (list_elem_of_further _ _ _ Hq))).
  rewrite !filter_cons. repeat case_decide; simpl; lia.
Qed.

Lemma len_insert_fresh k v m : BTreeMap.sorted m → BTreeMap.get k m = None →
  len (BTreeMap.insert k v m) = len m + 1.
Proof.
  intros Hs Hk. unfold len, BTreeMap.insert. rewrite length_app. simpl.
  rewrite (filter_lt_gt k m); [lia|]. intros [j w] Hp Hj. simpl in Hj. subst j.
  apply get_Some in Hp; [congruence|done].
Qed.

(** Two sorted maps with the same entries are equal. *)
Lemma sorted_ext m1 m2 : BTreeMap.sorted m1 → BTreeMap.sorted m2 →
  (∀ p, p ∈ m1 ↔ p ∈ m2) → m1 = m2.
Proof.
  unfold BTreeMap.sorted. intros H1. revert m2. induction H1 as [|p m1 Hm1 IH Hp]; intros m2 H2 E.
  - destruct m2 as [|q m2]; [done|]. destruct (E q) as [_ Hq].
    exfalso. apply (not_elem_of_nil q), Hq. left.
  - destruct H2 as [|q m2 Hm2 Hq].
    { exfalso. apply (not_elem_of_nil p), E. left. }
    rewrite Forall_forall in Hp, Hq. unfold BTreeMap.key_lt in *.
    assert (p = q) as ->.
    { assert (p ∈ q :: m2) as [->|Hpin]%elem_of_cons by (apply E; left); [done|].
      assert (q ∈ p :: m1) as [->|Hqin]%elem_of_cons by (apply E; left); [done|].
      specialize (Hp q Hqin). specialize (Hq p Hpin). lia. }
    f_equal. apply IH; [done|]. intros r. specialize (E r). rewrite !elem_of_cons in E.
    split; intros Hr.
    + destruct E as [[->|?] _]; [by right| |done]. specialize (Hp q Hr). lia.
    + destruct E as [_ [->|?]]; [by right| |done]. specialize (Hq q Hr). lia.
Qed.

(** Removing a list of keys. *)
Lemma elem_of_foldl_remove (ks : list Z) m p :
  p ∈ foldl (λ m key, BTreeMap.remove key m) m ks ↔ p ∈ m ∧ p.1 ∉ ks.
Proof.
  revert m. induction ks as [|k ks IH]; intros m; cbn.
  - pose proof (not_elem_of_nil p.1). naive_solver.
  - rewrite IH, elem_of_remove, not_elem_of_cons. naive_solver.
Qed.

Lemma sorted_foldl_remove (ks : list Z) m :
  BTreeMap.sorted m → BTreeMap.sorted (foldl (λ m key, BTreeMap.remove key m) m ks).
Proof. revert m. induction ks; cbn; eauto using sorted_remove. Qed.

Lemma sorted_app_r m1 m2 : BTreeMap.sorted (m1 ++ m2) → BTreeMap.sorted m2.
Proof. apply StronglySorted_app_1_r. Qed.

(** The entries that remain in a range after removing keys. *)
Lemma filter_foldl_remove (Q : Z * V → Prop) `{!∀ p, Decision (Q p)} m ks r :
  BTreeMap.sorted m → BTreeMap.sorted r → (∀ p, p ∈ r → p ∈ m) →
  (∀ p, p ∈ m → ((p.1 ∉ ks) ∧ Q p) ↔ p ∈ r) →
  filter Q (foldl (λ m key, BTreeMap.remove key m) m ks) = r.
Proof.
  intros Hm Hr Hin Hiff. apply sorted_ext; [|done|].
  - by apply sorted_filter, sorted_foldl_remove.
  - intros p. rewrite list_elem_of_filter, elem_of_foldl_remove. naive_solver.
Qed.
End laws.

Create HintDb btree discriminated.
#[export] Hint Resolve sorted_nil sorted_filter sorted_insert sorted_remove sorted_retain : btree.
