(* ===== verification/loss_list.v ===== *)
(** * Loss lists ([src/loss_list.rs])

    A set of lost sequence numbers kept as intervals: an ordered map from the
    first number of an interval to the interval.  The abstract state is the set
    [lost m]; the representation invariant is [wf]. *)

From S2P Require Import prelude seq_number btree_map.

Module LossList.
(** [sequences: BTreeMap<SeqNumber, (SeqNumber, SeqNumber)>]. *)
Definition t : Type := list (Z * (Z * Z)).

Definition new : t := [].

(** Body of the loop over [sequences.range((n1 + 1)..=n2)]; its range is never
    inverted, because it is only built when [n1 < n2]. *)
Definition extend_end (n2 : Z) (entry : Z * (Z * Z)) : Z :=
  if entry.2.2 >? n2 then entry.2.2 else n2.

(** The entries that start in [(n1 + 1)..=n2] are removed and [n2] grows to the
    end of the longest. *)
Definition absorb (n1 n2 : Z) (m : t) : t * Z :=
  if n2 >? n1 then
    let overlapping := BTreeMap.range_incl (n1 ⊕ 1) n2 m in
    (foldl (λ m key, BTreeMap.remove key m) m (overlapping.*1),
     foldl extend_end n2 overlapping)
  else (m, n2).

(** The interval extends the entry before it or becomes an entry. *)
Definition place (n1 n2 : Z) (m : t) : t :=
  match last (BTreeMap.range_to n1 m) with
  | Some (key, (start, end_)) =>
      if end_ >=? n1 ⊕ -1 then BTreeMap.insert key (start, Z.max end_ n2) m
      else BTreeMap.insert n1 (n1, n2) m
  | None => BTreeMap.insert n1 (n1, n2) m
  end.

Definition insert_ordered (n1 n2 : Z) (m : t) : t :=
  let '(m, n2) := absorb n1 n2 m in place n1 n2 m.

(** [insert] calls itself for an interval that wraps; [fuel] bounds the depth of
    the recursion, [None] is a recursion that exceeds it. *)
Fixpoint insert (fuel : nat) (n1 n2 : Z) (m : t) : option t :=
  match fuel with
  | O => None
  | S fuel =>
      if n1 >? n2 then m ← insert fuel n1 SEQ_MAX m; insert fuel 0 n2 m
      else Some (insert_ordered n1 n2 m)
  end.

Definition remove (num : Z) (m : t) : t :=
  match last (BTreeMap.range_to num m) with
  | Some (key, (start, end_)) =>
      if start =? num then
        let m := BTreeMap.remove key m in
        if end_ >? num then BTreeMap.insert (num ⊕ 1) (num ⊕ 1, end_) m else m
      else if end_ >=? num then
        let m := BTreeMap.insert key (start, num ⊕ -1) m in
        if end_ >? num then BTreeMap.insert (num ⊕ 1) (num ⊕ 1, end_) m else m
      else m
  | None => m
  end.

(** [(n1.number()..=n2.number()).rev()]. *)
Definition numbers_down (n1 n2 : Z) : list Z := reverse (seqZ n1 (n2 - n1 + 1)).

Fixpoint remove_all (fuel : nat) (n1 n2 : Z) (m : t) : option t :=
  match fuel with
  | O => None
  | S fuel =>
      if n1 <=? n2 then Some (foldl (λ m i, remove i m) m (numbers_down n1 n2))
      else m ← remove_all fuel n1 SEQ_MAX m; remove_all fuel 0 n2 m
  end.

Definition is_empty (m : t) : bool := match m with [] => true | _ => false end.

Definition peek_after (after : Z) (m : t) : option Z :=
  if is_empty m then None else
  match last (BTreeMap.range_to after m) with
  | Some (_, (_, end_)) =>
      if end_ >=? after then Some after else
      match head (BTreeMap.range_from after m) with
      | Some (_, (start, _)) => Some start
      | None => (λ p, p.2.1) <$> head m
      end
  | None =>
      match head (BTreeMap.range_from after m) with
      | Some (_, (start, _)) => Some start
      | None => (λ p, p.2.1) <$> head m
      end
  end.

Definition pop_after (after : Z) (m : t) : option Z * t :=
  if is_empty m then (None, m) else
  let next :=
    match head (BTreeMap.range_from after m) with
    | Some (_, (start, _)) => (Some start, remove start m)
    | None =>
        match head m with
        | Some (_, (start, _)) => (Some start, remove start m)
        | None => (None, m)
        end
    end in
  match last (BTreeMap.range_to after m) with
  | Some (_, (_, end_)) => if end_ >=? after then (Some after, remove after m) else next
  | None => next
  end.
End LossList.

(** ** Abstraction and invariant *)

Definition lost (m : LossList.t) (x : Z) : Prop := ∃ k s e, (k, (s, e)) ∈ m ∧ s <= x <= e.

(** The numbers of the (possibly wrapping) interval from [n1] to [n2]. *)
Definition between (n1 n2 x : Z) : Prop :=
  if n1 <=? n2 then n1 <= x <= n2 else n1 <= x <= SEQ_MAX ∨ 0 <= x <= n2.

Record wf (m : LossList.t) : Prop := {
  wf_sorted : BTreeMap.sorted m;
  wf_entry k s e : (k, (s, e)) ∈ m → k = s ∧ 0 <= s <= e ∧ e <= SEQ_MAX;
  wf_disjoint k s e k' s' e' : (k, (s, e)) ∈ m → (k', (s', e')) ∈ m → k < k' → e < k'
}.

Lemma wf_new : wf LossList.new.
Proof. split; [constructor|..]; by intros * ?%not_elem_of_nil. Qed.

Lemma wf_lost_valid m x : wf m → lost m x → valid x.
Proof. intros Hm (k & s & e & Hin & Hx). apply (wf_entry m Hm) in Hin. unfold valid. lia. Qed.

(** Two entries of a well-formed list that share a number are the same entry. *)
Lemma wf_overlap m k s e k' s' e' x : wf m →
  (k, (s, e)) ∈ m → (k', (s', e')) ∈ m → s <= x <= e → s' <= x <= e' →
  k = k' ∧ s = s' ∧ e = e'.
Proof.
  intros Hm H1 H2 Hx Hx'.
  destruct (wf_entry m Hm _ _ _ H1) as (-> & ? & _), (wf_entry m Hm _ _ _ H2) as (-> & ? & _).
  destruct (Z.lt_trichotomy s s') as [Hlt|[->|Hlt]].
  - pose proof (wf_disjoint m Hm _ _ _ _ _ _ H1 H2 Hlt). lia.
  - pose proof (sorted_unique m _ _ (wf_sorted m Hm) H1 H2 eq_refl). by simplify_eq.
  - pose proof (wf_disjoint m Hm _ _ _ _ _ _ H2 H1 Hlt). lia.
Qed.

(** ** Insertion *)

Lemma extend_end_spec n2 l :
  n2 <= foldl LossList.extend_end n2 l
  ∧ (∀ p, p ∈ l → p.2.2 <= foldl LossList.extend_end n2 l)
  ∧ (foldl LossList.extend_end n2 l = n2 ∨ ∃ p, p ∈ l ∧ foldl LossList.extend_end n2 l = p.2.2).
Proof.
  revert n2. induction l as [|q l IH]; intros n2; cbn.
  { split_and!; [done|by intros ? ?%not_elem_of_nil|by left]. }
  destruct (IH (LossList.extend_end n2 q)) as (H1 & H2 & H3).
  assert (n2 <= LossList.extend_end n2 q ∧ q.2.2 <= LossList.extend_end n2 q
    ∧ (LossList.extend_end n2 q = n2 ∨ LossList.extend_end n2 q = q.2.2)) as (? & ? & Hq)
    by (unfold LossList.extend_end; case_match; lia).
  split_and!; [lia| |].
  - intros p [->|Hp]%elem_of_cons; [lia|by apply H2].
  - destruct H3 as [->|(p & Hp & ->)]; [|right; exists p; by rewrite elem_of_cons; eauto].
    destruct Hq as [->| ->]; [by left|]. right. exists q. by split; [left|].
Qed.

Lemma absorb_spec m n1 n2 : wf m → 0 <= n1 <= n2 → n2 <= SEQ_MAX →
  let '(m', n2') := LossList.absorb n1 n2 m in
  wf m' ∧ n2 <= n2' <= SEQ_MAX
  ∧ (∀ k s e, (k, (s, e)) ∈ m' ↔ (k, (s, e)) ∈ m ∧ ¬ (n1 < k <= n2))
  ∧ (∀ k s e, (k, (s, e)) ∈ m' → n1 < k → n2' < k)
  ∧ (∀ x, lost m' x ∨ n1 <= x <= n2' ↔ lost m x ∨ n1 <= x <= n2).
Proof.
  intros Hm Hn Hmax. unfold LossList.absorb. rewrite Z.gtb_ltb.
  destruct (Z.ltb_spec n1 n2) as [Hlt|Hge]; cycle 1.
  { split_and!; [done|lia|lia|naive_solver lia|lia|done]. }
  rewrite seq_add_small by lia.
  destruct (extend_end_spec n2 (BTreeMap.range_incl (n1 + 1) n2 m)) as (Hle & Hends & Hval).
  set (n2' := foldl _ n2 _) in *. set (m' := foldl (λ m key, BTreeMap.remove key m) m _).
  assert (∀ k s e, (k, (s, e)) ∈ m' ↔ (k, (s, e)) ∈ m ∧ ¬ (n1 < k <= n2)) as Hin.
  { intros k s e. unfold m'. rewrite elem_of_foldl_remove, list_elem_of_fmap. simpl.
    split; intros [Hp Hk]; (split; [done|]).
    - intros Hr. apply Hk. exists (k, (s, e)). rewrite elem_of_range_incl. simpl.
      split_and!; (done || lia).
    - intros ([k' [s' e']] & -> & Hr%elem_of_range_incl). simpl in *. lia. }
  assert (∀ k s e, (k, (s, e)) ∈ m → n1 < k <= n2 → e <= n2') as Hends'.
  { intros k s e Hp Hk. apply (Hends (k, (s, e))). apply elem_of_range_incl. simpl. split; [done|lia]. }
  assert (n2' = n2 ∨ ∃ k s e, (k, (s, e)) ∈ m ∧ n1 < k <= n2 ∧ n2' = e) as Hval'.
  { destruct Hval as [?|([k [s e]] & Hp%elem_of_range_incl & ->)]; [by left|right].
    exists k, s, e. simpl in *. destruct Hp. split_and!; (done || lia). }
  clear Hends Hval. split_and!; try done.
  - split.
    + apply sorted_foldl_remove, Hm.
    + intros k s e [Hp _]%Hin. by apply (wf_entry m Hm).
    + intros k s e k' s' e' [Hp _]%Hin [Hp' _]%Hin. by apply (wf_disjoint m Hm _ _ _ _ _ _ Hp Hp').
  - destruct Hval' as [->|(k & s & e & Hp%(wf_entry m Hm) & _ & ->)]; lia.
  - intros k s e [Hp Hk]%Hin Hlt1.
    destruct Hval' as [->|(k' & s' & e' & Hp' & Hk' & ->)]; [lia|].
    apply (wf_disjoint m Hm _ _ _ _ _ _ Hp' Hp). lia.
  - intros x. split.
    + intros [(k & s & e & [Hp _]%Hin & Hx)|Hx]; [left; by exists k, s, e|].
      destruct (decide (x <= n2)); [right; lia|left].
      destruct Hval' as [->|(k & s & e & Hp & Hk & ->)]; [lia|].
      exists k, s, e. split; [done|]. apply (wf_entry m Hm) in Hp. lia.
    + intros [(k & s & e & Hp & Hx)|Hx]; [|right; lia].
      destruct (decide (n1 < k <= n2)) as [Hk|Hk].
      * right. pose proof (Hends' _ _ _ Hp Hk). apply (wf_entry m Hm) in Hp. lia.
      * left. exists k, s, e. by rewrite Hin.
Qed.

(** An entry may replace the entries of its key when nothing else overlaps it. *)
Lemma wf_insert m k e : wf m → 0 <= k <= e → e <= SEQ_MAX →
  (∀ k' s' e', (k', (s', e')) ∈ m → k' ≠ k → e' < k ∨ e < k') →
  wf (BTreeMap.insert k (k, e) m).
Proof.
  intros Hm Hk Hmax Hsep. split.
  - apply sorted_insert, Hm.
  - intros k' s' e'. rewrite elem_of_insert. intros [[= -> -> ->]|[Hp _]]; [lia|].
    by apply (wf_entry m Hm).
  - intros k1 s1 e1 k2 s2 e2. rewrite !elem_of_insert. simpl.
    intros [[= -> -> ->]|[Hp1 Hk1]] [[= -> -> ->]|[Hp2 Hk2]] Hlt; try lia.
    + destruct (Hsep _ _ _ Hp2 Hk2); [|lia].
      apply (wf_entry m Hm) in Hp2. lia.
    + destruct (Hsep _ _ _ Hp1 Hk1); [lia|]. apply (wf_entry m Hm) in Hp1. lia.
    + by apply (wf_disjoint m Hm _ _ _ _ _ _ Hp1 Hp2).
Qed.

Lemma lost_insert m k e x :
  lost (BTreeMap.insert k (k, e) m) x ↔
  k <= x <= e ∨ ∃ k' s' e', (k', (s', e')) ∈ m ∧ k' ≠ k ∧ s' <= x <= e'.
Proof.
  unfold lost. setoid_rewrite elem_of_insert. simpl. split.
  - intros (k' & s' & e' & [[= -> -> ->]|[Hp Hk]] & Hx); [by left|right; eauto 10].
  - intros [Hx|(k' & s' & e' & Hp & Hk & Hx)]; [exists k, k, e|exists k', s', e']; naive_solver.
Qed.

(** Inserting at number 0 replaces the entry that starts there, so [place] needs
    that entry not to reach beyond the new interval, unless it covers everything. *)
Definition zero_entry_fits (n1 n2 : Z) (m : LossList.t) : Prop :=
  n1 = 0 → ∀ s e, (0, (s, e)) ∈ m → e <= n2 ∨ e = SEQ_MAX.

Lemma seq_pred n : 0 <= n <= SEQ_MAX → n ⊕ -1 = if decide (n = 0) then SEQ_MAX else n - 1.
Proof.
  intros. case_decide; [by subst|]. rewrite seq_add_small by lia. lia.
Qed.

Lemma new_entry_spec m n1 n2 : wf m → 0 <= n1 <= n2 → n2 <= SEQ_MAX →
  (∀ k s e, (k, (s, e)) ∈ m → k ≠ n1 → e < n1 ∨ n2 < k) →
  (∀ s e, (n1, (s, e)) ∈ m → e <= n2) →
  wf (BTreeMap.insert n1 (n1, n2) m)
  ∧ ∀ x, lost (BTreeMap.insert n1 (n1, n2) m) x ↔ lost m x ∨ n1 <= x <= n2.
Proof.
  intros Hm Hn Hmax Hsep Hsame. split; [by apply wf_insert|].
  intros x. rewrite lost_insert. unfold lost. split; [naive_solver|].
  intros [(k & s & e & Hp & Hx)|Hx]; [|left; lia].
  destruct (decide (k = n1)) as [->|?]; [left|right; by exists k, s, e].
  pose proof (wf_entry m Hm _ _ _ Hp). specialize (Hsame _ _ Hp). lia.
Qed.

Lemma extend_entry_spec m k e n1 n2 : wf m → (k, (k, e)) ∈ m → k <= n1 <= n2 →
  n2 <= SEQ_MAX → n1 - 1 <= e → (∀ k' s' e', (k', (s', e')) ∈ m → k' <= k ∨ n2 < k') →
  wf (BTreeMap.insert k (k, Z.max e n2) m)
  ∧ ∀ x, lost (BTreeMap.insert k (k, Z.max e n2) m) x ↔ lost m x ∨ n1 <= x <= n2.
Proof.
  intros Hm Hin Hn Hmax Hadj Hsplit. destruct (wf_entry m Hm _ _ _ Hin) as (_ & Hk & He). split.
  - apply wf_insert; [done|lia..|]. intros k' s' e' Hp Hne. destruct (Hsplit _ _ _ Hp).
    + left. apply (wf_disjoint m Hm _ _ _ _ _ _ Hp Hin). lia.
    + right. pose proof (wf_disjoint m Hm _ _ _ _ _ _ Hin Hp). lia.
  - intros x. rewrite lost_insert. split.
    + intros [Hx|(k' & s' & e' & Hp & _ & Hx)]; [|left; by exists k', s', e'].
      destruct (decide (x <= e)); [left; exists k, k, e; split; [done|lia]|right; lia].
    + intros [(k' & s' & e' & Hp & Hx)|Hx]; [|left; lia].
      destruct (decide (k' = k)) as [->|?]; [left|right; by exists k', s', e'].
      pose proof (sorted_unique m _ _ (wf_sorted m Hm) Hp Hin eq_refl). simplify_eq. lia.
Qed.

Lemma place_spec m n1 n2 : wf m → 0 <= n1 <= n2 → n2 <= SEQ_MAX →
  (∀ k s e, (k, (s, e)) ∈ m → n1 < k → n2 < k) → zero_entry_fits n1 n2 m →
  wf (LossList.place n1 n2 m)
  ∧ ∀ x, lost (LossList.place n1 n2 m) x ↔ lost m x ∨ n1 <= x <= n2.
Proof.
  intros Hm Hn Hmax Hgap Hzero. unfold LossList.place. rewrite seq_pred by lia.
  destruct (last (BTreeMap.range_to n1 m)) as [[k [s e]]|] eqn:Hlast; cycle 1.
  { assert (∀ k' s' e', (k', (s', e')) ∈ m → n1 < k') as Hafter
      by (intros k' s' e' Hp; exact (last_range_to_None _ _ _ Hlast Hp)).
    apply new_entry_spec; [done..| |]; intros.
    - right. eauto.
    - exfalso. apply (Z.lt_irrefl n1). eauto. }
  apply last_range_to_Some in Hlast as (Hin & Hk & Hlargest); [|apply Hm]. simpl in *.
  assert (∀ k' s' e', (k', (s', e')) ∈ m → k' <= k ∨ n2 < k') as Hsplit.
  { intros k' s' e' Hp. destruct (decide (k' <= n1)); [left; by apply (Hlargest _ Hp)|].
    right. apply (Hgap _ _ _ Hp). lia. }
  destruct (wf_entry m Hm _ _ _ Hin) as (<- & Hs & He). rewrite Z.geb_leb.
  destruct (Z.leb_spec (if decide (n1 = 0) then SEQ_MAX else n1 - 1) e) as [Hge|Hlt].
  - apply extend_entry_spec; [done|done|lia|done|case_decide; lia|done].
  - apply new_entry_spec; [done..| |].
    + intros k' s' e' Hp Hne. destruct (Hsplit _ _ _ Hp) as [Hle|?]; [left|by right].
      pose proof (wf_entry m Hm _ _ _ Hp).
      destruct (decide (k' = k)) as [->|?].
      * pose proof (sorted_unique m _ _ (wf_sorted m Hm) Hp Hin eq_refl). simplify_eq.
        case_decide; lia.
      * pose proof (wf_disjoint m Hm _ _ _ _ _ _ Hp Hin). lia.
    + intros s' e' Hp. pose proof (Hlargest _ Hp) as Hle; simpl in Hle.
      specialize (Hle ltac:(lia)). assert (n1 = k) as <- by lia.
      pose proof (sorted_unique m _ _ (wf_sorted m Hm) Hp Hin eq_refl). simplify_eq.
      case_decide; [|lia]. subst n1. destruct (Hzero eq_refl _ _ Hp); lia.
Qed.

Lemma insert_ordered_spec m n1 n2 : wf m → 0 <= n1 <= n2 → n2 <= SEQ_MAX →
  zero_entry_fits n1 n2 m →
  wf (LossList.insert_ordered n1 n2 m)
  ∧ ∀ x, lost (LossList.insert_ordered n1 n2 m) x ↔ lost m x ∨ n1 <= x <= n2.
Proof.
  intros Hm Hn Hmax Hzero. unfold LossList.insert_ordered.
  pose proof (absorb_spec m n1 n2 Hm Hn Hmax) as Habs.
  destruct (LossList.absorb n1 n2 m) as [m' n2'].
  destruct Habs as (Hm' & Hn2 & Hin & Hgap & Hlost).
  destruct (place_spec m' n1 n2') as [Hwf Hpl]; [done|lia|lia|done| |].
  - intros Hz s e [Hp _]%Hin. destruct (Hzero Hz s e Hp); [left; lia|by right].
  - split; [done|]. intros x. by rewrite Hpl, Hlost.
Qed.

(** What inserting from number 0 does to a longer entry that starts there. *)
Lemma insert_ordered_zero m n2 e : wf m → (0, (0, e)) ∈ m → 0 <= n2 < e → e < SEQ_MAX →
  LossList.insert_ordered 0 n2 m = BTreeMap.insert 0 (0, n2) m.
Proof.
  intros Hm Hin Hn He. unfold LossList.insert_ordered.
  assert (LossList.absorb 0 n2 m = (m, n2)) as ->.
  { unfold LossList.absorb. rewrite Z.gtb_ltb. case_match; [|done].
    rewrite seq_add_small by (unfold SEQ_MAX; lia).
    assert (BTreeMap.range_incl (0 + 1) n2 m = []) as ->; [|done].
    apply elem_of_nil_inv. intros [k [s e']] [Hp Hk]%elem_of_range_incl. simpl in Hk.
    pose proof (wf_disjoint m Hm _ _ _ _ _ _ Hin Hp). lia. }
  unfold LossList.place. destruct (last _) as [[k [s e']]|] eqn:Hlast; [|done].
  apply last_range_to_Some in Hlast as (Hp & Hk & _); [|apply Hm]. simpl in Hk.
  destruct (wf_entry m Hm _ _ _ Hp) as (<- & Hs & _). assert (k = 0) as -> by lia.
  pose proof (sorted_unique m _ _ (wf_sorted m Hm) Hp Hin eq_refl). simplify_eq.
  rewrite seq_pred by done. rewrite decide_True by done. rewrite Z.geb_leb.
  by rewrite (proj2 (Z.leb_gt _ _)).
Qed.

(** ** Removal *)

Lemma wf_remove_key m k : wf m → wf (BTreeMap.remove k m).
Proof.
  intros Hm. split; [apply sorted_remove, Hm|..].
  - intros k' s e [Hp _]%elem_of_remove. by apply (wf_entry m Hm).
  - intros k1 s1 e1 k2 s2 e2 [H1 _]%elem_of_remove [H2 _]%elem_of_remove.
    by apply (wf_disjoint m Hm _ _ _ _ _ _ H1 H2).
Qed.

Lemma lost_remove_key m k x :
  lost (BTreeMap.remove k m) x ↔ ∃ k' s' e', (k', (s', e')) ∈ m ∧ k' ≠ k ∧ s' <= x <= e'.
Proof. unfold lost. setoid_rewrite elem_of_remove. naive_solver. Qed.

(** The part of an interval after a removed number goes back as an entry. *)
Lemma reinsert_tail m num e : wf m → 0 <= num < SEQ_MAX → num < e <= SEQ_MAX →
  (∀ k' s' e', (k', (s', e')) ∈ m → e' < num ∨ e < k') →
  let m' := BTreeMap.insert (num ⊕ 1) (num ⊕ 1, e) m in
  wf m' ∧ ∀ x, lost m' x ↔ lost m x ∨ num < x <= e.
Proof.
  intros Hm Hn He Hsep. rewrite seq_add_small by lia. cbn zeta.
  destruct (new_entry_spec m (num + 1) e) as [Hwf Hl]; [done|lia|lia|..].
  - intros k s e' Hp _. destruct (Hsep _ _ _ Hp); lia.
  - intros s e' Hp. destruct (Hsep _ _ _ Hp); [lia|].
    apply (wf_entry m Hm) in Hp. lia.
  - split; [done|]. intros x. rewrite Hl. naive_solver lia.
Qed.

(** The entry that contains [num], split around it. *)
Lemma split_entry_spec m k e num : wf m → (k, (k, e)) ∈ m → k <= num <= e →
  let m1 := if k =? num then BTreeMap.remove k m else BTreeMap.insert k (k, num ⊕ -1) m in
  let m2 := if e >? num then BTreeMap.insert (num ⊕ 1) (num ⊕ 1, e) m1 else m1 in
  wf m2 ∧ ∀ x, lost m2 x ↔ lost m x ∧ x ≠ num.
Proof.
  intros Hm Hin Hnum m1 m2. destruct (wf_entry m Hm _ _ _ Hin) as (_ & Hk & He).
  assert (∀ k' s' e', (k', (s', e')) ∈ m → k' ≠ k → e' < k ∨ e < k') as Hsep.
  { intros k' s' e' Hp Hne. destruct (decide (k' < k)) as [Hlt|?].
    - left. by apply (wf_disjoint m Hm _ _ _ _ _ _ Hp Hin).
    - right. apply (wf_disjoint m Hm _ _ _ _ _ _ Hin Hp). lia. }
  assert (∀ x, lost m x ↔ k <= x <= e ∨ lost (BTreeMap.remove k m) x) as Hlm.
  { intros x. rewrite lost_remove_key. unfold lost. split; [|naive_solver].
    intros (k' & s' & e' & Hp & Hx). destruct (decide (k' = k)) as [->|?]; [left|eauto 10].
    pose proof (sorted_unique m _ _ (wf_sorted m Hm) Hp Hin eq_refl). by simplify_eq. }
  assert (∀ x, lost (BTreeMap.remove k m) x → x < k ∨ e < x) as Hout.
  { intros x (k' & s' & e' & Hp & Hne & Hx)%lost_remove_key.
    destruct (Hsep _ _ _ Hp Hne); [lia|]. apply (wf_entry m Hm) in Hp. lia. }
  assert (wf m1 ∧ (∀ x, lost m1 x ↔ k <= x < num ∨ lost (BTreeMap.remove k m) x)
    ∧ ∀ k' s' e', (k', (s', e')) ∈ m1 → e' < num ∨ e < k') as (Hm1 & Hl1 & Hs1).
  { unfold m1. destruct (Z.eqb_spec k num) as [->|Hne]; split_and!.
    - by apply wf_remove_key.
    - intros x. naive_solver lia.
    - intros k' s' e' [Hp Hne]%elem_of_remove. by apply (Hsep _ _ _ Hp).
    - rewrite seq_add_small by lia. apply wf_insert; [done|lia..|].
      intros k' s' e' Hp Hne'. destruct (Hsep _ _ _ Hp Hne'); lia.
    - intros x. rewrite seq_add_small by lia. rewrite lost_insert, lost_remove_key. naive_solver lia.
    - intros k' s' e'. rewrite seq_add_small by lia.
      intros [[= -> -> ->]|[Hp Hne']]%elem_of_insert; [lia|]. destruct (Hsep _ _ _ Hp Hne'); lia. }
  unfold m2. rewrite Z.gtb_ltb. destruct (Z.ltb_spec num e) as [Hlt|Hge].
  - destruct (reinsert_tail m1 num e) as [Hwf Hl]; [done|lia|lia|done|].
    split; [done|]. intros x. rewrite Hl, Hl1, Hlm. specialize (Hout x). naive_solver lia.
  - split; [done|]. intros x. rewrite Hl1, Hlm. specialize (Hout x). naive_solver lia.
Qed.

Lemma remove_spec m num : wf m →
  wf (LossList.remove num m) ∧ ∀ x, lost (LossList.remove num m) x ↔ lost m x ∧ x ≠ num.
Proof.
  intros Hm. unfold LossList.remove.
  destruct (last (BTreeMap.range_to num m)) as [[k [s e]]|] eqn:Hlast.
  - apply last_range_to_Some in Hlast as (Hin & Hk & Hlargest); [|apply Hm]. simpl in Hk.
    destruct (wf_entry m Hm _ _ _ Hin) as (<- & Hs & He).
    destruct (decide (num <= e)).
    + pose proof (split_entry_spec m k e num Hm Hin ltac:(lia)) as Hsplit. cbn zeta in Hsplit.
      destruct (k =? num); [done|]. by rewrite Z.geb_leb, (proj2 (Z.leb_le _ _)).
    + destruct (Z.eqb_spec k num); [lia|]. rewrite Z.geb_leb, (proj2 (Z.leb_gt _ _)) by lia.
      split; [done|]. intros x. split; [|naive_solver]. intros Hx; split; [done|intros ->].
      destruct Hx as (k' & s' & e' & Hp & Hx). destruct (wf_entry m Hm _ _ _ Hp) as (<- & _).
      specialize (Hlargest _ Hp). simpl in Hlargest.
      destruct (decide (k' = k)) as [->|?].
      * pose proof (sorted_unique m _ _ (wf_sorted m Hm) Hp Hin eq_refl). simplify_eq. lia.
      * pose proof (wf_disjoint m Hm _ _ _ _ _ _ Hp Hin). lia.
  - split; [done|]. intros x. split; [|naive_solver]. intros Hx; split; [done|intros ->].
    destruct Hx as (k' & s' & e' & Hp & Hx). destruct (wf_entry m Hm _ _ _ Hp) as (<- & _).
    pose proof (last_range_to_None _ _ _ Hlast Hp). simpl in *. lia.
Qed.

Lemma remove_list_spec ns m : wf m →
  let m' := foldl (λ m i, LossList.remove i m) m ns in
  wf m' ∧ ∀ x, lost m' x ↔ lost m x ∧ x ∉ ns.
Proof.
  revert m. induction ns as [|n ns IH]; intros m Hm; cbn.
  - split; [done|]. intros x. pose proof (not_elem_of_nil x). naive_solver.
  - destruct (remove_spec m n Hm) as [Hwf Hl]. destruct (IH _ Hwf) as [Hwf' Hl'].
    split; [done|]. intros x. rewrite Hl', Hl, not_elem_of_cons. naive_solver.
Qed.

Lemma elem_of_numbers_down n1 n2 x : x ∈ LossList.numbers_down n1 n2 ↔ n1 <= x <= n2.
Proof.
  unfold LossList.numbers_down. rewrite elem_of_reverse, elem_of_seqZ. lia.
Qed.

(** ** Search *)

Definition next_interval (after : Z) (m : LossList.t) : option (Z * (Z * Z)) :=
  match head (BTreeMap.range_from after m) with Some p => Some p | None => head m end.

Lemma peek_after_value after m : LossList.peek_after after m =
  match last (BTreeMap.range_to after m) with
  | Some (_, (_, e)) =>
      if e >=? after then Some after
      else (λ p : Z * (Z * Z), p.2.1) <$> next_interval after m
  | None => (λ p : Z * (Z * Z), p.2.1) <$> next_interval after m
  end.
Proof.
  unfold LossList.peek_after, next_interval. destruct m as [|p m]; [done|]. cbn [LossList.is_empty].
  by destruct (head (BTreeMap.range_from _ _)) as [[? [? ?]]|].
Qed.

(** When [after] itself is not lost, the next interval is the first one that starts
    later, or else the first of the list. *)
Lemma next_interval_spec after m : wf m → valid after → ¬ lost m after →
  match next_interval after m with
  | Some p => lost m p.2.1 ∧ ∀ x, lost m x → steps after p.2.1 <= steps after x
  | None => m = []
  end.
Proof.
  intros Hm Ha Hna.
  assert (∀ k s e, (k, (s, e)) ∈ m → k = s ∧ valid s ∧ valid e ∧ s <= e) as Hent.
  { intros k s e Hp. pose proof (wf_entry m Hm _ _ _ Hp). unfold valid. lia. }
  assert (∀ k s e, (k, (s, e)) ∈ m → after < s ∨ e < after) as Hside.
  { intros k s e Hp. destruct (Hent _ _ _ Hp) as (_ & _ & _ & ?).
    destruct (decide (s <= after <= e)); [|lia].
    exfalso. apply Hna. by exists k, s, e. }
  unfold next_interval.
  destruct (head (BTreeMap.range_from after m)) as [[k [s e]]|] eqn:Hnext.
  - apply head_range_from_Some in Hnext as (Hin & Hk & Hleast); [|apply Hm].
    simpl in *.
    destruct (Hent _ _ _ Hin) as (<- & Hs & He & Hse). split; [exists k, k, e; split; [done|lia]|].
    intros x (k' & s' & e' & Hp & Hx). destruct (Hent _ _ _ Hp) as (<- & Hs' & He' & _).
    pose proof (Hleast _ Hp) as Hle; simpl in Hle. pose proof (Hside _ _ _ Hp).
    rewrite !steps_value by (unfold valid in *; lia).
    unfold valid, SEQ_MAX in *. repeat case_match; lia.
  - assert (∀ k s e, (k, (s, e)) ∈ m → e < after) as Hbefore.
    { intros k s e Hp. pose proof (head_range_from_None _ _ _ Hnext Hp). simpl in *.
      destruct (Hent _ _ _ Hp) as (<- & _), (Hside _ _ _ Hp); lia. }
    destruct (head m) as [[k [s e]]|] eqn:Hhead; simpl; [|by apply head_None_iff].
    apply head_spec in Hhead as [Hin Hleast]; [|apply Hm].
    destruct (Hent _ _ _ Hin) as (<- & Hs & He & Hse). split; [exists k, k, e; split; [done|lia]|].
    intros x (k' & s' & e' & Hp & Hx). destruct (Hent _ _ _ Hp) as (<- & Hs' & He' & _).
    pose proof (Hleast _ Hp) as Hle; simpl in Hle.
    pose proof (Hbefore _ _ _ Hp). pose proof (Hbefore _ _ _ Hin).
    rewrite !steps_value by (unfold valid in *; lia).
    unfold valid, SEQ_MAX in *. repeat case_match; lia.
Qed.

Lemma steps_refl a : steps a a = 0.
Proof. unfold steps. by rewrite Z.sub_diag. Qed.

Lemma steps_nonneg a b : 0 <= steps a b.
Proof. unfold steps. apply Z.mod_pos_bound. lia. Qed.

Lemma peek_after_spec after m : wf m → valid after →
  match LossList.peek_after after m with
  | Some s => lost m s ∧ ∀ x, lost m x → steps after s <= steps after x
  | None => ∀ x, ¬ lost m x
  end.
Proof.
  intros Hm Ha. rewrite peek_after_value.
  assert (∀ k s e, last (BTreeMap.range_to after m) = Some (k, (s, e)) →
    (k, (k, e)) ∈ m ∧ s = k ∧ k <= after) as Hlast1.
  { intros k s e Hl. apply last_range_to_Some in Hl as (Hin & Hk & _); [|apply Hm].
    destruct (wf_entry m Hm _ _ _ Hin) as (<- & _). done. }
  assert (¬ lost m after →
    match (λ p : Z * (Z * Z), p.2.1) <$> next_interval after m with
    | Some s => lost m s ∧ ∀ x, lost m x → steps after s <= steps after x
    | None => ∀ x, ¬ lost m x
    end) as Hnext.
  { intros Hna. pose proof (next_interval_spec after m Hm Ha Hna) as Hn.
    destruct (next_interval after m) as [p|]; [done|]. subst m. intros x (k & s & e & ?%not_elem_of_nil & _). done. }
  destruct (last _) as [[k [s e]]|] eqn:Hl.
  - destruct (Hlast1 _ _ _ eq_refl) as (Hin & -> & Hk). rewrite Z.geb_leb.
    destruct (Z.leb_spec after e).
    + split; [by exists k, k, e|]. intros x _. rewrite steps_refl. apply steps_nonneg.
    + apply Hnext. intros (k' & s' & e' & Hp & Hx).
      destruct (wf_entry m Hm _ _ _ Hp) as (<- & _).
      apply last_range_to_Some in Hl as (_ & _ & Hlargest); [|apply Hm].
      specialize (Hlargest _ Hp). simpl in Hlargest. destruct (decide (k' = k)) as [->|?].
      * pose proof (sorted_unique m _ _ (wf_sorted m Hm) Hp Hin eq_refl). simplify_eq. lia.
      * pose proof (wf_disjoint m Hm _ _ _ _ _ _ Hp Hin). lia.
  - apply Hnext. intros (k' & s' & e' & Hp & Hx). destruct (wf_entry m Hm _ _ _ Hp) as (<- & _).
    pose proof (last_range_to_None _ _ _ Hl Hp). simpl in *. lia.
Qed.

Lemma pop_after_value after m : wf m →
  LossList.pop_after after m =
    (LossList.peek_after after m,
     match LossList.peek_after after m with Some s => LossList.remove s m | None => m end).
Proof.
  intros Hm. unfold LossList.pop_after, LossList.peek_after.
  destruct (LossList.is_empty m); [done|].
  destruct (last _) as [[? [? e]]|]; [destruct (e >=? after); [done|]|];
    destruct (head (BTreeMap.range_from after m)) as [[? [? ?]]|]; try done;
    destruct (head m) as [[? [? ?]]|]; done.
Qed.

(** With no lost number before [after], the search returns the least one. *)
Lemma peek_after_least after m s : wf m → valid after →
  lost m s → (∀ x, lost m x → after <= s <= x) → LossList.peek_after after m = Some s.
Proof.
  intros Hm Ha Hs Hmin. pose proof (peek_after_spec after m Hm Ha) as Hp.
  destruct (LossList.peek_after after m) as [s'|]; [|by apply Hp in Hs].
  destruct Hp as [Hs' Hle]. specialize (Hle s Hs). pose proof (Hmin s' Hs').
  pose proof (wf_lost_valid m s Hm Hs). pose proof (wf_lost_valid m s' Hm Hs').
  rewrite !steps_value in Hle by done. f_equal. repeat case_match; lia.
Qed.

(** ** Properties *)

Lemma insert_spec fuel n1 n2 m : (2 ≤ fuel)%nat →
  wf m → valid n1 → valid n2 → 0 < n1 <= n2 ∨ ¬ lost m 0 →
  ∃ m', LossList.insert fuel n1 n2 m = Some m' ∧ wf m'
      ∧ ∀ x, lost m' x ↔ lost m x ∨ between n1 n2 x.
Proof.
  unfold valid, between. intros Hfuel Hm Hn1 Hn2 Hz. do 2 (destruct fuel as [|fuel]; [lia|]).
  assert (∀ n2 m', ¬ lost m' 0 → wf m' → zero_entry_fits 0 n2 m') as Hfits.
  { intros n2' m' Hno Hm' _ s e Hp. destruct (wf_entry m' Hm' _ _ _ Hp) as (<- & ? & _).
    exfalso. apply Hno. exists 0, 0, e. split; [done|lia]. }
  cbn [LossList.insert]. rewrite Z.gtb_ltb.
  destruct (Z.ltb_spec n2 n1) as [Hlt|Hle]; cycle 1.
  - rewrite (proj2 (Z.leb_le _ _)) by done.
    destruct (insert_ordered_spec m n1 n2) as [Hwf Hl]; [done|lia|lia| |by eauto].
    destruct Hz as [?|Hno]; [intros ?; lia|]. intros ->. by apply Hfits.
  - rewrite (proj2 (Z.leb_gt _ _)) by done. destruct Hz as [?|Hno]; [lia|].
    rewrite Z.gtb_ltb, (proj2 (Z.ltb_ge _ _)) by lia. cbn [mbind option_bind].
    destruct (insert_ordered_spec m n1 SEQ_MAX) as [Hwf Hl]; [done|lia|done|intros ?; lia|].
    rewrite Z.gtb_ltb, (proj2 (Z.ltb_ge _ _)) by lia.
    assert (¬ lost (LossList.insert_ordered n1 SEQ_MAX m) 0) as Hno' by (rewrite Hl; intros [?|?]; [done|lia]).
    destruct (insert_ordered_spec (LossList.insert_ordered n1 SEQ_MAX m) 0 n2) as [Hwf' Hl'];
      [done|lia|lia|by apply Hfits|].
    eexists. split; [done|]. split; [done|]. intros x. rewrite Hl', Hl. tauto.
Qed.

Lemma remove_all_spec fuel n1 n2 m : (2 ≤ fuel)%nat → wf m → valid n1 → valid n2 →
  ∃ m', LossList.remove_all fuel n1 n2 m = Some m' ∧ wf m'
      ∧ ∀ x, lost m' x ↔ lost m x ∧ ¬ between n1 n2 x.
Proof.
  unfold valid, between. intros Hfuel Hm Hn1 Hn2. do 2 (destruct fuel as [|fuel]; [lia|]).
  cbn [LossList.remove_all]. destruct (Z.leb_spec n1 n2) as [Hle|Hlt].
  - destruct (remove_list_spec (LossList.numbers_down n1 n2) m Hm) as [Hwf Hl].
    eexists. split; [done|]. split; [done|]. intros x. by rewrite Hl, elem_of_numbers_down.
  - rewrite (proj2 (Z.leb_le n1 SEQ_MAX)) by lia. cbn [mbind option_bind].
    rewrite (proj2 (Z.leb_le 0 n2)) by lia.
    destruct (remove_list_spec (LossList.numbers_down n1 SEQ_MAX) m Hm) as [Hwf Hl].
    destruct (remove_list_spec (LossList.numbers_down 0 n2) _ Hwf) as [Hwf' Hl'].
    eexists. split; [done|]. split; [done|]. intros x.
    rewrite Hl', Hl, !elem_of_numbers_down. tauto.
Qed.

(** C35. Inserting the interval from [n1] to [n2], two valid numbers, into a well-formed
    list terminates within one nested call, keeps the intervals disjoint and ordered, and
    adds exactly the numbers of the interval, provided that it stays away from the
    wrap-around point ([0 < n1 <= n2]) or number 0 is not already in the list. *)
Theorem loss_insert_correct n1 n2 m :
  wf m → valid n1 → valid n2 → 0 < n1 <= n2 ∨ ¬ lost m 0 →
  ∃ m', LossList.insert 2 n1 n2 m = Some m' ∧ wf m'
      ∧ ∀ x, lost m' x ↔ lost m x ∨ between n1 n2 x.
Proof. by apply insert_spec. Qed.

(** Without that proviso the list forgets losses: inserting [0..n2] when an
    interval [0..e] with a larger end is present leaves the list without the numbers
    [n2 + 1..e], although they are still lost. *)
Theorem loss_insert_zero_forgets n2 e m :
  wf m → (0, (0, e)) ∈ m → 0 <= n2 < e → e < SEQ_MAX →
  ∃ m', LossList.insert 2 0 n2 m = Some m' ∧ wf m'
      ∧ ∀ x, lost m' x ↔ lost m x ∧ ¬ (n2 < x <= e).
Proof.
  intros Hm Hin Hn He. cbn [LossList.insert]. rewrite Z.gtb_ltb, (proj2 (Z.ltb_ge _ _)) by lia.
  eexists. split; [done|]. rewrite (insert_ordered_zero m n2 e) by done. split.
  - apply wf_insert; [done|lia..|]. intros k s e' Hp Hne.
    destruct (wf_entry m Hm _ _ _ Hp) as (<- & ? & _).
    pose proof (wf_disjoint m Hm _ _ _ _ _ _ Hin Hp). lia.
  - intros x. rewrite lost_insert. split.
    + intros [Hx|(k & s & e' & Hp & Hne & Hx)].
      * split; [exists 0, 0, e; split; [done|lia]|lia].
      * split; [by exists k, s, e'|]. destruct (wf_entry m Hm _ _ _ Hp) as (<- & ? & _).
        pose proof (wf_disjoint m Hm _ _ _ _ _ _ Hin Hp). lia.
    + intros [(k & s & e' & Hp & Hx) Hnx]. destruct (decide (k = 0)) as [->|?].
      * pose proof (sorted_unique m _ _ (wf_sorted m Hm) Hp Hin eq_refl). simplify_eq. lia.
      * right. by exists k, s, e'.
Qed.

(** C40. A start outside the sequence number range and above the end, which the
    unchecked [From<u32>] lets through, makes [insert] and [remove_all] call
    themselves with the same arguments for ever: no recursion depth is enough. *)
Theorem loss_list_unbounded_recursion n1 n2 m fuel :
  SEQ_MAX < n1 → n2 < n1 →
  LossList.insert fuel n1 n2 m = None ∧ LossList.remove_all fuel n1 n2 m = None.
Proof.
  intros Hn1. revert n2 m. induction fuel as [|fuel IH]; intros n2 m Hlt; [done|].
  cbn [LossList.insert LossList.remove_all].
  rewrite Z.gtb_ltb, (proj2 (Z.ltb_lt _ _)), (proj2 (Z.leb_gt _ _)) by done.
  destruct (IH SEQ_MAX m Hn1) as [-> ->]. done.
Qed.

(** [remove] deletes one number and [remove_all] the numbers of an interval,
    wrapping or not, and nothing else; both keep the intervals disjoint and ordered. *)
Theorem loss_remove_correct num n1 n2 m :
  wf m → valid n1 → valid n2 →
  (wf (LossList.remove num m) ∧ ∀ x, lost (LossList.remove num m) x ↔ lost m x ∧ x ≠ num)
  ∧ ∃ m', LossList.remove_all 2 n1 n2 m = Some m' ∧ wf m'
        ∧ ∀ x, lost m' x ↔ lost m x ∧ ¬ between n1 n2 x.
Proof. intros. split; [by apply remove_spec|by apply remove_all_spec]. Qed.

(** C36. [pop_after] returns the lost number that is reached first when counting up,
    cyclically, from [after], and removes it and nothing else; it returns nothing
    only when the list is empty.  [peek_after] returns the same number. *)
Theorem loss_pop_after_correct after m :
  wf m → valid after →
  let '(popped, m') := LossList.pop_after after m in
  popped = LossList.peek_after after m ∧ wf m'
  ∧ match popped with
    | Some s => lost m s ∧ (∀ x, lost m x → steps after s <= steps after x)
                ∧ ∀ x, lost m' x ↔ lost m x ∧ x ≠ s
    | None => m' = m ∧ ∀ x, ¬ lost m x
    end.
Proof.
  intros Hm Ha. rewrite pop_after_value by done.
  pose proof (peek_after_spec after m Hm Ha) as Hpeek.
  destruct (LossList.peek_after after m) as [s|]; [|done].
  destruct (remove_spec m s Hm) as [Hwf Hl]. naive_solver.
Qed.

(** ** Witnesses *)

Definition sample_list : LossList.t := [(0, (0, 9)); (20, (20, 25))].

Lemma elem_of_sample_list p : p ∈ sample_list → p = (0, (0, 9)) ∨ p = (20, (20, 25)).
Proof. unfold sample_list. rewrite !elem_of_cons. intros [?|[?|[]%not_elem_of_nil]]; auto. Qed.

Lemma sample_list_wf : wf sample_list.
Proof.
  split.
  - repeat constructor.
  - intros k s e [?|?]%elem_of_sample_list; simplify_eq; unfold SEQ_MAX; lia.
  - intros k s e k' s' e' [?|?]%elem_of_sample_list [?|?]%elem_of_sample_list; simplify_eq; lia.
Qed.

Lemma loss_insert_correct_witness :
  ∃ m', LossList.insert 2 5 30 sample_list = Some m' ∧ wf m'
      ∧ ∀ x, lost m' x ↔ lost sample_list x ∨ between 5 30 x.
Proof. apply (loss_insert_correct 5 30 sample_list sample_list_wf); [done..|left; lia]. Defined.

Lemma loss_insert_zero_forgets_witness :
  ∃ m', LossList.insert 2 0 3 sample_list = Some m' ∧ wf m'
      ∧ ∀ x, lost m' x ↔ lost sample_list x ∧ ¬ (3 < x <= 9).
Proof.
  apply (loss_insert_zero_forgets 3 9 sample_list sample_list_wf); [left|lia|unfold SEQ_MAX; lia].
Defined.

Lemma loss_list_unbounded_recursion_witness :
  LossList.insert 100 2147483648 7 [] = None ∧ LossList.remove_all 100 2147483648 7 [] = None.
Proof. apply (loss_list_unbounded_recursion 2147483648 7 [] 100); unfold SEQ_MAX; lia. Defined.

Lemma loss_remove_correct_witness :
  (wf (LossList.remove 22 sample_list)
   ∧ ∀ x, lost (LossList.remove 22 sample_list) x ↔ lost sample_list x ∧ x ≠ 22)
  ∧ ∃ m', LossList.remove_all 2 24 3 sample_list = Some m' ∧ wf m'
        ∧ ∀ x, lost m' x ↔ lost sample_list x ∧ ¬ between 24 3 x.
Proof. apply (loss_remove_correct 22 24 3 sample_list sample_list_wf); done. Defined.

Lemma loss_pop_after_correct_witness :
  LossList.pop_after 30 sample_list = (Some 0, [(1, (1, 9)); (20, (20, 25))])
  ∧ lost sample_list 0.
Proof.
  split; [by vm_compute|].
  exact (proj1 (proj2 (proj2 (loss_pop_after_correct 30 sample_list sample_list_wf ltac:(done))))).
Defined.

(** The unit tests of the source. *)
Example test_insert_sequences :
  (m ← LossList.insert 2 5 10 LossList.new; LossList.insert 2 1 2 m)
  = Some [(1, (1, 2)); (5, (5, 10))].
Proof. by vm_compute. Qed.

Example test_insert_with_multiple_overlapping_sequences :
  (m ← LossList.insert 2 6 10 LossList.new; m ← LossList.insert 2 12 25 m;
   LossList.insert 2 1 22 m) = Some [(1, (1, 25))].
Proof. by vm_compute. Qed.

Example test_remove_seq_inside_sequence :
  LossList.remove 5 <$> LossList.insert 2 1 10 LossList.new
  = Some [(1, (1, 4)); (6, (6, 10))].
Proof. by vm_compute. Qed.

Example test_peek_after :
  map (λ a, LossList.peek_after a [(1, (1, 2)); (5, (5, 10))]) [1; 4; 10; 11]
  = [Some 1; Some 5; Some 10; Some 1].
Proof. by vm_compute. Qed.
