(* ===== verification/ack_window.v ===== *)
(** * Acknowledgement window ([src/ack_window.rs])

    The last [size] acknowledgements sent, with the data sequence number each one
    carried and the time it was sent, so that an ACK2 yields a round-trip time. *)

From S2P Require Import prelude seq_number btree_map time.

Module AckWindow.
Record t := mk {
  size : nat;
  acks : list (Z * (Z * Z));
  keys : list Z
}.

Definition new (size : nat) : t := mk size [] [].

(** [now] is the reading of [Instant::now()]. *)
Definition store (now seq ack : Z) (w : t) : outcome t :=
  w ← (if decide (size w ≤ length (keys w))%nat then
         match keys w with
         | oldest :: keys => Ok (mk (size w) (BTreeMap.remove oldest (acks w)) keys)
         | [] => Panic
         end
       else Ok w);
  Ok (mk (size w) (BTreeMap.insert ack (seq, now) (acks w)) (keys w ++ [ack])).

Definition get (now ack : Z) (w : t) : option (Z * Z) :=
  (λ p, (p.1, duration_since now p.2)) <$> BTreeMap.get ack (acks w).
End AckWindow.

(** ** Reference semantics: the suffix of the history of stored acknowledgements *)

Record stored := Stored { st_ack : Z; st_seq : Z; st_time : Z }.

Definition store_all (size : nat) (history : list stored) : outcome AckWindow.t :=
  foldl (λ w s, w ← w; AckWindow.store (st_time s) (st_seq s) (st_ack s) w)
    (Ok (AckWindow.new size)) history.

(** The [n] most recent elements of a list. *)
Definition recent {A} (n : nat) (l : list A) : list A := drop (length l - n) l.

(** A window represents a list of stored acknowledgements, oldest first. *)
Record represents (w : AckWindow.t) (l : list stored) : Prop := {
  rep_keys : AckWindow.keys w = st_ack <$> l;
  rep_sorted : BTreeMap.sorted (AckWindow.acks w);
  rep_acks a v : (a, v) ∈ AckWindow.acks w ↔ ∃ s, s ∈ l ∧ a = st_ack s ∧ v = (st_seq s, st_time s);
  rep_nodup : NoDup (st_ack <$> l)
}.

Lemma represents_new n : represents (AckWindow.new n) [].
Proof.
  split; [done|apply sorted_nil| |apply NoDup_nil_2]. intros a v. simpl.
  split; [by intros ?%not_elem_of_nil|by intros (s & ?%not_elem_of_nil & _)].
Qed.

Lemma represents_pop w s l : represents w (s :: l) →
  represents (AckWindow.mk (AckWindow.size w) (BTreeMap.remove (st_ack s) (AckWindow.acks w))
                           (st_ack <$> l)) l.
Proof.
  intros [Hk Hs Ha Hnd]. rewrite fmap_cons in Hnd. apply NoDup_cons in Hnd as [Hnotin Hnd].
  split; [done|by apply sorted_remove| |done]. intros a v. simpl.
  rewrite elem_of_remove, Ha. simpl. setoid_rewrite elem_of_cons. split.
  - intros [(s' & [->|Hin] & -> & ->) Hne]; [done|]. by exists s'.
  - intros (s' & Hin & -> & ->). split; [exists s'; auto|].
    intros E. apply Hnotin. rewrite <- E. by apply list_elem_of_fmap_2.
Qed.

Lemma represents_push w l s : represents w l → st_ack s ∉ st_ack <$> l →
  represents (AckWindow.mk (AckWindow.size w)
    (BTreeMap.insert (st_ack s) (st_seq s, st_time s) (AckWindow.acks w))
    (AckWindow.keys w ++ [st_ack s])) (l ++ [s]).
Proof.
  intros [Hk Hs Ha Hnd] Hfresh. split.
  - simpl. by rewrite fmap_app, Hk.
  - by apply sorted_insert.
  - intros a v. simpl. rewrite elem_of_insert, Ha. simpl. setoid_rewrite elem_of_app.
    setoid_rewrite list_elem_of_singleton. split.
    + intros [[= -> ->]|[(s' & Hin & -> & ->) _]]; [by exists s; auto|exists s'; auto].
    + intros (s' & [Hin| ->] & -> & ->); [right|by left].
      split; [by exists s'|]. intros E. apply Hfresh. rewrite <- E. by apply list_elem_of_fmap_2.
  - rewrite fmap_app. apply NoDup_app. split; [done|]. split; [|apply NoDup_singleton].
    intros a Hin Hin'. apply list_elem_of_singleton in Hin' as ->. done.
Qed.

Lemma recent_snoc_full {A} n (l : list A) x y r : recent n l = y :: r → (length l ≥ n)%nat →
  (0 < n)%nat → recent n (l ++ [x]) = r ++ [x].
Proof.
  unfold recent. rewrite length_app. simpl. intros Hr Hl Hn.
  replace (length l + 1 - n)%nat with (S (length l - n)) by lia.
  assert (drop (S (length l - n)) l = r) as Hd.
  { replace (S (length l - n)) with (length l - n + 1)%nat by lia.
    by rewrite <- drop_drop, Hr. }
  rewrite drop_app_le by lia. by rewrite Hd.
Qed.

Lemma recent_snoc_room {A} n (l : list A) x : (length l < n)%nat →
  recent n (l ++ [x]) = recent n l ++ [x].
Proof.
  unfold recent. rewrite length_app. simpl. intros.
  by replace (length l + 1 - n)%nat with 0%nat by lia; replace (length l - n)%nat with 0%nat by lia.
Qed.

Lemma length_recent {A} n (l : list A) : length (recent n l) = (n `min` length l)%nat.
Proof. unfold recent. rewrite length_drop. lia. Qed.

Lemma elem_of_recent {A} n (l : list A) x : x ∈ recent n l → x ∈ l.
Proof.
  unfold recent. intros Hx. rewrite <- (take_drop (length l - n) l). apply elem_of_app. by right.
Qed.

(** One [store]: the oldest entry makes room for the new one. *)
Lemma store_represents w l s : represents w l → st_ack s ∉ st_ack <$> l →
  (0 < AckWindow.size w)%nat → (length l ≤ AckWindow.size w)%nat →
  ∃ w', AckWindow.store (st_time s) (st_seq s) (st_ack s) w = Ok w'
      ∧ AckWindow.size w' = AckWindow.size w
      ∧ represents w' ((if decide (AckWindow.size w ≤ length l)%nat then tail l else l) ++ [s]).
Proof.
  intros Hrep Hfresh Hsize Hlen. unfold AckWindow.store.
  rewrite (rep_keys w l Hrep), length_fmap. case_decide as Hfull.
  - destruct l as [|s0 l]; simpl in *; [lia|]. eexists. split; [done|]. split; [done|].
    apply (represents_push _ _ s (represents_pop _ _ _ Hrep)). set_solver.
  - eexists. split; [done|]. split; [done|]. by apply represents_push.
Qed.

Lemma store_all_represents n h : (0 < n)%nat → NoDup (st_ack <$> h) →
  ∃ w, store_all n h = Ok w ∧ AckWindow.size w = n ∧ represents w (recent n h).
Proof.
  intros Hn. induction h as [|s h IH] using rev_ind; intros Hnd.
  { eexists. split; [done|]. split; [done|]. apply represents_new. }
  rewrite fmap_app in Hnd. apply NoDup_app in Hnd as (Hnd & Hdisj & _).
  destruct (IH Hnd) as (w & Hw & Hsize & Hrep).
  assert (st_ack s ∉ st_ack <$> recent n h) as Hfresh.
  { intros (s' & E & Hin)%list_elem_of_fmap. apply (Hdisj (st_ack s)); [|left].
    rewrite E. apply list_elem_of_fmap_2. by apply elem_of_recent in Hin. }
  destruct (store_represents w (recent n h) s Hrep Hfresh) as (w' & Hw' & Hsize' & Hrep').
  { lia. } { rewrite length_recent. lia. }
  exists w'. unfold store_all in *. rewrite foldl_snoc, Hw. cbn [mbind outcome_bind].
  split; [done|]. split; [congruence|].
  rewrite length_recent in Hrep'. case_decide as Hfull.
  - destruct (recent n h) as [|y r] eqn:Hr.
    { apply (f_equal length) in Hr. rewrite length_recent in Hr. simpl in Hr. lia. }
    rewrite (recent_snoc_full n h s y r) by (done || lia). done.
  - rewrite recent_snoc_room by lia. done.
Qed.

(** After any history of acknowledgements with distinct numbers, a window of
    size [n > 0] answers for exactly the [n] most recent ones, each with the sequence
    number and the age it was stored with, and holds no more than [n] entries; the
    entries it dropped are gone. *)
Theorem ack_window_recent n history now :
  (0 < n)%nat → NoDup (st_ack <$> history) →
  ∃ w, store_all n history = Ok w ∧ (length (AckWindow.keys w) ≤ n)%nat
     ∧ (∀ s, s ∈ recent n history →
          AckWindow.get now (st_ack s) w = Some (st_seq s, duration_since now (st_time s)))
     ∧ ∀ a, a ∉ st_ack <$> recent n history → AckWindow.get now a w = None.
Proof.
  intros Hn Hnd. destruct (store_all_represents n history Hn Hnd) as (w & Hw & _ & Hrep).
  exists w. split; [done|]. destruct Hrep as [Hk Hs Ha Hnd']. split_and!.
  - rewrite Hk, length_fmap, length_recent. lia.
  - intros s Hin. unfold AckWindow.get.
    assert (BTreeMap.get (st_ack s) (AckWindow.acks w) = Some (st_seq s, st_time s)) as ->; [|done].
    apply get_Some; [done|]. apply Ha. by exists s.
  - intros a Hnotin. unfold AckWindow.get.
    destruct (BTreeMap.get a (AckWindow.acks w)) as [v|] eqn:E; [|done].
    apply get_Some in E; [|done]. apply Ha in E as (s & Hin & -> & _).
    exfalso. apply Hnotin. by apply list_elem_of_fmap_2.
Qed.

Lemma ack_window_recent_witness :
  ∃ w, store_all 2 [Stored 1 100 5; Stored 2 110 6; Stored 3 120 7] = Ok w
     ∧ AckWindow.get 10 3 w = Some (120, 3) ∧ AckWindow.get 10 1 w = None.
Proof.
  destruct (ack_window_recent 2 [Stored 1 100 5; Stored 2 110 6; Stored 3 120 7] 10)
    as (w & Hw & _ & Hin & Hout).
  - lia.
  - by apply (bool_decide_unpack _); vm_compute.
  - exists w. split; [done|]. split.
    + apply (Hin (Stored 3 120 7)). cbn. by right; left.
    + apply Hout. by apply (bool_decide_unpack _); vm_compute.
Defined.

(** A window of size zero cannot store anything. *)
Lemma ack_window_zero now seq ack : AckWindow.store now seq ack (AckWindow.new 0) = Panic.
Proof. done. Qed.
