(* ===== verification/rcv_buffer.v ===== *)
(** * Receive buffer ([src/queue/rcv_buffer.rs])

    Packets by sequence number, with the next number to hand to the application
    and the next number to acknowledge.  The abstract state is the queue
    [readable b] of acknowledged packets not yet read, in delivery order. *)

From S2P Require Import prelude seq_number btree_map data_packet.

(** [tokio::io::ReadBuf]: the filled part and the room that is left. *)
Module ReadBuf.
Record t := mk { filled : list Z; remaining : nat }.
Definition put_slice (s : list Z) (b : t) : t := mk (filled b ++ s) (remaining b - length s).
End ReadBuf.

Module RcvBuffer.
Record t := mk {
  packets : list (Z * UdtDataPacket.t);
  max_size : Z;
  next_to_read : Z;
  next_to_ack : Z
}.

Definition new (max_size initial_seq_number : Z) : t :=
  mk [] max_size initial_seq_number initial_seq_number.

Definition get_available_buf_size `{Profile} (b : t) : outcome Z :=
  arith_u 32 (max_size b - wrap_u 32 (len (packets b))).

(** [entry(seq_number).or_insert(packet)]: the first packet received is kept. *)
Definition insert (packet : UdtDataPacket.t) (b : t) : t :=
  let seq_number := UdtDataPacketHeader.seq_number (UdtDataPacket.header packet) in
  match BTreeMap.get seq_number (packets b) with
  | Some _ => b
  | None => mk (BTreeMap.insert seq_number packet (packets b))
               (max_size b) (next_to_read b) (next_to_ack b)
  end.

Definition drop_msg (msg : Z) (b : t) : t :=
  mk (BTreeMap.retain (λ _ packet,
        negb (UdtDataPacketHeader.msg_number (UdtDataPacket.header packet) =? msg)) (packets b))
     (max_size b) (next_to_read b) (next_to_ack b).

Definition ack_data `{Profile} (to : Z) (b : t) : outcome t :=
  d ← to ⊖ next_to_ack b;
  Ok (if d >? 0 then mk (packets b) (max_size b) (next_to_read b) to else b).

(** [range(lo..=hi)] panics when [lo > hi]; the other ranges are never inverted. *)
Definition range_incl_checked (lo hi : Z) (m : list (Z * UdtDataPacket.t)) :
    outcome (list (Z * UdtDataPacket.t)) :=
  if hi <? lo then Panic else Ok (BTreeMap.range_incl lo hi m).

Definition nonempty {A} (l : list A) : bool := match l with [] => false | _ => true end.

Definition has_data_to_read (b : t) : outcome bool :=
  let first := next_to_read b in
  let last := next_to_ack b in
  if first <=? last then Ok (nonempty (BTreeMap.range first last (packets b)))
  else
    upper ← range_incl_checked first SEQ_MAX (packets b);
    Ok (nonempty upper || nonempty (BTreeMap.range 0 last (packets b))).

(** The loop of [read_buffer]: stops at the first packet that does not fit;
    returns the buffer, the bytes written, the keys to remove and [next_to_read]. *)
Fixpoint read_loop (entries : list (Z * UdtDataPacket.t)) (buf : ReadBuf.t)
    (written : Z) (to_remove : list Z) (next : Z) : ReadBuf.t * Z * list Z * Z :=
  match entries with
  | [] => (buf, written, to_remove, next)
  | (key, packet) :: entries =>
      let packet_len := length (UdtDataPacket.data packet) in
      if decide (ReadBuf.remaining buf < packet_len)%nat then (buf, written, to_remove, next)
      else read_loop entries (ReadBuf.put_slice (UdtDataPacket.data packet) buf)
             (written + Z.of_nat packet_len) (to_remove ++ [key]) (key ⊕ 1)
  end.

Definition read_buffer (buf : ReadBuf.t) (b : t) : outcome (Z * ReadBuf.t * t) :=
  if next_to_read b =? next_to_ack b then Ok (0, buf, b) else
  entries ←
    (if next_to_read b <=? next_to_ack b then
       Ok (BTreeMap.range (next_to_read b) (next_to_ack b) (packets b))
     else
       upper ← range_incl_checked (next_to_read b) SEQ_MAX (packets b);
       Ok (upper ++ BTreeMap.range 0 (next_to_ack b) (packets b)));
  let '(buf, written, to_remove, next) := read_loop entries buf 0 [] (next_to_read b) in
  Ok (written, buf,
      mk (foldl (λ m k, BTreeMap.remove k m) (packets b) to_remove)
         (max_size b) next (next_to_ack b)).
End RcvBuffer.

(** ** Abstraction and invariant *)

(** The acknowledged packets that have not been read, in the order of delivery. *)
Definition readable (b : RcvBuffer.t) : list (Z * UdtDataPacket.t) :=
  if RcvBuffer.next_to_read b <=? RcvBuffer.next_to_ack b then
    BTreeMap.range (RcvBuffer.next_to_read b) (RcvBuffer.next_to_ack b) (RcvBuffer.packets b)
  else
    BTreeMap.range_incl (RcvBuffer.next_to_read b) SEQ_MAX (RcvBuffer.packets b)
    ++ BTreeMap.range 0 (RcvBuffer.next_to_ack b) (RcvBuffer.packets b).

Record rcv_wf (b : RcvBuffer.t) : Prop := {
  rcv_sorted : BTreeMap.sorted (RcvBuffer.packets b);
  rcv_keys k p : (k, p) ∈ RcvBuffer.packets b →
    valid k ∧ k = UdtDataPacketHeader.seq_number (UdtDataPacket.header p);
  rcv_read_valid : valid (RcvBuffer.next_to_read b);
  rcv_ack_valid : valid (RcvBuffer.next_to_ack b)
}.

(** The payload bytes of a list of packets. *)
Definition payload (l : list (Z * UdtDataPacket.t)) : list Z :=
  concat (map (λ p, UdtDataPacket.data p.2) l).

Lemma payload_app l1 l2 : payload (l1 ++ l2) = payload l1 ++ payload l2.
Proof. unfold payload. by rewrite map_app, concat_app. Qed.

Lemma rcv_wf_new max isn : valid isn → rcv_wf (RcvBuffer.new max isn).
Proof. intros. split; try done; [apply sorted_nil|by intros ? ? ?%not_elem_of_nil]. Qed.

(** ** Which packets are readable *)

Lemma entries_eq b : rcv_wf b →
  (if RcvBuffer.next_to_read b <=? RcvBuffer.next_to_ack b then
     Ok (BTreeMap.range (RcvBuffer.next_to_read b) (RcvBuffer.next_to_ack b) (RcvBuffer.packets b))
   else
     upper ← RcvBuffer.range_incl_checked (RcvBuffer.next_to_read b) SEQ_MAX (RcvBuffer.packets b);
     Ok (upper ++ BTreeMap.range 0 (RcvBuffer.next_to_ack b) (RcvBuffer.packets b)))
  = Ok (readable b).
Proof.
  intros Hb. unfold readable, RcvBuffer.range_incl_checked. destruct (_ <=? _); [done|].
  rewrite (proj2 (Z.ltb_ge _ _)); [done|]. apply (rcv_read_valid b Hb).
Qed.

Lemma nonempty_spec {A} (l : list A) : RcvBuffer.nonempty l = true ↔ l ≠ [].
Proof. by destruct l. Qed.

(** What the loop consumes: the longest prefix of the entries that fits. *)
Lemma read_loop_spec entries buf written to_remove next :
  ∃ taken rest, entries = taken ++ rest
  ∧ RcvBuffer.read_loop entries buf written to_remove next =
      (ReadBuf.mk (ReadBuf.filled buf ++ payload taken)
                  (ReadBuf.remaining buf - length (payload taken)),
       written + len (payload taken), to_remove ++ taken.*1,
       match last taken with Some p => p.1 ⊕ 1 | None => next end)
  ∧ (length (payload taken) ≤ ReadBuf.remaining buf)%nat
  ∧ match rest with
    | [] => True
    | p :: _ => (ReadBuf.remaining buf < length (payload taken) + length (UdtDataPacket.data p.2))%nat
    end.
Proof.
  revert buf written to_remove next.
  induction entries as [|[key packet] entries IH]; intros buf written to_remove next; simpl.
  - exists [], []. simpl. split_and!; [done| |unfold payload; simpl; lia|done].
    destruct buf as [f r]. unfold len; simpl. rewrite !app_nil_r, Z.add_0_r.
    by rewrite Nat.sub_0_r.
  - case_decide as Hfit.
    + exists [], ((key, packet) :: entries). simpl. split_and!; [done| |lia|done].
      destruct buf as [f r]. unfold len; simpl. rewrite !app_nil_r, Z.add_0_r.
      by rewrite Nat.sub_0_r.
    + destruct (IH (ReadBuf.put_slice (UdtDataPacket.data packet) buf)
        (written + Z.of_nat (length (UdtDataPacket.data packet))) (to_remove ++ [key]) (key ⊕ 1))
        as (taken & rest & -> & Hloop & Hle & Hmax).
      exists ((key, packet) :: taken), rest. rewrite Hloop. clear Hloop IH.
      unfold ReadBuf.put_slice in *; simpl in *.
      assert (payload ((key, packet) :: taken) = UdtDataPacket.data packet ++ payload taken)
        as Hpay by done.
      rewrite Hpay, length_app. unfold len in *. rewrite length_app.
      split_and!; [done| |lia|destruct rest; [done|lia]].
      rewrite <- !app_assoc. simpl. f_equal; [do 2 f_equal; [f_equal; lia|lia]|].
      rewrite last_cons. by destruct (last taken).
Qed.

(** Consuming a prefix [taken] of a range [Q]: what is left of the range [Q']. *)
Lemma range_consumed (Q Q' : Z → Prop) (m taken rest l : list (Z * UdtDataPacket.t)) ks k :
  BTreeMap.sorted (taken ++ rest) → BTreeMap.sorted l →
  (∀ p, p ∈ taken ++ rest ↔ p ∈ m ∧ Q p.1) →
  (∀ p, p ∈ l ↔ p ∈ foldl (λ m k, BTreeMap.remove k m) m ks ∧ Q' p.1) →
  (∀ p, p ∈ taken → p.1 ∈ ks) → (∀ j, j ∈ ks → Q j → j ∈ taken.*1) →
  (∀ p, p ∈ taken → p.1 <= k) → (∀ p, p ∈ rest → k < p.1) →
  (∀ j, Q' j → Q j) → (∀ j, Q j → k < j → Q' j) →
  l = rest.
Proof.
  intros Hs Hl Hin Hinl Htk Hks Hle Hlt HQ HQ'.
  apply sorted_ext; [done|by apply sorted_app_r in Hs|]. intros p.
  rewrite Hinl, elem_of_foldl_remove. split.
  - intros [[Hp Hnk] Hq]. assert (p ∈ taken ++ rest) as [Hpt|?]%elem_of_app by (apply Hin; auto);
      [|done]. by apply Htk in Hpt.
  - intros Hr. assert (p ∈ m ∧ Q p.1) as [? Hq] by (apply Hin, elem_of_app; by right).
    split; [split; [done|]|apply HQ'; auto]. intros Hk. apply Hks in Hk; [|done].
    apply list_elem_of_fmap in Hk as (q & E & Hq'). pose proof (Hle _ Hq'). pose proof (Hlt _ Hr). lia.
Qed.

Lemma split_bounds (l1 l2 : list (Z * UdtDataPacket.t)) k p :
  BTreeMap.sorted (l1 ++ l2) → last l1 = Some (k, p) →
  (∀ q, q ∈ l1 → q.1 <= k) ∧ (∀ q, q ∈ l2 → k < q.1).
Proof.
  intros Hs Hl. pose proof Hs as Hs'. unfold BTreeMap.sorted in Hs.
  apply StronglySorted_app_1_l in Hs. apply last_spec in Hl as [Hin Hmax]; [|done].
  split; [done|]. intros q Hq. exact (sorted_app_lt l1 l2 (k, p) q Hs' Hin Hq).
Qed.

(** The state [read_buffer] leaves behind after consuming the entries [taken]. *)
Definition consumed (taken : list (Z * UdtDataPacket.t)) (b : RcvBuffer.t) : RcvBuffer.t :=
  RcvBuffer.mk
    (foldl (λ m k, BTreeMap.remove k m) (RcvBuffer.packets b) (taken.*1))
    (RcvBuffer.max_size b)
    (match last taken with Some p => p.1 ⊕ 1 | None => RcvBuffer.next_to_read b end)
    (RcvBuffer.next_to_ack b).

Section consume.
Variable b : RcvBuffer.t.
Hypothesis Hb : rcv_wf b.
Local Notation r := (RcvBuffer.next_to_read b).
Local Notation a := (RcvBuffer.next_to_ack b).
Local Notation pkts := (RcvBuffer.packets b).

Lemma keys_in (taken : list (Z * UdtDataPacket.t)) p : p ∈ taken → p.1 ∈ taken.*1.
Proof. apply list_elem_of_fmap_2. Qed.

Lemma range_sorted lo hi : BTreeMap.sorted (BTreeMap.range lo hi pkts).
Proof. apply sorted_filter, Hb. Qed.

Lemma range_incl_sorted lo hi : BTreeMap.sorted (BTreeMap.range_incl lo hi pkts).
Proof. apply sorted_filter, Hb. Qed.

Lemma range_sorted' lo hi ks :
  BTreeMap.sorted (BTreeMap.range lo hi (foldl (λ m k, BTreeMap.remove k m) pkts ks)).
Proof. apply sorted_filter, sorted_foldl_remove, Hb. Qed.

Lemma range_incl_sorted' lo hi ks :
  BTreeMap.sorted (BTreeMap.range_incl lo hi (foldl (λ m k, BTreeMap.remove k m) pkts ks)).
Proof. apply sorted_filter, sorted_foldl_remove, Hb. Qed.

Lemma consumed_straight taken rest k p : r <= a →
  readable b = taken ++ rest → last taken = Some (k, p) → readable (consumed taken b) = rest.
Proof.
  intros Hra Hsplit Hl. unfold readable, consumed in *. cbn [RcvBuffer.next_to_read
    RcvBuffer.next_to_ack RcvBuffer.packets].
  rewrite (proj2 (Z.leb_le r a)) in Hsplit by done. rewrite Hl. simpl.
  assert (BTreeMap.sorted (taken ++ rest)) as Hs by (rewrite <- Hsplit; apply range_sorted).
  destruct (split_bounds _ _ _ _ Hs Hl) as [Hle Hlt].
  assert ((k, p) ∈ BTreeMap.range r a pkts) as [_ Hk]%elem_of_range.
  { rewrite Hsplit. apply elem_of_app. left. by apply last_spec in Hl as [? _];
      [|unfold BTreeMap.sorted in Hs; apply StronglySorted_app_1_l in Hs]. }
  pose proof (rcv_ack_valid b Hb) as Ha. pose proof (rcv_read_valid b Hb) as Hr.
  unfold valid in *. simpl in Hk. rewrite seq_add_small by lia.
  rewrite (proj2 (Z.leb_le (k + 1) a)) by lia.
  apply (range_consumed (λ j, r <= j < a) (λ j, k + 1 <= j < a) pkts taken rest _
    (taken.*1) k); [done|apply range_sorted'|intros q; by rewrite <- Hsplit, elem_of_range
    |intros q; apply elem_of_range|apply keys_in|done|done|done|lia|lia].
Qed.

(** The packets read all come from the upper part of a wrapped window. *)
Lemma consumed_upper taken rest k p : a < r →
  BTreeMap.range_incl r SEQ_MAX pkts = taken ++ rest → last taken = Some (k, p) →
  readable (consumed taken b) = rest ++ BTreeMap.range 0 a pkts.
Proof.
  intros Hra Hsplit Hl. unfold readable, consumed. cbn [RcvBuffer.next_to_read
    RcvBuffer.next_to_ack RcvBuffer.packets]. rewrite Hl. simpl.
  assert (BTreeMap.sorted (taken ++ rest)) as Hs by (rewrite <- Hsplit; apply range_incl_sorted).
  destruct (split_bounds _ _ _ _ Hs Hl) as [Hle Hlt].
  assert (∀ q, q ∈ taken ++ rest → r <= q.1 <= SEQ_MAX) as Hrange
    by (intros q; rewrite <- Hsplit; by intros [_ ?]%elem_of_range_incl).
  assert (r <= k <= SEQ_MAX) as Hk.
  { apply (Hrange (k, p)), elem_of_app. left. by apply last_spec in Hl as [? _];
      [|unfold BTreeMap.sorted in Hs; apply StronglySorted_app_1_l in Hs]. }
  pose proof (rcv_ack_valid b Hb) as Ha. unfold valid in *.
  assert (BTreeMap.range 0 a (foldl (λ m k, BTreeMap.remove k m) pkts taken.*1) = BTreeMap.range 0 a pkts)
    as Hlow.
  { apply (range_consumed (λ j, 0 <= j < a) (λ j, 0 <= j < a) pkts [] _ _ (taken.*1) (-1)).
    - apply range_sorted.
    - apply range_sorted'.
    - intros q; apply elem_of_range.
    - intros q; apply elem_of_range.
    - by intros q ?%not_elem_of_nil.
    - intros j (q & -> & Hq)%list_elem_of_fmap Hj.
      assert (r <= q.1) by (apply Hrange, elem_of_app; by left). lia.
    - by intros q ?%not_elem_of_nil.
    - intros q [_ ?]%elem_of_range. lia.
    - done.
    - lia. }
  destruct (decide (k = SEQ_MAX)) as [->|Hne].
  - change (SEQ_MAX ⊕ 1) with 0. rewrite (proj2 (Z.leb_le 0 a)) by lia. rewrite Hlow.
    destruct rest as [|q rest]; [done|]. assert (SEQ_MAX < q.1) by (apply Hlt; left).
    assert (q.1 <= SEQ_MAX) by (apply Hrange, elem_of_app; right; left). lia.
  - rewrite seq_add_small by lia. rewrite (proj2 (Z.leb_gt (k + 1) a)) by lia.
    rewrite Hlow. f_equal.
    apply (range_consumed (λ j, r <= j <= SEQ_MAX) (λ j, k + 1 <= j <= SEQ_MAX) pkts taken rest _
      (taken.*1) k); [done|apply range_incl_sorted'|intros q; by rewrite <- Hsplit, elem_of_range_incl
      |intros q; apply elem_of_range_incl|apply keys_in|done|done|done|lia|lia].
Qed.

(** The packets read include some of the lower part. *)
Lemma consumed_lower taken rest k p : a < r →
  BTreeMap.range 0 a pkts = taken ++ rest → last taken = Some (k, p) →
  readable (consumed (BTreeMap.range_incl r SEQ_MAX pkts ++ taken) b) = rest.
Proof.
  intros Hra Hsplit Hl. unfold readable, consumed. cbn [RcvBuffer.next_to_read
    RcvBuffer.next_to_ack RcvBuffer.packets]. rewrite last_app, Hl. simpl.
  assert (BTreeMap.sorted (taken ++ rest)) as Hs by (rewrite <- Hsplit; apply range_sorted).
  destruct (split_bounds _ _ _ _ Hs Hl) as [Hle Hlt].
  assert ((k, p) ∈ BTreeMap.range 0 a pkts) as [_ Hk]%elem_of_range.
  { rewrite Hsplit. apply elem_of_app. left. by apply last_spec in Hl as [? _];
      [|unfold BTreeMap.sorted in Hs; apply StronglySorted_app_1_l in Hs]. }
  pose proof (rcv_ack_valid b Hb) as Ha. unfold valid in *. simpl in Hk.
  rewrite seq_add_small by lia. rewrite (proj2 (Z.leb_le (k + 1) a)) by lia.
  apply (range_consumed (λ j, 0 <= j < a) (λ j, k + 1 <= j < a) pkts taken rest _
    ((BTreeMap.range_incl r SEQ_MAX pkts ++ taken).*1) k);
    [done|apply range_sorted'|intros q; by rewrite <- Hsplit, elem_of_range
    |intros q; apply elem_of_range| | |done|done|lia|lia].
  - intros q Hq. rewrite fmap_app. apply elem_of_app. right. by apply keys_in.
  - intros j Hj Hlow. rewrite fmap_app in Hj. apply elem_of_app in Hj as [Hj|?]; [|done].
    apply list_elem_of_fmap in Hj as (q & -> & [_ Hq]%elem_of_range_incl). lia.
Qed.

Lemma consumed_readable taken rest :
  readable b = taken ++ rest → readable (consumed taken b) = rest.
Proof.
  intros Hsplit. destruct (last taken) as [[k p]|] eqn:Hl; cycle 1.
  { apply last_None in Hl as ->. simpl in Hsplit. rewrite <- Hsplit. by destruct b. }
  destruct (decide (r <= a)) as [Hra|Hra]; [by eapply consumed_straight|].
  unfold readable in Hsplit.
  rewrite (proj2 (Z.leb_gt r a)) in Hsplit by lia.
  apply app_eq_inv in Hsplit as [(l & Hup & ->)|(l & -> & Hlow)].
  - eapply consumed_upper; [lia|done|done].
  - destruct (last l) as [[k' p']|] eqn:Hl'.
    + eapply consumed_lower; [lia|done|done].
    + apply last_None in Hl' as ->. rewrite app_nil_r in *. simpl in Hlow. rewrite <- Hlow.
      rewrite (consumed_upper (BTreeMap.range_incl r SEQ_MAX pkts) [] k p);
        [done|lia|by rewrite app_nil_r|done].
Qed.

Lemma consumed_wf taken rest : readable b = taken ++ rest → rcv_wf (consumed taken b).
Proof.
  intros Hsplit. split; simpl.
  - apply sorted_foldl_remove, Hb.
  - intros k p [Hp _]%elem_of_foldl_remove. by apply (rcv_keys b Hb).
  - destruct (last taken); [apply seq_add_valid|apply Hb].
  - apply Hb.
Qed.
End consume.

(** ** Helper specifications *)

Lemma read_buffer_value buf b : rcv_wf b →
  ∃ taken rest, readable b = taken ++ rest
  ∧ RcvBuffer.read_buffer buf b = Ok (len (payload taken),
      ReadBuf.mk (ReadBuf.filled buf ++ payload taken)
                 (ReadBuf.remaining buf - length (payload taken)), consumed taken b)
  ∧ (length (payload taken) ≤ ReadBuf.remaining buf)%nat
  ∧ match rest with
    | [] => True
    | p :: _ => (ReadBuf.remaining buf < length (payload taken) + length (UdtDataPacket.data p.2))%nat
    end.
Proof.
  intros Hb. unfold RcvBuffer.read_buffer.
  destruct (Z.eqb_spec (RcvBuffer.next_to_read b) (RcvBuffer.next_to_ack b)) as [E|E].
  - assert (readable b = []) as Hr.
    { unfold readable. rewrite (proj2 (Z.leb_le _ _)) by lia.
      apply elem_of_nil_inv. intros p [_ ?]%elem_of_range. lia. }
    exists [], []. split; [done|]. unfold len, consumed; simpl.
    rewrite app_nil_r, Nat.sub_0_r. destruct buf, b; simpl. split; [done|lia].
  - rewrite entries_eq by done. cbn [mbind outcome_bind].
    destruct (read_loop_spec (readable b) buf 0 [] (RcvBuffer.next_to_read b))
      as (taken & rest & Hsplit & -> & Hfit & Hmax).
    exists taken, rest. rewrite Z.add_0_l. by split_and!.
Qed.

Lemma elem_of_rcv_insert packet b q : rcv_wf b →
  let k := UdtDataPacketHeader.seq_number (UdtDataPacket.header packet) in
  q ∈ RcvBuffer.packets (RcvBuffer.insert packet b) ↔
    q ∈ RcvBuffer.packets b ∨ (q = (k, packet) ∧ ∀ p, (k, p) ∉ RcvBuffer.packets b).
Proof.
  intros Hb k. unfold RcvBuffer.insert. fold k.
  destruct (BTreeMap.get k (RcvBuffer.packets b)) as [p|] eqn:Hget; simpl.
  - apply get_Some in Hget; [|apply Hb]. naive_solver.
  - assert (∀ p, (k, p) ∉ RcvBuffer.packets b) as Hfresh.
    { intros p Hp. apply get_Some in Hp; [congruence|apply Hb]. }
    rewrite elem_of_insert. split; [naive_solver|].
    intros [Hq|[-> _]]; [|by left]. right. split; [done|]. intros E.
    destruct q as [j p]. simpl in E. subst j. by eapply Hfresh.
Qed.

Lemma rcv_wf_insert packet b :
  rcv_wf b → valid (UdtDataPacketHeader.seq_number (UdtDataPacket.header packet)) →
  rcv_wf (RcvBuffer.insert packet b).
Proof.
  intros Hb Hk. split.
  - unfold RcvBuffer.insert. case_match; simpl; [apply Hb|]. apply sorted_insert, Hb.
  - intros k p [Hp|[[= -> ->] _]]%elem_of_rcv_insert; [by apply (rcv_keys b Hb)|done|done].
  - unfold RcvBuffer.insert. case_match; apply Hb.
  - unfold RcvBuffer.insert. case_match; apply Hb.
Qed.

Lemma rcv_wf_drop_msg msg b : rcv_wf b → rcv_wf (RcvBuffer.drop_msg msg b).
Proof.
  intros Hb. split; simpl; try apply Hb.
  - apply sorted_retain, Hb.
  - intros k p [_ Hp]%list_elem_of_filter. by apply (rcv_keys b Hb).
Qed.

Lemma rcv_wf_ack_data `{Profile} to b b' :
  rcv_wf b → valid to → RcvBuffer.ack_data to b = Ok b' → rcv_wf b'.
Proof.
  intros Hb Hto. unfold RcvBuffer.ack_data. intros (d & _ & E)%bind_is_Ok.
  apply (inj Ok) in E as <-. case_match; [|done]. split; simpl; (apply Hb || done).
Qed.

Lemma has_data_value b : rcv_wf b →
  RcvBuffer.has_data_to_read b = Ok (RcvBuffer.nonempty (readable b)).
Proof.
  intros Hb. unfold RcvBuffer.has_data_to_read, readable. case_match; [done|].
  unfold RcvBuffer.range_incl_checked. rewrite (proj2 (Z.ltb_ge _ _)) by apply (rcv_read_valid b Hb).
  cbn [mbind outcome_bind]. f_equal. by destruct (BTreeMap.range_incl _ _ _).
Qed.

Create HintDb rcv discriminated.
#[export] Hint Resolve rcv_wf_new rcv_wf_insert rcv_wf_drop_msg rcv_wf_ack_data consumed_wf : rcv.

(** Splitting a range at an intermediate key. *)
Lemma range_split {V} lo mid hi (m : list (Z * V)) : BTreeMap.sorted m → lo <= mid <= hi →
  BTreeMap.range lo hi m = BTreeMap.range lo mid m ++ BTreeMap.range mid hi m.
Proof.
  intros Hm Hmid. apply sorted_ext.
  - by apply sorted_filter.
  - unfold BTreeMap.sorted. apply StronglySorted_app_2.
    + intros p q [_ ?]%elem_of_range [_ ?]%elem_of_range. unfold BTreeMap.key_lt. lia.
    + by apply sorted_filter.
    + by apply sorted_filter.
  - intros p. rewrite elem_of_app, !elem_of_range. split; [|naive_solver lia].
    intros [? ?]. destruct (decide (p.1 < mid)); [left|right]; (split; [done|lia]).
Qed.

(** Acknowledging up to [to], without wrapping. *)
Lemma ack_data_to `{Profile} to b : rcv_wf b →
  RcvBuffer.next_to_ack b <= to <= SEQ_MAX → to - RcvBuffer.next_to_ack b < 2 ^ 30 →
  ∃ b', RcvBuffer.ack_data to b = Ok b' ∧ rcv_wf b' ∧ RcvBuffer.next_to_ack b' = to
  ∧ RcvBuffer.packets b' = RcvBuffer.packets b
  ∧ (RcvBuffer.next_to_read b <= RcvBuffer.next_to_ack b →
     readable b' = readable b ++ BTreeMap.range (RcvBuffer.next_to_ack b) to (RcvBuffer.packets b)).
Proof.
  intros Hb Hto Hd. pose proof (rcv_ack_valid b Hb) as Ha. unfold valid in Ha.
  unfold RcvBuffer.ack_data. rewrite seq_sub_near by (unfold valid; lia). cbn [mbind outcome_bind].
  destruct (Z.gtb_spec (to - RcvBuffer.next_to_ack b) 0); eexists; (split; [done|]).
  - split; [split; simpl; try apply Hb; unfold valid; lia|]. split; [done|]. split; [done|].
    intros Hle. unfold readable; simpl. rewrite !(proj2 (Z.leb_le _ _)) by lia.
    apply range_split; [apply Hb|lia].
  - assert (RcvBuffer.next_to_ack b = to) as <- by lia. split; [done|]. split; [done|]. split; [done|].
    intros _. assert (BTreeMap.range (RcvBuffer.next_to_ack b) (RcvBuffer.next_to_ack b)
      (RcvBuffer.packets b) = []) as ->; [|by rewrite app_nil_r].
    apply elem_of_nil_inv. intros p [_ ?]%elem_of_range. lia.
Qed.

(** ** Properties *)

(** C28. [read_buffer] delivers the longest prefix of the acknowledged queue that
    fits in the caller's buffer: the bytes appended are the payloads of those
    packets in order, the count returned is their length, the packets are gone
    from the queue, the rest of the queue stays, and the next packet, if any, is
    larger than the room left.  It never panics on a well-formed buffer. *)
Theorem read_buffer_delivers buf b :
  rcv_wf b →
  ∃ taken rest b', readable b = taken ++ rest
  ∧ RcvBuffer.read_buffer buf b = Ok (len (payload taken),
      ReadBuf.mk (ReadBuf.filled buf ++ payload taken)
                 (ReadBuf.remaining buf - length (payload taken)), b')
  ∧ readable b' = rest ∧ rcv_wf b' ∧ RcvBuffer.next_to_ack b' = RcvBuffer.next_to_ack b
  ∧ (length (payload taken) ≤ ReadBuf.remaining buf)%nat
  ∧ match rest with
    | [] => True
    | p :: _ => (ReadBuf.remaining buf < length (payload taken) + length (UdtDataPacket.data p.2))%nat
    end.
Proof.
  intros Hb. destruct (read_buffer_value buf b Hb) as (taken & rest & Hsplit & E & Hfit & Hmax).
  exists taken, rest, (consumed taken b).
  split_and!; [done|done|by apply consumed_readable|by eapply consumed_wf|done..].
Qed.

(** [has_data_to_read] says whether the acknowledged queue is empty; and when the
    packet at its head does not fit in the caller's buffer, [read_buffer] returns
    0 bytes and changes nothing although there is data to read. *)
Theorem read_buffer_zero buf b p rest :
  rcv_wf b → readable b = p :: rest →
  (ReadBuf.remaining buf < length (UdtDataPacket.data p.2))%nat →
  RcvBuffer.has_data_to_read b = Ok true ∧ RcvBuffer.read_buffer buf b = Ok (0, buf, b).
Proof.
  intros Hb Hp Hsmall. split.
  - by rewrite has_data_value, Hp.
  - destruct (read_buffer_value buf b Hb) as ([|q taken] & r & Hsplit & E & Hfit & _).
    + rewrite E. unfold len, consumed; simpl. rewrite app_nil_r, Nat.sub_0_r. by destruct buf, b.
    + rewrite Hp in Hsplit. injection Hsplit as <- ->. unfold payload in Hfit. simpl in Hfit.
      rewrite length_app in Hfit. lia.
Qed.

(** Acknowledging [r < 2^30] numbers further appends exactly the packets held in
    that interval to the queue of readable packets, as long as neither the window
    nor the interval wraps; an acknowledgement that crosses the wrap-around point
    is ignored, since its distance is computed as negative. *)
Theorem rcv_ack_data_extends `{Profile} r b :
  rcv_wf b → 0 < r < 2 ^ 30 →
  let a := RcvBuffer.next_to_ack b in
  if a + r <=? SEQ_MAX then
    ∃ b', RcvBuffer.ack_data (a ⊕ r) b = Ok b' ∧ RcvBuffer.next_to_ack b' = a + r
    ∧ rcv_wf b'
    ∧ (RcvBuffer.next_to_read b <= a →
       readable b' = readable b ++ BTreeMap.range a (a + r) (RcvBuffer.packets b))
  else RcvBuffer.ack_data (a ⊕ r) b = Ok b.
Proof.
  intros Hb Hr a. pose proof (rcv_ack_valid b Hb) as Ha. pose proof (rcv_read_valid b Hb) as Hrd.
  fold a in Ha. destruct (Z.leb_spec (a + r) SEQ_MAX).
  - unfold valid in *. rewrite seq_add_small by lia.
    destruct (ack_data_to (a + r) b Hb) as (b' & ? & ? & ? & _ & ?); fold a; [lia..|]. by exists b'.
  - unfold RcvBuffer.ack_data. fold a. rewrite seq_advance_sub by (done || lia). cbn [mbind outcome_bind].
    rewrite (proj2 (Z.leb_gt _ _)) by lia. by rewrite Z.gtb_ltb, (proj2 (Z.ltb_ge _ _)) by lia.
Qed.

(** [insert] keeps the first packet received for a sequence number and does not
    look at [max_size]: a buffer that is full accepts one packet more, after which
    [get_available_buf_size] panics, or reports [2^32 - 1] free slots when
    overflow checks are off. *)
Theorem rcv_insert_overflows `{Profile} packet b :
  rcv_wf b →
  len (RcvBuffer.packets b) = RcvBuffer.max_size b → 0 <= RcvBuffer.max_size b < U32_MAX →
  BTreeMap.get (UdtDataPacketHeader.seq_number (UdtDataPacket.header packet))
               (RcvBuffer.packets b) = None →
  RcvBuffer.get_available_buf_size b = Ok 0
  ∧ RcvBuffer.get_available_buf_size (RcvBuffer.insert packet b)
    = if overflow_checks then Panic else Ok U32_MAX.
Proof.
  intros Hb Hfull Hmax Hnew. unfold RcvBuffer.get_available_buf_size. split.
  - rewrite wrap_u_small by lia. rewrite arith_u_ok by lia. f_equal; lia.
  - assert (len (RcvBuffer.packets (RcvBuffer.insert packet b)) = RcvBuffer.max_size b + 1) as Hlen.
    { unfold RcvBuffer.insert. rewrite Hnew. simpl. rewrite <- Hfull.
      apply len_insert_fresh; [apply Hb|done]. }
    rewrite Hlen, wrap_u_small by lia.
    assert (RcvBuffer.max_size (RcvBuffer.insert packet b) = RcvBuffer.max_size b) as ->
      by (unfold RcvBuffer.insert; by case_match).
    rewrite arith_u_bad by lia. destruct overflow_checks; [done|]. f_equal.
    unfold wrap_u. rewrite <- (Z_mod_plus_full _ 1), Z.mod_small by lia. lia.
Qed.

(** ** Witnesses *)

Definition sample_packet (k : Z) (data : list Z) : UdtDataPacket.t :=
  UdtDataPacket.mk (UdtDataPacketHeader.mk k Only true 0 0 0) data.

(** Three packets around the wrap-around point, the first two acknowledged. *)
Definition sample_rcv : RcvBuffer.t :=
  RcvBuffer.mk [(0, sample_packet 0 [3; 4]); (1, sample_packet 1 [5]);
                (SEQ_MAX, sample_packet SEQ_MAX [1; 2])] 3 SEQ_MAX 1.

Lemma sample_rcv_wf : rcv_wf sample_rcv.
Proof.
  split; [|intros k p Hp|done..].
  - unfold sample_rcv, BTreeMap.sorted; simpl. repeat constructor; unfold BTreeMap.key_lt, SEQ_MAX; simpl; lia.
  - unfold sample_rcv in Hp; simpl in Hp.
    repeat (apply elem_of_cons in Hp as [[= -> ->]|Hp]; [done|]). by apply not_elem_of_nil in Hp.
Defined.

Lemma read_buffer_delivers_witness :
  ∃ taken rest b', readable sample_rcv = taken ++ rest
  ∧ RcvBuffer.read_buffer (ReadBuf.mk [9] 3) sample_rcv = Ok (len (payload taken),
      ReadBuf.mk ([9] ++ payload taken) (3 - length (payload taken)), b')
  ∧ readable b' = rest ∧ rcv_wf b' ∧ RcvBuffer.next_to_ack b' = RcvBuffer.next_to_ack sample_rcv
  ∧ (length (payload taken) ≤ 3)%nat
  ∧ match rest with
    | [] => True
    | p :: _ => (3 < length (payload taken) + length (UdtDataPacket.data p.2))%nat
    end.
Proof. apply (read_buffer_delivers (ReadBuf.mk [9] 3) sample_rcv), sample_rcv_wf. Defined.

Example read_buffer_wraps :
  RcvBuffer.read_buffer (ReadBuf.mk [9] 5) sample_rcv
  = Ok (4, ReadBuf.mk [9; 1; 2; 3; 4] 1, RcvBuffer.mk [(1, sample_packet 1 [5])] 3 1 1).
Proof. by vm_compute. Qed.

Lemma read_buffer_zero_witness :
  RcvBuffer.has_data_to_read sample_rcv = Ok true
  ∧ RcvBuffer.read_buffer (ReadBuf.mk [] 1) sample_rcv = Ok (0, ReadBuf.mk [] 1, sample_rcv).
Proof.
  apply (read_buffer_zero (ReadBuf.mk [] 1) sample_rcv (SEQ_MAX, sample_packet SEQ_MAX [1; 2])
           [(0, sample_packet 0 [3; 4])]); [apply sample_rcv_wf|by vm_compute|simpl; lia].
Defined.

Lemma rcv_ack_data_extends_witness :
  let b := RcvBuffer.new 8 (SEQ_MAX - 1) in
  @RcvBuffer.ack_data true (RcvBuffer.next_to_ack b ⊕ 5) b = Ok b.
Proof.
  apply (@rcv_ack_data_extends true 5 (RcvBuffer.new 8 (SEQ_MAX - 1)));
    [by apply rcv_wf_new|lia].
Defined.

Lemma rcv_insert_overflows_witness :
  @RcvBuffer.get_available_buf_size true sample_rcv = Ok 0
  ∧ @RcvBuffer.get_available_buf_size true (RcvBuffer.insert (sample_packet 2 [6]) sample_rcv) = Panic.
Proof.
  apply (@rcv_insert_overflows true (sample_packet 2 [6]) sample_rcv);
    [apply sample_rcv_wf|done|simpl; lia|by vm_compute].
Defined.
