(* ===== verification/snd_buffer.v ===== *)
(** * Send buffer ([src/queue/snd_buffer.rs])

    A queue of blocks, each the payload of one packet, with the position of the
    first block that has never been sent.  The abstract state is the pair of
    queues [in_flight b] (sent, not acknowledged) and [unsent b]. *)

From S2P Require Import prelude seq_number time data_packet.

Definition FETCH_BATCH_SIZE : nat := 100.
Definition DEFAULT_PAYLOAD_SIZE : nat := 1500.

Module SndBufferBlock.
Record t := mk {
  data : list Z;
  msg_number : Z;
  origin_time : Z;
  ttl : option Z;
  in_order : bool;
  position : PacketPosition
}.

Definition has_expired (now : Z) (b : t) : bool :=
  match ttl b with
  | Some ttl => duration_since now (origin_time b) >? from_millis ttl
  | None => false
  end.

Definition as_data_packet (now seq_number dest_socket_id start_time : Z) (b : t) : UdtDataPacket.t :=
  UdtDataPacket.mk
    (UdtDataPacketHeader.mk seq_number (position b) (in_order b) (msg_number b)
       (Z.land (as_micros (duration_since now start_time)) U32_MAX) dest_socket_id)
    (data b).
End SndBufferBlock.

Module SndBuffer.
Record t := mk {
  max_size : Z;
  buffer : list SndBufferBlock.t;
  payload_size : nat;
  next_msg_number : Z;
  current_position : Z
}.

Definition new (max_size : Z) : t := mk max_size [] DEFAULT_PAYLOAD_SIZE 0 0.

Definition block_position (idx chunks_len : nat) : PacketPosition :=
  if (idx =? 0)%nat && (chunks_len =? 1)%nat then Only
  else if (idx =? 0)%nat then First
  else if (idx =? chunks_len - 1)%nat then Last
  else Middle.

(** An error is returned before any change; [chunks(0)] panics. *)
Definition add_message (now : Z) (data : list Z) (ttl : option Z) (in_order : bool) (b : t) :
    outcome t :=
  if (payload_size b =? 0)%nat then Panic else
  let chunks := chunks (payload_size b) data in
  if len (buffer b) + len chunks >? max_size b then Err OutOfMemory else
  Ok (mk (max_size b)
         (buffer b ++ imap (λ idx chunk,
            SndBufferBlock.mk chunk (next_msg_number b) now ttl in_order
              (block_position idx (length chunks))) chunks)
         (payload_size b)
         (GenericSeqNumber.add MSG_MAX (next_msg_number b) 1)
         (current_position b)).

(** [for _ in 0..offset]. *)
Fixpoint pop_acked `{Profile} (n : nat) (b : t) : outcome t :=
  match n with
  | O => Ok b
  | S n =>
      match buffer b with
      | [] => pop_acked n b
      | _ :: rest =>
          position ← arith_u 64 (current_position b - 1);
          pop_acked n (mk (max_size b) rest (payload_size b) (next_msg_number b) position)
      end
  end.

Definition ack_data `{Profile} (offset : Z) (b : t) : outcome t := pop_acked (Z.to_nat offset) b.

(** The blocks after the expired one that belong to the same message. *)
Fixpoint same_message (msg : Z) (blocks : list SndBufferBlock.t) : nat :=
  match blocks with
  | block :: blocks =>
      if SndBufferBlock.msg_number block =? msg then S (same_message msg blocks) else O
  | [] => O
  end.

(** The packet, or the message number and the number of blocks to drop; the clock is
    read for the expiry test and again for the timestamp. *)
Definition read_data (expiry now : Z) (offset : nat) (seq_number dest_socket_id start_time : Z) (b : t) :
    (UdtDataPacket.t + (Z * nat)) * t :=
  match buffer b !! offset with
  | Some block =>
      if SndBufferBlock.has_expired expiry block then
        let msg_len := S (same_message (SndBufferBlock.msg_number block) (drop (S offset) (buffer b))) in
        let pos := Z.of_nat (offset + msg_len) in
        let b := if (Z.of_nat offset <=? current_position b) && (current_position b <? pos)
                 then mk (max_size b) (buffer b) (payload_size b) (next_msg_number b) pos
                 else b in
        (inr (SndBufferBlock.msg_number block, msg_len), b)
      else (inl (SndBufferBlock.as_data_packet now seq_number dest_socket_id start_time block), b)
  | None => (inr (0, 0%nat), b)
  end.

(** [clock i] is the reading of the clock for the [i]-th packet of the batch;
    [VecDeque::range] panics when the position is past the end. *)
Definition fetch_batch `{Profile} (clock : nat → Z) (seq_number dest_socket_id start_time : Z) (b : t) :
    outcome (list UdtDataPacket.t * t) :=
  if current_position b >? len (buffer b) then Panic else
  let blocks := imap (λ i block,
      SndBufferBlock.as_data_packet (clock i) (seq_number ⊕ Z.of_nat i) dest_socket_id start_time block)
    (take FETCH_BATCH_SIZE (drop (Z.to_nat (current_position b)) (buffer b))) in
  position ← arith_u 64 (current_position b + len blocks);
  Ok (blocks, mk (max_size b) (buffer b) (payload_size b) (next_msg_number b) position).

Definition is_empty (b : t) : bool := match buffer b with [] => true | _ => false end.

Definition set_payload_size (payload_size : nat) (b : t) : t :=
  mk (max_size b) (buffer b) payload_size (next_msg_number b) (current_position b).
End SndBuffer.

(** ** Abstraction and invariant *)

Definition in_flight (b : SndBuffer.t) : list SndBufferBlock.t :=
  take (Z.to_nat (SndBuffer.current_position b)) (SndBuffer.buffer b).
Definition unsent (b : SndBuffer.t) : list SndBufferBlock.t :=
  drop (Z.to_nat (SndBuffer.current_position b)) (SndBuffer.buffer b).

Record snd_wf (b : SndBuffer.t) : Prop := {
  snd_position : 0 <= SndBuffer.current_position b <= len (SndBuffer.buffer b);
  snd_size : len (SndBuffer.buffer b) <= SndBuffer.max_size b;
  snd_max : 0 <= SndBuffer.max_size b <= U32_MAX
}.

(** The payload bytes of a list of blocks. *)
Definition block_bytes (l : list SndBufferBlock.t) : list Z := concat (map SndBufferBlock.data l).

(** The positions of the [n] blocks of one message. *)
Definition message_positions (n : nat) : list PacketPosition :=
  match n with
  | O => []
  | S O => [Only]
  | S (S k) => First :: replicate k Middle ++ [Last]
  end.

Lemma in_flight_unsent b : in_flight b ++ unsent b = SndBuffer.buffer b.
Proof. apply take_drop. Qed.

Lemma length_in_flight b : snd_wf b → len (in_flight b) = SndBuffer.current_position b.
Proof. intros [Hp _ _]. unfold in_flight, len in *. rewrite length_take. lia. Qed.

Lemma snd_wf_new max : 0 <= max <= U32_MAX → snd_wf (SndBuffer.new max).
Proof. intros. split; unfold len; simpl; lia. Qed.

(** ** Chunks and positions *)

Lemma chunks_fuel_bounds {A} fuel n (l : list A) :
  (0 < n)%nat → Forall (λ c, 0 < length c ≤ n)%nat (chunks_fuel fuel n l).
Proof.
  intros Hn. revert l. induction fuel as [|fuel IH]; intros [|x l]; simpl; try constructor; [|done].
  rewrite length_take. simpl. lia.
Qed.

(** The number of chunks is the length divided by the size, rounded up. *)
Lemma chunks_fuel_length {A} fuel n (l : list A) : (0 < n)%nat → (length l ≤ fuel)%nat →
  len (chunks_fuel fuel n l) = (len l + Z.of_nat n - 1) / Z.of_nat n.
Proof.
  intros Hn. revert l. induction fuel as [|fuel IH]; intros [|x l] Hl; simpl in Hl.
  - unfold len; simpl. symmetry. apply Z.div_small. lia.
  - lia.
  - unfold len; simpl. symmetry. apply Z.div_small. lia.
  - rewrite chunks_fuel_cons by done. unfold len in *. cbn [length].
    rewrite Nat2Z.inj_succ, IH by (rewrite length_drop; simpl; lia).
    rewrite length_drop. cbn [length].
    destruct (decide (S (length l) ≤ n)%nat).
    + replace (S (length l) - n)%nat with 0%nat by lia.
      rewrite (Z.div_small (Z.of_nat 0 + _ - 1)) by lia.
      apply (Z.div_unique _ _ _ (Z.of_nat (length l))); lia.
    + replace (Z.of_nat (S (length l)) + Z.of_nat n - 1)
        with (Z.of_nat (S (length l) - n) + Z.of_nat n - 1 + 1 * Z.of_nat n) by lia.
      rewrite Z.div_add by lia. lia.
Qed.

Lemma block_positions_imap {A} (l : list A) :
  imap (λ idx _, SndBuffer.block_position idx (length l)) l = message_positions (length l).
Proof.
  apply list_eq. intros i. rewrite list_lookup_imap.
  destruct (decide (i < length l)%nat) as [Hi|Hi]; cycle 1.
  { rewrite (lookup_ge_None_2 l) by lia. symmetry. apply lookup_ge_None_2.
    destruct (length l) as [|[|k]]; simpl; [lia..|]. rewrite length_app, length_replicate. simpl. lia. }
  destruct (lookup_lt_is_Some_2 l i Hi) as [x ->]. simpl.
  unfold SndBuffer.block_position. destruct (length l) as [|[|k]]; [lia| |].
  - replace i with 0%nat by lia. done.
  - destruct i as [|i]; [done|]. simpl. destruct (Nat.eqb_spec i k) as [->|Hne].
    + rewrite lookup_app_r by (rewrite length_replicate; lia).
      by rewrite length_replicate, Nat.sub_diag.
    + rewrite lookup_app_l by (rewrite length_replicate; lia).
      by rewrite lookup_replicate_2 by lia.
Qed.

Lemma map_imap {A B C} (f : B → C) (g : nat → A → B) l : map f (imap g l) = imap (λ i x, f (g i x)) l.
Proof. revert g. induction l as [|x l IH]; intros g; [done|]. simpl. f_equal. apply IH. Qed.

Lemma imap_map {A B} (f : A → B) l : imap (λ _ x, f x) l = map f l.
Proof. induction l as [|x l IH]; [done|]. simpl. f_equal. apply IH. Qed.

(** ** Helper specifications *)

(** The blocks of a message: its bytes in order, cut into full payloads. *)
Definition message_blocks (size : nat) (msg now : Z) (ttl : option Z) (in_order : bool)
    (data : list Z) : list SndBufferBlock.t :=
  let chunks := chunks size data in
  imap (λ idx chunk, SndBufferBlock.mk chunk msg now ttl in_order
          (SndBuffer.block_position idx (length chunks))) chunks.

Lemma message_blocks_bytes size msg now ttl io data :
  (0 < size)%nat → block_bytes (message_blocks size msg now ttl io data) = data.
Proof.
  intros. unfold block_bytes, message_blocks. rewrite map_imap. simpl.
  rewrite (imap_map (λ x, x)), map_id. by apply chunks_concat.
Qed.

Lemma message_blocks_len size msg now ttl io data : (0 < size)%nat →
  len (message_blocks size msg now ttl io data) = (len data + Z.of_nat size - 1) / Z.of_nat size.
Proof.
  intros. unfold len, message_blocks. rewrite length_imap. by apply chunks_fuel_length.
Qed.

Lemma message_blocks_positions size msg now ttl io data :
  map SndBufferBlock.position (message_blocks size msg now ttl io data)
  = message_positions (length (message_blocks size msg now ttl io data)).
Proof.
  unfold message_blocks. rewrite map_imap, length_imap. simpl. apply block_positions_imap.
Qed.

Lemma message_blocks_each size msg now ttl io data b : (0 < size)%nat →
  b ∈ message_blocks size msg now ttl io data →
  SndBufferBlock.msg_number b = msg ∧ SndBufferBlock.ttl b = ttl
  ∧ SndBufferBlock.in_order b = io ∧ (0 < length (SndBufferBlock.data b) ≤ size)%nat.
Proof.
  intros Hs. unfold message_blocks. intros (i & Hi)%list_elem_of_lookup.
  rewrite list_lookup_imap in Hi. apply fmap_Some in Hi as (c & Hc & ->). simpl.
  split_and!; [done..| |]; pose proof (chunks_fuel_bounds (length data) size data Hs) as Hall;
    rewrite Forall_lookup in Hall; apply (Hall i c Hc).
Qed.

Lemma add_message_value now data ttl io b : (0 < SndBuffer.payload_size b)%nat →
  SndBuffer.add_message now data ttl io b =
    let blocks := message_blocks (SndBuffer.payload_size b) (SndBuffer.next_msg_number b) now ttl io data in
    if len (SndBuffer.buffer b) + len blocks >? SndBuffer.max_size b then Err OutOfMemory
    else Ok (SndBuffer.mk (SndBuffer.max_size b) (SndBuffer.buffer b ++ blocks)
               (SndBuffer.payload_size b)
               (GenericSeqNumber.add MSG_MAX (SndBuffer.next_msg_number b) 1)
               (SndBuffer.current_position b)).
Proof.
  intros Hs. unfold SndBuffer.add_message. rewrite (proj2 (Nat.eqb_neq _ _)) by lia.
  cbv zeta. unfold message_blocks, len. by rewrite length_imap.
Qed.

Section operations.
Context `{Profile}.

(** Acknowledging at most what is in flight. *)
Lemma pop_acked_value n b : snd_wf b → Z.of_nat n <= SndBuffer.current_position b →
  SndBuffer.pop_acked n b = Ok (SndBuffer.mk (SndBuffer.max_size b) (drop n (SndBuffer.buffer b))
    (SndBuffer.payload_size b) (SndBuffer.next_msg_number b) (SndBuffer.current_position b - Z.of_nat n)).
Proof.
  revert b. induction n as [|n IH]; intros b Hb Hn; simpl.
  { rewrite drop_0, Z.sub_0_r. by destruct b. }
  destruct Hb as [Hp Hs Hm], b as [max buf ps nm pos].
  cbn [SndBuffer.pop_acked SndBuffer.buffer SndBuffer.current_position SndBuffer.max_size] in *.
  destruct buf as [|x buf]; unfold len in *; cbn [length] in *; [lia|].
  rewrite arith_u_ok by lia. cbn [mbind outcome_bind].
  rewrite IH; simpl; [do 2 f_equal; lia| |lia].
  split; unfold len; simpl; lia.
Qed.

Lemma pop_acked_beyond n b : snd_wf b →
  SndBuffer.current_position b < Z.of_nat n → SndBuffer.current_position b < len (SndBuffer.buffer b) →
  overflow_checks = true → SndBuffer.pop_acked n b = Panic.
Proof.
  intros Hb Hn Hpos Hchk. revert b Hb Hn Hpos. induction n as [|n IH]; intros b Hb Hn Hpos.
  { destruct Hb. lia. }
  destruct Hb as [Hp Hs Hm], b as [max buf ps nm pos].
  cbn [SndBuffer.pop_acked SndBuffer.buffer SndBuffer.current_position SndBuffer.max_size] in *.
  destruct buf as [|x buf]; unfold len in *; cbn [length] in *; [lia|].
  destruct (decide (pos = 0)) as [->|Hne].
  - rewrite arith_u_bad by lia. by rewrite Hchk.
  - rewrite arith_u_ok by lia. cbn [mbind outcome_bind].
    apply IH; simpl; [|lia..]. split; unfold len; simpl; lia.
Qed.

Lemma fetch_batch_value clock seq dest start b : snd_wf b →
  let batch := take FETCH_BATCH_SIZE (unsent b) in
  SndBuffer.fetch_batch clock seq dest start b =
    Ok (imap (λ i block, SndBufferBlock.as_data_packet (clock i) (seq ⊕ Z.of_nat i) dest start block) batch,
        SndBuffer.mk (SndBuffer.max_size b) (SndBuffer.buffer b) (SndBuffer.payload_size b)
          (SndBuffer.next_msg_number b) (SndBuffer.current_position b + len batch)).
Proof.
  intros [Hp Hs Hm] batch. unfold SndBuffer.fetch_batch.
  rewrite Z.gtb_ltb, (proj2 (Z.ltb_ge _ _)) by lia.
  fold (unsent b). fold batch. unfold len in *. rewrite length_imap.
  rewrite arith_u_ok; [done|].
  assert (length batch ≤ length (SndBuffer.buffer b))%nat.
  { unfold batch, unsent. rewrite length_take, length_drop. lia. }
  lia.
Qed.
End operations.

(** Sending [n] blocks more. *)
Definition advance (n : nat) (b : SndBuffer.t) : SndBuffer.t :=
  SndBuffer.mk (SndBuffer.max_size b) (SndBuffer.buffer b) (SndBuffer.payload_size b)
    (SndBuffer.next_msg_number b) (SndBuffer.current_position b + Z.of_nat n).

Lemma advance_spec n b : snd_wf b → (n ≤ length (unsent b))%nat →
  snd_wf (advance n b) ∧ in_flight (advance n b) = in_flight b ++ take n (unsent b)
  ∧ unsent (advance n b) = drop n (unsent b).
Proof.
  intros [Hp Hs Hm] Hn. unfold unsent, in_flight in *. rewrite length_drop in Hn.
  unfold len in *. split; [split; unfold len; simpl; lia|]. simpl.
  rewrite Z2Nat.inj_add, Nat2Z.id by lia. split.
  - rewrite <- (take_drop (Z.to_nat (SndBuffer.current_position b)) (SndBuffer.buffer b)) at 1.
    rewrite take_app_ge by (rewrite length_take; lia). f_equal. f_equal. rewrite length_take; lia.
  - by rewrite drop_drop.
Qed.

Lemma pop_acked_parts `{Profile} offset b :
  snd_wf b → offset <= SndBuffer.current_position b →
  ∃ b', SndBuffer.ack_data offset b = Ok b' ∧ snd_wf b'
  ∧ in_flight b' = drop (Z.to_nat offset) (in_flight b) ∧ unsent b' = unsent b
  ∧ SndBuffer.current_position b' = SndBuffer.current_position b - Z.of_nat (Z.to_nat offset).
Proof.
  intros Hb Ho. pose proof Hb as [Hp Hs Hm]. unfold SndBuffer.ack_data. rewrite pop_acked_value by lia || done.
  set (n := Z.to_nat offset).
  assert (Z.of_nat n <= SndBuffer.current_position b) as Hn by lia.
  eexists. split; [done|]. unfold len in *.
  split; [split; unfold len; simpl; rewrite ?length_drop; lia|].
  unfold in_flight, unsent; simpl. rewrite Z2Nat.inj_sub, Nat2Z.id by lia. split_and!.
  - replace (Z.to_nat (SndBuffer.current_position b)) with
      (n + (Z.to_nat (SndBuffer.current_position b) - n))%nat at 2 by lia.
    by rewrite skipn_firstn_comm, Nat.add_comm, Nat.add_sub.
  - rewrite drop_drop. f_equal. lia.
  - done.
Qed.

Lemma ack_data_beyond `{Profile} offset b :
  snd_wf b → SndBuffer.current_position b < offset → unsent b ≠ [] → overflow_checks = true →
  SndBuffer.ack_data offset b = Panic.
Proof.
  intros Hb Ho Hu Hchk. apply pop_acked_beyond; [done|lia| |done].
  destruct (decide (SndBuffer.current_position b < len (SndBuffer.buffer b))) as [|Hge]; [done|].
  destruct Hu. apply drop_ge. pose proof (snd_position b Hb). unfold len in *. lia.
Qed.

(** The run of blocks of one message. *)
Lemma same_message_spec msg l :
  (SndBuffer.same_message msg l ≤ length l)%nat
  ∧ (∀ i x, (i < SndBuffer.same_message msg l)%nat → l !! i = Some x → SndBufferBlock.msg_number x = msg)
  ∧ (∀ x, l !! SndBuffer.same_message msg l = Some x → SndBufferBlock.msg_number x ≠ msg).
Proof.
  induction l as [|b l (IH1 & IH2 & IH3)]; simpl; [split_and!; by try lia|].
  destruct (Z.eqb_spec (SndBufferBlock.msg_number b) msg); simpl.
  - split; [lia|]. split; [|done]. intros [|i] x Hi; simpl; [by intros [= <-]|].
    apply IH2. lia.
  - split; [lia|]. split; [lia|]. by intros x [= <-].
Qed.

(** ** Properties *)

(** C37. [add_message] either finds no room and reports [OutOfMemory], in which case
    nothing has changed, or appends blocks that carry exactly the bytes of the
    message in order, cut into [ceil (len / payload_size)] payloads of at most
    [payload_size] bytes, all with the message number, marked [Only] or
    [First, Middle, .., Last]; what was in flight or waiting is untouched. *)
Theorem add_message_correct now data ttl io b :
  snd_wf b → (0 < SndBuffer.payload_size b)%nat →
  let size := SndBuffer.payload_size b in
  let n := (len data + Z.of_nat size - 1) / Z.of_nat size in
  if len (SndBuffer.buffer b) + n >? SndBuffer.max_size b then
    SndBuffer.add_message now data ttl io b = Err OutOfMemory
  else ∃ b' blocks, SndBuffer.add_message now data ttl io b = Ok b' ∧ snd_wf b'
  ∧ in_flight b' = in_flight b ∧ unsent b' = unsent b ++ blocks
  ∧ block_bytes blocks = data ∧ len blocks = n
  ∧ map SndBufferBlock.position blocks = message_positions (length blocks)
  ∧ (∀ block, block ∈ blocks → SndBufferBlock.msg_number block = SndBuffer.next_msg_number b
       ∧ SndBufferBlock.ttl block = ttl ∧ SndBufferBlock.in_order block = io
       ∧ (0 < length (SndBufferBlock.data block) ≤ size)%nat)
  ∧ SndBuffer.next_msg_number b' = (SndBuffer.next_msg_number b + 1) mod 2 ^ 29.
Proof.
  intros [Hp Hs Hm] Hsize size n. rewrite add_message_value by done. cbv zeta.
  rewrite message_blocks_len by done. fold size n.
  destruct (Z.gtb_spec (len (SndBuffer.buffer b) + n) (SndBuffer.max_size b)); [done|].
  set (blocks := message_blocks _ _ _ _ _ _).
  assert (len blocks = n) as Hn by (by apply message_blocks_len).
  eexists _, blocks. split; [done|]. unfold len in *. split_and!.
  - split; unfold len; simpl; rewrite ?length_app; lia.
  - unfold in_flight; simpl. apply take_app_le. lia.
  - unfold unsent; simpl. apply drop_app_le. lia.
  - by apply message_blocks_bytes.
  - done.
  - apply message_blocks_positions.
  - intros block Hb. by apply message_blocks_each in Hb.
  - done.
Qed.

(** [fetch_batch] on a well-formed buffer never panics: it sends the first
    [min 100 n] of the [n] unsent blocks, in order, under consecutive sequence
    numbers, and moves exactly those blocks to the in-flight queue. *)
Theorem fetch_batch_moves `{Profile} clock seq dest start b :
  snd_wf b →
  let k := (FETCH_BATCH_SIZE `min` length (unsent b))%nat in
  ∃ packets b', SndBuffer.fetch_batch clock seq dest start b = Ok (packets, b')
  ∧ length packets = k ∧ snd_wf b'
  ∧ in_flight b' = in_flight b ++ take k (unsent b) ∧ unsent b' = drop k (unsent b)
  ∧ ∀ i p, packets !! i = Some p →
      UdtDataPacketHeader.seq_number (UdtDataPacket.header p) = seq ⊕ Z.of_nat i
      ∧ UdtDataPacketHeader.dest_socket_id (UdtDataPacket.header p) = dest
      ∧ ∃ block, unsent b !! i = Some block ∧ UdtDataPacket.data p = SndBufferBlock.data block
          ∧ UdtDataPacketHeader.msg_number (UdtDataPacket.header p) = SndBufferBlock.msg_number block
          ∧ UdtDataPacketHeader.position (UdtDataPacket.header p) = SndBufferBlock.position block.
Proof.
  intros Hb k. rewrite fetch_batch_value by done. cbv zeta.
  assert (len (take FETCH_BATCH_SIZE (unsent b)) = Z.of_nat k) as Hk
    by (unfold len; by rewrite length_take).
  rewrite Hk. fold (advance k b).
  destruct (advance_spec k b Hb) as (Hwf & Hin & Hun); [lia|].
  eexists _, _. split; [done|]. split; [by rewrite length_imap, length_take|].
  split_and!; [done..|].
  intros i p. rewrite list_lookup_imap. intros (block & Hi & ->)%fmap_Some. simpl.
  split; [done|]. split; [done|]. exists block. split; [|done].
  by apply lookup_take_Some in Hi as [? _].
Qed.

(** Acknowledging up to the number of blocks in flight releases exactly the oldest
    ones and leaves the unsent queue alone; a negative count is ignored. *)
Theorem snd_ack_data_releases `{Profile} offset b :
  snd_wf b → offset <= SndBuffer.current_position b →
  ∃ b', SndBuffer.ack_data offset b = Ok b' ∧ snd_wf b'
  ∧ in_flight b' = drop (Z.to_nat offset) (in_flight b) ∧ unsent b' = unsent b.
Proof.
  intros Hb Ho. destruct (pop_acked_parts offset b Hb Ho) as (b' & ? & ? & ? & ? & _). by exists b'.
Qed.

(** An acknowledgement of more blocks than are in flight while others wait unsent
    underflows [current_position]: the task panics when overflow checks are on. *)
Theorem snd_ack_data_underflow `{Profile} offset b :
  snd_wf b → SndBuffer.current_position b < offset → unsent b ≠ [] → overflow_checks = true →
  SndBuffer.ack_data offset b = Panic.
Proof. apply ack_data_beyond. Qed.

(** A retransmission repeats the transmission: the packet that [fetch_batch] sent
    as number [i] of a batch is the one [read_data] finds at the same place in the
    queue, as long as its message has not expired, the timestamp excepted. *)
Theorem retransmission_agrees `{Profile} clock expiry now seq dest start b packets b' i p :
  snd_wf b → SndBuffer.fetch_batch clock seq dest start b = Ok (packets, b') →
  packets !! i = Some p →
  (∀ block, unsent b !! i = Some block → SndBufferBlock.has_expired expiry block = false) →
  let offset := (length (in_flight b) + i)%nat in
  ∃ q, SndBuffer.read_data expiry now offset (seq ⊕ Z.of_nat i) dest start b' = (inl q, b')
  ∧ UdtDataPacket.data q = UdtDataPacket.data p
  ∧ UdtDataPacket.header q =
      let h := UdtDataPacket.header p in
      UdtDataPacketHeader.mk (UdtDataPacketHeader.seq_number h) (UdtDataPacketHeader.position h)
        (UdtDataPacketHeader.in_order h) (UdtDataPacketHeader.msg_number h)
        (UdtDataPacketHeader.timestamp (UdtDataPacket.header q)) (UdtDataPacketHeader.dest_socket_id h).
Proof.
  intros Hb. rewrite fetch_batch_value by done. intros [= <- <-] Hi Hexp offset.
  rewrite list_lookup_imap in Hi. apply fmap_Some in Hi as (block & Hblock & ->).
  apply lookup_take_Some in Hblock as [Hblock _].
  unfold SndBuffer.read_data; simpl.
  assert (SndBuffer.buffer b !! offset = Some block) as ->.
  { rewrite <- (in_flight_unsent b), lookup_app_r by (unfold offset; lia).
    by replace (offset - length (in_flight b))%nat with i by (unfold offset; lia). }
  rewrite Hexp by done. eexists. split; [done|]. done.
Qed.

(** [read_data] on an expired block reports its message number and how many
    blocks from there on belong to it, and moves [current_position] past them if it
    pointed inside; the queue itself is unchanged and the buffer stays well formed. *)
Theorem read_data_expired expiry now offset seq dest start b block :
  snd_wf b → SndBuffer.buffer b !! offset = Some block →
  SndBufferBlock.has_expired expiry block = true →
  ∃ msg_len b', SndBuffer.read_data expiry now offset seq dest start b
    = (inr (SndBufferBlock.msg_number block, msg_len), b')
  ∧ (0 < msg_len)%nat ∧ (offset + msg_len ≤ length (SndBuffer.buffer b))%nat
  ∧ (∀ i x, (offset ≤ i < offset + msg_len)%nat → SndBuffer.buffer b !! i = Some x →
       SndBufferBlock.msg_number x = SndBufferBlock.msg_number block)
  ∧ (∀ x, SndBuffer.buffer b !! (offset + msg_len)%nat = Some x →
       SndBufferBlock.msg_number x ≠ SndBufferBlock.msg_number block)
  ∧ snd_wf b' ∧ SndBuffer.buffer b' = SndBuffer.buffer b
  ∧ SndBuffer.current_position b' =
      (if decide (Z.of_nat offset <= SndBuffer.current_position b < Z.of_nat (offset + msg_len))
       then Z.of_nat (offset + msg_len) else SndBuffer.current_position b).
Proof.
  intros Hb Hoff Hexp. unfold SndBuffer.read_data. rewrite Hoff, Hexp.
  set (msg := SndBufferBlock.msg_number block).
  destruct (same_message_spec msg (drop (S offset) (SndBuffer.buffer b))) as (Hlen & Hall & Hnext).
  set (k := SndBuffer.same_message msg (drop (S offset) (SndBuffer.buffer b))) in *.
  rewrite length_drop in Hlen. pose proof (lookup_lt_Some _ _ _ Hoff) as Hlt.
  eexists (S k), _. split; [done|]. split; [lia|]. split; [lia|]. split_and!.
  - intros i x Hi Hx. destruct (decide (i = offset)) as [->|]; [rewrite Hx in Hoff; by injection Hoff as ->|].
    apply (Hall (i - S offset)%nat); [lia|]. rewrite lookup_drop.
    by replace (S offset + (i - S offset))%nat with i by lia.
  - intros x Hx. apply Hnext. rewrite lookup_drop. by replace (S offset + k)%nat with (offset + S k)%nat by lia.
  - destruct Hb as [Hp Hs Hm]. case_match; split; simpl; unfold len in *; lia.
  - by case_match.
  - case_decide; destruct (Z.leb_spec (Z.of_nat offset) (SndBuffer.current_position b)),
      (Z.ltb_spec (SndBuffer.current_position b) (Z.of_nat (offset + S k))); simpl; (done || lia).
Qed.

(** ** Witnesses *)

Definition sample_snd : SndBuffer.t := SndBuffer.mk 4 [] 3 MSG_MAX 0.

Definition sample_block (d : list Z) (pos : PacketPosition) (ttl : option Z) : SndBufferBlock.t :=
  SndBufferBlock.mk d 7 100 ttl false pos.

(** Three blocks of one message that expires after 1 ms; the first is in flight. *)
Definition sample_snd2 : SndBuffer.t :=
  SndBuffer.mk 4 [sample_block [1; 2; 3] First (Some 1); sample_block [4; 5; 6] Middle (Some 1);
                  sample_block [7] Last (Some 1)] 3 8 1.

Lemma sample_snd_wf : snd_wf sample_snd.
Proof. split; unfold len; simpl; lia. Defined.
Lemma sample_snd2_wf : snd_wf sample_snd2.
Proof. split; unfold len; simpl; lia. Defined.

Example add_message_runs :
  SndBuffer.add_message 5 [1; 2; 3; 4; 5; 6; 7] None false sample_snd
  = Ok (SndBuffer.mk 4
      [SndBufferBlock.mk [1; 2; 3] MSG_MAX 5 None false First;
       SndBufferBlock.mk [4; 5; 6] MSG_MAX 5 None false Middle;
       SndBufferBlock.mk [7] MSG_MAX 5 None false Last] 3 0 0).
Proof. by vm_compute. Qed.

Lemma add_message_correct_witness :
  ∃ b' blocks, SndBuffer.add_message 5 [1; 2; 3; 4; 5; 6; 7] None false sample_snd = Ok b'
  ∧ block_bytes blocks = [1; 2; 3; 4; 5; 6; 7] ∧ len blocks = 3.
Proof.
  destruct (add_message_correct 5 [1; 2; 3; 4; 5; 6; 7] None false sample_snd)
    as (b' & blocks & E & _ & _ & _ & Hbytes & Hlen & _); [apply sample_snd_wf|simpl; lia|].
  exists b', blocks. split; [exact E|]. split; [exact Hbytes|exact Hlen].
Defined.

Lemma fetch_batch_moves_witness :
  ∃ packets b', @SndBuffer.fetch_batch true (λ _, 0) SEQ_MAX 9 0 sample_snd2 = Ok (packets, b')
  ∧ length packets = 2%nat ∧ unsent b' = [].
Proof.
  destruct (@fetch_batch_moves true (λ _, 0) SEQ_MAX 9 0 sample_snd2 sample_snd2_wf)
    as (packets & b' & E & Hlen & _ & _ & Hun & _).
  exists packets, b'. split; [exact E|]. split; [exact Hlen|exact Hun].
Defined.

Lemma snd_ack_data_releases_witness :
  ∃ b', @SndBuffer.ack_data true 1 sample_snd2 = Ok b' ∧ snd_wf b'
  ∧ in_flight b' = drop (Z.to_nat 1) (in_flight sample_snd2) ∧ unsent b' = unsent sample_snd2.
Proof.
  apply (@snd_ack_data_releases true 1 sample_snd2); [apply sample_snd2_wf|simpl; lia].
Defined.

Lemma snd_ack_data_underflow_witness : @SndBuffer.ack_data true 2 sample_snd2 = Panic.
Proof.
  apply (@snd_ack_data_underflow true 2 sample_snd2); [apply sample_snd2_wf|simpl; lia|done|done].
Defined.

Lemma retransmission_agrees_witness :
  ∃ packets b' q, @SndBuffer.fetch_batch true (λ _, 0) 10 9 0 sample_snd2 = Ok (packets, b')
  ∧ SndBuffer.read_data 200 200 2 (10 ⊕ 1) 9 0 b' = (inl q, b') ∧ UdtDataPacket.data q = [7].
Proof.
  destruct (@SndBuffer.fetch_batch true (λ _, 0) 10 9 0 sample_snd2) as [[packets b']| |] eqn:E;
    [|vm_compute in E; done..].
  destruct (packets !! 1%nat) as [p|] eqn:Hp; cycle 1.
  { vm_compute in E. injection E as <- _. vm_compute in Hp. done. }
  destruct (@retransmission_agrees true (λ _, 0) 200 200 10 9 0 sample_snd2 packets b' 1 p
    sample_snd2_wf E Hp) as (q & Hq & Hd & _).
  - intros block. vm_compute. by intros [= <-].
  - exists packets, b', q. split; [done|]. split; [exact Hq|]. rewrite Hd.
    vm_compute in E. injection E as <- _. vm_compute in Hp. by injection Hp as <-.
Defined.

Lemma read_data_expired_witness :
  SndBuffer.read_data 1000101 0 0 10 9 0 sample_snd2 = (inr (7, 3%nat), advance 2 sample_snd2).
Proof.
  destruct (read_data_expired 1000101 0 0 10 9 0 sample_snd2 (sample_block [1; 2; 3] First (Some 1)))
    as (n & b' & E & _ & _ & _ & _ & _ & Hbuf & Hpos);
    [apply sample_snd2_wf|done|by vm_compute|].
  rewrite E. vm_compute in E. by injection E as <- <-.
Defined.
