(* ===== verification/float.v ===== *)
(** * Floating-point arithmetic

    [f64] is the Standard Library's [spec_float] at precision 53 and exponent
    1024: IEEE 754 binary64 with rounding to nearest, ties to even.  The
    conversions between [f64], integers and [Duration] are the ones the
    repository uses.  [powf] and [log10], whose accuracy Rust leaves to the
    platform, are the parameters [FloatLib]. *)

From Stdlib Require Export Floats.SpecFloat.
From S2P Require Import prelude time.

Notation f64 := spec_float.

(** [10.0_f64.powf(x)] and [x.log10()]. *)
Class FloatLib := { pow10 : f64 → f64; log10 : f64 → f64 }.

Module F64.
Definition of_Z (z : Z) : f64 := binary_normalize 53 1024 z 0 false.
Definition add : f64 → f64 → f64 := SFadd 53 1024.
Definition sub : f64 → f64 → f64 := SFsub 53 1024.
Definition mul : f64 → f64 → f64 := SFmul 53 1024.
Definition div : f64 → f64 → f64 := SFdiv 53 1024.
Definition lt : f64 → f64 → bool := SFltb.
Definition le : f64 → f64 → bool := SFleb.

(** A decimal literal [p / q] with [p] and [q] exactly representable. *)
Definition lit (p q : Z) : f64 := div (of_Z p) (of_Z q).

(** [m * 2 ^ e] rounded towards zero and upwards. *)
Definition scale_down (m e : Z) : Z := if 0 <=? e then m * 2 ^ e else m / 2 ^ (- e).
Definition scale_up (m e : Z) : Z := if 0 <=? e then m * 2 ^ e else - ((- m) / 2 ^ (- e)).

(** [x as u<w>] saturates; [NaN] becomes 0. *)
Definition to_u (w : Z) (x : f64) : Z :=
  match x with
  | S754_zero _ | S754_nan | S754_infinity true | S754_finite true _ _ => 0
  | S754_infinity false => 2 ^ w - 1
  | S754_finite false m e => Z.min (2 ^ w - 1) (scale_down (Zpos m) e)
  end.

Definition ceil (x : f64) : f64 :=
  match x with
  | S754_finite s m e =>
      if 0 <=? e then x
      else binary_normalize 53 1024 (if s then - scale_down (Zpos m) e else scale_up (Zpos m) e) 0 s
  | _ => x
  end.

(** [p / q] rounded to the nearest integer, ties to even, for [q > 0]. *)
Definition round_half_even (p q : Z) : Z :=
  let d := p / q in
  let r := 2 * (p mod q) in
  if r <? q then d else if q <? r then d + 1 else if Z.even d then d else d + 1.

Definition as_secs_f64 (d : Z) : f64 :=
  add (of_Z (d / 1000000000)) (div (of_Z (d mod 1000000000)) (of_Z 1000000000)).

(** [Duration::from_secs_f64]: nearest nanosecond; panics on a negative value, on
    [NaN] and when the result does not fit. *)
Definition from_secs_f64 (x : f64) : outcome Z :=
  match x with
  | S754_zero _ => Ok 0
  | S754_finite false m e =>
      duration (if 0 <=? e then Zpos m * 2 ^ e * 1000000000
                else round_half_even (Zpos m * 1000000000) (2 ^ (- e)))
  | _ => Panic
  end.

Definition mul_f64 (d : Z) (x : f64) : outcome Z := from_secs_f64 (mul x (as_secs_f64 d)).
Definition div_f64 (d : Z) (x : f64) : outcome Z := from_secs_f64 (div (as_secs_f64 d) x).
End F64.

Lemma to_u_range w x : 0 <= w → 0 <= F64.to_u w x < 2 ^ w.
Proof.
  intros Hw. pose proof (Z.pow_pos_nonneg 2 w).
  destruct x as [?|[]| |[] m e]; simpl; try lia.
  assert (0 <= F64.scale_down (Z.pos m) e); [|lia]. unfold F64.scale_down.
  case_match; [apply Z.mul_nonneg_nonneg; lia|]. apply Z.div_pos; [lia|].
  apply Z.pow_pos_nonneg; lia.
Qed.

Lemma round_half_even_nonneg p q : 0 <= p → 0 < q → 0 <= F64.round_half_even p q.
Proof.
  intros. unfold F64.round_half_even. pose proof (Z.div_pos p q). repeat case_match; lia.
Qed.

(** A conversion that succeeds gives a duration. *)
Lemma from_secs_f64_wf x d : F64.from_secs_f64 x = Ok d → wf_duration d.
Proof.
  unfold F64.from_secs_f64. destruct x as [?|[]| |[] m e]; try done.
  - by intros [= <-].
  - by intros [-> ?]%duration_inv.
Qed.
