(* ===== verification/flow.v ===== *)
(** * Flow statistics ([src/flow.rs])

    The flow window, the two windows of packet inter-arrival times and the
    smoothed round-trip time, bandwidth and delivery rate. *)

From S2P Require Import prelude time float.
From stdpp Require Import sorting.
#[global] Open Scope Z_scope.

Definition ARRIVAL_WINDOW_SIZE : nat := 16.
Definition PROBE_WINDOW_SIZE : nat := 64.
Definition PROBE_MODULO : Z := 16.

Module UdtFlow.
Record t := mk {
  flow_window_size : Z;
  arrival_window : list Z;
  probe_window : list Z;
  last_arrival_time : Z;
  probe_time : Z;
  rtt : Z;
  rtt_var : Z;
  peer_bandwidth : Z;
  peer_delivery_rate : Z
}.

Definition default (now : Z) : t :=
  mk 0 [] [] now now (from_millis 100) (from_millis 50) 1 16.

(** [push_back] followed by [pop_front] when the window is too long. *)
Definition push_window (size : nat) (x : Z) (w : list Z) : list Z :=
  let w := w ++ [x] in
  if (size <? length w)%nat then tail w else w.

Definition on_pkt_arrival (now : Z) (f : t) : t :=
  mk (flow_window_size f)
     (push_window ARRIVAL_WINDOW_SIZE (duration_since now (last_arrival_time f)) (arrival_window f))
     (probe_window f) now (probe_time f) (rtt f) (rtt_var f) (peer_bandwidth f) (peer_delivery_rate f).

Definition on_probe1_arrival (now : Z) (f : t) : t :=
  mk (flow_window_size f) (arrival_window f) (probe_window f) (last_arrival_time f) now
     (rtt f) (rtt_var f) (peer_bandwidth f) (peer_delivery_rate f).

Definition on_probe2_arrival (now : Z) (f : t) : t :=
  mk (flow_window_size f) (arrival_window f)
     (push_window PROBE_WINDOW_SIZE (duration_since now (probe_time f)) (probe_window f))
     (last_arrival_time f) (probe_time f)
     (rtt f) (rtt_var f) (peer_bandwidth f) (peer_delivery_rate f).

(** [select_nth_unstable(i)]: the element of rank [i]; panics when there is none.
    The rest of the reordered slice is only counted and summed. *)
Definition select_nth (i : nat) (values : list Z) : outcome Z :=
  index i (merge_sort Z.le values).

(** The values strictly between an eighth of and eight times the median. *)
Definition near_median (values : list Z) : outcome (list Z) :=
  median ← select_nth (length values / 2) values;
  lo ← dur_div median 8;
  hi ← dur_mul 8 median;
  Ok (filter (λ x, lo < x ∧ x < hi) values).

Fixpoint dur_sum (l : list Z) : outcome Z :=
  match l with
  | [] => Ok 0
  | d :: l => s ← dur_sum l; dur_add s d
  end.

(** [(n as f64 / total.as_secs_f64()).ceil() as u32]. *)
Definition per_second (n : nat) (total : Z) : Z :=
  F64.to_u 32 (F64.ceil (F64.div (F64.of_Z (Z.of_nat n)) (F64.as_secs_f64 total))).

Definition get_pkt_rcv_speed (f : t) : outcome Z :=
  values ← near_median (arrival_window f);
  if (length values <? ARRIVAL_WINDOW_SIZE / 2)%nat then Ok 0 else
  total_duration ← dur_sum values;
  Ok (per_second (length values) total_duration).

Definition get_bandwidth (f : t) : outcome Z :=
  match probe_window f with
  | [] => Ok 0
  | _ =>
      values ← near_median (probe_window f);
      total_duration ← dur_sum values;
      if total_duration =? 0 then Ok 0 else Ok (per_second (length values) total_duration)
  end.

Definition set_flow_window_size (v : Z) (f : t) : t :=
  mk v (arrival_window f) (probe_window f) (last_arrival_time f) (probe_time f)
     (rtt f) (rtt_var f) (peer_bandwidth f) (peer_delivery_rate f).

Definition update_rtt (new_val : Z) (f : t) : outcome t :=
  x ← dur_mul 7 (rtt f);
  y ← dur_add x new_val;
  v ← dur_div y 8;
  Ok (mk (flow_window_size f) (arrival_window f) (probe_window f) (last_arrival_time f)
         (probe_time f) v (rtt_var f) (peer_bandwidth f) (peer_delivery_rate f)).

Definition update_rtt_var (new_val : Z) (f : t) : outcome t :=
  x ← dur_mul 3 (rtt_var f);
  y ← dur_add x new_val;
  v ← dur_div y 4;
  Ok (mk (flow_window_size f) (arrival_window f) (probe_window f) (last_arrival_time f)
         (probe_time f) (rtt f) v (peer_bandwidth f) (peer_delivery_rate f)).

(** [(7 * old + new_val) / 8] in [u32]. *)
Definition smooth_u32 `{Profile} (old new_val : Z) : outcome Z :=
  x ← arith_u 32 (7 * old);
  y ← arith_u 32 (x + new_val);
  Ok (y / 8).

Definition update_bandwidth `{Profile} (new_val : Z) (f : t) : outcome t :=
  v ← smooth_u32 (peer_bandwidth f) new_val;
  Ok (mk (flow_window_size f) (arrival_window f) (probe_window f) (last_arrival_time f)
         (probe_time f) (rtt f) (rtt_var f) v (peer_delivery_rate f)).

Definition update_peer_delivery_rate `{Profile} (new_val : Z) (f : t) : outcome t :=
  v ← smooth_u32 (peer_delivery_rate f) new_val;
  Ok (mk (flow_window_size f) (arrival_window f) (probe_window f) (last_arrival_time f)
         (probe_time f) (rtt f) (rtt_var f) (peer_bandwidth f) v).
End UdtFlow.

Record flow_wf (f : UdtFlow.t) : Prop := {
  flow_arrivals : (length (UdtFlow.arrival_window f) ≤ ARRIVAL_WINDOW_SIZE)%nat;
  flow_probes : (length (UdtFlow.probe_window f) ≤ PROBE_WINDOW_SIZE)%nat;
  flow_arrival_sane : Forall sane (UdtFlow.arrival_window f);
  flow_probe_sane : Forall sane (UdtFlow.probe_window f);
  flow_rtt : sane (UdtFlow.rtt f);
  flow_rtt_var : sane (UdtFlow.rtt_var f);
  flow_window : 0 <= UdtFlow.flow_window_size f <= U32_MAX;
  flow_bandwidth : 0 <= UdtFlow.peer_bandwidth f <= U32_MAX;
  flow_rate : 0 < UdtFlow.peer_delivery_rate f <= U32_MAX
}.

(** ** Helper specifications *)

Lemma flow_wf_default now : flow_wf (UdtFlow.default now).
Proof. split; simpl; first [lia|by constructor|done]. Qed.

Lemma length_push_window size x w : (length w ≤ size)%nat →
  (length (UdtFlow.push_window size x w) ≤ size)%nat.
Proof.
  intros. unfold UdtFlow.push_window.
  destruct (Nat.ltb_spec size (length (w ++ [x]))) as [Hlt|Hge]; [|done].
  rewrite length_app in Hlt. destruct w as [|y w]; simpl in *; [lia|]. rewrite ?length_app in *. simpl in *. lia.
Qed.

Lemma Forall_push_window P size (x : Z) w : P x → Forall P w → Forall P (UdtFlow.push_window size x w).
Proof.
  intros. unfold UdtFlow.push_window. case_match; [apply Forall_tail|]; apply Forall_app; auto.
Qed.

(** A window fed one value at a time is the suffix of its history. *)
Lemma push_window_suffix size (x : Z) h : (0 < size)%nat →
  UdtFlow.push_window size x (drop (length h - size) h) = drop (length (h ++ [x]) - size) (h ++ [x]).
Proof.
  intros. unfold UdtFlow.push_window. rewrite !length_app, length_drop. cbn [length].
  rewrite (drop_app_le h [x]) by lia.
  destruct (Nat.ltb_spec size (length h - (length h - size) + 1)).
  - destruct (drop (length h - size) h) as [|y l] eqn:E.
    { apply (f_equal length) in E. rewrite length_drop in E. simpl in E. lia. }
    simpl. replace (length h + 1 - size)%nat with (S (length h - size))%nat by lia.
    f_equal. replace l with (drop 1 (drop (length h - size) h)) by (by rewrite E).
    rewrite drop_drop. f_equal. lia.
  - f_equal. f_equal. lia.
Qed.

Lemma smooth_u32_value `{Profile} old new : 0 <= old → 0 <= new →
  7 * old + new < 2 ^ 32 → UdtFlow.smooth_u32 old new = Ok ((7 * old + new) / 8).
Proof.
  intros. unfold UdtFlow.smooth_u32. rewrite arith_u_ok by lia. cbn [mbind outcome_bind].
  by rewrite arith_u_ok by lia.
Qed.

(** A weighted mean lies between the two values. *)
Lemma smooth_between k n a b : 0 < n → k = n - 1 → 0 <= k →
  Z.min a b <= (k * a + b) / n <= Z.max a b.
Proof.
  intros Hn -> Hk. split.
  - apply Z.div_le_lower_bound; [lia|]. nia.
  - apply Z.lt_succ_r, Z.div_lt_upper_bound; [lia|]. nia.
Qed.

Lemma update_rtt_value f new : sane (UdtFlow.rtt f) → sane new →
  UdtFlow.update_rtt new f = Ok (UdtFlow.mk (UdtFlow.flow_window_size f) (UdtFlow.arrival_window f)
    (UdtFlow.probe_window f) (UdtFlow.last_arrival_time f) (UdtFlow.probe_time f)
    ((7 * UdtFlow.rtt f + new) / 8) (UdtFlow.rtt_var f) (UdtFlow.peer_bandwidth f)
    (UdtFlow.peer_delivery_rate f)).
Proof.
  intros Ho Hn. unfold UdtFlow.update_rtt. rewrite sane_duration by (done || lia).
  cbn [mbind outcome_bind]. unfold dur_add. rewrite duration_ok; [done|].
  unfold sane, wf_duration in *. assert (8 * SANE_DURATION <= DURATION_MAX) by done. lia.
Qed.

Lemma update_rtt_var_value f new : sane (UdtFlow.rtt_var f) → sane new →
  UdtFlow.update_rtt_var new f = Ok (UdtFlow.mk (UdtFlow.flow_window_size f) (UdtFlow.arrival_window f)
    (UdtFlow.probe_window f) (UdtFlow.last_arrival_time f) (UdtFlow.probe_time f)
    (UdtFlow.rtt f) ((3 * UdtFlow.rtt_var f + new) / 4) (UdtFlow.peer_bandwidth f)
    (UdtFlow.peer_delivery_rate f)).
Proof.
  intros Ho Hn. unfold UdtFlow.update_rtt_var. rewrite sane_duration by (done || lia).
  cbn [mbind outcome_bind]. unfold dur_add. rewrite duration_ok; [done|].
  unfold sane, wf_duration in *. assert (8 * SANE_DURATION <= DURATION_MAX) by done. lia.
Qed.

(** The median exists in a window that is not empty. *)
Lemma select_nth_ok values : values ≠ [] →
  ∃ m, UdtFlow.select_nth (length values / 2) values = Ok m ∧ m ∈ values.
Proof.
  intros Hne. unfold UdtFlow.select_nth, index.
  pose proof (merge_sort_Permutation Z.le values) as Hp.
  assert (length values / 2 < length (merge_sort Z.le values))%nat as Hlt.
  { rewrite Hp. destruct values; [done|]. apply Nat.div_lt; simpl; lia. }
  destruct (lookup_lt_is_Some_2 _ _ Hlt) as [m Hm]. rewrite Hm. exists m. split; [done|].
  rewrite <- Hp. by eapply list_elem_of_lookup_2.
Qed.

Lemma near_median_ok values : values ≠ [] → Forall sane values →
  ∃ kept, UdtFlow.near_median values = Ok kept ∧ Forall sane kept ∧ (length kept ≤ length values)%nat.
Proof.
  intros Hne Hs. unfold UdtFlow.near_median.
  destruct (select_nth_ok values Hne) as (m & -> & Hm). cbn [mbind outcome_bind].
  rewrite Forall_forall in Hs. rewrite sane_duration by (auto || lia).
  change (dur_div m 8) with (Ok (m / 8)). cbn [mbind outcome_bind].
  eexists. split; [done|]. split; [|apply length_filter].
  apply Forall_forall. intros x [_ Hx]%list_elem_of_filter. auto.
Qed.

Lemma dur_sum_ok l : Forall sane l → (length l ≤ 64)%nat →
  ∃ s, UdtFlow.dur_sum l = Ok s ∧ 0 <= s <= Z.of_nat (length l) * SANE_DURATION.
Proof.
  induction 1 as [|d l Hd Hl IH]; intros Hlen; simpl in *; [eexists; split; [done|lia]|].
  destruct IH as (s & -> & Hs); [lia|]. cbn [mbind outcome_bind]. unfold sane in Hd.
  exists (s + d). split; [|nia]. unfold dur_add. apply duration_ok. unfold wf_duration.
  assert (65 * SANE_DURATION <= DURATION_MAX) by done.
  assert (0 <= SANE_DURATION) by done. nia.
Qed.

Lemma per_second_range n total : 0 <= UdtFlow.per_second n total <= U32_MAX.
Proof. unfold UdtFlow.per_second. pose proof (to_u_range 32 (F64.ceil (F64.div (F64.of_Z (Z.of_nat n)) (F64.as_secs_f64 total)))). lia. Qed.

(** ** Properties *)

(** The inter-arrival times of packets received at [times], the first counted from [start]. *)
Fixpoint gaps (start : Z) (times : list Z) : list Z :=
  match times with
  | [] => []
  | now :: times => duration_since now start :: gaps now times
  end.

Lemma last_shift (l : list Z) x d : List.last (x :: l) d = List.last l x.
Proof. revert x d. induction l as [|y l IH]; intros x d; [done|]. etrans; [apply IH|]. by rewrite (IH y x). Qed.

Lemma gaps_snoc start times now :
  gaps start (times ++ [now]) = gaps start times ++ [duration_since now (List.last times start)].
Proof.
  revert start. induction times as [|t times IH]; intros start; [done|].
  rewrite last_shift. simpl. by rewrite IH.
Qed.

(** After any sequence of packet arrivals, the arrival window holds exactly the
    last 16 inter-arrival times, oldest first, and nothing else of the flow state
    but the time of the last arrival has changed. *)
Theorem arrival_window_history times f :
  UdtFlow.arrival_window f = [] →
  let f' := foldl (λ f now, UdtFlow.on_pkt_arrival now f) f times in
  let h := gaps (UdtFlow.last_arrival_time f) times in
  UdtFlow.arrival_window f' = drop (length h - 16) h
  ∧ UdtFlow.last_arrival_time f' = List.last times (UdtFlow.last_arrival_time f)
  ∧ UdtFlow.probe_window f' = UdtFlow.probe_window f ∧ UdtFlow.rtt f' = UdtFlow.rtt f.
Proof.
  intros Hempty. cbv zeta. induction times as [|now times IH] using rev_ind; [done|].
  rewrite foldl_snoc. destruct IH as (Hw & Hl & Hp & Hr).
  set (f' := foldl _ f times) in *.
  unfold UdtFlow.on_pkt_arrival; cbn [UdtFlow.arrival_window UdtFlow.last_arrival_time
    UdtFlow.probe_window UdtFlow.rtt].
  rewrite Hw, Hl, gaps_snoc. split_and!; [apply push_window_suffix; lia| |done..].
  by rewrite List.last_last.
Qed.

(** The smoothed round-trip time and its variance never overflow, and lie between
    the previous estimate and the new sample; one update keeps [7/8] (resp. [3/4])
    of the previous value. *)
Theorem rtt_smoothing f new :
  sane (UdtFlow.rtt f) → sane (UdtFlow.rtt_var f) → sane new →
  ∃ f1 f2, UdtFlow.update_rtt new f = Ok f1 ∧ UdtFlow.update_rtt_var new f = Ok f2
  ∧ Z.min (UdtFlow.rtt f) new <= UdtFlow.rtt f1 <= Z.max (UdtFlow.rtt f) new
  ∧ Z.min (UdtFlow.rtt_var f) new <= UdtFlow.rtt_var f2 <= Z.max (UdtFlow.rtt_var f) new
  ∧ 8 * UdtFlow.rtt f1 <= 7 * UdtFlow.rtt f + new < 8 * UdtFlow.rtt f1 + 8
  ∧ 4 * UdtFlow.rtt_var f2 <= 3 * UdtFlow.rtt_var f + new < 4 * UdtFlow.rtt_var f2 + 4
  ∧ UdtFlow.rtt_var f1 = UdtFlow.rtt_var f ∧ UdtFlow.rtt f2 = UdtFlow.rtt f.
Proof.
  intros Hr Hv Hn. rewrite update_rtt_value, update_rtt_var_value by done.
  eexists _, _. split; [done|]. split; [done|]. simpl.
  split; [by apply smooth_between|]. split; [by apply smooth_between|].
  split; [pose proof (Z.div_mod (7 * UdtFlow.rtt f + new) 8);
          pose proof (Z.mod_pos_bound (7 * UdtFlow.rtt f + new) 8); lia|].
  split; [pose proof (Z.div_mod (3 * UdtFlow.rtt_var f + new) 4);
          pose proof (Z.mod_pos_bound (3 * UdtFlow.rtt_var f + new) 4); lia|done].
Qed.

(** The bandwidth and delivery-rate estimates take any value the peer reports: below
    the overflow of [7 * old + new] the result lies between the two, and a delivery
    rate that was positive stays positive; a report of [2^32 - 7 * old] or more (any
    value above [2^32 - 8] on a fresh connection) overflows the [u32] sum. *)
Theorem peer_report_smoothing `{Profile} f new :
  0 < UdtFlow.peer_bandwidth f < 2 ^ 28 → 0 < UdtFlow.peer_delivery_rate f < 2 ^ 28 →
  0 < new <= U32_MAX →
  (if 7 * UdtFlow.peer_bandwidth f + new <? 2 ^ 32 then
     ∃ f', UdtFlow.update_bandwidth new f = Ok f'
     ∧ Z.min (UdtFlow.peer_bandwidth f) new <= UdtFlow.peer_bandwidth f'
       <= Z.max (UdtFlow.peer_bandwidth f) new
   else overflow_checks = true → UdtFlow.update_bandwidth new f = Panic)
  ∧ (if 7 * UdtFlow.peer_delivery_rate f + new <? 2 ^ 32 then
     ∃ f', UdtFlow.update_peer_delivery_rate new f = Ok f' ∧ 0 < UdtFlow.peer_delivery_rate f'
     ∧ UdtFlow.peer_delivery_rate f' <= Z.max (UdtFlow.peer_delivery_rate f) new
   else overflow_checks = true → UdtFlow.update_peer_delivery_rate new f = Panic).
Proof.
  intros Hb Hd Hn. unfold UdtFlow.update_bandwidth, UdtFlow.update_peer_delivery_rate. split.
  - destruct (Z.ltb_spec (7 * UdtFlow.peer_bandwidth f + new) (2 ^ 32)).
    + rewrite smooth_u32_value by lia. eexists. split; [done|]. simpl. by apply smooth_between.
    + intros Hchk. unfold UdtFlow.smooth_u32. rewrite arith_u_ok by lia. cbn [mbind outcome_bind].
      rewrite arith_u_bad by lia. by rewrite Hchk.
  - destruct (Z.ltb_spec (7 * UdtFlow.peer_delivery_rate f + new) (2 ^ 32)).
    + rewrite smooth_u32_value by lia. eexists. split; [done|]. simpl.
      pose proof (smooth_between 7 8 (UdtFlow.peer_delivery_rate f) new). lia.
    + intros Hchk. unfold UdtFlow.smooth_u32. rewrite arith_u_ok by lia. cbn [mbind outcome_bind].
      rewrite arith_u_bad by lia. by rewrite Hchk.
Qed.

(** The receive-speed estimate panics exactly when no packet has arrived yet (the
    median of an empty window is taken); otherwise it is a [u32], and it is 0 until
    at least 8 inter-arrival times agree with their median up to a factor of 8.
    The bandwidth estimate never panics. *)
Theorem speed_estimates f : flow_wf f →
  (if decide (UdtFlow.arrival_window f = []) then UdtFlow.get_pkt_rcv_speed f = Panic
   else ∃ v, UdtFlow.get_pkt_rcv_speed f = Ok v ∧ 0 <= v <= U32_MAX
     ∧ ((length (UdtFlow.arrival_window f) < 8)%nat → v = 0))
  ∧ ∃ w, UdtFlow.get_bandwidth f = Ok w ∧ 0 <= w <= U32_MAX
     ∧ (UdtFlow.probe_window f = [] → w = 0).
Proof.
  intros Hf. split.
  - case_decide as Hw; [unfold UdtFlow.get_pkt_rcv_speed; by rewrite Hw|].
    destruct (near_median_ok _ Hw (flow_arrival_sane f Hf)) as (kept & Hk & Hsane & Hlen).
    unfold UdtFlow.get_pkt_rcv_speed. rewrite Hk. cbn [mbind outcome_bind].
    pose proof (flow_arrivals f Hf) as Ha. unfold ARRIVAL_WINDOW_SIZE in *.
    destruct (Nat.ltb_spec (length kept) (16 / 2)); [eexists; split; [done|]; lia|].
    destruct (dur_sum_ok kept Hsane) as (s & -> & _); [lia|]. cbn [mbind outcome_bind].
    eexists. split; [done|]. split; [apply per_second_range|]. change (16 / 2)%nat with 8%nat in *. lia.
  - unfold UdtFlow.get_bandwidth. destruct (UdtFlow.probe_window f) as [|d l] eqn:Hw.
    { exists 0. split; [done|lia]. }
    pose proof (flow_probe_sane f Hf) as Hs. pose proof (flow_probes f Hf) as Hp. rewrite Hw in Hs, Hp.
    destruct (near_median_ok (d :: l)) as (kept & -> & Hsane & Hlen); [done..|].
    cbn [mbind outcome_bind]. unfold PROBE_WINDOW_SIZE in Hp.
    destruct (dur_sum_ok kept Hsane) as (s & -> & _); [lia|]. cbn [mbind outcome_bind].
    case_match; eexists; (split; [done|]); [lia|]. split; [apply per_second_range|done].
Qed.

(** ** Witnesses *)

(** 16 packets, one every 10 microseconds. *)
Definition sample_times : list Z := map (λ i, i * 10000) (seqZ 1 17).
Definition sample_flow : UdtFlow.t :=
  foldl (λ f now, UdtFlow.on_pkt_arrival now f) (UdtFlow.default 0) sample_times.

Example speed_of_sample : UdtFlow.get_pkt_rcv_speed sample_flow = Ok 100000.
Proof. by vm_compute. Qed.

Lemma arrival_window_history_witness :
  UdtFlow.arrival_window sample_flow = drop 1 (gaps 0 sample_times).
Proof. apply (arrival_window_history sample_times (UdtFlow.default 0)). done. Defined.

Lemma rtt_smoothing_witness :
  ∃ f1 f2, UdtFlow.update_rtt 0 (UdtFlow.default 0) = Ok f1
  ∧ UdtFlow.update_rtt_var 0 (UdtFlow.default 0) = Ok f2
  ∧ 0 <= UdtFlow.rtt f1 <= 100000000.
Proof.
  destruct (rtt_smoothing (UdtFlow.default 0) 0) as (f1 & f2 & E1 & E2 & Hb & _);
    [by split; vm_compute..|].
  exists f1, f2. split; [exact E1|]. split; [exact E2|exact Hb].
Defined.

Lemma peer_report_smoothing_witness :
  @UdtFlow.update_bandwidth true U32_MAX (UdtFlow.default 0) = Panic.
Proof.
  by apply (@peer_report_smoothing true (UdtFlow.default 0) U32_MAX).
Defined.

Lemma speed_estimates_witness :
  UdtFlow.get_pkt_rcv_speed (UdtFlow.default 0) = Panic.
Proof. apply (speed_estimates (UdtFlow.default 0)), flow_wf_default. Defined.
