(* ===== verification/configuration.v ===== *)
(** * Configuration ([src/configuration.rs]) *)

From S2P Require Import prelude time.

Definition DEFAULT_MSS : Z := 1500.
Definition DEFAULT_UDT_BUF_SIZE : Z := 81920.
Definition DEFAULT_UDP_BUF_SIZE : Z := 8000000.
Definition UDT_VERSION : Z := 4.

Module UdtConfiguration.
Record t := mk {
  mss : Z;
  flight_flag_size : Z;
  snd_buf_size : Z;
  rcv_buf_size : Z;
  udp_snd_buf_size : Z;
  udp_rcv_buf_size : Z;
  udp_reuse_port : bool;
  reuse_mux : bool;
  rendezvous : bool;
  accept_queue_size : Z;
  linger_timeout : option Z
}.

Definition udt_version (_ : t) : Z := UDT_VERSION.

Definition default : t :=
  mk DEFAULT_MSS 256000 DEFAULT_UDT_BUF_SIZE (DEFAULT_UDT_BUF_SIZE * 2)
     DEFAULT_UDP_BUF_SIZE DEFAULT_UDP_BUF_SIZE false true false 1000 (Some (from_secs 10)).

Definition set_mss (v : Z) (c : t) : t :=
  mk v (flight_flag_size c) (snd_buf_size c) (rcv_buf_size c) (udp_snd_buf_size c)
     (udp_rcv_buf_size c) (udp_reuse_port c) (reuse_mux c) (rendezvous c)
     (accept_queue_size c) (linger_timeout c).

Definition set_flight_flag_size (v : Z) (c : t) : t :=
  mk (mss c) v (snd_buf_size c) (rcv_buf_size c) (udp_snd_buf_size c)
     (udp_rcv_buf_size c) (udp_reuse_port c) (reuse_mux c) (rendezvous c)
     (accept_queue_size c) (linger_timeout c).
End UdtConfiguration.
