(* ===== verification/rate_control.v ===== *)
(** * Rate control ([src/rate_control.rs])

    The congestion window and the packet sending period.  Durations are
    nanoseconds, the window and the packet size [f64].  A state update returns an
    [outcome]: [Duration] arithmetic and the conversions from [f64] can panic. *)

From S2P Require Import prelude seq_number time float flow.

(** [socket.rs]: the synchronisation interval of the protocol. *)
Definition SYN_INTERVAL : Z := from_millis 10.

Module RateControl.
Record t := mk {
  pkt_send_period : Z;
  congestion_window_size : f64;
  max_window_size : f64;
  recv_rate : Z;
  bandwidth : Z;
  rtt : Z;
  mss : f64;
  curr_snd_seq_number : Z;
  rc_interval : Z;
  last_rate_increase : Z;
  slow_start : bool;
  last_ack : Z;
  loss : bool;
  last_dec_seq : Z;
  last_dec_period : Z;
  nak_count : Z;
  dec_random : Z;
  avg_nak_num : Z;
  dec_count : Z;
  ack_period : Z;
  ack_pkt_interval : Z
}.

Definition new (now : Z) : t :=
  mk (from_micros 1) (F64.of_Z 16) (F64.of_Z 16) 0 0 0 (F64.of_Z 1500)
     0 SYN_INTERVAL now true 0 false (0 ⊕ -1) (from_micros 1) 0 1 0 0 SYN_INTERVAL 0.

Definition init (now mss : Z) (flow : UdtFlow.t) (seq_number : Z) (r : t) : t :=
  mk (pkt_send_period r) (congestion_window_size r)
     (F64.of_Z (UdtFlow.flow_window_size flow))
     (UdtFlow.peer_delivery_rate flow) (UdtFlow.peer_bandwidth flow) (UdtFlow.rtt flow)
     (F64.of_Z mss) seq_number (rc_interval r) now true seq_number false (seq_number ⊕ -1)
     (last_dec_period r) (nak_count r) (dec_random r) (avg_nak_num r) (dec_count r)
     (ack_period r) (ack_pkt_interval r).

Definition get_pkt_send_period (r : t) : Z := pkt_send_period r.
Definition get_congestion_window_size (r : t) : Z := F64.to_u 32 (congestion_window_size r).
Definition get_ack_pkt_interval (r : t) : Z := ack_pkt_interval r.
Definition get_ack_period (r : t) : Z := Z.min SYN_INTERVAL (ack_period r).

Definition set_rtt (v : Z) (r : t) : t :=
  mk (pkt_send_period r) (congestion_window_size r) (max_window_size r) (recv_rate r)
     (bandwidth r) v (mss r) (curr_snd_seq_number r) (rc_interval r) (last_rate_increase r)
     (slow_start r) (last_ack r) (loss r) (last_dec_seq r) (last_dec_period r) (nak_count r)
     (dec_random r) (avg_nak_num r) (dec_count r) (ack_period r) (ack_pkt_interval r).

Definition set_rcv_rate (v : Z) (r : t) : t :=
  mk (pkt_send_period r) (congestion_window_size r) (max_window_size r) v
     (bandwidth r) (rtt r) (mss r) (curr_snd_seq_number r) (rc_interval r) (last_rate_increase r)
     (slow_start r) (last_ack r) (loss r) (last_dec_seq r) (last_dec_period r) (nak_count r)
     (dec_random r) (avg_nak_num r) (dec_count r) (ack_period r) (ack_pkt_interval r).

Definition set_bandwidth (v : Z) (r : t) : t :=
  mk (pkt_send_period r) (congestion_window_size r) (max_window_size r) (recv_rate r)
     v (rtt r) (mss r) (curr_snd_seq_number r) (rc_interval r) (last_rate_increase r)
     (slow_start r) (last_ack r) (loss r) (last_dec_seq r) (last_dec_period r) (nak_count r)
     (dec_random r) (avg_nak_num r) (dec_count r) (ack_period r) (ack_pkt_interval r).

Definition set_pkt_interval (v : Z) (r : t) : t :=
  mk (pkt_send_period r) (congestion_window_size r) (max_window_size r) (recv_rate r)
     (bandwidth r) (rtt r) (mss r) (curr_snd_seq_number r) (rc_interval r) (last_rate_increase r)
     (slow_start r) (last_ack r) (loss r) (last_dec_seq r) (last_dec_period r) (nak_count r)
     (dec_random r) (avg_nak_num r) (dec_count r) (ack_period r) v.

Definition set_curr_snd_seq_number (v : Z) (r : t) : t :=
  mk (pkt_send_period r) (congestion_window_size r) (max_window_size r) (recv_rate r)
     (bandwidth r) (rtt r) (mss r) v (rc_interval r) (last_rate_increase r)
     (slow_start r) (last_ack r) (loss r) (last_dec_seq r) (last_dec_period r) (nak_count r)
     (dec_random r) (avg_nak_num r) (dec_count r) (ack_period r) (ack_pkt_interval r).

(** Assignments to [pkt_send_period], to the window with its slow-start data, and to
    the fields that describe losses. *)
Definition set_period (v : Z) (r : t) : t :=
  mk v (congestion_window_size r) (max_window_size r) (recv_rate r)
     (bandwidth r) (rtt r) (mss r) (curr_snd_seq_number r) (rc_interval r) (last_rate_increase r)
     (slow_start r) (last_ack r) (loss r) (last_dec_seq r) (last_dec_period r) (nak_count r)
     (dec_random r) (avg_nak_num r) (dec_count r) (ack_period r) (ack_pkt_interval r).

Definition set_window (now : Z) (cwnd : f64) (ss : bool) (ack : Z) (r : t) : t :=
  mk (pkt_send_period r) cwnd (max_window_size r) (recv_rate r)
     (bandwidth r) (rtt r) (mss r) (curr_snd_seq_number r) (rc_interval r) now
     ss ack (loss r) (last_dec_seq r) (last_dec_period r) (nak_count r)
     (dec_random r) (avg_nak_num r) (dec_count r) (ack_period r) (ack_pkt_interval r).

Definition set_slow_start (ss : bool) (r : t) : t :=
  set_window (last_rate_increase r) (congestion_window_size r) ss (last_ack r) r.

Definition set_loss (v : bool) (r : t) : t :=
  mk (pkt_send_period r) (congestion_window_size r) (max_window_size r) (recv_rate r)
     (bandwidth r) (rtt r) (mss r) (curr_snd_seq_number r) (rc_interval r) (last_rate_increase r)
     (slow_start r) (last_ack r) v (last_dec_seq r) (last_dec_period r) (nak_count r)
     (dec_random r) (avg_nak_num r) (dec_count r) (ack_period r) (ack_pkt_interval r).

Definition set_decrease (dec_seq dec_period naks random avg count : Z) (r : t) : t :=
  mk (pkt_send_period r) (congestion_window_size r) (max_window_size r) (recv_rate r)
     (bandwidth r) (rtt r) (mss r) (curr_snd_seq_number r) (rc_interval r) (last_rate_increase r)
     (slow_start r) (last_ack r) (loss r) dec_seq dec_period naks
     random avg count (ack_period r) (ack_pkt_interval r).

Definition MIN_INC : f64 := F64.lit 1 100.

(** [Duration::from_secs(1) / recv_rate], or the window spread over the round trip. *)
Definition rate_period (r : t) : outcome Z :=
  if recv_rate r >? 0 then dur_div (from_secs 1) (recv_rate r)
  else s ← dur_add (rtt r) (rc_interval r); F64.div_f64 s (congestion_window_size r).

(** The bandwidth still free, and the increase of the rate it allows. *)
Definition spare_bandwidth (r : t) : f64 :=
  let bw := F64.of_Z (bandwidth r) in
  let b := F64.sub bw (F64.div (F64.of_Z 1) (F64.as_secs_f64 (pkt_send_period r))) in
  if (pkt_send_period r >? last_dec_period r) && F64.lt (F64.div bw (F64.of_Z 9)) b
  then F64.div bw (F64.of_Z 9) else b.

Definition rate_increase `{FloatLib} (r : t) : f64 :=
  let b := spare_bandwidth r in
  if F64.le b (F64.of_Z 0) then MIN_INC
  else
    let inc := F64.div (F64.mul (pow10 (F64.ceil (log10 (F64.mul (F64.mul b (mss r)) (F64.of_Z 8)))))
                                (F64.lit 15 10000000)) (mss r) in
    if F64.lt inc MIN_INC then MIN_INC else inc.

Definition on_ack `{Profile} `{FloatLib} (now ack : Z) (r : t) : outcome t :=
  if duration_since now (last_rate_increase r) <? rc_interval r then Ok r else
  r ← (if slow_start r then
         d ← ack ⊖ last_ack r;
         let cwnd := F64.add (congestion_window_size r) (F64.of_Z d) in
         if F64.lt (max_window_size r) cwnd then
           let r := set_window now cwnd false ack r in
           p ← rate_period r; Ok (set_period p r)
         else Ok (set_window now cwnd true ack r)
       else
         s ← dur_add (rtt r) (rc_interval r);
         Ok (set_window now
               (F64.add (F64.mul (F64.of_Z (recv_rate r)) (F64.as_secs_f64 s)) (F64.of_Z 16))
               false (last_ack r) r));
  if slow_start r then Ok r
  else if loss r then Ok (set_loss false r)
  else
    inc ← F64.mul_f64 (pkt_send_period r) (rate_increase r);
    d ← dur_add inc (rc_interval r);
    p ← F64.from_secs_f64 (F64.div (F64.mul (F64.as_secs_f64 (pkt_send_period r))
                                            (F64.as_secs_f64 (rc_interval r)))
                                   (F64.as_secs_f64 d));
    Ok (set_period p r).

(** [random] is [gen_range(1..=avg_nak_num)]. *)
Definition on_loss `{Profile} (random : Z → Z) (loss_seq : Z) (r : t) : outcome t :=
  let starting := slow_start r in
  r ← (if starting then p ← rate_period r; Ok (set_period p (set_slow_start false r)) else Ok r);
  if starting && (recv_rate r >? 0) then Ok r else
  let r := set_loss true r in
  d ← loss_seq ⊖ last_dec_seq r;
  if d >? 0 then
    p ← F64.mul_f64 (pkt_send_period r) (F64.lit 1125 1000);
    let avg := F64.to_u 64 (F64.ceil (F64.add
                 (F64.mul (F64.of_Z (avg_nak_num r)) (F64.lit 875 1000))
                 (F64.mul (F64.of_Z (nak_count r)) (F64.lit 125 1000)))) in
    Ok (set_period p (set_decrease (curr_snd_seq_number r) (pkt_send_period r) 1
          (if avg =? 0 then 1 else random avg) avg 1 r))
  else
    dec_count ← arith_u 64 (dec_count r + 1);
    let r := set_decrease (last_dec_seq r) (last_dec_period r) (nak_count r) (dec_random r)
               (avg_nak_num r) dec_count r in
    if dec_count <=? 5 then
      nak_count ← arith_u 64 (nak_count r + 1);
      let r := set_decrease (last_dec_seq r) (last_dec_period r) nak_count (dec_random r)
                 (avg_nak_num r) dec_count r in
      if dec_random r =? 0 then Panic
      else if nak_count mod dec_random r =? 0 then
        p ← F64.mul_f64 (pkt_send_period r) (F64.lit 1125 1000);
        Ok (set_period p (set_decrease (curr_snd_seq_number r) (last_dec_period r) nak_count
              (dec_random r) (avg_nak_num r) dec_count r))
      else Ok r
    else Ok r.

Definition on_timeout (r : t) : outcome t :=
  if slow_start r then
    let r := set_slow_start false r in p ← rate_period r; Ok (set_period p r)
  else Ok r.
End RateControl.

(** ** Properties *)

(** Leaving slow start: when the peer has reported a receive rate, the first
    expiry or the first loss sets the sending period to one second divided by that
    rate and ends slow start for good; that first loss is not itself recorded as a
    loss, and later expiries change nothing. *)
Theorem slow_start_exit `{Profile} random loss_seq r :
  0 < RateControl.recv_rate r → RateControl.slow_start r = true →
  ∃ r', RateControl.on_timeout r = Ok r' ∧ RateControl.on_loss random loss_seq r = Ok r'
  ∧ RateControl.slow_start r' = false ∧ RateControl.loss r' = RateControl.loss r
  ∧ RateControl.pkt_send_period r' = 1000000000 / RateControl.recv_rate r
  ∧ RateControl.congestion_window_size r' = RateControl.congestion_window_size r
  ∧ RateControl.on_timeout r' = Ok r'.
Proof.
  intros Hr Hs. unfold RateControl.on_timeout, RateControl.on_loss, RateControl.rate_period.
  rewrite Hs. cbn [RateControl.recv_rate RateControl.set_slow_start RateControl.set_window].
  rewrite (proj2 (Z.gtb_lt _ 0)) by done. unfold dur_div. rewrite (proj2 (Z.eqb_neq _ 0)) by lia.
  cbn [mbind outcome_bind andb RateControl.recv_rate RateControl.set_period
    RateControl.set_slow_start RateControl.set_window].
  rewrite (proj2 (Z.gtb_lt _ 0)) by done. by eexists.
Qed.

(** Losses of one congestion epoch (numbers up to [last_dec_seq], away from the
    wrap-around point) slow the sender down at most five more times: from the sixth on
    only the count of losses changes.  The first loss of a new epoch is remembered with
    the period it found and starts the count again. *)
Theorem on_loss_epochs `{Profile} random loss_seq r r' :
  RateControl.slow_start r = false → valid loss_seq → valid (RateControl.last_dec_seq r) →
  Z.abs (loss_seq - RateControl.last_dec_seq r) < 2 ^ 30 →
  0 <= RateControl.dec_count r < 2 ^ 63 →
  RateControl.on_loss random loss_seq r = Ok r' →
  RateControl.loss r' = true ∧ RateControl.slow_start r' = false
  ∧ if loss_seq <=? RateControl.last_dec_seq r then
      RateControl.dec_count r' = RateControl.dec_count r + 1
      ∧ (5 <= RateControl.dec_count r →
           RateControl.pkt_send_period r' = RateControl.pkt_send_period r
           ∧ RateControl.last_dec_seq r' = RateControl.last_dec_seq r)
    else RateControl.dec_count r' = 1 ∧ RateControl.nak_count r' = 1
      ∧ RateControl.last_dec_period r' = RateControl.pkt_send_period r
      ∧ RateControl.last_dec_seq r' = RateControl.curr_snd_seq_number r.
Proof.
  intros Hs Hv Hd Hnear Hcnt. unfold RateControl.on_loss. rewrite Hs. cbn [mbind outcome_bind andb].
  cbn [RateControl.last_dec_seq RateControl.set_loss]. rewrite seq_sub_near by (done || lia).
  cbn [mbind outcome_bind]. rewrite (Z.gtb_ltb _ 0).
  destruct (Z.ltb_spec 0 (loss_seq - RateControl.last_dec_seq r)), (Z.leb_spec loss_seq (RateControl.last_dec_seq r));
    try lia.
  - intros (p & _ & <-%(inj Ok))%bind_is_Ok. by rewrite <- Hs.
  - cbn [RateControl.dec_count RateControl.set_loss]. rewrite arith_u_ok by lia. cbn [mbind outcome_bind].
    destruct (Z.leb_spec (RateControl.dec_count r + 1) 5).
    + intros (n & _ & E)%bind_is_Ok. revert E. cbv zeta. case_match; [done|]. case_match.
      * intros (p & _ & <-%(inj Ok))%bind_is_Ok. simpl. split_and!; (done || lia).
      * intros <-%(inj Ok). simpl. split_and!; (done || lia).
    + intros <-%(inj Ok). simpl. split_and!; done.
Qed.

(** ** Witnesses *)

(** A rate control after the handshake, and one that has left slow start. *)
Definition sample_rate : RateControl.t :=
  RateControl.init 0 1500 (UdtFlow.default 0) 100 (RateControl.new 0).

Lemma slow_start_exit_witness :
  ∃ r', RateControl.on_timeout sample_rate = Ok r' ∧ RateControl.pkt_send_period r' = 62500000.
Proof.
  destruct (@slow_start_exit true (λ _, 1) 50 sample_rate) as (r' & E & _ & _ & _ & Hp & _);
    [done|done|]. exists r'. split; [exact E|exact Hp].
Defined.

Definition sample_epoch : RateControl.t :=
  RateControl.set_decrease 200 1000 3 1 2 5 (RateControl.set_slow_start false sample_rate).

Lemma on_loss_epochs_witness :
  ∃ r', @RateControl.on_loss true (λ _, 1) 150 sample_epoch = Ok r'
  ∧ RateControl.dec_count r' = 6 ∧ RateControl.pkt_send_period r' = 1000.
Proof.
  destruct (@RateControl.on_loss true (λ _, 1) 150 sample_epoch) as [r'| |] eqn:E;
    [|vm_compute in E; done..].
  destruct (@on_loss_epochs true (λ _, 1) 150 sample_epoch r') as (_ & _ & Hc & Hp);
    [done|done|done|by vm_compute|by vm_compute|exact E|].
  exists r'. split; [done|]. split; [exact Hc|]. by apply Hp.
Defined.
