(* ===== verification/socket_state.v ===== *)
(** * Protocol state of a socket ([src/state/socket_state.rs]) *)

From S2P Require Import prelude seq_number time loss_list ack_window rate_control.

Module SocketState.
Record t := mk {
  last_rsp_time : Z;
  (* receiving *)
  last_sent_ack : Z;
  last_sent_ack_time : Z;
  curr_rcv_seq_number : Z;
  last_ack_seq_number : Z;
  rcv_loss_list : LossList.t;
  last_ack2_received : Z;
  (* sending *)
  last_ack_received : Z;
  last_data_ack_processed : Z;
  last_ack2_sent_back : Z;
  curr_snd_seq_number : Z;
  last_ack2_time : Z;
  snd_loss_list : LossList.t;
  (* timers *)
  next_ack_time : Z;
  interpacket_interval : Z;
  interpacket_time_diff : Z;
  pkt_count : Z;
  light_ack_counter : Z;
  exp_count : Z;
  next_data_target_time : Z;
  ack_window : AckWindow.t
}.

Definition new (now isn : Z) : t :=
  mk now (isn ⊕ -1) now (isn ⊕ -1) 0 LossList.new isn
     isn isn isn (isn ⊕ -1) now LossList.new
     (now + SYN_INTERVAL) (from_micros 1) 0 0 0 1 now (AckWindow.new 1024).

(** Assignments, grouped by the fields that change together. *)
Definition set_rsp (exp time : Z) (s : t) : t :=
  mk time (last_sent_ack s) (last_sent_ack_time s) (curr_rcv_seq_number s) (last_ack_seq_number s)
     (rcv_loss_list s) (last_ack2_received s) (last_ack_received s) (last_data_ack_processed s)
     (last_ack2_sent_back s) (curr_snd_seq_number s) (last_ack2_time s) (snd_loss_list s)
     (next_ack_time s) (interpacket_interval s) (interpacket_time_diff s) (pkt_count s)
     (light_ack_counter s) exp (next_data_target_time s) (ack_window s).

Definition set_sent_ack (ack time ack_seq ack2 : Z) (s : t) : t :=
  mk (last_rsp_time s) ack time (curr_rcv_seq_number s) ack_seq
     (rcv_loss_list s) ack2 (last_ack_received s) (last_data_ack_processed s)
     (last_ack2_sent_back s) (curr_snd_seq_number s) (last_ack2_time s) (snd_loss_list s)
     (next_ack_time s) (interpacket_interval s) (interpacket_time_diff s) (pkt_count s)
     (light_ack_counter s) (exp_count s) (next_data_target_time s) (ack_window s).

Definition set_rcv (curr : Z) (losses : LossList.t) (s : t) : t :=
  mk (last_rsp_time s) (last_sent_ack s) (last_sent_ack_time s) curr (last_ack_seq_number s)
     losses (last_ack2_received s) (last_ack_received s) (last_data_ack_processed s)
     (last_ack2_sent_back s) (curr_snd_seq_number s) (last_ack2_time s) (snd_loss_list s)
     (next_ack_time s) (interpacket_interval s) (interpacket_time_diff s) (pkt_count s)
     (light_ack_counter s) (exp_count s) (next_data_target_time s) (ack_window s).

Definition set_ack_received (ack data_ack : Z) (s : t) : t :=
  mk (last_rsp_time s) (last_sent_ack s) (last_sent_ack_time s) (curr_rcv_seq_number s)
     (last_ack_seq_number s) (rcv_loss_list s) (last_ack2_received s) ack data_ack
     (last_ack2_sent_back s) (curr_snd_seq_number s) (last_ack2_time s) (snd_loss_list s)
     (next_ack_time s) (interpacket_interval s) (interpacket_time_diff s) (pkt_count s)
     (light_ack_counter s) (exp_count s) (next_data_target_time s) (ack_window s).

Definition set_ack2_sent (ack time : Z) (s : t) : t :=
  mk (last_rsp_time s) (last_sent_ack s) (last_sent_ack_time s) (curr_rcv_seq_number s)
     (last_ack_seq_number s) (rcv_loss_list s) (last_ack2_received s) (last_ack_received s)
     (last_data_ack_processed s) ack (curr_snd_seq_number s) time (snd_loss_list s)
     (next_ack_time s) (interpacket_interval s) (interpacket_time_diff s) (pkt_count s)
     (light_ack_counter s) (exp_count s) (next_data_target_time s) (ack_window s).

Definition set_snd (curr : Z) (losses : LossList.t) (s : t) : t :=
  mk (last_rsp_time s) (last_sent_ack s) (last_sent_ack_time s) (curr_rcv_seq_number s)
     (last_ack_seq_number s) (rcv_loss_list s) (last_ack2_received s) (last_ack_received s)
     (last_data_ack_processed s) (last_ack2_sent_back s) curr (last_ack2_time s) losses
     (next_ack_time s) (interpacket_interval s) (interpacket_time_diff s) (pkt_count s)
     (light_ack_counter s) (exp_count s) (next_data_target_time s) (ack_window s).

Definition set_ack_timer (next pkts light : Z) (s : t) : t :=
  mk (last_rsp_time s) (last_sent_ack s) (last_sent_ack_time s) (curr_rcv_seq_number s)
     (last_ack_seq_number s) (rcv_loss_list s) (last_ack2_received s) (last_ack_received s)
     (last_data_ack_processed s) (last_ack2_sent_back s) (curr_snd_seq_number s)
     (last_ack2_time s) (snd_loss_list s)
     next (interpacket_interval s) (interpacket_time_diff s) pkts
     light (exp_count s) (next_data_target_time s) (ack_window s).

Definition set_pacing (interval diff target : Z) (s : t) : t :=
  mk (last_rsp_time s) (last_sent_ack s) (last_sent_ack_time s) (curr_rcv_seq_number s)
     (last_ack_seq_number s) (rcv_loss_list s) (last_ack2_received s) (last_ack_received s)
     (last_data_ack_processed s) (last_ack2_sent_back s) (curr_snd_seq_number s)
     (last_ack2_time s) (snd_loss_list s)
     (next_ack_time s) interval diff (pkt_count s)
     (light_ack_counter s) (exp_count s) target (ack_window s).

Definition set_ack_window (w : AckWindow.t) (s : t) : t :=
  mk (last_rsp_time s) (last_sent_ack s) (last_sent_ack_time s) (curr_rcv_seq_number s)
     (last_ack_seq_number s) (rcv_loss_list s) (last_ack2_received s) (last_ack_received s)
     (last_data_ack_processed s) (last_ack2_sent_back s) (curr_snd_seq_number s)
     (last_ack2_time s) (snd_loss_list s)
     (next_ack_time s) (interpacket_interval s) (interpacket_time_diff s) (pkt_count s)
     (light_ack_counter s) (exp_count s) (next_data_target_time s) w.
End SocketState.
