(* ===== verification/world.v ===== *)
(** * Effects

    A method of a socket runs in [M]: it may fail ([Err], by [?] or [return Err]),
    panic, read the clock, and emit events, and the changes made before a failure
    persist.  What the operating system decides is the environment [Env]. *)

From S2P Require Import prelude control_packet packet.

(** [std::net::SocketAddr]. *)
Record SocketAddr := { ip : IpAddr; port : Z }.
#[export] Instance SocketAddr_eq_dec : EqDecision SocketAddr.
Proof. solve_decision. Defined.

Inductive Notifier := AcceptNotify | ConnectNotify | RcvNotify | AckNotify.
#[export] Instance Notifier_eq_dec : EqDecision Notifier.
Proof. solve_decision. Defined.

(** What a socket does to the rest of the system. *)
Inductive event :=
  | SendTo (addr : SocketAddr) (packet : UdtPacket)
  | SndQueueUpdate (socket_id : Z) (reschedule : bool)
  | SndQueueRemove (socket_id : Z)
  | RcvQueuePushBack (socket_id : Z)
  | NotifyWaiters (n : Notifier)
  | NotifyOne (n : Notifier)
  | ClearListener (socket_id : Z).

(** [clock n] is the [n]-th reading of [Instant::now()], [send_result n] the result of
    the UDP send that is the [n]-th event, [writable_result n] that of the wait, before the
    [n]-th event, until the UDP socket is writable, [random n] the value drawn from [1..=n],
    [cookie_hash] the first four bytes of the SHA-256 of salt, host, port and minute. *)
Class Env := {
  clock : nat → Z;
  send_result : nat → option ErrorKind;
  writable_result : nat → option ErrorKind;
  random : Z → Z;
  cookie_hash : IpAddr → Z → Z → Z
}.

Section monad.
Context {St : Type}.

Record world := World { sock : St; ticks : nat; trace : list event }.

Definition M (A : Type) : Type := world → outcome A * world.

#[export] Instance M_ret : MRet M := λ A a w, (Ok a, w).
#[export] Instance M_bind : MBind M := λ A B f m w,
  match m w with
  | (Ok a, w) => f a w
  | (Err e, w) => (Err e, w)
  | (Panic, w) => (Panic, w)
  end.

Definition lift {A} (o : outcome A) : M A := λ w, (o, w).
Definition throw {A} (e : ErrorKind) : M A := λ w, (Err e, w).
Definition get : M St := λ w, (Ok (sock w), w).
Definition gets {A} (f : St → A) : M A := λ w, (Ok (f (sock w)), w).
Definition modify (f : St → St) : M unit := λ w, (Ok (), World (f (sock w)) (ticks w) (trace w)).
Definition emit (e : event) : M unit := λ w, (Ok (), World (sock w) (ticks w) (trace w ++ [e])).

(** A state update that can panic or fail: on failure the old state remains. *)
Definition update (f : St → outcome St) : M unit := λ w,
  match f (sock w) with
  | Ok s => (Ok (), World s (ticks w) (trace w))
  | Err e => (Err e, w)
  | Panic => (Panic, w)
  end.

Definition now `{Env} : M Z := λ w, (Ok (clock (ticks w)), World (sock w) (S (ticks w)) (trace w)).

(** [n] readings of the clock, as the function of their index. *)
Definition nows `{Env} (n : nat) : M (nat → Z) := λ w,
  (Ok (λ i, clock (ticks w + i)), World (sock w) (ticks w + n) (trace w)).

(** [mux.send_to(addr, packet).await]: the packet is serialised and handed to the UDP
    socket, which may refuse it. *)
Definition udp_send `{Env} (addr : SocketAddr) (packet : UdtPacket) : M unit := λ w,
  (match send_result (length (trace w)) with Some e => Err e | None => Ok () end,
   World (sock w) (ticks w) (trace w ++ [SendTo addr packet])).

(** [channel.writable().await]. *)
Definition udp_writable `{Env} : M unit := λ w,
  (match writable_result (length (trace w)) with Some e => Err e | None => Ok () end, w).

Definition mux_send_to `{Profile} `{Env} (addr : SocketAddr) (packet : UdtPacket) : M unit :=
  _ ← lift (UdtPacket.serialize packet); udp_send addr packet.

(** [m.await.unwrap_or_else(|_| ())]: errors are dropped, panics are not. *)
Definition ignore_error (m : M unit) : M unit := λ w,
  match m w with
  | (Err _, w) => (Ok (), w)
  | r => r
  end.

Definition when (b : bool) (m : M unit) : M unit := if b then m else mret ().
End monad.
Arguments world : clear implicits.
Arguments M : clear implicits.

(** ** Reasoning about effects

    [steps R m]: every run of [m], however it ends, relates the socket before to the
    socket after by [R]. *)

Section steps.
Context {St : Type} (R : St → St → Prop) `{!PreOrder R}.

Definition all_steps {A} (m : M St A) : Prop := ∀ w, R (sock w) (sock (m w).2).

Lemma steps_ret {A} (a : A) : all_steps (mret a).
Proof. intros w. simpl. reflexivity. Qed.

Lemma steps_bind {A B} (m : M St A) (f : A → M St B) :
  all_steps m → (∀ a, all_steps (f a)) → all_steps (m ≫= f).
Proof.
  intros Hm Hf w. specialize (Hm w). unfold mbind, M_bind.
  destruct (m w) as [[a|e|] w']; simpl in *; [|done..].
  etransitivity; [done|apply Hf].
Qed.

Lemma steps_lift {A} (o : outcome A) : all_steps (lift o).
Proof. intros w. simpl. reflexivity. Qed.
Lemma steps_throw {A} e : all_steps (@throw St A e).
Proof. intros w. simpl. reflexivity. Qed.
Lemma steps_get : all_steps get.
Proof. intros w. simpl. reflexivity. Qed.
Lemma steps_gets {A} (f : St → A) : all_steps (gets f).
Proof. intros w. simpl. reflexivity. Qed.
Lemma steps_emit e : all_steps (emit e).
Proof. intros w. simpl. reflexivity. Qed.
Lemma steps_now `{Env} : all_steps now.
Proof. intros w. simpl. reflexivity. Qed.
Lemma steps_nows `{Env} n : all_steps (nows n).
Proof. intros w. simpl. reflexivity. Qed.
Lemma steps_udp_send `{Env} addr p : all_steps (udp_send addr p).
Proof. intros w. simpl. reflexivity. Qed.
Lemma steps_udp_writable `{Env} : all_steps udp_writable.
Proof. intros w. simpl. reflexivity. Qed.
Lemma steps_mux_send_to `{Profile} `{Env} addr p : all_steps (mux_send_to addr p).
Proof. apply steps_bind; [apply steps_lift|intros _; apply steps_udp_send]. Qed.

Lemma steps_ignore_error m : all_steps m → all_steps (ignore_error m).
Proof.
  intros Hm w. specialize (Hm w). unfold ignore_error.
  destruct (m w) as [[a|e|] w']; done.
Qed.

Lemma steps_when (b : bool) m : (b = true → all_steps m) → all_steps (when b m).
Proof. intros Hm. destruct b; [by apply Hm|apply steps_ret]. Qed.

Lemma steps_modify f : (∀ s, R s (f s)) → all_steps (modify f).
Proof. intros Hf w. simpl. apply Hf. Qed.

Lemma steps_update f : (∀ s s', f s = Ok s' → R s s') → all_steps (update f).
Proof.
  intros Hf w. unfold update. destruct (f (sock w)) eqn:E; simpl; [by apply Hf|reflexivity..].
Qed.
End steps.

(** The same for a relation on whole worlds: what is emitted, what the socket becomes. *)
Section runs.
Context {St : Type} (R : world St → world St → Prop) `{!PreOrder R}.

Definition all_runs {A} (m : M St A) : Prop := ∀ w, R w (m w).2.

Lemma runs_id {A} (m : M St A) : (∀ w, (m w).2 = w) → all_runs m.
Proof. intros Hm w. by rewrite Hm. Qed.

Lemma runs_bind {A B} (m : M St A) (f : A → M St B) :
  all_runs m → (∀ a, all_runs (f a)) → all_runs (m ≫= f).
Proof.
  intros Hm Hf w. specialize (Hm w). unfold mbind, M_bind.
  destruct (m w) as [[a|e|] w']; simpl in *; [|done..].
  etransitivity; [done|apply Hf].
Qed.

Lemma runs_when (b : bool) m : all_runs m → all_runs (when b m).
Proof. destruct b; [done|]. intros _. by apply runs_id. Qed.
End runs.

(** A relation on worlds given by what may become of the object and what may be emitted. *)
Section evolves.
Context {St : Type} (R : St → St → Prop) (E : event → Prop) `{!PreOrder R}.

Definition evolves (w w' : world St) : Prop :=
  R (sock w) (sock w') ∧ ∃ evs, trace w' = trace w ++ evs ∧ Forall E evs.

#[export] Instance evolves_preorder : PreOrder evolves.
Proof.
  split.
  - intros w. split; [reflexivity|]. exists []. by rewrite app_nil_r.
  - intros w1 w2 w3 [H1 (e1 & E1 & F1)] [H2 (e2 & E2 & F2)]. split; [by etransitivity|].
    exists (e1 ++ e2). rewrite E2, E1, <- app_assoc. split; [done|]. by apply Forall_app.
Qed.

Lemma evolves_modify f : (∀ s, R s (f s)) → all_runs evolves (modify f).
Proof. intros Hf w. split; [apply Hf|]. exists []. by rewrite app_nil_r. Qed.

Lemma evolves_update f : (∀ s s', f s = Ok s' → R s s') → all_runs evolves (update f).
Proof.
  intros Hf w. unfold update. destruct (f (sock w)) eqn:Ef; [|reflexivity..].
  split; [by apply Hf|]. exists []. by rewrite app_nil_r.
Qed.

Lemma evolves_emit e : E e → all_runs evolves (emit e).
Proof. intros He w. split; [reflexivity|]. exists [e]. split; [done|]. by constructor. Qed.

Lemma evolves_ret {A} (a : A) : all_runs evolves (mret a).
Proof. intros w. simpl. reflexivity. Qed.
Lemma evolves_lift {A} (o : outcome A) : all_runs evolves (lift o).
Proof. intros w. simpl. reflexivity. Qed.
Lemma evolves_throw {A} e : all_runs evolves (@throw St A e).
Proof. intros w. simpl. reflexivity. Qed.
Lemma evolves_get : all_runs evolves get.
Proof. intros w. simpl. reflexivity. Qed.
Lemma evolves_gets {A} (f : St → A) : all_runs evolves (gets f).
Proof. intros w. simpl. reflexivity. Qed.
Lemma evolves_now `{Env} : all_runs evolves now.
Proof. intros w. split; [reflexivity|]. exists []. by rewrite app_nil_r. Qed.
Lemma evolves_nows `{Env} n : all_runs evolves (nows n).
Proof. intros w. split; [reflexivity|]. exists []. by rewrite app_nil_r. Qed.

Lemma evolves_udp_writable `{Env} : all_runs evolves udp_writable.
Proof. intros w. simpl. reflexivity. Qed.

Lemma evolves_bind {A B} (m : M St A) (f : A → M St B) :
  all_runs evolves m → (∀ a, all_runs evolves (f a)) → all_runs evolves (m ≫= f).
Proof. apply runs_bind, _. Qed.
Lemma evolves_when b m : all_runs evolves m → all_runs evolves (when b m).
Proof. apply runs_when, _. Qed.

Lemma evolves_ignore_error m : all_runs evolves m → all_runs evolves (ignore_error m).
Proof. intros Hm w. specialize (Hm w). unfold ignore_error. by destruct (m w) as [[| |] ?]. Qed.

Lemma evolves_mux_send_to `{Profile} `{Env} addr p : E (SendTo addr p) → all_runs evolves (mux_send_to addr p).
Proof.
  intros Hp. apply evolves_bind; [apply evolves_lift|intros _ w]. split; [reflexivity|].
  exists [SendTo addr p]. split; [done|]. by constructor.
Qed.
End evolves.

Create HintDb world discriminated.
#[export] Hint Resolve steps_ret steps_lift steps_throw steps_get steps_gets steps_emit steps_now
  steps_nows steps_mux_send_to steps_udp_writable : world.

(** Goes through the body of a method that evolves by a relation: [fields] proves that an
    assignment does, [finish] is for the methods that it calls. *)
Ltac evolve fields finish :=
  repeat match goal with
  | |- ∀ _, _ => intro
  | |- all_runs _ (_ ≫= _) => apply evolves_bind
  | |- all_runs _ (when _ _) => apply evolves_when
  | |- all_runs _ (ignore_error _) => apply evolves_ignore_error
  | |- all_runs _ (modify _) => apply evolves_modify; [..|fields]
  | |- all_runs _ (update _) => apply evolves_update; [..|fields]
  | |- all_runs _ (if ?b then _ else _) => destruct b
  | |- all_runs _ (match ?x with _ => _ end) => destruct x
  | |- all_runs _ (let '_ := ?x in _) => destruct x
  | |- all_runs _ (mret _) => apply evolves_ret
  | |- all_runs _ (lift _) => apply evolves_lift
  | |- all_runs _ (throw _) => apply evolves_throw
  | |- all_runs _ get => apply evolves_get
  | |- all_runs _ (gets _) => apply evolves_gets
  | |- all_runs _ now => apply evolves_now
  | |- all_runs _ (nows _) => apply evolves_nows
  | |- all_runs _ (emit _) => apply evolves_emit
  | |- all_runs _ udp_writable => apply evolves_udp_writable
  | |- all_runs _ (mux_send_to _ _) => apply evolves_mux_send_to
  | |- PreOrder _ => apply _
  | _ => solve [finish]
  end.

(** Symbolic execution of the primitives. *)
Lemma bind_run {St A B} (m : M St A) (f : A → M St B) w :
  (m ≫= f) w = match m w with
               | (Ok a, w) => f a w
               | (Err e, w) => (Err e, w)
               | (Panic, w) => (Panic, w)
               end.
Proof. done. Qed.

Lemma update_run {St} (f : St → outcome St) w :
  update f w = match f (sock w) with
               | Ok s => (Ok (), World s (ticks w) (trace w))
               | Err e => (Err e, w)
               | Panic => (Panic, w)
               end.
Proof. done. Qed.

Ltac run := repeat (progress (rewrite ?bind_run, ?update_run;
  cbn [mbind mret M_ret now nows gets get modify emit lift update throw when
       udp_send sock ticks trace negb fst snd outcome_bind unwrap])).
