(* ===== verification/socket.v ===== *)
(** * Sockets ([src/socket.rs])

    The state of a [UdtSocket] and its methods.  A method runs without
    interruption between two [await]s; the mutexes are not modelled. *)

From S2P Require Import prelude seq_number time data_packet control_packet packet.
From S2P Require Import btree_map loss_list ack_window rcv_buffer snd_buffer float flow.
From S2P Require Import configuration rate_control socket_state world.

Definition MIN_EXP_INTERVAL : Z := from_millis 300.
Definition PACKETS_BETWEEN_LIGHT_ACK : Z := 64.

Inductive UdtStatus :=
  | Init | Opened | Listening | Connecting | Connected | Broken | Closing | Closed.
#[export] Instance UdtStatus_eq_dec : EqDecision UdtStatus.
Proof. solve_decision. Defined.

Module UdtStatus.
Definition is_alive (s : UdtStatus) : bool :=
  bool_decide (s ≠ Broken) && bool_decide (s ≠ Closing) && bool_decide (s ≠ Closed).
End UdtStatus.

(** Exhausting the fuel of a loss list is unbounded recursion: the stack overflows. *)
Definition LOSS_FUEL : nat := 2.
Definition run_loss {A} (o : option A) : outcome A := unwrap o.

Module UdtSocket.
Record t := mk {
  socket_id : Z;
  status : UdtStatus;
  socket_type : SocketType;
  listen_socket : option Z;
  peer_addr : option SocketAddr;
  peer_socket_id : option Z;
  initial_seq_number : Z;
  queued_sockets : list (Z * unit);
  multiplexer : option Z;
  configuration : UdtConfiguration.t;
  rcv_buffer : RcvBuffer.t;
  snd_buffer : SndBuffer.t;
  flow : UdtFlow.t;
  rate_control : RateControl.t;
  start_time : Z;
  state : SocketState.t
}.

(** [clock i] for [i < 4]: the readings for [start_time], the flow, the rate control and
    the protocol state. *)
Definition new (clock : nat → Z) (random_seq : Z) (socket_id : Z) (socket_type : SocketType)
    (isn : option Z) (configuration : option UdtConfiguration.t) : t :=
  let initial_seq_number := match isn with Some i => i | None => random_seq end in
  let configuration := match configuration with Some c => c | None => UdtConfiguration.default end in
  mk socket_id Init socket_type None None None initial_seq_number [] None configuration
     (RcvBuffer.new (UdtConfiguration.rcv_buf_size configuration) initial_seq_number)
     (SndBuffer.new (UdtConfiguration.snd_buf_size configuration))
     (UdtFlow.default (clock 1%nat)) (RateControl.new (clock 2%nat)) (clock 0%nat)
     (SocketState.new (clock 3%nat) initial_seq_number).

(** Assignments. *)
Definition set_status (v : UdtStatus) (s : t) : t :=
  mk (socket_id s) v (socket_type s) (listen_socket s) (peer_addr s) (peer_socket_id s)
     (initial_seq_number s) (queued_sockets s) (multiplexer s) (configuration s) (rcv_buffer s)
     (snd_buffer s) (flow s) (rate_control s) (start_time s) (state s).
Definition set_peer (addr : option SocketAddr) (id : option Z) (s : t) : t :=
  mk (socket_id s) (status s) (socket_type s) (listen_socket s) addr id
     (initial_seq_number s) (queued_sockets s) (multiplexer s) (configuration s) (rcv_buffer s)
     (snd_buffer s) (flow s) (rate_control s) (start_time s) (state s).
Definition set_listen (listener mux : option Z) (s : t) : t :=
  mk (socket_id s) (status s) (socket_type s) listener (peer_addr s) (peer_socket_id s)
     (initial_seq_number s) (queued_sockets s) mux (configuration s) (rcv_buffer s)
     (snd_buffer s) (flow s) (rate_control s) (start_time s) (state s).
Definition set_queued (q : list (Z * unit)) (s : t) : t :=
  mk (socket_id s) (status s) (socket_type s) (listen_socket s) (peer_addr s) (peer_socket_id s)
     (initial_seq_number s) q (multiplexer s) (configuration s) (rcv_buffer s)
     (snd_buffer s) (flow s) (rate_control s) (start_time s) (state s).
Definition set_configuration (v : UdtConfiguration.t) (s : t) : t :=
  mk (socket_id s) (status s) (socket_type s) (listen_socket s) (peer_addr s) (peer_socket_id s)
     (initial_seq_number s) (queued_sockets s) (multiplexer s) v (rcv_buffer s)
     (snd_buffer s) (flow s) (rate_control s) (start_time s) (state s).
Definition set_rcv_buffer (v : RcvBuffer.t) (s : t) : t :=
  mk (socket_id s) (status s) (socket_type s) (listen_socket s) (peer_addr s) (peer_socket_id s)
     (initial_seq_number s) (queued_sockets s) (multiplexer s) (configuration s) v
     (snd_buffer s) (flow s) (rate_control s) (start_time s) (state s).
Definition set_snd_buffer (v : SndBuffer.t) (s : t) : t :=
  mk (socket_id s) (status s) (socket_type s) (listen_socket s) (peer_addr s) (peer_socket_id s)
     (initial_seq_number s) (queued_sockets s) (multiplexer s) (configuration s) (rcv_buffer s)
     v (flow s) (rate_control s) (start_time s) (state s).
Definition set_flow (v : UdtFlow.t) (s : t) : t :=
  mk (socket_id s) (status s) (socket_type s) (listen_socket s) (peer_addr s) (peer_socket_id s)
     (initial_seq_number s) (queued_sockets s) (multiplexer s) (configuration s) (rcv_buffer s)
     (snd_buffer s) v (rate_control s) (start_time s) (state s).
Definition set_rate_control (v : RateControl.t) (s : t) : t :=
  mk (socket_id s) (status s) (socket_type s) (listen_socket s) (peer_addr s) (peer_socket_id s)
     (initial_seq_number s) (queued_sockets s) (multiplexer s) (configuration s) (rcv_buffer s)
     (snd_buffer s) (flow s) v (start_time s) (state s).
Definition set_state (v : SocketState.t) (s : t) : t :=
  mk (socket_id s) (status s) (socket_type s) (listen_socket s) (peer_addr s) (peer_socket_id s)
     (initial_seq_number s) (queued_sockets s) (multiplexer s) (configuration s) (rcv_buffer s)
     (snd_buffer s) (flow s) (rate_control s) (start_time s) v.

Definition open (s : t) : t := set_status Opened s.

(** [u32] subtractions, checked one by one. *)
Definition get_max_payload_size `{Profile} (s : t) : outcome Z :=
  let mss := UdtConfiguration.mss (configuration s) in
  let ip_udp := match peer_addr s with
                | Some {| ip := V6 _ |} => 40
                | _ => 28
                end in
  x ← arith_u 32 (mss - ip_udp);
  arith_u 32 (x - Z.of_nat UDT_DATA_HEADER_SIZE).

Definition set_peer_addr `{Profile} (peer : SocketAddr) (s : t) : outcome t :=
  let s := set_peer (Some peer) (peer_socket_id s) s in
  size ← get_max_payload_size s;
  Ok (set_snd_buffer (SndBuffer.set_payload_size (Z.to_nat size) (snd_buffer s)) s).

Definition with_peer `{Profile} (peer : SocketAddr) (peer_id : Z) (s : t) : outcome t :=
  s ← set_peer_addr peer s; Ok (set_peer (peer_addr s) (Some peer_id) s).

Definition with_listen_socket (listener mux : Z) (s : t) : t :=
  set_listen (Some listener) (Some mux) s.

Definition set_multiplexer (mux : Z) (s : t) : t := set_listen (listen_socket s) (Some mux) s.

Definition snd_buffer_is_empty (s : t) : bool := SndBuffer.is_empty (snd_buffer s).
End UdtSocket.

Notation "'SM' A" := (M UdtSocket.t A) (at level 10).

(** Access to the components inside [M]. *)
Definition gets_state {A} (f : SocketState.t → A) : SM A := gets (λ s, f (UdtSocket.state s)).
Definition modify_state (f : SocketState.t → SocketState.t) : SM unit :=
  modify (λ s, UdtSocket.set_state (f (UdtSocket.state s)) s).
Definition update_state (f : SocketState.t → outcome SocketState.t) : SM unit :=
  update (λ s, v ← f (UdtSocket.state s); Ok (UdtSocket.set_state v s)).
Definition update_flow (f : UdtFlow.t → outcome UdtFlow.t) : SM unit :=
  update (λ s, v ← f (UdtSocket.flow s); Ok (UdtSocket.set_flow v s)).
Definition modify_flow (f : UdtFlow.t → UdtFlow.t) : SM unit :=
  modify (λ s, UdtSocket.set_flow (f (UdtSocket.flow s)) s).
Definition update_rate_control (f : RateControl.t → outcome RateControl.t) : SM unit :=
  update (λ s, v ← f (UdtSocket.rate_control s); Ok (UdtSocket.set_rate_control v s)).
Definition modify_rate_control (f : RateControl.t → RateControl.t) : SM unit :=
  modify (λ s, UdtSocket.set_rate_control (f (UdtSocket.rate_control s)) s).
Definition modify_rcv_buffer (f : RcvBuffer.t → RcvBuffer.t) : SM unit :=
  modify (λ s, UdtSocket.set_rcv_buffer (f (UdtSocket.rcv_buffer s)) s).
Definition set_status (v : UdtStatus) : SM unit := modify (UdtSocket.set_status v).

(** [a - b] on sequence numbers, and the two operations of a loss list that recurse. *)
Definition diff `{Profile} (a b : Z) : SM Z := lift (a ⊖ b).
Definition loss_insert (n1 n2 : Z) (m : LossList.t) : outcome LossList.t :=
  run_loss (LossList.insert LOSS_FUEL n1 n2 m).
Definition loss_remove_all (n1 n2 : Z) (m : LossList.t) : outcome LossList.t :=
  run_loss (LossList.remove_all LOSS_FUEL n1 n2 m).

Section methods.
Context `{Profile} `{Env} `{FloatLib}.

(** ** Sending packets *)

Definition send_to (addr : SocketAddr) (packet : UdtPacket) : SM unit :=
  mux ← gets UdtSocket.multiplexer;
  _ ← lift (unwrap mux);
  mux_send_to addr packet.

Definition send_packet (packet : UdtPacket) : SM unit :=
  peer ← gets UdtSocket.peer_addr;
  match peer with
  | Some addr => send_to addr packet
  | None => mret ()
  end.

(** [send_mmsg_to] serialises every packet, waits until the UDP socket is writable, whose
    errors it returns, and drops those of the system call. *)
Definition send_data_packets (packets : list UdtDataPacket.t) : SM unit :=
  peer ← gets UdtSocket.peer_addr;
  match peer with
  | Some addr =>
      mux ← gets UdtSocket.multiplexer;
      _ ← lift (unwrap mux);
      _ ← lift (foldr (λ p r, _ ← UdtDataPacket.serialize p; r) (Ok ()) packets);
      udp_writable ;;
      foldr (λ p r, emit (SendTo addr (Data p)) ;; r) (mret ()) packets
  | None => mret ()
  end.

Definition update_snd_queue (reschedule : bool) : SM unit :=
  mux ← gets UdtSocket.multiplexer;
  match mux with
  | Some _ => id ← gets UdtSocket.socket_id; emit (SndQueueUpdate id reschedule)
  | None => mret ()
  end.

Definition notify_all : SM unit :=
  emit (NotifyWaiters AcceptNotify) ;; emit (NotifyWaiters RcvNotify) ;;
  emit (NotifyWaiters ConnectNotify).

Definition cc_update : SM unit :=
  period ← gets (λ s, RateControl.get_pkt_send_period (UdtSocket.rate_control s));
  modify_state (λ st, SocketState.set_pacing period (SocketState.interpacket_time_diff st)
                        (SocketState.next_data_target_time st) st).

(** ** Data to send *)

(** The delay since the target time is credited, then the first lost packet is taken. *)
Definition take_lost (now : Z) : SM (option (Z * Z)) :=
  data_delay ← gets_state (λ st, duration_since now (SocketState.next_data_target_time st));
  when (negb (data_delay =? 0)) (update_state (λ st,
    d ← dur_add (SocketState.interpacket_time_diff st) data_delay;
    Ok (SocketState.set_pacing (SocketState.interpacket_interval st) d
          (SocketState.next_data_target_time st) st))) ;;
  last ← gets_state SocketState.last_data_ack_processed;
  losses ← gets_state SocketState.snd_loss_list;
  let '(popped, losses) := LossList.pop_after last losses in
  modify_state (λ st, SocketState.set_snd (SocketState.curr_snd_seq_number st) losses st) ;;
  match popped with
  | Some seq => offset ← diff seq last; mret (Some (seq, offset))
  | None => mret None
  end.

(** The send buffer had no packet to retransmit for [seq]: its message has expired. *)
Definition drop_expired (seq msg_number : Z) (msg_len : nat) : SM unit :=
  end_ ← lift (GenericSeqNumber.sub_i32 SEQ_MAX (seq ⊕ wrap_s 32 (Z.of_nat msg_len)) 1);
  peer ← gets UdtSocket.peer_socket_id;
  peer ← lift (unwrap peer);
  send_packet (Control (UdtControlPacket.new_drop msg_number seq end_ peer)) ;;
  update_state (λ st,
    losses ← loss_remove_all (SocketState.last_data_ack_processed st) end_
               (SocketState.snd_loss_list st);
    d ← (end_ ⊕ 1) ⊖ SocketState.curr_snd_seq_number st;
    Ok (SocketState.set_snd (if d >? 0 then end_ ⊕ 1 else SocketState.curr_snd_seq_number st)
          losses st)).

Definition read_block (offset : nat) (seq : Z) : SM (UdtDataPacket.t + (Z * nat)) :=
  peer ← gets UdtSocket.peer_socket_id;
  peer ← lift (unwrap peer);
  expiry ← now;
  time ← now;
  s ← get;
  let '(r, b) := SndBuffer.read_data expiry time offset seq peer (UdtSocket.start_time s)
                   (UdtSocket.snd_buffer s) in
  modify (UdtSocket.set_snd_buffer b) ;;
  mret r.

(** The pacing restarts from [now] when there is nothing to send. *)
Definition reset_pacing (now : Z) : SM unit :=
  modify_state (λ st, SocketState.set_pacing (SocketState.interpacket_interval st) 0 now st).

(** New packets, at most a batch, if the window is open; [true] if the batch ends at a
    multiple of 16. *)
Definition fetch_new (now : Z) : SM (option (list UdtDataPacket.t * bool)) :=
  s ← get;
  let window_size := Z.min (UdtFlow.flow_window_size (UdtSocket.flow s))
                           (RateControl.get_congestion_window_size (UdtSocket.rate_control s)) in
  let st := UdtSocket.state s in
  d ← diff (SocketState.curr_snd_seq_number st) (SocketState.last_ack_received st);
  if d >? wrap_s 32 window_size then reset_pacing now ;; mret None else
  peer ← lift (unwrap (UdtSocket.peer_socket_id s));
  times ← nows FETCH_BATCH_SIZE;
  r ← lift (SndBuffer.fetch_batch times (SocketState.curr_snd_seq_number st ⊕ 1) peer
              (UdtSocket.start_time s) (UdtSocket.snd_buffer s));
  let '(packets, b) := r in
  modify (UdtSocket.set_snd_buffer b) ;;
  match packets with
  | [] => reset_pacing now ;; mret None
  | _ =>
      let seq := SocketState.curr_snd_seq_number st ⊕ wrap_s 32 (len packets) in
      modify_state (λ st, SocketState.set_snd seq (SocketState.snd_loss_list st) st) ;;
      modify_rate_control (RateControl.set_curr_snd_seq_number seq) ;;
      mret (Some (packets, seq mod 16 =? 0))
  end.

(** The time at which the next packets may leave. *)
Definition pace (now n : Z) : SM Z :=
  st ← gets UdtSocket.state;
  interval ← lift (dur_mul (wrap_u 32 n) (SocketState.interpacket_interval st));
  let credit := SocketState.interpacket_time_diff st in
  if interval <=? credit then
    modify_state (λ st, SocketState.set_pacing (SocketState.interpacket_interval st)
                          (credit - interval) (SocketState.next_data_target_time st) st) ;;
    mret now
  else
    modify_state (λ st, SocketState.set_pacing (SocketState.interpacket_interval st) 0
                          (SocketState.next_data_target_time st) st) ;;
    mret (now + interval - credit).

(** Up to the release of the lock on the state: the time, and the number that is taken
    from the loss list with its place in the send buffer. *)
Definition begin_data_packets : SM (option (Z * option (Z * Z))) :=
  status ← gets UdtSocket.status;
  if negb (UdtStatus.is_alive status) then mret None else
  now ← now;
  to_resend ← take_lost now;
  mret (Some (now, to_resend)).

(** From there on: the send buffer is locked only now. *)
Definition finish_data_packets (now : Z) (to_resend : option (Z * Z)) :
    SM (option (list UdtDataPacket.t * Z)) :=
  match to_resend with
  | Some (seq, offset) =>
      if offset <? 0 then mret None else
      r ← read_block (Z.to_nat offset) seq;
      match r with
      | inr (msg_number, msg_len) =>
          if (msg_len =? 0)%nat then mret None
          else drop_expired seq msg_number msg_len ;; mret None
      | inl packet => time ← pace now 1; mret (Some ([packet], time))
      end
  | None =>
      r ← fetch_new now;
      match r with
      | None => mret None
      | Some (packets, true) => mret (Some (packets, now))
      | Some (packets, false) => time ← pace now (len packets); mret (Some (packets, time))
      end
  end.

Definition next_data_packets : SM (option (list UdtDataPacket.t * Z)) :=
  begun ← begin_data_packets;
  match begun with
  | Some (now, to_resend) => finish_data_packets now to_resend
  | None => mret None
  end.

(** ** Control packets *)

Definition on_handshake (hs : HandShakeInfo.t) : SM unit :=
  status ← gets UdtSocket.status;
  if negb (bool_decide (status = Connecting)) then throw InvalidData else
  if HandShakeInfo.connection_type hs >? 0 then
    id ← gets UdtSocket.socket_id;
    let hs := HandShakeInfo.mk (HandShakeInfo.udt_version hs) (HandShakeInfo.socket_type hs)
      (HandShakeInfo.initial_seq_number hs) (HandShakeInfo.max_packet_size hs)
      (HandShakeInfo.max_window_size hs) (-1) id (HandShakeInfo.syn_cookie hs)
      (HandShakeInfo.ip_address hs) in
    send_packet (Control (UdtControlPacket.new_handshake hs 0))
  else
    let isn := HandShakeInfo.initial_seq_number hs in
    modify (λ s, UdtSocket.set_configuration
      (UdtConfiguration.set_flight_flag_size (HandShakeInfo.max_window_size hs)
        (UdtConfiguration.set_mss (HandShakeInfo.max_packet_size hs) (UdtSocket.configuration s))) s) ;;
    modify_state (λ st, SocketState.set_rcv (isn ⊕ -1) (SocketState.rcv_loss_list st)
      (SocketState.set_sent_ack isn (SocketState.last_sent_ack_time st)
         (SocketState.last_ack_seq_number st) isn st)) ;;
    modify (λ s, UdtSocket.set_peer (UdtSocket.peer_addr s) (Some (HandShakeInfo.socket_id hs)) s) ;;
    time ← now;
    modify (λ s, UdtSocket.set_rate_control
      (RateControl.init time (UdtConfiguration.mss (UdtSocket.configuration s)) (UdtSocket.flow s)
         (SocketState.curr_snd_seq_number (UdtSocket.state s)) (UdtSocket.rate_control s)) s) ;;
    set_status Connected ;;
    emit (NotifyWaiters ConnectNotify).

(** A light acknowledgement: only the window moves. *)
Definition on_light_ack (seq : Z) : SM unit :=
  last ← gets_state SocketState.last_ack_received;
  nb_acked ← diff seq last;
  when (nb_acked >=? 0)
    (modify_state (λ st, SocketState.set_ack_received seq (SocketState.last_data_ack_processed st) st) ;;
     update_flow (λ f,
       w ← arith_u 32 (UdtFlow.flow_window_size f - wrap_u 32 nb_acked);
       Ok (UdtFlow.set_flow_window_size w f))).

(** ACK2 is sent back at most once per [SYN_INTERVAL], repeated acknowledgements apart. *)
Definition send_ack2 (ack_seq : Z) : SM unit :=
  time ← now;
  send ← gets_state (λ st,
    (duration_since time (SocketState.last_ack2_time st) >? SYN_INTERVAL)
    || (ack_seq =? SocketState.last_ack2_sent_back st));
  when send
    (peer ← gets UdtSocket.peer_socket_id;
     match peer with
     | Some peer =>
         send_packet (Control (UdtControlPacket.new_ack2 ack_seq peer)) ;;
         time ← now;
         modify_state (SocketState.set_ack2_sent ack_seq time)
     | None => mret ()
     end).

(** The sequence numbers of an acknowledgement; [false] for a repeated one. *)
Definition ack_received (seq available_buf_size : Z) : SM bool :=
  curr ← gets_state SocketState.curr_snd_seq_number;
  ahead ← diff seq curr;
  when (ahead >? 1) (set_status Broken) ;;
  last ← gets_state SocketState.last_ack_received;
  newer ← diff seq last;
  when (newer >=? 0)
    (modify_flow (UdtFlow.set_flow_window_size available_buf_size) ;;
     modify_state (λ st, SocketState.set_ack_received seq (SocketState.last_data_ack_processed st) st)) ;;
  last ← gets_state SocketState.last_data_ack_processed;
  offset ← diff seq last;
  if offset <=? 0 then mret false else
  update (λ s, b ← SndBuffer.ack_data offset (UdtSocket.snd_buffer s);
               Ok (UdtSocket.set_snd_buffer b s)) ;;
  update_state (λ st,
    last ← GenericSeqNumber.sub_i32 SEQ_MAX seq 1;
    losses ← loss_remove_all (SocketState.last_data_ack_processed st) last
               (SocketState.snd_loss_list st);
    Ok (SocketState.set_snd (SocketState.curr_snd_seq_number st) losses st)) ;;
  modify_state (λ st, SocketState.set_ack_received (SocketState.last_ack_received st) seq st) ;;
  update_snd_queue false ;;
  emit (NotifyWaiters AckNotify) ;;
  mret true.

(** The statistics carried by a full acknowledgement. *)
Definition ack_statistics (seq : Z) (extra : AckOptionalInfo.t) : SM unit :=
  update_flow (UdtFlow.update_rtt (from_micros (AckOptionalInfo.rtt extra))) ;;
  update_flow (UdtFlow.update_rtt_var (from_micros (AckOptionalInfo.rtt_variance extra))) ;;
  flow ← gets UdtSocket.flow;
  modify_rate_control (RateControl.set_rtt (UdtFlow.rtt flow)) ;;
  when (AckOptionalInfo.pack_recv_rate extra >? 0)
    (update_flow (UdtFlow.update_peer_delivery_rate (AckOptionalInfo.pack_recv_rate extra)) ;;
     flow ← gets UdtSocket.flow;
     modify_rate_control (RateControl.set_rcv_rate (UdtFlow.peer_delivery_rate flow))) ;;
  when (AckOptionalInfo.link_capacity extra >? 0)
    (update_flow (UdtFlow.update_bandwidth (AckOptionalInfo.link_capacity extra)) ;;
     flow ← gets UdtSocket.flow;
     modify_rate_control (RateControl.set_bandwidth (UdtFlow.peer_bandwidth flow))) ;;
  time ← now;
  update_rate_control (RateControl.on_ack time seq) ;;
  cc_update.

Definition on_ack (packet : UdtControlPacket.t) (ack : AckInfo.t) : SM unit :=
  let seq := AckInfo.next_seq_number ack in
  match AckInfo.info ack with
  | None => on_light_ack seq
  | Some extra =>
      ack_seq ← lift (unwrap (UdtControlPacket.ack_seq_number packet));
      send_ack2 ack_seq ;;
      fresh ← ack_received seq (AckOptionalInfo.available_buf_size extra);
      when fresh (ack_statistics seq extra)
  end.

Definition on_ack2 (packet : UdtControlPacket.t) : SM unit :=
  ack_seq ← lift (unwrap (UdtControlPacket.ack_seq_number packet));
  time ← now;
  window ← gets_state (λ st, AckWindow.get time ack_seq (SocketState.ack_window st));
  match window with
  | Some (seq, rtt) =>
      update_flow (λ f,
        d ← dur_sub (Z.max rtt (UdtFlow.rtt f)) (Z.min rtt (UdtFlow.rtt f));
        f ← UdtFlow.update_rtt_var d f;
        UdtFlow.update_rtt rtt f) ;;
      last ← gets_state SocketState.last_ack2_received;
      d ← diff seq last;
      when (d >? 0)
        (modify_state (λ st, SocketState.set_sent_ack (SocketState.last_sent_ack st)
           (SocketState.last_sent_ack_time st) (SocketState.last_ack_seq_number st) seq st))
  | None => mret ()
  end.

(** One interval reported lost; [true] if the report makes no sense. *)
Definition nak_interval (seq_start seq_end : Z) (st : SocketState.t) : outcome (bool * SocketState.t) :=
  d ← seq_start ⊖ seq_end;
  beyond ← (if d >? 0 then Ok true
            else e ← seq_end ⊖ SocketState.curr_snd_seq_number st; Ok (e >? 0));
  if beyond : bool then Ok (true, st) else
  let last := SocketState.last_ack_received st in
  d ← seq_start ⊖ last;
  if d >=? 0 then
    losses ← loss_insert seq_start seq_end (SocketState.snd_loss_list st);
    Ok (false, SocketState.set_snd (SocketState.curr_snd_seq_number st) losses st)
  else
    e ← seq_end ⊖ last;
    if e >=? 0 then
      losses ← loss_insert last seq_end (SocketState.snd_loss_list st);
      Ok (false, SocketState.set_snd (SocketState.curr_snd_seq_number st) losses st)
    else Ok (false, st).

(** The words of a NAK: a number with its top bit set starts an interval that the next
    word ends. *)
Fixpoint nak_loop (loss_info : list Z) (st : SocketState.t) : outcome (bool * SocketState.t) :=
  match loss_info with
  | [] => Ok (false, st)
  | loss :: rest =>
      if negb (Z.land loss 2147483648 =? 0) then
        match rest with
        | seq_end :: rest =>
            r ← nak_interval (Z.land loss 2147483647) seq_end st;
            if r.1 : bool then Ok r else nak_loop rest r.2
        | [] => Ok (true, st)
        end
      else
        r ← nak_interval loss loss st;
        if r.1 : bool then Ok r else nak_loop rest r.2
  end.

Definition on_nak (nak : NakInfo.t) : SM unit :=
  match NakInfo.loss_info nak with
  | [] => mret ()
  | first :: _ =>
      update_rate_control (RateControl.on_loss random (Z.land first 2147483647)) ;;
      cc_update ;;
      st ← gets UdtSocket.state;
      r ← lift (nak_loop (NakInfo.loss_info nak) st);
      modify_state (λ _, r.2) ;;
      if r.1 : bool then set_status Broken else update_snd_queue true
  end.

Definition on_drop_request (packet : UdtControlPacket.t) (drop : DropRequestInfo.t) : SM unit :=
  msg_number ← lift (unwrap (UdtControlPacket.msg_seq_number packet));
  modify_rcv_buffer (RcvBuffer.drop_msg msg_number) ;;
  let first := DropRequestInfo.first_seq_number drop in
  let last := DropRequestInfo.last_seq_number drop in
  update_state (λ st,
    losses ← loss_remove_all first last (SocketState.rcv_loss_list st);
    Ok (SocketState.set_rcv (SocketState.curr_rcv_seq_number st) losses st)) ;;
  curr ← gets_state SocketState.curr_rcv_seq_number;
  d ← diff first (curr ⊕ 1);
  if d <=? 0 then
    e ← diff last curr;
    when (e >? 0) (modify_state (λ st, SocketState.set_rcv last (SocketState.rcv_loss_list st) st))
  else mret ().

Definition process_ctrl (packet : UdtControlPacket.t) : SM unit :=
  time ← now;
  modify_state (SocketState.set_rsp 1 time) ;;
  match UdtControlPacket.packet_type packet with
  | Handshake hs => on_handshake hs
  | KeepAlive => mret ()
  | Ack ack => on_ack packet ack
  | Ack2 => on_ack2 packet
  | Nak nak => on_nak nak
  | Shutdown => set_status Closing ;; notify_all
  | MsgDropRequest drop => on_drop_request packet drop
  | UserDefined => lift Panic
  end.

(** ** Data packets *)

(** The words of the NAK for the numbers between two received ones. *)
Definition nak_words (first last : Z) : list Z :=
  if first =? last then [last] else [Z.lor first 2147483648; last].

(** A gap before [seq]: it is recorded as lost and reported at once. *)
Definition report_gap (seq : Z) : SM unit :=
  curr ← gets_state SocketState.curr_rcv_seq_number;
  last ← lift (GenericSeqNumber.sub_i32 SEQ_MAX seq 1);
  update_state (λ st,
    losses ← loss_insert (curr ⊕ 1) last (SocketState.rcv_loss_list st);
    Ok (SocketState.set_rcv curr losses st)) ;;
  peer ← gets UdtSocket.peer_socket_id;
  send_packet (Control (UdtControlPacket.new_nak (nak_words (curr ⊕ 1) last)
    (match peer with Some id => id | None => 0 end))).

Definition record_arrival (time seq : Z) : SM unit :=
  modify_flow (UdtFlow.on_pkt_arrival time) ;;
  if seq mod PROBE_MODULO =? 0 then time ← now; modify_flow (UdtFlow.on_probe1_arrival time)
  else if seq mod PROBE_MODULO =? 1 then time ← now; modify_flow (UdtFlow.on_probe2_arrival time)
  else mret ().

(** A packet that is not full is acknowledged at once; the largest number received
    grows, or a loss is repaired. *)
Definition finish_data (payload_len seq : Z) : SM unit :=
  s ← get;
  max_payload ← lift (UdtSocket.get_max_payload_size s);
  when (payload_len <? max_payload)
    (time ← now; modify_state (λ st, SocketState.set_ack_timer time (SocketState.pkt_count st)
                                       (SocketState.light_ack_counter st) st)) ;;
  curr ← gets_state SocketState.curr_rcv_seq_number;
  ahead ← diff seq curr;
  modify_state (λ st,
    if ahead >? 0 then SocketState.set_rcv seq (SocketState.rcv_loss_list st) st
    else SocketState.set_rcv curr (LossList.remove seq (SocketState.rcv_loss_list st)) st).

Definition process_data (packet : UdtDataPacket.t) : SM unit :=
  time ← now;
  update_state (λ st,
    n ← arith_u 64 (SocketState.pkt_count st + 1);
    Ok (SocketState.set_rsp (SocketState.exp_count st) time
          (SocketState.set_ack_timer (SocketState.next_ack_time st) n
             (SocketState.light_ack_counter st) st))) ;;
  let seq := UdtDataPacketHeader.seq_number (UdtDataPacket.header packet) in
  record_arrival time seq ;;
  sent ← gets_state SocketState.last_sent_ack;
  offset ← diff seq sent;
  if offset <? 0 then mret () else
  b ← gets UdtSocket.rcv_buffer;
  available ← lift (RcvBuffer.get_available_buf_size b);
  if available <? wrap_u 32 offset then mret () else
  modify_rcv_buffer (RcvBuffer.insert packet) ;;
  curr ← gets_state SocketState.curr_rcv_seq_number;
  ahead ← diff seq curr;
  when (ahead >? 1) (report_gap seq) ;;
  finish_data (UdtDataPacket.payload_len packet) seq.

Definition process_packet (packet : UdtPacket) : SM unit :=
  match packet with
  | Control ctrl => process_ctrl ctrl
  | Data data => process_data data
  end.

(** ** Acknowledgements and timers *)

(** The first number not received: the start of the first gap, or the next number. *)
Definition next_to_ack (st : SocketState.t) : Z :=
  let next := SocketState.curr_rcv_seq_number st ⊕ 1 in
  match LossList.peek_after next (SocketState.rcv_loss_list st) with
  | Some num => num
  | None => next
  end.

(** Progress is handed to the receive buffer; [false] if nothing is to be sent: an
    acknowledgement is repeated only after [rtt + 4 * rtt_var]. *)
Definition advance_ack (seq_number : Z) : SM bool :=
  last ← gets_state SocketState.last_sent_ack;
  to_ack ← diff seq_number last;
  if to_ack >? 0 then
    update (λ s, b ← RcvBuffer.ack_data seq_number (UdtSocket.rcv_buffer s);
                 Ok (UdtSocket.set_rcv_buffer b s)) ;;
    modify_state (λ st, SocketState.set_sent_ack seq_number (SocketState.last_sent_ack_time st)
      (SocketState.last_ack_seq_number st) (SocketState.last_ack2_received st) st) ;;
    emit (NotifyWaiters RcvNotify) ;;
    mret true
  else if to_ack =? 0 then
    time ← now;
    elapsed ← gets_state (λ st, duration_since time (SocketState.last_sent_ack_time st));
    flow ← gets UdtSocket.flow;
    wait ← lift (x ← dur_mul 4 (UdtFlow.rtt_var flow); dur_add (UdtFlow.rtt flow) x);
    mret (negb (elapsed <? wait))
  else mret false.

(** The fields of a full acknowledgement. *)
Definition ack_info : SM AckOptionalInfo.t :=
  flow ← gets UdtSocket.flow;
  b ← gets UdtSocket.rcv_buffer;
  available ← lift (RcvBuffer.get_available_buf_size b);
  let info := AckOptionalInfo.mk (Z.min U32_MAX (as_micros (UdtFlow.rtt flow)))
    (Z.min U32_MAX (as_micros (UdtFlow.rtt_var flow))) (Z.max available 2) 0 0 in
  time ← now;
  elapsed ← gets_state (λ st, duration_since time (SocketState.last_sent_ack_time st));
  if elapsed >? SYN_INTERVAL then
    speed ← lift (UdtFlow.get_pkt_rcv_speed flow);
    bandwidth ← lift (UdtFlow.get_bandwidth flow);
    time ← now;
    modify_state (λ st, SocketState.set_sent_ack (SocketState.last_sent_ack st) time
      (SocketState.last_ack_seq_number st) (SocketState.last_ack2_received st) st) ;;
    mret (AckOptionalInfo.mk (AckOptionalInfo.rtt info) (AckOptionalInfo.rtt_variance info)
            (AckOptionalInfo.available_buf_size info) speed bandwidth)
  else mret info.

(** The acknowledgement of everything received, unless its ACK2 has come back. *)
Definition send_full_ack : SM unit :=
  st ← gets UdtSocket.state;
  d ← diff (SocketState.last_sent_ack st) (SocketState.last_ack2_received st);
  when (d >? 0)
    (modify_state (λ st, SocketState.set_sent_ack (SocketState.last_sent_ack st)
       (SocketState.last_sent_ack_time st) (SocketState.last_ack_seq_number st ⊕ 1)
       (SocketState.last_ack2_received st) st) ;;
     info ← ack_info;
     st ← gets UdtSocket.state;
     peer ← gets UdtSocket.peer_socket_id;
     peer ← lift (unwrap peer);
     send_packet (Control (UdtControlPacket.new_ack (SocketState.last_ack_seq_number st)
       (SocketState.last_sent_ack st) peer (Some info))) ;;
     time ← now;
     update_state (λ st,
       w ← AckWindow.store time (SocketState.last_sent_ack st) (SocketState.last_ack_seq_number st)
             (SocketState.ack_window st);
       Ok (SocketState.set_ack_window w st))).

Definition send_ack (light : bool) : SM unit :=
  st ← gets UdtSocket.state;
  let seq_number := next_to_ack st in
  if seq_number =? SocketState.last_ack2_received st then mret () else
  if light then
    peer ← gets UdtSocket.peer_socket_id;
    peer ← lift (unwrap peer);
    send_packet (Control (UdtControlPacket.new_ack 0 seq_number peer None))
  else
    proceed ← advance_ack seq_number;
    when proceed send_full_ack.

Definition ack_timer (now : Z) : SM unit :=
  s ← get;
  let ack_interval := RateControl.get_ack_pkt_interval (UdtSocket.rate_control s) in
  let st := UdtSocket.state s in
  if (now >? SocketState.next_ack_time st)
     || ((ack_interval >? 0) && (ack_interval <=? SocketState.pkt_count st)) then
    ignore_error (send_ack false) ;;
    period ← gets (λ s, RateControl.get_ack_period (UdtSocket.rate_control s));
    modify_state (SocketState.set_ack_timer (now + period) 0 0)
  else
    count ← lift (arith_u 64 (SocketState.light_ack_counter st + 1));
    count ← lift (arith_u 64 (count * PACKETS_BETWEEN_LIGHT_ACK));
    when (count <=? SocketState.pkt_count st)
      (ignore_error (send_ack true) ;;
       update_state (λ st,
         n ← arith_u 64 (SocketState.light_ack_counter st + 1);
         Ok (SocketState.set_ack_timer (SocketState.next_ack_time st) (SocketState.pkt_count st) n st))).

(** The time after which the peer is considered silent. *)
Definition next_exp_time (s : UdtSocket.t) : outcome Z :=
  let st := UdtSocket.state s in
  let flow := UdtSocket.flow s in
  var ← dur_mul 4 (UdtFlow.rtt_var flow);
  x ← dur_add (UdtFlow.rtt flow) var;
  x ← dur_mul (SocketState.exp_count st) x;
  exp_int ← dur_add x SYN_INTERVAL;
  min_int ← dur_mul (SocketState.exp_count st) MIN_EXP_INTERVAL;
  Ok (SocketState.last_rsp_time st + Z.max exp_int min_int).

(** The peer has been silent: retransmit what it has not acknowledged, or send a
    keep-alive packet. *)
Definition resend_or_keep_alive : SM unit :=
  s ← get;
  if UdtSocket.snd_buffer_is_empty s then
    match UdtSocket.peer_socket_id s with
    | Some peer => ignore_error (send_packet (Control (UdtControlPacket.new_keep_alive peer)))
    | None => mret ()
    end
  else
    update_state (λ st,
      let last := SocketState.last_ack_received st in
      let curr := SocketState.curr_snd_seq_number st in
      if negb (last =? curr ⊕ 1) && LossList.is_empty (SocketState.snd_loss_list st) then
        losses ← loss_insert last curr (SocketState.snd_loss_list st);
        Ok (SocketState.set_snd curr losses st)
      else Ok st) ;;
    update_rate_control RateControl.on_timeout ;;
    cc_update ;;
    update_snd_queue true.

Definition exp_timer (now : Z) : SM unit :=
  s ← get;
  next_exp ← lift (next_exp_time s);
  if now >? next_exp then
    time ← world.now;
    if (SocketState.exp_count (UdtSocket.state s) >? 16)
       && (duration_since time (SocketState.last_rsp_time (UdtSocket.state s)) >? from_secs 5) then
      set_status Broken ;; update_snd_queue true
    else
      resend_or_keep_alive ;;
      update_state (λ st,
        n ← arith_u 32 (SocketState.exp_count st + 1);
        Ok (SocketState.set_rsp n now st))
  else mret ().

Definition check_timers : SM unit :=
  cc_update ;;
  now ← now;
  ack_timer now ;;
  exp_timer now.

(** ** The application's side *)

Definition send (data : list Z) : SM unit :=
  s ← get;
  if negb (bool_decide (UdtSocket.socket_type s = Stream)) then throw InvalidInput else
  if negb (bool_decide (UdtSocket.status s = Connected)) then throw NotConnected else
  match data with
  | [] => mret ()
  | _ =>
      when (UdtSocket.snd_buffer_is_empty s)
        (time ← now;
         modify_state (λ st, SocketState.set_rsp (SocketState.exp_count st) time st)) ;;
      time ← now;
      update (λ s, b ← SndBuffer.add_message time data None false (UdtSocket.snd_buffer s);
                   Ok (UdtSocket.set_snd_buffer b s)) ;;
      update_snd_queue false
  end.

(** A socket that is not alive can be read as long as data is left. *)
Definition check_readable : SM unit :=
  s ← get;
  if negb (UdtStatus.is_alive (UdtSocket.status s)) then
    has_data ← lift (RcvBuffer.has_data_to_read (UdtSocket.rcv_buffer s));
    if has_data : bool then mret () else throw BrokenPipe
  else if negb (bool_decide (UdtSocket.status s = Connected)) then throw NotConnected
  else mret ().

Definition check_stream : SM unit :=
  s ← get;
  if negb (bool_decide (UdtSocket.socket_type s = Stream)) then throw InvalidInput else mret ().

Definition read_rcv_buffer (buf : ReadBuf.t) : SM (Z * ReadBuf.t) :=
  b ← gets UdtSocket.rcv_buffer;
  r ← lift (RcvBuffer.read_buffer buf b);
  let '(written, buf, b) := r in
  modify (UdtSocket.set_rcv_buffer b) ;;
  mret (written, buf).

(** [recv] up to its wait: [true] if it goes on to wait for data. *)
Definition recv_start (buf_len : nat) : SM bool :=
  check_stream ;; check_readable ;; mret (negb (buf_len =? 0)%nat).

(** What [wait_for_data_to_read] decides: [true] if it waits for a notification. *)
Definition must_wait : SM bool :=
  s ← get;
  if negb (UdtStatus.is_alive (UdtSocket.status s)) then mret false else
  has_data ← lift (RcvBuffer.has_data_to_read (UdtSocket.rcv_buffer s));
  mret (negb has_data).

(** [recv] after its wait. *)
Definition recv_finish (buf : ReadBuf.t) : SM (Z * ReadBuf.t) :=
  check_readable ;; read_rcv_buffer buf.

(** [None] is [Poll::Pending]. *)
Definition poll_recv (buf : ReadBuf.t) : SM (option (Z * ReadBuf.t)) :=
  check_stream ;; check_readable ;;
  b ← gets UdtSocket.rcv_buffer;
  has_data ← lift (RcvBuffer.has_data_to_read b);
  if negb has_data then mret None else
  if (ReadBuf.remaining buf =? 0)%nat then mret (Some (0, buf)) else
  r ← read_rcv_buffer buf; mret (Some r).

(** ** Opening and closing *)

(** [connect] up to [Udt::update_mux], which gives the socket its multiplexer. *)
Definition connect_start : SM unit :=
  s ← get;
  if negb (bool_decide (UdtSocket.status s = Init)) then throw Unsupported else
  modify UdtSocket.open.

(** [connect] after [Udt::update_mux]: the handshake request. *)
Definition connect_request (addr : SocketAddr) : SM unit :=
  set_status Connecting ;;
  update (UdtSocket.set_peer_addr addr) ;;
  s ← get;
  available ← lift (RcvBuffer.get_available_buf_size (UdtSocket.rcv_buffer s));
  let conf := UdtSocket.configuration s in
  let hs := HandShakeInfo.mk (UdtConfiguration.udt_version conf) (UdtSocket.socket_type s)
    (UdtSocket.initial_seq_number s) (UdtConfiguration.mss conf)
    (Z.min (UdtFlow.flow_window_size (UdtSocket.flow s)) available)
    1 (UdtSocket.socket_id s) 0 (ip addr) in
  send_to addr (Control (UdtControlPacket.new_handshake hs 0)).

(** The server side of the handshake, on the socket created for the connection. *)
Definition connect_on_handshake (peer : SocketAddr) (hs : HandShakeInfo.t) : SM unit :=
  conf ← gets UdtSocket.configuration;
  let shrink := HandShakeInfo.max_packet_size hs >? UdtConfiguration.mss conf in
  let mss := if shrink then UdtConfiguration.mss conf else HandShakeInfo.max_packet_size hs in
  modify (UdtSocket.set_configuration (UdtConfiguration.set_mss mss conf)) ;;
  modify_flow (UdtFlow.set_flow_window_size (HandShakeInfo.max_window_size hs)) ;;
  id ← gets UdtSocket.socket_id;
  let hs := HandShakeInfo.mk (HandShakeInfo.udt_version hs) (HandShakeInfo.socket_type hs)
    (HandShakeInfo.initial_seq_number hs) mss
    (Z.min (UdtConfiguration.rcv_buf_size conf) (UdtConfiguration.flight_flag_size conf))
    (HandShakeInfo.connection_type hs) id (HandShakeInfo.syn_cookie hs) (ip peer) in
  time ← now;
  modify (λ s, UdtSocket.set_rate_control
    (RateControl.init time (UdtConfiguration.mss (UdtSocket.configuration s)) (UdtSocket.flow s)
       (SocketState.curr_snd_seq_number (UdtSocket.state s)) (UdtSocket.rate_control s)) s) ;;
  set_status Connected ;;
  peer_id ← gets UdtSocket.peer_socket_id;
  peer_id ← lift (unwrap peer_id);
  mux ← gets UdtSocket.multiplexer;
  match mux with
  | Some _ =>
      emit (RcvQueuePushBack id) ;;
      mux_send_to peer (Control (UdtControlPacket.new_handshake hs peer_id))
  | None => mret ()
  end.

(** The minute of the socket's life, moved by [offset as u64], hashed with the address. *)
Definition compute_cookie (addr : SocketAddr) (offset : option Z) : SM Z :=
  time ← now;
  start ← gets UdtSocket.start_time;
  timestamp ← lift (arith_u 64 (as_secs (duration_since time start) / 60
                 + wrap_u 64 (match offset with Some o => o | None => 0 end)));
  mret (cookie_hash (ip addr) (port addr) timestamp).

(** [listen_on_handshake] up to [Udt::new_connection]: [true] if it is called. *)
Definition check_handshake (addr : SocketAddr) (hs : HandShakeInfo.t) : SM bool :=
  s ← get;
  if negb (UdtStatus.is_alive (UdtSocket.status s)) then throw ConnectionRefused else
  if HandShakeInfo.connection_type hs =? 1 then
    cookie ← compute_cookie addr None;
    send_to addr (Control (UdtControlPacket.new_handshake
      (HandShakeInfo.mk (HandShakeInfo.udt_version hs) (HandShakeInfo.socket_type hs)
         (HandShakeInfo.initial_seq_number hs) (HandShakeInfo.max_packet_size hs)
         (HandShakeInfo.max_window_size hs) (HandShakeInfo.connection_type hs)
         (HandShakeInfo.socket_id hs) cookie (HandShakeInfo.ip_address hs))
      (HandShakeInfo.socket_id hs))) ;;
    mret false
  else if negb (HandShakeInfo.connection_type hs =? -1) then throw InvalidData else
  cookie ← compute_cookie addr None;
  valid_cookie ← (if HandShakeInfo.syn_cookie hs =? cookie then mret true
                  else previous ← compute_cookie addr (Some (-1));
                       mret (HandShakeInfo.syn_cookie hs =? previous));
  if negb valid_cookie then throw PermissionDenied else
  if negb (HandShakeInfo.udt_version hs =? UdtConfiguration.udt_version (UdtSocket.configuration s))
     || negb (bool_decide (HandShakeInfo.socket_type hs = UdtSocket.socket_type s)) then
    send_to addr (Control (UdtControlPacket.new_handshake
      (HandShakeInfo.mk (HandShakeInfo.udt_version hs) (HandShakeInfo.socket_type hs)
         (HandShakeInfo.initial_seq_number hs) (HandShakeInfo.max_packet_size hs)
         (HandShakeInfo.max_window_size hs) 1002
         (HandShakeInfo.socket_id hs) (HandShakeInfo.syn_cookie hs) (HandShakeInfo.ip_address hs))
      (HandShakeInfo.socket_id hs))) ;;
    throw ConnectionRefused
  else mret true.

(** [close] waits for acknowledgements while this holds, [start] being its first reading
    of the clock. *)
Definition lingers (start : Z) : SM bool :=
  s ← get;
  if negb (bool_decide (UdtSocket.status s = Connected)) || UdtSocket.snd_buffer_is_empty s
  then mret false else
  time ← now;
  mret (duration_since time start <?
        match UdtConfiguration.linger_timeout (UdtSocket.configuration s) with
        | Some d => d
        | None => 0
        end).

(** [close] after its linger loop. *)
Definition close_finish : SM unit :=
  s ← get;
  match UdtSocket.multiplexer s with
  | Some _ =>
      emit (SndQueueRemove (UdtSocket.socket_id s)) ;;
      emit (ClearListener (UdtSocket.socket_id s))
  | None => mret ()
  end ;;
  s ← get;
  when (bool_decide (UdtSocket.status s = Connected))
    (peer ← lift (unwrap (UdtSocket.peer_socket_id s));
     ignore_error (send_packet (Control (UdtControlPacket.new_shutdown peer)))) ;;
  set_status Closing ;;
  notify_all.

(** The linger loop; [waits] are what happens during the successive waits for an
    acknowledgement, [false] a loop that is still waiting when they are exhausted. *)
Fixpoint linger (start : Z) (waits : list (SM unit)) : SM bool :=
  again ← lingers start;
  if again : bool then
    match waits with
    | wait :: waits => wait ;; linger start waits
    | [] => mret false
    end
  else mret true.

Definition close (waits : list (SM unit)) : SM unit :=
  s ← get;
  if bool_decide (UdtSocket.status s = Closed) || bool_decide (UdtSocket.status s = Closing)
  then mret () else
  start ← now;
  finished ← linger start waits;
  when finished close_finish.

(** The waits on the other notifications: [true] if the method waits. *)
Definition must_wait_for_connection : SM bool :=
  s ← get; mret (bool_decide (UdtSocket.status s = Connecting)).
Definition must_wait_for_ack : SM bool :=
  s ← get; mret (negb (UdtSocket.snd_buffer_is_empty s)).
End methods.
