(* ===== verification/samples.v ===== *)
(** * Concrete sockets

    An environment and sockets on which the witnesses evaluate the theorems. *)

From S2P Require Import prelude seq_number time data_packet control_packet packet.
From S2P Require Import btree_map loss_list ack_window rcv_buffer snd_buffer float flow.
From S2P Require Import configuration rate_control socket_state world socket.

Definition sample_env : Env := {|
  clock n := Z.of_nat n * 1000; send_result _ := None; writable_result _ := None; random _ := 1; cookie_hash _ _ t := t
|}.
Definition sample_float : FloatLib := {| pow10 x := x; log10 x := x |}.

Definition sample_addr : SocketAddr := {| ip := V4 [127; 0; 0; 1]; port := 9000 |}.

(** A fresh connected stream socket with initial sequence number 100. *)
Definition sample_socket : UdtSocket.t :=
  let s := UdtSocket.new (@clock sample_env) 0 1 Stream (Some 100) None in
  UdtSocket.set_status Connected (UdtSocket.set_peer (Some sample_addr) (Some 2)
    (UdtSocket.set_multiplexer 1 s)).

Definition sample_world : world UdtSocket.t := World sample_socket 10 [].

Definition sample_handshake : HandShakeInfo.t :=
  HandShakeInfo.mk 4 Stream 100 1500 8192 (-1) 2 0 (V4 [127; 0; 0; 1]).
