(* ===== verification/socket_status.v ===== *)
(** * The life cycle of a socket

    Which methods of [socket.v] change the status of a socket, and how; the fields
    that identify a socket never change. *)

From S2P Require Import prelude seq_number time data_packet control_packet packet.
From S2P Require Import btree_map loss_list ack_window rcv_buffer snd_buffer float flow.
From S2P Require Import configuration rate_control socket_state world socket samples.

(** The fields a method never touches. *)
Definition same_identity (s s' : UdtSocket.t) : Prop :=
  UdtSocket.socket_id s' = UdtSocket.socket_id s
  ∧ UdtSocket.socket_type s' = UdtSocket.socket_type s
  ∧ UdtSocket.initial_seq_number s' = UdtSocket.initial_seq_number s
  ∧ UdtSocket.listen_socket s' = UdtSocket.listen_socket s
  ∧ UdtSocket.multiplexer s' = UdtSocket.multiplexer s
  ∧ UdtSocket.peer_addr s' = UdtSocket.peer_addr s
  ∧ UdtSocket.start_time s' = UdtSocket.start_time s.

(** The status stays or becomes one that [A] allows. *)
Definition may_become (A : UdtStatus → Prop) (s s' : UdtSocket.t) : Prop :=
  same_identity s s' ∧ (UdtSocket.status s' = UdtSocket.status s ∨ A (UdtSocket.status s')).

#[export] Instance may_become_preorder A : PreOrder (may_become A).
Proof.
  split.
  - intros s. unfold may_become, same_identity. auto 20.
  - intros s1 s2 s3 [(?&?&?&?&?&?&?) E1] [(?&?&?&?&?&?&?) E2].
    split; [unfold same_identity; split_and!; congruence|].
    destruct E1 as [E1|E1], E2 as [E2|E2]; rewrite ?E2 in *; auto.
Qed.

Definition never (_ : UdtStatus) : Prop := False.

Ltac keeps :=
  intros; repeat match goal with
  | H : _ ≫= _ = Ok _ |- _ => apply bind_is_Ok in H as (? & _ & H); cbv beta in H
  | H : Ok _ = Ok _ |- _ => apply (inj Ok) in H; subst
  end; unfold may_become, same_identity; simpl; auto 20.

Ltac steps :=
  repeat match goal with
  | |- ∀ _, _ => intro
  | |- all_steps _ (_ ≫= _) => apply steps_bind
  | |- all_steps _ (when _ _) => apply steps_when
  | |- all_steps _ (ignore_error _) => apply steps_ignore_error
  | |- all_steps _ (modify _) => apply steps_modify; [keeps]
  | |- all_steps _ (update _) => apply steps_update; [apply _|keeps]
  | |- all_steps _ (if ?b then _ else _) => destruct b
  | |- all_steps _ (match ?x with _ => _ end) => destruct x
  | |- PreOrder _ => apply _
  | _ => first [apply steps_ret | apply steps_lift | apply steps_throw | apply steps_get
                | apply steps_gets | apply steps_emit | apply steps_now | apply steps_nows
                | apply steps_mux_send_to | solve [eauto with world]]
  end.

Section keeps.
Context `{Profile} `{Env} `{FloatLib} (A : UdtStatus → Prop).
Local Notation keeps_status m := (all_steps (may_become A) m).

Lemma keeps_send_to addr p : keeps_status (send_to addr p).
Proof. unfold send_to. steps. Qed.
#[local] Hint Resolve keeps_send_to : world.

Lemma keeps_send_packet p : keeps_status (send_packet p).
Proof. unfold send_packet. steps. Qed.
#[local] Hint Resolve keeps_send_packet : world.

Lemma keeps_update_snd_queue b : keeps_status (update_snd_queue b).
Proof. unfold update_snd_queue. steps. Qed.
Lemma keeps_cc_update : keeps_status cc_update.
Proof. unfold cc_update, modify_state. steps. Qed.
Lemma keeps_notify_all : keeps_status notify_all.
Proof. unfold notify_all. steps. Qed.
#[local] Hint Resolve keeps_update_snd_queue keeps_cc_update keeps_notify_all : world.

Lemma keeps_set_status v : A v → keeps_status (set_status v).
Proof. intros Hv. apply steps_modify. intros s. unfold may_become, same_identity; simpl. auto 20. Qed.

Lemma keeps_diff a b : keeps_status (diff a b).
Proof. apply steps_lift; apply _. Qed.
#[local] Hint Resolve keeps_set_status keeps_diff : world.
End keeps.

Ltac unfold_access := unfold gets_state, modify_state, update_state, update_flow, modify_flow,
  update_rate_control, modify_rate_control, modify_rcv_buffer.
#[export] Hint Resolve keeps_send_to keeps_send_packet keeps_update_snd_queue keeps_cc_update
  keeps_notify_all keeps_set_status keeps_diff : world.

Section handlers.
Context `{Profile} `{Env} `{FloatLib} (A : UdtStatus → Prop).
Local Notation keeps_status m := (all_steps (may_become A) m).

Lemma keeps_process_data p : keeps_status (process_data p).
Proof. unfold process_data, record_arrival, report_gap, finish_data. unfold_access. steps. Qed.

Lemma keeps_send_ack light : keeps_status (send_ack light).
Proof. unfold send_ack, advance_ack, send_full_ack, ack_info. unfold_access. steps. Qed.
#[local] Hint Resolve keeps_send_ack : world.

Lemma keeps_ack_timer t : keeps_status (ack_timer t).
Proof. unfold ack_timer. unfold_access. steps. Qed.
#[local] Hint Resolve keeps_ack_timer : world.

Lemma keeps_check_timers : A Broken → keeps_status check_timers.
Proof. intros. unfold check_timers, exp_timer, resend_or_keep_alive. unfold_access. steps. Qed.

Lemma keeps_next_data_packets : keeps_status next_data_packets.
Proof.
  unfold next_data_packets, begin_data_packets, finish_data_packets, take_lost, read_block, drop_expired, fetch_new, reset_pacing, pace.
  unfold_access. steps.
Qed.

Lemma keeps_send data : keeps_status (send data).
Proof. unfold send. unfold_access. steps. Qed.

Lemma keeps_poll_recv buf : keeps_status (poll_recv buf).
Proof. unfold poll_recv, check_stream, check_readable, read_rcv_buffer. steps. Qed.

Lemma keeps_on_ack p a : A Broken → keeps_status (on_ack p a).
Proof.
  intros. unfold on_ack, on_light_ack, send_ack2, ack_received, ack_statistics.
  unfold_access. steps.
Qed.

Lemma keeps_on_nak n : A Broken → keeps_status (on_nak n).
Proof. intros. unfold on_nak. unfold_access. steps. Qed.

Lemma keeps_on_ack2 p : keeps_status (on_ack2 p).
Proof. unfold on_ack2. unfold_access. steps. Qed.

Lemma keeps_on_drop_request p d : keeps_status (on_drop_request p d).
Proof. unfold on_drop_request. unfold_access. steps. Qed.

Lemma keeps_on_handshake hs : A Connected → keeps_status (on_handshake hs).
Proof. intros. unfold on_handshake. unfold_access. steps. Qed.
End handlers.

(** The status a packet may put the socket in. *)
Definition target (packet : UdtPacket) : option UdtStatus :=
  match packet with
  | Data _ => None
  | Control c =>
      match UdtControlPacket.packet_type c with
      | Handshake _ => Some Connected
      | Ack _ | Nak _ => Some Broken
      | Shutdown => Some Closing
      | _ => None
      end
  end.

Lemma keeps_process_packet `{Profile} `{Env} `{FloatLib} packet :
  all_steps (may_become (λ v, target packet = Some v)) (process_packet packet).
Proof.
  destruct packet as [c|d]; simpl; [|apply keeps_process_data].
  unfold process_ctrl. apply steps_bind; [apply _|apply steps_now; apply _|intros t].
  apply steps_bind; [apply _|apply steps_modify; keeps|intros []].
  destruct (UdtControlPacket.packet_type c).
  - by apply keeps_on_handshake.
  - apply steps_ret; apply _.
  - by apply keeps_on_ack.
  - by apply keeps_on_nak.
  - steps.
  - apply keeps_on_ack2.
  - apply keeps_on_drop_request.
  - steps.
Qed.

(** ** Properties *)

(** C29. Whatever a packet contains and however its processing ends, it leaves the
    identity of the socket alone and its status as it was, except that a handshake may
    connect it, an ACK or a NAK may break it and a shutdown closes it. *)
Theorem process_packet_status `{Profile} `{Env} `{FloatLib} packet w :
  let s := sock w in
  let s' := sock (process_packet packet w).2 in
  same_identity s s'
  ∧ (UdtSocket.status s' = UdtSocket.status s ∨ target packet = Some (UdtSocket.status s')).
Proof. apply (keeps_process_packet packet w). Qed.

(** Sending, reading and preparing data never change the status, and the timers can
    only break the connection. *)
Theorem local_methods_status `{Profile} `{Env} `{FloatLib} data buf w :
  may_become never (sock w) (sock (send data w).2)
  ∧ may_become never (sock w) (sock (poll_recv buf w).2)
  ∧ may_become never (sock w) (sock (next_data_packets w).2)
  ∧ may_become (λ v, v = Broken) (sock w) (sock (check_timers w).2).
Proof.
  split_and!; [apply keeps_send|apply keeps_poll_recv|apply keeps_next_data_packets|
               by apply keeps_check_timers].
Qed.

(** A handshake that reaches a socket that is not [Connecting] (a repeated answer of
    the server, for one) is an error, which ends the receiving worker of the
    multiplexer; nothing but the record of the peer's activity has changed. *)
Theorem handshake_unexpected `{Profile} `{Env} `{FloatLib} c hs w :
  UdtControlPacket.packet_type c = Handshake hs → UdtSocket.status (sock w) ≠ Connecting →
  (process_packet (Control c) w).1 = Err InvalidData
  ∧ trace (process_packet (Control c) w).2 = trace w
  ∧ sock (process_packet (Control c) w).2 =
      UdtSocket.set_state (SocketState.set_rsp 1 (clock (ticks w)) (UdtSocket.state (sock w))) (sock w).
Proof.
  intros Hc Hs. unfold process_packet, process_ctrl, modify_state. run. rewrite Hc.
  unfold on_handshake. run. rewrite bool_decide_eq_false_2 by done. done.
Qed.

(** The peer's shutdown closes the socket and wakes those who wait for a connection,
    for data or for a peer, but not those who wait for an acknowledgement: a pending
    [poll_flush] or [poll_write] is never resumed. *)
Theorem shutdown_leaves_ack_waiters `{Profile} `{Env} `{FloatLib} c w :
  UdtControlPacket.packet_type c = Shutdown →
  let r := process_packet (Control c) w in
  r.1 = Ok () ∧ UdtSocket.status (sock r.2) = Closing
  ∧ trace r.2 = trace w ++ [NotifyWaiters AcceptNotify; NotifyWaiters RcvNotify; NotifyWaiters ConnectNotify].
Proof.
  intros Hc. unfold process_packet, process_ctrl, modify_state. run. rewrite Hc.
  unfold set_status, notify_all. run.
  split_and!; [done..|]. by rewrite <- !app_assoc.
Qed.

(** ** Witnesses *)

Lemma handshake_unexpected_witness :
  (@process_packet true sample_env sample_float
     (Control (UdtControlPacket.new_handshake sample_handshake 1)) sample_world).1 = Err InvalidData.
Proof.
  apply (@handshake_unexpected true sample_env sample_float
    (UdtControlPacket.new_handshake sample_handshake 1) sample_handshake sample_world); done.
Defined.

Lemma shutdown_leaves_ack_waiters_witness :
  trace (@process_packet true sample_env sample_float
    (Control (UdtControlPacket.new_shutdown 1)) sample_world).2
  = [NotifyWaiters AcceptNotify; NotifyWaiters RcvNotify; NotifyWaiters ConnectNotify].
Proof.
  apply (@shutdown_leaves_ack_waiters true sample_env sample_float
    (UdtControlPacket.new_shutdown 1) sample_world). done.
Defined.
