(* ===== verification/socket_sender.v ===== *)
(** * The sending side of a socket

    The invariant [snd_inv] ties the sequence numbers to the send buffer: block [i] of
    the buffer is packet [last_data_ack_processed + i], everything before
    [current_position] has been sent, and only numbers in flight are in the loss list. *)

From S2P Require Import prelude seq_number time data_packet control_packet packet.
From S2P Require Import btree_map loss_list ack_window rcv_buffer snd_buffer float flow.
From S2P Require Import configuration rate_control socket_state world socket samples.

#[local] Arguments GenericSeqNumber.sub_i32 : simpl never.
#[local] Arguments GenericSeqNumber.add : simpl never.
#[local] Arguments GenericSeqNumber.sub : simpl never.
#[local] Arguments LossList.insert : simpl never.
#[local] Arguments LossList.remove_all : simpl never.
#[local] Arguments LossList.pop_after : simpl never.
#[local] Arguments LossList.remove : simpl never.

Record snd_inv (s : UdtSocket.t) : Prop := {
  si_buffer : snd_wf (UdtSocket.snd_buffer s);
  si_first : valid (SocketState.last_data_ack_processed (UdtSocket.state s));
  si_curr : SocketState.curr_snd_seq_number (UdtSocket.state s) =
    SocketState.last_data_ack_processed (UdtSocket.state s)
      ⊕ (SndBuffer.current_position (UdtSocket.snd_buffer s) - 1);
  si_acked : valid (SocketState.last_ack_received (UdtSocket.state s));
  si_losses : wf (SocketState.snd_loss_list (UdtSocket.state s));
  si_in_flight x : lost (SocketState.snd_loss_list (UdtSocket.state s)) x →
    steps (SocketState.last_data_ack_processed (UdtSocket.state s)) x
      < SndBuffer.current_position (UdtSocket.snd_buffer s)
}.

Lemma snd_inv_new clock rnd id ty isn conf :
  valid rnd → (∀ i, isn = Some i → valid i) →
  (∀ c, conf = Some c → 0 <= UdtConfiguration.snd_buf_size c <= U32_MAX) →
  snd_inv (UdtSocket.new clock rnd id ty isn conf).
Proof.
  intros Hr Hi Hc.
  assert (valid (match isn with Some i => i | None => rnd end)) as Hv
    by (destruct isn; naive_solver).
  split; simpl; try done.
  - apply snd_wf_new. destruct conf; [naive_solver|]. simpl. unfold DEFAULT_UDT_BUF_SIZE. lia.
  - apply wf_new.
  - by intros x (k & a & e & ?%not_elem_of_nil & _).
Qed.

(** The fields of the sending side that the invariant reads. *)
Definition same_sender (s s' : UdtSocket.t) : Prop :=
  UdtSocket.snd_buffer s' = UdtSocket.snd_buffer s
  ∧ SocketState.last_data_ack_processed (UdtSocket.state s')
    = SocketState.last_data_ack_processed (UdtSocket.state s)
  ∧ SocketState.curr_snd_seq_number (UdtSocket.state s')
    = SocketState.curr_snd_seq_number (UdtSocket.state s)
  ∧ SocketState.last_ack_received (UdtSocket.state s')
    = SocketState.last_ack_received (UdtSocket.state s)
  ∧ SocketState.snd_loss_list (UdtSocket.state s') = SocketState.snd_loss_list (UdtSocket.state s).

Lemma same_sender_inv s s' : same_sender s s' → snd_inv s → snd_inv s'.
Proof. intros (E1 & E2 & E3 & E4 & E5) [? ? ? ? ? ?]. split; rewrite ?E1, ?E2, ?E3, ?E4, ?E5; auto. Qed.

#[export] Instance same_sender_preorder : PreOrder same_sender.
Proof.
  split; [by intros s|]. intros s1 s2 s3 (?&?&?&?&?) (?&?&?&?&?).
  unfold same_sender. split_and!; congruence.
Qed.

(** The packets of a batch, against the block each one carries. *)
Definition batch_of (s : UdtSocket.t) (packets : list UdtDataPacket.t) : Prop :=
  ∀ i p, packets !! i = Some p →
    let offset := (Z.to_nat (SndBuffer.current_position (UdtSocket.snd_buffer s)) + i)%nat in
    UdtDataPacketHeader.seq_number (UdtDataPacket.header p) =
      SocketState.last_data_ack_processed (UdtSocket.state s) ⊕ Z.of_nat offset
    ∧ ∃ block, SndBuffer.buffer (UdtSocket.snd_buffer s) !! offset = Some block
        ∧ UdtDataPacket.data p = SndBufferBlock.data block
        ∧ UdtDataPacketHeader.msg_number (UdtDataPacket.header p) = SndBufferBlock.msg_number block.

(** The window, as the code compares it. *)
Definition window_size (s : UdtSocket.t) : Z :=
  wrap_s 32 (Z.min (UdtFlow.flow_window_size (UdtSocket.flow s))
                   (RateControl.get_congestion_window_size (UdtSocket.rate_control s))).

Section fetch.
Context `{Profile} `{Env} `{FloatLib}.

(** The socket after [n] blocks more have been sent. *)
Definition sent (n : nat) (s : UdtSocket.t) : UdtSocket.t :=
  let seq := SocketState.curr_snd_seq_number (UdtSocket.state s) ⊕ Z.of_nat n in
  UdtSocket.set_rate_control
    (RateControl.set_curr_snd_seq_number seq (UdtSocket.rate_control s))
    (UdtSocket.set_state
      (SocketState.set_snd seq (SocketState.snd_loss_list (UdtSocket.state s)) (UdtSocket.state s))
      (UdtSocket.set_snd_buffer (advance n (UdtSocket.snd_buffer s)) s)).

Lemma sent_inv n s : snd_inv s → (n ≤ length (unsent (UdtSocket.snd_buffer s)))%nat →
  snd_inv (sent n s).
Proof.
  intros [Hb Hf Hc Ha Hl Hi] Hn. destruct (advance_spec n _ Hb Hn) as (Hb' & _ & _).
  split; simpl; try done.
  - rewrite Hc, seq_add_add. f_equal. lia.
  - intros x Hx. specialize (Hi x Hx). lia.
Qed.

(** The batch of [fetch_batch] has the numbers the invariant promises. *)
Lemma fetch_batch_of s times peer packets b : snd_inv s →
  SndBuffer.fetch_batch times (SocketState.curr_snd_seq_number (UdtSocket.state s) ⊕ 1) peer
    (UdtSocket.start_time s) (UdtSocket.snd_buffer s) = Ok (packets, b) →
  let n := (FETCH_BATCH_SIZE `min` length (unsent (UdtSocket.snd_buffer s)))%nat in
  batch_of s packets ∧ length packets = n ∧ b = advance n (UdtSocket.snd_buffer s).
Proof.
  intros Hinv. pose proof (si_buffer s Hinv) as Hb.
  rewrite fetch_batch_value by done. cbv zeta. intros [= <- <-].
  split_and!.
  - intros i p. rewrite list_lookup_imap. intros (block & Hi & ->)%fmap_Some.
    apply lookup_take_Some in Hi as [Hi _]. unfold unsent in Hi. rewrite lookup_drop in Hi.
    simpl. split; [|by exists block].
    rewrite (si_curr s Hinv), !seq_add_add. f_equal. pose proof (snd_position _ Hb). lia.
  - by rewrite length_imap, length_take.
  - unfold advance. f_equal. unfold len. by rewrite length_take.
Qed.

(** The socket with other pacing data. *)
Definition paced (diff target : Z) (s : UdtSocket.t) : UdtSocket.t :=
  UdtSocket.set_state (SocketState.set_pacing
    (SocketState.interpacket_interval (UdtSocket.state s)) diff target (UdtSocket.state s)) s.

Lemma paced_same_sender diff target s : same_sender s (paced diff target s).
Proof. done. Qed.

Lemma set_losses_id s : 
  UdtSocket.set_state (SocketState.set_snd (SocketState.curr_snd_seq_number (UdtSocket.state s))
    (SocketState.snd_loss_list (UdtSocket.state s)) (UdtSocket.state s)) s = s.
Proof. by destruct s as [? ? ? ? ? ? ? ? ? ? ? ? ? ? ? []]. Qed.

Lemma take_lost_none t s n tr :
  SocketState.snd_loss_list (UdtSocket.state s) = [] →
  sane (SocketState.interpacket_time_diff (UdtSocket.state s)) →
  sane (duration_since t (SocketState.next_data_target_time (UdtSocket.state s))) →
  ∃ diff, wf_duration diff ∧ take_lost t (World s n tr) =
    (Ok None, World (paced diff (SocketState.next_data_target_time (UdtSocket.state s)) s) n tr).
Proof.
  intros Hl Hd Ht. destruct s as [? ? ? ? ? ? ? ? ? ? ? ? ? ? ? []]; simpl in *. subst.
  set (delay := duration_since t _) in *.
  match type of Hd with sane ?d => exists (d + delay) end.
  assert (512 * SANE_DURATION <= DURATION_MAX) by done. unfold sane in *.
  split; [unfold wf_duration; lia|].
  unfold take_lost, gets_state, update_state, modify_state. run. simpl. fold delay.
  destruct (Z.eqb_spec delay 0) as [E|E]; run; simpl.
  - by rewrite E, Z.add_0_r.
  - unfold dur_add. rewrite duration_ok by (unfold wf_duration; lia). by run.
Qed.

Lemma pace_value t n k s tr : sane (SocketState.interpacket_interval (UdtSocket.state s)) →
  0 <= k <= 100 →
  ∃ diff time, pace t k (World s n tr) =
    (Ok time, World (paced diff (SocketState.next_data_target_time (UdtSocket.state s)) s) n tr)
  ∧ (0 <= SocketState.interpacket_time_diff (UdtSocket.state s) →
     0 <= diff <= SocketState.interpacket_time_diff (UdtSocket.state s)).
Proof.
  intros Hs Hk. unfold pace, modify_state. run. rewrite wrap_u_small by lia.
  rewrite sane_duration by (done || lia). unfold sane in Hs. run.
  case_match; run; eexists _, _; (split; [reflexivity|]); lia.
Qed.

Lemma fetch_new_value t s n tr peer d :
  snd_inv s → UdtSocket.peer_socket_id s = Some peer →
  SocketState.curr_snd_seq_number (UdtSocket.state s)
    ⊖ SocketState.last_ack_received (UdtSocket.state s) = Ok d →
  let k := (FETCH_BATCH_SIZE `min` length (unsent (UdtSocket.snd_buffer s)))%nat in
  if (d >? window_size s) || (k =? 0)%nat then
    ∃ n', fetch_new t (World s n tr) = (Ok None, World (paced 0 t s) n' tr)
  else ∃ packets probe, batch_of s packets ∧ length packets = k
    ∧ fetch_new t (World s n tr) = (Ok (Some (packets, probe)), World (sent k s) (n + FETCH_BATCH_SIZE) tr).
Proof.
  intros Hinv Hp Hd k. pose proof (si_buffer s Hinv) as Hb.
  unfold fetch_new, diff, reset_pacing, modify_state, modify_rate_control. run. rewrite Hd. run.
  fold (window_size s). destruct (d >? window_size s); simpl; [by eexists; run|]. run.
  rewrite Hp. run.
  destruct (SndBuffer.fetch_batch _ _ _ _ _) as [[packets b]| |] eqn:E;
    [|rewrite fetch_batch_value in E by done; done..].
  destruct (fetch_batch_of s _ _ _ _ Hinv E) as (Hbatch & Hlen & ->). fold k in Hlen |- *. run.
  destruct (Nat.eqb_spec k 0) as [Hk|Hk].
  - rewrite Hk in Hlen |- *. destruct packets; [|done]. run. eexists. do 2 f_equal.
    unfold paced, advance. destruct s as [? ? ? ? ? ? ? ? ? ? ? [] ? ? ? []]. simpl.
    by rewrite Z.add_0_r.
  - destruct packets as [|p packets]; [simpl in Hlen; lia|].
    assert (wrap_s 32 (len (p :: packets)) = Z.of_nat k) as Hw.
    { unfold len. rewrite Hlen. apply wrap_s_small; [done|]. unfold k, FETCH_BATCH_SIZE. simpl Z.sub. lia. }
    eexists _, _. split; [done|]. split; [done|]. run. by rewrite Hw.
Qed.

(** C16. On a socket whose invariant holds, with an empty loss list, [next_data_packets]
    succeeds and keeps the invariant.  It sends nothing exactly when the window is
    exceeded or nothing is left to send; otherwise it sends the next
    [min 100 (unsent)] blocks, each under its own sequence number. *)
Theorem next_data_packets_new w peer d :
  let s := sock w in
  let st := UdtSocket.state s in
  snd_inv s → UdtStatus.is_alive (UdtSocket.status s) = true →
  UdtSocket.peer_socket_id s = Some peer → SocketState.snd_loss_list st = [] →
  sane (SocketState.interpacket_interval st) → sane (SocketState.interpacket_time_diff st) →
  sane (duration_since (clock (ticks w)) (SocketState.next_data_target_time st)) →
  SocketState.curr_snd_seq_number st ⊖ SocketState.last_ack_received st = Ok d →
  let k := (FETCH_BATCH_SIZE `min` length (unsent (UdtSocket.snd_buffer s)))%nat in
  ∃ r w', next_data_packets w = (Ok r, w') ∧ snd_inv (sock w') ∧ trace w' = trace w
  ∧ match r with
    | None => (d > window_size s ∨ k = 0%nat) ∧ same_sender s (sock w')
    | Some (packets, _) => d <= window_size s ∧ (0 < k)%nat
        ∧ batch_of s packets ∧ length packets = k
        ∧ unsent (UdtSocket.snd_buffer (sock w')) = drop k (unsent (UdtSocket.snd_buffer s))
        ∧ SocketState.curr_snd_seq_number (UdtSocket.state (sock w'))
          = SocketState.curr_snd_seq_number st ⊕ Z.of_nat k
    end.
Proof.
  intros s st Hinv Halive Hp Hl Hi Hd Ht Hdiff k. subst st. destruct w as [s0 n tr].
  cbn [sock ticks trace] in *. subst s. rename s0 into s.
  unfold next_data_packets, begin_data_packets, finish_data_packets. run. rewrite Halive. run.
  destruct (take_lost_none (clock n) s (S n) tr Hl Hd Ht) as (diff & Hwf & ->). run.
  set (s1 := paced diff _ s).
  assert (snd_inv s1) as Hinv1 by (by eapply same_sender_inv; [apply paced_same_sender|]).
  pose proof (fetch_new_value (clock n) s1 (S n) tr peer d Hinv1 Hp Hdiff) as Hf.
  change (unsent (UdtSocket.snd_buffer s1)) with (unsent (UdtSocket.snd_buffer s)) in Hf.
  change (window_size s1) with (window_size s) in Hf. cbv zeta in Hf. fold k in Hf.
  destruct (Z.gtb_spec d (window_size s)) as [Hw|Hw], (Nat.eqb_spec k 0) as [Hk|Hk]; simpl in Hf.
  1-3: destruct Hf as (n' & ->); run; eexists _, _; split; [done|];
    split; [by eapply same_sender_inv; [apply paced_same_sender|]|]; split; [done|];
    split; [by lia || auto|done].
  destruct Hf as (packets & probe & Hbatch & Hlen & ->). run.
  destruct (advance_spec k (UdtSocket.snd_buffer s) (si_buffer s Hinv)) as (_ & _ & Hun); [lia|].
  assert (snd_inv (sent k s1)) as Hsent by (apply sent_inv; [done|]; simpl; lia).
  destruct probe; run.
  - eexists _, _. split; [done|]. split; [done|]. split; [done|]. by split_and!; (done || lia).
  - destruct (pace_value (clock n) (S (n + FETCH_BATCH_SIZE)) (len packets) (sent k s1) tr)
      as (diff' & time & -> & _); [done|unfold len, k, FETCH_BATCH_SIZE in *; lia|]. run.
    eexists _, _. split; [done|]. cbn [sock trace].
    split; [by eapply same_sender_inv; [apply paced_same_sender|]|]. split; [done|].
    by split_and!; (done || lia).
Qed.
End fetch.

(** ** Acknowledgements *)

(** The numbers in flight do not wrap, and the window is less than half their range. *)
Record near (s : UdtSocket.t) : Prop := {
  near_range : SocketState.last_data_ack_processed (UdtSocket.state s)
    + SndBuffer.current_position (UdtSocket.snd_buffer s) <= SEQ_MAX;
  near_window : SndBuffer.current_position (UdtSocket.snd_buffer s) < 2 ^ 30;
  near_acked : SocketState.last_data_ack_processed (UdtSocket.state s)
    <= SocketState.last_ack_received (UdtSocket.state s)
    <= SocketState.last_data_ack_processed (UdtSocket.state s)
       + SndBuffer.current_position (UdtSocket.snd_buffer s)
}.

Lemma curr_near s : snd_inv s → near s → 0 < SndBuffer.current_position (UdtSocket.snd_buffer s) →
  SocketState.curr_snd_seq_number (UdtSocket.state s)
  = SocketState.last_data_ack_processed (UdtSocket.state s)
    + SndBuffer.current_position (UdtSocket.snd_buffer s) - 1.
Proof.
  intros Hinv [Hr _ _] Hp. pose proof (si_first s Hinv) as Ha. unfold valid in Ha.
  rewrite (si_curr s Hinv), seq_add_small; lia.
Qed.

Section acks.
Context `{Profile} `{Env} `{FloatLib}.

(** The loss list and the numbers after an acknowledgement of everything before [seq]. *)
Lemma ack_removes_losses a seq m : wf m → valid a → a < seq <= SEQ_MAX →
  ∃ m', loss_remove_all a (seq - 1) m = Ok m' ∧ wf m' ∧ ∀ x, lost m' x ↔ lost m x ∧ ¬ a <= x < seq.
Proof.
  intros Hm Ha Hs. unfold loss_remove_all, LOSS_FUEL.
  destruct (remove_all_spec 2 a (seq - 1) m) as (m' & -> & Hwf & Hl); [lia|done|done| |].
  { unfold valid in *. lia. }
  exists m'. split; [done|]. split; [done|]. intros x. rewrite Hl. unfold between.
  rewrite (proj2 (Z.leb_le _ _)) by lia. naive_solver lia.
Qed.

Lemma lost_steps s x : snd_inv s → near s → lost (SocketState.snd_loss_list (UdtSocket.state s)) x →
  SocketState.last_data_ack_processed (UdtSocket.state s) <= x
    < SocketState.last_data_ack_processed (UdtSocket.state s)
      + SndBuffer.current_position (UdtSocket.snd_buffer s).
Proof.
  intros Hinv [Hr Hw _] Hx. pose proof (si_in_flight s Hinv x Hx) as Hs.
  pose proof (wf_lost_valid _ _ (si_losses s Hinv) Hx) as Hv.
  pose proof (si_first s Hinv) as Ha. rewrite steps_value in Hs by done.
  unfold valid, SEQ_MAX in *. case_match; lia.
Qed.

(** The state after a fresh acknowledgement. *)
Definition acked (seq available : Z) (b : SndBuffer.t) (losses : LossList.t) (s : UdtSocket.t) : UdtSocket.t :=
  let st := UdtSocket.state s in
  let newer := seq >=? SocketState.last_ack_received st in
  let s := UdtSocket.set_snd_buffer b s in
  let s := UdtSocket.set_flow (if newer then UdtFlow.set_flow_window_size available (UdtSocket.flow s)
                               else UdtSocket.flow s) s in
  UdtSocket.set_state (SocketState.set_snd (SocketState.curr_snd_seq_number st) losses
    (SocketState.set_ack_received (if newer then seq else SocketState.last_ack_received st) seq st)) s.

Lemma ack_received_value s n tr seq available b losses mux :
  snd_inv s → near s → UdtSocket.multiplexer s = Some mux →
  let a := SocketState.last_data_ack_processed (UdtSocket.state s) in
  a < seq <= a + SndBuffer.current_position (UdtSocket.snd_buffer s) →
  SndBuffer.ack_data (seq - a) (UdtSocket.snd_buffer s) = Ok b →
  loss_remove_all a (seq - 1) (SocketState.snd_loss_list (UdtSocket.state s)) = Ok losses →
  ack_received seq available (World s n tr) =
    (Ok true, World (acked seq available b losses s) n
       (tr ++ [SndQueueUpdate (UdtSocket.socket_id s) false; NotifyWaiters AckNotify])).
Proof.
  intros Hinv Hnear Hmux a Hseq Hb Hl.
  assert (0 < SndBuffer.current_position (UdtSocket.snd_buffer s)) as Hpos by lia.
  pose proof (curr_near s Hinv Hnear Hpos) as Hcurr. pose proof Hnear as [Hr Hw Ha].
  pose proof (si_first s Hinv) as Hav. pose proof (si_acked s Hinv) as Hlv. unfold valid in Hav, Hlv.
  fold a in Hr, Ha, Hcurr, Hav.
  unfold ack_received, gets_state, diff, modify_flow, modify_state, update_state, set_status,
    update_snd_queue. run.
  rewrite Hcurr, seq_sub_near by (unfold valid; lia). run.
  rewrite (Z.gtb_ltb _ 1), (proj2 (Z.ltb_ge 1 _)) by lia. run.
  rewrite seq_sub_near by (unfold valid; lia). run.
  assert ((seq - SocketState.last_ack_received (UdtSocket.state s) >=? 0)
    = (seq >=? SocketState.last_ack_received (UdtSocket.state s))) as ->
    by (rewrite !Z.geb_leb; destruct (Z.leb_spec 0 (seq - SocketState.last_ack_received (UdtSocket.state s))),
          (Z.leb_spec (SocketState.last_ack_received (UdtSocket.state s)) seq); (done || lia)).
  destruct s as [? ? ? ? ? ? ? ? ? ? ? ? ? ? ? []]; simpl in *. subst a.
  destruct (seq >=? _) eqn:Hge; run; simpl;
    rewrite seq_sub_near by (unfold valid; lia); run;
    rewrite (proj2 (Z.leb_gt (seq - _) 0)) by lia; run; simpl;
    rewrite Hb; run; simpl;
    rewrite (seq_add_small seq (1 * -1)) by lia; change (seq + 1 * - 1) with (seq - 1);
    run; simpl; rewrite Hl; run; simpl; rewrite Hmux; run; simpl;
    run; unfold acked; simpl; rewrite Hge; by rewrite <- app_assoc.
Qed.

Lemma acked_inv s seq available b losses :
  snd_inv s → near s →
  let a := SocketState.last_data_ack_processed (UdtSocket.state s) in
  let pos := SndBuffer.current_position (UdtSocket.snd_buffer s) in
  a < seq <= a + pos → snd_wf b → SndBuffer.current_position b = pos - (seq - a) →
  wf losses → (∀ x, lost losses x ↔ lost (SocketState.snd_loss_list (UdtSocket.state s)) x ∧ ¬ a <= x < seq) →
  snd_inv (acked seq available b losses s).
Proof.
  intros Hinv Hnear a pos Hseq Hb Hpos Hwf Hl. pose proof (si_first s Hinv) as Ha. fold a in Ha.
  pose proof Hnear as [Hr Hw _]. fold a pos in Hr, Hw. unfold valid in Ha.
  split; simpl; try done.
  - unfold valid. lia.
  - rewrite (si_curr s Hinv). fold a pos. unfold GenericSeqNumber.add. f_equal. lia.
  - case_match; [unfold valid; lia|apply (si_acked s Hinv)].
  - intros x [Hx Hnot]%Hl. pose proof (lost_steps s x Hinv Hnear Hx) as Hb'. fold a pos in Hb'.
    rewrite steps_value by (unfold valid; lia). case_match; lia.
Qed.

(** C17. A full acknowledgement of [seq], for data in flight and away from the
    wrap-around point, releases exactly the blocks before [seq] and forgets exactly the
    losses before [seq]; the unsent blocks and the status do not change, the invariant
    is kept, the sender is rescheduled and the waiters for acknowledgements are woken. *)
Theorem ack_received_advances w seq available mux :
  let s := sock w in
  let a := SocketState.last_data_ack_processed (UdtSocket.state s) in
  snd_inv s → near s → UdtSocket.multiplexer s = Some mux →
  a < seq <= a + SndBuffer.current_position (UdtSocket.snd_buffer s) →
  ∃ s', ack_received seq available w =
    (Ok true, World s' (ticks w)
      (trace w ++ [SndQueueUpdate (UdtSocket.socket_id s) false; NotifyWaiters AckNotify]))
  ∧ snd_inv s' ∧ SocketState.last_data_ack_processed (UdtSocket.state s') = seq
  ∧ in_flight (UdtSocket.snd_buffer s') = drop (Z.to_nat (seq - a)) (in_flight (UdtSocket.snd_buffer s))
  ∧ unsent (UdtSocket.snd_buffer s') = unsent (UdtSocket.snd_buffer s)
  ∧ (∀ x, lost (SocketState.snd_loss_list (UdtSocket.state s')) x ↔
       lost (SocketState.snd_loss_list (UdtSocket.state s)) x ∧ seq <= x)
  ∧ UdtSocket.status s' = UdtSocket.status s
  ∧ SocketState.last_ack_received (UdtSocket.state s')
    = Z.max seq (SocketState.last_ack_received (UdtSocket.state s))
  ∧ (SocketState.last_ack_received (UdtSocket.state s) <= seq →
       UdtFlow.flow_window_size (UdtSocket.flow s') = available).
Proof.
  intros s a Hinv Hnear Hmux Hseq. destruct w as [s0 n tr]. cbn [sock ticks trace] in *. subst s.
  rename s0 into s. pose proof (si_buffer s Hinv) as Hb. pose proof (near_range s Hnear) as Hr. fold a in Hr.
  destruct (ack_removes_losses a seq _ (si_losses s Hinv) (si_first s Hinv)) as (losses & Hl & Hwf & Hlost); [lia|].
  destruct (pop_acked_parts (seq - a) (UdtSocket.snd_buffer s) Hb) as (b & Hack & Hb' & Hin & Hun & Hpos); [lia|].
  rewrite (ack_received_value s n tr seq available b losses mux) by done.
  eexists. split; [done|]. split; [eapply acked_inv; (done || lia)|]. split_and!; try done.
  - simpl. intros x. rewrite Hlost. split; [|naive_solver lia]. intros [Hx Hn]. split; [done|].
    pose proof (lost_steps s x Hinv Hnear Hx) as Hrange. fold a in Hrange. lia.
  - simpl. rewrite Z.geb_leb. case_match; lia.
  - simpl. intros Hle. rewrite Z.geb_leb, (proj2 (Z.leb_le _ _)) by done. done.
Qed.

(** C38. A full acknowledgement of data that has never been sent, while unsent data
    waits, marks the socket [Broken] but goes on to release blocks that are not in
    flight: with overflow checks the receiving task panics. *)
Theorem ack_beyond_sent_panics w seq available :
  let s := sock w in
  let a := SocketState.last_data_ack_processed (UdtSocket.state s) in
  snd_inv s → near s → overflow_checks = true → unsent (UdtSocket.snd_buffer s) ≠ [] →
  0 < SndBuffer.current_position (UdtSocket.snd_buffer s) →
  a + SndBuffer.current_position (UdtSocket.snd_buffer s) < seq <= SEQ_MAX → seq - a < 2 ^ 30 →
  (ack_received seq available w).1 = Panic
  ∧ UdtSocket.status (sock (ack_received seq available w).2) = Broken.
Proof.
  intros s a Hinv Hnear Hchk Hun Hpos Hseq Hw. destruct w as [s0 n tr]. cbn [sock ticks trace] in *. subst s.
  rename s0 into s. pose proof (curr_near s Hinv Hnear Hpos) as Hcurr.
  pose proof Hnear as [Hr Hw' Ha]. pose proof (si_first s Hinv) as Hav.
  pose proof (si_acked s Hinv) as Hlv. unfold valid in Hav, Hlv. fold a in Hr, Ha, Hcurr, Hav.
  assert (SndBuffer.ack_data (seq - a) (UdtSocket.snd_buffer s) = Panic) as Hp.
  { apply ack_data_beyond; [apply Hinv|lia|done|done]. }
  unfold ack_received, gets_state, diff, modify_flow, modify_state, set_status. run.
  rewrite Hcurr, seq_sub_near by (unfold valid; lia). run.
  rewrite (proj2 (Z.gtb_lt _ 1)) by lia. run.
  destruct s as [? ? ? ? ? ? ? ? ? ? ? ? ? ? ? []]; simpl in *. subst a.
  rewrite seq_sub_near by (unfold valid; lia). run.
  destruct (_ >=? 0); run; simpl; rewrite seq_sub_near by (unfold valid; lia); run;
    rewrite (proj2 (Z.leb_gt (seq - _) 0)) by lia; run; simpl; rewrite Hp; by run.
Qed.

(** A light acknowledgement of [nb] packets takes [nb] from the flow window without
    looking at its size: a window smaller than [nb] (it is 0 on the side that
    connects until the first full acknowledgement) underflows. *)
Theorem light_ack_window w seq nb :
  let s := sock w in
  let window := UdtFlow.flow_window_size (UdtSocket.flow s) in
  seq ⊖ SocketState.last_ack_received (UdtSocket.state s) = Ok nb → 0 <= nb <= 2 ^ 30 →
  0 <= window <= U32_MAX →
  if nb <=? window then
    ∃ s', on_light_ack seq w = (Ok (), World s' (ticks w) (trace w))
    ∧ UdtFlow.flow_window_size (UdtSocket.flow s') = window - nb
    ∧ SocketState.last_ack_received (UdtSocket.state s') = seq
    ∧ UdtSocket.snd_buffer s' = UdtSocket.snd_buffer s
  else overflow_checks = true → (on_light_ack seq w).1 = Panic.
Proof.
  intros s window Hd Hnb Hw. unfold on_light_ack, gets_state, diff, modify_state, update_flow. run.
  fold s. rewrite Hd. run. rewrite (Z.geb_leb nb 0), (proj2 (Z.leb_le 0 nb)) by lia. run.
  rewrite wrap_u_small by lia.
  change (UdtFlow.flow_window_size (UdtSocket.flow (UdtSocket.set_state _ (sock w)))) with window.
  destruct (Z.leb_spec nb window).
  - rewrite arith_u_ok by lia. run. by eexists.
  - intros Hchk. rewrite arith_u_bad by lia. rewrite Hchk. by run.
Qed.
End acks.

(** ** Retransmission *)

Section resend.
Context `{Profile} `{Env} `{FloatLib}.

(** The socket once [seq] has been taken from the loss list and the delay credited. *)
Definition taken (seq diff : Z) (s : UdtSocket.t) : UdtSocket.t :=
  let st := UdtSocket.state s in
  UdtSocket.set_state (SocketState.set_pacing (SocketState.interpacket_interval st) diff
    (SocketState.next_data_target_time st)
    (SocketState.set_snd (SocketState.curr_snd_seq_number st)
       (LossList.remove seq (SocketState.snd_loss_list st)) st)) s.

Lemma taken_inv seq diff s : snd_inv s → snd_inv (taken seq diff s).
Proof.
  intros [Hb Hf Hc Ha Hl Hi]. destruct (remove_spec _ seq Hl) as [Hwf Hrem].
  split; simpl; try done. intros x [Hx _]%Hrem. auto.
Qed.

Lemma take_lost_some t s n tr seq : snd_inv s → near s →
  LossList.peek_after (SocketState.last_data_ack_processed (UdtSocket.state s))
    (SocketState.snd_loss_list (UdtSocket.state s)) = Some seq →
  let credit := SocketState.interpacket_time_diff (UdtSocket.state s)
    + duration_since t (SocketState.next_data_target_time (UdtSocket.state s)) in
  0 <= SocketState.interpacket_time_diff (UdtSocket.state s) → credit <= DURATION_MAX →
  take_lost t (World s n tr) =
    (Ok (Some (seq, seq - SocketState.last_data_ack_processed (UdtSocket.state s))),
     World (taken seq credit s) n tr).
Proof.
  intros Hinv Hnear Hpeek credit Hd Ht. subst credit.
  pose proof (peek_after_spec _ _ (si_losses s Hinv) (si_first s Hinv)) as Hspec.
  rewrite Hpeek in Hspec. destruct Hspec as [Hlost _].
  pose proof (lost_steps s seq Hinv Hnear Hlost) as Hrange.
  pose proof (wf_lost_valid _ _ (si_losses s Hinv) Hlost) as Hv.
  pose proof (si_first s Hinv) as Ha. pose proof (near_window s Hnear) as Hw.
  pose proof (pop_after_value (SocketState.last_data_ack_processed (UdtSocket.state s)) _
    (si_losses s Hinv)) as Hpop. rewrite Hpeek in Hpop. clear Hinv Hnear.
  unfold taken. destruct s as [? ? ? ? ? ? ? ? ? ? ? ? ? ? ? []]; simpl in *.
  set (delay := duration_since t _) in *. assert (0 <= delay) by apply duration_since_nonneg.
  unfold take_lost, gets_state, update_state, modify_state, diff. run. simpl. fold delay.
  destruct (Z.eqb_spec delay 0) as [E|E]; run; simpl.
  - run. simpl. rewrite Hpop. run. rewrite seq_sub_near by (done || lia). run. simpl. by rewrite E, Z.add_0_r.
  - unfold dur_add. rewrite duration_ok by (unfold wf_duration; lia). run. simpl. run. simpl.
    rewrite Hpop. run. rewrite seq_sub_near by (done || lia). by run.
Qed.

(** The socket after [seq] has been retransmitted, [delay] after its target time. *)
Record resent (seq delay : Z) (s s' : UdtSocket.t) : Prop := {
  re_buffer : UdtSocket.snd_buffer s' = UdtSocket.snd_buffer s;
  re_status : UdtSocket.status s' = UdtSocket.status s;
  re_peer : UdtSocket.peer_socket_id s' = UdtSocket.peer_socket_id s;
  re_first : SocketState.last_data_ack_processed (UdtSocket.state s')
    = SocketState.last_data_ack_processed (UdtSocket.state s);
  re_acked : SocketState.last_ack_received (UdtSocket.state s')
    = SocketState.last_ack_received (UdtSocket.state s);
  re_curr : SocketState.curr_snd_seq_number (UdtSocket.state s')
    = SocketState.curr_snd_seq_number (UdtSocket.state s);
  re_interval : SocketState.interpacket_interval (UdtSocket.state s')
    = SocketState.interpacket_interval (UdtSocket.state s);
  re_target : SocketState.next_data_target_time (UdtSocket.state s')
    = SocketState.next_data_target_time (UdtSocket.state s);
  re_credit : 0 <= SocketState.interpacket_time_diff (UdtSocket.state s')
    <= SocketState.interpacket_time_diff (UdtSocket.state s) + delay;
  re_losses : SocketState.snd_loss_list (UdtSocket.state s')
    = LossList.remove seq (SocketState.snd_loss_list (UdtSocket.state s))
}.

Lemma resent_inv seq delay s s' : resent seq delay s s' → snd_inv s → snd_inv s'.
Proof.
  intros [Eb _ _ Ef Ea Ec _ _ _ El] Hinv. eapply (same_sender_inv (taken seq 0 s)); [|by apply taken_inv].
  unfold same_sender, taken. simpl. by rewrite Eb, Ef, Ea, Ec, El.
Qed.

Lemma resent_near seq delay s s' : resent seq delay s s' → near s → near s'.
Proof. intros [Eb _ _ Ef Ea _ _ _ _ _] [? ? ?]. split; by rewrite ?Eb, ?Ef, ?Ea. Qed.

Lemma next_data_packets_parts w peer seq :
  let s := sock w in
  let st := UdtSocket.state s in
  let a := SocketState.last_data_ack_processed st in
  let delay := duration_since (clock (ticks w)) (SocketState.next_data_target_time st) in
  snd_inv s → near s → UdtStatus.is_alive (UdtSocket.status s) = true →
  UdtSocket.peer_socket_id s = Some peer →
  lost (SocketState.snd_loss_list st) seq → (∀ x, lost (SocketState.snd_loss_list st) x → seq <= x) →
  (∀ block, block ∈ SndBuffer.buffer (UdtSocket.snd_buffer s) → SndBufferBlock.ttl block = None) →
  sane (SocketState.interpacket_interval st) →
  0 <= SocketState.interpacket_time_diff st → SocketState.interpacket_time_diff st + delay <= DURATION_MAX →
  ∃ p time w' block, next_data_packets w = (Ok (Some ([p], time)), w')
  ∧ UdtDataPacketHeader.seq_number (UdtDataPacket.header p) = seq
  ∧ SndBuffer.buffer (UdtSocket.snd_buffer s) !! Z.to_nat (seq - a) = Some block
  ∧ UdtDataPacket.data p = SndBufferBlock.data block
  ∧ UdtDataPacketHeader.msg_number (UdtDataPacket.header p) = SndBufferBlock.msg_number block
  ∧ resent seq delay s (sock w').
Proof.
  intros s st a delay Hinv Hnear Halive Hp Hlost Hmin Httl Hi Hd Ht. destruct w as [s0 n tr].
  cbn [sock ticks trace] in *. subst s. rename s0 into s.
  pose proof (si_losses s Hinv) as Hwf. pose proof (lost_steps s seq Hinv Hnear Hlost) as Hrange.
  fold st a in Hrange.
  assert (LossList.peek_after a (SocketState.snd_loss_list st) = Some seq) as Hpeek.
  { apply peek_after_least; [done|apply (si_first s Hinv)|done|]. intros x Hx. split; [lia|auto]. }
  pose proof (take_lost_some (clock n) s (S n) tr seq Hinv Hnear Hpeek Hd Ht) as Htake.
  fold st a in Htake. cbv zeta in Htake.
  assert (∃ block, SndBuffer.buffer (UdtSocket.snd_buffer s) !! Z.to_nat (seq - a) = Some block)
    as (block & Hblock).
  { apply lookup_lt_is_Some_2. pose proof (snd_position _ (si_buffer s Hinv)). unfold len in *. lia. }
  unfold next_data_packets, begin_data_packets, finish_data_packets. run. rewrite Halive. run. rewrite Htake. run.
  rewrite (proj2 (Z.ltb_ge (seq - a) 0)) by lia. run. unfold read_block. run. simpl. rewrite Hp. run.
  unfold SndBuffer.read_data. simpl. rewrite Hblock. unfold SndBufferBlock.has_expired.
  rewrite (Httl block) by (by eapply list_elem_of_lookup_2). run.
  match goal with |- context [pace _ _ (World ?s1 ?n1 ?tr1)] =>
    destruct (pace_value (clock n) n1 1 s1 tr1) as (diff' & time & Hpace & Hcredit); [done|lia|] end.
  rewrite Hpace. run. eexists _, _, _, block. split; [done|]. split_and!; try done; cbn [sock].
  simpl in Hcredit. split; simpl; try done. apply Hcredit.
  unfold delay. pose proof (duration_since_nonneg (clock n) (SocketState.next_data_target_time st)). fold st. lia.
Qed.

(** When something is lost, [next_data_packets] retransmits exactly one packet: the
    oldest lost one, with the bytes and the message number of the block that was sent
    under its number; it is taken from the loss list, nothing else is, no new data is
    sent, and the invariant is kept. *)
Theorem next_data_packets_resends w peer seq :
  let s := sock w in
  let st := UdtSocket.state s in
  let a := SocketState.last_data_ack_processed st in
  snd_inv s → near s → UdtStatus.is_alive (UdtSocket.status s) = true →
  UdtSocket.peer_socket_id s = Some peer →
  lost (SocketState.snd_loss_list st) seq → (∀ x, lost (SocketState.snd_loss_list st) x → seq <= x) →
  (∀ block, block ∈ SndBuffer.buffer (UdtSocket.snd_buffer s) → SndBufferBlock.ttl block = None) →
  sane (SocketState.interpacket_interval st) → sane (SocketState.interpacket_time_diff st) →
  sane (duration_since (clock (ticks w)) (SocketState.next_data_target_time st)) →
  ∃ p time w' block, next_data_packets w = (Ok (Some ([p], time)), w')
  ∧ UdtDataPacketHeader.seq_number (UdtDataPacket.header p) = seq
  ∧ SndBuffer.buffer (UdtSocket.snd_buffer s) !! Z.to_nat (seq - a) = Some block
  ∧ UdtDataPacket.data p = SndBufferBlock.data block
  ∧ UdtDataPacketHeader.msg_number (UdtDataPacket.header p) = SndBufferBlock.msg_number block
  ∧ snd_inv (sock w') ∧ UdtSocket.snd_buffer (sock w') = UdtSocket.snd_buffer s
  ∧ SocketState.curr_snd_seq_number (UdtSocket.state (sock w')) = SocketState.curr_snd_seq_number st
  ∧ ∀ x, lost (SocketState.snd_loss_list (UdtSocket.state (sock w'))) x ↔
         lost (SocketState.snd_loss_list st) x ∧ x ≠ seq.
Proof.
  intros s st a Hinv Hnear Halive Hp Hlost Hmin Httl Hi Hd Ht.
  assert (2 * SANE_DURATION <= DURATION_MAX) by done. unfold sane in Hd, Ht.
  destruct (next_data_packets_parts w peer seq) as (p & time & w' & block & Hrun & Hseq & Hb & Hdata & Hmsg & Hre);
    [done..|apply Hd|cbv zeta; fold s st; lia|].
  exists p, time, w', block. split_and!; try done.
  - by eapply resent_inv.
  - apply Hre.
  - apply Hre.
  - intros x. rewrite (re_losses _ _ _ _ Hre). apply remove_spec, (si_losses s Hinv).
Qed.
End resend.

(** ** Witnesses *)

(** Three blocks, the first two in flight as packets 100 and 101. *)
Definition sender_block (d : list Z) : SndBufferBlock.t := SndBufferBlock.mk d 0 0 None false Only.
Definition sample_sender (window : Z) (losses : LossList.t) : UdtSocket.t :=
  UdtSocket.set_state (SocketState.set_snd 101 losses (UdtSocket.state sample_socket))
    (UdtSocket.set_flow (UdtFlow.set_flow_window_size window (UdtSocket.flow sample_socket))
      (UdtSocket.set_snd_buffer
        (SndBuffer.mk 8 [sender_block [1]; sender_block [2]; sender_block [3]] 1456 1 2) sample_socket)).
Definition sender_world (window : Z) (losses : LossList.t) : world UdtSocket.t :=
  World (sample_sender window losses) 10 [].

Definition sample_losses : LossList.t := [(100, (100, 101))].

Lemma sample_losses_wf : wf sample_losses.
Proof.
  split.
  - repeat constructor.
  - by intros k s e [= -> -> ->]%list_elem_of_singleton.
  - intros k s e k' s' e' [= -> -> ->]%list_elem_of_singleton [= -> -> ->]%list_elem_of_singleton. lia.
Defined.

Lemma lost_sample x : lost sample_losses x ↔ 100 <= x <= 101.
Proof.
  split.
  - by intros (k & s & e & [= -> -> ->]%list_elem_of_singleton & ?).
  - intros. exists 100, 100, 101. split; [left|done].
Defined.

Lemma sample_sender_inv window losses : losses = [] ∨ losses = sample_losses →
  snd_inv (sample_sender window losses).
Proof.
  intros Hl. split; simpl; try done.
  - destruct Hl as [->| ->]; [apply wf_new|apply sample_losses_wf].
  - destruct Hl as [->| ->]; [by intros x (k & s & e & ?%not_elem_of_nil & _)|].
    intros x ?%lost_sample. rewrite steps_value by (unfold valid, SEQ_MAX; lia). case_match; lia.
Defined.

Lemma sample_sender_near window losses : near (sample_sender window losses).
Proof. split; simpl; unfold SEQ_MAX; lia. Defined.

Lemma next_data_packets_new_witness :
  ∃ r w', @next_data_packets true sample_env (sender_world 16 []) = (Ok r, w')
  ∧ snd_inv (sock w')
  ∧ match r with
    | Some (packets, _) => length packets = 1%nat ∧ unsent (UdtSocket.snd_buffer (sock w')) = []
    | None => True
    end.
Proof.
  destruct (@next_data_packets_new true sample_env (sender_world 16 []) 2 1)
    as (r & w' & E & Hinv & _ & Hr);
    [apply sample_sender_inv; by left|done|done|done|by vm_compute..|].
  exists r, w'. split; [exact E|]. split; [exact Hinv|].
  destruct r as [[packets t]|]; [|exact I]. destruct Hr as (_ & _ & _ & Hlen & Hun & _).
  split; [exact Hlen|exact Hun].
Defined.

Lemma ack_received_advances_witness :
  ∃ s', @ack_received true 101 50 (sender_world 16 sample_losses)
    = (Ok true, World s' 10 [SndQueueUpdate 1 false; NotifyWaiters AckNotify])
  ∧ snd_inv s' ∧ in_flight (UdtSocket.snd_buffer s') = [sender_block [2]].
Proof.
  destruct (@ack_received_advances true (sender_world 16 sample_losses) 101 50 1)
    as (s' & E & Hinv & _ & Hin & _);
    [apply sample_sender_inv; by right|apply sample_sender_near|done|by vm_compute|].
  exists s'. split; [exact E|]. split; [exact Hinv|exact Hin].
Defined.

Lemma ack_beyond_sent_panics_witness :
  (@ack_received true 105 50 (sender_world 16 [])).1 = Panic.
Proof.
  apply (@ack_beyond_sent_panics true (sender_world 16 []) 105 50);
    [apply sample_sender_inv; by left|apply sample_sender_near|done|done|done|by vm_compute|by vm_compute].
Defined.

Lemma light_ack_window_witness : (@on_light_ack true 101 (sender_world 0 [])).1 = Panic.
Proof. by apply (@light_ack_window true (sender_world 0 []) 101 1). Defined.

Lemma next_data_packets_resends_witness :
  ∃ p time w', @next_data_packets true sample_env (sender_world 0 sample_losses)
    = (Ok (Some ([p], time)), w')
  ∧ UdtDataPacketHeader.seq_number (UdtDataPacket.header p) = 100 ∧ UdtDataPacket.data p = [1].
Proof.
  destruct (@next_data_packets_resends true sample_env (sender_world 0 sample_losses) 2 100)
    as (p & time & w' & block & E & Hseq & Hblock & Hdata & _);
    [apply sample_sender_inv; by right|apply sample_sender_near|done|done|by apply lost_sample
    |by intros x ?%lost_sample; lia| |by vm_compute..|].
  - intros block. simpl. set_unfold. by intros [-> | [-> | [-> | []]]].
  - exists p, time, w'. split; [exact E|]. split; [exact Hseq|]. rewrite Hdata.
    vm_compute in Hblock. by injection Hblock as <-.
Defined.
