(* ===== verification/socket_receiver.v ===== *)
(** * The receiving side of a socket

    The invariant [rcv_inv] says what the receiver knows: every number from the last
    acknowledgement to the largest number received is either in the receive buffer or
    in the loss list. *)

From S2P Require Import prelude seq_number time data_packet control_packet packet.
From S2P Require Import btree_map loss_list ack_window rcv_buffer snd_buffer float flow.
From S2P Require Import configuration rate_control socket_state world socket samples.

#[local] Arguments GenericSeqNumber.sub_i32 : simpl never.
#[local] Arguments GenericSeqNumber.add : simpl never.
#[local] Arguments GenericSeqNumber.sub : simpl never.
#[local] Arguments LossList.insert : simpl never.
#[local] Arguments LossList.remove : simpl never.
#[local] Arguments RcvBuffer.insert : simpl never.

Notation curr_rcv s := (SocketState.curr_rcv_seq_number (UdtSocket.state s)).
Notation rcv_losses s := (SocketState.rcv_loss_list (UdtSocket.state s)).
Notation acked_to s := (RcvBuffer.next_to_ack (UdtSocket.rcv_buffer s)).
Notation sent_ack s := (SocketState.last_sent_ack (UdtSocket.state s)).

(** The sequence numbers held by the receive buffer. *)
Definition received (s : UdtSocket.t) (x : Z) : Prop :=
  x ∈ (RcvBuffer.packets (UdtSocket.rcv_buffer s)).*1.

(** Numbers are taken away from the wrap-around point. *)
Record rcv_inv (s : UdtSocket.t) : Prop := {
  ri_buffer : rcv_wf (UdtSocket.rcv_buffer s);
  ri_curr : 0 <= curr_rcv s < SEQ_MAX;
  ri_acked : acked_to s <= curr_rcv s + 1;
  ri_sent : 0 <= sent_ack s <= acked_to s;
  ri_window : curr_rcv s + 1 - sent_ack s < 2 ^ 30;
  ri_losses : wf (rcv_losses s);
  ri_lost x : lost (rcv_losses s) x → acked_to s <= x < curr_rcv s;
  ri_received x : acked_to s <= x <= curr_rcv s → lost (rcv_losses s) x ∨ received s x
}.

(** A new socket of either side, before anything is received. *)
Lemma rcv_inv_new clock rnd id ty isn conf : 0 < isn < SEQ_MAX →
  rcv_inv (UdtSocket.new clock rnd id ty (Some isn) conf).
Proof.
  intros Hi. split; simpl; rewrite ?seq_add_small by lia; try lia.
  - apply rcv_wf_new. unfold valid. lia.
  - apply wf_new.
  - by intros x (k & a & e & ?%not_elem_of_nil & _).
Qed.

Lemma received_insert p s b x : rcv_wf b → UdtSocket.rcv_buffer s = RcvBuffer.insert p b →
  received s x ↔ x ∈ (RcvBuffer.packets b).*1 ∨ x = UdtDataPacketHeader.seq_number (UdtDataPacket.header p).
Proof.
  intros Hb E. unfold received. rewrite E. rewrite !list_elem_of_fmap. split.
  - intros ([k q] & -> & [Hq|[[= -> ->] _]]%elem_of_rcv_insert); [|by right|done]. left. by exists (k, q).
  - intros [([k q] & -> & Hq)| ->].
    + exists (k, q). split; [done|]. apply elem_of_rcv_insert; [done|by left].
    + set (k := UdtDataPacketHeader.seq_number (UdtDataPacket.header p)).
      destruct (BTreeMap.get k (RcvBuffer.packets b)) as [q|] eqn:Hget.
      * apply get_Some in Hget; [|apply Hb]. exists (k, q). split; [done|].
        apply elem_of_rcv_insert; [done|by left].
      * exists (k, p). split; [done|]. apply elem_of_rcv_insert; [done|]. right. split; [done|].
        intros q Hq. apply get_Some in Hq; [|apply Hb]. fold k in Hq. by rewrite Hget in Hq.
Qed.

Lemma insert_keeps_ack p b : RcvBuffer.next_to_ack (RcvBuffer.insert p b) = RcvBuffer.next_to_ack b.
Proof. unfold RcvBuffer.insert. by case_match. Qed.

Section receive.
Context `{Profile} `{Env} `{FloatLib}.

Lemma record_arrival_value t seq s n tr :
  ∃ f n', record_arrival t seq (World s n tr) = (Ok (), World (UdtSocket.set_flow f s) n' tr).
Proof.
  unfold record_arrival, modify_flow. run.
  destruct (seq mod PROBE_MODULO =? 0); run; [by eexists _, _|].
  destruct (seq mod PROBE_MODULO =? 1); run; by eexists _, _.
Qed.

(** The NAK for the numbers after [curr] and before [seq]. *)
Definition gap_nak (curr seq peer : Z) : UdtPacket :=
  Control (UdtControlPacket.new_nak (nak_words (curr + 1) (seq - 1)) peer).

(** The losses after a packet [seq] that is accepted. *)
Lemma gap_losses m curr seq : wf m → 0 <= curr → curr + 1 < seq <= SEQ_MAX →
  ∃ m', loss_insert (curr + 1) (seq - 1) m = Ok m' ∧ wf m'
      ∧ ∀ x, lost m' x ↔ lost m x ∨ curr < x < seq.
Proof.
  intros Hm Hc Hs. unfold loss_insert, LOSS_FUEL.
  destruct (insert_spec 2 (curr + 1) (seq - 1) m) as (m' & -> & Hwf & Hl);
    [lia|done|unfold valid; lia|unfold valid; lia|lia|].
  exists m'. split; [done|]. split; [done|]. intros x. rewrite Hl. unfold between.
  rewrite (proj2 (Z.leb_le _ _)) by lia. naive_solver lia.
Qed.

(** A control packet leaves when the UDP socket accepts it. *)
Lemma send_packet_ok c s n tr addr mux :
  UdtSocket.peer_addr s = Some addr → UdtSocket.multiplexer s = Some mux →
  (∀ n, send_result n = None) →
  send_packet (Control c) (World s n tr) = (Ok (), World s n (tr ++ [SendTo addr (Control c)])).
Proof.
  intros Hp Hm Hr. unfold send_packet, send_to, mux_send_to. run. rewrite Hp. run. rewrite Hm. run.
  simpl. run. unfold udp_send. simpl. by rewrite Hr.
Qed.

Lemma report_gap_value s n tr addr mux peer seq losses :
  UdtSocket.peer_addr s = Some addr → UdtSocket.multiplexer s = Some mux →
  UdtSocket.peer_socket_id s = Some peer → (∀ n, send_result n = None) →
  0 <= curr_rcv s → curr_rcv s + 1 < seq <= SEQ_MAX →
  loss_insert (curr_rcv s + 1) (seq - 1) (rcv_losses s) = Ok losses →
  report_gap seq (World s n tr) =
    (Ok (), World (UdtSocket.set_state (SocketState.set_rcv (curr_rcv s) losses (UdtSocket.state s)) s) n
              (tr ++ [SendTo addr (gap_nak (curr_rcv s) seq peer)])).
Proof.
  intros Ha Hm Hp Hr Hc Hs Hl. unfold report_gap, gets_state, update_state. run.
  rewrite sub_i32_small by lia. run.
  rewrite (seq_add_small (curr_rcv s) 1), (seq_add_small seq (- (1))) by lia.
  change (seq + - (1)) with (seq - 1). rewrite Hl. run. simpl. run. simpl. rewrite Hp.
  by rewrite (send_packet_ok _ _ n tr addr mux).
Qed.

(** How the socket reaches its peer. *)
Definition same_link (s s' : UdtSocket.t) : Prop :=
  UdtSocket.peer_addr s' = UdtSocket.peer_addr s
  ∧ UdtSocket.peer_socket_id s' = UdtSocket.peer_socket_id s
  ∧ UdtSocket.multiplexer s' = UdtSocket.multiplexer s
  ∧ UdtSocket.configuration s' = UdtSocket.configuration s.

(** The last steps of [process_data]: the acknowledgement timer of a short packet, then
    the largest number received and the losses. *)
Lemma process_data_end seq plen s n tr mp :
  UdtSocket.get_max_payload_size s = Ok mp → valid (curr_rcv s) → valid seq →
  Z.abs (seq - curr_rcv s) <= 1073741823 →
  ∃ s' n',
    finish_data plen seq (World s n tr) = (Ok (), World s' n' tr)
  ∧ UdtSocket.rcv_buffer s' = UdtSocket.rcv_buffer s ∧ sent_ack s' = sent_ack s
  ∧ curr_rcv s' = Z.max seq (curr_rcv s)
  ∧ rcv_losses s' = (if seq >? curr_rcv s then rcv_losses s else LossList.remove seq (rcv_losses s))
  ∧ same_link s s'
  ∧ SocketState.pkt_count (UdtSocket.state s') = SocketState.pkt_count (UdtSocket.state s).
Proof.
  intros Hmp Hc Hs Hd. unfold finish_data, gets_state, modify_state, diff. run. rewrite Hmp. run.
  destruct (plen <? mp); run; simpl; rewrite seq_sub_near by done; run;
    rewrite (Z.gtb_ltb _ 0), (Z.gtb_ltb seq);
    destruct (Z.ltb_spec 0 (seq - curr_rcv s)), (Z.ltb_spec (curr_rcv s) seq); try lia;
    eexists _, _; (split; [done|]); simpl; split_and!; (done || lia).
Qed.

(** What accepting packet [seq] does to what the receiver knows. *)
Lemma accept_inv s s' p losses : 
  let seq := UdtDataPacketHeader.seq_number (UdtDataPacket.header p) in
  rcv_inv s → 0 <= seq < SEQ_MAX → sent_ack s <= seq → seq + 1 - sent_ack s < 2 ^ 30 →
  wf losses → (∀ x, lost losses x ↔ lost (rcv_losses s) x ∨ curr_rcv s < x < seq) →
  UdtSocket.rcv_buffer s' = RcvBuffer.insert p (UdtSocket.rcv_buffer s) →
  sent_ack s' = sent_ack s → curr_rcv s' = Z.max seq (curr_rcv s) →
  rcv_losses s' = (if seq >? curr_rcv s then losses else LossList.remove seq losses) →
  rcv_inv s' ∧ (∀ x, lost (rcv_losses s') x ↔ (lost (rcv_losses s) x ∨ curr_rcv s < x < seq) ∧ x ≠ seq)
  ∧ (∀ x, received s' x ↔ received s x ∨ x = seq).
Proof.
  intros seq [Hb Hc Ha Hs Hw Hl Hlost Hrec] Hseq Hge Hnear Hwf Hin Eb Es Ec El.
  assert (∀ x, received s' x ↔ received s x ∨ x = seq) as Hr.
  { intros x. unfold received at 2. by apply received_insert. }
  assert (wf (rcv_losses s')
    ∧ ∀ x, lost (rcv_losses s') x ↔ (lost (rcv_losses s) x ∨ curr_rcv s < x < seq) ∧ x ≠ seq)
    as [Hwf' Hl'].
  { rewrite El. destruct (Z.gtb_spec seq (curr_rcv s)) as [Hgt|Hle].
    - split; [done|]. intros x. rewrite Hin. split; [|naive_solver]. intros Hx. split; [done|].
      destruct Hx as [Hx|?]; [specialize (Hlost x Hx)|]; lia.
    - destruct (remove_spec losses seq Hwf) as [Hwf' Hrem]. split; [done|]. intros x.
      by rewrite Hrem, Hin. }
  split; [|done]. split; rewrite ?Eb, ?insert_keeps_ack, ?Es, ?Ec; try lia; try done.
  - by apply rcv_wf_insert; [|unfold valid; lia].
  - intros x [[Hx|?] Hne]%Hl'; [specialize (Hlost x Hx)|]; lia.
  - intros x Hx. rewrite Hl', Hr. destruct (decide (x = seq)); [auto|].
    destruct (decide (x <= curr_rcv s)); [destruct (Hrec x); [lia|auto..]|]. left. split; [right; lia|done].
Qed.

(** The fields of the receiving side. *)
Definition same_receiver (s s' : UdtSocket.t) : Prop :=
  UdtSocket.rcv_buffer s' = UdtSocket.rcv_buffer s ∧ sent_ack s' = sent_ack s
  ∧ curr_rcv s' = curr_rcv s ∧ rcv_losses s' = rcv_losses s
  ∧ UdtSocket.peer_addr s' = UdtSocket.peer_addr s
  ∧ UdtSocket.peer_socket_id s' = UdtSocket.peer_socket_id s
  ∧ UdtSocket.multiplexer s' = UdtSocket.multiplexer s
  ∧ UdtSocket.configuration s' = UdtSocket.configuration s.

(** [process_data] up to the test of the sequence number. *)
Definition data_test (packet : UdtDataPacket.t) : SM unit :=
  let seq := UdtDataPacketHeader.seq_number (UdtDataPacket.header packet) in
  sent ← gets_state SocketState.last_sent_ack;
  offset ← diff seq sent;
  if offset <? 0 then mret () else
  b ← gets UdtSocket.rcv_buffer;
  available ← lift (RcvBuffer.get_available_buf_size b);
  if available <? wrap_u 32 offset then mret () else
  modify_rcv_buffer (RcvBuffer.insert packet) ;;
  curr ← gets_state SocketState.curr_rcv_seq_number;
  ahead ← diff seq curr;
  when (ahead >? 1) (report_gap seq) ;;
  finish_data (UdtDataPacket.payload_len packet) seq.

Lemma process_data_start p w :
  0 <= SocketState.pkt_count (UdtSocket.state (sock w)) < 2 ^ 64 - 1 →
  ∃ s n, process_data p w = data_test p (World s n (trace w)) ∧ same_receiver (sock w) s
  ∧ SocketState.pkt_count (UdtSocket.state s) = SocketState.pkt_count (UdtSocket.state (sock w)) + 1.
Proof.
  intros Hn. destruct w as [s n tr]. unfold process_data, update_state. run. cbn [sock] in Hn.
  rewrite arith_u_ok by lia. run.
  match goal with |- context [record_arrival ?t ?q _ ] =>
    match goal with |- context [World ?s1 ?n1 ?tr1] =>
      destruct (record_arrival_value t q s1 n1 tr1) as (f & n' & ->) end end.
  run. eexists _, _. split; [done|]. split; [done|]. done.
Qed.

Lemma max_payload_ok s : 56 <= UdtConfiguration.mss (UdtSocket.configuration s) <= U32_MAX →
  ∃ mp, UdtSocket.get_max_payload_size s = Ok mp.
Proof.
  intros Hm. unfold UdtSocket.get_max_payload_size, UDT_DATA_HEADER_SIZE.
  destruct (UdtSocket.peer_addr s) as [[[|] ?]|];
    rewrite arith_u_ok by lia; cbn [mbind outcome_bind]; rewrite arith_u_ok by lia; by eexists.
Qed.

Lemma process_data_parts p w addr mux peer available :
  let s := sock w in
  let seq := UdtDataPacketHeader.seq_number (UdtDataPacket.header p) in
  rcv_inv s → 0 <= seq < SEQ_MAX → sent_ack s <= seq → seq + 1 - sent_ack s < 2 ^ 30 →
  RcvBuffer.get_available_buf_size (UdtSocket.rcv_buffer s) = Ok available →
  seq - sent_ack s <= available →
  56 <= UdtConfiguration.mss (UdtSocket.configuration s) <= U32_MAX →
  0 <= SocketState.pkt_count (UdtSocket.state s) < 2 ^ 64 - 1 →
  UdtSocket.peer_addr s = Some addr → UdtSocket.multiplexer s = Some mux →
  UdtSocket.peer_socket_id s = Some peer → (∀ n, send_result n = None) →
  ∃ w', process_data p w = (Ok (), w') ∧ rcv_inv (sock w')
  ∧ curr_rcv (sock w') = Z.max seq (curr_rcv s)
  ∧ (∀ x, lost (rcv_losses (sock w')) x ↔ (lost (rcv_losses s) x ∨ curr_rcv s < x < seq) ∧ x ≠ seq)
  ∧ (∀ x, received (sock w') x ↔ received s x ∨ x = seq)
  ∧ trace w' = trace w ++ (if curr_rcv s + 1 <? seq
                           then [SendTo addr (gap_nak (curr_rcv s) seq peer)] else [])
  ∧ UdtSocket.rcv_buffer (sock w') = RcvBuffer.insert p (UdtSocket.rcv_buffer s)
  ∧ same_link s (sock w') ∧ sent_ack (sock w') = sent_ack s
  ∧ SocketState.pkt_count (UdtSocket.state (sock w')) = SocketState.pkt_count (UdtSocket.state s) + 1.
Proof.
  intros s seq Hinv Hseq Hge Hnear Hav Hle Hmss Hcnt Ha Hm Hp Hr.
  destruct (process_data_start p w Hcnt) as (s1 & n & -> & Hsame & Hpk). fold s in Hsame, Hpk.
  destruct Hsame as (Eb & Es & Ec & El & Ea & Ep & Em & Ecf).
  pose proof Hinv as [_ Hc Hack Hsent Hwin Hwf _ _].
  unfold data_test, gets_state, diff, modify_rcv_buffer. run. fold seq.
  rewrite Es, seq_sub_near by (unfold valid; lia). run.
  rewrite (proj2 (Z.ltb_ge (seq - _) 0)) by lia. run. rewrite Eb, Hav. run.
  rewrite wrap_u_small, (proj2 (Z.ltb_ge available _)) by lia. run.
  set (s2 := UdtSocket.set_rcv_buffer _ s1). change (UdtSocket.state s2) with (UdtSocket.state s1).
  rewrite Ec, seq_sub_near by (unfold valid; lia). run.
  destruct (max_payload_ok s) as (mp & Hmp); [done|].
  assert (∀ st, UdtSocket.get_max_payload_size (UdtSocket.set_state st s2) = Ok mp) as Hmp'.
  { intros st. rewrite <- Hmp. unfold UdtSocket.get_max_payload_size. simpl. by rewrite Ea, Ecf. }
  assert (∃ losses, wf losses
    ∧ (∀ x, lost losses x ↔ lost (rcv_losses s) x ∨ curr_rcv s < x < seq)
    ∧ when (seq - curr_rcv s >? 1) (report_gap seq) (World s2 n (trace w))
      = (Ok (), World (UdtSocket.set_state (SocketState.set_rcv (curr_rcv s) losses (UdtSocket.state s2)) s2) n
           (trace w ++ (if curr_rcv s + 1 <? seq
                        then [SendTo addr (gap_nak (curr_rcv s) seq peer)] else []))))
    as (losses & Hwfl & Hlost & ->).
  { rewrite (Z.gtb_ltb _ 1).
    destruct (Z.ltb_spec (curr_rcv s + 1) seq), (Z.ltb_spec 1 (seq - curr_rcv s)); try lia.
    - destruct (gap_losses (rcv_losses s) (curr_rcv s) seq Hwf) as (losses & Hl & Hwfl & Hlost); [lia|lia|].
      exists losses. split; [done|]. split; [done|]. unfold when.
      pose proof (report_gap_value s2 n (trace w) addr mux peer seq losses) as Hg.
      change (curr_rcv s2) with (curr_rcv s1) in Hg. change (rcv_losses s2) with (rcv_losses s1) in Hg.
      rewrite Ec, El in Hg. apply Hg; simpl; congruence || lia || done.
    - exists (rcv_losses s). split; [done|]. split; [naive_solver lia|]. rewrite app_nil_r. unfold when. run.
      rewrite <- El, <- Ec. do 2 f_equal. subst s2. by destruct s1 as [? ? ? ? ? ? ? ? ? ? ? ? ? ? ? []]. }
  run. set (s3 := UdtSocket.set_state _ s2).
  destruct (process_data_end seq (UdtDataPacket.payload_len p) s3 n (trace w ++ (if curr_rcv s + 1 <? seq
      then [SendTo addr (gap_nak (curr_rcv s) seq peer)] else [])) mp)
    as (s' & n' & -> & Eb' & Es' & Ec' & El' & Elink & Epk); [apply Hmp'|unfold valid; simpl; lia..|simpl; lia|].
  eexists. split; [done|]. cbn [sock trace].
  destruct (accept_inv s s' p losses) as (Hinv' & Hl' & Hr'); try done.
  { rewrite Eb'. simpl. by rewrite Eb. }
  { rewrite Es'. simpl. by rewrite Es. }
  rewrite Eb', Es', Epk. simpl. rewrite Eb, Es, <- Hpk. split_and!; try done.
  destruct Elink as (L1 & L2 & L3 & L4). simpl in *. split_and!; congruence.
Qed.

(** C14. A data packet inside the receive window is accepted: it is in the buffer
    afterwards and no longer lost, the numbers skipped are recorded as lost and
    reported in one NAK that names exactly them, nothing else is forgotten or added,
    and the receiver's invariant is kept. *)
Theorem process_data_accepts p w addr mux peer available :
  let s := sock w in
  let seq := UdtDataPacketHeader.seq_number (UdtDataPacket.header p) in
  rcv_inv s → 0 <= seq < SEQ_MAX → sent_ack s <= seq → seq + 1 - sent_ack s < 2 ^ 30 →
  RcvBuffer.get_available_buf_size (UdtSocket.rcv_buffer s) = Ok available →
  seq - sent_ack s <= available →
  56 <= UdtConfiguration.mss (UdtSocket.configuration s) <= U32_MAX →
  0 <= SocketState.pkt_count (UdtSocket.state s) < 2 ^ 64 - 1 →
  UdtSocket.peer_addr s = Some addr → UdtSocket.multiplexer s = Some mux →
  UdtSocket.peer_socket_id s = Some peer → (∀ n, send_result n = None) →
  ∃ w', process_data p w = (Ok (), w') ∧ rcv_inv (sock w')
  ∧ curr_rcv (sock w') = Z.max seq (curr_rcv s)
  ∧ (∀ x, lost (rcv_losses (sock w')) x ↔ (lost (rcv_losses s) x ∨ curr_rcv s < x < seq) ∧ x ≠ seq)
  ∧ (∀ x, received (sock w') x ↔ received s x ∨ x = seq)
  ∧ trace w' = trace w ++ (if curr_rcv s + 1 <? seq
                           then [SendTo addr (gap_nak (curr_rcv s) seq peer)] else []).
Proof.
  intros. destruct (process_data_parts p w addr mux peer available) as (w' & ? & ? & ? & ? & ? & ? & _); [done..|].
  by exists w'.
Qed.

(** A data packet before the last acknowledgement, or too far ahead for the free
    space of the buffer, is ignored: only the statistics and timers change, and nothing
    is sent. *)
Theorem process_data_rejects p w available :
  let s := sock w in
  let seq := UdtDataPacketHeader.seq_number (UdtDataPacket.header p) in
  valid (sent_ack s) → valid seq → Z.abs (seq - sent_ack s) < 2 ^ 30 →
  RcvBuffer.get_available_buf_size (UdtSocket.rcv_buffer s) = Ok available →
  0 <= SocketState.pkt_count (UdtSocket.state s) < 2 ^ 64 - 1 →
  seq < sent_ack s ∨ available < seq - sent_ack s →
  ∃ w', process_data p w = (Ok (), w') ∧ same_receiver s (sock w') ∧ trace w' = trace w.
Proof.
  intros s seq Hs Hseq Hnear Hav Hcnt Hrej.
  destruct (process_data_start p w Hcnt) as (s1 & n & -> & Hsame & Hc1). fold s in Hsame.
  pose proof Hsame as (Eb & Es & _). exists (World s1 n (trace w)).
  split; [|done]. unfold data_test, gets_state, diff. run. fold seq.
  rewrite Es, seq_sub_near by (done || lia). run.
  destruct (Z.ltb_spec (seq - sent_ack s) 0); run; [done|]. rewrite Eb, Hav. run.
  rewrite wrap_u_small, (proj2 (Z.ltb_lt available _)) by lia. by run.
Qed.

(** ** Acknowledgements *)

(** The number to acknowledge: nothing before it is missing. *)
Lemma next_to_ack_spec s : rcv_inv s →
  let num := next_to_ack (UdtSocket.state s) in
  acked_to s <= num <= curr_rcv s + 1
  ∧ (∀ x, acked_to s <= x < num → received s x) ∧ (∀ x, lost (rcv_losses s) x → num <= x).
Proof.
  intros [Hb Hc Ha Hs Hw Hwf Hl Hr] num. unfold num, next_to_ack.
  rewrite seq_add_small by lia.
  pose proof (peek_after_spec (curr_rcv s + 1) (rcv_losses s) Hwf) as Hp.
  destruct (LossList.peek_after _ _) as [x0|].
  - destruct Hp as [Hx0 Hmin]; [unfold valid; lia|]. pose proof (Hl x0 Hx0).
    assert (∀ x, lost (rcv_losses s) x → x0 <= x) as Hleast.
    { intros x Hx. specialize (Hmin x Hx). pose proof (Hl x Hx). unfold SEQ_MAX in *.
      rewrite !steps_value in Hmin by (unfold valid, SEQ_MAX; lia). repeat case_match; lia. }
    split; [lia|]. split; [|done]. intros x Hx. destruct (Hr x) as [Hlx|?]; [lia| |done].
    specialize (Hleast x Hlx). lia.
  - split; [lia|]. split.
    + intros x Hx. destruct (Hr x) as [Hlx|?]; [lia| |done]. exfalso. apply (Hp ltac:(unfold valid; lia) x Hlx).
    + intros x Hx. exfalso. apply (Hp ltac:(unfold valid; lia) x Hx).
Qed.

Lemma advance_ack_parts w :
  let s := sock w in
  let num := next_to_ack (UdtSocket.state s) in
  rcv_inv s → sent_ack s < num →
  ∃ s', advance_ack num w = (Ok true, World s' (ticks w) (trace w ++ [NotifyWaiters RcvNotify]))
  ∧ rcv_inv s' ∧ acked_to s' = num ∧ sent_ack s' = num
  ∧ (∀ x, acked_to s <= x < num → received s x)
  ∧ (RcvBuffer.next_to_read (UdtSocket.rcv_buffer s) <= acked_to s →
     readable (UdtSocket.rcv_buffer s') = readable (UdtSocket.rcv_buffer s)
       ++ BTreeMap.range (acked_to s) num (RcvBuffer.packets (UdtSocket.rcv_buffer s))).
Proof.
  intros s num Hinv Hlt. destruct (next_to_ack_spec s Hinv) as (Hnum & Hrec & Hleast). fold num in Hnum, Hrec, Hleast.
  pose proof Hinv as [Hb Hc Ha Hs Hw Hwf Hl Hr].
  unfold advance_ack, gets_state, diff, modify_state. run. fold s.
  rewrite seq_sub_near by (unfold valid; lia). run.
  rewrite (proj2 (Z.gtb_lt _ 0)) by lia. run. fold s.
  destruct (ack_data_to num (UdtSocket.rcv_buffer s) Hb) as (b & Hack & Hb' & Hto & Hpk & Hread); [lia|lia|].
  rewrite Hack. run. eexists. split; [done|]. simpl. split.
  - split; simpl; rewrite ?Hto; try lia; try done.
    + intros x Hx. specialize (Hleast x Hx). specialize (Hl x Hx). lia.
    + intros x Hx. unfold received; simpl. rewrite Hpk. apply Hr. lia.
  - split_and!; (done || lia).
Qed.

Lemma advance_ack_value w : rcv_inv (sock w) → sent_ack (sock w) < next_to_ack (UdtSocket.state (sock w)) →
  ∃ s', advance_ack (next_to_ack (UdtSocket.state (sock w))) w =
    (Ok true, World s' (ticks w) (trace w ++ [NotifyWaiters RcvNotify]))
  ∧ sent_ack s' = next_to_ack (UdtSocket.state (sock w)).
Proof. intros Hinv Hlt. destruct (advance_ack_parts w Hinv Hlt) as (s' & ? & _ & _ & ? & _). by exists s'. Qed.

(** C15. When there is progress to acknowledge, [advance_ack] hands exactly the packets
    up to the first missing number to the application: every number it moves past is in
    the receive buffer, the readers are woken, and the invariant is kept. *)
Theorem advance_ack_delivers w :
  let s := sock w in
  let num := next_to_ack (UdtSocket.state s) in
  rcv_inv s → sent_ack s < num →
  ∃ s', advance_ack num w = (Ok true, World s' (ticks w) (trace w ++ [NotifyWaiters RcvNotify]))
  ∧ rcv_inv s' ∧ acked_to s' = num ∧ sent_ack s' = num
  ∧ (∀ x, acked_to s <= x < num → received s x)
  ∧ (RcvBuffer.next_to_read (UdtSocket.rcv_buffer s) <= acked_to s →
     readable (UdtSocket.rcv_buffer s') = readable (UdtSocket.rcv_buffer s)
       ++ BTreeMap.range (acked_to s) num (RcvBuffer.packets (UdtSocket.rcv_buffer s))).
Proof. apply advance_ack_parts. Qed.

(** What [m] emits, and that it keeps the number last acknowledged. *)
Definition quiet (w w' : world UdtSocket.t) : Prop :=
  trace w' = trace w ∧ sent_ack (sock w') = sent_ack (sock w).
#[local] Instance quiet_preorder : PreOrder quiet.
Proof. split; [by intros w|]. intros w1 w2 w3 [? ?] [? ?]. unfold quiet. split; congruence. Qed.

Lemma ack_info_quiet : all_runs quiet ack_info.
Proof.
  unfold ack_info, gets_state, modify_state.
  repeat match goal with
  | |- all_runs _ (_ ≫= _) => apply runs_bind; [apply _| |intros ?]
  | |- all_runs _ (if ?b then _ else _) => destruct b
  | |- all_runs _ now => by intros w
  | |- all_runs _ (modify _) => by intros w
  | _ => apply runs_id; [apply _|done]
  end.
Qed.

(** A packet leaves at most once. *)
Lemma send_packet_trace p w :
  sock (send_packet p w).2 = sock w
  ∧ (trace (send_packet p w).2 = trace w ∨ ∃ addr, trace (send_packet p w).2 = trace w ++ [SendTo addr p]).
Proof.
  unfold send_packet, send_to, mux_send_to, udp_send. run.
  destruct (UdtSocket.peer_addr (sock w)) as [addr|]; run; [|by auto].
  destruct (UdtSocket.multiplexer (sock w)); run; [|by auto].
  destruct (UdtPacket.serialize p); run; [|by auto..]. split; [done|]. right. by exists addr.
Qed.

Definition ack_number (e : event) : option Z :=
  match e with
  | SendTo _ (Control c) =>
      match UdtControlPacket.packet_type c with
      | Ack a => Some (AckInfo.next_seq_number a)
      | _ => None
      end
  | _ => None
  end.

(** [m] appends events, and every acknowledgement among them is for [num]. *)
Definition emits_acks (num : Z) {A} (m : M UdtSocket.t A) (w : world UdtSocket.t) : Prop :=
  ∃ evs, trace (m w).2 = trace w ++ evs ∧ ∀ e n, e ∈ evs → ack_number e = Some n → n = num.

Lemma emits_nothing num {A} (m : M UdtSocket.t A) w :
  trace (m w).2 = trace w → emits_acks num m w.
Proof. intros E. exists []. rewrite app_nil_r. split; [done|]. by intros e n ?%not_elem_of_nil. Qed.

Lemma send_full_ack_emits w : emits_acks (sent_ack (sock w)) send_full_ack w.
Proof.
  unfold emits_acks, send_full_ack, diff, modify_state, update_state. run.
  destruct (_ ⊖ _) as [d| |]; run; [|by apply (emits_nothing _ (λ w, (Ok (), w)) w)..].
  destruct (d >? 0); run; [|by apply (emits_nothing _ (λ w, (Ok (), w)) w)].
  match goal with |- context [ack_info ?w1] => pose proof (ack_info_quiet w1) as [Ht Hs];
    destruct (ack_info w1) as [[info| |] w2] end; run; simpl in Ht, Hs;
    [|by apply (emits_nothing _ (λ _, (Ok (), w2)) w)..].
  destruct (UdtSocket.peer_socket_id (sock w2)) as [peer|]; run;
    [|by apply (emits_nothing _ (λ _, (Ok (), w2)) w)].
  match goal with |- context [send_packet ?p w2] =>
    set (ack := p); pose proof (send_packet_trace ack w2) as [_ Hsend];
    destruct (send_packet ack w2) as [r w3]; simpl in Hsend end.
  assert (∃ evs, trace w3 = trace w ++ evs
    ∧ ∀ e n, e ∈ evs → ack_number e = Some n → n = sent_ack (sock w)) as (evs & He & Hack).
  { rewrite Ht in Hsend. destruct Hsend as [->|(addr & ->)].
    - exists []. rewrite app_nil_r. split; [done|]. by intros e n ?%not_elem_of_nil.
    - exists [SendTo addr ack]. split; [done|].
      intros e n ->%list_elem_of_singleton. simpl. rewrite Hs. by intros [= <-]. }
  exists evs. destruct r as [[]| |]; run; [|done..]. by destruct (AckWindow.store _ _ _ _); run.
Qed.

(** C13. No acknowledgement, light or full, ever covers data that has not arrived: on a
    socket whose invariant holds, every number before the one an emitted ACK carries,
    from the previous acknowledgement on, is in the receive buffer. *)
Theorem send_ack_safe light w :
  rcv_inv (sock w) →
  ∃ evs, trace (send_ack light w).2 = trace w ++ evs
  ∧ ∀ e n x, e ∈ evs → ack_number e = Some n → acked_to (sock w) <= x < n → received (sock w) x.
Proof.
  intros Hinv. destruct (next_to_ack_spec (sock w) Hinv) as (Hnum & Hrec & _).
  set (num := next_to_ack (UdtSocket.state (sock w))) in *.
  assert (emits_acks num (send_ack light) w) as (evs & He & Hack); cycle 1.
  { exists evs. split; [done|]. intros e n x Hin Hn Hx. apply Hrec. by rewrite <- (Hack e n Hin Hn). }
  unfold emits_acks, send_ack. run. fold num.
  destruct (num =? _); run; [by apply (emits_nothing _ (λ w, (Ok (), w)) w)|].
  destruct light.
  - run. destruct (UdtSocket.peer_socket_id (sock w)) as [peer|]; run;
      [|by apply (emits_nothing _ (λ w, (Ok (), w)) w)].
    match goal with |- context [send_packet ?p w] => destruct (send_packet_trace p w) as [_ [->|(addr & ->)]] end.
    + exists []. rewrite app_nil_r. split; [done|]. by intros e n ?%not_elem_of_nil.
    + eexists. split; [done|]. intros e n ->%list_elem_of_singleton. simpl. by intros [= <-].
  - destruct (Z.lt_trichotomy (sent_ack (sock w)) num) as [Hlt|[Heq|Hgt]].
    + destruct (advance_ack_value w Hinv Hlt) as (s' & Hadv & Hsent). fold num in Hadv, Hsent.
      run. rewrite Hadv. run.
      destruct (send_full_ack_emits (World s' (ticks w) (trace w ++ [NotifyWaiters RcvNotify])))
        as (evs & -> & Hack). simpl in Hack |- *. rewrite Hsent in Hack.
      exists (NotifyWaiters RcvNotify :: evs). rewrite <- app_assoc. split; [done|].
      intros e n [->|Hin]%elem_of_cons; [done|]. by apply Hack.
    + run. unfold advance_ack, gets_state, diff. run.
      rewrite <- Heq, seq_sub_near by (pose proof (ri_sent _ Hinv); pose proof (ri_curr _ Hinv); unfold valid; lia).
      run. rewrite Z.sub_diag. run. simpl. run.
      destruct (_ ≫= _); run; [|by apply (emits_nothing _ (λ w, (Ok (), w)) w)..].
      destruct (_ <? _); run; [by apply (emits_nothing _ (λ w, (Ok (), w)) w)|].
      apply (send_full_ack_emits (World (sock w) (S (ticks w)) (trace w))).
    + pose proof (ri_sent _ Hinv). lia.
Qed.
End receive.

(** ** Witnesses *)

Lemma sample_socket_inv : rcv_inv sample_socket.
Proof.
  destruct (rcv_inv_new (@clock sample_env) 0 1 Stream 100 None) as [? ? ? ? ? ? ? ?];
    [unfold SEQ_MAX; lia|]. by split.
Defined.

Definition data_packet (seq : Z) (data : list Z) : UdtDataPacket.t :=
  UdtDataPacket.mk (UdtDataPacketHeader.mk seq Only false 0 0 1) data.

Lemma process_data_accepts_witness :
  ∃ w', @process_data true sample_env (data_packet 103 [7]) sample_world = (Ok (), w')
  ∧ rcv_inv (sock w')
  ∧ trace w' = [SendTo sample_addr (Control (UdtControlPacket.new_nak [2147483748; 102] 2))].
Proof.
  destruct (@process_data_accepts true sample_env (data_packet 103 [7]) sample_world
    sample_addr 1 2 163840) as (w' & E & Hinv & _ & _ & _ & Ht);
    [apply sample_socket_inv|by vm_compute..|].
  exists w'. split; [exact E|]. split; [exact Hinv|]. rewrite Ht. by vm_compute.
Defined.

Lemma process_data_rejects_witness :
  ∃ w', @process_data true sample_env (data_packet 50 [7]) sample_world = (Ok (), w')
  ∧ same_receiver sample_socket (sock w') ∧ trace w' = [].
Proof.
  apply (@process_data_rejects true sample_env (data_packet 50 [7]) sample_world 163840);
    [by vm_compute|done|by vm_compute|by vm_compute|simpl; lia|left; by vm_compute].
Defined.

(** The socket after packets 100 and 101. *)
Definition sample_received : world UdtSocket.t := Eval vm_compute in
  (@process_data true sample_env (data_packet 101 [2])
    (@process_data true sample_env (data_packet 100 [1]) sample_world).2).2.

Lemma sample_received_inv : rcv_inv (sock sample_received).
Proof.
  assert (rcv_wf (UdtSocket.rcv_buffer (sock sample_received))) as Hb.
  { unfold sample_received. vm_compute.
    split; [repeat constructor; unfold BTreeMap.key_lt; simpl; lia| |done..].
    intros k p Hp. simpl in Hp.
    repeat (apply elem_of_cons in Hp as [[= -> ->]|Hp]; [by vm_compute|]). by apply not_elem_of_nil in Hp. }
  assert (rcv_losses (sock sample_received) = []) as Hl by by vm_compute.
  split; [done|vm_compute; done|by vm_compute|by vm_compute|by vm_compute|rewrite Hl; apply wf_new| |].
  - rewrite Hl. by intros x (k & s & e & ?%not_elem_of_nil & _).
  - assert (acked_to (sock sample_received) = 100) as -> by by vm_compute.
    assert (curr_rcv (sock sample_received) = 101) as -> by by vm_compute.
    intros x Hx. right. unfold received.
    assert ((RcvBuffer.packets (UdtSocket.rcv_buffer (sock sample_received))).*1 = [100; 101]) as ->
      by by vm_compute.
    assert (x = 100 ∨ x = 101) as [->| ->] by lia; [left|right; left].
Defined.

Lemma advance_ack_delivers_witness :
  ∃ s', @advance_ack true sample_env 102 sample_received
    = (Ok true, World s' (ticks sample_received) [NotifyWaiters RcvNotify])
  ∧ rcv_inv s' ∧ acked_to s' = 102.
Proof.
  destruct (@advance_ack_delivers true sample_env sample_received) as (s' & E & Hinv & Hto & _);
    [apply sample_received_inv|by vm_compute|].
  exists s'. split; [exact E|]. split; [exact Hinv|exact Hto].
Defined.

Lemma send_ack_safe_witness :
  ∃ evs, trace (@send_ack true sample_env false sample_received).2 = trace sample_received ++ evs
  ∧ ∀ e n x, e ∈ evs → ack_number e = Some n → acked_to (sock sample_received) <= x < n →
             received (sock sample_received) x.
Proof.
  apply (@send_ack_safe true sample_env false sample_received), sample_received_inv.
Defined.
