(* ===== verification/socket_control.v ===== *)
(** * Loss reports, timers, handshakes and reads of a socket

    The sender's treatment of a NAK agrees with what the receiver reports; when the
    timers break a connection; what the two sides of a handshake check and advertise;
    what the application reads. *)

From S2P Require Import prelude seq_number time data_packet control_packet packet.
From S2P Require Import btree_map loss_list ack_window rcv_buffer snd_buffer float flow.
From S2P Require Import configuration rate_control socket_state world socket samples.
From S2P Require Import socket_sender.

#[local] Arguments GenericSeqNumber.sub_i32 : simpl never.
#[local] Arguments GenericSeqNumber.add : simpl never.
#[local] Arguments GenericSeqNumber.sub : simpl never.
#[local] Arguments LossList.insert : simpl never.

(** ** Loss reports *)

(** The top bit of a word marks the start of an interval. *)
Lemma interval_word first : valid first →
  Z.land (Z.lor first 2147483648) 2147483648 = 2147483648
  ∧ Z.land (Z.lor first 2147483648) 2147483647 = first
  ∧ Z.land first 2147483648 = 0.
Proof.
  unfold valid, SEQ_MAX. intros Hf. change 2147483647 with (Z.ones 31).
  assert (Z.land first 2147483648 = 0) as E.
  { change 2147483648 with (2 ^ 31). apply Z.bits_inj'. intros i Hi.
    rewrite Z.land_spec, Z.bits_0, Z.pow2_bits_eqb by lia. destruct (Z.eqb_spec 31 i) as [<-|]; [|by rewrite andb_false_r].
    rewrite (Z.bits_above_log2 first 31); [done|lia|].
    destruct (decide (first = 0)) as [->|]; [done|]. apply Z.log2_lt_pow2; lia. }
  rewrite !Z.land_lor_distr_l, E. rewrite (Z.land_ones first) by lia.
  rewrite Z.mod_small by lia. split_and!; [done| |done]. by rewrite Z.lor_0_r.
Qed.

Section nak.
Context `{Profile}.

(** An interval in flight that has not been acknowledged is recorded as it is. *)
Lemma nak_interval_value first last s : snd_inv s → near s →
  let st := UdtSocket.state s in
  0 < first → SocketState.last_ack_received st <= first <= last →
  last <= SocketState.curr_snd_seq_number st →
  0 < SndBuffer.current_position (UdtSocket.snd_buffer s) →
  ∃ losses, nak_interval first last st =
    Ok (false, SocketState.set_snd (SocketState.curr_snd_seq_number st) losses st)
  ∧ wf losses ∧ ∀ x, lost losses x ↔ lost (SocketState.snd_loss_list st) x ∨ first <= x <= last.
Proof.
  intros Hinv Hnear st Hf Hfirst Hlast Hpos. pose proof (curr_near s Hinv Hnear Hpos) as Hc. fold st in Hc.
  pose proof Hnear as [Hr Hw Ha]. pose proof (si_first s Hinv) as Hv. fold st in Hr, Ha, Hv. unfold valid in Hv.
  unfold nak_interval. rewrite (seq_sub_near first last) by (unfold valid; lia). cbn [mbind outcome_bind].
  rewrite (Z.gtb_ltb (first - last)), (proj2 (Z.ltb_ge 0 _)) by lia.
  rewrite (seq_sub_near last (SocketState.curr_snd_seq_number st)) by (unfold valid; lia).
  cbn [mbind outcome_bind]. rewrite (Z.gtb_ltb _ 0), (proj2 (Z.ltb_ge 0 _)) by lia.
  rewrite (seq_sub_near first) by (unfold valid; lia). cbn [mbind outcome_bind].
  rewrite Z.geb_leb, (proj2 (Z.leb_le 0 _)) by lia. unfold loss_insert, LOSS_FUEL.
  destruct (insert_spec 2 first last (SocketState.snd_loss_list st)) as (losses & -> & Hwf & Hl);
    [lia|apply (si_losses s Hinv)|unfold valid; lia|unfold valid; lia|lia|].
  exists losses. split; [done|]. split; [done|]. intros x. rewrite Hl. unfold between.
  by rewrite (proj2 (Z.leb_le _ _)) by lia.
Qed.

(** The whole report of an interval. *)
Lemma nak_words_value first last s : snd_inv s → near s →
  let st := UdtSocket.state s in
  0 < first → SocketState.last_ack_received st <= first <= last →
  last <= SocketState.curr_snd_seq_number st →
  0 < SndBuffer.current_position (UdtSocket.snd_buffer s) →
  ∃ losses, let st' := SocketState.set_snd (SocketState.curr_snd_seq_number st) losses st in
  nak_loop (nak_words first last) st = Ok (false, st') ∧ snd_inv (UdtSocket.set_state st' s)
  ∧ ∀ x, lost losses x ↔ lost (SocketState.snd_loss_list st) x ∨ first <= x <= last.
Proof.
  intros Hinv Hnear st Hf Hfirst Hlast Hpos.
  destruct (nak_interval_value first last s) as (losses & Hi & Hwf & Hl); [done..|]. fold st in Hi, Hl.
  pose proof (curr_near s Hinv Hnear Hpos) as Hc. fold st in Hc. pose proof Hnear as [Hr Hw Ha].
  pose proof (si_first s Hinv) as Hv. fold st in Hr, Ha, Hv. unfold valid in Hv.
  exists losses. cbv zeta.
  destruct (interval_word first) as (E1 & E2 & E3); [unfold valid; lia|].
  split_and!; [| |done].
  - unfold nak_words. destruct (Z.eqb_spec first last) as [<-|Hne]; simpl.
    + rewrite E3. simpl. rewrite Hi. done.
    + rewrite E1. simpl. rewrite E2, Hi. done.
  - pose proof Hinv as [Hb H1 H2 H3 H4 H5]. split; simpl; try done.
    intros x [Hx|Hx]%Hl; [by apply H5|]. fold st.
    rewrite steps_value by (unfold valid; lia). case_match; lia.
Qed.

(** C27. The report a receiver sends for the numbers from [first] to [last] makes the
    sender record exactly these numbers as lost, when they are in flight: the encoding
    with and without an interval mark, and its decoding, agree; the sender's invariant
    is kept, so each of them will be retransmitted from its own block. *)
Theorem nak_report_recorded first last s :
  snd_inv s → near s →
  let st := UdtSocket.state s in
  0 < first → SocketState.last_ack_received st <= first <= last →
  last <= SocketState.curr_snd_seq_number st →
  0 < SndBuffer.current_position (UdtSocket.snd_buffer s) →
  ∃ st', nak_loop (nak_words first last) st = Ok (false, st') ∧ snd_inv (UdtSocket.set_state st' s)
  ∧ ∀ x, lost (SocketState.snd_loss_list st') x ↔
         lost (SocketState.snd_loss_list st) x ∨ first <= x <= last.
Proof.
  intros. destruct (nak_words_value first last s) as (losses & ? & ? & ?); [done..|]. by eexists.
Qed.
End nak.

(** ** Timers *)

Section timers.
Context `{Profile} `{Env} `{FloatLib}.

(** The expiry timer breaks the connection exactly when it fires (the peer has been
    silent past [next_exp_time]) with more than 16 expiries counted and more than 5
    seconds since the last response; then nothing else of the socket changes and the
    sender is woken; when it does not fire, nothing changes at all. *)
Theorem exp_timer_breaks now w next_exp :
  let s := sock w in
  let st := UdtSocket.state s in
  next_exp_time s = Ok next_exp →
  if now >? next_exp then
    16 < SocketState.exp_count st →
    from_secs 5 < duration_since (clock (ticks w)) (SocketState.last_rsp_time st) →
    (exp_timer now w).1 = Ok () ∧ sock (exp_timer now w).2 = UdtSocket.set_status Broken s
    ∧ trace (exp_timer now w).2 =
        trace w ++ (match UdtSocket.multiplexer s with
                    | Some _ => [SndQueueUpdate (UdtSocket.socket_id s) true]
                    | None => []
                    end)
  else exp_timer now w = (Ok (), w).
Proof.
  intros s st Hn. unfold exp_timer. run. fold s. rewrite Hn. run.
  destruct (now >? next_exp); [|done]. intros Hc He. run. fold s st.
  rewrite (proj2 (Z.gtb_lt _ 16)), (proj2 (Z.gtb_lt _ (from_secs 5))) by lia. simpl.
  unfold set_status, update_snd_queue. run. fold s.
  change (UdtSocket.multiplexer (UdtSocket.set_status Broken s)) with (UdtSocket.multiplexer s).
  destruct (UdtSocket.multiplexer s); run; [done|]. by rewrite app_nil_r.
Qed.

(** ** Handshakes *)

(** A listener answers a handshake only if its cookie is the one it computes for the
    address now or one minute before: with a wrong cookie nothing is sent, no connection
    is made, and the result is an error that ends the receiving worker, or, once the
    listener is a minute old and overflow checks are on, a panic, because the minute
    before is computed by adding [-1 as u64]. *)
Theorem listen_bad_cookie addr hs w :
  let s := sock w in
  let minute n := as_secs (duration_since (clock n) (UdtSocket.start_time s)) / 60 in
  UdtStatus.is_alive (UdtSocket.status s) = true → HandShakeInfo.connection_type hs = -1 →
  0 <= minute (ticks w) < 2 ^ 63 → 0 <= minute (S (ticks w)) < 2 ^ 63 →
  HandShakeInfo.syn_cookie hs ≠ cookie_hash (ip addr) (port addr) (minute (ticks w)) →
  HandShakeInfo.syn_cookie hs ≠
    cookie_hash (ip addr) (port addr) (wrap_u 64 (minute (S (ticks w)) - 1)) →
  (check_handshake addr hs w).1 =
    (if (0 <? minute (S (ticks w))) && overflow_checks then Panic else Err PermissionDenied)
  ∧ trace (check_handshake addr hs w).2 = trace w
  ∧ sock (check_handshake addr hs w).2 = s.
Proof.
  intros s minute Halive Hct Hm1 Hm2 Hbad1 Hbad2.
  unfold check_handshake, compute_cookie. run. fold s. rewrite Halive, Hct. simpl. run.
  fold s. change (wrap_u 64 0) with 0. rewrite Z.add_0_r. fold (minute (ticks w)).
  rewrite arith_u_ok by lia. run. rewrite (proj2 (Z.eqb_neq _ _)) by done. run. fold s.
  fold (minute (S (ticks w))). change (wrap_u 64 (-1)) with (2 ^ 64 - 1).
  destruct (Z.ltb_spec 0 (minute (S (ticks w)))) as [Hpos|Hzero].
  - rewrite arith_u_bad by lia. simpl. destruct overflow_checks; run; [done|].
    assert (wrap_u 64 (minute (S (ticks w)) + (2 ^ 64 - 1)) = wrap_u 64 (minute (S (ticks w)) - 1)) as ->
      by (unfold wrap_u; rewrite <- (Z_mod_plus_full (_ - 1) 1); f_equal; lia).
    by rewrite (proj2 (Z.eqb_neq _ _)) by done.
  - assert (minute (S (ticks w)) = 0) as E by lia. rewrite E in *.
    rewrite arith_u_ok by lia. run. by rewrite (proj2 (Z.eqb_neq _ _)) by done.
Qed.

(** The side that connects always advertises a flow window of 0, since it announces
    its own view of the peer's window, which nothing has set yet: the request is the
    only packet sent, it carries the initial sequence number and the configured packet
    size, and the socket is [Connecting]. *)
Theorem connect_advertises_no_window clk rnd id isn conf mux addr n tr :
  let s := UdtSocket.set_multiplexer mux (UdtSocket.new clk rnd id Stream (Some isn) (Some conf)) in
  56 <= UdtConfiguration.mss conf <= U32_MAX →
  0 <= UdtConfiguration.rcv_buf_size conf <= U32_MAX → (∀ k, send_result k = None) →
  ∃ w', (connect_start ;; connect_request addr) (World s n tr) = (Ok (), w')
  ∧ UdtSocket.status (sock w') = Connecting ∧ UdtSocket.peer_addr (sock w') = Some addr
  ∧ trace w' = tr ++ [SendTo addr (Control (UdtControlPacket.new_handshake
      (HandShakeInfo.mk UDT_VERSION Stream isn (UdtConfiguration.mss conf) 0 1 id 0 (ip addr)) 0))].
Proof.
  intros s Hmss Hbuf Hsend. unfold connect_start, connect_request, set_status. run. simpl. run.
  assert (∃ size, ∀ s0, UdtSocket.peer_addr s0 = Some addr → UdtSocket.configuration s0 = conf →
    UdtSocket.get_max_payload_size s0 = Ok size) as (size & Hsize).
  { unfold UdtSocket.get_max_payload_size, UDT_DATA_HEADER_SIZE.
    destruct addr as [[|] ?]; eexists; intros s0 -> ->; simpl;
      (rewrite arith_u_ok by lia; cbn [mbind outcome_bind]; rewrite arith_u_ok by lia; reflexivity). }
  unfold UdtSocket.set_peer_addr. rewrite Hsize by done. run. simpl. run.
  unfold RcvBuffer.get_available_buf_size. simpl. change (wrap_u 32 (len [])) with 0.
  rewrite arith_u_ok by lia. run. simpl. unfold send_to, mux_send_to, udp_send. run. simpl. run.
  rewrite Hsend. eexists. split; [done|]. simpl. split_and!; [done..|].
  rewrite Z.min_l by lia. done.
Qed.
End timers.

(** ** Reading *)

(** On a connected stream socket, [poll_recv] is pending exactly when no acknowledged
    packet is unread; otherwise it is ready with the longest prefix of the unread
    packets that fits in the caller's buffer.  When the first packet does not fit, that
    prefix is empty: it reports 0 bytes, the end of the stream for an [AsyncRead],
    although data is there. *)
Theorem poll_recv_reads buf w :
  let s := sock w in
  let queue := readable (UdtSocket.rcv_buffer s) in
  rcv_wf (UdtSocket.rcv_buffer s) → UdtSocket.socket_type s = Stream →
  UdtSocket.status s = Connected →
  match queue with
  | [] => poll_recv buf w = (Ok None, w)
  | first :: _ =>
      ∃ taken rest s', queue = taken ++ rest
      ∧ poll_recv buf w = (Ok (Some (len (payload taken),
          ReadBuf.mk (ReadBuf.filled buf ++ payload taken)
            (ReadBuf.remaining buf - length (payload taken)))), World s' (ticks w) (trace w))
      ∧ readable (UdtSocket.rcv_buffer s') = rest ∧ rcv_wf (UdtSocket.rcv_buffer s')
      ∧ ((0 < ReadBuf.remaining buf < length (UdtDataPacket.data first.2))%nat → taken = [])
  end.
Proof.
  intros s queue Hb Hty Hst. unfold poll_recv, check_stream, check_readable, read_rcv_buffer.
  do 3 (run; fold s; rewrite ?Hty, ?Hst; simpl). rewrite has_data_value by done. run. fold queue.
  destruct queue as [|first q] eqn:Hq; simpl; run; [done|].
  destruct (Nat.eqb_spec (ReadBuf.remaining buf) 0) as [E|E].
  - run. exists [], (first :: q), s. unfold queue in Hq. split; [done|].
    unfold len; simpl. rewrite app_nil_r, Nat.sub_0_r. destruct buf, w; simpl in *. split; [done|].
    split; [done|]. split; [done|]. lia.
  - fold s. destruct (read_buffer_value buf (UdtSocket.rcv_buffer s) Hb)
      as (taken & rest & Hsplit & Hread & Hfit & _). run. fold s. rewrite Hread. run.
    exists taken, rest, (UdtSocket.set_rcv_buffer (consumed taken (UdtSocket.rcv_buffer s)) s).
    unfold queue in Hq. rewrite Hq in Hsplit. split; [done|]. split; [done|].
    rewrite <- Hq in Hsplit. simpl.
    split; [by apply consumed_readable|]. split; [by eapply consumed_wf|].
    intros Hsmall. destruct taken as [|p taken]; [done|]. rewrite Hq in Hsplit.
    injection Hsplit as <- _. unfold payload in Hfit. simpl in Hfit. rewrite length_app in Hfit. lia.
Qed.

(** ** Witnesses *)

Lemma nak_report_recorded_witness :
  ∃ st', @nak_loop true (nak_words 100 101) (UdtSocket.state (sample_sender 16 [])) = Ok (false, st')
  ∧ lost (SocketState.snd_loss_list st') 101.
Proof.
  destruct (@nak_report_recorded true 100 101 (sample_sender 16 []))
    as (st' & E & _ & Hl); [apply sample_sender_inv; by left|apply sample_sender_near|by vm_compute..|].
  exists st'. split; [exact E|]. apply Hl. right. lia.
Defined.

Lemma exp_timer_breaks_witness :
  let w := World sample_socket 10 [] in
  @exp_timer true sample_env 0 w = (Ok (), w).
Proof.
  apply (@exp_timer_breaks true sample_env 0 (World sample_socket 10 []) 310003000).
  by vm_compute.
Defined.

(** A listener of age 0. *)
Definition sample_listener : UdtSocket.t := UdtSocket.set_status Listening sample_socket.

Lemma listen_bad_cookie_witness :
  (@check_handshake true sample_env sample_addr
     (HandShakeInfo.mk 4 Stream 100 1500 0 (-1) 7 99 (V4 [127; 0; 0; 1]))
     (World sample_listener 10 [])).1 = Err PermissionDenied.
Proof.
  apply (@listen_bad_cookie true sample_env sample_addr
     (HandShakeInfo.mk 4 Stream 100 1500 0 (-1) 7 99 (V4 [127; 0; 0; 1]))
     (World sample_listener 10 [])); by vm_compute.
Defined.

Lemma connect_advertises_no_window_witness :
  ∃ w', (@connect_start ;; @connect_request true sample_env sample_addr)
     (World (UdtSocket.set_multiplexer 1
        (UdtSocket.new (@clock sample_env) 0 1 Stream (Some 100) (Some UdtConfiguration.default))) 4 [])
     = (Ok (), w')
  ∧ UdtSocket.status (sock w') = Connecting.
Proof.
  destruct (@connect_advertises_no_window true sample_env (@clock sample_env) 0 1 100
    UdtConfiguration.default 1 sample_addr 4 []) as (w' & E & Hs & _); [by vm_compute..|].
  exists w'. split; [exact E|exact Hs].
Defined.

Definition sample_reader : UdtSocket.t := UdtSocket.set_rcv_buffer sample_rcv sample_socket.

Lemma poll_recv_reads_witness :
  ∃ taken rest s', readable sample_rcv = taken ++ rest
  ∧ poll_recv (ReadBuf.mk [] 1) (World sample_reader 10 []) =
      (Ok (Some (len (payload taken), ReadBuf.mk ([] ++ payload taken) (1 - length (payload taken)))),
       World s' 10 [])
  ∧ readable (UdtSocket.rcv_buffer s') = rest ∧ rcv_wf (UdtSocket.rcv_buffer s')
  ∧ ((0 < 1 < 2)%nat → taken = []).
Proof.
  apply (poll_recv_reads (ReadBuf.mk [] 1) (World sample_reader 10 [])
    sample_rcv_wf); done.
Defined.
