(* ===== verification/snd_queue.v ===== *)
(** * Send queue ([src/queue/snd_queue.rs])

    The multiplexer's schedule of sockets by the time of their next packet.  The
    priority queue is the interface [BinaryHeap]; [UdtSndQueue] is proved against its
    laws, which a sorted list satisfies. *)

From S2P Require Import prelude.
From stdpp Require Import sorting.
#[global] Open Scope Z_scope.

Module SendQueueNode.
Record t := mk { timestamp : Z; socket_id : Z }.
End SendQueueNode.

#[export] Instance node_eq_dec : EqDecision SendQueueNode.t.
Proof. solve_decision. Defined.

Notation node := SendQueueNode.t.

(** [std::collections::BinaryHeap<SendQueueNode>]: the order of the nodes is reversed, so
    [peek] is a node with the least timestamp; which one, on a tie, is not specified.
    [set_peek] assigns the timestamp of the first node through [peek_mut]. *)
Class BinaryHeap (H : Type) := {
  empty : H;
  push : node → H → H;
  peek : H → option node;
  pop : H → option (node * H);
  set_peek : Z → H → H;
  iter : H → list node;
  collect : list node → H
}.

Class BinaryHeapLaws (H : Type) `{BinaryHeap H} : Prop := {
  iter_empty : iter empty = [];
  iter_push n h : iter (push n h) ≡ₚ n :: iter h;
  peek_None h : peek h = None ↔ iter h = [];
  peek_least h n : peek h = Some n →
    n ∈ iter h ∧ ∀ m, m ∈ iter h → SendQueueNode.timestamp n <= SendQueueNode.timestamp m;
  pop_peek h n : peek h = Some n → ∃ h', pop h = Some (n, h') ∧ iter h ≡ₚ n :: iter h';
  iter_set_peek h n t : peek h = Some n → ∃ rest, iter h ≡ₚ n :: rest
    ∧ iter (set_peek t h) ≡ₚ SendQueueNode.mk t (SendQueueNode.socket_id n) :: rest;
  iter_collect l : iter (collect l) ≡ₚ l
}.

Module UdtSndQueue.
Section operations.
Context {H : Type} `{BinaryHeap H}.

(** [notified] counts the calls of [notify_one]. *)
Record t := mk { queue : H; start_time : Z; notified : nat }.

Definition new (now : Z) : t := mk empty now 0.

Definition insert (ts socket_id : Z) (q : t) : t :=
  let sockets := push (SendQueueNode.mk ts socket_id) (queue q) in
  let notify := match peek sockets with
                | Some node => SendQueueNode.socket_id node =? socket_id
                | None => false
                end in
  mk sockets (start_time q) (if notify then S (notified q) else notified q).

Definition remove (socket_id : Z) (q : t) : t :=
  mk (collect (filter (λ n, SendQueueNode.socket_id n ≠ socket_id) (iter (queue q))))
     (start_time q) (notified q).

Definition contains (socket_id : Z) (q : t) : bool :=
  existsb (λ n, SendQueueNode.socket_id n =? socket_id) (iter (queue q)).

(** The socket is the first one to be served. *)
Definition is_first (socket_id : Z) (q : t) : bool :=
  match peek (queue q) with
  | Some node => SendQueueNode.socket_id node =? socket_id
  | None => false
  end.

Definition update (socket_id : Z) (reschedule : bool) (q : t) : t :=
  if reschedule && is_first socket_id q then
    mk (set_peek (start_time q) (queue q)) (start_time q) (S (notified q))
  else if negb (contains socket_id q) then insert (start_time q) socket_id q
  else if reschedule then insert (start_time q) socket_id (remove socket_id q)
  else q.

(** The choice of the worker: a node that is due is taken, otherwise the time to sleep
    until, if any. *)
Inductive next := Due (n : node) | SleepUntil (ts : Z) | WaitForNotification.

Definition next_node (now : Z) (q : t) : next * t :=
  match peek (queue q) with
  | Some first =>
      if SendQueueNode.timestamp first <=? now then
        match pop (queue q) with
        | Some (n, h) => (Due n, mk h (start_time q) (notified q))
        | None => (WaitForNotification, q)
        end
      else (SleepUntil (SendQueueNode.timestamp first), q)
  | None => (WaitForNotification, q)
  end.
End operations.
Arguments t : clear implicits.
End UdtSndQueue.

(** ** Abstraction: the nodes of a socket *)

Definition nodes_of {H} `{BinaryHeap H} (id : Z) (q : UdtSndQueue.t H) : list node :=
  filter (λ n, SendQueueNode.socket_id n = id) (iter (UdtSndQueue.queue q)).
Definition other_nodes {H} `{BinaryHeap H} (id : Z) (q : UdtSndQueue.t H) : list node :=
  filter (λ n, SendQueueNode.socket_id n ≠ id) (iter (UdtSndQueue.queue q)).

Section queue.
Context {H : Type} `{BinaryHeapLaws H}.
Implicit Types q : UdtSndQueue.t H.

Lemma iter_insert ts id q :
  iter (UdtSndQueue.queue (UdtSndQueue.insert ts id q)) ≡ₚ
    SendQueueNode.mk ts id :: iter (UdtSndQueue.queue q).
Proof. apply iter_push. Qed.

Lemma insert_nodes ts id q :
  nodes_of id (UdtSndQueue.insert ts id q) ≡ₚ SendQueueNode.mk ts id :: nodes_of id q
  ∧ other_nodes id (UdtSndQueue.insert ts id q) ≡ₚ other_nodes id q.
Proof.
  unfold nodes_of, other_nodes. rewrite !iter_insert.
  rewrite filter_cons_True, filter_cons_False by (simpl; auto). done.
Qed.

Lemma remove_nodes id q :
  nodes_of id (UdtSndQueue.remove id q) = [] ∧ other_nodes id (UdtSndQueue.remove id q) ≡ₚ other_nodes id q.
Proof.
  unfold nodes_of, other_nodes, UdtSndQueue.remove. simpl. split.
  - apply filter_none. intros n. rewrite iter_collect. by intros [? _]%list_elem_of_filter.
  - rewrite iter_collect. rewrite filter_all; [done|]. by intros n [? _]%list_elem_of_filter.
Qed.

Lemma contains_nodes id q : UdtSndQueue.contains id q = false ↔ nodes_of id q = [].
Proof.
  unfold UdtSndQueue.contains, nodes_of. split.
  - intros Hc. apply filter_none. intros n Hn E.
    assert (existsb (λ n, SendQueueNode.socket_id n =? id) (iter (UdtSndQueue.queue q)) = true); [|congruence].
    apply existsb_exists. exists n. split; [by apply list_elem_of_In|lia].
  - intros Hf. apply not_true_is_false. intros (n & Hn & E)%existsb_exists.
    assert (n ∈ filter (λ n, SendQueueNode.socket_id n = id) (iter (UdtSndQueue.queue q))) as Hin.
    { apply list_elem_of_filter. split; [lia|by apply list_elem_of_In]. }
    rewrite Hf in Hin. by apply not_elem_of_nil in Hin.
Qed.

Lemma set_peek_nodes id q : UdtSndQueue.is_first id q = true → (length (nodes_of id q) ≤ 1)%nat →
  let q' := UdtSndQueue.mk (set_peek (UdtSndQueue.start_time q) (UdtSndQueue.queue q))
              (UdtSndQueue.start_time q) (S (UdtSndQueue.notified q)) in
  nodes_of id q' ≡ₚ [SendQueueNode.mk (UdtSndQueue.start_time q) id]
  ∧ other_nodes id q' ≡ₚ other_nodes id q.
Proof.
  unfold UdtSndQueue.is_first, nodes_of, other_nodes. simpl.
  destruct (peek (UdtSndQueue.queue q)) as [n|] eqn:Hp; [|done]. intros E Hone.
  destruct (iter_set_peek _ n (UdtSndQueue.start_time q) Hp) as (rest & Hr & Hs).
  assert (SendQueueNode.socket_id n = id) as <- by lia.
  rewrite Hr, filter_cons_True in Hone by done. simpl in Hone.
  rewrite Hs, Hr, !filter_cons_True by done. rewrite !filter_cons_False by (simpl; auto).
  destruct (filter (λ n0, SendQueueNode.socket_id n0 = SendQueueNode.socket_id n) rest); [done|simpl in Hone; lia].
Qed.

(** ** Properties *)

(** [update] with [reschedule] leaves exactly one node for the socket, due at once
    (at the queue's start time), and the other sockets' nodes as they were, provided
    that the socket had at most one node; without [reschedule] a scheduled socket keeps
    its node and an unscheduled one gets a node that is due at once. *)
Theorem update_schedules id reschedule q :
  (length (nodes_of id q) ≤ 1)%nat →
  let q' := UdtSndQueue.update id reschedule q in
  other_nodes id q' ≡ₚ other_nodes id q
  ∧ nodes_of id q' ≡ₚ (if reschedule || negb (UdtSndQueue.contains id q)
                       then [SendQueueNode.mk (UdtSndQueue.start_time q) id] else nodes_of id q).
Proof.
  intros Hone. unfold UdtSndQueue.update.
  destruct (reschedule && UdtSndQueue.is_first id q) eqn:Hfirst.
  { apply andb_true_iff in Hfirst as [-> Hfirst]. simpl.
    destruct (set_peek_nodes id q Hfirst Hone) as [? ?]. done. }
  destruct (UdtSndQueue.contains id q) eqn:Hc; simpl.
  - destruct reschedule; [|done]. simpl.
    destruct (insert_nodes (UdtSndQueue.start_time q) id (UdtSndQueue.remove id q)) as [-> ->].
    destruct (remove_nodes id q) as [-> ->]. done.
  - destruct (insert_nodes (UdtSndQueue.start_time q) id q) as [-> ->].
    apply contains_nodes in Hc as ->. by rewrite orb_true_r.
Qed.

(** The worker never serves a socket before its time, serves a node with the least
    timestamp, and takes exactly that node; it sleeps exactly until the first node is
    due, and waits for a notification only when the queue is empty. *)
Theorem next_node_earliest now q :
  match UdtSndQueue.next_node now q with
  | (UdtSndQueue.Due n, q') =>
      SendQueueNode.timestamp n <= now ∧ iter (UdtSndQueue.queue q) ≡ₚ n :: iter (UdtSndQueue.queue q')
      ∧ ∀ m, m ∈ iter (UdtSndQueue.queue q) → SendQueueNode.timestamp n <= SendQueueNode.timestamp m
  | (UdtSndQueue.SleepUntil ts, q') =>
      q' = q ∧ now < ts ∧ ∀ m, m ∈ iter (UdtSndQueue.queue q) → ts <= SendQueueNode.timestamp m
  | (UdtSndQueue.WaitForNotification, q') => q' = q ∧ iter (UdtSndQueue.queue q) = []
  end.
Proof.
  unfold UdtSndQueue.next_node.
  destruct (peek (UdtSndQueue.queue q)) as [n|] eqn:Hp; [|by apply peek_None in Hp].
  destruct (peek_least _ _ Hp) as [Hin Hmin]. destruct (Z.leb_spec (SendQueueNode.timestamp n) now).
  - destruct (pop_peek _ _ Hp) as (h & -> & Hperm). done.
  - by split_and!.
Qed.

(** When a socket is rescheduled between the worker's choice of its node and the
    worker's own insertion of its next time, it ends up with two nodes: the worker does
    not hold the queue while it prepares the packets. *)
Theorem worker_race_duplicates id now ts q n q1 :
  UdtSndQueue.next_node now q = (UdtSndQueue.Due n, q1) → SendQueueNode.socket_id n = id →
  (length (nodes_of id q) ≤ 1)%nat →
  length (nodes_of id (UdtSndQueue.insert ts id (UdtSndQueue.update id true q1))) = 2%nat.
Proof.
  intros Hn Hid Hone. unfold UdtSndQueue.next_node in Hn.
  destruct (peek (UdtSndQueue.queue q)) as [m|] eqn:Hp; [|done].
  destruct (SendQueueNode.timestamp m <=? now); [|done].
  destruct (pop_peek _ _ Hp) as (h & Hpop & Hperm). rewrite Hpop in Hn. injection Hn as -> <-.
  assert (nodes_of id (UdtSndQueue.mk h (UdtSndQueue.start_time q) (UdtSndQueue.notified q)) = []) as Hnone.
  { unfold nodes_of in *. simpl. rewrite Hperm, filter_cons_True in Hone by done. simpl in Hone.
    destruct (filter _ (iter h)); [done|simpl in Hone; lia]. }
  set (q1 := UdtSndQueue.mk h _ _) in *.
  destruct (insert_nodes ts id (UdtSndQueue.update id true q1)) as [-> _]. simpl. f_equal.
  unfold UdtSndQueue.update.
  assert (UdtSndQueue.contains id q1 = false) as Hc by by apply contains_nodes.
  assert (UdtSndQueue.is_first id q1 = false) as ->.
  { unfold UdtSndQueue.is_first. destruct (peek (UdtSndQueue.queue q1)) as [m'|] eqn:Hp'; [|done].
    apply Z.eqb_neq. intros E. destruct (peek_least _ _ Hp') as [Hin _].
    assert (m' ∈ nodes_of id q1) as Hin' by (by apply list_elem_of_filter).
    rewrite Hnone in Hin'. by apply not_elem_of_nil in Hin'. }
  rewrite Hc. cbn [negb andb]. destruct (insert_nodes (UdtSndQueue.start_time q1) id q1) as [-> _].
  by rewrite Hnone.
Qed.
End queue.

(** ** A heap: the list of nodes in increasing order of timestamps *)

Definition node_le (n m : node) : Prop := SendQueueNode.timestamp n <= SendQueueNode.timestamp m.
#[export] Instance node_le_dec n m : Decision (node_le n m).
Proof. unfold node_le. apply _. Defined.
#[export] Instance node_le_total : Total node_le.
Proof. intros n m. unfold node_le. lia. Qed.
#[export] Instance node_le_trans : Transitive node_le.
Proof. intros n m k. unfold node_le. lia. Qed.

Definition sorted_nodes (l : list node) : list node := merge_sort node_le l.

(** The list is sorted whenever its first element is asked for. *)
#[export] Instance list_heap : BinaryHeap (list node) := {
  empty := [];
  push n h := n :: h;
  peek h := head (sorted_nodes h);
  pop h := match sorted_nodes h with n :: h => Some (n, h) | [] => None end;
  set_peek t h := match sorted_nodes h with
                  | n :: h => SendQueueNode.mk t (SendQueueNode.socket_id n) :: h
                  | [] => []
                  end;
  iter h := h;
  collect l := l
}.

#[export] Instance list_heap_laws : BinaryHeapLaws (list node).
Proof.
  assert (∀ h, sorted_nodes h ≡ₚ h) as Hperm by (intros; apply merge_sort_Permutation).
  split; simpl; try done.
  - intros h. split; [|by intros ->]. intros Hh. apply Permutation_nil. rewrite <- (Hperm h).
    by destruct (sorted_nodes h).
  - intros h n Hh. pose proof (StronglySorted_merge_sort node_le h) as Hs. fold (sorted_nodes h) in Hs.
    setoid_rewrite <- (Hperm h). destruct (sorted_nodes h) as [|m l]; [done|]. injection Hh as ->.
    split; [left|]. intros m [->|Hm]%elem_of_cons; [done|].
    inversion Hs as [|? ? _ Hall]. rewrite Forall_forall in Hall. by apply Hall.
  - intros h n Hh. pose proof (Hperm h) as Hp. destruct (sorted_nodes h) as [|m l]; [done|].
    injection Hh as ->. exists l. by rewrite <- Hp.
  - intros h n t Hh. pose proof (Hperm h) as Hp. destruct (sorted_nodes h) as [|m l]; [done|].
    injection Hh as ->. exists l. by rewrite <- Hp.
Qed.

(** ** Witnesses *)

Definition sample_queue : UdtSndQueue.t (list node) :=
  UdtSndQueue.mk [SendQueueNode.mk 30 1; SendQueueNode.mk 20 2] 5 0.

Lemma update_schedules_witness :
  nodes_of 1 (UdtSndQueue.update 1 true sample_queue) ≡ₚ [SendQueueNode.mk 5 1].
Proof. apply (update_schedules 1 true sample_queue). by vm_compute; lia. Defined.

Lemma worker_race_duplicates_witness :
  length (nodes_of 2 (UdtSndQueue.insert 40 2 (UdtSndQueue.update 2 true
    (UdtSndQueue.mk [SendQueueNode.mk 30 1] 5 0)))) = 2%nat.
Proof.
  apply (worker_race_duplicates 2 25 40 sample_queue (SendQueueNode.mk 20 2)); by vm_compute || (vm_compute; lia).
Defined.

Lemma next_node_earliest_witness :
  UdtSndQueue.next_node 25 sample_queue
  = (UdtSndQueue.Due (SendQueueNode.mk 20 2), UdtSndQueue.mk [SendQueueNode.mk 30 1] 5 0)
  ∧ ∀ m, m ∈ iter (UdtSndQueue.queue sample_queue) → 20 <= SendQueueNode.timestamp m.
Proof.
  pose proof (next_node_earliest 25 sample_queue) as Hn.
  destruct (UdtSndQueue.next_node 25 sample_queue) as [x q'] eqn:E. vm_compute in E.
  injection E as <- <-. destruct Hn as (_ & _ & Hmin). split; [done|exact Hmin].
Defined.
