(* ===== verification/rcv_queue.v ===== *)
(** * Receive queue ([src/queue/rcv_queue.rs])

    The sockets of a multiplexer by the time their timers were last checked, and the
    cache of weak references.  A [SocketRef] or a [Weak<UdtSocket>] is the address of a
    socket in the heap of [udt]. *)

From S2P Require Import prelude seq_number time btree_map.

Definition TIMERS_CHECK_INTERVAL : Z := from_millis 100.

Module UdtRcvQueue.
Record t := mk { sockets : list (Z * Z); mss : Z; socket_refs : list (Z * nat) }.

Definition new (mss : Z) : t := mk [] mss [].

Definition push_back (now socket_id : Z) (q : t) : t :=
  mk (sockets q ++ [(now, socket_id)]) (mss q) (socket_refs q).

Definition update (now socket_id : Z) (q : t) : t :=
  push_back now socket_id (mk (filter (λ e, e.2 ≠ socket_id) (sockets q)) (mss q) (socket_refs q)).

Definition cache (socket_id : Z) (r : nat) (q : t) : t :=
  mk (sockets q) (mss q) (BTreeMap.insert socket_id r (socket_refs q)).

(** The sockets to check: the front of the queue is taken while it is older than
    [TIMERS_CHECK_INTERVAL]; [clock i] is the [i]-th reading. *)
Fixpoint take_due (clock : nat → Z) (l : list (Z * Z)) : list Z * list (Z * Z) :=
  match l with
  | [] => ([], [])
  | (ts, id) :: rest =>
      if duration_since (clock 0%nat) ts >? TIMERS_CHECK_INTERVAL then
        let '(due, rest) := take_due (λ i, clock (S i)) rest in (id :: due, rest)
      else ([], l)
  end.

Definition due (clock : nat → Z) (q : t) : list Z * t :=
  let '(ids, rest) := take_due clock (sockets q) in (ids, mk rest (mss q) (socket_refs q)).
End UdtRcvQueue.

(** ** Invariant

    The entries are in the order of their times, none in the future. *)

Definition rcv_queue_wf (now : Z) (q : UdtRcvQueue.t) : Prop :=
  StronglySorted (λ e e', e.1 <= e'.1) (UdtRcvQueue.sockets q)
  ∧ Forall (λ e, e.1 <= now) (UdtRcvQueue.sockets q).

Lemma rcv_queue_new now mss : rcv_queue_wf now (UdtRcvQueue.new mss).
Proof. split; constructor. Qed.

Lemma rcv_queue_later now now' q : now <= now' → rcv_queue_wf now q → rcv_queue_wf now' q.
Proof. intros Hle [Hs Hf]. split; [done|]. eapply Forall_impl; [done|]. simpl. lia. Qed.

Lemma rcv_queue_push now id q : rcv_queue_wf now q → rcv_queue_wf now (UdtRcvQueue.push_back now id q).
Proof.
  intros [Hs Hf]. unfold UdtRcvQueue.push_back. split; simpl.
  - apply StronglySorted_app_2; [|done|repeat constructor].
    intros e e' He ->%list_elem_of_singleton. rewrite Forall_forall in Hf. by apply Hf.
  - apply Forall_app. split; [done|]. repeat constructor. simpl. lia.
Qed.

Lemma rcv_queue_update now id q : rcv_queue_wf now q → rcv_queue_wf now (UdtRcvQueue.update now id q).
Proof.
  intros [Hs Hf]. apply rcv_queue_push. split; simpl; [by apply StronglySorted_filter|].
  rewrite Forall_forall in *. intros e [_ He]%list_elem_of_filter. by apply Hf.
Qed.

(** [update] leaves one entry of the socket, at the back. *)
Lemma update_entries now id q :
  let q' := UdtRcvQueue.update now id q in
  filter (λ e, e.2 = id) (UdtRcvQueue.sockets q') = [(now, id)]
  ∧ filter (λ e, e.2 ≠ id) (UdtRcvQueue.sockets q') = filter (λ e, e.2 ≠ id) (UdtRcvQueue.sockets q)
  ∧ last (UdtRcvQueue.sockets q') = Some (now, id).
Proof.
  unfold UdtRcvQueue.update, UdtRcvQueue.push_back. simpl. rewrite !filter_app, last_snoc.
  split_and!; [|..|done].
  - rewrite (filter_cons_True _ (now, id)) by done. simpl. rewrite filter_none; [done|].
    by intros e [? _]%list_elem_of_filter.
  - rewrite (filter_cons_False _ (now, id)) by (simpl; auto). rewrite filter_nil, app_nil_r.
    apply filter_all. by intros e [? _]%list_elem_of_filter.
Qed.
