(* ===== verification/udt.v ===== *)
(** * The registry ([src/udt.rs], the data of [src/multiplexer.rs])

    All the sockets of the process.  A [SocketRef] is the address of a socket in the
    [heap]: the registry, the listener of a multiplexer, the caches of the queues and the
    application share the socket at an address.  A multiplexer is never dropped, so a
    [Weak<UdtMultiplexer>] is its identifier.  The methods run in [UM], [M] over the
    registry; [on r m] runs a method of the socket at [r]. *)

From stdpp Require Import gmap.
From S2P Require Import prelude seq_number time data_packet control_packet packet.
From S2P Require Import btree_map loss_list ack_window rcv_buffer snd_buffer float flow.
From S2P Require Import configuration rate_control socket_state world socket rcv_queue.

#[global] Open Scope Z_scope.

Module UdtMultiplexer.
Record t := mk {
  id : Z;
  port : Z;
  reusable : bool;
  mss : Z;
  rcv_queue : UdtRcvQueue.t;
  listener : option nat
}.

(** [new] and [bind], once the operating system has given the socket a port. *)
Definition create (id port : Z) (config : UdtConfiguration.t) : t :=
  mk id port (UdtConfiguration.reuse_mux config) (UdtConfiguration.mss config)
     (UdtRcvQueue.new (UdtConfiguration.mss config)) None.

Definition set_rcv_queue (q : UdtRcvQueue.t) (m : t) : t :=
  mk (id m) (port m) (reusable m) (mss m) q (listener m).
Definition set_listener (l : option nat) (m : t) : t :=
  mk (id m) (port m) (reusable m) (mss m) (rcv_queue m) l.
End UdtMultiplexer.

(** What lies outside of the registry: the result of creating a UDP socket, the initial
    sequence numbers that are drawn, and whether something else than the registry still
    holds the socket at an address, each at a given reading of the clock. *)
Class Os := {
  udp_port : nat → option SocketAddr → outcome Z;
  random_isn : nat → Z;
  held : nat → nat → bool
}.

Module Udt.
Record t := mk {
  heap : list UdtSocket.t;
  sockets : list (Z * nat);
  multiplexers : list (Z * UdtMultiplexer.t);
  next_socket_id : Z;
  peers : gmap (Z * Z) (list (Z * unit))
}.

Definition new (random_id : Z) : t := mk [] [] [] random_id ∅.

Definition set_heap (v : list UdtSocket.t) (u : t) : t :=
  mk v (sockets u) (multiplexers u) (next_socket_id u) (peers u).
Definition set_sockets (v : list (Z * nat)) (u : t) : t :=
  mk (heap u) v (multiplexers u) (next_socket_id u) (peers u).
Definition set_multiplexers (v : list (Z * UdtMultiplexer.t)) (u : t) : t :=
  mk (heap u) (sockets u) v (next_socket_id u) (peers u).
Definition set_next_socket_id (v : Z) (u : t) : t :=
  mk (heap u) (sockets u) (multiplexers u) v (peers u).
Definition set_peers (v : gmap (Z * Z) (list (Z * unit))) (u : t) : t :=
  mk (heap u) (sockets u) (multiplexers u) (next_socket_id u) v.

Definition has_status (v : UdtStatus) (u : t) (r : nat) : bool :=
  match heap u !! r with
  | Some s => bool_decide (UdtSocket.status s = v)
  | None => false
  end.

Definition get_socket (socket_id : Z) (u : t) : option nat :=
  match BTreeMap.get socket_id (sockets u) with
  | Some r => if has_status Closed u r then None else Some r
  | None => None
  end.

(** The first socket, by identifier, that is connected to [peer]. *)
Fixpoint find_peer (peer : SocketAddr) (ids : list (Z * unit)) (u : t) : option nat :=
  match ids with
  | [] => None
  | (id, _) :: ids =>
      match (r ← BTreeMap.get id (sockets u); heap u !! r) with
      | Some s =>
          if bool_decide (UdtSocket.peer_addr s = Some peer)
          then BTreeMap.get (UdtSocket.socket_id s) (sockets u)
          else find_peer peer ids u
      | None => find_peer peer ids u
      end
  end.

Definition get_peer_socket (peer : SocketAddr) (socket_id initial_seq_number : Z) (u : t) : option nat :=
  match peers u !! (socket_id, initial_seq_number) with
  | Some ids => find_peer peer ids u
  | None => None
  end.

(** The multiplexer of the socket at [r], and the update of a multiplexer. *)
Definition mux_of (r : nat) (u : t) : option UdtMultiplexer.t :=
  s ← heap u !! r; id ← UdtSocket.multiplexer s; BTreeMap.get id (multiplexers u).
Definition put_mux (m : UdtMultiplexer.t) (u : t) : t :=
  set_multiplexers (BTreeMap.insert (UdtMultiplexer.id m) m (multiplexers u)) u.

(** What an event of the socket at [r] does to its multiplexer. *)
Definition absorb (r : nat) (now : Z) (u : t) (e : event) : t :=
  match mux_of r u with
  | None => u
  | Some m =>
      match e with
      | RcvQueuePushBack id =>
          put_mux (UdtMultiplexer.set_rcv_queue
            (UdtRcvQueue.push_back now id (UdtMultiplexer.rcv_queue m)) m) u
      | ClearListener id =>
          match (l ← UdtMultiplexer.listener m; heap u !! l) with
          | Some s => if UdtSocket.socket_id s =? id
                      then put_mux (UdtMultiplexer.set_listener None m) u else u
          | None => u
          end
      | _ => u
      end
  end.
End Udt.

Notation "'UM' A" := (M Udt.t A) (at level 10).

(** The socket at [r]; an address is never freed, so the [Panic] is unreachable. *)
Definition deref (r : nat) : UM UdtSocket.t :=
  u ← get; lift (unwrap (Udt.heap u !! r)).

Definition on `{Env} {A} (r : nat) (m : SM A) : UM A := λ w,
  match Udt.heap (sock w) !! r with
  | None => (Panic, w)
  | Some s =>
      let '(o, w') := m (World s (ticks w) (trace w)) in
      let u := Udt.set_heap (<[r := sock w']> (Udt.heap (sock w))) (sock w) in
      let events := drop (length (trace w)) (trace w') in
      (o, World (foldl (Udt.absorb r (clock (ticks w'))) u events) (S (ticks w')) (trace w'))
  end.

(** [Arc::new]. *)
Definition alloc (s : UdtSocket.t) : UM nat :=
  u ← get; modify (Udt.set_heap (Udt.heap u ++ [s])) ;; mret (length (Udt.heap u)).

Section registry.
Context `{Profile} `{Env} `{FloatLib} `{Os}.

Definition get_new_socket_id : UM Z :=
  id ← gets Udt.next_socket_id;
  modify (Udt.set_next_socket_id (wrap_u 32 (id - 1))) ;;
  mret id.

Definition draw_isn : UM Z := λ w, (Ok (random_isn (ticks w)), w).

(** [Vacant]: the socket is registered; otherwise it is dropped. *)
Definition new_socket (socket_type : SocketType) (config : option UdtConfiguration.t) : UM nat :=
  id ← get_new_socket_id;
  isn ← draw_isn;
  times ← nows 4;
  u ← get;
  match BTreeMap.get id (Udt.sockets u) with
  | Some _ => throw AlreadyExists
  | None =>
      r ← alloc (UdtSocket.new times isn id socket_type None config);
      modify (λ u, Udt.set_sockets (BTreeMap.insert id r (Udt.sockets u)) u) ;;
      mret r
  end.

(** ** Multiplexers *)

Definition set_multiplexer (r : nat) (mux : Z) : UM unit :=
  on r (modify (UdtSocket.set_multiplexer mux)).

(** The first multiplexer on this port that may be shared. *)
Definition find_mux (port mss : Z) (u : Udt.t) : option Z :=
  fst <$> head (filter (λ e,
    UdtMultiplexer.reusable e.2 = true ∧ UdtMultiplexer.port e.2 = port ∧ UdtMultiplexer.mss e.2 = mss)
    (Udt.multiplexers u)).

(** The multiplexer to share, if the options and the address allow it. *)
Definition shared_mux (config : UdtConfiguration.t) (bind_addr : option SocketAddr) (u : Udt.t) : option Z :=
  match bind_addr with
  | Some addr => if UdtConfiguration.reuse_mux config && (port addr >? 0)
                 then find_mux (port addr) (UdtConfiguration.mss config) u else None
  | None => None
  end.

Definition create_mux (id : Z) (bind_addr : option SocketAddr) (config : UdtConfiguration.t) : UM unit :=
  port ← (λ w, (udp_port (ticks w) bind_addr, w)) : UM Z;
  modify (Udt.put_mux (UdtMultiplexer.create id port config)).

Definition update_mux (r : nat) (bind_addr : option SocketAddr) : UM unit :=
  s ← deref r;
  u ← get;
  match shared_mux (UdtSocket.configuration s) bind_addr u with
  | Some mux => set_multiplexer r mux
  | None =>
      create_mux (UdtSocket.socket_id s) bind_addr (UdtSocket.configuration s) ;;
      set_multiplexer r (UdtSocket.socket_id s)
  end.

Definition bind (socket_id : Z) (addr : SocketAddr) : UM unit :=
  u ← get;
  match Udt.get_socket socket_id u with
  | None => throw Other
  | Some r =>
      s ← deref r;
      if negb (bool_decide (UdtSocket.status s = Init)) then throw Other else
      update_mux r (Some addr) ;;
      on r (modify UdtSocket.open)
  end.

(** ** New connections *)

Definition dequeue (id : Z) : SM unit :=
  modify (λ s, UdtSocket.set_queued (BTreeMap.remove id (UdtSocket.queued_sockets s)) s).
Definition enqueue (id : Z) : SM unit :=
  modify (λ s, UdtSocket.set_queued (BTreeMap.insert id () (UdtSocket.queued_sockets s)) s).

(** The answer to a handshake of a peer that is already connected by the socket at [r]. *)
Definition answer_again (r : nat) (peer : SocketAddr) (hs : HandShakeInfo.t) : UM unit :=
  s ← deref r;
  let hs' := HandShakeInfo.mk (HandShakeInfo.udt_version hs) (HandShakeInfo.socket_type hs)
    (UdtSocket.initial_seq_number s) (UdtConfiguration.mss (UdtSocket.configuration s))
    (UdtConfiguration.flight_flag_size (UdtSocket.configuration s)) (-1) (UdtSocket.socket_id s)
    (HandShakeInfo.syn_cookie hs) (HandShakeInfo.ip_address hs) in
  on r (send_to peer (Control (UdtControlPacket.new_handshake hs' (HandShakeInfo.socket_id hs)))).

(** The socket of a new connection, not yet registered. *)
Definition accepted_socket (l : nat) (id : Z) (peer : SocketAddr) (hs : HandShakeInfo.t) : UM UdtSocket.t :=
  listener ← deref l;
  match UdtSocket.multiplexer listener with
  | None => throw Other
  | Some mux =>
      let config := UdtSocket.configuration listener in
      if len (UdtSocket.queued_sockets listener) >=? UdtConfiguration.accept_queue_size config
      then throw Other else
      times ← nows 4;
      s ← lift (UdtSocket.with_peer peer (HandShakeInfo.socket_id hs)
                 (UdtSocket.new times 0 id (HandShakeInfo.socket_type hs)
                    (Some (HandShakeInfo.initial_seq_number hs)) (Some config)));
      mret (UdtSocket.open (UdtSocket.with_listen_socket (UdtSocket.socket_id listener) mux s))
  end.

Definition add_peer (peer_id isn id : Z) (u : Udt.t) : Udt.t :=
  let ids := match Udt.peers u !! (peer_id, isn) with Some ids => ids | None => [] end in
  Udt.set_peers (<[(peer_id, isn) := BTreeMap.insert id () ids]> (Udt.peers u)) u.

Definition register_connection (l : nat) (peer : SocketAddr) (hs : HandShakeInfo.t) : UM unit :=
  id ← get_new_socket_id;
  s ← accepted_socket l id peer hs;
  r ← alloc s;
  on r (connect_on_handshake peer hs) ;;
  modify (add_peer (HandShakeInfo.socket_id hs) (UdtSocket.initial_seq_number s) id) ;;
  modify (λ u, Udt.set_sockets (BTreeMap.insert id r (Udt.sockets u)) u) ;;
  on l (enqueue id) ;;
  emit (NotifyOne AcceptNotify).

Definition new_connection (l : nat) (peer : SocketAddr) (hs : HandShakeInfo.t) : UM unit :=
  u ← get;
  match Udt.get_peer_socket peer (HandShakeInfo.socket_id hs) (HandShakeInfo.initial_seq_number hs) u with
  | Some r =>
      s ← deref r;
      if bool_decide (UdtSocket.status s = Broken)
      then on l (dequeue (UdtSocket.socket_id s)) ;; register_connection l peer hs
      else answer_again r peer hs
  | None => register_connection l peer hs
  end.

(** [UdtSocket::listen_on_handshake], on the listener at [l]. *)
Definition listen_on_handshake (l : nat) (addr : SocketAddr) (hs : HandShakeInfo.t) : UM unit :=
  accepted ← on l (check_handshake addr hs);
  when accepted (new_connection l addr hs).

(** [UdtSocket::connect]. *)
Definition connect (r : nat) (addr : SocketAddr) (bind_addr : option SocketAddr) : UM unit :=
  on r connect_start ;;
  update_mux r bind_addr ;;
  on r (connect_request addr).

(** ** Garbage collection *)

Definition with_status (v : UdtStatus) (u : Udt.t) : list (Z * nat) :=
  filter (λ e, Udt.has_status v u e.2 = true) (Udt.sockets u).

(** A broken socket leaves the queue of its listener. *)
Definition leave_queue (r : nat) : UM unit :=
  s ← deref r;
  u ← get;
  match (l ← UdtSocket.listen_socket s; BTreeMap.get l (Udt.sockets u)) with
  | Some l => on l (dequeue (UdtSocket.socket_id s))
  | None => mret ()
  end.

Definition drop_socket (e : Z * nat) : UM unit :=
  modify (λ u, Udt.set_sockets (BTreeMap.remove e.1 (Udt.sockets u)) u) ;;
  on e.2 (set_status Closed).

(** The first loop of [garbage_collect_sockets]; the result is the sockets whose [close] it
    spawns. *)
Definition collect_broken : UM (list nat) :=
  broken ← gets (with_status Broken);
  foldr (λ e m, leave_queue e.2 ;; m) (mret ()) broken ;;
  mret (broken.*2).

(** Its second half. *)
Definition drop_closing : UM unit :=
  closing ← gets (with_status Closing);
  foldr (λ e m, drop_socket e ;; m) (mret ()) closing.

Definition garbage_collect_sockets : UM (list nat) :=
  refs ← collect_broken; drop_closing ;; mret refs.

(** A turn of the loop of [cleanup_worker].  The spawned [close]s are tasks of their own:
    those chosen by [early] run before the second half of the collection, the others
    after it. *)
Definition run_closes (refs : list nat) : UM unit :=
  foldr (λ r m, on r (close []) ;; m) (mret ()) refs.

Definition cleanup_turn (early : nat → bool) : UM unit :=
  refs ← collect_broken;
  run_closes (filter (λ r, early r = true) refs) ;;
  drop_closing ;;
  run_closes (filter (λ r, early r = false) refs).
End registry.
