(* ===== verification/listener.v ===== *)
(** * Listeners and connections ([src/listener.rs], [src/connection.rs])

    What the application does with the registry: bind a listener and accept its
    connections, connect to a list of addresses, and the readiness of the asynchronous
    reads and writes.  A wait is a result; what happens during it is up to the caller. *)

From S2P Require Import prelude seq_number time data_packet control_packet packet.
From S2P Require Import btree_map loss_list ack_window rcv_buffer snd_buffer float flow.
From S2P Require Import configuration rate_control socket_state world socket rcv_queue udt.

Module UdtListener.
Section operations.
Context `{Profile} `{Env} `{FloatLib} `{Os}.

Definition set_mux_listener (mux : Z) (l : nat) (u : Udt.t) : Udt.t :=
  match BTreeMap.get mux (Udt.multiplexers u) with
  | Some m => Udt.put_mux (UdtMultiplexer.set_listener (Some l) m) u
  | None => u
  end.

Definition bind (bind_addr : SocketAddr) (config : option UdtConfiguration.t) : UM nat :=
  r ← new_socket Stream config;
  s ← deref r;
  if UdtConfiguration.rendezvous (UdtSocket.configuration s) then throw Unsupported else
  udt.bind (UdtSocket.socket_id s) bind_addr ;;
  s ← deref r;
  mux ← lift (unwrap (UdtSocket.multiplexer s));
  modify (set_mux_listener mux r) ;;
  on r (set_status Listening) ;;
  mret r.

(** One turn of the loop of [accept]: the identifier taken from the queue, [None] to wait. *)
Definition accept_turn (l : nat) : UM (option Z) :=
  s ← deref l;
  if negb (bool_decide (UdtSocket.status s = Listening)) then throw Other else
  match UdtSocket.queued_sockets s with
  | (id, _) :: _ => on l (dequeue id) ;; mret (Some id)
  | [] => mret None
  end.

(** [None] is a wait for [accept_notify]. *)
Definition accept (l : nat) : UM (option (SocketAddr * nat)) :=
  s ← deref l;
  if UdtConfiguration.rendezvous (UdtSocket.configuration s) then throw Unsupported else
  turn ← accept_turn l;
  match turn with
  | None => mret None
  | Some id =>
      u ← get;
      match Udt.get_socket id u with
      | None => throw Other
      | Some r =>
          s ← deref r;
          match UdtSocket.peer_addr s with
          | None => throw Other
          | Some addr => mret (Some (addr, r))
          end
      end
  end.
End operations.
End UdtListener.

Module UdtConnection.
(** [Poll]: what is ready, or the event that wakes the task. *)
Inductive poll (A : Type) :=
  | Ready (r : outcome A)
  | WaitForData
  | WaitForAck
  | WaitForClose.
Arguments Ready {A} _.
Arguments WaitForData {A}.
Arguments WaitForAck {A}.
Arguments WaitForClose {A}.

Section operations.
Context `{Profile} `{Env} `{FloatLib} `{Os}.

(** [m] caught: its error is a value. *)
Definition try {St A} (m : M St A) : M St (A + ErrorKind) := λ w,
  match m w with
  | (Ok a, w) => (Ok (inl a), w)
  | (Err e, w) => (Ok (inr e), w)
  | (Panic, w) => (Panic, w)
  end.

(** The loop over the addresses; the last error if none connects. *)
Fixpoint try_addresses (r : nat) (bind_addr : option SocketAddr) (addrs : list SocketAddr)
    (last_err : option ErrorKind) : UM unit :=
  match addrs with
  | [] => throw (match last_err with Some e => e | None => InvalidInput end)
  | addr :: addrs =>
      res ← try (connect r addr bind_addr);
      match res with
      | inl () => mret ()
      | inr e => try_addresses r bind_addr addrs (Some e)
      end
  end.

(** [_bind_and_connect] up to its wait for the end of the handshake. *)
Definition bind_and_connect (bind_addr : option SocketAddr) (addrs : outcome (list SocketAddr))
    (config : option UdtConfiguration.t) : UM nat :=
  r ← new_socket Stream config;
  addrs ← lift addrs;
  try_addresses r bind_addr addrs None ;;
  mret r.

(** The loop that follows; [waits] are what the other tasks do during its successive
    waits, [false] a loop that is still waiting when they are exhausted. *)
Fixpoint await_connection (r : nat) (waits : list (UM unit)) : UM bool :=
  waiting ← on r must_wait_for_connection;
  if waiting : bool then
    match waits with
    | [] => mret false
    | wait :: waits =>
        wait ;;
        s ← deref r;
        if bool_decide (UdtSocket.status s = Connecting) then await_connection r waits else mret true
    end
  else mret true.

(** [_bind_and_connect]; [None] if it has not returned. *)
Definition bind_and_wait (bind_addr : option SocketAddr) (addrs : outcome (list SocketAddr))
    (config : option UdtConfiguration.t) (waits : list (UM unit)) : UM (option nat) :=
  r ← bind_and_connect bind_addr addrs config;
  connected ← await_connection r waits;
  mret (if connected : bool then Some r else None).

(** [recv]; [wait] is what happens during its wait, and [None] a wait that has not ended. *)
Definition recv (buf : ReadBuf.t) (wait : option (SM unit)) : SM (option Z * ReadBuf.t) :=
  go ← recv_start (ReadBuf.remaining buf);
  if negb go then mret (Some 0, buf) else
  waiting ← must_wait;
  match waiting, wait with
  | true, None => mret (None, buf)
  | true, Some wait => wait ;; r ← recv_finish buf; mret (Some r.1, r.2)
  | false, _ => r ← recv_finish buf; mret (Some r.1, r.2)
  end.

Definition poll_read (buf : ReadBuf.t) : SM (poll ReadBuf.t) :=
  res ← try (poll_recv buf);
  mret match res with
       | inl (Some (_, buf)) => Ready (Ok buf)
       | inl None => WaitForData
       | inr e => Ready (Err e)
       end.

Definition poll_write (buf : list Z) : SM (poll nat) :=
  res ← try (send buf);
  mret match res with
       | inl () => Ready (Ok (length buf))
       | inr OutOfMemory => WaitForAck
       | inr e => Ready (Err e)
       end.

Definition poll_flush : SM (poll unit) :=
  s ← get;
  mret (if UdtSocket.snd_buffer_is_empty s then Ready (Ok ()) else WaitForAck).

(** [WaitForClose]: [close] is spawned, and the task is woken when it returns. *)
Definition poll_shutdown : SM (poll unit) :=
  s ← get;
  mret (if bool_decide (UdtSocket.status s = Closed) then Ready (Ok ()) else WaitForClose).
End operations.
End UdtConnection.
