(* ===== verification/rcv_worker.v ===== *)
(** * The receiving worker ([UdtRcvQueue::worker] in [src/queue/rcv_queue.rs])

    One turn of the worker of a multiplexer: every datagram received is parsed and given
    to the listener or to its socket, then the timers that are due are checked.  The
    receive system call is the list of datagrams it returns. *)

From S2P Require Import prelude seq_number time data_packet control_packet packet.
From S2P Require Import btree_map loss_list ack_window rcv_buffer snd_buffer float flow.
From S2P Require Import configuration rate_control socket_state world socket rcv_queue udt.

Module RcvWorker.
Section worker.
Context `{Profile} `{Env} `{FloatLib} `{Os}.

(** The multiplexer of the worker, and its receive queue. *)
Definition get_mux (mux : Z) : UM UdtMultiplexer.t :=
  u ← get; lift (unwrap (BTreeMap.get mux (Udt.multiplexers u))).

Definition modify_rcv_queue (mux : Z) (f : UdtRcvQueue.t → UdtRcvQueue.t) : UM unit :=
  m ← get_mux mux;
  modify (Udt.put_mux (UdtMultiplexer.set_rcv_queue (f (UdtMultiplexer.rcv_queue m)) m)).

(** [Weak::upgrade]: something still holds the socket at [r]. *)
Definition upgrade (r : nat) : UM (option nat) := λ w,
  (Ok (if bool_decide (r ∈ (Udt.sockets (sock w)).*2) || held (ticks w) r then Some r else None), w).

Definition get_socket (mux id : Z) : UM (option nat) :=
  m ← get_mux mux;
  match BTreeMap.get id (UdtRcvQueue.socket_refs (UdtMultiplexer.rcv_queue m)) with
  | Some r => upgrade r
  | None =>
      u ← get;
      match Udt.get_socket id u with
      | Some r => modify_rcv_queue mux (UdtRcvQueue.cache id r) ;; mret (Some r)
      | None => mret None
      end
  end.

Definition update (mux id : Z) : UM unit :=
  time ← now; modify_rcv_queue mux (UdtRcvQueue.update time id).

(** A packet for socket 0 is a handshake for the listener. *)
Definition to_listener (mux : Z) (packet : UdtPacket) (addr : SocketAddr) : UM unit :=
  match UdtPacket.handshake packet with
  | Some hs =>
      m ← get_mux mux;
      match UdtMultiplexer.listener m with
      | Some l => listen_on_handshake l addr hs
      | None => mret ()
      end
  | None => throw InvalidData
  end.

(** The packet is processed, then the timers are checked and restarted. *)
Definition serve (mux id : Z) (r : nat) (packet : UdtPacket) : UM unit :=
  on r (process_packet packet) ;; on r check_timers ;; update mux id.

Definition to_socket (mux id : Z) (packet : UdtPacket) (addr : SocketAddr) : UM unit :=
  r ← get_socket mux id;
  match r with
  | Some r =>
      s ← deref r;
      if bool_decide (UdtSocket.peer_addr s = Some addr) && UdtStatus.is_alive (UdtSocket.status s)
      then serve mux id r packet
      else mret ()
  | None => mret ()
  end.

Definition dispatch (mux : Z) (packet : UdtPacket) (addr : SocketAddr) : UM unit :=
  let id := UdtPacket.get_dest_socket_id packet in
  if id =? 0 then to_listener mux packet addr else to_socket mux id packet addr.

(** The datagrams are all parsed first; those that do not parse are dropped. *)
Fixpoint parse_datagrams (msgs : list (list Z * SocketAddr)) : outcome (list (UdtPacket * SocketAddr)) :=
  match msgs with
  | [] => Ok []
  | (raw, addr) :: msgs =>
      match UdtPacket.deserialize raw with
      | Ok packet => rest ← parse_datagrams msgs; Ok ((packet, addr) :: rest)
      | Err _ => parse_datagrams msgs
      | Panic => Panic
      end
  end.

Definition check_socket (mux id : Z) : UM unit :=
  r ← get_socket mux id;
  match r with
  | Some r =>
      s ← deref r;
      when (UdtStatus.is_alive (UdtSocket.status s)) (on r check_timers ;; update mux id)
  | None => mret ()
  end.

(** The sockets whose timers are due leave the queue together, then they are checked. *)
Definition check_due (mux : Z) : UM unit :=
  m ← get_mux mux;
  let q := UdtMultiplexer.rcv_queue m in
  times ← nows (length (UdtRcvQueue.sockets q));
  let '(ids, q) := UdtRcvQueue.due times q in
  modify_rcv_queue mux (λ _, q) ;;
  foldr (λ id m, check_socket mux id ;; m) (mret ()) ids.

(** One turn of the loop; an error ends the worker. *)
Definition worker_turn (mux : Z) (msgs : list (list Z * SocketAddr)) : UM unit :=
  packets ← lift (parse_datagrams msgs);
  foldr (λ p m, dispatch mux p.1 p.2 ;; m) (mret ()) packets ;;
  check_due mux.
End worker.
End RcvWorker.
