(* ===== verification/registry.v ===== *)
(** * The invariant of the registry

    A registered or cached identifier leads to the socket of that identifier, and every
    operation of [udt], [listener] and [rcv_worker] keeps it so, however it ends. *)

From stdpp Require Import gmap.
From S2P Require Import prelude seq_number time data_packet control_packet packet.
From S2P Require Import btree_map loss_list ack_window rcv_buffer snd_buffer float flow.
From S2P Require Import configuration rate_control socket_state world socket rcv_queue udt.
From S2P Require Import socket_status listener rcv_worker.

#[global] Open Scope Z_scope.

(** ** The identifier of a socket never changes *)

Definition same_id (s s' : UdtSocket.t) : Prop := UdtSocket.socket_id s' = UdtSocket.socket_id s.

#[export] Instance same_id_preorder : PreOrder same_id.
Proof. split; [done|]. unfold same_id. intros ? ? ? -> ->. done. Qed.

Lemma keeps_id {A B} (m : SM B) : all_steps (may_become A) m → all_steps same_id m.
Proof. intros Hm w. by destruct (Hm w) as [(E & _) _]. Qed.

Section methods.
Context `{Profile} `{Env} `{FloatLib}.

Lemma id_modify (f : UdtSocket.t → UdtSocket.t) :
  (∀ s, UdtSocket.socket_id (f s) = UdtSocket.socket_id s) → all_steps same_id (modify f).
Proof. intros Hf. by apply steps_modify. Qed.

Lemma set_peer_addr_id addr s s' : UdtSocket.set_peer_addr addr s = Ok s' → same_id s s'.
Proof. intros Hs. apply bind_is_Ok in Hs as (? & _ & Hs). by apply (inj Ok) in Hs as <-. Qed.

Lemma id_send_to addr p : all_steps same_id (send_to addr p).
Proof. apply (keeps_id (A := never)), keeps_send_to. Qed.

Lemma id_process_packet p : all_steps same_id (process_packet p).
Proof. eapply keeps_id, keeps_process_packet. Qed.

Lemma id_check_timers : all_steps same_id check_timers.
Proof. apply (keeps_id (A := λ v, v = Broken)). by apply keeps_check_timers. Qed.
#[local] Hint Resolve id_send_to : world.

Ltac ids := unfold_access; repeat (progress steps ||
  match goal with |- all_steps _ (let '_ := ?x in _) => destruct x end);
  try (unfold same_id; reflexivity); eauto using set_peer_addr_id.

Lemma id_connect_start : all_steps same_id connect_start.
Proof. unfold connect_start. ids. Qed.
Lemma id_connect_request addr : all_steps same_id (connect_request addr).
Proof. unfold connect_request, set_status. ids. Qed.
Lemma id_connect_on_handshake peer hs : all_steps same_id (connect_on_handshake peer hs).
Proof. unfold connect_on_handshake, set_status. ids. Qed.
Lemma id_check_handshake addr hs : all_steps same_id (check_handshake addr hs).
Proof. unfold check_handshake, compute_cookie. ids. Qed.
End methods.

(** ** The invariant *)

(** The socket at [r] has identifier [id]. *)
Definition named (u : Udt.t) (id : Z) (r : nat) : Prop :=
  ∃ s, Udt.heap u !! r = Some s ∧ UdtSocket.socket_id s = id.

Record mux_wf (u : Udt.t) (m : UdtMultiplexer.t) : Prop := {
  refs_sorted : BTreeMap.sorted (UdtRcvQueue.socket_refs (UdtMultiplexer.rcv_queue m));
  refs_named id r : (id, r) ∈ UdtRcvQueue.socket_refs (UdtMultiplexer.rcv_queue m) → named u id r
}.

Record udt_wf (u : Udt.t) : Prop := {
  sockets_sorted : BTreeMap.sorted (Udt.sockets u);
  sockets_named id r : (id, r) ∈ Udt.sockets u → named u id r;
  muxes_sorted : BTreeMap.sorted (Udt.multiplexers u);
  muxes_wf id m : (id, m) ∈ Udt.multiplexers u → UdtMultiplexer.id m = id ∧ mux_wf u m
}.

(** What every operation does to the registry: sockets keep their addresses and
    identifiers, and the invariant is kept. *)
Definition reg_step (u u' : Udt.t) : Prop :=
  (∀ id r, named u id r → named u' id r) ∧ (udt_wf u → udt_wf u').

#[export] Instance reg_step_preorder : PreOrder reg_step.
Proof. split; [by split|]. intros u1 u2 u3 [? ?] [? ?]. split; auto. Qed.

Lemma mux_wf_mono u u' m : (∀ id r, named u id r → named u' id r) → mux_wf u m → mux_wf u' m.
Proof. intros Hn [? ?]. split; auto. Qed.

(** A change of the heap alone. *)
Lemma step_heap h u : (∀ id r, named u id r → named (Udt.set_heap h u) id r) →
  reg_step u (Udt.set_heap h u).
Proof.
  intros Hn. split; [done|]. intros [? Hs ? Hm]. split; [done| |done|].
  - intros id r Hr. by apply Hn, Hs.
  - intros id m Hin. destruct (Hm id m Hin). eauto using mux_wf_mono.
Qed.

Lemma step_write r s s' u : Udt.heap u !! r = Some s → same_id s s' →
  reg_step u (Udt.set_heap (<[r := s']> (Udt.heap u)) u).
Proof.
  intros Hr Hid. apply step_heap. intros id r' (s1 & Hs1 & E). unfold named. simpl.
  destruct (decide (r = r')) as [<-|].
  - exists s'. rewrite list_lookup_insert_eq by (by eapply lookup_lt_Some). split; [done|].
    rewrite Hid. congruence.
  - exists s1. by rewrite list_lookup_insert_ne.
Qed.

Lemma step_put_mux m u : (udt_wf u → mux_wf u m) → reg_step u (Udt.put_mux m u).
Proof.
  intros Hm. split; [done|]. intros Hu. pose proof Hu as [? ? ? Hall]. split; [done|done| |].
  - by apply sorted_insert.
  - intros id m' Hin. simpl in Hin.
    apply elem_of_insert in Hin as [[= -> ->]|[Hin _]].
    + split; [done|]. apply (mux_wf_mono u); auto.
    + destruct (Hall id m' Hin). split; [done|]. by apply (mux_wf_mono u).
Qed.

(** A lookup in the registry gives a member. *)
Lemma get_mux_wf id m u : udt_wf u → BTreeMap.get id (Udt.multiplexers u) = Some m →
  UdtMultiplexer.id m = id ∧ mux_wf u m.
Proof. intros [? ? ? Hall] Hg. apply Hall. by apply get_Some. Qed.

Lemma mux_of_wf r u m : udt_wf u → Udt.mux_of r u = Some m → mux_wf u m.
Proof.
  intros Hu Hm. unfold Udt.mux_of in Hm. apply bind_Some in Hm as (s & _ & Hm).
  apply bind_Some in Hm as (id & _ & Hm). by apply (get_mux_wf id m u Hu).
Qed.

(** An event changes at most a multiplexer of the registry: its cache stays as it was, and
    no entry leaves its timer queue. *)
Lemma absorb_put r now u e :
  Udt.absorb r now u e = u
  ∨ ∃ m m', Udt.absorb r now u e = Udt.put_mux m' u
    ∧ (udt_wf u → BTreeMap.get (UdtMultiplexer.id m') (Udt.multiplexers u) = Some m)
    ∧ UdtRcvQueue.socket_refs (UdtMultiplexer.rcv_queue m') = UdtRcvQueue.socket_refs (UdtMultiplexer.rcv_queue m)
    ∧ UdtRcvQueue.sockets (UdtMultiplexer.rcv_queue m) ⊆ UdtRcvQueue.sockets (UdtMultiplexer.rcv_queue m').
Proof.
  unfold Udt.absorb. destruct (Udt.mux_of r u) as [m|] eqn:Hm; [|by left].
  assert (udt_wf u → BTreeMap.get (UdtMultiplexer.id m) (Udt.multiplexers u) = Some m) as Hg.
  { intros Hu. unfold Udt.mux_of in Hm. apply bind_Some in Hm as (s & _ & Hm).
    apply bind_Some in Hm as (i & _ & Hm). by destruct (get_mux_wf i m u Hu Hm) as [-> _]. }
  destruct e; try by left.
  - right. eexists m, _. split_and!; [done|done|done|]. simpl. set_solver.
  - destruct (_ ≫= _); [|by left]. destruct (_ =? _); [|by left]. right. eexists m, _. by split_and!.
Qed.

Lemma step_absorb r now u e : reg_step u (Udt.absorb r now u e).
Proof.
  destruct (absorb_put r now u e) as [->|(m & m' & -> & Hm & Hr & _)]; [reflexivity|].
  apply step_put_mux. intros Hu. destruct (get_mux_wf _ m u Hu (Hm Hu)) as [_ [? ?]].
  by split; rewrite Hr.
Qed.

(** A method of the socket at [r], for a relation that writing the socket and absorbing
    an event respect. *)
Lemma steps_on_rel `{Env} (R : Udt.t → Udt.t → Prop) `{!PreOrder R} {A} r (m : SM A) :
  (∀ u s s', Udt.heap u !! r = Some s → same_id s s' → R u (Udt.set_heap (<[r := s']> (Udt.heap u)) u)) →
  (∀ now u e, R u (Udt.absorb r now u e)) → all_steps same_id m → all_steps R (on r m).
Proof.
  intros Hwrite Habsorb Hm w. unfold on.
  destruct (Udt.heap (sock w) !! r) as [s|] eqn:Hr; [|reflexivity].
  specialize (Hm (World s (ticks w) (trace w))). destruct (m _) as [o w']. simpl in *.
  etransitivity; [by apply (Hwrite _ s (sock w'))|].
  generalize (Udt.set_heap (<[r:=sock w']> (Udt.heap (sock w))) (sock w)) as u.
  induction (drop (length (trace w)) (trace w')) as [|e es IH]; intros u; [reflexivity|].
  simpl. etransitivity; [apply Habsorb|apply IH].
Qed.

Lemma steps_on `{Env} {A} r (m : SM A) : all_steps same_id m → all_steps reg_step (on r m).
Proof.
  apply steps_on_rel; [apply _| |apply step_absorb]. intros. by apply (step_write r s).
Qed.

(** ** The operations *)

Lemma step_frame u u' : Udt.heap u' = Udt.heap u → Udt.sockets u' = Udt.sockets u →
  Udt.multiplexers u' = Udt.multiplexers u → reg_step u u'.
Proof.
  intros Eh Es Em. assert (∀ id r, named u' id r ↔ named u id r) as Hn
    by (intros; unfold named; by rewrite Eh).
  split; [intros; by apply Hn|]. intros [Hss Hs Hms Hm]. rewrite <- Es in *. rewrite <- Em in *. split; [done| |done|].
  - intros. by apply Hn, Hs.
  - intros i m Hin. destruct (Hm i m Hin). split; [done|]. apply (mux_wf_mono u); [|done].
    intros. by apply Hn.
Qed.

Lemma step_sockets l u :
  (udt_wf u → BTreeMap.sorted l ∧ ∀ id r, (id, r) ∈ l → named u id r) → reg_step u (Udt.set_sockets l u).
Proof.
  intros Hl. split; [done|]. intros Hu. destruct (Hl Hu). destruct Hu as [? ? ? Hm]. split; try done.
  intros i m Hin. destruct (Hm i m Hin). split; [done|]. by apply (mux_wf_mono u).
Qed.

Lemma step_register id r u : named u id r →
  reg_step u (Udt.set_sockets (BTreeMap.insert id r (Udt.sockets u)) u).
Proof.
  intros Hr. apply step_sockets. intros [? Hs _ _]. split; [by apply sorted_insert|].
  intros id' r' Hin. apply elem_of_insert in Hin as [[= -> ->]|[Hin _]]; [done|by apply Hs].
Qed.

Lemma step_unregister id u : reg_step u (Udt.set_sockets (BTreeMap.remove id (Udt.sockets u)) u).
Proof.
  apply step_sockets. intros [? Hs _ _]. split; [by apply sorted_remove|].
  intros id' r' [Hin _]%elem_of_remove. by apply Hs.
Qed.

Lemma step_alloc s u : reg_step u (Udt.set_heap (Udt.heap u ++ [s]) u).
Proof.
  apply step_heap. intros id r (s' & Hs' & E). exists s'. split; [|done]. by apply lookup_app_l_Some.
Qed.

Lemma named_alloc s u :
  named (Udt.set_heap (Udt.heap u ++ [s]) u) (UdtSocket.socket_id s) (length (Udt.heap u)).
Proof. exists s. split; [|done]. simpl. by apply list_lookup_middle. Qed.

(** A sequence whose second part needs what the first part established. *)
Lemma step_seq {A B} (m : UM A) (f : A → UM B) w :
  reg_step (sock w) (sock (m w).2) →
  (∀ a w', m w = (Ok a, w') → reg_step (sock w') (sock (f a w').2)) →
  reg_step (sock w) (sock ((m ≫= f) w).2).
Proof.
  intros Hm Hf. unfold mbind, M_bind. destruct (m w) as [[a|e|] w'] eqn:E; simpl in *; [|done..].
  etransitivity; [done|by apply Hf].
Qed.

Section operations.
Context `{Profile} `{Env} `{FloatLib} `{Os}.
Local Notation keeps_reg m := (all_steps reg_step m).

Lemma reg_pure (f : Udt.t → Udt.t) : (∀ u, reg_step u (f u)) → keeps_reg (modify f).
Proof. intros Hf. by apply steps_modify. Qed.

Lemma reg_deref r : keeps_reg (deref r).
Proof. unfold deref. apply steps_bind; [apply _|apply steps_get; apply _|]. intros; apply steps_lift; apply _. Qed.

Lemma reg_get_new_socket_id : keeps_reg get_new_socket_id.
Proof.
  unfold get_new_socket_id. apply steps_bind; [apply _|apply steps_gets; apply _|intros id].
  apply steps_bind; [apply _| |intros []; apply steps_ret; apply _].
  apply reg_pure. intros u. by apply step_frame.
Qed.

Lemma reg_draw_isn : keeps_reg draw_isn.
Proof. intros w. reflexivity. Qed.
#[local] Hint Resolve reg_deref reg_get_new_socket_id reg_draw_isn : world.

Lemma reg_new_socket ty config : keeps_reg (new_socket ty config).
Proof.
  unfold new_socket. do 3 (apply steps_bind; [apply _|solve [steps]|]; intros ?x).
  apply steps_bind; [apply _|solve [steps]|]. intros u. destruct (BTreeMap.get x _); [steps|].
  intros w. unfold alloc. run. simpl. set (s := UdtSocket.new _ _ _ _ _ _).
  etransitivity; [apply (step_alloc s)|]. refine (step_register _ _ (Udt.set_heap _ _) _).
  apply (named_alloc s).
Qed.

Lemma reg_on {A} r (m : SM A) : all_steps same_id m → keeps_reg (on r m).
Proof. apply steps_on. Qed.

Lemma reg_set_multiplexer r mux : keeps_reg (set_multiplexer r mux).
Proof. by apply reg_on, id_modify. Qed.

Lemma reg_update_mux r addr : keeps_reg (update_mux r addr).
Proof.
  unfold update_mux. apply steps_bind; [apply _|apply reg_deref|intros s].
  apply steps_bind; [apply _|solve [steps]|intros u].
  destruct (shared_mux _ _ _); [apply reg_set_multiplexer|].
  apply steps_bind; [apply _| |intros; apply reg_set_multiplexer].
  unfold create_mux. apply steps_bind; [apply _|by intros w|intros port].
  apply reg_pure. intros u'. apply step_put_mux. split; [apply sorted_nil|].
  by intros ? ? ?%not_elem_of_nil.
Qed.
#[local] Hint Resolve reg_new_socket reg_update_mux : world.

Lemma reg_bind id addr : keeps_reg (bind id addr).
Proof.
  unfold bind. steps. apply reg_on, id_modify. done.
Qed.

Lemma reg_connect r addr bind_addr : keeps_reg (connect r addr bind_addr).
Proof.
  unfold connect. steps; apply reg_on; [apply id_connect_start|apply id_connect_request].
Qed.

Lemma reg_dequeue l id : keeps_reg (on l (dequeue id)).
Proof. by apply reg_on, id_modify. Qed.
Lemma reg_enqueue l id : keeps_reg (on l (enqueue id)).
Proof. by apply reg_on, id_modify. Qed.
Lemma reg_set_status r v : keeps_reg (on r (set_status v)).
Proof. by apply reg_on, id_modify. Qed.
Lemma reg_answer_again r peer hs : keeps_reg (answer_again r peer hs).
Proof. unfold answer_again. steps. apply reg_on, id_send_to. Qed.
#[local] Hint Resolve reg_dequeue reg_enqueue reg_set_status reg_answer_again : world.

Lemma accepted_socket_id l id peer hs w s w' :
  accepted_socket l id peer hs w = (Ok s, w') → UdtSocket.socket_id s = id ∧ sock w' = sock w.
Proof.
  unfold accepted_socket, deref. run. destruct (Udt.heap (sock w) !! l) as [listener|]; run; [|done].
  destruct (UdtSocket.multiplexer listener); run; [|done]. destruct (_ >=? _); run; [done|].
  destruct (UdtSocket.with_peer _ _ _) as [s0|e|] eqn:E; run; [|done..]. intros [= <- <-].
  split; [|done]. unfold UdtSocket.with_peer in E. apply bind_is_Ok in E as (s1 & E & E').
  apply (inj Ok) in E' as <-. by apply set_peer_addr_id in E.
Qed.

Lemma accepted_socket_reads l id peer hs : keeps_reg (accepted_socket l id peer hs).
Proof. unfold accepted_socket. steps. Qed.

Lemma reg_register_connection l peer hs : keeps_reg (register_connection l peer hs).
Proof.
  unfold register_connection. apply steps_bind; [apply _|apply reg_get_new_socket_id|intros id w].
  apply step_seq; [apply accepted_socket_reads|]. intros s w1 Hs.
  destruct (accepted_socket_id l id peer hs w s w1 Hs) as [Hid _].
  apply step_seq; [apply step_alloc|]. intros r w2 Hr.
  assert (named (sock w2) id r) as Hn2 by (injection Hr as <- <-; rewrite <- Hid; apply named_alloc).
  pose proof (reg_on r _ (id_connect_on_handshake peer hs) w2) as Hstep.
  apply step_seq; [done|]. intros [] w3 Hw3. rewrite Hw3 in Hstep. apply Hstep in Hn2.
  apply step_seq; [by apply step_frame|]. intros [] w4 [= <-].
  apply step_seq; [by apply step_register|]. intros [] w5 [= <-].
  apply step_seq; [apply reg_enqueue|]. intros [] w6 _. reflexivity.
Qed.
#[local] Hint Resolve reg_register_connection : world.

Lemma reg_new_connection l peer hs : keeps_reg (new_connection l peer hs).
Proof. unfold new_connection. steps. Qed.
#[local] Hint Resolve reg_new_connection : world.

Lemma reg_listen_on_handshake l addr hs : keeps_reg (listen_on_handshake l addr hs).
Proof. unfold listen_on_handshake. steps. apply reg_on, id_check_handshake. Qed.

(** Loops over a list. *)
Lemma reg_foldr {A} (f : A → UM unit) l : (∀ x, keeps_reg (f x)) →
  keeps_reg (foldr (λ x m, f x ;; m) (mret ()) l).
Proof.
  intros Hf. induction l as [|x l IH]; simpl; [apply steps_ret; apply _|].
  apply steps_bind; [apply _|apply Hf|by intros []].
Qed.

Lemma reg_leave_queue r : keeps_reg (leave_queue r).
Proof. unfold leave_queue. steps. Qed.

Lemma reg_collect_broken : keeps_reg collect_broken.
Proof. unfold collect_broken. steps. apply reg_foldr. intros e. apply reg_leave_queue. Qed.

Lemma reg_drop_closing : keeps_reg drop_closing.
Proof.
  unfold drop_closing. steps. apply reg_foldr. intros e. unfold drop_socket.
  apply steps_bind; [apply _|apply reg_pure; apply step_unregister|]. intros. apply reg_set_status.
Qed.
End operations.

Section applications.
Context `{Profile} `{Env} `{FloatLib} `{Os}.
Local Notation keeps_reg m := (all_steps reg_step m).
#[local] Hint Resolve reg_deref reg_new_socket reg_bind reg_dequeue reg_set_status : world.

Lemma step_set_mux_listener mux l u : reg_step u (UdtListener.set_mux_listener mux l u).
Proof.
  unfold UdtListener.set_mux_listener. destruct (BTreeMap.get _ _) as [m|] eqn:Hm; [|reflexivity].
  apply step_put_mux. intros Hu. destruct (get_mux_wf mux m u Hu Hm) as [_ [? ?]]. by split.
Qed.

Lemma reg_listener_bind addr config : keeps_reg (UdtListener.bind addr config).
Proof. unfold UdtListener.bind. steps. apply step_set_mux_listener. Qed.

Lemma reg_accept l : keeps_reg (UdtListener.accept l).
Proof. unfold UdtListener.accept, UdtListener.accept_turn. steps. Qed.

Lemma reg_try {A} (m : UM A) : keeps_reg m → keeps_reg (UdtConnection.try m).
Proof. intros Hm w. specialize (Hm w). unfold UdtConnection.try. by destruct (m w) as [[| |] ?]. Qed.

Lemma reg_try_addresses r bind_addr addrs last :
  keeps_reg (UdtConnection.try_addresses r bind_addr addrs last).
Proof.
  revert last. induction addrs as [|addr addrs IH]; intros last; [apply steps_throw; apply _|].
  cbn [UdtConnection.try_addresses]. apply steps_bind; [apply _|apply reg_try, reg_connect|].
  intros [[]|e]; [apply steps_ret; apply _|apply IH].
Qed.

Lemma reg_bind_and_connect bind_addr addrs config :
  keeps_reg (UdtConnection.bind_and_connect bind_addr addrs config).
Proof. unfold UdtConnection.bind_and_connect. steps. apply reg_try_addresses. Qed.

(** *** The receiving worker *)

Lemma reg_modify_rcv_queue mux f :
  (∀ q, UdtRcvQueue.socket_refs (f q) = UdtRcvQueue.socket_refs q) →
  keeps_reg (RcvWorker.modify_rcv_queue mux f).
Proof.
  intros Hf w. unfold RcvWorker.modify_rcv_queue, RcvWorker.get_mux. run.
  destruct (BTreeMap.get mux _) as [m|] eqn:Hm; run; [|reflexivity]. apply step_put_mux.
  intros Hu. destruct (get_mux_wf mux m _ Hu Hm) as [_ [? ?]]. by split; simpl; rewrite Hf.
Qed.

Lemma get_socket_named id r u : udt_wf u → Udt.get_socket id u = Some r → named u id r.
Proof.
  intros Hu Hg. unfold Udt.get_socket in Hg. destruct (BTreeMap.get id _) as [r'|] eqn:Hr; [|done].
  destruct (Udt.has_status _ _ _); [done|]. injection Hg as ->.
  apply (sockets_named u Hu). apply get_Some; [apply Hu|done].
Qed.

Lemma reg_get_socket mux id : keeps_reg (RcvWorker.get_socket mux id).
Proof.
  intros w. unfold RcvWorker.get_socket, RcvWorker.modify_rcv_queue, RcvWorker.get_mux. run.
  destruct (BTreeMap.get mux _) as [m|] eqn:Hm; run; [|reflexivity].
  destruct (BTreeMap.get id _) as [r|]; [reflexivity|]. run.
  destruct (Udt.get_socket id _) as [r|] eqn:Hg; run; [|reflexivity]. rewrite Hm. run.
  apply step_put_mux. intros Hu. destruct (get_mux_wf mux m _ Hu Hm) as [_ [? Hn]].
  split; simpl; [by apply sorted_insert|]. intros id' r'.
  intros [[= -> ->]|[Hin _]]%elem_of_insert; [by apply get_socket_named|by apply Hn].
Qed.
#[local] Hint Resolve reg_get_socket : world.

Lemma reg_worker_update mux id : keeps_reg (RcvWorker.update mux id).
Proof. unfold RcvWorker.update. steps. by apply reg_modify_rcv_queue. Qed.
Lemma reg_on_packet r p : keeps_reg (on r (process_packet p)).
Proof. apply reg_on, id_process_packet. Qed.
Lemma reg_on_timers r : keeps_reg (on r check_timers).
Proof. apply reg_on, id_check_timers. Qed.
Lemma reg_get_mux mux : keeps_reg (RcvWorker.get_mux mux).
Proof. unfold RcvWorker.get_mux. steps. Qed.
#[local] Hint Resolve reg_worker_update reg_on_packet reg_on_timers reg_get_mux
  reg_listen_on_handshake : world.

Lemma reg_dispatch mux packet addr : keeps_reg (RcvWorker.dispatch mux packet addr).
Proof. unfold RcvWorker.dispatch, RcvWorker.to_listener, RcvWorker.to_socket, RcvWorker.serve. steps. Qed.

Lemma reg_check_socket mux id : keeps_reg (RcvWorker.check_socket mux id).
Proof. unfold RcvWorker.check_socket. steps. Qed.

Lemma due_refs times q : UdtRcvQueue.socket_refs (UdtRcvQueue.due times q).2 = UdtRcvQueue.socket_refs q.
Proof. unfold UdtRcvQueue.due. by destruct (UdtRcvQueue.take_due _ _). Qed.

Lemma reg_check_due mux : keeps_reg (RcvWorker.check_due mux).
Proof.
  intros w. unfold RcvWorker.check_due, RcvWorker.modify_rcv_queue, RcvWorker.get_mux. run.
  destruct (BTreeMap.get mux _) as [m|] eqn:Hm; run; [|reflexivity].
  pose proof (due_refs (λ i, clock (ticks w + i)) (UdtMultiplexer.rcv_queue m)) as Hr.
  destruct (UdtRcvQueue.due _ _) as [ids q]. simpl in Hr. run. rewrite Hm. run.
  etransitivity; [|apply reg_foldr; intros; apply reg_check_socket].
  apply step_put_mux. intros Hu. destruct (get_mux_wf mux m _ Hu Hm) as [_ [? ?]].
  by split; simpl; rewrite Hr.
Qed.

Lemma reg_worker_turn mux msgs : keeps_reg (RcvWorker.worker_turn mux msgs).
Proof.
  unfold RcvWorker.worker_turn. steps; [|apply reg_check_due]. apply reg_foldr.
  intros [p addr]. apply reg_dispatch.
Qed.

(** *** The methods that the application and the sending worker call *)

Lemma id_next_data_packets : all_steps same_id next_data_packets.
Proof. apply (keeps_id (A := never)), keeps_next_data_packets. Qed.
Lemma id_send data : all_steps same_id (send data).
Proof. apply (keeps_id (A := never)), keeps_send. Qed.
Lemma id_poll_recv buf : all_steps same_id (poll_recv buf).
Proof. apply (keeps_id (A := never)), keeps_poll_recv. Qed.
Lemma id_close : all_steps same_id (close []).
Proof.
  apply (keeps_id (A := λ v, v = Closing)).
  unfold close, close_finish, linger, lingers. steps.
Qed.

Lemma reg_run_closes refs : keeps_reg (run_closes refs).
Proof. apply reg_foldr. intros r. apply reg_on, id_close. Qed.

Lemma reg_cleanup_turn early : keeps_reg (cleanup_turn early).
Proof.
  unfold cleanup_turn. steps; (apply reg_collect_broken || apply reg_drop_closing || apply reg_run_closes).
Qed.
End applications.

(** ** Reachable registries *)

Inductive operation :=
  | Listen (addr : SocketAddr) (config : option UdtConfiguration.t)
  | Accept (listener : nat)
  | Connect (bind_addr : option SocketAddr) (addrs : outcome (list SocketAddr))
      (config : option UdtConfiguration.t)
  | Send (r : nat) (data : list Z)
  | Read (r : nat) (buf : ReadBuf.t)
  | Close (r : nat)
  | NextPackets (r : nat)
  | WorkerTurn (mux : Z) (msgs : list (list Z * SocketAddr))
  | Cleanup (early : nat → bool).

Section reachable.
Context `{Profile} `{Env} `{FloatLib} `{Os}.

Definition perform (o : operation) (w : world Udt.t) : world Udt.t :=
  match o with
  | Listen addr config => (UdtListener.bind addr config w).2
  | Accept l => (UdtListener.accept l w).2
  | Connect bind_addr addrs config => (UdtConnection.bind_and_connect bind_addr addrs config w).2
  | Send r data => (on r (send data) w).2
  | Read r buf => (on r (poll_recv buf) w).2
  | Close r => (on r (close []) w).2
  | NextPackets r => (on r next_data_packets w).2
  | WorkerTurn mux msgs => (RcvWorker.worker_turn mux msgs w).2
  | Cleanup early => (cleanup_turn early w).2
  end.

Lemma perform_step o w : reg_step (sock w) (sock (perform o w)).
Proof.
  destruct o; simpl; [apply reg_listener_bind|apply reg_accept|apply reg_bind_and_connect|..].
  - apply reg_on, id_send.
  - apply reg_on, id_poll_recv.
  - apply reg_on, id_close.
  - apply reg_on, id_next_data_packets.
  - apply reg_worker_turn.
  - apply reg_cleanup_turn.
Qed.

Lemma udt_wf_new id : udt_wf (Udt.new id).
Proof. split; try apply sorted_nil; by intros ? ? ?%not_elem_of_nil. Qed.

(** C22. Whatever the application, the peers and the operating system do, in any order and
    however each operation ends, the registry leads from an identifier to the socket of
    that identifier: the registered sockets and the cached references of every
    multiplexer name the socket at their address. *)
Theorem registry_invariant id n tr ops :
  udt_wf (sock (foldl (λ w o, perform o w) (World (Udt.new id) n tr) ops)).
Proof.
  assert (∀ w, udt_wf (sock w) → udt_wf (sock (foldl (λ w o, perform o w) w ops))) as Hops.
  { induction ops as [|o ops IH]; intros w Hw; [done|]. simpl. apply IH. by apply (perform_step o w). }
  apply Hops, udt_wf_new.
Qed.
End reachable.
