(* ===== verification/snd_worker.v ===== *)
(** * The sending worker ([UdtSndQueue::worker] in [src/queue/snd_queue.rs])

    The worker of a multiplexer takes the socket whose time has come, asks it for packets,
    schedules its next turn, and hands the packets through a bounded channel to a task
    that sends them.  Both tasks, the cache of weak references and the notifications are a
    transition system in which the other tasks of the process may act at any point
    between two steps; a turn of the worker up to its wait is one step, and so is a call of
    [send_data_packets].  The channel is the interface [Mpsc]. *)

From stdpp Require Import relations.
From S2P Require Import prelude seq_number time data_packet control_packet packet.
From S2P Require Import btree_map loss_list ack_window rcv_buffer snd_buffer float flow.
From S2P Require Import configuration rate_control socket_state world socket rcv_queue udt.
From S2P Require Import snd_queue rcv_worker registry samples socket_sender.

#[global] Open Scope Z_scope.

Definition TOKIO_CHANNEL_CAPACITY : nat := 50.

(** [tokio::sync::mpsc::channel]: [mpsc_room] is the [capacity] that is left. *)
Class Mpsc (C A : Type) := {
  mpsc_channel : nat → C;
  mpsc_room : C → nat;
  mpsc_send : A → C → C;
  mpsc_recv : C → option (A * C)
}.

(** The messages come out in the order they went in. *)
Class MpscLaws (C A : Type) `{Mpsc C A} := {
  queued : C → list A;
  queued_channel n : queued (mpsc_channel n) = [];
  room_channel n : mpsc_room (mpsc_channel n) = n;
  queued_send a c : queued (mpsc_send a c) = queued c ++ [a];
  room_send a c : (0 < mpsc_room c)%nat → S (mpsc_room (mpsc_send a c)) = mpsc_room c;
  recv_Some a c c' : mpsc_recv c = Some (a, c') →
    queued c = a :: queued c' ∧ mpsc_room c' = S (mpsc_room c)
}.

(** What is left of the capacity, and the messages. *)
#[export] Instance list_mpsc A : Mpsc (nat * list A) A := {
  mpsc_channel n := (n, []);
  mpsc_room c := c.1;
  mpsc_send a c := (Nat.pred c.1, c.2 ++ [a]);
  mpsc_recv c := match c.2 with a :: l => Some (a, (S c.1, l)) | [] => None end
}.
#[export, refine] Instance list_mpsc_laws A : MpscLaws (nat * list A) A := {| queued := snd |}.
Proof.
  all: try done.
  - intros a [n l]. simpl. lia.
  - intros a [n [|b l]] c'; simpl; [done|]. by intros [= -> <-].
Defined.

Module SndWorker.

(** A batch of packets and the socket that sends it. *)
Definition batch : Type := nat * list UdtDataPacket.t.

(** What the task runs or waits for: a turn of the loop, room in the channel, a time or
    a notification, a notification; or it has ended by an error or a panic. *)
Inductive phase :=
  | Running
  | Sending (b : batch)
  | Sleeping (ts : Z)
  | Waiting
  | Ended.

(** The task at the other end of the channel, which [Gone] has left by a panic. *)
Inductive receiver :=
  | Receiving
  | Transmitting (b : batch)
  | Gone.

(** [seen] of the [notified] calls of [notify_one] have woken the worker; the permit that
    [Notify] keeps is their difference. *)
Record t (H C : Type) := mk {
  registry : Udt.t;
  queue : UdtSndQueue.t H;
  socket_refs : list (Z * nat);
  channel : C;
  rx : receiver;
  seen : nat;
  current : phase
}.
Arguments mk {H C} _ _ _ _ _ _ _.
Arguments registry {H C} _.
Arguments queue {H C} _.
Arguments socket_refs {H C} _.
Arguments channel {H C} _.
Arguments rx {H C} _.
Arguments seen {H C} _.
Arguments current {H C} _.

Section worker.
Context {H C : Type} `{BinaryHeap H} `{Mpsc C batch} `{Profile} `{Env} `{FloatLib} `{Os}.
Implicit Types s : t H C.

Definition set_registry (v : Udt.t) s : t H C :=
  mk v (queue s) (socket_refs s) (channel s) (rx s) (seen s) (current s).
Definition set_queue (v : UdtSndQueue.t H) s : t H C :=
  mk (registry s) v (socket_refs s) (channel s) (rx s) (seen s) (current s).
Definition set_socket_refs (v : list (Z * nat)) s : t H C :=
  mk (registry s) (queue s) v (channel s) (rx s) (seen s) (current s).
Definition set_channel (v : C) (r : receiver) s : t H C :=
  mk (registry s) (queue s) (socket_refs s) v r (seen s) (current s).
Definition set_seen (v : nat) s : t H C :=
  mk (registry s) (queue s) (socket_refs s) (channel s) (rx s) v (current s).
Definition set_current (v : phase) s : t H C :=
  mk (registry s) (queue s) (socket_refs s) (channel s) (rx s) (seen s) v.

(** A new queue, whose worker has just been spawned. *)
Definition start (now : Z) (u : Udt.t) : t H C := mk u (UdtSndQueue.new now) [] (mpsc_channel TOKIO_CHANNEL_CAPACITY) Receiving 0 Running.

Local Notation "'WM' A" := (M (t H C) A) (at level 10).

(** An operation of the registry. *)
Definition in_registry {A} (m : UM A) : WM A := λ w,
  let '(o, w') := m (World (registry (sock w)) (ticks w) (trace w)) in
  (o, World (set_registry (sock w') (sock w)) (ticks w') (trace w')).

(** The cache holds weak references. *)
Definition get_socket (id : Z) : WM (option nat) :=
  refs ← gets socket_refs;
  match BTreeMap.get id refs with
  | Some r => in_registry (RcvWorker.upgrade r)
  | None =>
      u ← gets registry;
      match Udt.get_socket id u with
      | Some r => modify (λ s, set_socket_refs (BTreeMap.insert id r (socket_refs s)) s) ;; mret (Some r)
      | None => mret None
      end
  end.

(** The socket whose node was taken: what it sends waits for room in the channel. *)
Definition serve (id : Z) : WM unit :=
  r ← get_socket id;
  match r with
  | Some r =>
      d ← in_registry (on r next_data_packets);
      match d with
      | Some (packets, ts) =>
          modify (λ s, set_queue (UdtSndQueue.insert ts id (queue s)) s) ;;
          modify (set_current (Sending (r, packets)))
      | None => mret ()
      end
  | None => mret ()
  end.

(** One turn of the loop, up to its wait. *)
Definition turn : WM unit :=
  time ← now;
  s ← get;
  let '(next, q) := UdtSndQueue.next_node time (queue s) in
  modify (set_queue q) ;;
  match next with
  | UdtSndQueue.Due n => serve (SendQueueNode.socket_id n)
  | UdtSndQueue.SleepUntil ts => modify (set_current (Sleeping ts))
  | UdtSndQueue.WaitForNotification => modify (set_current Waiting)
  end.

(** [tx.send(..).await.unwrap()] when there is room, or when the receiver is gone. *)
Definition push (b : batch) (s : t H C) : t H C :=
  match rx s with
  | Gone => set_current Ended s
  | r => set_current Running (set_channel (mpsc_send b (channel s)) r s)
  end.

(** The sending task calls [send_data_packets]; at an error it panics, and the batches in
    the channel are dropped with the receiver. *)
Definition transmit (r : nat) (packets : list UdtDataPacket.t) : WM unit := λ w,
  let '(o, w') := in_registry (on r (send_data_packets packets)) w in
  let s := sock w' in
  (o, World (if is_ok o then set_channel (channel s) Receiving s
             else set_channel (mpsc_channel TOKIO_CHANNEL_CAPACITY) Gone s) (ticks w') (trace w')).

(** What the two tasks did in a step; [sent] is whether [send_data_packets] succeeded. *)
Inductive label := Silent | Produced (b : batch) | Transmitted (b : batch) (sent : bool).

(** The batch a turn leaves in hand. *)
Definition produced (s : t H C) : label :=
  match current s with Sending b => Produced b | _ => Silent end.

Inductive step : world (t H C) → label → world (t H C) → Prop :=
  | step_turn w w' : current (sock w) = Running → turn w = (Ok (), w') →
      step w (produced (sock w')) w'
  | step_end w o w' : current (sock w) = Running → turn w = (o, w') → is_ok o = false →
      step w Silent (World (set_current Ended (sock w')) (ticks w') (trace w'))
  | step_push w b : current (sock w) = Sending b →
      (rx (sock w) ≠ Gone → (0 < mpsc_room (channel (sock w)))%nat) →
      step w Silent (World (push b (sock w)) (ticks w) (trace w))
  | step_timer w ts : current (sock w) = Sleeping ts → ts <= clock (ticks w) →
      step w Silent (World (set_current Running (sock w)) (S (ticks w)) (trace w))
  | step_notified w n : (∃ ts, current (sock w) = Sleeping ts) ∨ current (sock w) = Waiting →
      (seen (sock w) < n ≤ UdtSndQueue.notified (queue (sock w)))%nat →
      step w Silent (World (set_current Running (set_seen n (sock w))) (ticks w) (trace w))
  | step_receive w b c : rx (sock w) = Receiving → mpsc_recv (channel (sock w)) = Some (b, c) →
      step w Silent (World (set_channel c (Transmitting b) (sock w)) (ticks w) (trace w))
  | step_transmit w r packets w' o : rx (sock w) = Transmitting (r, packets) →
      transmit r packets w = (o, w') →
      step w (Transmitted (r, packets) (is_ok o)) w'
  (** The other tasks. *)
  | step_update w id reschedule :
      step w Silent (World (set_queue (UdtSndQueue.update id reschedule (queue (sock w))) (sock w))
                       (ticks w) (trace w))
  | step_remove w id :
      step w Silent (World (set_queue (UdtSndQueue.remove id (queue (sock w))) (sock w))
                       (ticks w) (trace w))
  | step_perform w op :
      step w Silent
        (let w' := perform op (World (registry (sock w)) (ticks w) (trace w)) in
         World (set_registry (sock w') (sock w)) (ticks w') (trace w')).

(** Runs, with the labels of their steps. *)
Inductive run : world (t H C) → list label → world (t H C) → Prop :=
  | run_nil w : run w [] w
  | run_snoc w ls w' l w'' : run w ls w' → step w' l w'' → run w (ls ++ [l]) w''.
End worker.
End SndWorker.

(** ** The queue and the notifications *)

Section queue.
Context {H : Type} `{BinaryHeapLaws H}.
Implicit Types q : UdtSndQueue.t H.

(** No node of the second queue is due before the first node of the first one. *)
Definition no_earlier (q q' : UdtSndQueue.t H) : Prop :=
  ∀ n, n ∈ iter (UdtSndQueue.queue q') →
  ∃ m, m ∈ iter (UdtSndQueue.queue q) ∧ SendQueueNode.timestamp m <= SendQueueNode.timestamp n.

(** From one queue to the other, the worker is notified or nothing is due earlier. *)
Definition wakes (q q' : UdtSndQueue.t H) : Prop :=
  (UdtSndQueue.notified q < UdtSndQueue.notified q')%nat
  ∨ UdtSndQueue.notified q' = UdtSndQueue.notified q ∧ no_earlier q q'.

Lemma insert_wakes ts id q : wakes q (UdtSndQueue.insert ts id q).
Proof.
  unfold wakes, UdtSndQueue.insert. cbv zeta. simpl.
  set (new := SendQueueNode.mk ts id).
  destruct (peek (push new (UdtSndQueue.queue q))) as [m|] eqn:Hp; cycle 1.
  { apply peek_None in Hp. pose proof (iter_push new (UdtSndQueue.queue q)) as E. rewrite Hp in E.
    by apply Permutation_nil_cons in E. }
  destruct (Z.eqb_spec (SendQueueNode.socket_id m) id) as [Hid|Hid]; [left; lia|right].
  split; [done|]. intros n Hn. destruct (peek_least _ _ Hp) as [Hin Hleast].
  simpl in Hn. rewrite iter_push in Hin, Hn. exists m. split.
  - apply elem_of_cons in Hin as [->|Hin]; [done|exact Hin].
  - apply Hleast. by rewrite iter_push.
Qed.

Lemma remove_keeps id q n : n ∈ iter (UdtSndQueue.queue (UdtSndQueue.remove id q)) →
  n ∈ iter (UdtSndQueue.queue q).
Proof. simpl. rewrite iter_collect. by intros [_ ?]%list_elem_of_filter. Qed.

Lemma remove_wakes id q : wakes q (UdtSndQueue.remove id q).
Proof. right. split; [done|]. intros n Hn%remove_keeps. by exists n. Qed.

Lemma update_wakes id reschedule q : wakes q (UdtSndQueue.update id reschedule q).
Proof.
  unfold UdtSndQueue.update.
  destruct (_ && _); [left; simpl; lia|]. destruct (negb _); [apply insert_wakes|].
  destruct reschedule; [|right; split; [done|]; intros n Hn; by exists n].
  destruct (insert_wakes (UdtSndQueue.start_time q) id (UdtSndQueue.remove id q)) as [Hlt|[E Hn]];
    [by left|right].
  split; [done|]. intros n (m & Hm%remove_keeps & ?)%Hn. by exists m.
Qed.
End queue.

(** ** Properties of the tasks *)

Section tasks.
Context {H C : Type} `{BinaryHeapLaws H} `{Mpsc C SndWorker.batch} `{Profile} `{Env} `{FloatLib} `{Os}.
Implicit Types s : SndWorker.t H C.
Implicit Types w : world (SndWorker.t H C).

Lemma in_registry_sock {A} (m : UM A) w :
  ∃ u, sock (SndWorker.in_registry m w).2 = SndWorker.set_registry u (sock w).
Proof. unfold SndWorker.in_registry. destruct (m _) as [o w']. by eexists. Qed.

(** Looking up a socket changes nothing but the cache. *)
Lemma get_socket_sock id w :
  ∃ u refs, sock (SndWorker.get_socket id w).2
    = SndWorker.set_socket_refs refs (SndWorker.set_registry u (sock w)).
Proof.
  unfold SndWorker.get_socket. run.
  destruct (BTreeMap.get id _) as [r|]; run.
  - destruct (in_registry_sock (RcvWorker.upgrade r) w) as (u & ->). by eexists u, (SndWorker.socket_refs (sock w)).
  - destruct (Udt.get_socket id _); run; eexists (SndWorker.registry (sock w)), _; [done|].
    by instantiate (1 := SndWorker.socket_refs (sock w)); destruct (sock w).
Qed.

(** The schedule and what the worker does next, seen from the outside. *)
Definition same_schedule s s' : Prop :=
  SndWorker.queue s' = SndWorker.queue s ∧ SndWorker.channel s' = SndWorker.channel s
  ∧ SndWorker.rx s' = SndWorker.rx s ∧ SndWorker.seen s' = SndWorker.seen s
  ∧ SndWorker.current s' = SndWorker.current s.

(** The socket that the worker finds for an identifier, and what [next_data_packets]
    returns on it. *)
Definition answer (id : Z) w : option (nat * outcome (option (list UdtDataPacket.t * Z))) :=
  match SndWorker.get_socket id w with
  | (Ok (Some r), w1) => Some (r, (SndWorker.in_registry (on r next_data_packets) w1).1)
  | _ => None
  end.

(** What [serve] leaves: no packets and the schedule as it was, or packets in hand and
    one node more. *)
Lemma serve_schedule id w :
  let '(o, w') := SndWorker.serve id w in
  same_schedule (sock w) (sock w') ∧ (o = Ok () → answer id w = None ∨ ∃ r, answer id w = Some (r, Ok None))
  ∨ ∃ r packets ts, o = Ok () ∧ answer id w = Some (r, Ok (Some (packets, ts)))
    ∧ same_schedule (SndWorker.set_current (SndWorker.Sending (r, packets))
        (SndWorker.set_queue (UdtSndQueue.insert ts id (SndWorker.queue (sock w))) (sock w))) (sock w').
Proof.
  unfold SndWorker.serve, answer. run.
  destruct (get_socket_sock id w) as (u & refs & E). destruct (SndWorker.get_socket id w) as [[r|e|] w1];
    simpl in E; run; [|by left; rewrite E..].
  destruct r as [r|]; run; [|by left; rewrite E; split; [|left]].
  destruct (in_registry_sock (on r next_data_packets) w1) as (u' & E').
  destruct (SndWorker.in_registry _ w1) as [[d|e|] w2]; simpl in E'; run; [|by left; rewrite E', E..].
  destruct d as [[packets ts]|]; run; [right|left; rewrite E', E; split; [done|right; by exists r]].
  exists r, packets, ts. split_and!; [done..|]. by rewrite E', E.
Qed.

(** Where a turn looks up the socket of the node it has taken. *)
Definition taken w : world (SndWorker.t H C) :=
  World (SndWorker.set_queue (UdtSndQueue.next_node (clock (ticks w)) (SndWorker.queue (sock w))).2 (sock w))
    (S (ticks w)) (trace w).

(** One turn, against the queue it finds. *)
Lemma turn_schedule w :
  let '(o, w') := SndWorker.turn w in
  let q := SndWorker.queue (sock w) in
  SndWorker.channel (sock w') = SndWorker.channel (sock w)
  ∧ SndWorker.rx (sock w') = SndWorker.rx (sock w)
  ∧ SndWorker.seen (sock w') = SndWorker.seen (sock w)
  ∧ match UdtSndQueue.next_node (clock (ticks w)) q with
    | (UdtSndQueue.Due n, q1) =>
        let id := SendQueueNode.socket_id n in
        SndWorker.current (sock w') = SndWorker.current (sock w) ∧ SndWorker.queue (sock w') = q1
        ∧ (o = Ok () → answer id (taken w) = None ∨ ∃ r, answer id (taken w) = Some (r, Ok None))
        ∨ ∃ r packets ts, o = Ok () ∧ answer id (taken w) = Some (r, Ok (Some (packets, ts)))
          ∧ SndWorker.current (sock w') = SndWorker.Sending (r, packets)
          ∧ SndWorker.queue (sock w') = UdtSndQueue.insert ts id q1
    | (UdtSndQueue.SleepUntil ts, q1) =>
        SndWorker.current (sock w') = SndWorker.Sleeping ts ∧ SndWorker.queue (sock w') = q1
    | (UdtSndQueue.WaitForNotification, q1) =>
        SndWorker.current (sock w') = SndWorker.Waiting ∧ SndWorker.queue (sock w') = q1
    end.
Proof.
  unfold SndWorker.turn, taken. run. destruct (UdtSndQueue.next_node _ _) as [[n|ts|] q1] eqn:E; run; [|done..].
  match goal with |- context [SndWorker.serve ?id ?w1] => pose proof (serve_schedule id w1) as Hs;
    destruct (SndWorker.serve id w1) as [o w'] end.
  destruct Hs as [[(Eq & Ec & Er & Es & Ep) Hn]|(r & packets & ts & -> & Ha & Eq & Ec & Er & Es & Ep)]; simpl in *.
  - split_and!; [done..|]. by left.
  - split_and!; [done..|]. right. by exists r, packets, ts.
Qed.

(** The worker waits for what will happen: a permit is there, or nothing is due before
    the time it sleeps until. *)
Definition wakeful s : Prop :=
  (SndWorker.seen s ≤ UdtSndQueue.notified (SndWorker.queue s))%nat
  ∧ (SndWorker.seen s = UdtSndQueue.notified (SndWorker.queue s) →
     match SndWorker.current s with
     | SndWorker.Sleeping ts =>
         ∀ n, n ∈ iter (UdtSndQueue.queue (SndWorker.queue s)) → ts <= SendQueueNode.timestamp n
     | SndWorker.Waiting => iter (UdtSndQueue.queue (SndWorker.queue s)) = []
     | _ => True
     end).

Lemma wakeful_queue s q : wakes (SndWorker.queue s) q → wakeful s → wakeful (SndWorker.set_queue q s).
Proof.
  intros Hq [Hle Hw]. split; simpl; [destruct Hq as [|[-> _]]; lia|].
  intros E. destruct Hq as [|[E' Hn]]; [lia|]. rewrite E' in E. specialize (Hw E).
  destruct (SndWorker.current s); try done.
  - intros n (m & Hm & ?)%Hn. specialize (Hw m Hm). lia.
  - apply elem_of_nil_inv. intros n (m & Hm & _)%Hn. rewrite Hw in Hm. by apply not_elem_of_nil in Hm.
Qed.

Lemma next_node_notified time q :
  UdtSndQueue.notified (UdtSndQueue.next_node time q).2 = UdtSndQueue.notified q.
Proof.
  unfold UdtSndQueue.next_node. destruct (peek _); [|done]. destruct (_ <=? _); [|done]. by destruct (pop _) as [[??]|].
Qed.

Lemma next_node_waits time q :
  match (UdtSndQueue.next_node time q).1 with
  | UdtSndQueue.SleepUntil ts => (UdtSndQueue.next_node time q).2 = q
      ∧ ∀ n, n ∈ iter (UdtSndQueue.queue q) → ts <= SendQueueNode.timestamp n
  | UdtSndQueue.WaitForNotification => (UdtSndQueue.next_node time q).2 = q ∧ iter (UdtSndQueue.queue q) = []
  | UdtSndQueue.Due _ => True
  end.
Proof.
  unfold UdtSndQueue.next_node. destruct (peek _) as [n|] eqn:Hp; [|by apply peek_None in Hp].
  destruct (_ <=? _).
  - destruct (pop_peek _ _ Hp) as (h & -> & _). done.
  - destruct (peek_least _ _ Hp). done.
Qed.
End tasks.

Section properties.
Context {H C : Type} `{BinaryHeapLaws H} `{Mpsc C SndWorker.batch} `{Profile} `{Env} `{FloatLib} `{Os}.
Implicit Types s : SndWorker.t H C.
Implicit Types w : world (SndWorker.t H C).

Lemma turn_wakeful w : SndWorker.current (sock w) = SndWorker.Running →
  wakeful (sock w) → wakeful (sock (SndWorker.turn w).2).
Proof.
  intros Hrun [Hle _]. pose proof (turn_schedule w) as Ht. destruct (SndWorker.turn w) as [o w'].
  destruct Ht as (_ & _ & Es & Ht). unfold wakeful. cbn [snd]. rewrite Es.
  pose proof (next_node_notified (clock (ticks w)) (SndWorker.queue (sock w))) as En.
  pose proof (next_node_waits (clock (ticks w)) (SndWorker.queue (sock w))) as Hw.
  destruct (UdtSndQueue.next_node _ _) as [[n|ts|] q1]; simpl in En, Hw.
  - destruct Ht as [(-> & -> & _)|(r & packets & ts & -> & _ & -> & ->)].
    + rewrite En, Hrun. done.
    + split; [|done]. pose proof (insert_wakes ts (SendQueueNode.socket_id n) q1) as [|[]]; lia.
  - destruct Ht as [-> ->], Hw as [-> Hw]. done.
  - destruct Ht as [-> ->], Hw as [-> Hw]. done.
Qed.

Lemma step_wakeful w l w' : SndWorker.step w l w' → wakeful (sock w) → wakeful (sock w').
Proof.
  intros Hs Hw. destruct Hs as [w w' Hc Ht|w o w' Hc Ht _|w b Hc _|w ts Hc _|w n Hc Hn
    |w b c _ _|w r packets w' o _ Ht|w id b|w id|w op].
  - pose proof (turn_wakeful w Hc Hw) as Hw'. by rewrite Ht in Hw'.
  - pose proof (turn_wakeful w Hc Hw) as [? _]. rewrite Ht in *. by split.
  - unfold SndWorker.push. simpl. destruct (SndWorker.rx _); destruct Hw; by split.
  - destruct Hw. by split.
  - split; simpl; [lia|done].
  - destruct Hw. by split.
  - unfold SndWorker.transmit in Ht.
    destruct (in_registry_sock (on r (send_data_packets packets)) w) as (u & E).
    destruct (SndWorker.in_registry _ w) as [o' w1]. injection Ht as <- <-. simpl in *. rewrite E. by destruct (is_ok o').
  - apply wakeful_queue; [apply update_wakes|done].
  - apply wakeful_queue; [apply remove_wakes|done].
  - done.
Qed.

(** C19. No wake-up is lost.  Whatever the other tasks do to the schedule between the
    steps of the worker, a worker that sleeps without a permit sleeps until a time before
    which no socket is due, and one that waits for a notification without a permit has
    nothing scheduled. *)
Theorem no_lost_wakeup now u n tr ls w :
  SndWorker.run (World (SndWorker.start now u) n tr) ls w →
  SndWorker.seen (sock w) = UdtSndQueue.notified (SndWorker.queue (sock w)) →
  match SndWorker.current (sock w) with
  | SndWorker.Sleeping ts =>
      ∀ m, m ∈ iter (UdtSndQueue.queue (SndWorker.queue (sock w))) → ts <= SendQueueNode.timestamp m
  | SndWorker.Waiting => iter (UdtSndQueue.queue (SndWorker.queue (sock w))) = []
  | _ => True
  end.
Proof.
  intros Hrun. assert (wakeful (sock w)) as [_ Hw]; [|done].
  remember (World (SndWorker.start now u) n tr) as w0 eqn:E. induction Hrun as [|? ? ? ? ? ? IH Hstep].
  - subst. by split.
  - eauto using step_wakeful.
Qed.

(** C21. A turn serves a socket only when its time has come and no socket is due earlier,
    and takes that socket's node alone.  When [next_data_packets] on that socket returns
    packets and a time, the packets are in hand and one node is put back, at that time; when
    the socket is not found or has nothing to send, no node is put back.  When nothing is
    due the schedule stays as it is, and the turn sleeps until the time of the first node. *)
Theorem turn_serves w w' :
  SndWorker.turn w = (Ok (), w') → SndWorker.current (sock w) = SndWorker.Running →
  let nodes s := iter (UdtSndQueue.queue (SndWorker.queue s)) in
  let first n := n ∈ nodes (sock w)
    ∧ ∀ m, m ∈ nodes (sock w) → SendQueueNode.timestamp n <= SendQueueNode.timestamp m in
  let due n := first n ∧ SendQueueNode.timestamp n <= clock (ticks w) in
  match SndWorker.current (sock w') with
  | SndWorker.Running => ∃ n, due n ∧ nodes (sock w) ≡ₚ n :: nodes (sock w')
      ∧ (answer (SendQueueNode.socket_id n) (taken w) = None
         ∨ ∃ r, answer (SendQueueNode.socket_id n) (taken w) = Some (r, Ok None))
  | SndWorker.Sending (r, packets) => ∃ n ts rest, due n ∧ nodes (sock w) ≡ₚ n :: rest
      ∧ nodes (sock w') ≡ₚ SendQueueNode.mk ts (SendQueueNode.socket_id n) :: rest
      ∧ answer (SendQueueNode.socket_id n) (taken w) = Some (r, Ok (Some (packets, ts)))
  | SndWorker.Sleeping ts => nodes (sock w') = nodes (sock w) ∧ clock (ticks w) < ts
      ∧ ∃ n, first n ∧ ts = SendQueueNode.timestamp n
  | SndWorker.Waiting => nodes (sock w') = [] ∧ nodes (sock w) = []
  | SndWorker.Ended => False
  end.
Proof.
  intros Ht Hrun nodes first due. pose proof (turn_schedule w) as Hs. rewrite Ht in Hs.
  destruct Hs as (_ & _ & _ & Hs). subst nodes due first. clear Ht. cbv beta.
  unfold UdtSndQueue.next_node in Hs.
  destruct (peek (UdtSndQueue.queue (SndWorker.queue (sock w)))) as [n|] eqn:Hp; cycle 1.
  { destruct Hs as [-> ->]. apply peek_None in Hp. done. }
  destruct (peek_least _ _ Hp) as [Hin Hleast].
  destruct (Z.leb_spec (SendQueueNode.timestamp n) (clock (ticks w))); cycle 1.
  { destruct Hs as [-> ->]. split_and!; [done..|]. by exists n. }
  destruct (pop_peek _ _ Hp) as (h & Hpop & Hperm). rewrite Hpop in Hs. simpl in Hs.
  destruct Hs as [(Ec & Eq & Ha)|(r & packets & ts & _ & Ha & Ec & Eq)]; rewrite Ec, Eq.
  - rewrite Hrun. exists n. split_and!; [done..|]. by apply Ha.
  - exists n, ts, (iter h). split_and!; [done..| |done]. by rewrite iter_insert.
Qed.
End properties.

(** ** The batches *)

Section batches.
Context {H C : Type} `{BinaryHeap H} `{MpscLaws C SndWorker.batch} `{Profile} `{Env} `{FloatLib} `{Os}.
Implicit Types s : SndWorker.t H C.
Implicit Types w : world (SndWorker.t H C).

(** What a list of labels says. *)
Definition produced_batches (ls : list SndWorker.label) : list SndWorker.batch :=
  omap (λ l, match l with SndWorker.Produced b => Some b | _ => None end) ls.
Definition transmissions (ls : list SndWorker.label) : list (SndWorker.batch * bool) :=
  omap (λ l, match l with SndWorker.Transmitted b sent => Some (b, sent) | _ => None end) ls.

Definition in_hand s : list SndWorker.batch :=
  match SndWorker.current s with SndWorker.Sending b => [b] | _ => [] end.

(** What is between the sockets and the network: in the task that sends, in the channel, in
    the hand of the worker. *)
Definition pending s : list SndWorker.batch :=
  match SndWorker.rx s with SndWorker.Transmitting b => [b] | _ => [] end
  ++ queued (SndWorker.channel s) ++ in_hand s.

(** The sending task is alive, everything before the pending batches having been sent; or a
    failure has ended it and the batches after that one are lost, up to the one in hand. *)
Definition accounted (ls : list SndWorker.label) s : Prop :=
  let all_sent := map (λ b, (b, true)) in
  match SndWorker.rx s with
  | SndWorker.Gone => ∃ sent b lost, transmissions ls = all_sent sent ++ [(b, false)]
    ∧ produced_batches ls = sent ++ b :: lost ++ in_hand s
    ∧ (length lost ≤ match SndWorker.current s with SndWorker.Ended => 1 | _ => 0 end
                     + TOKIO_CHANNEL_CAPACITY)%nat
  | _ => (length (queued (SndWorker.channel s)) + mpsc_room (SndWorker.channel s) = TOKIO_CHANNEL_CAPACITY)%nat
    ∧ ∃ sent, transmissions ls = all_sent sent ∧ produced_batches ls = sent ++ pending s
  end.

Lemma labels_snoc ls l :
  produced_batches (ls ++ [l]) = produced_batches ls ++ produced_batches [l]
  ∧ transmissions (ls ++ [l]) = transmissions ls ++ transmissions [l].
Proof. unfold produced_batches, transmissions. by rewrite !omap_app. Qed.

(** The worker goes on, with a batch more or as it was. *)
Lemma accounted_worker ls l s s' :
  SndWorker.rx s' = SndWorker.rx s → SndWorker.channel s' = SndWorker.channel s →
  in_hand s' = in_hand s ++ produced_batches [l] → transmissions [l] = [] →
  (SndWorker.current s = SndWorker.Ended → SndWorker.current s' = SndWorker.Ended) →
  accounted ls s → accounted (ls ++ [l]) s'.
Proof.
  unfold accounted, pending. destruct (labels_snoc ls l) as [-> ->]. intros -> -> -> -> Hended.
  rewrite app_nil_r. destruct (SndWorker.rx s).
  1,2: intros (Hroom & sent & -> & ->); split; [done|]; exists sent; by rewrite <- ?app_assoc.
  intros (sent & b & lost & -> & -> & Hlen). exists sent, b, lost. split_and!; [done| |].
  - by rewrite <- !app_assoc, <- !app_comm_cons, <- !app_assoc.
  - destruct (SndWorker.current s); [..|by rewrite (Hended eq_refl)]; destruct (SndWorker.current s'); lia.
Qed.

Lemma accounted_push ls b s : SndWorker.current s = SndWorker.Sending b →
  (SndWorker.rx s ≠ SndWorker.Gone → (0 < mpsc_room (SndWorker.channel s))%nat) →
  accounted ls s → accounted (ls ++ [SndWorker.Silent]) (SndWorker.push b s).
Proof.
  intros Hc Hroom. unfold accounted, pending, in_hand, SndWorker.push.
  destruct (labels_snoc ls SndWorker.Silent) as [-> ->]. rewrite Hc, !app_nil_r.
  destruct (SndWorker.rx s) eqn:Er; simpl; rewrite ?Er.
  1,2: intros (Hcap & sent & -> & ->); specialize (Hroom ltac:(done)); rewrite queued_send, length_app;
    split; [pose proof (room_send b _ Hroom); simpl; lia|]; exists sent; by rewrite app_nil_r.
  intros (sent & b' & lost & -> & -> & Hlen). exists sent, b', (lost ++ [b]). rewrite app_nil_r.
  split_and!; [done..|]. rewrite length_app. simpl. lia.
Qed.

Lemma accounted_receive ls b c s : SndWorker.rx s = SndWorker.Receiving →
  mpsc_recv (SndWorker.channel s) = Some (b, c) →
  accounted ls s → accounted (ls ++ [SndWorker.Silent]) (SndWorker.set_channel c (SndWorker.Transmitting b) s).
Proof.
  intros Er [Hq Hr]%recv_Some. unfold accounted, pending, in_hand. simpl. rewrite Er, Hq, Hr.
  destruct (labels_snoc ls SndWorker.Silent) as [-> ->]. rewrite !app_nil_r.
  intros (Hcap & Hsent). split; [simpl in Hcap; lia|done].
Qed.

Lemma accounted_transmit ls r packets o w w' :
  SndWorker.rx (sock w) = SndWorker.Transmitting (r, packets) →
  SndWorker.transmit r packets w = (o, w') →
  accounted ls (sock w) → accounted (ls ++ [SndWorker.Transmitted (r, packets) (is_ok o)]) (sock w').
Proof.
  intros Er Ht. unfold SndWorker.transmit in Ht.
  destruct (in_registry_sock (on r (send_data_packets packets)) w) as (u & E).
  destruct (SndWorker.in_registry _ w) as [o' w1]. injection Ht as <- <-. simpl in E. rewrite E.
  unfold accounted, pending, in_hand. rewrite Er.
  destruct (labels_snoc ls (SndWorker.Transmitted (r, packets) (is_ok o'))) as [-> ->].
  intros (Hcap & sent & -> & ->). destruct (is_ok o'); simpl.
  - split; [done|]. exists (sent ++ [(r, packets)]). rewrite map_app, app_nil_r, <- app_assoc. done.
  - exists sent, (r, packets), (queued (SndWorker.channel (sock w))). rewrite app_nil_r.
    split_and!; [done..|]. destruct (SndWorker.current (sock w)); lia.
Qed.

Lemma step_accounted w l w' ls : SndWorker.step w l w' →
  accounted ls (sock w) → accounted (ls ++ [l]) (sock w').
Proof.
  intros Hs. destruct Hs as [w w' Hc Ht|w o w' Hc Ht _|w b Hc Hroom|w ts Hc _|w n Hc Hn
    |w b c Hr Hrecv|w r packets w' o Hr Ht|w id b|w id|w op].
  - pose proof (turn_schedule w) as Hs. rewrite Ht in Hs. destruct Hs as (Ec & Er & _).
    apply accounted_worker; [done..| | |by rewrite Hc]; unfold in_hand, SndWorker.produced; rewrite ?Hc;
      by destruct (SndWorker.current (sock w')).
  - pose proof (turn_schedule w) as Hs. rewrite Ht in Hs. destruct Hs as (Ec & Er & _).
    apply accounted_worker; [done..| |done|done]. unfold in_hand. simpl. by rewrite Hc.
  - by apply accounted_push.
  - apply accounted_worker; [done..| |done|]; unfold in_hand; simpl; by rewrite Hc.
  - apply accounted_worker; [done..| |done|]; unfold in_hand; simpl; by destruct Hc as [[? ->]| ->].
  - by apply accounted_receive.
  - by eapply accounted_transmit.
  - apply accounted_worker; [done..| |done|done]. by rewrite app_nil_r.
  - apply accounted_worker; [done..| |done|done]. by rewrite app_nil_r.
  - apply accounted_worker; [done..| |done|done]. by rewrite app_nil_r.
Qed.

(** C20. Batches are neither repeated nor reordered between the sockets and the sending
    task, nor lost while that task is alive: what [next_data_packets] has produced is what
    [send_data_packets] has sent, then what the task and the channel hold, never more than
    its capacity, then the one in the hand of the worker.  The first batch that fails to be
    sent ends the task: that batch, those in the channel then and the next one, at which the
    worker ends too, are never sent. *)
Theorem batches_in_order now u n tr ls w :
  SndWorker.run (World (SndWorker.start now u) n tr) ls w →
  let all_sent := map (λ b, (b, true)) in
  match SndWorker.rx (sock w) with
  | SndWorker.Gone => ∃ sent b lost, transmissions ls = all_sent sent ++ [(b, false)]
    ∧ produced_batches ls = sent ++ b :: lost ++ in_hand (sock w)
    ∧ (length lost ≤ match SndWorker.current (sock w) with SndWorker.Ended => 1 | _ => 0 end
                     + TOKIO_CHANNEL_CAPACITY)%nat
  | _ => (length (queued (SndWorker.channel (sock w))) ≤ TOKIO_CHANNEL_CAPACITY)%nat
    ∧ ∃ sent, transmissions ls = all_sent sent ∧ produced_batches ls = sent ++ pending (sock w)
  end.
Proof.
  intros Hrun all_sent. subst all_sent. assert (accounted ls (sock w)) as Ha.
  - remember (World (SndWorker.start now u) n tr) as w0 eqn:E.
    induction Hrun as [w|w ls w' l w'' _ IH Hstep]; subst; [|eauto using step_accounted].
    unfold accounted, pending. simpl. rewrite queued_channel, room_channel. split; [done|]. by exists [].
  - unfold accounted in Ha. destruct (SndWorker.rx (sock w)); [..|exact Ha];
      destruct Ha as [Hcap Hsent]; (split; [lia|exact Hsent]).
Qed.
End batches.

(** ** Witnesses

    A multiplexer whose socket has one packet to send, over a UDP socket that has failed. *)

Definition failed_env : Env := {|
  clock n := Z.of_nat n * 1000; send_result _ := None; writable_result _ := Some Other;
  random _ := 1; cookie_hash _ _ t := t
|}.
Local Notation sample_state := (SndWorker.t (list node) (nat * list SndWorker.batch)).

Definition sample_mux : UdtMultiplexer.t :=
  UdtMultiplexer.create 1 9000 UdtConfiguration.default.
Definition sample_registry : Udt.t := Udt.mk [sample_sender 16 []] [(1, 0%nat)] [(1, sample_mux)] 77 ∅.
Definition sample_os : Os := {| udp_port _ _ := Ok 9000; random_isn _ := 100; held _ _ := false |}.

Local Notation turn := (@SndWorker.turn (list node) (nat * list SndWorker.batch) _ true failed_env sample_os).
Local Notation run := (@SndWorker.run (list node) (nat * list SndWorker.batch) _ _ true failed_env sample_float sample_os).

(** The worker before and after its first turn, then after an update and a notification. *)
Definition worker_start (now : Z) : world sample_state :=
  World (SndWorker.start now sample_registry) 10 [].
Definition worker_waiting (now : Z) : world sample_state :=
  World (SndWorker.set_current SndWorker.Waiting (SndWorker.start now sample_registry)) 11 [].
Definition worker_updated (now : Z) : world sample_state :=
  World (SndWorker.set_queue (UdtSndQueue.update 1 false (UdtSndQueue.new now)) (sock (worker_waiting now))) 11 [].
Definition worker_scheduled (now : Z) : world sample_state :=
  World (SndWorker.set_current SndWorker.Running (SndWorker.set_seen 1 (sock (worker_updated now)))) 11 [].

Lemma worker_scheduled_run now :
  run (worker_start now) [SndWorker.Silent; SndWorker.Silent; SndWorker.Silent] (worker_scheduled now).
Proof.
  apply (SndWorker.run_snoc _ [SndWorker.Silent; SndWorker.Silent] (worker_updated now)).
  - apply (SndWorker.run_snoc _ [SndWorker.Silent] (worker_waiting now)).
    + apply (SndWorker.run_snoc _ [] (worker_start now)); [constructor|].
      by apply (SndWorker.step_turn (worker_start now) (worker_waiting now)).
    + apply (SndWorker.step_update (worker_waiting now) 1 false).
  - apply (SndWorker.step_notified (worker_updated now) 1); [by right|].
    simpl. lia.
Qed.

(** A turn after [worker_scheduled now], given the state it leads to. *)
Lemma worker_turn_run now w' : turn (worker_scheduled now) = (Ok (), w') →
  run (worker_start now) [SndWorker.Silent; SndWorker.Silent; SndWorker.Silent; SndWorker.produced (sock w')] w'.
Proof.
  intros Ht. apply (SndWorker.run_snoc _ [SndWorker.Silent; SndWorker.Silent; SndWorker.Silent] (worker_scheduled now)).
  - apply worker_scheduled_run.
  - by apply SndWorker.step_turn.
Qed.

Definition sleeping_worker : world sample_state :=
  Eval vm_compute in (turn (worker_scheduled 50000)).2.
Definition busy_worker : world sample_state :=
  Eval vm_compute in (turn (worker_scheduled 0)).2.

Lemma no_lost_wakeup_witness :
  SndWorker.current (sock sleeping_worker) = SndWorker.Sleeping 50000
  ∧ ∀ m, m ∈ iter (UdtSndQueue.queue (SndWorker.queue (sock sleeping_worker))) →
         50000 <= SendQueueNode.timestamp m.
Proof.
  split; [done|].
  eapply (@no_lost_wakeup (list node) _ _ _ _ true failed_env sample_float sample_os 50000 sample_registry 10 []
    _ sleeping_worker); [|done].
  by apply (worker_turn_run 50000); vm_compute.
Defined.

(** The batch goes through the channel, and fails to be sent. *)
Definition pushed_worker : world sample_state :=
  Eval vm_compute in
    match SndWorker.current (sock busy_worker) with
    | SndWorker.Sending b => World (SndWorker.push b (sock busy_worker)) (ticks busy_worker) (trace busy_worker)
    | _ => busy_worker
    end.
Definition receiving_worker : world sample_state :=
  Eval vm_compute in
    match mpsc_recv (SndWorker.channel (sock pushed_worker)) with
    | Some (b, c) => World (SndWorker.set_channel c (SndWorker.Transmitting b) (sock pushed_worker))
                       (ticks pushed_worker) (trace pushed_worker)
    | None => pushed_worker
    end.
Definition failed_worker : world sample_state :=
  Eval vm_compute in
    match SndWorker.rx (sock receiving_worker) with
    | SndWorker.Transmitting (r, packets) => (@SndWorker.transmit _ _ _ true failed_env r packets receiving_worker).2
    | _ => receiving_worker
    end.

Lemma failed_worker_run : ∃ ls b, run (worker_start 0) ls failed_worker
  ∧ produced_batches ls = [b] ∧ transmissions ls = [(b, false)].
Proof.
  destruct (SndWorker.current (sock busy_worker)) as [|[r packets]|ts| |] eqn:E;
    [by vm_compute in E| |by vm_compute in E..].
  pose proof (worker_turn_run 0 busy_worker ltac:(by vm_compute)) as Hrun.
  unfold SndWorker.produced in Hrun. rewrite E in Hrun. pose proof E as Eb. vm_compute in Eb.
  injection Eb as Er Ep.
  eexists _, (r, packets). split; [|split].
  - eapply SndWorker.run_snoc; [eapply SndWorker.run_snoc; [eapply SndWorker.run_snoc; [exact Hrun|]|]|].
    + apply (SndWorker.step_push busy_worker (r, packets)); [exact E|]. intros _. vm_compute. lia.
    + apply (SndWorker.step_receive _ (r, packets) (50%nat, [])); subst r packets; vm_compute; reflexivity.
    + apply (SndWorker.step_transmit _ r packets failed_worker (Err Other)); subst r packets; vm_compute; reflexivity.
  - done.
  - done.
Qed.

Lemma batches_in_order_witness : ∃ ls b lost,
  transmissions ls = [(b, false)] ∧ produced_batches ls = b :: lost ++ in_hand (sock failed_worker)
  ∧ (length lost ≤ TOKIO_CHANNEL_CAPACITY)%nat.
Proof.
  destruct failed_worker_run as (ls & b0 & Hrun & Hp & Ht). exists ls.
  destruct (@batches_in_order (list node) _ _ _ _ true failed_env sample_float sample_os 0 sample_registry 10 []
    ls failed_worker Hrun) as (sent & b & lost & Ht' & Hp' & Hlen). exists b, lost.
  assert (sent = []) as ->.
  { rewrite Ht in Ht'. destruct sent as [|? sent]; [done|]. by destruct sent. }
  done.
Defined.

Local Notation nodes w := (iter (UdtSndQueue.queue (SndWorker.queue (sock w)))).

Lemma turn_serves_witness :
  (∃ r packets n ts rest, SndWorker.current (sock busy_worker) = SndWorker.Sending (r, packets)
    ∧ nodes (worker_scheduled 0) ≡ₚ n :: rest
    ∧ nodes busy_worker ≡ₚ SendQueueNode.mk ts (SendQueueNode.socket_id n) :: rest
    ∧ @answer _ _ true failed_env sample_os (SendQueueNode.socket_id n)
        (@taken _ _ _ failed_env (worker_scheduled 0)) = Some (r, Ok (Some (packets, ts))))
  ∧ SndWorker.current (sock sleeping_worker) = SndWorker.Sleeping 50000
  ∧ ∃ n, n ∈ nodes (worker_scheduled 50000) ∧ 50000 = SendQueueNode.timestamp n.
Proof.
  assert (turn (worker_scheduled 0) = (Ok (), busy_worker)) as E by (vm_compute; reflexivity).
  assert (turn (worker_scheduled 50000) = (Ok (), sleeping_worker)) as E' by (vm_compute; reflexivity).
  pose proof (@turn_serves (list node) _ _ _ true failed_env sample_os _ _ E eq_refl) as Hs.
  pose proof (@turn_serves (list node) _ _ _ true failed_env sample_os _ _ E' eq_refl) as (_ & _ & n' & Hn' & Hts').
  split; [|split; [done|]].
  - destruct (SndWorker.current (sock busy_worker)) as [|[r packets]|ts| |] eqn:Ec;
      [by vm_compute in Ec| |by vm_compute in Ec..].
    destruct Hs as (n & ts & rest & _ & Hn & Hn2 & Ha). exists r, packets, n, ts, rest.
    exact (conj eq_refl (conj Hn (conj Hn2 Ha))).
  - exists n'. split; [apply Hn'|done].
Defined.
