(* ===== verification/udp.v ===== *)
(** * The UDP socket of a multiplexer ([src/multiplexer.rs], [src/queue/rcv_queue.rs])

    How a multiplexer creates its UDP socket, and how packets become datagrams and
    datagrams become packets: a batch is sent by one system call, or by a loop where there
    is none, and received into the slots of one buffer.  The answers of the operating
    system are the class [Udp]. *)

From S2P Require Import prelude seq_number bytes data_packet control_packet packet.
From S2P Require Import configuration world rcv_queue rcv_worker udt.

(** ** System calls *)

Inductive syscall :=
  | NewSocket (ipv6 : bool)
  | SetRecvBufferSize (n : Z)
  | SetSendBufferSize (n : Z)
  | SetReusePort (b : bool)
  | SetNonblocking (b : bool)
  | BindSocket (addr : SocketAddr)
  | FromStd
  | LocalAddr
  | Writable
  | Datagram (raw : list Z) (addr : SocketAddr)
  | Datagrams (raws : list (list Z)) (addr : SocketAddr).

(** [answer past c] is the result of the call [c] after the calls [past]; [recvmmsg] gives
    at most [n] messages of at most [size] bytes, [try_recv_from] one. *)
Class Udp := {
  answer : list syscall → syscall → outcome Z;
  recvmmsg : nat → nat → outcome (list (list Z * SocketAddr));
  try_recv_from : nat → nat → outcome (list Z * SocketAddr)
}.

(** A call is recorded before its result is known. *)
Definition call `{Udp} (c : syscall) : M (list syscall) Z := λ w,
  (answer (sock w) c, World (sock w ++ [c]) (ticks w) (trace w)).

(** [unwrap_or(0)]: an error counts as nothing. *)
Definition or_zero {St} (m : M St Z) : M St Z := λ w,
  match m w with
  | (Err _, w') => (Ok 0, w')
  | r => r
  end.

Definition is_ipv6 (addr : SocketAddr) : bool :=
  match ip addr with V6 _ => true | V4 _ => false end.

(** [(Ipv4Addr::UNSPECIFIED, 0)]. *)
Definition UNSPECIFIED : SocketAddr := {| ip := V4 [0; 0; 0; 0]; port := 0 |}.

Module Channel.
Section channel.
Context `{Udp}.

(** ** Creation *)

Definition new_udp_socket (config : UdtConfiguration.t) (bind_addr : option SocketAddr) : M (list syscall) unit :=
  let addr := match bind_addr with Some addr => addr | None => UNSPECIFIED end in
  call (NewSocket (is_ipv6 addr)) ;;
  call (SetRecvBufferSize (UdtConfiguration.udp_rcv_buf_size config)) ;;
  call (SetSendBufferSize (UdtConfiguration.udp_snd_buf_size config)) ;;
  call (SetReusePort (UdtConfiguration.udp_reuse_port config)) ;;
  call (SetNonblocking true) ;;
  call (BindSocket addr) ;;
  call FromStd ;;
  mret ().

(** [UdtMultiplexer::new] and [bind]: the port is the one the system has chosen. *)
Definition new_mux (id : Z) (config : UdtConfiguration.t) : M (list syscall) UdtMultiplexer.t :=
  new_udp_socket config None ;;
  port ← call LocalAddr;
  mret (UdtMultiplexer.create id port config).

Definition bind_mux (id : Z) (addr : SocketAddr) (config : UdtConfiguration.t) : M (list syscall) UdtMultiplexer.t :=
  new_udp_socket config (Some addr) ;;
  port ← call LocalAddr;
  mret (UdtMultiplexer.create id port config).

(** ** Sending *)

Definition send_to `{Profile} (addr : SocketAddr) (packet : UdtPacket) : M (list syscall) Z :=
  raw ← lift (UdtPacket.serialize packet);
  call (Datagram raw addr).

Fixpoint serialize_all `{Profile} (packets : list UdtPacket) : outcome (list (list Z)) :=
  match packets with
  | [] => Ok []
  | p :: packets => raw ← UdtPacket.serialize p; raws ← serialize_all packets; Ok (raw :: raws)
  end.

(** On Linux: one [sendmmsg] for the batch, whose errors are dropped. *)
Definition send_mmsg_to `{Profile} (addr : SocketAddr) (packets : list UdtPacket) : M (list syscall) Z :=
  raws ← lift (serialize_all packets);
  call Writable ;;
  or_zero (call (Datagrams raws addr)).

(** Elsewhere: a loop, which the first error ends. *)
Fixpoint send_loop `{Profile} (addr : SocketAddr) (packets : list UdtPacket) (sent : Z) : M (list syscall) Z :=
  match packets with
  | [] => mret sent
  | p :: packets =>
      n ← send_to addr p;
      send_loop addr packets (sent + n)
  end.

Definition send_mmsg_to_portable `{Profile} (addr : SocketAddr) (packets : list UdtPacket) : M (list syscall) Z :=
  call Writable ;; send_loop addr packets 0.

(** ** Receiving *)

(** [buf.chunks_exact_mut(size)]: the slots of the buffer, a shorter end left out; it
    panics when [size] is 0. *)
Definition chunks_exact (size : nat) (buf : list Z) : outcome (list (list Z)) :=
  if (size =? 0)%nat then Panic
  else Ok (map (λ i, take size (drop (i * size) buf)) (seq 0 (length buf / size))).

(** The buffer of the worker, in slots. *)
Definition worker_buffer (mss : nat) : outcome (list (list Z)) := chunks_exact mss (replicate (mss * 100) 0).

(** A message at the start of its slot; the rest of the slot keeps what it held. *)
Definition fill (raw slot : list Z) : list Z := raw ++ drop (length raw) slot.

(** On Linux: the messages are written to the first slots. *)
Definition receive_packets (mss : nat) (slots : list (list Z)) :
    outcome (list (list Z) * list (nat * SocketAddr)) :=
  msgs ← recvmmsg (length slots) mss;
  Ok (zip_with fill (map fst msgs) slots ++ drop (length msgs) slots,
      map (λ m, (length m.1, m.2)) msgs).

(** Elsewhere: a loop over the slots, which a message that would block ends; after another
    error the messages already received are forgotten. *)
Fixpoint receive_loop (i mss : nat) (slots : list (list Z)) :
    list (list Z) * outcome (list (nat * SocketAddr)) :=
  match slots with
  | [] => ([], Ok [])
  | slot :: slots =>
      match try_recv_from i mss with
      | Ok (raw, addr) =>
          let '(slots', msgs) := receive_loop (S i) mss slots in
          (fill raw slot :: slots', (λ msgs, (length raw, addr) :: msgs) <$> msgs)
      | Err WouldBlock => (slot :: slots, Ok [])
      | Err e => (slot :: slots, Err e)
      | Panic => (slot :: slots, Panic)
      end
  end.

(** The start of a turn of the worker: each message is parsed from its slot; an error is
    an empty batch, a message that does not parse is dropped. *)
Fixpoint parse_slots (msgs : list (nat * SocketAddr)) (slots : list (list Z)) :
    outcome (list (UdtPacket * SocketAddr)) :=
  match msgs, slots with
  | (nbytes, addr) :: msgs, slot :: slots =>
      raw ← slice 0 nbytes slot;
      match UdtPacket.deserialize raw with
      | Ok packet => rest ← parse_slots msgs slots; Ok ((packet, addr) :: rest)
      | Err _ => parse_slots msgs slots
      | Panic => Panic
      end
  | _, _ => Ok []
  end.

Definition unwrap_or_default {A} (o : outcome (list A)) : outcome (list A) :=
  match o with Err _ => Ok [] | o => o end.

Definition receive_batch (mss : nat) (slots : list (list Z)) : outcome (list (UdtPacket * SocketAddr)) :=
  match receive_packets mss slots with
  | Ok (slots, msgs) => parse_slots msgs slots
  | Err _ => Ok []
  | Panic => Panic
  end.

Definition receive_batch_portable (mss : nat) (slots : list (list Z)) : outcome (list (UdtPacket * SocketAddr)) :=
  let '(slots, msgs) := receive_loop 0 mss slots in
  msgs ← unwrap_or_default msgs; parse_slots msgs slots.
End channel.
End Channel.

(** ** The laws of the system calls

    What the code relies on: no more messages than slots, no message longer than its
    slot. *)
Class UdpLaws `{Udp} : Prop := {
  recvmmsg_fits n size msgs : recvmmsg n size = Ok msgs →
    (length msgs ≤ n)%nat ∧ Forall (λ m, (length m.1 ≤ size)%nat) msgs;
  try_recv_from_fits i size raw addr : try_recv_from i size = Ok (raw, addr) → (length raw ≤ size)%nat;
  try_recv_from_returns i size : try_recv_from i size ≠ Panic
}.

(** ** Slots *)

Lemma chunks_exact_slots size k : (0 < size)%nat →
  ∃ slots, Channel.chunks_exact size (replicate (size * k) 0) = Ok slots
  ∧ length slots = k ∧ Forall (λ slot, length slot = size) slots.
Proof.
  intros Hsize. unfold Channel.chunks_exact. rewrite (proj2 (Nat.eqb_neq size 0)) by lia.
  eexists. split; [done|]. rewrite length_map, length_seq, length_replicate.
  rewrite Nat.mul_comm, Nat.div_mul by lia. split; [done|].
  apply Forall_forall. intros slot (i & -> & Hi)%list_elem_of_fmap. apply elem_of_seq in Hi.
  rewrite length_take, length_drop, length_replicate. nia.
Qed.

(** The slots that [receive_batch] serves from the first turn on; with packets of size 0
    the worker panics at its first turn. *)
Lemma worker_buffer_slots mss :
  if (mss =? 0)%nat then Channel.worker_buffer mss = Panic
  else ∃ slots, Channel.worker_buffer mss = Ok slots
    ∧ length slots = 100%nat ∧ Forall (λ slot, length slot = mss) slots.
Proof. destruct (Nat.eqb_spec mss 0) as [->|]; [done|]. apply chunks_exact_slots. lia. Qed.

Lemma slice_fill raw slot : slice 0 (length raw) (Channel.fill raw slot) = Ok raw.
Proof.
  unfold slice, Channel.fill. rewrite decide_True by (rewrite length_app; lia).
  by rewrite drop_0, Nat.sub_0_r, take_app_length.
Qed.

(** What was in a slot before a message arrived is never parsed. *)
Lemma parse_filled msgs slots : (length msgs ≤ length slots)%nat → 
  Channel.parse_slots (map (λ m, (length m.1, m.2)) msgs)
    (zip_with Channel.fill (map fst msgs) slots ++ drop (length msgs) slots)
  = RcvWorker.parse_datagrams msgs.
Proof.
  revert slots. induction msgs as [|[raw addr] msgs IH]; intros [|slot slots] Hlen; simpl in *; try done; [lia|].
  rewrite slice_fill. cbn [mbind outcome_bind].
  destruct (UdtPacket.deserialize raw) as [p|e|]; rewrite ?IH by lia; done.
Qed.

(** The messages that the loop receives before it stops, and whether it keeps them. *)
Fixpoint received `{Udp} (i mss n : nat) : list (list Z * SocketAddr) * bool :=
  match n with
  | O => ([], true)
  | S n =>
      match try_recv_from i mss with
      | Ok m => let '(msgs, kept) := received (S i) mss n in (m :: msgs, kept)
      | Err e => ([], bool_decide (e = WouldBlock))
      | Panic => ([], false)
      end
  end.

Section properties.
Context `{UdpLaws}.

Lemma fill_length raw slot : (length raw ≤ length slot)%nat → length (Channel.fill raw slot) = length slot.
Proof. intros. unfold Channel.fill. rewrite length_app, length_drop. lia. Qed.

Lemma filled_slots mss msgs slots : (length msgs ≤ length slots)%nat →
  Forall (λ m : list Z * SocketAddr, (length m.1 ≤ mss)%nat) msgs → Forall (λ slot, length slot = mss) slots →
  length (zip_with Channel.fill (map fst msgs) slots ++ drop (length msgs) slots) = length slots
  ∧ Forall (λ slot, length slot = mss) (zip_with Channel.fill (map fst msgs) slots ++ drop (length msgs) slots).
Proof.
  intros Hlen Hm. revert slots Hlen. induction Hm as [|[raw addr] msgs Hraw _ IH]; intros [|slot slots] Hlen Hs;
    simpl in *; try (done || lia). apply Forall_cons in Hs as [Hslot Hs].
  destruct (IH slots ltac:(lia) Hs) as [-> Hall]. split; [done|].
  constructor; [|done]. rewrite fill_length; lia.
Qed.

(** C26. One buffer serves every batch.  A batch is parsed as the datagrams that the system
    has received, in their order, whatever earlier batches have left in the buffer; a
    failed call is an empty batch; the buffer keeps its slots. *)
Theorem receive_batch_parses mss slots : Forall (λ slot, length slot = mss) slots →
  Channel.receive_batch mss slots =
    match recvmmsg (length slots) mss with
    | Ok msgs => RcvWorker.parse_datagrams msgs
    | Err _ => Ok []
    | Panic => Panic
    end
  ∧ ∀ slots' msgs, Channel.receive_packets mss slots = Ok (slots', msgs) →
      length slots' = length slots ∧ Forall (λ slot, length slot = mss) slots'.
Proof.
  intros Hslots. unfold Channel.receive_batch, Channel.receive_packets.
  pose proof (recvmmsg_fits (length slots) mss) as Hfits.
  destruct (recvmmsg (length slots) mss) as [msgs|e|]; simpl; [|done..].
  destruct (Hfits msgs eq_refl) as [Hlen Hall]. split; [by apply parse_filled|].
  intros slots' msgs' [= <- _]. by apply filled_slots.
Qed.

Lemma receive_loop_value mss slots i :
  let '(msgs, kept) := received i mss (length slots) in
  (length msgs ≤ length slots)%nat
  ∧ (Channel.receive_loop i mss slots).1 = zip_with Channel.fill (map fst msgs) slots ++ drop (length msgs) slots
  ∧ match (Channel.receive_loop i mss slots).2 with
    | Ok l => kept = true ∧ l = map (λ m, (length m.1, m.2)) msgs
    | Err _ => kept = false
    | Panic => False
    end.
Proof.
  revert i. induction slots as [|slot slots IH]; intros i; [done|]. cbn [length received Channel.receive_loop].
  pose proof (try_recv_from_returns i mss) as Hret.
  destruct (try_recv_from i mss) as [[raw addr]|e|]; [|destruct e; (split; [simpl; lia|done])|done].
  specialize (IH (S i)). destruct (received (S i) mss (length slots)) as [msgs kept].
  destruct (Channel.receive_loop (S i) mss slots) as [slots' res]. cbn [fst snd] in IH. destruct IH as (Hlen & -> & Hres).
  split; [simpl; lia|]. split; [done|]. destruct res as [l|e|]; simpl in *; [|done..].
  destruct Hres as [-> ->]. done.
Qed.

(** Without [recvmmsg] the batch is the messages received before one would block, or
    nothing at all when another error comes first: those received before it are lost. *)
Theorem receive_batch_portable_parses mss slots :
  let '(msgs, kept) := received 0 mss (length slots) in
  Channel.receive_batch_portable mss slots = if kept : bool then RcvWorker.parse_datagrams msgs else Ok [].
Proof.
  pose proof (receive_loop_value mss slots 0) as Hloop. unfold Channel.receive_batch_portable.
  destruct (received 0 mss (length slots)) as [msgs kept], (Channel.receive_loop 0 mss slots) as [slots' res].
  cbn [fst snd] in Hloop. destruct Hloop as (Hlen & -> & Hres).
  destruct res as [l|e|]; [destruct Hres as [-> ->]|by rewrite Hres|done]. by apply parse_filled.
Qed.

(** ** Sending *)

Context `{Profile}.

(** A batch is one system call, and its outcome is not looked at: whatever the system
    answers, the method succeeds, so that a batch that was refused, or sent in part, is
    reported as sent and only comes back as a loss. *)
Theorem send_batch_ignores_errors addr packets raws w : Channel.serialize_all packets = Ok raws →
  is_ok (answer (sock w) Writable) = true → (∀ past c, answer past c ≠ Panic) →
  let r := Channel.send_mmsg_to addr packets w in
  is_ok r.1 = true ∧ sock r.2 = sock w ++ [Writable; Datagrams raws addr].
Proof.
  intros Hraws Hw Hret. unfold Channel.send_mmsg_to, call. run. rewrite Hraws. run.
  destruct (answer (sock w) Writable) as [n|e|]; try done. run.
  unfold or_zero. pose proof (Hret (sock w ++ [Writable]) (Datagrams raws addr)) as Hp. cbn [sock].
  destruct (answer _ _); cbn [fst snd sock]; rewrite <- ?app_assoc; try done.
Qed.

(** Elsewhere the batch is a datagram after the other, up to the first that the system
    refuses: its error is the result, and the packets after it are never sent. *)
Theorem send_batch_portable_stops addr packets raws w : Channel.serialize_all packets = Ok raws →
  is_ok (answer (sock w) Writable) = true → (∀ past c, answer past c ≠ Panic) →
  let r := Channel.send_mmsg_to_portable addr packets w in
  let sent k := sock w ++ Writable :: map (λ raw, Datagram raw addr) (take k raws) in
  ∃ k, sock r.2 = sent k ∧ (k ≤ length raws)%nat
  ∧ match r.1 with
    | Ok _ => k = length raws
    | Err e => ∃ raw, raws !! (k - 1)%nat = Some raw ∧ answer (sent (k - 1)%nat) (Datagram raw addr) = Err e
    | Panic => False
    end.
Proof.
  intros Hraws Hw Hret. unfold Channel.send_mmsg_to_portable, call. run.
  destruct (answer (sock w) Writable) as [n0|e|]; try done. clear n0 Hw. run.
  assert (∀ total past, ∃ k, let r := Channel.send_loop addr packets total (World past (ticks w) (trace w)) in
    let sent k := past ++ map (λ raw, Datagram raw addr) (take k raws) in
    sock r.2 = sent k ∧ (k ≤ length raws)%nat ∧ match r.1 with
    | Ok _ => k = length raws
    | Err e => (0 < k)%nat ∧ ∃ raw, raws !! (k - 1)%nat = Some raw
        ∧ answer (sent (k - 1)%nat) (Datagram raw addr) = Err e
    | Panic => False
    end) as Hloop.
  { revert raws Hraws. induction packets as [|p packets IH]; intros raws Hraws total past.
    { injection Hraws as <-. exists 0%nat. simpl. by rewrite app_nil_r. }
    cbn [Channel.serialize_all] in Hraws. apply bind_is_Ok in Hraws as (raw & Hraw & Hraws).
    apply bind_is_Ok in Hraws as (raws' & Hraws' & E). injection E as <-.
    cbn [Channel.send_loop]. unfold Channel.send_to, call. run. rewrite Hraw. run.
    pose proof (Hret past (Datagram raw addr)) as Hp.
    destruct (answer past (Datagram raw addr)) as [n|e|] eqn:Ea; [|exists 1%nat; simpl|done].
    - destruct (IH raws' Hraws' (total + n) (past ++ [Datagram raw addr])) as (k & Hs & Hk & Hr).
      exists (S k). cbn zeta in *. simpl. rewrite Hs, <- app_assoc. split; [done|]. split; [lia|].
      destruct (Channel.send_loop _ _ _ _).1 as [x|e|]; [lia| |done].
      destruct Hr as (Hpos & raw' & Hl & Hans). split; [lia|]. exists raw'.
      destruct k as [|k]; [lia|]. simpl in *. rewrite Nat.sub_0_r in *. by rewrite <- app_assoc in Hans.
    - split; [done|]. split; [lia|]. split; [lia|]. exists raw. by rewrite app_nil_r. }
  destruct (Hloop 0 (sock w ++ [Writable])) as (k & Hs & Hk & Hr). cbn zeta in *.
  exists k. rewrite Hs, <- app_assoc. split; [done|]. split; [done|].
  destruct (Channel.send_loop _ _ _ _).1 as [x|e|]; [done| |done].
  destruct Hr as (_ & raw & Hl & Hans). exists raw. by rewrite <- app_assoc in Hans.
Qed.

(** ** Datagrams that do not fit their slot *)

(** A data packet cut short is a data packet with less data. *)
Lemma cut_packet p raw n : UdtDataPacketHeader.wf (UdtDataPacket.header p) → UdtPacket.serialize (Data p) = Ok raw →
  (UDT_DATA_HEADER_SIZE ≤ n)%nat →
  length raw = (UDT_DATA_HEADER_SIZE + length (UdtDataPacket.data p))%nat
  ∧ UdtPacket.deserialize (take n raw)
    = Ok (Data (UdtDataPacket.mk (UdtDataPacket.header p) (take (n - UDT_DATA_HEADER_SIZE) (UdtDataPacket.data p)))).
Proof.
  intros Hwf Hs Hn. cbn [UdtPacket.serialize] in Hs. unfold UdtDataPacket.serialize in Hs.
  rewrite header_serialize_ok in Hs by done. cbn [mbind outcome_bind] in Hs. apply (inj Ok) in Hs as <-.
  split; [by rewrite length_app, length_words|].
  set (q := UdtDataPacket.mk _ _). pose proof (packet_survives (Data q) Hwf) as Hq. revert Hq.
  cbn [UdtPacket.serialize canonical_packet]. unfold UdtDataPacket.serialize. rewrite header_serialize_ok by done.
  cbn [mbind outcome_bind]. intros <-. f_equal. rewrite take_app_ge, length_words by (rewrite length_words; done). done.
Qed.
End properties.

(** ** Witnesses

    A system that answers every call, with two datagrams to receive, of which the second
    is not a packet. *)

Definition sample_datagram : list Z := [0; 0; 0; 100; 192; 0; 0; 0; 0; 0; 0; 13; 0; 0; 0; 2; 1; 2; 3].
Definition sample_peer : SocketAddr := {| ip := V4 [127; 0; 0; 1]; port := 9000 |}.
Definition sample_messages : list (list Z * SocketAddr) :=
  [(sample_datagram, sample_peer); ([255; 255; 0; 0], sample_peer)].

Definition sample_batch (n size : nat) : list (list Z * SocketAddr) :=
  if (2 <=? n)%nat && (19 <=? size)%nat then sample_messages else [].

#[local] Instance sample_udp : Udp := {|
  answer past c := match c with Datagram _ _ => if (length past <? 2)%nat then Ok 1 else Err Other | _ => Ok 0 end;
  recvmmsg n size := Ok (sample_batch n size);
  try_recv_from i size := match sample_messages !! i with
                          | Some m => if (length m.1 <=? size)%nat then Ok m else Err WouldBlock
                          | None => Err WouldBlock
                          end
|}.

Lemma sample_udp_laws : UdpLaws.
Proof.
  split.
  - intros n size msgs [= <-]. unfold sample_batch.
    destruct (Nat.leb_spec 2 n), (Nat.leb_spec 19 size); (split; [cbn; lia|]); repeat constructor; cbn; lia.
  - intros i size raw addr. simpl. destruct (sample_messages !! i) as [m|]; [|done].
    destruct (Nat.leb_spec (length m.1) size); [|done]. by intros [= ->].
  - intros i size. simpl. destruct (sample_messages !! i); [by case_match|done].
Qed.

Definition sample_packet : UdtPacket :=
  Data (UdtDataPacket.mk (UdtDataPacketHeader.mk 100 Only false 0 13 2) [1; 2; 3]).

Lemma receive_batch_parses_witness :
  Channel.receive_batch 20 (replicate 3 (replicate 20 9)) = Ok [(sample_packet, sample_peer)].
Proof.
  destruct (@receive_batch_parses sample_udp sample_udp_laws 20 (replicate 3 (replicate 20 9))) as [E _].
  - repeat constructor.
  - rewrite E. by vm_compute.
Defined.

Lemma receive_batch_portable_parses_witness :
  Channel.receive_batch_portable 20 (replicate 3 (replicate 20 9)) = Ok [(sample_packet, sample_peer)].
Proof.
  exact (@receive_batch_portable_parses sample_udp sample_udp_laws 20 (replicate 3 (replicate 20 9))).
Defined.

Lemma send_batch_ignores_errors_witness :
  is_ok (@Channel.send_mmsg_to sample_udp true sample_peer [sample_packet; sample_packet] (World [] 0 [])).1 = true.
Proof.
  apply (@send_batch_ignores_errors sample_udp true sample_peer [sample_packet; sample_packet]
    [sample_datagram; sample_datagram] (World [] 0 [])); [by vm_compute|done|].
  intros past []; try done. cbn [answer sample_udp]. by case_match.
Defined.

Lemma send_batch_portable_stops_witness :
  let r := @Channel.send_mmsg_to_portable sample_udp true sample_peer [sample_packet; sample_packet; sample_packet]
    (World [] 0 []) in
  r.1 = Err Other ∧ ∃ k, sock r.2 = Writable :: map (λ raw, Datagram raw sample_peer)
    (take k [sample_datagram; sample_datagram; sample_datagram]).
Proof.
  split; [by vm_compute|].
  destruct (@send_batch_portable_stops sample_udp true sample_peer [sample_packet; sample_packet; sample_packet]
    [sample_datagram; sample_datagram; sample_datagram] (World [] 0 [])) as (k & Hk & _); [by vm_compute|done| |].
  - intros past []; try done. cbn [answer sample_udp]. by case_match.
  - by exists k.
Defined.
