(* ===== verification/delivery.v ===== *)
(** * Delivery of packets

    What the receiving worker does with a datagram: it reaches at most the socket it is
    addressed to, and only if it comes from that socket's peer; which datagrams end the
    worker; how the timers of the sockets are kept. *)

From stdpp Require Import gmap.
From S2P Require Import prelude seq_number time data_packet control_packet packet.
From S2P Require Import btree_map loss_list ack_window rcv_buffer snd_buffer float flow.
From S2P Require Import configuration rate_control socket_state world socket rcv_queue udt.
From S2P Require Import samples socket_status listener rcv_worker registry.

#[global] Open Scope Z_scope.

(** ** The frame of an operation on one socket *)

Lemma heap_absorb r now u e : Udt.heap (Udt.absorb r now u e) = Udt.heap u.
Proof. by destruct (absorb_put r now u e) as [->|(m & m' & -> & _)]. Qed.

(** The socket at [r] is as it was. *)
Definition same_at (r : nat) (u u' : Udt.t) : Prop := Udt.heap u' !! r = Udt.heap u !! r.

#[export] Instance same_at_preorder r : PreOrder (same_at r).
Proof. split; [done|]. unfold same_at. intros ? ? ? -> ->. done. Qed.

Section delivery.
Context `{Profile} `{Env} `{FloatLib} `{Os}.

Lemma on_same_at {A} r r' (m : SM A) : r ≠ r' → all_steps same_id m → all_steps (same_at r') (on r m).
Proof.
  intros Hne. apply steps_on_rel; [apply _|..]; unfold same_at; intros.
  - simpl. by rewrite list_lookup_insert_ne.
  - by rewrite heap_absorb.
Qed.

(** An operation on the receive queue alone. *)
Definition same_sockets (u u' : Udt.t) : Prop :=
  Udt.heap u' = Udt.heap u ∧ Udt.sockets u' = Udt.sockets u
  ∧ Udt.next_socket_id u' = Udt.next_socket_id u ∧ Udt.peers u' = Udt.peers u.

#[export] Instance same_sockets_preorder : PreOrder same_sockets.
Proof.
  split; [done|]. unfold same_sockets. intros ? ? ? (? & ? & ? & ?) (? & ? & ? & ?).
  split_and!; congruence.
Qed.

Lemma modify_rcv_queue_sockets mux f : all_steps same_sockets (RcvWorker.modify_rcv_queue mux f).
Proof.
  intros w. unfold RcvWorker.modify_rcv_queue, RcvWorker.get_mux. run.
  by destruct (BTreeMap.get mux _); run.
Qed.

Lemma get_socket_sockets mux id : all_steps same_sockets (RcvWorker.get_socket mux id).
Proof.
  unfold RcvWorker.get_socket, RcvWorker.get_mux. steps; apply modify_rcv_queue_sockets.
Qed.

(** What [get_socket] finds: a socket of that identifier; it only fills the cache. *)
Lemma get_socket_value mux m id w : udt_wf (sock w) →
  BTreeMap.get mux (Udt.multiplexers (sock w)) = Some m →
  ∃ o u', RcvWorker.get_socket mux id w = (Ok o, World u' (ticks w) (trace w))
  ∧ same_sockets (sock w) u' ∧ (∀ r, o = Some r → named (sock w) id r).
Proof.
  intros Hu Hm. pose proof (get_socket_sockets mux id w) as Hs. revert Hs.
  unfold RcvWorker.get_socket, RcvWorker.modify_rcv_queue, RcvWorker.get_mux, RcvWorker.upgrade. run.
  rewrite Hm. run. destruct (get_mux_wf mux m _ Hu Hm) as [_ [Hsort Hrefs]].
  destruct (BTreeMap.get id (UdtRcvQueue.socket_refs _)) as [r|] eqn:Hr; run.
  - intros _. eexists _, (sock w). split; [by destruct w|]. split; [done|]. intros r'.
    destruct (_ || _); [|done]. intros [= <-]. apply Hrefs. by apply get_Some.
  - destruct (Udt.get_socket id (sock w)) as [r|] eqn:Hg; run.
    + rewrite Hm. run. intros Hs. eexists _, _. split; [done|]. split; [done|].
      intros r' [= <-]. by apply get_socket_named.
    + intros _. eexists _, (sock w). split; [by destruct w|]. done.
Qed.

Lemma update_sockets mux id : all_steps same_sockets (RcvWorker.update mux id).
Proof. unfold RcvWorker.update. steps. apply modify_rcv_queue_sockets. Qed.

Lemma same_sockets_at r u u' : same_sockets u u' → same_at r u u'.
Proof. intros [E _]. unfold same_at. by rewrite E. Qed.

Lemma serve_same_at mux id r r' packet : r ≠ r' → all_steps (same_at r') (RcvWorker.serve mux id r packet).
Proof.
  intros Hne. unfold RcvWorker.serve. steps;
    try (apply on_same_at; [done|apply id_process_packet || apply id_check_timers]).
  intros w. apply same_sockets_at, update_sockets.
Qed.

(** The packet is addressed to this socket, comes from its peer, and finds it alive. *)
Definition addressed (id : Z) (addr : SocketAddr) (s : UdtSocket.t) : Prop :=
  UdtSocket.socket_id s = id ∧ UdtSocket.peer_addr s = Some addr
  ∧ UdtStatus.is_alive (UdtSocket.status s) = true.

(** C18. A packet for a socket [id] other than 0 that comes from [addr] changes no socket
    but the live one of that identifier whose peer is [addr]; if there is none, it is
    dropped: no socket changes, nothing is sent, and the worker goes on.  (Identifier 0 is
    the listener's: a handshake for it may create a socket, and anything else ends the
    worker, [stray_packet_ends_worker].) *)
Theorem dispatch_isolated mux m packet addr w :
  let id := UdtPacket.get_dest_socket_id packet in
  let r := RcvWorker.dispatch mux packet addr w in
  udt_wf (sock w) → BTreeMap.get mux (Udt.multiplexers (sock w)) = Some m → id ≠ 0 →
  (∀ a s, Udt.heap (sock w) !! a = Some s → ¬ addressed id addr s →
     Udt.heap (sock r.2) !! a = Some s)
  ∧ ((∀ a s, Udt.heap (sock w) !! a = Some s → ¬ addressed id addr s) →
     r.1 = Ok () ∧ trace r.2 = trace w ∧ same_sockets (sock w) (sock r.2)).
Proof.
  intros id r Hu Hm Hid. subst r. unfold RcvWorker.dispatch. fold id.
  rewrite (proj2 (Z.eqb_neq id 0)) by done. unfold RcvWorker.to_socket. run.
  destruct (get_socket_value mux m id w Hu Hm) as (o & u' & -> & Hsame & Hnamed).
  pose proof Hsame as (Hheap & _). destruct o as [a|]; run.
  2: { split; [|done]. intros a s Ha _. by rewrite Hheap. }
  destruct (Hnamed a eq_refl) as (s & Hs & Es). unfold deref. run.
  rewrite Hheap, Hs. run. destruct (bool_decide _ && _) eqn:Hok; run.
  2: { split; [|done]. intros a' s' Ha _. by rewrite Hheap. }
  apply andb_true_iff in Hok as [Hpeer%bool_decide_eq_true Halive].
  assert (addressed id addr s) as Haddr by (by split_and!). split; [|naive_solver].
  intros a' s' Ha' Hno. assert (a ≠ a') as Hne by naive_solver.
  rewrite <- Ha', <- Hheap.
  by apply (serve_same_at mux id a a' packet Hne (World u' (ticks w) (trace w))).
Qed.

(** C33. Any datagram that parses as something else than a handshake and is addressed to
    socket 0, from any address, ends the receiving worker with an error: nothing of its
    batch is processed, and the worker's task panics on [unwrap], for all the sockets of
    the multiplexer. *)
Theorem stray_packet_ends_worker mux raw addr packet msgs packets w :
  UdtPacket.deserialize raw = Ok packet → UdtPacket.get_dest_socket_id packet = 0 →
  UdtPacket.handshake packet = None → RcvWorker.parse_datagrams msgs = Ok packets →
  RcvWorker.worker_turn mux ((raw, addr) :: msgs) w = (Err InvalidData, w).
Proof.
  intros Hp Hid Hh Hms. unfold RcvWorker.worker_turn. cbn [RcvWorker.parse_datagrams].
  rewrite Hp, Hms. run. cbn [foldr fst snd]. unfold RcvWorker.dispatch, RcvWorker.to_listener. run.
  rewrite Hid, Hh. done.
Qed.

(** ** The timers *)

(** The entry of a socket in the timer queue of a multiplexer. *)
Definition queued (mux id : Z) (u : Udt.t) : Prop :=
  ∃ m, BTreeMap.get mux (Udt.multiplexers u) = Some m
  ∧ id ∈ (UdtRcvQueue.sockets (UdtMultiplexer.rcv_queue m)).*2.

Definition keeps_queued (mux id : Z) (u u' : Udt.t) : Prop :=
  reg_step u u' ∧ (udt_wf u → queued mux id u → queued mux id u').

#[export] Instance keeps_queued_preorder mux id : PreOrder (keeps_queued mux id).
Proof.
  split; [by split|]. intros u1 u2 u3 [H12 ?] [H23 ?]. split; [by transitivity u2|].
  destruct H12. auto.
Qed.

Lemma put_mux_get mux m u : udt_wf u →
  BTreeMap.get mux (Udt.multiplexers (Udt.put_mux m u)) =
    if decide (mux = UdtMultiplexer.id m) then Some m else BTreeMap.get mux (Udt.multiplexers u).
Proof. intros Hu. simpl. rewrite get_insert by apply Hu. done. Qed.

Lemma queued_put_mux mux id m m' u :
  (udt_wf u → BTreeMap.get (UdtMultiplexer.id m') (Udt.multiplexers u) = Some m) →
  (id ∈ (UdtRcvQueue.sockets (UdtMultiplexer.rcv_queue m)).*2 →
   id ∈ (UdtRcvQueue.sockets (UdtMultiplexer.rcv_queue m')).*2) →
  udt_wf u → queued mux id u → queued mux id (Udt.put_mux m' u).
Proof.
  intros Hm Hq Hu (m0 & Hm0 & Hin). unfold queued. rewrite put_mux_get by done. specialize (Hm Hu).
  destruct (decide (mux = _)) as [->|]; [|by exists m0].
  exists m'. split; [done|]. apply Hq. congruence.
Qed.

Lemma queued_on {A} mux id r (m : SM A) : all_steps same_id m → all_steps (keeps_queued mux id) (on r m).
Proof.
  apply steps_on_rel; [apply _|..].
  - intros u s s' Hr Hid. split; [by apply (step_write r s)|done].
  - intros now u e. split; [apply step_absorb|].
    destruct (absorb_put r now u e) as [->|(m0 & m' & -> & Hm & _ & Hq)]; [done|].
    apply (queued_put_mux _ _ m0); [done|]. set_solver.
Qed.

(** [update] restarts the timer of its socket and keeps the others. *)
Lemma queued_modify mux mux' id f :
  (∀ q, UdtRcvQueue.socket_refs (f q) = UdtRcvQueue.socket_refs q) →
  (∀ q, id ∈ (UdtRcvQueue.sockets q).*2 → id ∈ (UdtRcvQueue.sockets (f q)).*2) →
  all_steps (keeps_queued mux id) (RcvWorker.modify_rcv_queue mux' f).
Proof.
  intros Hf Hq w. split; [by apply reg_modify_rcv_queue|].
  unfold RcvWorker.modify_rcv_queue, RcvWorker.get_mux. run.
  destruct (BTreeMap.get mux' _) as [m|] eqn:Hm; run; [|done].
  apply (queued_put_mux _ _ m); [|apply Hq].
  intros Hu. simpl. by destruct (get_mux_wf mux' m _ Hu Hm) as [-> _].
Qed.

Lemma update_queues id id' now q : id = id' ∨ id ∈ (UdtRcvQueue.sockets q).*2 →
  id ∈ (UdtRcvQueue.sockets (UdtRcvQueue.update now id' q)).*2.
Proof.
  intros Hid. unfold UdtRcvQueue.update, UdtRcvQueue.push_back. simpl.
  rewrite fmap_app, elem_of_app. destruct (decide (id = id')) as [->|Hne]; [right; left|left].
  destruct Hid as [|Hin]; [done|]. apply list_elem_of_fmap in Hin as ([ts i] & -> & Hin).
  apply list_elem_of_fmap. exists (ts, i). split; [done|]. by apply list_elem_of_filter.
Qed.

(** The socket [id], at [r], can be found by the worker of [mux], and is alive. *)
Definition reachable_socket (mux id : Z) (r : nat) (u : Udt.t) : Prop :=
  (id, r) ∈ Udt.sockets u
  ∧ (∃ s, Udt.heap u !! r = Some s ∧ UdtStatus.is_alive (UdtSocket.status s) = true)
  ∧ ∃ m, BTreeMap.get mux (Udt.multiplexers u) = Some m
    ∧ ∀ r', (id, r') ∈ UdtRcvQueue.socket_refs (UdtMultiplexer.rcv_queue m) → r' = r.

Definition keeps_reachable (mux id : Z) (r : nat) (u u' : Udt.t) : Prop :=
  reg_step u u' ∧ (udt_wf u → reachable_socket mux id r u → reachable_socket mux id r u').

#[export] Instance keeps_reachable_preorder mux id r : PreOrder (keeps_reachable mux id r).
Proof.
  split; [by split|]. intros u1 u2 u3 [H12 ?] [H23 ?]. split; [by transitivity u2|].
  destruct H12. auto.
Qed.

Lemma reachable_put_mux mux id r m m' u :
  (udt_wf u → BTreeMap.get (UdtMultiplexer.id m') (Udt.multiplexers u) = Some m) →
  (∀ r', (id, r') ∈ UdtRcvQueue.socket_refs (UdtMultiplexer.rcv_queue m') →
         (id, r') ∈ UdtRcvQueue.socket_refs (UdtMultiplexer.rcv_queue m)) →
  udt_wf u → reachable_socket mux id r u → reachable_socket mux id r (Udt.put_mux m' u).
Proof.
  intros Hm Hrefs Hu (Hin & Hs & m0 & Hm0 & Hr). split; [done|]. split; [done|].
  rewrite put_mux_get by done. specialize (Hm Hu). destruct (decide (mux = _)) as [->|]; [|by exists m0].
  exists m'. split; [done|]. intros r' Hr'. apply Hr. assert (m0 = m) as -> by congruence. auto.
Qed.

Lemma reachable_on {A} mux id r r' (m : SM A) : all_steps same_id m → r' ≠ r →
  all_steps (keeps_reachable mux id r) (on r' m).
Proof.
  intros Hm Hne. apply steps_on_rel; [apply _|..|done].
  - intros u s s' Hr Hid. split; [by apply (step_write r' s)|].
    intros _ (Hin & (s1 & Hs1 & Ha) & Hrefs). split; [done|]. split; [|done].
    exists s1. simpl. by rewrite list_lookup_insert_ne.
  - intros now u e. split; [apply step_absorb|].
    destruct (absorb_put r' now u e) as [->|(m0 & m' & -> & Hg & Hr & _)]; [done|].
    apply (reachable_put_mux _ _ _ m0); [done|]. by rewrite Hr.
Qed.

Lemma reachable_modify mux mux' id r f :
  (∀ q, UdtRcvQueue.socket_refs (f q) = UdtRcvQueue.socket_refs q) →
  all_steps (keeps_reachable mux id r) (RcvWorker.modify_rcv_queue mux' f).
Proof.
  intros Hf w. split; [by apply reg_modify_rcv_queue|].
  unfold RcvWorker.modify_rcv_queue, RcvWorker.get_mux. run.
  destruct (BTreeMap.get mux' _) as [m|] eqn:Hm; run; [|done].
  apply (reachable_put_mux _ _ _ m); [|by intros r'; simpl; rewrite Hf].
  intros Hu. simpl. by destruct (get_mux_wf mux' m _ Hu Hm) as [-> _].
Qed.

Lemma queued_cache mux mux' id id' : all_steps (keeps_queued mux id) (RcvWorker.get_socket mux' id').
Proof.
  intros w. split; [by apply reg_get_socket|].
  unfold RcvWorker.get_socket, RcvWorker.modify_rcv_queue, RcvWorker.get_mux. run.
  destruct (BTreeMap.get mux' _) as [m|] eqn:Hm; run; [|done].
  destruct (BTreeMap.get id' _) as [r'|]; [done|]. run.
  destruct (Udt.get_socket id' _) as [r'|]; run; [|done]. rewrite Hm. run.
  apply (queued_put_mux _ _ m); [|done].
  intros Hu. simpl. by destruct (get_mux_wf mux' m _ Hu Hm) as [-> _].
Qed.

Lemma queued_update mux id mux' id' : all_steps (keeps_queued mux id) (RcvWorker.update mux' id').
Proof.
  unfold RcvWorker.update. steps. apply queued_modify; [done|].
  intros q Hq. apply update_queues. by right.
Qed.

Lemma queued_check_socket mux id mux' id' : all_steps (keeps_queued mux id) (RcvWorker.check_socket mux' id').
Proof.
  unfold RcvWorker.check_socket, deref. steps; [apply queued_cache| |apply queued_update].
  apply queued_on, id_check_timers.
Qed.

Lemma queued_check_all mux id mux' ids : all_steps (keeps_queued mux id)
  (foldr (λ id m, RcvWorker.check_socket mux' id ;; m) (mret ()) ids).
Proof.
  induction ids as [|y ids IH]; simpl; [apply steps_ret; apply _|].
  apply steps_bind; [apply _|apply queued_check_socket|by intros _].
Qed.

Lemma reachable_cache mux id r id' : id ≠ id' → all_steps (keeps_reachable mux id r) (RcvWorker.get_socket mux id').
Proof.
  intros Hne w. split; [by apply reg_get_socket|].
  unfold RcvWorker.get_socket, RcvWorker.modify_rcv_queue, RcvWorker.get_mux. run.
  destruct (BTreeMap.get mux _) as [m|] eqn:Hm; run; [|done].
  destruct (BTreeMap.get id' _) as [r'|]; [done|]. run.
  destruct (Udt.get_socket id' _) as [r'|]; run; [|done]. rewrite Hm. run.
  apply (reachable_put_mux _ _ _ m).
  - intros Hu. simpl. by destruct (get_mux_wf mux m _ Hu Hm) as [-> _].
  - simpl. intros r1 [[= -> ->]|[Hin _]]%elem_of_insert; done.
Qed.

(** Checking another socket leaves this one as it was. *)
Lemma reachable_check mux id r id' w : id ≠ id' → udt_wf (sock w) → reachable_socket mux id r (sock w) →
  reachable_socket mux id r (sock (RcvWorker.check_socket mux id' w).2).
Proof.
  intros Hne Hu Hr. pose proof Hr as (Hin & _ & m & Hm & _).
  pose proof (reachable_cache mux id r id' Hne w) as [Hstep Hr1].
  destruct (get_socket_value mux m id' w Hu Hm) as (o & u' & E & _ & Hnamed).
  unfold RcvWorker.check_socket. run. rewrite E in *. simpl in *.
  specialize (Hr1 Hu Hr). apply Hstep in Hu as Hu'. destruct o as [r'|]; run; [|done].
  assert (r' ≠ r) as Hrr.
  { destruct (sockets_named _ Hu id r Hin) as (s & Hs & E1), (Hnamed r' eq_refl) as (s' & Hs' & E2).
    congruence. }
  assert (∀ s, all_steps (keeps_reachable mux id r)
    (when (UdtStatus.is_alive (UdtSocket.status s)) (on r' check_timers ;; RcvWorker.update mux id'))) as Hw.
  { intros s. unfold RcvWorker.update. steps; [by apply reachable_on; [apply id_check_timers|]|].
    by apply reachable_modify. }
  unfold deref. run. destruct (Udt.heap u' !! r') as [s|]; run; [|done].
  by apply (Hw s (World u' (ticks w) (trace w))).
Qed.

(** The worker finds a reachable socket. *)
Lemma get_reachable mux id r w : udt_wf (sock w) → reachable_socket mux id r (sock w) →
  ∃ u', RcvWorker.get_socket mux id w = (Ok (Some r), World u' (ticks w) (trace w)) ∧ same_sockets (sock w) u'.
Proof.
  intros Hu (Hin & (s & Hs & Ha) & m & Hm & Hr).
  pose proof (get_socket_sockets mux id w) as Hs'. revert Hs'.
  unfold RcvWorker.get_socket, RcvWorker.modify_rcv_queue, RcvWorker.get_mux, RcvWorker.upgrade. run.
  rewrite Hm. run. destruct (get_mux_wf mux m _ Hu Hm) as [_ [Hsort _]].
  destruct (BTreeMap.get id (UdtRcvQueue.socket_refs _)) as [r'|] eqn:Hr'; run.
  - intros _. apply get_Some in Hr'; [|done]. apply Hr in Hr' as ->.
    rewrite bool_decide_eq_true_2; [by exists (sock w); destruct w|].
    apply list_elem_of_fmap. by exists (id, r).
  - assert (Udt.get_socket id (sock w) = Some r) as ->.
    { unfold Udt.get_socket, Udt.has_status. apply get_Some in Hin; [|apply Hu]. rewrite Hin, Hs.
      rewrite bool_decide_eq_false_2; [done|]. by intros E; rewrite E in Ha. }
    run. rewrite Hm. run. by eexists.
Qed.

Lemma update_queued mux id w w' : udt_wf (sock w) → RcvWorker.update mux id w = (Ok (), w') →
  queued mux id (sock w').
Proof.
  intros Hu. unfold RcvWorker.update, RcvWorker.modify_rcv_queue, RcvWorker.get_mux. run.
  destruct (BTreeMap.get mux _) as [m|] eqn:Hm; run; [|done]. intros [= <-]. simpl.
  eexists. rewrite put_mux_get by done. simpl. destruct (get_mux_wf mux m _ Hu Hm) as [-> _].
  rewrite decide_True by done. split; [done|]. apply update_queues. by left.
Qed.

Lemma check_live mux id r w w' : udt_wf (sock w) → reachable_socket mux id r (sock w) →
  RcvWorker.check_socket mux id w = (Ok (), w') → queued mux id (sock w').
Proof.
  intros Hu Hr. pose proof (reg_get_socket mux id w) as [_ Hu'].
  destruct (get_reachable mux id r w Hu Hr) as (u' & E & Hheap & _).
  unfold RcvWorker.check_socket, deref. run. rewrite E in *. simpl in Hu'. run.
  destruct Hr as (_ & (s & Hs & Ha) & _). rewrite Hheap, Hs. run. rewrite Ha. run.
  pose proof (reg_on_timers r (World u' (ticks w) (trace w))) as [_ Hu1].
  destruct (on r check_timers _) as [[[]| |] w1]; run; [|done..]. simpl in Hu1.
  apply update_queued. auto.
Qed.

Lemma check_all_live mux id r ids w w' : udt_wf (sock w) → reachable_socket mux id r (sock w) → id ∈ ids →
  foldr (λ id m, RcvWorker.check_socket mux id ;; m) (mret ()) ids w = (Ok (), w') →
  queued mux id (sock w').
Proof.
  revert w. induction ids as [|x ids IH]; intros w Hu Hr; [by intros ?%not_elem_of_nil|].
  intros Hin. simpl. run. pose proof (reg_check_socket mux x w) as [_ Hu1].
  destruct (RcvWorker.check_socket mux x w) as [[[]| |] w1] eqn:E; run; [|done..]. simpl in Hu1.
  intros Hrest. destruct (decide (id = x)) as [<-|Hne].
  - pose proof (queued_check_all mux id mux ids w1) as [_ Hk]. rewrite Hrest in Hk. apply Hk; [auto|]. by eapply check_live.
  - apply (IH w1); [auto| |set_solver|done].
    pose proof (reachable_check mux id r x w Hne Hu Hr) as Hr1. by rewrite E in Hr1.
Qed.

Lemma take_due_parts clock l :
  let '(ids, rest) := UdtRcvQueue.take_due clock l in
  ∃ entries, l = entries ++ rest ∧ ids = entries.*2.
Proof.
  revert clock. induction l as [|[ts id] l IH]; intros clock; simpl; [by exists []|].
  destruct (_ >? _); [|by exists []]. specialize (IH (λ i, clock (S i))).
  destruct (UdtRcvQueue.take_due _ l) as [ids rest]. destruct IH as (entries & -> & ->).
  by exists ((ts, id) :: entries).
Qed.

(** C30. A round of timer checks loses no live socket: a socket that is registered, alive,
    and in the timer queue when the round starts is in the queue when it ends, whatever
    its own timers and those of the other sockets do. *)
Theorem timers_kept mux id r w w' :
  udt_wf (sock w) → reachable_socket mux id r (sock w) → queued mux id (sock w) →
  RcvWorker.check_due mux w = (Ok (), w') → queued mux id (sock w').
Proof.
  intros Hu Hr (m & Hm & Hq). unfold RcvWorker.check_due, RcvWorker.modify_rcv_queue, RcvWorker.get_mux.
  run. rewrite Hm. run. destruct (get_mux_wf mux m _ Hu Hm) as [Hid [? ?]].
  pose proof (due_refs (λ i, world.clock (ticks w + i)) (UdtMultiplexer.rcv_queue m)) as Hrefs.
  pose proof (take_due_parts (λ i, world.clock (ticks w + i)) (UdtRcvQueue.sockets (UdtMultiplexer.rcv_queue m))) as Hparts.
  unfold UdtRcvQueue.due in *. destruct (UdtRcvQueue.take_due _ _) as [ids rest].
  destruct Hparts as (entries & El & ->). simpl in Hrefs. run. rewrite Hm. run.
  set (m' := UdtMultiplexer.set_rcv_queue _ m). intros Hloop.
  set (u1 := Udt.put_mux m' (sock w)) in *.
  assert (udt_wf u1) as Hu1 by (by apply (step_put_mux m'); [by split|]).
  rewrite El, fmap_app, elem_of_app in Hq. destruct Hq as [Hq|Hq].
  - eapply check_all_live; [..|exact Hq|exact Hloop]; [done|].
    apply (reachable_put_mux _ _ _ m); [by rewrite <- Hid in Hm|done|done|done].
  - pose proof (queued_check_all mux id mux entries.*2
      (World u1 (ticks w + length (UdtRcvQueue.sockets (UdtMultiplexer.rcv_queue m))) (trace w))) as [_ Hk].
    rewrite Hloop in Hk. apply Hk; [done|]. exists m'. cbn [sock]. unfold u1.
    rewrite put_mux_get by done. simpl. by rewrite Hid, decide_True.
Qed.
End delivery.

(** ** Witnesses *)

Definition sample_os : Os := {| udp_port _ _ := Ok 9000; random_isn _ := 100; held _ _ := false |}.

(** A clock that advances one second a reading. *)
Definition slow_env : Env := {|
  world.clock n := Z.of_nat n * 1000000000; send_result _ := None; writable_result _ := None; random _ := 1; cookie_hash _ _ t := t
|}.

(** One multiplexer, and one connected socket in its timer queue. *)
Definition sample_mux : UdtMultiplexer.t :=
  UdtMultiplexer.set_rcv_queue (UdtRcvQueue.mk [(0, 1)] 1500 [])
    (UdtMultiplexer.create 1 9000 UdtConfiguration.default).
Definition sample_udt : Udt.t := Udt.mk [sample_socket] [(1, 0%nat)] [(1, sample_mux)] 77 ∅.

Lemma sample_udt_wf : udt_wf sample_udt.
Proof.
  split; simpl; [repeat constructor| |repeat constructor|].
  - intros id r [= -> ->]%list_elem_of_singleton. by exists sample_socket.
  - intros id m [= -> ->]%list_elem_of_singleton. split; [done|]. split; [constructor|].
    by intros ? ? ?%not_elem_of_nil.
Qed.

Lemma dispatch_isolated_witness :
  trace (@RcvWorker.dispatch true sample_env sample_float sample_os 1
    (Control (UdtControlPacket.new_shutdown 1)) {| ip := V4 [10; 0; 0; 1]; port := 9000 |}
    (World sample_udt 10 [])).2 = [].
Proof.
  apply (@dispatch_isolated true sample_env sample_float sample_os 1 sample_mux
    (Control (UdtControlPacket.new_shutdown 1)) {| ip := V4 [10; 0; 0; 1]; port := 9000 |}
    (World sample_udt 10 [])); [apply sample_udt_wf|by vm_compute|by vm_compute|].
  intros [|a] s; simpl; [|by rewrite lookup_nil]. intros [= <-] (_ & Hp & _). by vm_compute in Hp.
Defined.

Lemma stray_packet_ends_worker_witness :
  @RcvWorker.worker_turn true sample_env sample_float sample_os 1 [(repeat 0 16, sample_addr)]
    (World sample_udt 10 []) = (Err InvalidData, World sample_udt 10 []).
Proof.
  eapply (@stray_packet_ends_worker true sample_env sample_float sample_os 1 (repeat 0 16) sample_addr
    (Data (UdtDataPacket.mk (UdtDataPacketHeader.mk 0 Middle false 0 0 0) [])) [] []); by vm_compute.
Defined.

Lemma timers_kept_witness :
  ∃ w', @RcvWorker.check_due true slow_env sample_os 1 (World sample_udt 10 []) = (Ok (), w')
  ∧ queued 1 1 (sock w').
Proof.
  eexists. split; [vm_compute; reflexivity|].
  apply (@timers_kept true slow_env sample_os 1 1 0 (World sample_udt 10 []));
    [apply sample_udt_wf| | |by vm_compute].
  - split; [left|]. split; [by exists sample_socket|]. exists sample_mux. split; [done|].
    by intros ? ?%not_elem_of_nil.
  - exists sample_mux. split; [done|]. left.
Defined.
