(* ===== verification/connections.v ===== *)
(** * Opening and closing connections

    What [Udt::new_connection] registers and answers, what a listener accepts, and how a
    client tries several addresses. *)

From stdpp Require Import gmap.
From S2P Require Import prelude seq_number time data_packet control_packet packet.
From S2P Require Import btree_map loss_list ack_window rcv_buffer snd_buffer float flow.
From S2P Require Import configuration rate_control socket_state world socket rcv_queue udt.
From S2P Require Import samples socket_status listener rcv_worker registry delivery.

#[global] Open Scope Z_scope.

(** ** The index of peers *)

(** The registered socket [id] is connected to [peer]. *)
Definition peer_is (peer : SocketAddr) (u : Udt.t) (id : Z) : Prop :=
  ∃ r s, BTreeMap.get id (Udt.sockets u) = Some r ∧ Udt.heap u !! r = Some s
  ∧ UdtSocket.peer_addr s = Some peer.

Lemma find_peer_none peer ids u : udt_wf u → Udt.find_peer peer ids u = None →
  ∀ id, (id, ()) ∈ ids → ¬ peer_is peer u id.
Proof.
  intros Hu. induction ids as [|[i []] ids IH]; intros Hf id Hin; [by apply not_elem_of_nil in Hin|].
  simpl in Hf. destruct (BTreeMap.get i (Udt.sockets u)) as [r|] eqn:Hr; simpl in Hf.
  2: { apply elem_of_cons in Hin as [[= ->]|Hin]; [|by apply IH].
       intros (r & s & Hr' & _). congruence. }
  destruct (Udt.heap u !! r) as [s|] eqn:Hs.
  2: { apply elem_of_cons in Hin as [[= ->]|Hin]; [|by apply IH].
       intros (r' & s & Hr' & Hs' & _). congruence. }
  case_bool_decide.
  - assert ((i, r) ∈ Udt.sockets u) as Hin' by (apply get_Some; [apply Hu|done]).
    destruct (sockets_named u Hu i r Hin') as (s' & Hs' & E). congruence.
  - apply elem_of_cons in Hin as [[= ->]|Hin]; [|by apply IH].
    intros (r' & s' & Hr' & Hs' & Hp). congruence.
Qed.

Lemma find_peer_only peer ids u id r s :
  (∀ i, (i, ()) ∈ ids → i ≠ id → ¬ peer_is peer u i) → (id, ()) ∈ ids →
  BTreeMap.get id (Udt.sockets u) = Some r → Udt.heap u !! r = Some s →
  UdtSocket.peer_addr s = Some peer → UdtSocket.socket_id s = id →
  Udt.find_peer peer ids u = Some r.
Proof.
  intros Hno Hin Hr Hs Hp Hid. induction ids as [|[i []] ids IH]; [by apply not_elem_of_nil in Hin|].
  simpl. destruct (decide (i = id)) as [->|Hne].
  { rewrite Hr. simpl. rewrite Hs. rewrite bool_decide_eq_true_2 by done. by rewrite Hid. }
  assert (Udt.find_peer peer ids u = Some r) as IH'.
  { apply IH; [|by apply elem_of_cons in Hin as [[=]|]; congruence].
    intros j Hj. apply Hno. by right. }
  assert (¬ peer_is peer u i) as Hi by (apply Hno; [left|done]).
  destruct (BTreeMap.get i (Udt.sockets u)) as [r'|] eqn:Hr'; simpl; [|done].
  destruct (Udt.heap u !! r') as [s'|] eqn:Hs'; [|done].
  rewrite bool_decide_eq_false_2; [done|]. intros E. apply Hi. by exists r', s'.
Qed.

(** ** A new connection *)

(** What identifies the server's side of a connection. *)
Definition connection_of (ls : UdtSocket.t) (id : Z) (peer : SocketAddr) (hs : HandShakeInfo.t)
    (mss : Z) (s : UdtSocket.t) : Prop :=
  UdtSocket.socket_id s = id
  ∧ UdtSocket.socket_type s = HandShakeInfo.socket_type hs
  ∧ UdtSocket.peer_addr s = Some peer
  ∧ UdtSocket.peer_socket_id s = Some (HandShakeInfo.socket_id hs)
  ∧ UdtSocket.initial_seq_number s = HandShakeInfo.initial_seq_number hs
  ∧ UdtSocket.listen_socket s = Some (UdtSocket.socket_id ls)
  ∧ UdtSocket.multiplexer s = UdtSocket.multiplexer ls
  ∧ UdtSocket.configuration s = UdtConfiguration.set_mss mss (UdtSocket.configuration ls).

(** The answer of the server: the negotiated packet size, its own window and identifier. *)
Definition handshake_answer (config : UdtConfiguration.t) (id : Z) (peer : SocketAddr)
    (hs : HandShakeInfo.t) : UdtPacket :=
  Control (UdtControlPacket.new_handshake
    (HandShakeInfo.mk (HandShakeInfo.udt_version hs) (HandShakeInfo.socket_type hs)
       (HandShakeInfo.initial_seq_number hs)
       (Z.min (UdtConfiguration.mss config) (HandShakeInfo.max_packet_size hs))
       (Z.min (UdtConfiguration.rcv_buf_size config) (UdtConfiguration.flight_flag_size config))
       (HandShakeInfo.connection_type hs) id (HandShakeInfo.syn_cookie hs) (ip peer))
    (HandShakeInfo.socket_id hs)).

Section connections.
Context `{Profile} `{Env} `{FloatLib} `{Os}.

Lemma accepted_socket_value l id peer hs w ls mux :
  Udt.heap (sock w) !! l = Some ls → UdtSocket.multiplexer ls = Some mux →
  len (UdtSocket.queued_sockets ls) < UdtConfiguration.accept_queue_size (UdtSocket.configuration ls) →
  56 <= UdtConfiguration.mss (UdtSocket.configuration ls) <= U32_MAX →
  ∃ s n, accepted_socket l id peer hs w = (Ok s, World (sock w) n (trace w))
  ∧ connection_of ls id peer hs (UdtConfiguration.mss (UdtSocket.configuration ls)) s.
Proof.
  intros Hl Hmux Hq Hmss. unfold accepted_socket, deref. run. rewrite Hl. run. rewrite Hmux.
  rewrite Z.geb_leb, (proj2 (Z.leb_gt _ _)) by lia. run.
  unfold UdtSocket.with_peer, UdtSocket.set_peer_addr, UdtSocket.get_max_payload_size. simpl.
  assert (∀ a b, a = 28 ∨ a = 40 → b = 16 → ∃ size, (x ← arith_u 32 (UdtConfiguration.mss (UdtSocket.configuration ls) - a);
    arith_u 32 (x - b)) = Ok size) as Hsize.
  { intros a b Ha ->. rewrite arith_u_ok by lia. cbn [mbind outcome_bind].
    rewrite arith_u_ok by lia. by eexists. }
  destruct (Hsize (match peer with {| ip := V6 _ |} => 40 | _ => 28 end) (Z.of_nat UDT_DATA_HEADER_SIZE))
    as (size & E); [destruct peer as [[] ?]; auto|done|].
  rewrite E. run. eexists _, _. split; [done|].
  unfold connection_of. simpl. split_and!; try done. by destruct (UdtSocket.configuration ls).
Qed.

Lemma connect_on_handshake_value ls id peer hs mss s n tr mux :
  connection_of ls id peer hs mss s → UdtSocket.multiplexer ls = Some mux →
  (∀ k, send_result k = None) → 
  mss = UdtConfiguration.mss (UdtSocket.configuration ls) →
  ∃ s' n', connect_on_handshake peer hs (World s n tr) =
    (Ok (), World s' n' (tr ++ [RcvQueuePushBack id;
       SendTo peer (handshake_answer (UdtSocket.configuration ls) id peer hs)]))
  ∧ connection_of ls id peer hs (Z.min mss (HandShakeInfo.max_packet_size hs)) s'
  ∧ UdtSocket.status s' = Connected.
Proof.
  intros (Hid & Hty & Hp & Hpid & Hisn & Hls & Hm & Hcf) Hmux Hsend ->.
  assert ((if HandShakeInfo.max_packet_size hs >? UdtConfiguration.mss (UdtSocket.configuration ls)
           then UdtConfiguration.mss (UdtSocket.configuration ls) else HandShakeInfo.max_packet_size hs)
          = Z.min (UdtConfiguration.mss (UdtSocket.configuration ls)) (HandShakeInfo.max_packet_size hs)) as Emss.
  { rewrite Z.gtb_ltb. destruct (Z.ltb_spec (UdtConfiguration.mss (UdtSocket.configuration ls))
      (HandShakeInfo.max_packet_size hs)); lia. }
  unfold connect_on_handshake, modify_flow, set_status. run. rewrite Hcf. simpl. rewrite Emss.
  rewrite Hpid. run. simpl. rewrite Hm, Hmux. run. unfold mux_send_to, udp_send. run.
  cbn [UdtPacket.serialize]. run. rewrite Hsend. run.
  eexists _, _. split.
  - do 2 f_equal. rewrite <- app_assoc, Hid. done.
  - unfold connection_of. simpl. split; [|done]. split_and!; try done; congruence.
Qed.

Lemma on_value {A} r (m : SM A) w s o s' n es :
  Udt.heap (sock w) !! r = Some s →
  m (World s (ticks w) (trace w)) = (o, World s' n (trace w ++ es)) →
  on r m w = (o, World (foldl (Udt.absorb r (world.clock n))
                          (Udt.set_heap (<[r := s']> (Udt.heap (sock w))) (sock w)) es)
                       (S n) (trace w ++ es)).
Proof. intros Hr Hm. unfold on. rewrite Hr, Hm. simpl. by rewrite drop_app_length. Qed.

(** A method that only assigns to the socket. *)
Lemma on_modify r f w s : Udt.heap (sock w) !! r = Some s →
  on r (modify f) w = (Ok (), World (Udt.set_heap (<[r := f s]> (Udt.heap (sock w))) (sock w))
                                (S (ticks w)) (trace w)).
Proof.
  intros Hr. erewrite (on_value r (modify f) w s (Ok ()) (f s) (ticks w) []); [|done|].
  - by rewrite app_nil_r.
  - by rewrite app_nil_r.
Qed.

Lemma absorb_send r t u addr p : Udt.absorb r t u (SendTo addr p) = u.
Proof. unfold Udt.absorb. by destruct (Udt.mux_of r u). Qed.

Lemma absorb_push r m t u id : Udt.mux_of r u = Some m →
  Udt.absorb r t u (RcvQueuePushBack id) =
    Udt.put_mux (UdtMultiplexer.set_rcv_queue
      (UdtRcvQueue.push_back t id (UdtMultiplexer.rcv_queue m)) m) u.
Proof. intros Hm. unfold Udt.absorb. by rewrite Hm. Qed.

(** The registry once the connection [s] is registered under [id]. *)
Definition registered (l : nat) (ls : UdtSocket.t) (m : UdtMultiplexer.t) (now id : Z)
    (hs : HandShakeInfo.t) (s : UdtSocket.t) (u : Udt.t) : Udt.t :=
  let key := (HandShakeInfo.socket_id hs, HandShakeInfo.initial_seq_number hs) in
  Udt.mk (<[l := UdtSocket.set_queued (BTreeMap.insert id () (UdtSocket.queued_sockets ls)) ls]> (Udt.heap u ++ [s]))
    (BTreeMap.insert id (length (Udt.heap u)) (Udt.sockets u))
    (BTreeMap.insert (UdtMultiplexer.id m)
       (UdtMultiplexer.set_rcv_queue (UdtRcvQueue.push_back now id (UdtMultiplexer.rcv_queue m)) m)
       (Udt.multiplexers u))
    (wrap_u 32 (id - 1))
    (<[key := BTreeMap.insert id () (default [] (Udt.peers u !! key))]> (Udt.peers u)).

Lemma register_connection_value l peer hs w ls mux m :
  let u := sock w in
  let id := Udt.next_socket_id u in
  let config := UdtSocket.configuration ls in
  Udt.heap u !! l = Some ls → UdtSocket.multiplexer ls = Some mux →
  BTreeMap.get mux (Udt.multiplexers u) = Some m →
  len (UdtSocket.queued_sockets ls) < UdtConfiguration.accept_queue_size config →
  56 <= UdtConfiguration.mss config <= U32_MAX → (∀ k, send_result k = None) →
  ∃ s n t, register_connection l peer hs w =
    (Ok (), World (registered l ls m t id hs s u) n
       (trace w ++ [RcvQueuePushBack id; SendTo peer (handshake_answer config id peer hs); NotifyOne AcceptNotify]))
  ∧ connection_of ls id peer hs (Z.min (UdtConfiguration.mss config) (HandShakeInfo.max_packet_size hs)) s
  ∧ UdtSocket.status s = Connected.
Proof.
  intros u id config Hl Hmux Hm Hq Hmss Hsend.
  assert (l < length (Udt.heap u))%nat as Hlt by (by eapply lookup_lt_Some).
  unfold register_connection, get_new_socket_id. run. fold u id.
  destruct (accepted_socket_value l id peer hs
    (World (Udt.set_next_socket_id (wrap_u 32 (id - 1)) u) (ticks w) (trace w)) ls mux Hl Hmux Hq Hmss)
    as (s & n & -> & Hs). unfold alloc. run. cbn [Udt.heap Udt.set_next_socket_id].
  destruct (connect_on_handshake_value ls id peer hs _ s n (trace w) mux Hs Hmux Hsend eq_refl)
    as (s' & n' & E & Hs' & Hst).
  erewrite (on_value (length (Udt.heap u))); [|simpl; by apply list_lookup_middle|exact E].
  run. cbn [foldl]. rewrite absorb_send.
  erewrite (absorb_push _ m).
  2: { unfold Udt.mux_of. simpl. rewrite list_lookup_insert_eq by (rewrite length_app; simpl; lia). simpl.
       destruct Hs' as (_ & _ & _ & _ & _ & _ & -> & _). by rewrite Hmux. }
  unfold enqueue. rewrite (on_modify l _ _ ls).
  - run. exists s', (S (S n')), (world.clock n'). split; [|done].
    unfold emit, registered, add_peer. simpl. rewrite insert_app_r_alt, Nat.sub_diag by done.
    destruct Hs as (_ & _ & _ & _ & -> & _). by rewrite <- app_assoc.
  - simpl. rewrite list_lookup_insert_ne by lia. by rewrite lookup_app_l.
Qed.

(** The new connection is the one the index of peers leads to. *)
Lemma registered_peer l ls m t peer hs s u mss :
  let id := Udt.next_socket_id u in
  let u' := registered l ls m t id hs s u in
  udt_wf u → Udt.heap u !! l = Some ls →
  Udt.get_peer_socket peer (HandShakeInfo.socket_id hs) (HandShakeInfo.initial_seq_number hs) u = None →
  connection_of ls id peer hs mss s →
  Udt.get_peer_socket peer (HandShakeInfo.socket_id hs) (HandShakeInfo.initial_seq_number hs) u'
    = Some (length (Udt.heap u)).
Proof.
  intros id u' Hu Hl Hnone (Hid & _ & Hp & _).
  assert (l < length (Udt.heap u))%nat as Hlt by (by eapply lookup_lt_Some).
  unfold Udt.get_peer_socket in *. unfold u', registered at 1. simpl. rewrite lookup_insert_eq.
  set (key := (HandShakeInfo.socket_id hs, HandShakeInfo.initial_seq_number hs)) in *.
  apply (find_peer_only _ _ _ id _ s); [|by apply elem_of_insert; left|..]; simpl; try done.
  - intros i [[= ->]|[Hin _]]%elem_of_insert Hne; [done|].
    intros (r & s' & Hr & Hs' & Hp'). simpl in Hr, Hs'. rewrite get_insert, decide_False in Hr by (done || apply Hu).
    assert (r < length (Udt.heap u))%nat as Hrlt.
    { apply get_Some in Hr; [|apply Hu]. destruct (sockets_named u Hu i r Hr) as (? & ? & _).
      by eapply lookup_lt_Some. }
    destruct (Udt.peers u !! key) as [ids|]; [|by apply not_elem_of_nil in Hin].
    apply (find_peer_none peer ids u Hu Hnone i Hin).
    destruct (decide (r = l)) as [->|Hne'].
    + rewrite list_lookup_insert_eq in Hs' by (rewrite length_app; lia). injection Hs' as <-.
      by exists l, ls.
    + rewrite list_lookup_insert_ne, lookup_app_l in Hs' by done. by exists r, s'.
  - by rewrite get_insert, decide_True by (done || apply Hu).
  - rewrite list_lookup_insert_ne by lia. by apply list_lookup_middle.
Qed.

(** C23. A first handshake on a listener with room in its queue registers exactly one
    socket, under the next identifier: connected to the peer, with the peer's initial
    sequence number and the smaller of the two packet sizes; it enters the listener's
    queue, the timer queue of the listener's multiplexer and the index of peers, where a
    repetition of the handshake finds it; one answer is sent and one waiter is woken.  No
    other socket changes. *)
Theorem new_connection_registers l peer hs w ls mux m :
  let u := sock w in
  let id := Udt.next_socket_id u in
  let config := UdtSocket.configuration ls in
  let lookup := Udt.get_peer_socket peer (HandShakeInfo.socket_id hs) (HandShakeInfo.initial_seq_number hs) in
  udt_wf u → Udt.heap u !! l = Some ls → UdtSocket.multiplexer ls = Some mux →
  BTreeMap.get mux (Udt.multiplexers u) = Some m → lookup u = None →
  len (UdtSocket.queued_sockets ls) < UdtConfiguration.accept_queue_size config →
  56 <= UdtConfiguration.mss config <= U32_MAX → (∀ k, send_result k = None) →
  ∃ s n t, new_connection l peer hs w =
    (Ok (), World (registered l ls m t id hs s u) n
       (trace w ++ [RcvQueuePushBack id; SendTo peer (handshake_answer config id peer hs); NotifyOne AcceptNotify]))
  ∧ connection_of ls id peer hs (Z.min (UdtConfiguration.mss config) (HandShakeInfo.max_packet_size hs)) s
  ∧ UdtSocket.status s = Connected
  ∧ lookup (registered l ls m t id hs s u) = Some (length (Udt.heap u)).
Proof.
  intros u id config lookup Hu Hl Hmux Hm Hnone Hq Hmss Hsend.
  destruct (register_connection_value l peer hs w ls mux m Hl Hmux Hm Hq Hmss Hsend)
    as (s & n & t & E & Hs & Hst).
  unfold new_connection. run. fold u lookup. rewrite Hnone. exists s, n, t.
  split_and!; [exact E|done..|]. by eapply registered_peer.
Qed.

(** A handshake that repeats one whose connection exists and is not broken creates
    nothing: the registry is unchanged, and the answer carries the identifier, the
    initial sequence number and the configured sizes of the existing socket. *)
Theorem repeated_handshake l peer hs w r s mux :
  Udt.get_peer_socket peer (HandShakeInfo.socket_id hs) (HandShakeInfo.initial_seq_number hs) (sock w) = Some r →
  Udt.heap (sock w) !! r = Some s → UdtSocket.status s ≠ Broken → UdtSocket.multiplexer s = Some mux →
  let answer := UdtControlPacket.new_handshake
    (HandShakeInfo.mk (HandShakeInfo.udt_version hs) (HandShakeInfo.socket_type hs)
       (UdtSocket.initial_seq_number s) (UdtConfiguration.mss (UdtSocket.configuration s))
       (UdtConfiguration.flight_flag_size (UdtSocket.configuration s)) (-1) (UdtSocket.socket_id s)
       (HandShakeInfo.syn_cookie hs) (HandShakeInfo.ip_address hs))
    (HandShakeInfo.socket_id hs) in
  let r := new_connection l peer hs w in
  r.1 = match send_result (length (trace w)) with Some e => Err e | None => Ok () end
  ∧ sock r.2 = sock w ∧ trace r.2 = trace w ++ [SendTo peer (Control answer)].
Proof.
  intros Hr Hs Hst Hmux answer. simpl. unfold new_connection, answer_again, deref. run. rewrite Hr. run.
  rewrite Hs. run. rewrite bool_decide_eq_false_2 by done. run. rewrite Hs. run.
  erewrite (on_value r _ w s _ s (ticks w) [SendTo peer (Control answer)]); [|done|].
  - simpl. rewrite absorb_send. split; [done|]. split; [|done].
    rewrite list_insert_id by done. by destruct (sock w).
  - unfold send_to, mux_send_to, udp_send. run. rewrite Hmux. run. cbn [UdtPacket.serialize]. run.
    by destruct (send_result _).
Qed.

(** ** Accepting *)

(** A change of the queue of a listener is not seen by the lookups. *)
Lemma get_socket_requeued l ls q id u : Udt.heap u !! l = Some ls →
  Udt.get_socket id (Udt.set_heap (<[l := UdtSocket.set_queued q ls]> (Udt.heap u)) u) = Udt.get_socket id u.
Proof.
  intros Hl. unfold Udt.get_socket, Udt.has_status. simpl. destruct (BTreeMap.get id _) as [r|]; [|done].
  destruct (decide (r = l)) as [->|]; [|by rewrite list_lookup_insert_ne].
  by rewrite Hl, list_lookup_insert_eq by (by eapply lookup_lt_Some).
Qed.

(** C32. [accept] waits exactly when the queue of the listener is empty; otherwise it takes
    the least identifier of the queue, which is the newest connection since identifiers
    are allotted downwards, and returns that socket with its peer's address; if the
    socket has been closed in the meantime, [accept] fails although others may be
    waiting. *)
Theorem accept_takes_least l w ls :
  udt_wf (sock w) → Udt.heap (sock w) !! l = Some ls → UdtConfiguration.rendezvous (UdtSocket.configuration ls) = false →
  UdtSocket.status ls = Listening → BTreeMap.sorted (UdtSocket.queued_sockets ls) →
  match UdtSocket.queued_sockets ls with
  | [] => UdtListener.accept l w = (Ok None, w)
  | (id, _) :: rest =>
      let r := UdtListener.accept l w in
      sock r.2 = Udt.set_heap (<[l := UdtSocket.set_queued rest ls]> (Udt.heap (sock w))) (sock w)
      ∧ (∀ e, e ∈ rest → id < e.1)
      ∧ r.1 = match Udt.get_socket id (sock w) with
              | Some a => match Udt.heap (sock w) !! a ≫= UdtSocket.peer_addr with
                          | Some addr => Ok (Some (addr, a))
                          | None => Err Other
                          end
              | None => Err Other
              end
  end.
Proof.
  intros Hu Hl Hrdv Hst Hq. unfold UdtListener.accept, UdtListener.accept_turn, deref. run. rewrite Hl. run.
  rewrite Hrdv. run. rewrite Hl. run. rewrite bool_decide_eq_true_2 by done. cbn [negb].
  destruct (UdtSocket.queued_sockets ls) as [|[id []] rest] eqn:Eq; run; [done|].
  unfold dequeue. rewrite (on_modify l _ _ ls Hl). run. rewrite Eq.
  assert (∀ e, e ∈ rest → id < e.1) as Hlt.
  { intros e He. inversion Hq as [|? ? _ Hall]. rewrite Forall_forall in Hall. by apply (Hall e). }
  assert (BTreeMap.remove id ((id, ()) :: rest) = rest) as ->.
  { unfold BTreeMap.remove. rewrite filter_cons_False by (simpl; auto). apply filter_all.
    intros e He. specialize (Hlt e He). lia. }
  rewrite (get_socket_requeued l ls rest id (sock w) Hl).
  destruct (Udt.get_socket id (sock w)) as [a|] eqn:Ha; run; [|done].
  destruct (decide (a = l)) as [->|Hne].
  - simpl. rewrite list_lookup_insert_eq by (by eapply lookup_lt_Some). rewrite Hl. run. simpl.
    by destruct (UdtSocket.peer_addr ls).
  - destruct (get_socket_named id a _ Hu Ha) as (s & Hs & _).
    simpl. rewrite list_lookup_insert_ne, Hs by done. run. simpl. by destruct (UdtSocket.peer_addr s).
Qed.

(** ** Trying several addresses *)

Lemma heap_absorb_all r now u es : Udt.heap (foldl (Udt.absorb r now) u es) = Udt.heap u.
Proof. revert u. induction es as [|e es IH]; intros u; [done|]. simpl. by rewrite IH, heap_absorb. Qed.

(** The socket at [r] has left its initial status. *)
Definition started (r : nat) (u : Udt.t) : Prop :=
  ∃ s, Udt.heap u !! r = Some s ∧ UdtSocket.status s ≠ Init.

Definition stays_started (s s' : UdtSocket.t) : Prop :=
  UdtSocket.status s ≠ Init → UdtSocket.status s' ≠ Init.

#[export] Instance stays_started_preorder : PreOrder stays_started.
Proof. split; [by intros ? ?|]. unfold stays_started. auto. Qed.

Lemma started_on {A} r r' (m : SM A) w : all_steps stays_started m → started r (sock w) →
  started r (sock (on r' m w).2).
Proof.
  intros Hm (s & Hs & Hst). unfold started, on. destruct (Udt.heap (sock w) !! r') as [s'|] eqn:Hs'; [|by exists s].
  specialize (Hm (World s' (ticks w) (trace w))). destruct (m _) as [o w']. simpl in *.
  rewrite heap_absorb_all. simpl. destruct (decide (r = r')) as [<-|].
  - exists (sock w'). rewrite list_lookup_insert_eq by (by eapply lookup_lt_Some).
    split; [done|]. apply Hm. congruence.
  - exists s. by rewrite list_lookup_insert_ne.
Qed.

Lemma started_connect_start r w s : Udt.heap (sock w) !! r = Some s →
  started r (sock (on r connect_start w).2).
Proof.
  intros Hs. unfold started, on, connect_start. rewrite Hs. run.
  destruct (decide (UdtSocket.status s = Init)) as [E|E];
    [rewrite bool_decide_eq_true_2 by done|rewrite bool_decide_eq_false_2 by done]; run;
    rewrite heap_absorb_all; simpl; rewrite list_lookup_insert_eq by (by eapply lookup_lt_Some).
  - by exists (UdtSocket.open s).
  - by exists s.
Qed.

Lemma set_peer_addr_started addr s s' : UdtSocket.set_peer_addr addr s = Ok s' → stays_started s s'.
Proof.
  intros Hs. apply bind_is_Ok in Hs as (? & _ & Hs). apply (inj Ok) in Hs as <-. by intros Hst.
Qed.

Lemma started_connect_request addr : all_steps stays_started (connect_request addr).
Proof.
  unfold connect_request, set_status, send_to. steps; eauto using set_peer_addr_started.
  by unfold stays_started.
Qed.

Lemma started_update_mux r r' bind_addr w : started r (sock w) → started r (sock (update_mux r' bind_addr w).2).
Proof.
  intros Hr. unfold update_mux, deref, create_mux, set_multiplexer. run.
  destruct (Udt.heap (sock w) !! r') as [s|]; run; [|done].
  assert (∀ mux w', started r (sock w') → started r (sock (on r' (modify (UdtSocket.set_multiplexer mux)) w').2)) as Hm.
  { intros mux w'. apply started_on. apply steps_modify. by intros ? ?. }
  destruct (shared_mux _ _ _) as [mux|]; [by apply Hm|]. run.
  destruct (udp_port _ _); run; [|done..]. by apply Hm.
Qed.

Lemma started_connect r addr bind_addr w s : Udt.heap (sock w) !! r = Some s →
  started r (sock (connect r addr bind_addr w).2).
Proof.
  intros Hs. apply started_connect_start in Hs as Hr. unfold connect. run.
  destruct (on r connect_start w) as [[[]| |] w1]; [|done..]. simpl in Hr. run.
  apply (started_update_mux r r bind_addr) in Hr.
  destruct (update_mux r bind_addr w1) as [[[]| |] w2]; [|done..].
  apply started_on; [apply started_connect_request|done].
Qed.

(** A socket that has started cannot connect. *)
Lemma connect_started r addr bind_addr w : started r (sock w) →
  ∃ n, connect r addr bind_addr w = (Err Unsupported, World (sock w) n (trace w)).
Proof.
  intros (s & Hs & Hst). exists (S (ticks w)). unfold connect. run.
  erewrite (on_value r connect_start w s (Err Unsupported) s (ticks w) []); [|done|].
  - run. rewrite app_nil_r, list_insert_id by done. simpl.
    by destruct (sock w).
  - unfold connect_start. run. rewrite bool_decide_eq_false_2 by done. simpl. run. by rewrite app_nil_r.
Qed.

(** When a host name resolves to several addresses, only the first one is ever tried:
    the attempt that fails leaves the socket started, so that every other address fails
    at once with [Unsupported], without a packet, and that is the error reported. *)
Theorem only_first_address r bind_addr addr other rest e w w1 s :
  Udt.heap (sock w) !! r = Some s → connect r addr bind_addr w = (Err e, w1) →
  ∃ n, UdtConnection.try_addresses r bind_addr (addr :: other :: rest) None w =
    (Err Unsupported, World (sock w1) n (trace w1)).
Proof.
  intros Hs Hc. pose proof (started_connect r addr bind_addr w s Hs) as Hst. rewrite Hc in Hst. simpl in Hst.
  assert (∀ addrs w1 last, started r (sock w1) → addrs ≠ [] ∨ last = Some Unsupported →
    ∃ n, UdtConnection.try_addresses r bind_addr addrs last w1 =
      (Err Unsupported, World (sock w1) n (trace w1))) as Htry.
  { clear. induction addrs as [|a addrs IH]; intros w1 last Hst Hlast.
    - destruct Hlast as [?| ->]; [done|]. exists (ticks w1). by destruct w1.
    - cbn [UdtConnection.try_addresses]. run. unfold UdtConnection.try at 1.
      destruct (connect_started r a bind_addr w1 Hst) as (n & ->).
      destruct (IH (World (sock w1) n (trace w1)) (Some Unsupported) Hst) as (n' & E); [by right|].
      exists n'. exact E. }
  destruct (Htry (other :: rest) w1 (Some e) Hst) as (n & E); [by left|]. exists n.
  cbn [UdtConnection.try_addresses] in *. rewrite bind_run. unfold UdtConnection.try at 1. rewrite Hc. exact E.
Qed.

(** ** The waits of a connection *)

(** The wait of [connect] ends, with success, as soon as the status has changed: also when
    the connection is broken or has been closed. *)
Theorem connect_ends r wait waits w w1 s s1 :
  Udt.heap (sock w) !! r = Some s → UdtSocket.status s = Connecting →
  wait (World (sock w) (S (ticks w)) (trace w)) = (Ok (), w1) →
  Udt.heap (sock w1) !! r = Some s1 → UdtSocket.status s1 ≠ Connecting →
  UdtConnection.await_connection r (wait :: waits) w = (Ok true, w1).
Proof.
  intros Hr Hs Hwait Hr1 Hs1. cbn [UdtConnection.await_connection]. rewrite bind_run.
  erewrite (on_value r must_wait_for_connection w s (Ok true) s (ticks w) []);
    [|done|unfold must_wait_for_connection; run; by rewrite Hs, app_nil_r].
  simpl. rewrite list_insert_id, app_nil_r by done.
  replace (Udt.set_heap (Udt.heap (sock w)) (sock w)) with (sock w) by (by destruct (sock w)).
  rewrite bind_run, Hwait. unfold deref. run. rewrite Hr1. run. by rewrite bool_decide_eq_false_2.
Qed.

(** [recv] waits once: if another reader has taken the data in the meantime it returns 0
    bytes, which its caller takes for the end of the stream. *)
Theorem recv_woken_for_nothing buf wait w w1 :
  let s := sock w in let s1 := sock w1 in
  UdtSocket.socket_type s = Stream → UdtSocket.status s = Connected → ReadBuf.remaining buf ≠ 0%nat →
  RcvBuffer.has_data_to_read (UdtSocket.rcv_buffer s) = Ok false →
  wait w = (Ok (), w1) → UdtSocket.status s1 = Connected →
  RcvBuffer.read_buffer buf (UdtSocket.rcv_buffer s1) = Ok (0, buf, UdtSocket.rcv_buffer s1) →
  UdtConnection.recv buf (Some wait) w = (Ok (Some 0, buf), w1).
Proof.
  intros s s1 Ht Hs Hroom Hdata Hwait Hs1 Hread. subst s s1.
  unfold UdtConnection.recv, recv_start, check_stream, check_readable, must_wait. run. rewrite Ht. simpl. run. rewrite Hs.
  simpl. rewrite (proj2 (Nat.eqb_neq _ _) Hroom). simpl. run. rewrite ?Hs. simpl. run. rewrite Hdata. run.
  rewrite Hwait. unfold recv_finish, check_readable, read_rcv_buffer. run. rewrite Hs1. simpl. run.
  rewrite Hread. run. destruct w1 as [[] ? ?]. reflexivity.
Qed.
End connections.

(** ** Witnesses *)

(** A listener whose queue holds the connections [q]. *)
Definition sample_listening (q : list (Z * unit)) : UdtSocket.t :=
  UdtSocket.set_queued q (UdtSocket.set_status Listening sample_socket).
Definition listening_udt (q : list (Z * unit)) : Udt.t :=
  Udt.mk [sample_listening q; sample_socket] [(1, 0%nat)] [(1, sample_mux)] 77 ∅.

Lemma listening_udt_wf q : udt_wf (listening_udt q).
Proof.
  destruct sample_udt_wf as [_ _ ? Hm]. split; [repeat constructor| |done|].
  - intros id r [= -> ->]%list_elem_of_singleton. by exists (sample_listening q).
  - intros id m Hin. destruct (Hm id m Hin) as [? [? _]]. split; [done|]. split; [done|].
    apply list_elem_of_singleton in Hin as [= -> ->]. by intros ? ? ?%not_elem_of_nil.
Qed.

Lemma new_connection_registers_witness :
  ∃ s n t, @new_connection true sample_env 0 sample_addr sample_handshake
      (World (listening_udt []) 10 []) =
    (Ok (), World (registered 0 (sample_listening []) sample_mux t 77 sample_handshake s (listening_udt [])) n
       [RcvQueuePushBack 77; SendTo sample_addr (handshake_answer UdtConfiguration.default 77 sample_addr sample_handshake);
        NotifyOne AcceptNotify])
  ∧ UdtSocket.status s = Connected.
Proof.
  destruct (@new_connection_registers true sample_env 0 sample_addr sample_handshake
    (World (listening_udt []) 10 []) (sample_listening []) 1 sample_mux) as (s & n & t & E & _ & Hs & _);
    [apply listening_udt_wf|by vm_compute..|]. exists s, n, t. split; [exact E|exact Hs].
Defined.

(** The same registry, the connection at address 1 being known to its peer as socket 2. *)
Definition connected_udt : Udt.t :=
  Udt.mk [sample_listening []; sample_socket] [(1, 1%nat)] [(1, sample_mux)] 77 {[(2, 100) := [(1, ())]]}.

Lemma repeated_handshake_witness :
  sock (@new_connection true sample_env 0 sample_addr sample_handshake
    (World connected_udt 10 [])).2 = connected_udt.
Proof.
  apply (@repeated_handshake true sample_env 0 sample_addr sample_handshake
    (World connected_udt 10 []) 1 sample_socket 1); by vm_compute.
Defined.

Lemma accept_takes_least_witness :
  let r := @UdtListener.accept sample_env 0 (World (listening_udt [(1, ()); (5, ())]) 10 []) in
  r.1 = Ok (Some (sample_addr, 0%nat)).
Proof.
  apply (@accept_takes_least sample_env 0 (World (listening_udt [(1, ()); (5, ())]) 10 [])
    (sample_listening [(1, ()); (5, ())])); [apply listening_udt_wf|done..|].
  repeat constructor.
Defined.

(** No port is free: the first address fails when its multiplexer is created. *)
Definition full_os : Os := {| udp_port _ _ := Err Other; random_isn _ := 100; held _ _ := false |}.

Definition fresh_udt : Udt.t :=
  Udt.mk [UdtSocket.new (@world.clock sample_env) 0 1 Stream (Some 100) None] [(1, 0%nat)] [] 77 ∅.

Lemma only_first_address_witness :
  ∃ n, @UdtConnection.try_addresses true sample_env full_os 0 None [sample_addr; sample_addr] None
    (World fresh_udt 10 []) = (Err Unsupported, World (Udt.set_heap (UdtSocket.open <$> Udt.heap fresh_udt) fresh_udt) n []).
Proof.
  refine (@only_first_address true sample_env full_os 0 None sample_addr sample_addr [] Other
    (World fresh_udt 10 []) (World (Udt.set_heap (UdtSocket.open <$> Udt.heap fresh_udt) fresh_udt) 11 []) _ _ _);
    vm_compute; reflexivity.
Defined.
