(* ===== verification/cleanup.v ===== *)
(** * The cleanup of closed connections ([src/udt.rs], the methods [garbage_collect_sockets]
    and [cleanup_worker])

    How a turn of the cleanup task changes the statuses and the registry, in whichever
    order the [close]s it spawns run, and that two turns reap every connection that is
    broken or closing. *)

From stdpp Require Import gmap.
From S2P Require Import prelude seq_number time data_packet control_packet packet.
From S2P Require Import btree_map loss_list ack_window rcv_buffer snd_buffer float flow.
From S2P Require Import configuration rate_control socket_state world socket rcv_queue udt.
From S2P Require Import samples socket_status listener rcv_worker registry delivery connections.

#[global] Open Scope Z_scope.

Section cleanup.
Context `{Profile} `{Env} `{FloatLib} `{Os}.

(** ** Statuses *)

Definition status_at (u : Udt.t) (r : nat) : option UdtStatus := UdtSocket.status <$> Udt.heap u !! r.

Lemma has_status_at v u r : Udt.has_status v u r = bool_decide (status_at u r = Some v).
Proof.
  unfold Udt.has_status, status_at. destruct (Udt.heap u !! r) as [s|]; simpl; [|done].
  apply bool_decide_ext. split; [by intros ->|by intros [= ->]].
Qed.

Lemma with_status_ext v u u' : Udt.sockets u' = Udt.sockets u → (∀ r, status_at u' r = status_at u r) →
  with_status v u' = with_status v u.
Proof.
  intros Hs Hst. unfold with_status. rewrite Hs. apply list_filter_iff. intros e.
  by rewrite !has_status_at, Hst.
Qed.

(** Every address of the list is a socket of the registry. *)
Definition valid_refs (u : Udt.t) (l : list (Z * nat)) : Prop := ∀ e, e ∈ l → is_Some (Udt.heap u !! e.2).

(** The index of peers is as it was and nothing was sent. *)
Definition silent (e : event) : Prop := match e with SendTo _ _ => False | _ => True end.
Definition frame (w w' : world Udt.t) : Prop :=
  Udt.peers (sock w') = Udt.peers (sock w) ∧ ∃ evs, trace w' = trace w ++ evs ∧ Forall silent evs.

#[local] Instance frame_preorder : PreOrder frame.
Proof.
  split.
  - intros w. split; [done|]. exists []. by rewrite app_nil_r.
  - intros w1 w2 w3 [E1 (e1 & T1 & F1)] [E2 (e2 & T2 & F2)]. split; [congruence|].
    exists (e1 ++ e2). rewrite T2, T1, <- app_assoc. split; [done|]. by apply Forall_app.
Qed.

Lemma frame_same w w' : Udt.peers (sock w') = Udt.peers (sock w) → trace w' = trace w → frame w w'.
Proof. intros E1 E2. split; [done|]. exists []. by rewrite app_nil_r. Qed.

Lemma on_status f r w : (∀ s, UdtSocket.status (f s) = UdtSocket.status s) → is_Some (Udt.heap (sock w) !! r) →
  ∃ w', on r (modify f) w = (Ok (), w') ∧ Udt.sockets (sock w') = Udt.sockets (sock w)
  ∧ (∀ r', status_at (sock w') r' = status_at (sock w) r') ∧ frame w w'.
Proof.
  intros Hf [s Hs]. eexists. split; [by apply on_modify|]. simpl. split_and!; [done| |by apply frame_same].
  intros r'. unfold status_at. simpl. destruct (decide (r' = r)) as [->|]; [|by rewrite list_lookup_insert_ne].
  rewrite Hs, list_lookup_insert_eq by (by eapply lookup_lt_Some). simpl. by rewrite Hf.
Qed.

Lemma status_valid u u' r : (∀ r, status_at u' r = status_at u r) → is_Some (Udt.heap u !! r) → is_Some (Udt.heap u' !! r).
Proof.
  intros Hst Hr. specialize (Hst r). unfold status_at in Hst.
  destruct Hr as [s Hs]. rewrite Hs in Hst. destruct (Udt.heap u' !! r); [by eexists|done].
Qed.

Lemma leave_queue_value r w : udt_wf (sock w) → is_Some (Udt.heap (sock w) !! r) →
  ∃ w', leave_queue r w = (Ok (), w') ∧ Udt.sockets (sock w') = Udt.sockets (sock w)
  ∧ (∀ r', status_at (sock w') r' = status_at (sock w) r') ∧ frame w w'.
Proof.
  intros Hu [s Hs]. unfold leave_queue, deref. run. rewrite Hs. run.
  destruct (UdtSocket.listen_socket s) as [lid|]; simpl; [|by exists w; split_and!].
  destruct (BTreeMap.get lid _) as [l|] eqn:Hl; [|by exists w; split_and!].
  apply on_status; [done|]. apply get_Some in Hl; [|apply Hu].
  by destruct (sockets_named _ Hu lid l Hl) as (? & -> & _).
Qed.

Lemma leave_queues_value l w : udt_wf (sock w) → valid_refs (sock w) l →
  ∃ w', foldr (λ e m, leave_queue e.2 ;; m) (mret ()) l w = (Ok (), w')
  ∧ Udt.sockets (sock w') = Udt.sockets (sock w)
  ∧ (∀ r', status_at (sock w') r' = status_at (sock w) r') ∧ frame w w'.
Proof.
  revert w. induction l as [|e l IH]; intros w Hu Hv; [by exists w; split_and!|]. simpl.
  destruct (leave_queue_value e.2 w Hu) as (w1 & E & Hs & Hst & Ht); [apply Hv; left|].
  assert (udt_wf (sock w1)) as Hu1.
  { pose proof (reg_leave_queue e.2 w) as [_ Hk]. rewrite E in Hk. auto. }
  run. rewrite E. destruct (IH w1 Hu1) as (w2 & E2 & Hs2 & Hst2 & Ht2).
  { intros e' He'. apply (status_valid (sock w)); [done|]. apply Hv. by right. }
  exists w2. split; [done|]. split_and!; [congruence| |by etransitivity]. intros r'. by rewrite Hst2.
Qed.

Lemma drop_socket_value e w s : Udt.heap (sock w) !! e.2 = Some s →
  drop_socket e w =
    (Ok (), World (Udt.set_heap (<[e.2 := UdtSocket.set_status Closed s]> (Udt.heap (sock w)))
                     (Udt.set_sockets (BTreeMap.remove e.1 (Udt.sockets (sock w))) (sock w)))
                  (S (ticks w)) (trace w)).
Proof. intros Hs. unfold drop_socket, set_status. run. by rewrite (on_modify e.2 _ _ s). Qed.

Lemma drop_sockets_value l w : valid_refs (sock w) l →
  ∃ w', foldr (λ e m, drop_socket e ;; m) (mret ()) l w = (Ok (), w')
  ∧ Udt.sockets (sock w') = filter (λ e, e.1 ∉ l.*1) (Udt.sockets (sock w))
  ∧ (∀ r, status_at (sock w') r = if bool_decide (r ∈ l.*2) then Some Closed else status_at (sock w) r)
  ∧ frame w w'.
Proof.
  revert w. induction l as [|e l IH]; intros w Hv.
  { exists w. split; [done|]. split_and!; [|done..]. symmetry. apply filter_all. set_solver. }
  destruct (Hv e) as [s Hs]; [left|]. cbn [foldr]. run. rewrite (drop_socket_value e w s Hs).
  set (w1 := World _ _ _). destruct (IH w1) as (w2 & -> & Hs2 & Hst2 & Ht2).
  { intros e' He'. unfold w1. simpl. destruct (decide (e'.2 = e.2)) as [->|].
    - rewrite list_lookup_insert_eq by (by eapply lookup_lt_Some). by eexists.
    - rewrite list_lookup_insert_ne by done. apply Hv. by right. }
  exists w2. split; [done|]. split_and!; [..|done].
  - rewrite Hs2. unfold w1. simpl. unfold BTreeMap.remove. rewrite list_filter_filter.
    apply list_filter_iff. intros x. rewrite elem_of_cons. naive_solver.
  - intros r. rewrite Hst2. unfold w1, status_at. simpl. destruct (decide (r ∈ l.*2)) as [Hin|Hin].
    + rewrite !bool_decide_eq_true_2 by (rewrite ?elem_of_cons; auto). done.
    + rewrite bool_decide_eq_false_2 by done. destruct (decide (r = e.2)) as [->|].
      * rewrite list_lookup_insert_eq by (by eapply lookup_lt_Some).
        by rewrite bool_decide_eq_true_2 by (left).
      * rewrite list_lookup_insert_ne by done. rewrite bool_decide_eq_false_2; [done|].
        rewrite elem_of_cons. tauto.
Qed.


(** ** The spawned [close]s *)

Lemma sockets_absorb_all r now u es : Udt.sockets (foldl (Udt.absorb r now) u es) = Udt.sockets u
  ∧ Udt.peers (foldl (Udt.absorb r now) u es) = Udt.peers u.
Proof.
  revert u. induction es as [|e es IH]; intros u; [done|]. simpl. destruct (IH (Udt.absorb r now u e)) as [-> ->].
  by destruct (absorb_put r now u e) as [->|(m & m' & -> & _)].
Qed.

(** The [close] of a broken socket does not wait and sends nothing; a closing one returns. *)
Lemma close_dead s n tr : UdtSocket.status s = Broken ∨ UdtSocket.status s = Closing →
  ∃ s' n' es, close [] (World s n tr) = (Ok (), World s' n' (tr ++ es))
  ∧ UdtSocket.status s' = Closing ∧ Forall silent es.
Proof.
  intros [Hs|Hs]; unfold close; run; rewrite Hs; simpl.
  2: { exists s, n, []. rewrite app_nil_r. split_and!; [done..|constructor]. }
  unfold lingers, close_finish, set_status, notify_all. run. rewrite Hs. cbn [bool_decide negb orb decide]. run. simpl. run.
  destruct (UdtSocket.multiplexer s); run; rewrite Hs; simpl; run; eexists _, _, _;
    unfold emit; cbn [sock ticks trace]; rewrite <- ?app_assoc;
    (split_and!; [reflexivity|done|repeat constructor]).
Qed.

Lemma on_close r w : status_at (sock w) r = Some Broken ∨ status_at (sock w) r = Some Closing →
  ∃ w', on r (close []) w = (Ok (), w') ∧ Udt.sockets (sock w') = Udt.sockets (sock w)
  ∧ (∀ r', status_at (sock w') r' = if decide (r' = r) then Some Closing else status_at (sock w) r')
  ∧ frame w w'.
Proof.
  unfold status_at at 1 2. destruct (Udt.heap (sock w) !! r) as [s|] eqn:Hr; [|naive_solver].
  simpl. intros Hs. destruct (close_dead s (ticks w) (trace w)) as (s' & n & es & E & Hs' & Hes); [naive_solver|].
  eexists. split; [by eapply on_value|]. simpl.
  match goal with |- context [foldl (Udt.absorb r ?t) ?u es] =>
    destruct (sockets_absorb_all r t u es) as [Es Ep]; pose proof (heap_absorb_all r t u es) as Eh end.
  split_and!; [done| |split; [done|by exists es]]. intros r'. unfold status_at. rewrite Eh. simpl.
  destruct (decide (r' = r)) as [->|]; [|by rewrite list_lookup_insert_ne].
  rewrite list_lookup_insert_eq by (by eapply lookup_lt_Some). simpl. by rewrite Hs'.
Qed.

Lemma run_closes_value l w :
  (∀ r, r ∈ l → status_at (sock w) r = Some Broken ∨ status_at (sock w) r = Some Closing) →
  ∃ w', run_closes l w = (Ok (), w') ∧ Udt.sockets (sock w') = Udt.sockets (sock w)
  ∧ (∀ r, status_at (sock w') r = if bool_decide (r ∈ l) then Some Closing else status_at (sock w) r)
  ∧ frame w w'.
Proof.
  revert w. induction l as [|a l IH]; intros w Hl; [by exists w; split_and!|].
  destruct (on_close a w) as (w1 & E & Hs & Hst & Hf); [apply Hl; left|].
  unfold run_closes. simpl. run. rewrite E. destruct (IH w1) as (w2 & E2 & Hs2 & Hst2 & Hf2).
  { intros r Hr. rewrite Hst. destruct (decide _); [by right|]. apply Hl. by right. }
  exists w2. split; [done|]. split_and!; [congruence| |by etransitivity]. intros r. rewrite Hst2, Hst.
  repeat case_bool_decide; destruct (decide (r = a)); set_solver.
Qed.

(** ** The halves of the collection *)

Lemma with_status_valid v u : udt_wf u → valid_refs u (with_status v u).
Proof.
  intros Hu [id r] [_ He]%list_elem_of_filter. destruct (sockets_named u Hu id r He) as (s & Hs & _). by exists s.
Qed.

Lemma elem_of_with_status v u r :
  r ∈ (with_status v u).*2 ↔ r ∈ (Udt.sockets u).*2 ∧ status_at u r = Some v.
Proof.
  rewrite !list_elem_of_fmap. unfold with_status. setoid_rewrite list_elem_of_filter.
  setoid_rewrite has_status_at. setoid_rewrite bool_decide_eq_true. naive_solver.
Qed.

Lemma collect_broken_value w : udt_wf (sock w) →
  ∃ w', collect_broken w = (Ok ((with_status Broken (sock w)).*2), w')
  ∧ Udt.sockets (sock w') = Udt.sockets (sock w)
  ∧ (∀ r, status_at (sock w') r = status_at (sock w) r) ∧ frame w w'.
Proof.
  intros Hu. unfold collect_broken. run.
  destruct (leave_queues_value (with_status Broken (sock w)) w Hu) as (w1 & -> & Hw1);
    [by apply with_status_valid|]. by exists w1.
Qed.

Lemma drop_closing_value w : udt_wf (sock w) →
  ∃ w', drop_closing w = (Ok (), w')
  ∧ Udt.sockets (sock w') = filter (λ e, status_at (sock w) e.2 ≠ Some Closing) (Udt.sockets (sock w))
  ∧ (∀ r, status_at (sock w') r =
       if bool_decide (r ∈ (with_status Closing (sock w)).*2) then Some Closed else status_at (sock w) r)
  ∧ frame w w'.
Proof.
  intros Hu. unfold drop_closing. run.
  destruct (drop_sockets_value (with_status Closing (sock w)) w) as (w2 & -> & Hs2 & Hw2);
    [by apply with_status_valid|]. exists w2. split; [done|]. split; [|done].
  rewrite Hs2. apply filter_congr. intros e He. unfold with_status. split.
  - intros Hno Hc. apply Hno, list_elem_of_fmap. exists e. split; [done|]. apply list_elem_of_filter.
    split; [|done]. by rewrite has_status_at, Hc.
  - intros Hc Hin. apply list_elem_of_fmap in Hin as (e' & E & [Hc' Hin']%list_elem_of_filter).
    assert (e' = e) as -> by (apply (sorted_unique (Udt.sockets (sock w))); [apply Hu|done..]).
    rewrite has_status_at in Hc'. by apply bool_decide_eq_true in Hc'.
Qed.

(** ** A turn of the cleanup task *)

(** What a turn makes of the status of a registered socket, and which sockets leave. *)
Definition aged (early : nat → bool) (r : nat) (v : UdtStatus) : UdtStatus :=
  match v with
  | Closing => Closed
  | Broken => if early r then Closed else Closing
  | v => v
  end.
Definition gone (early : nat → bool) (u : Udt.t) (r : nat) : Prop :=
  status_at u r = Some Closing ∨ status_at u r = Some Broken ∧ early r = true.

Lemma keeps_wf {A} (m : UM A) w a w' : all_steps reg_step m → m w = (Ok a, w') →
  udt_wf (sock w) → udt_wf (sock w').
Proof. intros Hm E. pose proof (Hm w) as [_ Hk]. by rewrite E in Hk. Qed.

Lemma cleanup_turn_value early w : udt_wf (sock w) →
  ∃ w', cleanup_turn early w = (Ok (), w')
  ∧ Udt.sockets (sock w') = filter (λ e, ¬ gone early (sock w) e.2) (Udt.sockets (sock w))
  ∧ (∀ r, status_at (sock w') r = if bool_decide (r ∈ (Udt.sockets (sock w)).*2)
       then aged early r <$> status_at (sock w) r else status_at (sock w) r)
  ∧ frame w w'.
Proof.
  intros Hu. unfold cleanup_turn. run. set (refs := (with_status Broken (sock w)).*2).
  destruct (collect_broken_value w Hu) as (w1 & E1 & Hs1 & Hst1 & Hf1). rewrite E1. run.
  assert (Hu1 : udt_wf (sock w1)) by (eapply keeps_wf; [apply reg_collect_broken|done|done]).
  assert (Hrefs : ∀ r, r ∈ refs ↔ r ∈ (Udt.sockets (sock w)).*2 ∧ status_at (sock w) r = Some Broken).
  { intros r. apply elem_of_with_status. }
  destruct (run_closes_value (filter (λ r, early r = true) refs) w1) as (w2 & E2 & Hs2 & Hst2 & Hf2).
  { intros r [_ [_ Hr]%Hrefs]%list_elem_of_filter. left. by rewrite Hst1. }
  fold refs. rewrite E2. run.
  assert (Hu2 : udt_wf (sock w2)) by (eapply keeps_wf; [apply reg_run_closes|done|done]).
  destruct (drop_closing_value w2 Hu2) as (w3 & E3 & Hs3 & Hst3 & Hf3). rewrite E3. run.
  destruct (run_closes_value (filter (λ r, early r = false) refs) w3) as (w4 & E4 & Hs4 & Hst4 & Hf4).
  { intros r [Hr1 Hr2]%list_elem_of_filter. pose proof Hr2 as [_ Hb]%Hrefs. left.
    rewrite Hst3, bool_decide_eq_false_2; rewrite ?elem_of_with_status, Hst2, bool_decide_eq_false_2, Hst1; 
      rewrite ?list_elem_of_filter; naive_solver congruence. }
  exists w4. split; [done|]. split_and!.
  - rewrite Hs4, Hs3, Hs2, Hs1. apply filter_congr. intros e He. rewrite Hst2, Hst1. unfold gone.
    assert (e.2 ∈ (Udt.sockets (sock w)).*2) by (by apply list_elem_of_fmap_2).
    case_bool_decide as Hb; rewrite list_elem_of_filter, Hrefs in Hb; naive_solver congruence.
  - intros r. rewrite Hst4, Hst3.
    assert (Hc : r ∈ (with_status Closing (sock w2)).*2 ↔ r ∈ (Udt.sockets (sock w)).*2 ∧ gone early (sock w) r).
    { rewrite elem_of_with_status, Hs2, Hs1, Hst2, Hst1. unfold gone.
      case_bool_decide as Hb; rewrite list_elem_of_filter, Hrefs in Hb; naive_solver congruence. }
    rewrite Hst2, Hst1. unfold gone in Hc. clear -Hc Hrefs.
    repeat case_bool_decide; rewrite ?list_elem_of_filter, ?Hrefs, ?Hc in *;
      destruct (status_at (sock w) r) as [[]|], (early r) eqn:Ee; simpl; rewrite ?Ee; naive_solver.
  - do 2 (etransitivity; [eassumption|]). by etransitivity.
Qed.

(** The collection alone is the turn whose [close]s all run after it. *)
Lemma cleanup_turn_late w :
  cleanup_turn (λ _, false) w = (refs ← garbage_collect_sockets; run_closes refs) w.
Proof.
  unfold cleanup_turn, garbage_collect_sockets. run.
  destruct (collect_broken w) as [[refs| |] w1]; [|done..].
  rewrite (filter_none (λ _, false = true)) by naive_solver. rewrite (filter_all (λ _, false = false)) by done.
  run. cbn [run_closes foldr]. run. by destruct (drop_closing w1) as [[[]| |] ?].
Qed.

Definition dead (u : Udt.t) (r : nat) : Prop := status_at u r = Some Broken ∨ status_at u r = Some Closing.

(** C31. Two turns of the cleanup task, in whichever order the [close]s that they spawn
    run, fail in no way and send nothing; every registered connection that was broken or
    closing is then closed and out of the registry, and nothing else leaves it or changes
    its status.  The index of peers keeps its entries. *)
Theorem cleanup_reaps early early' w :
  let u := sock w in
  udt_wf u →
  ∃ w', (cleanup_turn early ;; cleanup_turn early') w = (Ok (), w')
  ∧ Udt.sockets (sock w') = filter (λ e, ¬ dead u e.2) (Udt.sockets u)
  ∧ (∀ r, status_at (sock w') r =
       if bool_decide (r ∈ (Udt.sockets u).*2 ∧ dead u r) then Some Closed else status_at u r)
  ∧ frame w w'.
Proof.
  intros u Hu. run. destruct (cleanup_turn_value early w Hu) as (w1 & E1 & Hs1 & Hst1 & Hf1). rewrite E1.
  assert (Hu1 : udt_wf (sock w1)) by (eapply keeps_wf; [apply reg_cleanup_turn|done|done]).
  destruct (cleanup_turn_value early' w1 Hu1) as (w2 & E2 & Hs2 & Hst2 & Hf2). rewrite E2.
  exists w2. split; [done|]. fold u in Hs1, Hst1. split_and!; [| |by etransitivity].
  - rewrite Hs2, Hs1, list_filter_filter. apply filter_congr. intros e He.
    assert (e.2 ∈ (Udt.sockets u).*2) by (by apply list_elem_of_fmap_2).
    unfold gone, dead. rewrite Hst1, bool_decide_eq_true_2 by done.
    clear. destruct (status_at u e.2) as [[]|], (early e.2) eqn:Ee; simpl; rewrite ?Ee; naive_solver.
  - intros r. rewrite Hst2, Hst1.
    assert (Hr : r ∈ (Udt.sockets (sock w1)).*2 ↔ r ∈ (Udt.sockets u).*2 ∧ ¬ gone early u r).
    { rewrite Hs1, !list_elem_of_fmap. setoid_rewrite list_elem_of_filter. naive_solver. }
    rewrite (bool_decide_ext _ _ Hr). unfold gone, dead. clear.
    destruct (decide (r ∈ (Udt.sockets u).*2)); [rewrite (bool_decide_eq_true_2 (r ∈ _)) by done|
      rewrite (bool_decide_eq_false_2 (r ∈ _)) by done];
      destruct (status_at u r) as [[]|], (early r) eqn:Ee; simpl; rewrite ?Ee; repeat case_bool_decide; naive_solver.
Qed.

(** While a socket is [Closing], which lasts until the next garbage collection,
    [poll_shutdown] is pending and the [close] it spawns returns at once: the task that
    shuts the connection down is woken immediately, again and again. *)
Theorem shutdown_spins s n tr waits : UdtSocket.status s = Closing →
  UdtConnection.poll_shutdown (World s n tr) = (Ok UdtConnection.WaitForClose, World s n tr)
  ∧ close waits (World s n tr) = (Ok (), World s n tr).
Proof.
  intros Hs. unfold UdtConnection.poll_shutdown, close. run. rewrite Hs. done.
Qed.
End cleanup.

(** ** Witnesses *)

(** A broken connection, a closing one and a live one. *)
Definition mixed_udt : Udt.t :=
  Udt.mk [UdtSocket.set_status Broken sample_socket;
          UdtSocket.set_status Closing (UdtSocket.new (@clock sample_env) 0 2 Stream (Some 100) None);
          UdtSocket.new (@clock sample_env) 0 3 Stream (Some 100) None]
    [(1, 0%nat); (2, 1%nat); (3, 2%nat)] [] 77 ∅.

Lemma shutdown_spins_witness :
  @close true sample_env [] (World (UdtSocket.set_status Closing sample_socket) 10 [])
  = (Ok (), World (UdtSocket.set_status Closing sample_socket) 10 []).
Proof. by apply (@shutdown_spins true sample_env (UdtSocket.set_status Closing sample_socket) 10 []). Defined.

Lemma mixed_udt_wf : udt_wf mixed_udt.
Proof.
  split; [repeat constructor; lia| |constructor|by intros ? ? ?%not_elem_of_nil].
  intros id r Hin. repeat apply elem_of_cons in Hin as [[= -> ->]|Hin]; try by eexists.
  by apply not_elem_of_nil in Hin.
Qed.

Lemma cleanup_reaps_witness :
  ∃ w', (@cleanup_turn true sample_env (λ _, false) ;; @cleanup_turn true sample_env (λ _, true))
    (World mixed_udt 10 []) = (Ok (), w')
  ∧ Udt.sockets (sock w') = [(3, 2%nat)] ∧ status_at (sock w') 0 = Some Closed.
Proof.
  destruct (@cleanup_reaps true sample_env (λ _, false) (λ _, true) (World mixed_udt 10 []) mixed_udt_wf)
    as (w' & E & Hs & Hst & _).
  exists w'. split; [exact E|]. split; [rewrite Hs|rewrite Hst]; vm_compute; reflexivity.
Defined.
