(* ===== verification/stream_invariant.v ===== *)
(** * The invariant of a connection

    The two ends of a connection, one socket at a time: [own] is every block that the
    application of the socket has written, [peer] every block that the other end has
    written, both from the initial sequence number on.  The invariant [connection_inv]
    says that the send buffer is the end of [own], that the receive buffer holds blocks of
    [peer] under their own numbers, and that every packet sent so far tells the truth.  The methods
    that touch none of this are [quiet]. *)

From S2P Require Import prelude seq_number time data_packet control_packet packet.
From S2P Require Import btree_map loss_list ack_window rcv_buffer snd_buffer float flow.
From S2P Require Import configuration rate_control socket_state world socket samples.
From S2P Require Import socket_sender socket_receiver socket_status.

(** The field of the sending side, next to those of [socket_receiver]. *)
Notation first_kept s := (SocketState.last_data_ack_processed (UdtSocket.state s)).
Notation curr_snd s := (SocketState.curr_snd_seq_number (UdtSocket.state s)).
Notation last_acked s := (SocketState.last_ack_received (UdtSocket.state s)).
Notation snd_losses s := (SocketState.snd_loss_list (UdtSocket.state s)).
Notation position s := (SndBuffer.current_position (UdtSocket.snd_buffer s)).
Notation to_read s := (RcvBuffer.next_to_read (UdtSocket.rcv_buffer s)).
Notation seq_of p := (UdtDataPacketHeader.seq_number (UdtDataPacket.header p)).

(** The blocks written so far keep away from the wrap-around point. *)
Definition fits (isn : Z) (blocks : list SndBufferBlock.t) : Prop :=
  1 < isn ∧ isn + len blocks < SEQ_MAX ∧ len blocks + 1 < 2 ^ 30.

(** A packet carries the block of its number. *)
Definition authentic (isn : Z) (blocks : list SndBufferBlock.t) (p : UdtDataPacket.t) : Prop :=
  isn <= seq_of p ∧ ∃ block, blocks !! Z.to_nat (seq_of p - isn) = Some block
    ∧ UdtDataPacket.data p = SndBufferBlock.data block.

Lemma authentic_app isn blocks more p : authentic isn blocks p → authentic isn (blocks ++ more) p.
Proof.
  intros [? (block & Hb & ?)]. split; [done|]. exists block. split; [|done]. by apply lookup_app_l_Some.
Qed.

Lemma authentic_bound isn blocks p : authentic isn blocks p → seq_of p < isn + len blocks.
Proof. intros [? (block & Hb%lookup_lt_Some & _)]. unfold len. lia. Qed.

(** The words of a loss report: valid numbers, and valid ends of intervals. *)
Fixpoint nak_ok (words : list Z) : Prop :=
  match words with
  | [] => True
  | word :: rest =>
      if negb (Z.land word 2147483648 =? 0) then
        match rest with
        | last :: rest => valid last ∧ nak_ok rest
        | [] => True
        end
      else valid word ∧ nak_ok rest
  end.

(** The control packets that an end may send: an acknowledgement covers what has arrived,
    a full one what has been handed to the application; no message is withdrawn. *)
Definition control_ok (isn : Z) (s : UdtSocket.t) (c : UdtControlPacket.t) : Prop :=
  match UdtControlPacket.packet_type c with
  | Ack a => isn - 1 <= AckInfo.next_seq_number a
      ∧ AckInfo.next_seq_number a <= (match AckInfo.info a with Some _ => acked_to s | None => curr_rcv s + 1 end)
  | Nak n => nak_ok (NakInfo.loss_info n)
  | MsgDropRequest _ => False
  | _ => True
  end.

Definition packet_ok (isn : Z) (own : list SndBufferBlock.t) (s : UdtSocket.t) (p : UdtPacket) : Prop :=
  match p with
  | Data d => authentic isn own d ∧ seq_of d <= curr_snd s
  | Control c => control_ok isn s c
  end.

Definition event_ok isn own s (e : event) : Prop :=
  match e with SendTo _ p => packet_ok isn own s p | _ => True end.

(** ** The two sides *)

(** Nothing from [cap] on has been released. *)
Record sending (isn : Z) (own : list SndBufferBlock.t) (cap : Z) (s : UdtSocket.t) : Prop := {
  sg_inv : snd_inv s;
  sg_acked : first_kept s <= last_acked s <= first_kept s + position s;
  sg_first : isn <= first_kept s <= isn + len own;
  sg_released : first_kept s <= cap;
  sg_buffer : SndBuffer.buffer (UdtSocket.snd_buffer s) = drop (Z.to_nat (first_kept s - isn)) own;
  sg_ttl : Forall (λ b, SndBufferBlock.ttl b = None) own;
  sg_mux : is_Some (UdtSocket.multiplexer s);
  sg_status : UdtSocket.status s ≠ Connecting
}.

(** What the application can read is whole; nothing after [limit] has been sent. *)
Record reading (isn : Z) (peer : list SndBufferBlock.t) (limit : Z) (s : UdtSocket.t) : Prop := {
  rd_buffer : rcv_wf (UdtSocket.rcv_buffer s);
  rd_range : isn <= to_read s <= acked_to s;
  rd_authentic k p : (k, p) ∈ RcvBuffer.packets (UdtSocket.rcv_buffer s) → authentic isn peer p;
  rd_complete x : to_read s <= x < acked_to s → received s x;
  rd_sent : isn - 1 <= sent_ack s <= acked_to s ∧ acked_to s <= curr_rcv s + 1;
  rd_limit : curr_rcv s <= limit
}.

(** What has been said stays true as the socket advances. *)
Definition advances (s s' : UdtSocket.t) : Prop :=
  curr_snd s <= curr_snd s' ∧ acked_to s <= acked_to s' ∧ curr_rcv s <= curr_rcv s'.

#[export] Instance advances_preorder : PreOrder advances.
Proof. split; unfold advances; [intros s|intros s1 s2 s3]; lia. Qed.

(** [live]: the receiving worker is running, and its view of what has arrived is exact.
    [base] is an earlier state of the socket. *)
Record connection_inv (isn : Z) (own peer : list SndBufferBlock.t) (limit cap : Z) (live : bool)
    (base : UdtSocket.t) (w : world UdtSocket.t) : Prop := {
  ci_sending : sending isn own cap (sock w);
  ci_reading : reading isn peer limit (sock w);
  ci_receiving : live = true → rcv_inv (sock w);
  ci_trace : Forall (event_ok isn own (sock w)) (trace w);
  ci_base : advances base (sock w)
}.

Lemma packet_ok_mono isn own more s s' p :
  advances s s' → packet_ok isn own s p → packet_ok isn (own ++ more) s' p.
Proof.
  intros (? & ? & ?). destruct p as [c|d]; simpl.
  - unfold control_ok. destruct (UdtControlPacket.packet_type c); try done.
    destruct (AckInfo.info a); lia.
  - intros [? ?]. split; [by apply authentic_app|lia].
Qed.

Lemma trace_mono isn own more s s' tr :
  advances s s' → Forall (event_ok isn own s) tr → Forall (event_ok isn (own ++ more) s') tr.
Proof.
  intros Ha Ht. eapply Forall_impl; [exact Ht|]. intros [addr p| | | | | |] Hp; try done. by apply (packet_ok_mono _ _ _ s).
Qed.

(** ** Quiet methods *)

Definition plain (p : UdtPacket) : Prop :=
  match p with
  | Data _ => False
  | Control c => match UdtControlPacket.packet_type c with
                 | Ack _ | Nak _ | MsgDropRequest _ => False
                 | _ => True
                 end
  end.
Definition plain_event (e : event) : Prop := match e with SendTo _ p => plain p | _ => True end.

Definition same_stream (s s' : UdtSocket.t) : Prop :=
  same_sender s s' ∧ UdtSocket.rcv_buffer s' = UdtSocket.rcv_buffer s ∧ sent_ack s' = sent_ack s
  ∧ curr_rcv s' = curr_rcv s ∧ rcv_losses s' = rcv_losses s
  ∧ UdtSocket.multiplexer s' = UdtSocket.multiplexer s
  ∧ (UdtSocket.status s ≠ Connecting → UdtSocket.status s' ≠ Connecting).

#[export] Instance same_stream_preorder : PreOrder same_stream.
Proof.
  split; [by intros s; split_and!|]. intros s1 s2 s3 (?&?&?&?&?&?&?) (?&?&?&?&?&?&?).
  unfold same_stream. split_and!; [by etransitivity|congruence..|auto].
Qed.

Notation quiet := (evolves same_stream plain_event).

Lemma plain_ok isn own s e : plain_event e → event_ok isn own s e.
Proof.
  destruct e as [addr [c|d]| | | | | |]; simpl; try done. unfold control_ok.
  by destruct (UdtControlPacket.packet_type c).
Qed.

Lemma same_stream_sending isn own cap s s' : same_stream s s' → sending isn own cap s → sending isn own cap s'.
Proof.
  intros (Hs & _ & _ & _ & _ & Hm & Hst) [Hi Ha Hf Hcap Hb Ht Hmux Hc].
  pose proof (same_sender_inv _ _ Hs Hi). destruct Hs as (E1 & E2 & E3 & E4 & E5).
  split; rewrite ?E1, ?E2, ?E4, ?Hm; auto.
Qed.

Lemma same_stream_received s s' x : same_stream s s' → received s' x ↔ received s x.
Proof. intros (_ & E & _). unfold received. by rewrite E. Qed.

Lemma same_stream_reading isn peer limit s s' :
  same_stream s s' → reading isn peer limit s → reading isn peer limit s'.
Proof.
  intros Hs [Hw Hr Ha Hc Hsent Hl]. pose proof (λ x, same_stream_received s s' x Hs) as Hrec.
  destruct Hs as (_ & Eb & Es & Ec & El & _ & _).
  split; rewrite ?Eb, ?Es, ?Ec; try done. intros x Hx. rewrite Hrec. auto.
Qed.

Lemma same_stream_receiving s s' : same_stream s s' → rcv_inv s → rcv_inv s'.
Proof.
  intros Hs [? ? ? ? ? ? ? Hr]. pose proof (λ x, same_stream_received s s' x Hs) as Hrec.
  destruct Hs as (_ & Eb & Es & Ec & El & _ & _).
  split; rewrite ?Eb, ?Es, ?Ec, ?El; try done. intros x Hx. rewrite Hrec. auto.
Qed.

Lemma same_stream_advances s s' : same_stream s s' → advances s s'.
Proof. intros ((_ & _ & E & _) & Eb & _ & Ec & _). unfold advances. rewrite E, Eb, Ec. lia. Qed.

(** Events that are true may be added, as the socket advances. *)
Lemma trace_extend isn own s s' tr evs :
  advances s s' → Forall (event_ok isn own s) tr → Forall (event_ok isn own s') evs →
  Forall (event_ok isn own s') (tr ++ evs).
Proof.
  intros Ha Ht He. apply Forall_app. split; [|done]. rewrite <- (app_nil_r own). by apply (trace_mono _ _ _ s).
Qed.

Lemma quiet_inv isn own peer limit cap live base w w' : quiet w w' →
  connection_inv isn own peer limit cap live base w → connection_inv isn own peer limit cap live base w'.
Proof.
  intros [Hs (evs & Et & He)] [? ? ? ? ?]. pose proof (same_stream_advances _ _ Hs).
  split; eauto using same_stream_sending, same_stream_reading, same_stream_receiving; [|by etransitivity].
  rewrite Et. apply (trace_extend _ _ (sock w)); [done|done|].
  eapply Forall_impl; [done|]. intros. by apply plain_ok.
Qed.

(** *** The primitives *)

Create HintDb quiet discriminated.
#[export] Hint Extern 1 (plain _) => exact I : quiet.
#[export] Hint Extern 1 (plain_event _) => exact I : quiet.

Ltac same_fields :=
  intros; repeat match goal with
  | H : _ ≫= _ = Ok _ |- _ => apply bind_is_Ok in H as (? & ? & H); cbv beta in H
  | H : Ok _ = Ok _ |- _ => apply (inj Ok) in H; subst
  end; unfold same_stream, same_sender; simpl; repeat case_match; split_and!; (done || congruence).

(** Proves that a method is quiet by going through its body. *)
Ltac quietly := evolve ltac:(idtac; same_fields) ltac:(idtac; eauto with quiet).

(** *** The methods *)

Section methods.
Context `{Profile} `{Env} `{FloatLib}.
Local Notation is_quiet m := (all_runs quiet m).

Lemma quiet_diff a b : is_quiet (diff a b).
Proof. apply evolves_lift, _. Qed.
#[local] Hint Resolve quiet_diff : quiet.

Lemma quiet_send_to addr p : plain p → is_quiet (send_to addr p).
Proof. intros. unfold send_to. quietly. Qed.
#[local] Hint Resolve quiet_send_to : quiet.
Lemma quiet_send_packet p : plain p → is_quiet (send_packet p).
Proof. intros. unfold send_packet. quietly. Qed.
Lemma quiet_update_snd_queue b : is_quiet (update_snd_queue b).
Proof. unfold update_snd_queue. quietly. Qed.
Lemma quiet_notify_all : is_quiet notify_all.
Proof. unfold notify_all. quietly. Qed.
Lemma quiet_cc_update : is_quiet cc_update.
Proof. unfold cc_update. unfold_access. quietly. Qed.
Lemma quiet_set_status v : v ≠ Connecting → is_quiet (set_status v).
Proof. intros. unfold set_status. quietly. Qed.
#[local] Hint Resolve quiet_send_packet quiet_update_snd_queue quiet_notify_all quiet_cc_update : quiet.
#[local] Hint Extern 3 (all_runs quiet (set_status _)) => by apply quiet_set_status : quiet.

Lemma quiet_send_ack2 n : is_quiet (send_ack2 n).
Proof. unfold send_ack2. unfold_access. quietly. Qed.
Lemma quiet_on_ack2 c : is_quiet (on_ack2 c).
Proof. unfold on_ack2. unfold_access. quietly. Qed.
Lemma quiet_ack_statistics n extra : is_quiet (ack_statistics n extra).
Proof. unfold ack_statistics. unfold_access. quietly. Qed.
Lemma quiet_record_arrival t n : is_quiet (record_arrival t n).
Proof. unfold record_arrival. unfold_access. quietly. Qed.
Lemma quiet_ack_info : is_quiet ack_info.
Proof. unfold ack_info. unfold_access. quietly. Qed.
Lemma quiet_reset_pacing t : is_quiet (reset_pacing t).
Proof. unfold reset_pacing. unfold_access. quietly. Qed.
Lemma quiet_pace t n : is_quiet (pace t n).
Proof. unfold pace. unfold_access. quietly. Qed.
Lemma quiet_close_finish : is_quiet close_finish.
Proof. unfold close_finish. quietly. Qed.
End methods.

#[export] Hint Resolve quiet_diff quiet_send_to quiet_send_packet quiet_update_snd_queue quiet_notify_all
  quiet_cc_update quiet_send_ack2 quiet_on_ack2 quiet_ack_statistics quiet_record_arrival quiet_ack_info
  quiet_reset_pacing quiet_pace quiet_close_finish : quiet.
#[export] Hint Extern 3 (all_runs quiet (set_status _)) => by apply quiet_set_status : quiet.
