(* ===== verification/stream_sender.v ===== *)
(** * The sending side of a connection

    Every method that touches the sending side keeps the invariant of the connection, and
    the packets it prepares carry the blocks of their numbers, whatever the state, however
    it ends. *)

From S2P Require Import prelude seq_number time data_packet control_packet packet.
From S2P Require Import btree_map loss_list ack_window rcv_buffer snd_buffer float flow.
From S2P Require Import configuration rate_control socket_state world socket samples.
From S2P Require Import socket_sender socket_receiver socket_status stream_invariant.

#[local] Arguments GenericSeqNumber.sub_i32 : simpl never.
#[local] Arguments GenericSeqNumber.add : simpl never.
#[local] Arguments GenericSeqNumber.sub : simpl never.
#[local] Arguments LossList.insert : simpl never.
#[local] Arguments LossList.remove_all : simpl never.
#[local] Arguments LossList.pop_after : simpl never.

(** A change of the sending side alone. *)
Definition same_rcv (s s' : UdtSocket.t) : Prop :=
  UdtSocket.rcv_buffer s' = UdtSocket.rcv_buffer s ∧ sent_ack s' = sent_ack s
  ∧ curr_rcv s' = curr_rcv s ∧ rcv_losses s' = rcv_losses s.

Lemma same_rcv_reading isn peer limit s s' :
  same_rcv s s' → reading isn peer limit s → reading isn peer limit s'.
Proof.
  intros (Eb & Es & Ec & El) [Hw Hr Ha Hc Hsent Hl].
  split; rewrite ?Eb, ?Es, ?Ec; try done. intros x Hx. unfold received. rewrite Eb. by apply Hc.
Qed.

Lemma same_rcv_receiving s s' : same_rcv s s' → rcv_inv s → rcv_inv s'.
Proof.
  intros (Eb & Es & Ec & El) [? ? ? ? ? ? ? Hr].
  split; rewrite ?Eb, ?Es, ?Ec, ?El; try done. intros x Hx. unfold received. rewrite Eb. by apply Hr.
Qed.

(** ** Numbers *)

Section numbers.
Variables (isn : Z) (own : list SndBufferBlock.t) (cap : Z).
Hypothesis Hfits : fits isn own.
Variable s : UdtSocket.t.
Hypothesis Hs : sending isn own cap s.

Lemma sending_length : first_kept s + len (SndBuffer.buffer (UdtSocket.snd_buffer s)) = isn + len own.
Proof.
  pose proof (sg_first _ _ _ _ Hs). rewrite (sg_buffer _ _ _ _ Hs). unfold len in *.
  rewrite length_drop. lia.
Qed.

Lemma sending_position : 0 <= position s ∧ first_kept s + position s <= isn + len own.
Proof.
  pose proof (snd_position _ (si_buffer _ (sg_inv _ _ _ _ Hs))). pose proof sending_length. lia.
Qed.

Lemma sending_near : near s.
Proof.
  destruct Hfits as (? & ? & ?). pose proof sending_position. pose proof (sg_first _ _ _ _ Hs).
  split; [lia|lia|apply (sg_acked _ _ _ _ Hs)].
Qed.

Lemma sending_curr : curr_snd s = first_kept s + position s - 1.
Proof.
  destruct Hfits as (? & ? & ?). pose proof sending_position. pose proof (sg_first _ _ _ _ Hs).
  rewrite (si_curr _ (sg_inv _ _ _ _ Hs)), seq_add_small; lia.
Qed.

(** Numbers of the connection are close to each other. *)
Lemma sub_exact `{Profile} a b : isn - 1 <= a <= isn + len own → isn - 1 <= b <= isn + len own →
  a ⊖ b = Ok (a - b).
Proof. destruct Hfits as (? & ? & ?). intros. apply seq_sub_near; unfold valid; lia. Qed.

Lemma sending_lost x : lost (snd_losses s) x → first_kept s <= x <= curr_snd s.
Proof.
  intros Hx. pose proof (lost_steps s x (sg_inv _ _ _ _ Hs) sending_near Hx). rewrite sending_curr. lia.
Qed.

(** The block of a number that is kept. *)
Lemma sending_block x : first_kept s <= x < isn + len own →
  ∃ block, SndBuffer.buffer (UdtSocket.snd_buffer s) !! Z.to_nat (x - first_kept s) = Some block
    ∧ own !! Z.to_nat (x - isn) = Some block ∧ SndBufferBlock.ttl block = None.
Proof.
  intros Hx. pose proof (sg_first _ _ _ _ Hs) as Hf. unfold len in Hx.
  destruct (lookup_lt_is_Some_2 own (Z.to_nat (x - isn))) as [block Hb]; [lia|].
  exists block. rewrite (sg_buffer _ _ _ _ Hs), lookup_drop.
  replace (Z.to_nat (first_kept s - isn) + Z.to_nat (x - first_kept s))%nat with (Z.to_nat (x - isn)) by lia.
  split; [done|]. split; [done|]. pose proof (sg_ttl _ _ _ _ Hs) as Ht. rewrite Forall_lookup in Ht. eauto.
Qed.

(** Other losses, all in flight. *)
Lemma sending_losses s' :
  UdtSocket.snd_buffer s' = UdtSocket.snd_buffer s → first_kept s' = first_kept s →
  curr_snd s' = curr_snd s → last_acked s' = last_acked s →
  UdtSocket.multiplexer s' = UdtSocket.multiplexer s → UdtSocket.status s' = UdtSocket.status s →
  wf (snd_losses s') → (∀ x, lost (snd_losses s') x → first_kept s <= x <= curr_snd s) →
  sending isn own cap s'.
Proof.
  intros E1 E2 E3 E4 E5 E6 Hwf Hl. destruct Hfits as (? & ? & ?).
  pose proof sending_curr as Hc. pose proof sending_position. destruct Hs as [[? ? ? ? ? ?] ? ? ? ? ? ? ?].
  split; [split|..]; rewrite ?E1, ?E2, ?E3, ?E4, ?E5, ?E6; try done.
  intros x Hx. specialize (Hl x Hx). rewrite steps_value by (unfold valid; lia). case_match; lia.
Qed.
End numbers.

(** The sign of a subtraction is that of the integer difference, however far apart. *)
Lemma seq_sub_sign `{Profile} a b : valid a → valid b →
  ∃ d, a ⊖ b = Ok d ∧ (0 < d ↔ b < a) ∧ (0 <= d ↔ b <= a).
Proof.
  intros Ha Hb. rewrite seq_sub_value by done. eexists. split; [done|].
  unfold valid, SEQ_MAX in *. repeat case_match; lia.
Qed.

(** ** Methods *)

Section sender.
Context `{Profile} `{Env} `{FloatLib}.
Variables (isn : Z) (own peer : list SndBufferBlock.t) (limit cap : Z) (live : bool) (base : UdtSocket.t).
Hypothesis Hfits : fits isn own.
Local Notation inv := (connection_inv isn own peer limit cap live base).

(** Runs of [m] keep the invariant. *)
Definition kept {A} (m : SM A) (w : world UdtSocket.t) : Prop := inv w → inv (m w).2.

Lemma kept_quiet {A} (m : SM A) w : all_runs quiet m → kept m w.
Proof. intros Hm. unfold kept. by apply quiet_inv. Qed.

Lemma kept_bind {A B} (m : SM A) (f : A → SM B) w :
  kept m w → (∀ a w', m w = (Ok a, w') → inv w' → kept (f a) w') → kept (m ≫= f) w.
Proof.
  intros Hm Hf Hw. specialize (Hm Hw). unfold kept in *. rewrite bind_run.
  destruct (m w) as [[a|e|] w'] eqn:E; simpl in *; [|done..]. by apply Hf.
Qed.

(** A change of the sending side that says nothing. *)
Lemma inv_sender w s' n : inv w → same_rcv (sock w) s' → curr_snd (sock w) <= curr_snd s' →
  sending isn own cap s' → inv (World s' n (trace w)).
Proof.
  intros [Hs Hr Hrv Ht Hb] Hsame Hc Hs'. pose proof Hsame as (Eb & _ & Ec & _).
  assert (advances (sock w) s') as Ha by (unfold advances; rewrite Eb, Ec; lia).
  split; simpl; eauto using same_rcv_reading, same_rcv_receiving; [|by etransitivity].
  rewrite <- (app_nil_r own). by eapply trace_mono.
Qed.

Lemma inv_same w s' n : same_stream (sock w) s' → inv w → inv (World s' n (trace w)).
Proof. intros Hs. apply quiet_inv. split; [done|]. exists []. by rewrite app_nil_r. Qed.

(** *** Acknowledgements *)

Lemma kept_light_ack n w : isn - 1 <= n <= curr_snd (sock w) + 1 → kept (on_light_ack n) w.
Proof.
  intros Hn Hinv. pose proof (ci_sending _ _ _ _ _ _ _ _ Hinv) as Hs.
  pose proof (sending_curr _ _ _ Hfits _ Hs) as Hc. pose proof (sending_position _ _ _ _ Hs) as Hp.
  pose proof (sg_acked _ _ _ _ Hs) as Ha. pose proof (sg_first _ _ _ _ Hs) as Hf.
  unfold on_light_ack, gets_state, diff, modify_state, update_flow. run.
  rewrite (sub_exact isn own) by (done || lia). run.
  destruct (Z.geb_spec (n - last_acked (sock w)) 0); run; [|by destruct w].
  assert (∀ f, inv (World (UdtSocket.set_flow f (UdtSocket.set_state (SocketState.set_ack_received n
    (first_kept (sock w)) (UdtSocket.state (sock w))) (sock w))) (ticks w) (trace w))) as Hinv'.
  { intros f. apply inv_sender; [done|done|simpl; lia|].
    destruct Hs as [[? ? ? ? ? ?] ? ? ? ? ? ? ?]. split; [split|..]; simpl; try done; [|lia].
    destruct Hfits. unfold valid. lia. }
  destruct (arith_u 32 _) as [v|e|]; run; [apply Hinv'|apply (Hinv' (UdtSocket.flow (sock w)))..].
Qed.

(** What is released is what the acknowledgement covers. *)
Lemma sending_acked s n available : sending isn own cap s →
  first_kept s < n <= curr_snd s + 1 → n <= cap →
  ∃ b losses, SndBuffer.ack_data (n - first_kept s) (UdtSocket.snd_buffer s) = Ok b
  ∧ loss_remove_all (first_kept s) (n - 1) (snd_losses s) = Ok losses
  ∧ sending isn own cap (acked n available b losses s).
Proof.
  intros Hs Hn Hcap. pose proof (sending_curr _ _ _ Hfits _ Hs) as Hc. pose proof (sending_position _ _ _ _ Hs) as Hp.
  pose proof (sending_near _ _ _ Hfits _ Hs) as Hnear. pose proof (sg_inv _ _ _ _ Hs) as Hsnd.
  pose proof (sg_acked _ _ _ _ Hs) as Ha. pose proof (sg_first _ _ _ _ Hs) as Hf. destruct Hfits as (? & ? & ?).
  destruct (ack_removes_losses (first_kept s) n _ (si_losses s Hsnd) (si_first s Hsnd))
    as (losses & Hl & Hwf & Hlost); [lia|].
  pose proof (pop_acked_value (Z.to_nat (n - first_kept s)) _ (si_buffer s Hsnd)) as Hpop.
  rewrite Z2Nat.id in Hpop by lia. eexists _, losses. split; [by apply Hpop; lia|]. split; [done|].
  destruct (pop_acked_parts (n - first_kept s) (UdtSocket.snd_buffer s) (si_buffer s Hsnd))
    as (b & Hack & Hb & _ & _ & Hpos); [lia|]. unfold SndBuffer.ack_data in Hack. rewrite Hpop in Hack by lia.
  apply (inj Ok) in Hack. rewrite Hack. rewrite Z2Nat.id in Hpos by lia.
  assert (snd_inv (acked n available b losses s)) as Hsnd' by (eapply acked_inv; (done || lia)).
  split; [done|..]; cbn.
  - rewrite Hpos, Z.geb_leb. case_match; lia.
  - lia.
  - done.
  - rewrite <- Hack. simpl. rewrite (sg_buffer _ _ _ _ Hs), drop_drop. f_equal. lia.
  - apply (sg_ttl _ _ _ _ Hs).
  - apply (sg_mux _ _ _ _ Hs).
  - apply (sg_status _ _ _ _ Hs).
Qed.

Lemma kept_ack_received n available w :
  isn - 1 <= n <= curr_snd (sock w) + 1 → n <= cap → kept (ack_received n available) w.
Proof.
  intros Hn Hcap Hinv. pose proof (ci_sending _ _ _ _ _ _ _ _ Hinv) as Hs.
  pose proof (sending_curr _ _ _ Hfits _ Hs) as Hc. pose proof (sending_position _ _ _ _ Hs) as Hp.
  pose proof (sg_acked _ _ _ _ Hs) as Ha. pose proof (sg_first _ _ _ _ Hs) as Hf.
  destruct (decide (first_kept (sock w) < n)) as [Hfresh|Hold].
  - destruct (sending_acked (sock w) n available Hs) as (b & losses & Hb & Hl & Hs'); [lia|done|].
    destruct (sg_mux _ _ _ _ Hs) as [mux Hmux]. destruct w as [s k tr]. cbn [sock] in *.
    rewrite (ack_received_value s k tr n available b losses mux); try done;
      [|apply (sg_inv _ _ _ _ Hs)|by eapply sending_near|lia].
    eapply (quiet_inv _ _ _ _ _ _ _ (World (acked n available b losses s) k tr)).
    + split; [reflexivity|]. eexists. split; [done|]. by repeat constructor.
    + by apply (inv_sender (World s k tr)); [done|done|simpl; lia|].
  - unfold ack_received, gets_state, diff, modify_flow, modify_state, set_status. run.
    rewrite (sub_exact isn own) by (done || lia). run.
    rewrite (Z.gtb_ltb _ 1), (proj2 (Z.ltb_ge 1 _)) by lia. run.
    rewrite (sub_exact isn own) by (done || lia). run.
    destruct (Z.geb_spec (n - last_acked (sock w)) 0); run; simpl.
    + rewrite (sub_exact isn own) by (done || lia). run. rewrite (proj2 (Z.leb_le _ 0)) by lia. run.
      apply inv_sender; [done|done|simpl; lia|]. assert (n = last_acked (sock w)) as -> by lia.
      destruct Hs as [[? ? ? ? ? ?] ? ? ? ? ? ? ?]. by split; [split|..].
    + rewrite (sub_exact isn own) by (done || lia). run. rewrite (proj2 (Z.leb_le _ 0)) by lia. run.
      by destruct w.
Qed.

Lemma kept_on_ack c a w : UdtControlPacket.packet_type c = Ack a →
  isn - 1 <= AckInfo.next_seq_number a <= curr_snd (sock w) + 1 →
  (is_Some (AckInfo.info a) → AckInfo.next_seq_number a <= cap) → kept (on_ack c a) w.
Proof.
  intros Hc Hn Hcap. unfold on_ack. destruct (AckInfo.info a) as [extra|]; [|by apply kept_light_ack].
  destruct (UdtControlPacket.ack_seq_number c) as [ack_seq|]; [|by intros Hinv; run].
  intros Hinv. run. pose proof (quiet_send_ack2 ack_seq w) as Hq. pose proof (quiet_inv _ _ _ _ _ _ _ _ _ Hq Hinv) as Hinv1.
  destruct Hq as [((_ & _ & Ec & _) & _) _].
  destruct (send_ack2 ack_seq w) as [[[]|e|] w1]; run; [|done..]. cbn [snd sock] in Ec, Hinv1. rewrite <- Ec in Hn.
  pose proof (kept_ack_received _ (AckOptionalInfo.available_buf_size extra) w1 Hn (Hcap ltac:(done)) Hinv1) as Hinv2.
  destruct (ack_received _ _ w1) as [[fresh|e|] w2]; run; [|done..].
  refine (kept_quiet _ w2 _ Hinv2). apply evolves_when, quiet_ack_statistics; apply _.
Qed.

(** *** Loss reports *)

(** The losses of [s] become [losses]. *)
Definition with_losses (losses : LossList.t) (s : UdtSocket.t) : UdtSocket.t :=
  UdtSocket.set_state (SocketState.set_snd (curr_snd s) losses (UdtSocket.state s)) s.

#[local] Arguments with_losses : simpl never.

Lemma with_same_losses s : with_losses (snd_losses s) s = s.
Proof. apply set_losses_id. Qed.

Lemma sending_insert s n1 n2 : sending isn own cap s → first_kept s <= n1 <= n2 → n2 <= curr_snd s →
  ∃ losses, loss_insert n1 n2 (snd_losses s) = Ok losses ∧ sending isn own cap (with_losses losses s).
Proof.
  intros Hs Hn1 Hn2. pose proof (sg_first _ _ _ _ Hs) as Hf. pose proof (sending_curr _ _ _ Hfits _ Hs) as Hc.
  pose proof (sending_position _ _ _ _ Hs) as Hp. destruct Hfits as (? & ? & ?).
  unfold loss_insert, LOSS_FUEL.
  destruct (insert_spec 2 n1 n2 (snd_losses s)) as (losses & -> & Hwf & Hl);
    [lia|apply (si_losses s (sg_inv _ _ _ _ Hs))|unfold valid; lia|unfold valid; lia|lia|].
  exists losses. split; [done|]. apply (sending_losses isn own cap Hfits s Hs); try done.
  simpl. intros x [Hx|Hx]%Hl; [by apply (sending_lost isn own cap Hfits s Hs)|].
  unfold between in Hx. rewrite (proj2 (Z.leb_le _ _)) in Hx by lia. lia.
Qed.

Lemma nak_interval_sending s n1 n2 b st : sending isn own cap s → valid n1 → valid n2 →
  nak_interval n1 n2 (UdtSocket.state s) = Ok (b, st) →
  ∃ losses, st = UdtSocket.state (with_losses losses s) ∧ sending isn own cap (with_losses losses s).
Proof.
  intros Hs Hn1 Hn2. pose proof (sg_first _ _ _ _ Hs) as Hf. pose proof (sending_curr _ _ _ Hfits _ Hs) as Hc.
  pose proof (sending_position _ _ _ _ Hs) as Hp. pose proof (sg_acked _ _ _ _ Hs) as Ha.
  assert (valid (curr_snd s) ∧ valid (last_acked s)) as [Hvc Hva] by (destruct Hfits; unfold valid; lia).
  assert (∃ losses, UdtSocket.state s = UdtSocket.state (with_losses losses s)
    ∧ sending isn own cap (with_losses losses s)) as Hsame.
  { exists (snd_losses s). by rewrite with_same_losses. }
  unfold nak_interval. destruct (seq_sub_sign n1 n2) as (d & -> & Hd & _); [done..|]. simpl.
  destruct (Z.gtb_spec d 0); [by intros [= <- <-]|]. simpl.
  destruct (seq_sub_sign n2 (curr_snd s)) as (d' & -> & Hd' & _); [done..|]. simpl.
  destruct (Z.gtb_spec d' 0); [by intros [= <- <-]|]. simpl.
  destruct (seq_sub_sign n1 (last_acked s)) as (e & -> & _ & He); [done..|]. simpl.
  destruct (Z.geb_spec e 0).
  - destruct (sending_insert s n1 n2 Hs) as (losses & -> & Hs'); [lia..|]. intros [= <- <-]. by exists losses.
  - destruct (seq_sub_sign n2 (last_acked s)) as (e' & -> & _ & He'); [done..|]. simpl.
    destruct (Z.geb_spec e' 0); [|by intros [= <- <-]].
    destruct (sending_insert s (last_acked s) n2 Hs) as (losses & -> & Hs'); [lia..|].
    intros [= <- <-]. by exists losses.
Qed.

Lemma nak_loop_sending words s b st : nak_ok words → sending isn own cap s →
  nak_loop words (UdtSocket.state s) = Ok (b, st) →
  ∃ losses, st = UdtSocket.state (with_losses losses s) ∧ sending isn own cap (with_losses losses s).
Proof.
  remember (length words) as n eqn:Hn. revert words s Hn.
  induction (lt_wf n) as [n _ IH]. intros [|word words] s -> Hok Hs; cbn [nak_ok nak_loop] in Hok |- *.
  { intros [= <- <-]. exists (snd_losses s). by rewrite with_same_losses. }
  assert (∀ n1 n2 rest, (length rest < S (length words))%nat → valid n1 → valid n2 → nak_ok rest →
    (r ← nak_interval n1 n2 (UdtSocket.state s); if r.1 : bool then Ok r else nak_loop rest r.2) = Ok (b, st) →
    ∃ losses, st = UdtSocket.state (with_losses losses s) ∧ sending isn own cap (with_losses losses s)) as Hstep.
  { intros n1 n2 rest Hlen Hn1 Hn2 Hrest. intros ([b1 st1] & Hi & Hr)%bind_is_Ok.
    destruct (nak_interval_sending s n1 n2 b1 st1 Hs Hn1 Hn2 Hi) as (losses & -> & Hs1). simpl in Hr.
    destruct b1; [injection Hr as <- <-; by exists losses|].
    destruct (IH _ Hlen rest (with_losses losses s) eq_refl Hrest Hs1 Hr) as (losses' & -> & Hs2).
    exists losses'. split; [reflexivity|exact Hs2]. }
  destruct (negb _).
  - destruct words as [|last rest].
    + intros [= <- <-]. exists (snd_losses s). by rewrite with_same_losses.
    + destruct Hok. apply Hstep; [simpl; lia| |done|done]. unfold valid, SEQ_MAX.
      pose proof (Z.land_ones word 31 ltac:(done)) as E. change (Z.ones 31) with 2147483647 in E.
      rewrite E. pose proof (Z.mod_pos_bound word (2 ^ 31)). lia.
  - destruct Hok. by apply Hstep; [lia|..].
Qed.
Lemma inv_losses w losses : inv w → sending isn own cap (with_losses losses (sock w)) →
  inv (World (with_losses losses (sock w)) (ticks w) (trace w)).
Proof. intros Hinv Hs. apply inv_sender; [done|done|simpl; lia|done]. Qed.

Lemma kept_on_nak n w : nak_ok (NakInfo.loss_info n) → kept (on_nak n) w.
Proof.
  intros Hok. unfold on_nak. destruct (NakInfo.loss_info n) as [|first words] eqn:En; [by apply kept_quiet; quietly|].
  rewrite <- En in *. apply kept_bind; [apply kept_quiet; unfold_access; quietly|]. intros [] w1 _ _.
  apply kept_bind; [apply kept_quiet, quiet_cc_update|]. intros [] w2 _ _.
  intros Hinv. unfold modify_state. run.
  destruct (nak_loop _ _) as [[b st]|e|] eqn:E; run; [|done..].
  destruct (nak_loop_sending _ _ _ _ Hok (ci_sending _ _ _ _ _ _ _ _ Hinv) E) as (losses & -> & Hs).
  pose proof (inv_losses w2 losses Hinv Hs) as Hinv'.
  destruct b; refine (kept_quiet _ _ _ Hinv'); [by apply quiet_set_status|apply quiet_update_snd_queue].
Qed.

(** *** Timers *)

Lemma kept_resend_or_keep_alive w : kept resend_or_keep_alive w.
Proof.
  intros Hinv. pose proof (ci_sending _ _ _ _ _ _ _ _ Hinv) as Hs. pose proof (sending_curr _ _ _ Hfits _ Hs) as Hc.
  pose proof (sg_acked _ _ _ _ Hs) as Ha. pose proof (sg_first _ _ _ _ Hs) as Hf.
  pose proof (sending_position _ _ _ _ Hs) as Hp.
  assert (∀ w, inv w → inv ((update_rate_control RateControl.on_timeout ;; cc_update ;; update_snd_queue true) w).2)
    as Hrest by (intros w'; apply kept_quiet; unfold_access; quietly).
  unfold resend_or_keep_alive, update_state. rewrite bind_run. cbn [get].
  destruct (UdtSocket.snd_buffer_is_empty (sock w)).
  { refine (kept_quiet _ w _ Hinv). quietly. }
  rewrite bind_run, update_run. cbv zeta.
  destruct (negb _ && LossList.is_empty _) eqn:Hb; cycle 1.
  { cbn [mbind outcome_bind]. apply Hrest.
    replace (UdtSocket.set_state _ (sock w)) with (sock w) by (destruct (sock w); done). by destruct w. }
  apply andb_true_iff in Hb as [Hne%negb_true_iff%Z.eqb_neq _].
  assert (curr_snd (sock w) ⊕ 1 = curr_snd (sock w) + 1) as E
    by (destruct Hfits as (? & ? & ?); apply seq_add_small; lia). rewrite E in Hne.
  destruct (sending_insert (sock w) (last_acked (sock w)) (curr_snd (sock w)) Hs) as (losses & -> & Hs'); [lia|lia|].
  cbn [mbind outcome_bind]. apply Hrest. by apply (inv_losses w losses).
Qed.

Lemma kept_exp_timer t w : kept (exp_timer t) w.
Proof.
  unfold exp_timer. apply kept_bind; [by apply kept_quiet; quietly|]. intros s w1 _ _.
  apply kept_bind; [by apply kept_quiet; quietly|]. intros next w2 _ _.
  destruct (t >? next); [|by apply kept_quiet; quietly].
  apply kept_bind; [by apply kept_quiet; quietly|]. intros t' w3 _ _.
  destruct (_ && _).
  - apply kept_quiet. quietly.
  - apply kept_bind; [apply kept_resend_or_keep_alive|]. intros [] w4 _ _. apply kept_quiet. unfold_access. quietly.
Qed.
(** *** Data *)

(** Runs of [m] keep the invariant, and what they return satisfies [Q]. *)
Definition ensures {A} (m : SM A) (Q : A → world UdtSocket.t → Prop) (w : world UdtSocket.t) : Prop :=
  inv w → inv (m w).2 ∧ ∀ a w', m w = (Ok a, w') → Q a w'.

Lemma ensures_bind {A B} (m : SM A) (f : A → SM B) Q w :
  kept m w → (∀ a w', m w = (Ok a, w') → inv w' → ensures (f a) Q w') → ensures (m ≫= f) Q w.
Proof.
  intros Hm Hf Hw. specialize (Hm Hw). rewrite bind_run.
  destruct (m w) as [[a|e|] w'] eqn:E; simpl in *; [|done..]. by apply Hf.
Qed.

Lemma ensures_seq {A B} (m : SM A) (f : A → SM B) Q R w :
  ensures m R w → (∀ a w', R a w' → inv w' → ensures (f a) Q w') → ensures (m ≫= f) Q w.
Proof.
  intros Hm Hf Hw. destruct (Hm Hw) as [Hw' HR]. rewrite bind_run.
  destruct (m w) as [[a|e|] w'] eqn:E; simpl in *; [|done..]. apply Hf; [by apply HR|done|done].
Qed.

Lemma ensures_quiet {A} (m : SM A) (Q : A → world UdtSocket.t → Prop) w :
  all_runs quiet m → (∀ a w', m w = (Ok a, w') → Q a w') → ensures m Q w.
Proof. intros Hm HQ Hw. split; [by apply kept_quiet|done]. Qed.

(** The packets that a socket may send. *)
Definition sendable (s : UdtSocket.t) (packets : list UdtDataPacket.t) : Prop :=
  Forall (λ p, packet_ok isn own s (Data p)) packets.

Lemma sendable_quiet w w' packets : quiet w w' → sendable (sock w) packets → sendable (sock w') packets.
Proof.
  intros [Hs _] Hp. eapply Forall_impl; [exact Hp|]. intros p Hok.
  pose proof (packet_ok_mono isn own [] _ _ (Data p) (same_stream_advances _ _ Hs) Hok) as Hok'.
  by rewrite app_nil_r in Hok'.
Qed.

(** The lost packet that is taken is in flight, and its place in the buffer is right. *)
Lemma take_lost_ensures t w : ensures (take_lost t) (λ r w', match r with
    | Some (seq, offset) => first_kept (sock w') <= seq <= curr_snd (sock w')
        ∧ offset = seq - first_kept (sock w')
    | None => True
    end) w.
Proof.
  unfold take_lost. apply ensures_bind; [by apply kept_quiet; unfold_access; quietly|]. intros delay w1 _ _.
  apply ensures_bind; [by apply kept_quiet; unfold_access; quietly|]. intros [] w2 _ _ Hinv.
  pose proof (ci_sending _ _ _ _ _ _ _ _ Hinv) as Hs. pose proof (sg_inv _ _ _ _ Hs) as Hsnd.
  pose proof (sending_curr _ _ _ Hfits _ Hs) as Hc. pose proof (sending_position _ _ _ _ Hs) as Hp.
  pose proof (sg_first _ _ _ _ Hs) as Hf.
  unfold gets_state, modify_state. run. rewrite (pop_after_value _ _ (si_losses _ Hsnd)).
  pose proof (peek_after_spec (first_kept (sock w2)) _ (si_losses _ Hsnd) (si_first _ Hsnd)) as Hpeek.
  destruct (LossList.peek_after _ _) as [seq|]; run.
  - destruct Hpeek as [Hlost _]. destruct (remove_spec _ seq (si_losses _ Hsnd)) as [Hwf Hrem].
    pose proof (sending_lost isn own cap Hfits _ Hs seq Hlost) as Hseq.
    assert (inv (World (with_losses (LossList.remove seq (snd_losses (sock w2))) (sock w2)) (ticks w2) (trace w2)))
      as Hinv'.
    { apply inv_losses; [done|]. apply (sending_losses isn own cap Hfits _ Hs); try done.
      intros x [Hx _]%Hrem. by apply (sending_lost isn own cap Hfits). }
    unfold diff. run. rewrite (sub_exact isn own) by (done || lia). run. split; [exact Hinv'|].
    intros r w' [= <- <-]. by split.
  - rewrite set_losses_id. split; [by destruct w2|]. by intros r w' [= <- <-].
Qed.

(** A retransmission: the block of the number. *)
Lemma read_block_ensures seq w : first_kept (sock w) <= seq <= curr_snd (sock w) →
  ensures (read_block (Z.to_nat (seq - first_kept (sock w))) seq) (λ r w', match r with
    | inl packet => packet_ok isn own (sock w') (Data packet)
    | inr _ => False
    end) w.
Proof.
  intros Hseq Hinv. pose proof (ci_sending _ _ _ _ _ _ _ _ Hinv) as Hs.
  pose proof (sending_curr _ _ _ Hfits _ Hs) as Hc. pose proof (sending_position _ _ _ _ Hs) as Hp.
  pose proof (sg_first _ _ _ _ Hs) as Hf.
  destruct (sending_block isn own cap _ Hs seq) as (block & Hb & Ho & Ht); [lia|].
  unfold read_block. run. destruct (UdtSocket.peer_socket_id (sock w)); run; [|done].
  unfold SndBuffer.read_data. rewrite Hb. unfold SndBufferBlock.has_expired. rewrite Ht. run.
  split; [by apply (inv_same w)|].
  intros r w' [= <- <-]. split; [|simpl; lia]. split; [simpl; lia|]. by exists block.
Qed.
(** [n] blocks more are sent. *)
Lemma sending_sent n s : sending isn own cap s → (n ≤ length (unsent (UdtSocket.snd_buffer s)))%nat →
  sending isn own cap (sent n s) ∧ curr_snd (sent n s) = curr_snd s + Z.of_nat n.
Proof.
  intros Hs Hn. pose proof (sent_inv n s (sg_inv _ _ _ _ Hs) Hn) as Hsnd.
  pose proof (sending_curr _ _ _ Hfits _ Hs) as Hc. pose proof (sending_position _ _ _ _ Hs) as Hp.
  pose proof (sg_first _ _ _ _ Hs) as Hf. pose proof (sending_length _ _ _ _ Hs) as Hlen.
  unfold unsent in Hn. rewrite length_drop in Hn. destruct Hs as [? ? ? ? ? ? ? ?]. split.
  - split; simpl; try done. lia.
  - simpl. rewrite seq_add_small; [done|]. destruct Hfits. unfold len in *. lia.
Qed.

Lemma sendable_batch s n packets : sending isn own cap s →
  batch_of s packets → length packets = n → (n ≤ length (unsent (UdtSocket.snd_buffer s)))%nat →
  sendable (sent n s) packets.
Proof.
  intros Hs Hbatch Hlen Hn. destruct (sending_sent n s Hs Hn) as [_ Hcn].
  pose proof (sending_curr _ _ _ Hfits _ Hs) as Hc. pose proof (sending_position _ _ _ _ Hs) as Hp.
  pose proof (sg_first _ _ _ _ Hs) as Hf. pose proof (sending_length _ _ _ _ Hs) as Hl.
  unfold unsent in Hn. rewrite length_drop in Hn.
  apply Forall_lookup. intros i p Hi. pose proof (lookup_lt_Some _ _ _ Hi) as Hlt.
  destruct (Hbatch i p Hi) as (Hseq & block & Hb & Hd & _). unfold len in *.
  rewrite seq_add_small in Hseq by (destruct Hfits; unfold len in *; lia).
  destruct (sending_block isn own cap s Hs (seq_of p)) as (block' & Hb' & Ho & _); [unfold len; lia|].
  assert (block' = block) as ->.
  { replace (Z.to_nat (seq_of p - first_kept s)) with (Z.to_nat (position s) + i)%nat in Hb' by lia. congruence. }
  split; [split; [lia|by exists block]|]. rewrite Hcn. lia.
Qed.

(** A batch of new packets. *)
Lemma fetch_new_ensures t w : ensures (fetch_new t) (λ r w', match r with
    | Some (packets, _) => sendable (sock w') packets
    | None => True
    end) w.
Proof.
  intros Hinv. pose proof (ci_sending _ _ _ _ _ _ _ _ Hinv) as Hs. pose proof (sg_inv _ _ _ _ Hs) as Hsnd.
  pose proof (sending_curr _ _ _ Hfits _ Hs) as Hc. pose proof (sending_position _ _ _ _ Hs) as Hp.
  pose proof (sg_first _ _ _ _ Hs) as Hf. pose proof (sending_length _ _ _ _ Hs) as Hlen.
  unfold fetch_new, diff, modify_state, modify_rate_control. run.
  destruct (_ ⊖ _) as [d|e|]; run; [|done..].
  destruct (d >? _).
  { apply ensures_quiet; [|by intros r w' [= <- <-]|done]. quietly. }
  run. destruct (UdtSocket.peer_socket_id (sock w)) as [id|]; run; [|done].
  destruct (SndBuffer.fetch_batch _ _ _ _ _) as [[packets b]|e|] eqn:E; run;
    [|by (split; [apply (inv_same w)|])..].
  destruct (fetch_batch_of (sock w) _ _ _ _ Hsnd E) as (Hbatch & Hk & ->). clear E.
  set (k := (FETCH_BATCH_SIZE `min` length (unsent (UdtSocket.snd_buffer (sock w))))%nat) in *.
  destruct (sending_sent k (sock w) Hs) as [Hs' Hcurr]; [lia|].
  destruct packets as [|p packets]; run.
  - split; [|by intros r w' [= <- <-]]. apply (inv_same w); [|done]. unfold same_stream, same_sender. simpl in *.
    split_and!; try done. unfold advance. rewrite <- Hk, Z.add_0_r. by destruct (UdtSocket.snd_buffer (sock w)).
  - assert (wrap_s 32 (len (p :: packets)) = Z.of_nat k) as ->.
    { unfold len. rewrite Hk. apply wrap_s_small; [done|]. unfold k, FETCH_BATCH_SIZE. simpl Z.sub. lia. }
    split; [apply (inv_sender w (sent k (sock w))); [done|done|rewrite Hcurr; lia|done]|].
    intros r w' [= <- <-]. apply (sendable_batch (sock w) k); (done || lia).
Qed.

(** What the first half of [next_data_packets] leaves to the second one: the place in the
    send buffer is that of the number, as long as nothing is released. *)
Definition in_place (s : UdtSocket.t) (to_resend : option (Z * Z)) : Prop :=
  match to_resend with
  | Some (seq, offset) => first_kept s <= seq <= curr_snd s ∧ offset = seq - first_kept s
  | None => True
  end.

Lemma begin_data_packets_ensures w : ensures begin_data_packets (λ r w', match r with
    | Some (_, to_resend) => in_place (sock w') to_resend
    | None => True
    end) w.
Proof.
  unfold begin_data_packets. apply ensures_bind; [by apply kept_quiet; quietly|]. intros status w1 _ _.
  destruct (negb _); [by apply ensures_quiet; [apply evolves_ret, _|intros r w' [= <- <-]]|].
  apply ensures_bind; [by apply kept_quiet; quietly|]. intros time w2 _ _.
  eapply ensures_seq; [apply take_lost_ensures|]. intros lost w3 Hlost _.
  apply ensures_quiet; [apply evolves_ret, _|]. by intros r w' [= <- <-].
Qed.

(** Whatever the state of the socket, the packets it prepares carry the blocks of their
    numbers, if the place of the first half is still right; the invariant is kept. *)
Lemma finish_data_packets_ensures time to_resend w : in_place (sock w) to_resend →
  ensures (finish_data_packets time to_resend) (λ r w', match r with
    | Some (packets, _) => sendable (sock w') packets
    | None => True
    end) w.
Proof.
  intros Hlost.
  assert (∀ packets n w', sendable (sock w') packets → ensures
    (time' ← pace time n; mret (Some (packets, time'))) (λ r w', match r with
    | Some (packets, _) => sendable (sock w') packets
    | None => True
    end) w') as Hpace.
  { intros packets n w' Hp. intros Hinv. pose proof (quiet_pace time n w') as Hq. run.
    pose proof (quiet_inv _ _ _ _ _ _ _ _ _ Hq Hinv) as Hinv'.
    destruct (pace time n w') as [[t|e|] w'']; run; [|done..]. split; [done|].
    intros r w4 [= <- <-]. by apply (sendable_quiet w'). }
  destruct to_resend as [[seq offset]|]; cbn [finish_data_packets].
  - destruct Hlost as [Hseq ->].
    destruct (Z.ltb_spec (seq - first_kept (sock w)) 0); [lia|].
    eapply ensures_seq; [by apply read_block_ensures|]. intros [packet|] w4 Hp _; [|done].
    apply Hpace. by constructor.
  - eapply ensures_seq; [apply fetch_new_ensures|]. intros [[packets probe]|] w4 Hp _.
    + destruct probe; [|by apply Hpace]. apply ensures_quiet; [apply evolves_ret, _|]. by intros r w' [= <- <-].
    + apply ensures_quiet; [apply evolves_ret, _|]. by intros r w' [= <- <-].
Qed.

Lemma inv_emit w e : event_ok isn own (sock w) e → inv w →
  inv (World (sock w) (ticks w) (trace w ++ [e])).
Proof.
  intros He [? ? ? ? ?]. split; simpl; try done. apply Forall_app. split; [done|]. by constructor.
Qed.

Lemma kept_emit_packets addr packets w : sendable (sock w) packets →
  kept (foldr (λ p r, emit (SendTo addr (Data p)) ;; r) (mret ()) packets) w.
Proof.
  revert w. induction packets as [|p packets IH]; intros w Hp; [by intros Hinv|]. cbn [foldr].
  apply Forall_cons in Hp as [Hp Hpackets].
  apply kept_bind; [intros Hinv; by apply inv_emit|]. intros [] w1 [= <-] _. by apply IH.
Qed.

(** What has been prepared may be sent at any time. *)
Lemma kept_send_data_packets packets w : sendable (sock w) packets → kept (send_data_packets packets) w.
Proof.
  intros Hp. unfold send_data_packets. apply kept_bind; [by apply kept_quiet; quietly|].
  intros addr w1 [= <- <-] _. destruct (UdtSocket.peer_addr (sock w)) as [addr|]; [|by apply kept_quiet; quietly].
  apply kept_bind; [by apply kept_quiet; quietly|]. intros mux w1 [= _ <-] _.
  do 2 (apply kept_bind; [by apply kept_quiet; quietly|]; intros ? ? [= _ <-] _).
  apply kept_bind; [by apply kept_quiet; quietly|]. intros [] w1 [= _ <-] _.
  by apply kept_emit_packets.
Qed.

(** *** Writing *)

Lemma sending_append s b blocks : sending isn own cap s →
  snd_wf b → SndBuffer.current_position b = position s →
  SndBuffer.buffer b = SndBuffer.buffer (UdtSocket.snd_buffer s) ++ blocks →
  Forall (λ x, SndBufferBlock.ttl x = None) blocks →
  sending isn (own ++ blocks) cap (UdtSocket.set_snd_buffer b s).
Proof.
  intros [[? ? ? ? ? ?] ? Hf ? Hbuf ? ? ?] Hb Hp Eb Ht. unfold len in Hf.
  split; [split|..]; cbn; rewrite ?Hp; try done.
  - unfold len. rewrite length_app. lia.
  - rewrite Eb, Hbuf, drop_app_le by lia. done.
  - by apply Forall_app.
Qed.

(** The receiving side does not see what is written. *)
Lemma inv_written w s' n blocks : inv w → same_rcv (sock w) s' ∧ curr_snd s' = curr_snd (sock w) →
  sending isn (own ++ blocks) cap s' →
  connection_inv isn (own ++ blocks) peer limit cap live base (World s' n (trace w)).
Proof.
  intros [_ Hr Hrv Ht Hb] [Hsame Ec] Hs. pose proof Hsame as (Eb & _ & Er & _).
  assert (advances (sock w) s') as Ha by (unfold advances; rewrite Eb, Ec, Er; lia).
  split; simpl; eauto using same_rcv_reading, same_rcv_receiving, trace_mono. by etransitivity.
Qed.

(** A message becomes blocks at the end of what the application has written; a failure
    adds nothing. *)
Definition appends (data : list Z) (w : world UdtSocket.t) (r : outcome unit * world UdtSocket.t) : Prop :=
  ∃ blocks, connection_inv isn (own ++ blocks) peer limit cap live base r.2
  ∧ block_bytes blocks = (if is_ok r.1 then data else [])
  ∧ SndBuffer.buffer (UdtSocket.snd_buffer (sock r.2)) = SndBuffer.buffer (UdtSocket.snd_buffer (sock w)) ++ blocks.

Lemma appends_nothing data w o w' : inv w → quiet w w' → is_ok o = false ∨ data = [] → appends data w (o, w').
Proof.
  intros Hinv Hq Ho. exists []. rewrite !app_nil_r. cbn [fst snd]. split; [by eapply quiet_inv|].
  destruct Hq as [((-> & _) & _) _]. split; [|done]. cbn [fst]. destruct Ho as [-> | ->]; [done|by destruct (is_ok o)].
Qed.

Lemma send_appends data w : inv w → appends data w (send data w).
Proof.
  intros Hinv. pose proof (appends_nothing data w) as Hnone.
  unfold send. run. destruct (negb _); [by apply Hnone; [|reflexivity|left]|].
  destruct (negb _); [by apply Hnone; [|reflexivity|left]|].
  destruct data as [|x data]; [by apply Hnone; [|reflexivity|right]|]. set (msg := x :: data) in *. clearbody msg.
  rewrite bind_run.
  match goal with |- context [when ?b ?m w] =>
    assert (all_runs quiet (when b m)) as Hquiet by (unfold_access; quietly) end.
  specialize (Hquiet w). destruct (when _ _ w) as [[[]|e|] w1]; [|by apply Hnone; [| |left]..].
  cbn [snd] in Hquiet. run. pose proof (quiet_inv _ _ _ _ _ _ _ _ _ Hquiet Hinv) as Hinv1.
  assert (∀ s' n, same_stream (sock w1) s' → quiet w (World s' n (trace w1))) as Hstill.
  { intros s' n Hs'. etransitivity; [exact Hquiet|]. split; [done|]. exists []. by rewrite app_nil_r. }
  pose proof (ci_sending _ _ _ _ _ _ _ _ Hinv1) as Hs. set (s := sock w1) in *.
  destruct (decide (SndBuffer.payload_size (UdtSocket.snd_buffer s) = 0%nat)) as [E|E].
  { unfold SndBuffer.add_message. rewrite E. cbn [Nat.eqb]. run.
    apply Hnone; [done|by apply Hstill|by left]. }
  rewrite add_message_value by lia. cbv zeta. set (blocks := message_blocks _ _ _ _ _ _).
  destruct (Z.gtb_spec (len (SndBuffer.buffer (UdtSocket.snd_buffer s)) + len blocks)
    (SndBuffer.max_size (UdtSocket.snd_buffer s))); run; [apply Hnone; [done|by apply Hstill|by left]|].
  set (s' := UdtSocket.set_snd_buffer _ s).
  assert (connection_inv isn (own ++ blocks) peer limit cap live base (World s' (S (ticks w1)) (trace w1))) as Hinv'.
  { apply inv_written; [done|done|..].
    - pose proof (si_buffer s (sg_inv _ _ _ _ Hs)) as [? ? ?]. apply (sending_append s _ blocks Hs); try done.
      + unfold len in *. split; unfold len; simpl; rewrite ?length_app; lia.
      + apply Forall_forall. intros b Hb. by apply message_blocks_each in Hb as (_ & ? & _); [|lia]. }
  exists blocks. split; [eapply quiet_inv; [apply (quiet_update_snd_queue false)|exact Hinv']|].
  destruct Hquiet as [((E1 & _) & _) _]. unfold update_snd_queue. run.
  destruct (UdtSocket.multiplexer s'); run; (split; [apply message_blocks_bytes; lia|]); simpl; by rewrite <- E1.
Qed.
End sender.
