(* ===== verification/stream_receiver.v ===== *)
(** * The receiving side of a connection

    What the application reads is what the other end has written, in order: every packet
    in the receive buffer carries the block of its number, and the numbers between the
    next to read and the next to acknowledge are all there. *)

From S2P Require Import prelude seq_number time data_packet control_packet packet.
From S2P Require Import btree_map loss_list ack_window rcv_buffer snd_buffer float flow.
From S2P Require Import configuration rate_control socket_state world socket samples.
From S2P Require Import socket_sender socket_receiver socket_status socket_control stream_invariant.
From S2P Require Import stream_sender.

#[local] Arguments GenericSeqNumber.sub_i32 : simpl never.
#[local] Arguments GenericSeqNumber.add : simpl never.
#[local] Arguments GenericSeqNumber.sub : simpl never.
#[local] Arguments LossList.insert : simpl never.
#[local] Arguments LossList.remove : simpl never.
#[local] Arguments RcvBuffer.insert : simpl never.

(** ** What can be read *)

(** The bytes of the blocks from number [a] to [b]. *)
Definition bytes_of (isn : Z) (blocks : list SndBufferBlock.t) (a b : Z) : list Z :=
  block_bytes (take (Z.to_nat (b - a)) (drop (Z.to_nat (a - isn)) blocks)).

Lemma block_bytes_app l1 l2 : block_bytes (l1 ++ l2) = block_bytes l1 ++ block_bytes l2.
Proof. unfold block_bytes. by rewrite map_app, concat_app. Qed.

Lemma bytes_of_app isn blocks a b c : isn <= a <= b → b <= c →
  bytes_of isn blocks a c = bytes_of isn blocks a b ++ bytes_of isn blocks b c.
Proof.
  intros Hab Hbc. unfold bytes_of. rewrite <- block_bytes_app. f_equal.
  replace (Z.to_nat (c - a)) with (Z.to_nat (b - a) + Z.to_nat (c - b))%nat by lia.
  rewrite <- take_take_drop. f_equal. rewrite drop_drop. do 2 f_equal. lia.
Qed.

Lemma bytes_of_extend isn blocks more a b : isn <= a → b <= isn + len blocks →
  bytes_of isn (blocks ++ more) a b = bytes_of isn blocks a b.
Proof.
  intros Ha Hb. unfold bytes_of, len in *. f_equal. destruct (decide (a <= b)).
  - rewrite drop_app_le by lia. apply take_app_le. rewrite length_drop. lia.
  - by replace (Z.to_nat (b - a)) with 0%nat by lia.
Qed.

(** The keys of a sorted list that are exactly an interval. *)
Lemma sorted_keys {V} (l : list (Z * V)) r a : BTreeMap.sorted l → r <= a →
  (∀ x, x ∈ l.*1 ↔ r <= x < a) → l.*1 = seqZ r (a - r).
Proof.
  intros Hl. revert r. induction Hl as [|[k v] l Hl IH Hall]; intros r Hra Hin.
  - destruct (decide (r = a)) as [->|]; [by rewrite Z.sub_diag|]. exfalso.
    by apply (not_elem_of_nil r), Hin; lia.
  - rewrite Forall_forall in Hall. assert (∀ x, x ∈ l.*1 → k < x) as Hk.
    { intros x (p & -> & Hp)%list_elem_of_fmap. apply (Hall p Hp). }
    cbn in Hin |- *. assert (k = r) as ->.
    { pose proof (proj1 (Hin k) ltac:(left)). assert (r ∈ k :: l.*1) as [|Hr]%elem_of_cons by (apply Hin; lia); [done|].
      pose proof (Hk r Hr). lia. }
    pose proof (proj1 (Hin r) ltac:(left)). rewrite seqZ_cons by lia. f_equal.
    rewrite (IH (r + 1)); [f_equal; lia|lia|]. intros x. split.
    + intros Hx. pose proof (Hk x Hx). pose proof (proj1 (Hin x) ltac:(by right)). lia.
    + intros Hx. assert (x ∈ r :: l.*1) as [|?]%elem_of_cons by (apply Hin; lia); [lia|done].
Qed.

Lemma range_keys {V} (m : list (Z * V)) r a : BTreeMap.sorted m → r <= a →
  (∀ x, r <= x < a → x ∈ m.*1) → (BTreeMap.range r a m).*1 = seqZ r (a - r).
Proof.
  intros Hm Hra Hin. apply sorted_keys; [by apply sorted_filter|done|]. intros x. rewrite list_elem_of_fmap. split.
  - intros (p & -> & [_ ?]%elem_of_range). lia.
  - intros Hx. specialize (Hin x ltac:(lia)). apply list_elem_of_fmap in Hin as (p & -> & Hp).
    exists p. split; [done|]. apply elem_of_range. split; [done|lia].
Qed.

(** Packets under consecutive numbers carry consecutive blocks. *)
Lemma payload_bytes isn blocks (l : list (Z * UdtDataPacket.t)) r : isn <= r →
  l.*1 = seqZ r (len l) → (∀ k p, (k, p) ∈ l → k = seq_of p ∧ authentic isn blocks p) →
  payload l = bytes_of isn blocks r (r + len l).
Proof.
  revert r. induction l as [|[k p] l IH]; intros r Hr Hk Hl.
  { unfold bytes_of. replace (Z.to_nat _) with 0%nat by (unfold len; simpl; lia). done. }
  unfold len in *. cbn [length fmap list_fmap] in *. rewrite Nat2Z.inj_succ in *.
  rewrite seqZ_cons in Hk by lia. injection Hk as -> Hk.
  destruct (Hl r p) as [Hseq [_ (block & Hb & Hd)]]; [left|]. rewrite <- Hseq in Hb.
  assert (payload ((r, p) :: l) = UdtDataPacket.data p ++ payload l) as -> by done.
  rewrite (bytes_of_app _ _ r (r + 1)) by lia. f_equal.
  - unfold bytes_of. replace (r + 1 - r) with 1 by lia. change (Z.to_nat 1) with 1%nat.
    rewrite (drop_S _ _ _ Hb). simpl. rewrite firstn_O. unfold block_bytes. simpl. by rewrite Hd, app_nil_r.
  - rewrite (IH (r + 1)); [f_equal; lia|lia| |intros; apply Hl; by right].
    rewrite Hk. f_equal; lia.
Qed.

Section readable.
Variables (isn : Z) (peer : list SndBufferBlock.t) (limit : Z) (s : UdtSocket.t).
Hypothesis Hs : reading isn peer limit s.

Lemma readable_range :
  readable (UdtSocket.rcv_buffer s)
  = BTreeMap.range (to_read s) (acked_to s) (RcvBuffer.packets (UdtSocket.rcv_buffer s)).
Proof.
  unfold readable. rewrite (proj2 (Z.leb_le _ _)); [done|]. apply (rd_range _ _ _ _ Hs).
Qed.

Lemma readable_keys : (readable (UdtSocket.rcv_buffer s)).*1 = seqZ (to_read s) (acked_to s - to_read s).
Proof.
  rewrite readable_range. apply range_keys; [apply (rd_buffer _ _ _ _ Hs)|apply (rd_range _ _ _ _ Hs)|].
  apply (rd_complete _ _ _ _ Hs).
Qed.

Lemma readable_length : len (readable (UdtSocket.rcv_buffer s)) = acked_to s - to_read s.
Proof.
  pose proof (rd_range _ _ _ _ Hs). unfold len. rewrite <- (length_fmap fst), readable_keys, length_seqZ. lia.
Qed.

Lemma readable_prefix taken rest : readable (UdtSocket.rcv_buffer s) = taken ++ rest →
  taken.*1 = seqZ (to_read s) (len taken)
  ∧ payload taken = bytes_of isn peer (to_read s) (to_read s + len taken)
  ∧ to_read s + len taken <= acked_to s.
Proof.
  intros E. pose proof (rd_range _ _ _ _ Hs) as Hr. pose proof readable_length as Hlen.
  assert (len taken <= acked_to s - to_read s) as Hle.
  { rewrite <- Hlen, E. unfold len. rewrite length_app. lia. }
  assert (taken.*1 = seqZ (to_read s) (len taken)) as Hk.
  { pose proof readable_keys as Hkeys. rewrite E, fmap_app in Hkeys.
    replace (acked_to s - to_read s) with (len taken + (acked_to s - to_read s - len taken)) in Hkeys by lia.
    rewrite seqZ_app in Hkeys by (unfold len in *; lia).
    apply app_inj_1 in Hkeys as [? _]; [done|]. rewrite length_fmap, length_seqZ. unfold len. lia. }
  split; [done|]. split; [|lia]. apply payload_bytes; [lia|done|]. intros k p Hp.
  assert ((k, p) ∈ readable (UdtSocket.rcv_buffer s)) as Hin by (rewrite E; apply elem_of_app; by left).
  rewrite readable_range in Hin. apply elem_of_range in Hin as [Hin _].
  split; [by apply (rcv_keys _ (rd_buffer _ _ _ _ Hs))|by eapply rd_authentic].
Qed.
End readable.

(** ** Methods *)

(** What holds before a method, after it ends normally, and after it fails. *)
Definition triple {A} (P : world UdtSocket.t → Prop) (m : SM A) (Q : A → world UdtSocket.t → Prop)
    (E : world UdtSocket.t → Prop) : Prop :=
  ∀ w, P w → match m w with
             | (Ok a, w') => Q a w'
             | (_, w') => E w'
             end.

Lemma triple_bind {A B} P (m : SM A) R (f : A → SM B) Q E :
  triple P m R E → (∀ a, triple (R a) (f a) Q E) → triple P (m ≫= f) Q E.
Proof.
  intros Hm Hf w Hw. specialize (Hm w Hw). rewrite bind_run.
  destruct (m w) as [[a|e|] w']; [|done..]. by apply Hf.
Qed.

Lemma triple_quiet {A} P (m : SM A) (E : world UdtSocket.t → Prop) : all_runs quiet m →
  (∀ w w', quiet w w' → P w → P w') → (∀ w, P w → E w) → triple P m (λ _, P) E.
Proof.
  intros Hm HP HE w Hw. specialize (Hm w). specialize (HP _ _ Hm Hw).
  destruct (m w) as [[a|e|] w']; auto.
Qed.

Section receiver.
Context `{Profile} `{Env} `{FloatLib}.
Variables (isn : Z) (own peer : list SndBufferBlock.t) (limit cap : Z) (base : UdtSocket.t).
Hypothesis Hpeer : fits isn peer.
Hypothesis Hlimit : limit < isn + len peer.
Local Notation inv live := (connection_inv isn own peer limit cap live base).

Lemma inv_stop live w : inv live w → inv false w.
Proof. intros [? ? ? ? ?]. by split. Qed.

(** Numbers of the receiving side are close to each other. *)
Lemma receiving_numbers s : reading isn peer limit s →
  isn - 1 <= sent_ack s <= acked_to s ∧ isn <= acked_to s <= curr_rcv s + 1 ∧ curr_rcv s + 1 <= isn + len peer.
Proof. intros [_ ? _ _ ? ?]. lia. Qed.

(** A change of the receiving side alone. *)
Definition same_snd (s s' : UdtSocket.t) : Prop :=
  same_sender s s' ∧ UdtSocket.multiplexer s' = UdtSocket.multiplexer s
  ∧ UdtSocket.status s' = UdtSocket.status s.

Lemma same_snd_sending s s' : same_snd s s' → sending isn own cap s → sending isn own cap s'.
Proof.
  intros (Hs & Hm & Hst) [Hi Ha Hf Hcap Hb Ht Hmux Hc].
  pose proof (same_sender_inv _ _ Hs Hi). destruct Hs as (E1 & E2 & E3 & E4 & E5).
  split; rewrite ?E1, ?E2, ?E4, ?Hm, ?Hst; auto.
Qed.

Lemma inv_receiver live live' w s' n evs : inv live w → same_snd (sock w) s' → reading isn peer limit s' →
  (live' = true → rcv_inv s') → acked_to (sock w) <= acked_to s' → curr_rcv (sock w) <= curr_rcv s' →
  Forall (event_ok isn own s') evs → inv live' (World s' n (trace w ++ evs)).
Proof.
  intros [Hs Hr Hrv Ht Hb] Hsame Hr' Hrv' Ha Hc He.
  assert (advances (sock w) s') as Hadv.
  { destruct Hsame as ((_ & _ & E & _) & _). unfold advances. rewrite E. lia. }
  split; simpl; [by eapply same_snd_sending|done|done| |by etransitivity].
  by apply (trace_extend _ _ (sock w)).
Qed.

(** *** Reading *)

(** The packets read leave the buffer; those after them stay. *)
Lemma reading_consumed s taken rest : reading isn peer limit s →
  readable (UdtSocket.rcv_buffer s) = taken ++ rest →
  let s' := UdtSocket.set_rcv_buffer (consumed taken (UdtSocket.rcv_buffer s)) s in
  reading isn peer limit s' ∧ to_read s' = to_read s + len taken
  ∧ (∀ x, to_read s + len taken <= x → received s x → received s' x).
Proof.
  intros Hs Hsplit s'. pose proof (readable_prefix isn peer limit s Hs taken rest Hsplit) as (Hk & _ & Hle).
  pose proof (rd_range _ _ _ _ Hs) as Hr. pose proof (rd_buffer _ _ _ _ Hs) as Hb.
  pose proof (rcv_read_valid _ Hb) as Hrv. pose proof (rcv_ack_valid _ Hb) as Hav. unfold valid in Hrv, Hav.
  assert (to_read s' = to_read s + len taken) as Hto.
  { simpl. destruct (last taken) as [p|] eqn:Hl; cycle 1.
    { apply last_None in Hl as ->. unfold len; simpl; lia. }
    assert (last taken.*1 = Some p.1) as Hlast by (by rewrite fmap_last, Hl).
    rewrite Hk, last_lookup, length_seqZ in Hlast. apply lookup_seqZ in Hlast as [Hp Hlt].
    rewrite seq_add_small by lia. lia. }
  assert (∀ x, to_read s + len taken <= x → received s x → received s' x) as Hrec.
  { intros x Hx (p & -> & Hp)%list_elem_of_fmap. apply list_elem_of_fmap. exists p. split; [done|].
    simpl. apply elem_of_foldl_remove. split; [done|]. rewrite Hk, elem_of_seqZ. lia. }
  split; [|done]. destruct Hs as [? ? Ha Hc ? ?]. split.
  - by eapply consumed_wf.
  - rewrite Hto. simpl. unfold len in *. lia.
  - intros k p Hp. apply elem_of_foldl_remove in Hp as [Hp _]. by eapply Ha.
  - rewrite Hto. intros x Hx. apply Hrec; [lia|]. apply Hc. simpl in Hx. unfold len in *. lia.
  - done.
  - done.
Qed.

Lemma receiving_consumed s taken rest : reading isn peer limit s → rcv_inv s →
  readable (UdtSocket.rcv_buffer s) = taken ++ rest →
  rcv_inv (UdtSocket.set_rcv_buffer (consumed taken (UdtSocket.rcv_buffer s)) s).
Proof.
  intros Hs [? ? ? ? ? ? ? Hr] Hsplit.
  destruct (reading_consumed s taken rest Hs Hsplit) as (Hs' & _ & Hrec).
  pose proof (readable_prefix isn peer limit s Hs taken rest Hsplit) as (_ & _ & Hle).
  split; try done.
  - apply (rd_buffer _ _ _ _ Hs').
  - intros x Hx. destruct (Hr x Hx) as [?|?]; [by left|right]. apply Hrec; [|done]. simpl in Hx. lia.
Qed.

(** What one read hands over. *)
Lemma read_rcv_buffer_reads live buf w : inv live w →
  ∃ n buf' w', read_rcv_buffer buf w = (Ok (n, buf'), w') ∧ inv live w'
  ∧ to_read (sock w) <= to_read (sock w')
  ∧ ReadBuf.filled buf' = ReadBuf.filled buf ++ bytes_of isn peer (to_read (sock w)) (to_read (sock w')).
Proof.
  intros Hinv. pose proof (ci_reading _ _ _ _ _ _ _ _ Hinv) as Hs.
  destruct (read_buffer_value buf (UdtSocket.rcv_buffer (sock w)) (rd_buffer _ _ _ _ Hs))
    as (taken & rest & Hsplit & Hread & _ & _).
  destruct (reading_consumed _ _ _ Hs Hsplit) as (Hs' & Hto & _).
  pose proof (readable_prefix isn peer limit _ Hs taken rest Hsplit) as (_ & Hpay & _).
  unfold read_rcv_buffer. run. rewrite Hread. run. eexists _, _, _. split; [done|]. split.
  - rewrite <- (app_nil_r (trace w)). apply (inv_receiver live); simpl; try done; [|lia..].
    intros Hl. apply (receiving_consumed _ taken rest); [done| |done]. by apply (ci_receiving _ _ _ _ _ _ _ _ Hinv).
  - cbn [sock]. rewrite Hto. split; [unfold len; lia|]. simpl. by rewrite Hpay.
Qed.
(** A method that may fill the buffer of the caller: what it appends is the bytes of the
    blocks that it moves past. *)
Definition delivers {A} (m : SM A) (filled : A → option ReadBuf.t) (buf : ReadBuf.t) live w : Prop :=
  inv live w → inv live (m w).2 ∧ to_read (sock w) <= to_read (sock (m w).2)
  ∧ match (m w).1 with
    | Ok a => match filled a with
              | Some buf' => ReadBuf.filled buf' = ReadBuf.filled buf
                  ++ bytes_of isn peer (to_read (sock w)) (to_read (sock (m w).2))
              | None => to_read (sock (m w).2) = to_read (sock w)
              end
    | _ => to_read (sock (m w).2) = to_read (sock w)
    end.

Lemma delivers_quiet {A} (m : SM A) filled buf live w : all_runs quiet m →
  (∀ a w', m w = (Ok a, w') → filled a = None ∨ filled a = Some buf) → delivers m filled buf live w.
Proof.
  intros Hm Hf Hinv. pose proof (quiet_inv _ _ _ _ _ _ _ _ _ (Hm w) Hinv) as Hinv'.
  destruct (Hm w) as [(_ & E & _) _]. split; [done|]. rewrite E. split; [lia|].
  destruct (m w) as [[a|e|] w']; [|done..]. simpl in *.
  destruct (Hf a w' eq_refl) as [-> | ->]; [done|].
  unfold bytes_of. rewrite Z.sub_diag. by rewrite app_nil_r.
Qed.

Lemma delivers_bind {A B} (m : SM A) (f : A → SM B) filled buf live w : all_runs quiet m →
  (∀ a w', m w = (Ok a, w') → delivers (f a) filled buf live w') → delivers (m ≫= f) filled buf live w.
Proof.
  intros Hm Hf Hinv. pose proof (quiet_inv _ _ _ _ _ _ _ _ _ (Hm w) Hinv) as Hinv'.
  destruct (Hm w) as [(_ & E & _) _]. rewrite bind_run.
  destruct (m w) as [[a|e|] w']; cbn [snd fst] in *; [|by rewrite E..].
  rewrite <- E. by apply Hf.
Qed.

Lemma quiet_check_readable : all_runs quiet check_readable.
Proof. unfold check_readable. quietly. Qed.
Lemma quiet_check_stream : all_runs quiet check_stream.
Proof. unfold check_stream. quietly. Qed.

Lemma delivers_read buf live w : delivers (read_rcv_buffer buf) (λ r, Some r.2) buf live w.
Proof.
  intros Hinv. destruct (read_rcv_buffer_reads live buf w Hinv) as (n & buf' & w' & -> & Hinv' & Hle & Hf). done.
Qed.

Lemma delivers_recv_finish buf live w : delivers (recv_finish buf) (λ r, Some r.2) buf live w.
Proof. apply delivers_bind; [apply quiet_check_readable|]. intros [] w' _. apply delivers_read. Qed.

Lemma delivers_poll_recv buf live w : delivers (poll_recv buf) (λ r, snd <$> r) buf live w.
Proof.
  apply delivers_bind; [apply quiet_check_stream|]. intros [] w1 _.
  apply delivers_bind; [apply quiet_check_readable|]. intros [] w2 _.
  apply delivers_bind; [by quietly|]. intros b w3 _.
  apply delivers_bind; [by quietly|]. intros has_data w4 _.
  destruct has_data; simpl; [|apply delivers_quiet; [quietly|intros a w5 [= <- <-]; by left]].
  destruct (_ =? _)%nat; [apply delivers_quiet; [quietly|intros a w5 [= <- <-]; by right]|].
  intros Hinv. destruct (delivers_read buf live w4 Hinv) as (Hinv' & Hle & Hf). rewrite bind_run.
  destruct (read_rcv_buffer buf w4) as [[r|e|] w5]; done.
Qed.
(** *** Acknowledgements *)

(** A packet that is true may be sent. *)
Lemma kept_send_packet live p w : packet_ok isn own (sock w) p → inv live w → inv live (send_packet p w).2.
Proof.
  intros Hp Hinv. destruct (send_packet_trace p w) as [Es Et]. destruct (send_packet p w) as [o [s n tr]].
  simpl in *. subst s. destruct Et as [->|[addr ->]].
  - by apply (quiet_inv _ _ _ _ _ _ _ w); [split; [reflexivity|exists []; by rewrite app_nil_r]|].
  - destruct Hinv as [? ? ? ? ?]. split; simpl; try done. apply Forall_app. split; [done|]. by constructor.
Qed.

Lemma kept_send_full_ack live w : inv live w → inv live (send_full_ack w).2.
Proof.
  revert w. change (∀ w, kept isn own peer limit cap live base send_full_ack w). intros w. unfold send_full_ack.
  apply kept_bind; [by apply kept_quiet; quietly|]. intros st w1 _ _.
  apply kept_bind; [by apply kept_quiet; unfold diff; quietly|]. intros d w2 _ _.
  unfold when. destruct (d >? 0); [|by apply kept_quiet; quietly].
  apply kept_bind; [by apply kept_quiet; unfold_access; quietly|]. intros [] w3 _ _.
  apply kept_bind; [by apply kept_quiet, quiet_ack_info|]. intros info w4 _ _.
  apply kept_bind; [by apply kept_quiet; quietly|]. intros st' w5 [= <- <-] _.
  apply kept_bind; [by apply kept_quiet; quietly|]. intros id w6 [= _ <-] _.
  apply kept_bind; [by apply kept_quiet; quietly|]. intros id' w7 [= _ <-] Hinv.
  pose proof (rd_sent _ _ _ _ (ci_reading _ _ _ _ _ _ _ _ Hinv)) as [Hsent _].
  apply kept_bind; [intros _; apply kept_send_packet; [simpl; unfold control_ok; simpl; lia|done]|].
  intros [] w8 _ _. apply kept_quiet. unfold_access. quietly.
Qed.

(** The acknowledgement hands everything before the first missing number to the reader. *)
Lemma kept_advance_ack w : let num := next_to_ack (UdtSocket.state (sock w)) in
  inv true w → inv true (advance_ack num w).2.
Proof.
  intros num Hinv. pose proof (ci_receiving _ _ _ _ _ _ _ _ Hinv eq_refl) as Hrv.
  pose proof (ci_reading _ _ _ _ _ _ _ _ Hinv) as Hrd. rename Hrv into Hri.
  destruct (next_to_ack_spec _ Hri) as (Hnum & _ & _). fold num in Hnum.
  pose proof (receiving_numbers _ Hrd) as Hn.
  destruct (decide (sent_ack (sock w) < num)) as [Hlt|Hge].
  - destruct (advance_ack_parts w Hri Hlt) as (s' & Hadv & Hri' & Hto & Hsent & Hall & _).
    fold num in Hadv, Hto, Hsent, Hall. rewrite Hadv.
    assert (same_snd (sock w) s' ∧ curr_rcv s' = curr_rcv (sock w) ∧ to_read s' = to_read (sock w)
      ∧ RcvBuffer.packets (UdtSocket.rcv_buffer s') = RcvBuffer.packets (UdtSocket.rcv_buffer (sock w)))
      as (Hsame & Hc & Htr & Hpk).
    { revert Hadv. unfold advance_ack, gets_state, diff, modify_state. run.
      destruct (_ ⊖ _) as [d|e|]; run; [|done..]. destruct (d >? 0); run.
      - unfold RcvBuffer.ack_data. destruct (_ ⊖ _) as [d'|e|]; run; [|done..].
        intros [= <-]. by case_match.
      - destruct (d =? 0); run; [|done]. destruct (_ ≫= _); run; [|done..]. intros [=]. lia. }
    apply (inv_receiver true); [done|done| |done|lia|lia|by repeat constructor].
    destruct Hrd as [? Hr Ha Hcm ? ?]. split.
    + apply Hri'.
    + lia.
    + intros k p. rewrite Hpk. apply Ha.
    + intros x Hx. unfold received. rewrite Hpk. rewrite Htr, Hto in Hx.
      destruct (decide (x < acked_to (sock w))); [apply Hcm; lia|apply Hall; lia].
    + lia.
    + lia.
  - assert (Hq : quiet w (advance_ack num w).2); [|by eapply quiet_inv].
    unfold advance_ack, gets_state, diff. rewrite bind_run. cbn [gets]. rewrite bind_run. cbn [lift].
    rewrite (sub_exact isn peer) by (done || lia). destruct (Z.gtb_spec (num - sent_ack (sock w)) 0); [lia|].
    destruct (_ =? 0); [|reflexivity].
    match goal with |- quiet w (?m w).2 => assert (all_runs quiet m) as Hm by quietly; apply Hm end.
Qed.

Lemma kept_send_ack light w : inv true w → inv true (send_ack light w).2.
Proof.
  intros Hinv. unfold send_ack. rewrite bind_run. unfold gets at 1. cbv beta zeta.
  set (num := next_to_ack (UdtSocket.state (sock w))).
  destruct (num =? _); [done|].
  pose proof (ci_receiving _ _ _ _ _ _ _ _ Hinv eq_refl) as Hrv. pose proof (ci_reading _ _ _ _ _ _ _ _ Hinv) as Hrd.
  destruct (next_to_ack_spec _ Hrv) as (Hnum & _ & _). fold num in Hnum.
  pose proof (receiving_numbers _ Hrd) as Hn.
  destruct light.
  - run. destruct (UdtSocket.peer_socket_id (sock w)) as [id|]; run; [|done].
    apply kept_send_packet; [|done]. simpl. unfold control_ok. simpl. lia.
  - rewrite bind_run. pose proof (kept_advance_ack w Hinv) as Hinv1. fold num in Hinv1.
    destruct (advance_ack num w) as [[proceed|e|] w1]; [|done..]. cbn [snd] in Hinv1.
    destruct proceed; [by apply kept_send_full_ack|done].
Qed.

Lemma kept_ack_timer t w : kept isn own peer limit cap true base (ack_timer t) w.
Proof.
  assert (∀ light w, kept isn own peer limit cap true base (ignore_error (send_ack light)) w) as Hack.
  { intros light w' Hinv. pose proof (kept_send_ack light w' Hinv) as Hinv'. unfold ignore_error.
    by destruct (send_ack light w') as [[| |] ?]. }
  unfold ack_timer. apply kept_bind; [by apply kept_quiet; quietly|]. intros s w1 _ _.
  destruct (_ || _).
  - apply kept_bind; [apply Hack|]. intros [] w2 _ _. apply kept_quiet. unfold_access. quietly.
  - do 2 (apply kept_bind; [by apply kept_quiet; quietly|]; intros ? ? _ _).
    unfold when. destruct (_ <=? _); [|by apply kept_quiet; quietly].
    apply kept_bind; [apply Hack|]. intros [] w2 _ _. apply kept_quiet. unfold_access. quietly.
Qed.

Lemma kept_check_timers w : fits isn own → kept isn own peer limit cap true base check_timers w.
Proof.
  intros Hown. unfold check_timers. apply kept_bind; [apply kept_quiet, quiet_cc_update|]. intros [] w1 _ _.
  apply kept_bind; [by apply kept_quiet; quietly|]. intros t w2 _ _.
  apply kept_bind; [apply kept_ack_timer|]. intros [] w3 _ _. by apply kept_exp_timer.
Qed.
(** *** Data packets *)

Lemma reading_insert p s s' : reading isn peer limit s → authentic isn peer p →
  UdtSocket.rcv_buffer s' = RcvBuffer.insert p (UdtSocket.rcv_buffer s) →
  sent_ack s' = sent_ack s → curr_rcv s' = curr_rcv s → reading isn peer limit s'.
Proof.
  intros [Hb Hr Ha Hc Hsent Hl] Hp Eb Es Ec. pose proof (authentic_bound _ _ _ Hp) as Hlt.
  assert (to_read s' = to_read s ∧ acked_to s' = acked_to s) as [Er Ea]
    by (rewrite Eb; unfold RcvBuffer.insert; by case_match).
  split; rewrite ?Er, ?Ea, ?Es, ?Ec; try done.
  - rewrite Eb. apply rcv_wf_insert; [done|]. destruct Hp, Hpeer as (? & ? & ?). unfold valid. lia.
  - intros k q. rewrite Eb. intros [Hq|[[= -> ->] _]]%elem_of_rcv_insert; [by eapply Ha|done|done].
  - intros x Hx. apply (received_insert p s' (UdtSocket.rcv_buffer s)); [done|done|]. left. by apply Hc.
Qed.

(** The packet is in the buffer and the numbers skipped are recorded as lost, but the
    largest number received has not been updated yet. *)
Definition arrived (p : UdtDataPacket.t) (s : UdtSocket.t) : Prop :=
  ∃ s0, rcv_inv s0 ∧ isn - 1 <= sent_ack s0 <= seq_of p
  ∧ UdtSocket.rcv_buffer s = RcvBuffer.insert p (UdtSocket.rcv_buffer s0)
  ∧ sent_ack s = sent_ack s0 ∧ curr_rcv s = curr_rcv s0 ∧ wf (rcv_losses s)
  ∧ ∀ x, lost (rcv_losses s) x ↔ lost (rcv_losses s0) x ∨ curr_rcv s0 < x < seq_of p.

Definition arriving p (w : world UdtSocket.t) : Prop := inv false w ∧ arrived p (sock w).

Lemma arriving_quiet p w w' : quiet w w' → arriving p w → arriving p w'.
Proof.
  intros Hq [Hinv (s0 & Hs0)]. split; [by eapply quiet_inv|]. exists s0.
  destruct Hq as [(_ & -> & -> & -> & -> & _) _]. done.
Qed.

(** The number of an authentic packet against the state of the receiver. *)
Lemma arrived_accept p s s' losses : authentic isn peer p → seq_of p <= limit → arrived p s →
  UdtSocket.rcv_buffer s' = UdtSocket.rcv_buffer s → sent_ack s' = sent_ack s →
  curr_rcv s' = Z.max (seq_of p) (curr_rcv s) → losses = rcv_losses s →
  rcv_losses s' = (if seq_of p >? curr_rcv s then losses else LossList.remove (seq_of p) losses) →
  rcv_inv s'.
Proof.
  intros Hp Hl (s0 & Hri & Hsent & Eb & Es & Ec & Hwf & Hlost) Eb' Es' Ec' -> El'.
  pose proof (authentic_bound _ _ _ Hp). destruct Hpeer as (? & ? & ?).
  rewrite Ec in Ec', El'. rewrite Es in Es'.
  destruct (accept_inv s0 s' p (rcv_losses s)) as (Hri' & _); try done; [lia..|by rewrite Eb', Eb].
Qed.

Lemma finish_data_triple p n : authentic isn peer p → seq_of p <= limit →
  triple (arriving p) (finish_data n (seq_of p)) (λ _, inv true) (inv false).
Proof.
  intros Hp Hl. unfold finish_data.
  assert (∀ w, arriving p w → inv false w) as Hstop by (by intros w []).
  do 2 (eapply triple_bind; [apply triple_quiet; [quietly|apply arriving_quiet|done]|intros ?]).
  eapply triple_bind; [apply triple_quiet; [unfold_access; quietly|apply arriving_quiet|done]|intros []].
  intros w [Hinv Harr]. unfold gets_state, diff, modify_state. run.
  pose proof (authentic_bound _ _ _ Hp). pose proof (ci_reading _ _ _ _ _ _ _ _ Hinv) as Hrd.
  pose proof (rd_range _ _ _ _ Hrd). pose proof (rd_sent _ _ _ _ Hrd). pose proof (proj1 Hp).
  pose proof (rd_limit _ _ _ _ Hrd) as Hc.
  rewrite (sub_exact isn peer) by (done || lia). run. rewrite <- (app_nil_r (trace w)).
  set (s' := UdtSocket.set_state _ (sock w)).
  assert (curr_rcv s' = Z.max (seq_of p) (curr_rcv (sock w))
    ∧ rcv_losses s' = (if seq_of p >? curr_rcv (sock w) then rcv_losses (sock w)
                       else LossList.remove (seq_of p) (rcv_losses (sock w)))
    ∧ same_snd (sock w) s' ∧ UdtSocket.rcv_buffer s' = UdtSocket.rcv_buffer (sock w)
    ∧ sent_ack s' = sent_ack (sock w)) as (Ec & El & Hsame & Eb & Es).
  { subst s'. destruct (Z.gtb_spec (seq_of p - curr_rcv (sock w)) 0), (Z.gtb_spec (seq_of p) (curr_rcv (sock w)));
      try lia; simpl; by split_and!; (done || lia). }
  apply (inv_receiver false); [done|done| | |by rewrite Eb|lia|done].
  - destruct Hrd. split; unfold received; rewrite ?Eb, ?Es; (done || lia).
  - intros _. by apply (arrived_accept p (sock w) s' (rcv_losses (sock w))).
Qed.

(** A gap is reported before the packet is counted: the report may fail to leave. *)
Lemma report_gap_triple p b s0 w : authentic isn peer p →
  inv false w → rcv_inv s0 → isn - 1 <= sent_ack s0 <= seq_of p → curr_rcv s0 <= limit →
  UdtSocket.rcv_buffer (sock w) = RcvBuffer.insert p (UdtSocket.rcv_buffer s0) →
  sent_ack (sock w) = sent_ack s0 → curr_rcv (sock w) = curr_rcv s0 → rcv_losses (sock w) = rcv_losses s0 →
  b = bool_decide (curr_rcv s0 + 1 < seq_of p) →
  match when b (report_gap (seq_of p)) w with
  | (Ok _, w') => arriving p w'
  | (_, w') => inv false w'
  end.
Proof.
  intros Hp Hinv Hri Hsent Hlim Eb Es Ec El ->. pose proof (ri_curr _ Hri). pose proof (ri_losses _ Hri) as Hwf.
  pose proof (authentic_bound _ _ _ Hp) as Hlt. destruct Hpeer as (? & ? & ?).
  case_bool_decide as Hgap; unfold when.
  - destruct (gap_losses (rcv_losses s0) (curr_rcv s0) (seq_of p) Hwf) as (losses & Hl & Hwfl & Hlost); [lia|lia|].
    unfold report_gap, gets_state, update_state. run. rewrite sub_i32_small by lia. run.
    rewrite Ec, El, (seq_add_small (curr_rcv s0) 1), (seq_add_small (seq_of p) (- (1))) by lia.
    change (seq_of p + - (1)) with (seq_of p - 1). rewrite Hl. run.
    set (w1 := World _ (ticks w) (trace w)).
    match goal with |- context [send_packet ?q w1] => set (nak := q) end.
    assert (inv false w1) as Hinv1.
    { unfold w1. rewrite <- (app_nil_r (trace w)).
      pose proof (ci_reading _ _ _ _ _ _ _ _ Hinv) as Hrd.
      apply (inv_receiver false); [done|done| |done|done|simpl; lia|done].
      destruct Hrd. split; simpl; rewrite ?Ec in *; done. }
    assert (inv false (send_packet nak w1).2) as Hinv2.
    { apply kept_send_packet; [|done]. simpl. unfold control_ok. simpl.
      assert (valid (curr_rcv s0 + 1)) as Hv by (unfold valid; lia).
      destruct (interval_word (curr_rcv s0 + 1) Hv) as (E1 & _ & E3). unfold nak_words.
      destruct (Z.eqb_spec (curr_rcv s0 + 1) (seq_of p - 1)); simpl.
      - rewrite <- e, E3. simpl. done.
      - rewrite E1. simpl. split; [unfold valid; lia|done]. }
    pose proof (send_packet_trace nak w1) as [Esock _].
    destruct (send_packet nak w1) as [[[]|e|] w2]; cbn [snd] in *; [|done..]. split; [done|].
    exists s0. rewrite Esock. unfold w1. simpl. by rewrite Eb, Es.
  - split; [done|]. exists s0. rewrite El. split_and!; try done; try lia. intros x. naive_solver lia.
Qed.

Lemma process_data_triple p : authentic isn peer p → seq_of p <= limit →
  triple (inv true) (process_data p) (λ _, inv true) (inv false).
Proof.
  intros Hp Hl. change (process_data p) with
    (time ← now;
     update_state (λ st,
       n ← arith_u 64 (SocketState.pkt_count st + 1);
       Ok (SocketState.set_rsp (SocketState.exp_count st) time
             (SocketState.set_ack_timer (SocketState.next_ack_time st) n
                (SocketState.light_ack_counter st) st))) ;;
     record_arrival time (seq_of p) ;; data_test p).
  assert (∀ w, inv true w → inv false w) as Hstop by (intros w; apply inv_stop).
  eapply triple_bind; [apply triple_quiet; [quietly|by apply quiet_inv|done]|intros time].
  eapply triple_bind; [apply triple_quiet; [unfold_access; quietly|by apply quiet_inv|done]|intros []].
  eapply triple_bind; [apply triple_quiet; [apply quiet_record_arrival|by apply quiet_inv|done]|intros [] w Hinv].
  pose proof (ci_receiving _ _ _ _ _ _ _ _ Hinv eq_refl) as Hrv. pose proof (ci_reading _ _ _ _ _ _ _ _ Hinv) as Hrd.
  pose proof (receiving_numbers _ Hrd) as Hn. pose proof (authentic_bound _ _ _ Hp). pose proof (proj1 Hp).
  unfold data_test, gets_state, diff, modify_rcv_buffer. run. rewrite (sub_exact isn peer) by (done || lia). run.
  destruct (Z.ltb_spec (seq_of p - sent_ack (sock w)) 0); run; [done|].
  destruct (RcvBuffer.get_available_buf_size _) as [available|e|]; run; [|by apply Hstop..].
  destruct (available <? _); run; [done|].
  set (w1 := World _ (ticks w) (trace w)). rewrite (sub_exact isn peer) by (done || simpl; lia). run.
  assert (inv false w1) as Hinv1.
  { unfold w1. rewrite <- (app_nil_r (trace w)).
    apply (inv_receiver true); try done; [by apply (reading_insert p (sock w))|]. simpl. by rewrite insert_keeps_ack. }
  pose proof (report_gap_triple p (seq_of p - curr_rcv (sock w1) >? 1) (sock w) w1) as Hgap.
  destruct (when _ _ w1) as [[[]|e|] w2].
  - apply finish_data_triple; [done|done|]. apply Hgap; try done; [lia|apply (rd_limit _ _ _ _ Hrd)|].
    simpl. case_bool_decide; destruct (Z.gtb_spec (seq_of p - curr_rcv (sock w)) 1); (done || lia).
  - apply Hgap; try done; [lia|apply (rd_limit _ _ _ _ Hrd)|].
    simpl. case_bool_decide; destruct (Z.gtb_spec (seq_of p - curr_rcv (sock w)) 1); (done || lia).
  - apply Hgap; try done; [lia|apply (rd_limit _ _ _ _ Hrd)|].
    simpl. case_bool_decide; destruct (Z.gtb_spec (seq_of p - curr_rcv (sock w)) 1); (done || lia).
Qed.

(** The control packets that may reach a socket: acknowledgements of what has been sent,
    meaningful loss reports, and no request to drop a message. *)
Definition acceptable (s : UdtSocket.t) (c : UdtControlPacket.t) : Prop :=
  match UdtControlPacket.packet_type c with
  | Ack a => isn - 1 <= AckInfo.next_seq_number a <= curr_snd s + 1
      ∧ (is_Some (AckInfo.info a) → AckInfo.next_seq_number a <= cap)
  | Nak n => nak_ok (NakInfo.loss_info n)
  | MsgDropRequest _ => False
  | _ => True
  end.

Lemma kept_process_ctrl c w : fits isn own → acceptable (sock w) c →
  kept isn own peer limit cap true base (process_ctrl c) w.
Proof.
  intros Hown Hc. unfold process_ctrl. apply kept_bind; [by apply kept_quiet; quietly|]. intros t w1 [= _ <-] _.
  apply kept_bind; [by apply kept_quiet; unfold_access; quietly|].
  unfold modify_state. intros [] w2 [= <-] _.
  unfold acceptable in Hc. destruct (UdtControlPacket.packet_type c) as [hs| |a|n| | |d|] eqn:Et.
  - intros Hinv. pose proof (sg_status _ _ _ _ (ci_sending _ _ _ _ _ _ _ _ Hinv)) as Hst.
    unfold on_handshake. rewrite bind_run. cbn [gets]. by rewrite (bool_decide_eq_false_2 _ Hst).
  - by apply kept_quiet; quietly.
  - destruct Hc. by apply kept_on_ack.
  - by apply kept_on_nak.
  - apply kept_quiet. quietly.
  - apply kept_quiet, quiet_on_ack2.
  - done.
  - by apply kept_quiet; quietly.
Qed.
End receiver.

(** ** What the reader has consumed

    Only the reading methods move it. *)

Definition same_read (s s' : UdtSocket.t) : Prop := to_read s' = to_read s.

#[export] Instance same_read_preorder : PreOrder same_read.
Proof. split; unfold same_read; [done|congruence]. Qed.

Section same_read.
Context `{Profile} `{Env} `{FloatLib}.
Local Notation no_read m := (all_steps same_read m).

Lemma read_ack_data to b b' : RcvBuffer.ack_data to b = Ok b' → RcvBuffer.next_to_read b' = RcvBuffer.next_to_read b.
Proof. unfold RcvBuffer.ack_data. intros (d & _ & Hd)%bind_is_Ok. apply (inj Ok) in Hd as <-. by case_match. Qed.

Lemma read_insert p b : RcvBuffer.next_to_read (RcvBuffer.insert p b) = RcvBuffer.next_to_read b.
Proof. unfold RcvBuffer.insert. by case_match. Qed.

Ltac reads :=
  intros; repeat match goal with
  | H : _ ≫= _ = Ok _ |- _ => apply bind_is_Ok in H as (? & ? & H); cbv beta in H
  | H : Ok _ = Ok _ |- _ => apply (inj Ok) in H; subst
  end; unfold same_read; simpl; repeat case_match;
    first [done|by rewrite read_insert|eauto using read_ack_data].

(** Goes through the body of a method. *)
Ltac unread := unfold_access;
  repeat match goal with
  | |- ∀ _, _ => intro
  | |- all_steps _ (_ ≫= _) => apply steps_bind
  | |- all_steps _ (when _ _) => apply steps_when
  | |- all_steps _ (ignore_error _) => apply steps_ignore_error
  | |- all_steps _ (modify _) => apply steps_modify; reads
  | |- all_steps _ (update _) => apply steps_update; [apply _|reads]
  | |- all_steps _ (if ?b then _ else _) => destruct b
  | |- all_steps _ (let '_ := ?x in _) => destruct x
  | |- all_steps _ (match ?x with _ => _ end) => destruct x
  | |- PreOrder _ => apply _
  | _ => solve [eauto with world]
  end.

Lemma read_send_packet p : no_read (send_packet p).
Proof. unfold send_packet, send_to. steps. Qed.
Lemma read_diff a b : no_read (diff a b).
Proof. unfold diff. steps. Qed.
Lemma read_cc_update : no_read cc_update.
Proof. unfold cc_update. unfold_access. steps; reads. Qed.
#[local] Hint Resolve read_send_packet read_diff read_cc_update : world.

Lemma read_update_snd_queue b : no_read (update_snd_queue b).
Proof. unfold update_snd_queue. unread. Qed.
Lemma read_set_status v : no_read (set_status v).
Proof. unfold set_status. unread. Qed.
#[local] Hint Resolve read_update_snd_queue read_set_status : world.

Lemma read_send data : no_read (send data).
Proof. unfold send. unread. Qed.

Lemma read_begin_data_packets : no_read begin_data_packets.
Proof. unfold begin_data_packets, take_lost. unread. Qed.

Lemma read_finish_data_packets now to_resend : no_read (finish_data_packets now to_resend).
Proof. unfold finish_data_packets, read_block, drop_expired, fetch_new, reset_pacing, pace. unread. Qed.

Lemma read_send_data_packets packets : no_read (send_data_packets packets).
Proof.
  unfold send_data_packets. unread. induction packets; simpl; unread.
Qed.

Lemma read_send_ack light : no_read (send_ack light).
Proof.
  unfold send_ack, advance_ack, send_full_ack, ack_info. unread.
Qed.
#[local] Hint Resolve read_send_ack : world.

Lemma read_check_timers : no_read check_timers.
Proof. unfold check_timers, ack_timer, exp_timer, resend_or_keep_alive. unread. Qed.

Lemma read_close_finish : no_read close_finish.
Proof. unfold close_finish, notify_all. unread. Qed.

Lemma read_process_data p : no_read (process_data p).
Proof. unfold process_data, record_arrival, report_gap, finish_data. unread. Qed.

Lemma read_process_ctrl c : no_read (process_ctrl c).
Proof.
  unfold process_ctrl, on_handshake, on_ack, on_ack2, on_nak, on_light_ack, send_ack2, ack_received,
    ack_statistics, on_drop_request, notify_all. unread.
Qed.

Lemma read_process_packet p : no_read (process_packet p).
Proof. destruct p; [apply read_process_ctrl|apply read_process_data]. Qed.
End same_read.
