(* ===== verification/stream.v ===== *)
(** * A connection over an unreliable network

    The two ends of an established connection, each with its application, its sending and
    its receiving tasks, and between them a network that may lose, repeat, delay and
    reorder everything that was sent, and forge some control packets. *)

From stdpp Require Import relations.
From S2P Require Import prelude seq_number time data_packet control_packet packet.
From S2P Require Import btree_map loss_list ack_window rcv_buffer snd_buffer float flow.
From S2P Require Import configuration rate_control socket_state world socket samples.
From S2P Require Import socket_sender socket_receiver socket_status stream_invariant.
From S2P Require Import stream_sender stream_receiver listener.

#[global] Open Scope Z_scope.

(** ** The ends *)

Module Endpoint.
(** [live]: the receiving worker has not ended.  [begun]: the sending worker is between the
    two halves of [next_data_packets], where it holds no lock; [prepared] is what it has
    been given and the sending task has not sent yet.  [written], [blocks] and [read] say
    what the application has done: the bytes accepted by [send], in how many blocks, and
    the bytes returned by [recv] and [poll_recv]. *)
Record t := mk {
  world : world UdtSocket.t;
  live : bool;
  begun : option (Z * option (Z * Z));
  prepared : list (list UdtDataPacket.t);
  written : list Z;
  blocks : nat;
  read : list Z
}.

Definition socket (e : t) : UdtSocket.t := sock (world e).

(** What the application, the two workers, the cleanup task and the network make the
    socket do; a buffer of the application is its size.  [Halt]: another socket of the
    multiplexer, or a datagram, ends the receiving worker. *)
Inductive action :=
  | Write (data : list Z)
  | Begin
  | Finish
  | Transmit
  | Poll (room : nat)
  | Recv (room : nat)
  | Timers
  | Close
  | Collect
  | Halt
  | Receive (packet : UdtPacket).

Section actions.
Context `{Profile} `{Env} `{FloatLib}.

(** Blocks waiting in the send buffer. *)
Definition buffered (w : world.world UdtSocket.t) : nat :=
  length (SndBuffer.buffer (UdtSocket.snd_buffer (sock w))).

Definition write (data : list Z) (e : t) : t :=
  let '(o, w) := send data (world e) in
  mk w (live e) (begun e) (prepared e) (written e ++ if is_ok o then data else [])
     (blocks e + (buffered w - buffered (world e))) (read e).

Definition begin (e : t) : t :=
  match begun e with
  | Some _ => e
  | None =>
      let '(o, w) := begin_data_packets (world e) in
      mk w (live e) (match o with Ok r => r | _ => None end) (prepared e) (written e) (blocks e) (read e)
  end.

Definition finish (e : t) : t :=
  match begun e with
  | Some (now, to_resend) =>
      let '(o, w) := finish_data_packets now to_resend (world e) in
      mk w (live e) None (prepared e ++ match o with Ok (Some (packets, _)) => [packets] | _ => [] end)
         (written e) (blocks e) (read e)
  | None => e
  end.

Definition transmit (e : t) : t :=
  match prepared e with
  | [] => e
  | packets :: rest =>
      mk (send_data_packets packets (world e)).2 (live e) (begun e) rest (written e) (blocks e) (read e)
  end.

(** The caller's buffer is empty: what fills it is what is read. *)
Definition poll (room : nat) (e : t) : t :=
  let '(o, w) := poll_recv (ReadBuf.mk [] room) (world e) in
  mk w (live e) (begun e) (prepared e) (written e) (blocks e)
     (read e ++ match o with Ok (Some (_, buf)) => ReadBuf.filled buf | _ => [] end).

Definition recv (room : nat) (e : t) : t :=
  let '(o, w) := recv_finish (ReadBuf.mk [] room) (world e) in
  mk w (live e) (begun e) (prepared e) (written e) (blocks e)
     (read e ++ match o with Ok (_, buf) => ReadBuf.filled buf | _ => [] end).

(** A method of the receiving worker, which an error ends. *)
Definition serve (m : SM unit) (e : t) : t :=
  if live e then
    let '(o, w) := m (world e) in mk w (is_ok o) (begun e) (prepared e) (written e) (blocks e) (read e)
  else e.

(** A method of another task, which reports nothing. *)
Definition call (m : SM unit) (e : t) : t :=
  mk (m (world e)).2 (live e) (begun e) (prepared e) (written e) (blocks e) (read e).

(** A socket that is not alive receives nothing. *)
Definition receive (packet : UdtPacket) (e : t) : t :=
  if UdtStatus.is_alive (UdtSocket.status (socket e)) then serve (process_packet packet) e else e.

Definition perform (a : action) (e : t) : t :=
  match a with
  | Write data => write data e
  | Begin => begin e
  | Finish => finish e
  | Transmit => transmit e
  | Poll room => poll room e
  | Recv room => recv room e
  | Timers => serve check_timers e
  | Close => call close_finish e
  | Collect => call (set_status Closed) e
  | Halt => mk (world e) false (begun e) (prepared e) (written e) (blocks e) (read e)
  | Receive packet => receive packet e
  end.
End actions.
End Endpoint.

Notation endpoint := Endpoint.t.

(** ** The network *)

Inductive side := Client | Server.
Definition other (i : side) : side := match i with Client => Server | Server => Client end.

Record system := System { client : endpoint; server : endpoint }.
Definition at_side (i : side) (sys : system) : endpoint :=
  match i with Client => client sys | Server => server sys end.
Definition put (i : side) (e : endpoint) (sys : system) : system :=
  match i with Client => System e (server sys) | Server => System (client sys) e end.

(** The control packets that someone else may forge: not data, not an acknowledgement, not
    a request to drop a message; a loss report with the layout that the protocol
    prescribes. *)
Definition forgeable (p : UdtPacket) : Prop :=
  match p with
  | Data _ => False
  | Control c => match UdtControlPacket.packet_type c with
                 | Ack _ | MsgDropRequest _ => False
                 | Nak n => nak_ok (NakInfo.loss_info n)
                 | _ => True
                 end
  end.

(** What the network may deliver to the other end: anything that has ever been sent, any
    number of times, in any order. *)
Definition in_transit (e : endpoint) (p : UdtPacket) : Prop :=
  (∃ addr, SendTo addr p ∈ trace (Endpoint.world e)) ∨ forgeable p.

Section network.
Context `{Profile} `{FloatLib} (env : side → Env).

Inductive step (sys : system) : system → Prop :=
  | step_act i a : (∀ p, a ≠ Endpoint.Receive p) →
      step sys (put i (@Endpoint.perform _ (env i) _ a (at_side i sys)) sys)
  | step_deliver i p : in_transit (at_side (other i) sys) p →
      step sys (put i (@Endpoint.perform _ (env i) _ (Endpoint.Receive p) (at_side i sys)) sys).
End network.

(** A packet is being retransmitted: its place in the send buffer is known, and the send
    buffer is not locked yet. *)
Definition retransmitting (e : endpoint) : bool :=
  match Endpoint.begun e with Some (_, Some _) => true | _ => false end.

(** The step does not move the send buffer under a retransmission; only an acknowledgement
    of an earlier number does. *)
Definition undisturbed (sys sys' : system) : Prop :=
  ∀ i, retransmitting (at_side i sys) = true →
    first_kept (Endpoint.socket (at_side i sys')) = first_kept (Endpoint.socket (at_side i sys)).

Definition calm_step `{Profile} `{FloatLib} (env : side → Env) (sys sys' : system) : Prop :=
  step env sys sys' ∧ undisturbed sys sys'.

(** A socket that has neither sent nor received data: both directions start at [isn]. *)
Record unused (isn : Z) (s : UdtSocket.t) : Prop := {
  un_snd : SndBuffer.buffer (UdtSocket.snd_buffer s) = [] ∧ position s = 0;
  un_size : 0 <= SndBuffer.max_size (UdtSocket.snd_buffer s) <= U32_MAX;
  un_sent : first_kept s = isn ∧ last_acked s = isn ∧ curr_snd s = isn ⊕ -1 ∧ snd_losses s = LossList.new;
  un_rcv : RcvBuffer.packets (UdtSocket.rcv_buffer s) = [] ∧ to_read s = isn ∧ acked_to s = isn;
  un_received : (sent_ack s = isn ∨ sent_ack s = isn ⊕ -1) ∧ curr_rcv s = isn ⊕ -1 ∧ rcv_losses s = LossList.new
}.

(** A socket whose handshake is complete. *)
Definition established (isn : Z) (s : UdtSocket.t) : Prop :=
  unused isn s ∧ is_Some (UdtSocket.multiplexer s) ∧ UdtSocket.status s ≠ Connecting.

(** Nothing but the packets of the handshake has been sent. *)
Definition fresh (isn : Z) (e : endpoint) : Prop :=
  established isn (Endpoint.socket e) ∧ Forall plain_event (trace (Endpoint.world e))
  ∧ Endpoint.begun e = None ∧ Endpoint.prepared e = [] ∧ Endpoint.written e = [] ∧ Endpoint.blocks e = 0%nat ∧ Endpoint.read e = [].

(** The numbers given out so far stay below the wrap-around point. *)
Definition in_range (isn : Z) (e : endpoint) : Prop :=
  1 < isn ∧ isn + Z.of_nat (Endpoint.blocks e) < SEQ_MAX ∧ Z.of_nat (Endpoint.blocks e) + 1 < 2 ^ 30.

(** ** The invariant *)

Record endpoint_inv (isn : Z) (own peer : list SndBufferBlock.t) (limit cap : Z) (base : UdtSocket.t)
    (e : endpoint) : Prop := {
  en_connection : connection_inv isn own peer limit cap (Endpoint.live e) base (Endpoint.world e);
  en_begun now to_resend : Endpoint.begun e = Some (now, to_resend) → in_place (Endpoint.socket e) to_resend;
  en_prepared : Forall (sendable isn own (Endpoint.socket e)) (Endpoint.prepared e);
  en_written : Endpoint.written e = block_bytes own;
  en_blocks : Endpoint.blocks e = length own;
  en_read : Endpoint.read e = bytes_of isn peer isn (to_read (Endpoint.socket e))
}.

(** An end against the other end: what the other has sent bounds what it receives, what the
    other can read bounds what it releases. *)
Definition side_inv (isn : Z) (own peer : list SndBufferBlock.t) (e e' : endpoint) : Prop :=
  endpoint_inv isn own peer (curr_snd (Endpoint.socket e')) (acked_to (Endpoint.socket e'))
    (Endpoint.socket e) e.

Definition pair_inv (isn : Z) (own peer : list SndBufferBlock.t) (e e' : endpoint) : Prop :=
  side_inv isn own peer e e' ∧ side_inv isn peer own e' e.

(** ** One end *)

Lemma sendable_mono isn own more s s' packets :
  advances s s' → sendable isn own s packets → sendable isn (own ++ more) s' packets.
Proof. intros Ha Hp. eapply Forall_impl; [exact Hp|]. intros p. by apply (packet_ok_mono _ _ _ s). Qed.

Lemma prepared_mono isn own more s s' prepared :
  advances s s' → Forall (sendable isn own s) prepared → Forall (sendable isn (own ++ more) s') prepared.
Proof. intros Ha Hp. eapply Forall_impl; [exact Hp|]. intros packets. by apply sendable_mono. Qed.

Lemma reading_grows isn peer more limit limit' s :
  limit <= limit' → reading isn peer limit s → reading isn (peer ++ more) limit' s.
Proof.
  intros Hl [? ? Ha ? ? ?]. split; try done; [|lia]. intros k p Hp. apply authentic_app. by eapply Ha.
Qed.

Lemma sending_grows isn own cap cap' s : cap <= cap' → sending isn own cap s → sending isn own cap' s.
Proof. intros Hc [? ? ? ? ? ? ? ?]. split; try done. lia. Qed.

(** The other end has moved on. *)
Lemma endpoint_grows isn own peer more limit limit' cap cap' base e :
  limit < isn + len peer → limit <= limit' → cap <= cap' →
  endpoint_inv isn own peer limit cap base e → endpoint_inv isn own (peer ++ more) limit' cap' base e.
Proof.
  intros Hlen Hl Hc [[Hs Hr Hrv Ht Hb] Hbg Hp Hw Hn Hrd]. split; try done.
  - split; eauto using reading_grows, sending_grows.
  - pose proof (receiving_numbers _ _ _ Hlen _ Hr). pose proof (rd_range _ _ _ _ Hr).
    rewrite Hrd, bytes_of_extend; unfold Endpoint.socket; (done || lia).
Qed.

Lemma endpoint_rebase isn own peer limit cap base e :
  endpoint_inv isn own peer limit cap base e → endpoint_inv isn own peer limit cap (Endpoint.socket e) e.
Proof. intros [[? ? ? ? ?] ? ? ? ? ?]. by split. Qed.

(** The packets that may reach an end. *)
Definition receivable (isn : Z) (peer : list SndBufferBlock.t) (limit cap : Z) (s : UdtSocket.t)
    (p : UdtPacket) : Prop :=
  match p with
  | Data d => authentic isn peer d ∧ seq_of d <= limit
  | Control c => acceptable isn cap s c
  end.

Section perform.
Context `{Profile} `{Env} `{FloatLib}.
Variables (isn : Z) (own peer : list SndBufferBlock.t) (limit cap : Z).
Hypothesis Hown : fits isn own.
Hypothesis Hpeer : fits isn peer.
Hypothesis Hlimit : limit < isn + len peer.
Local Notation inv e := (endpoint_inv isn own peer limit cap (Endpoint.socket e) e).
Local Notation cinv live base := (connection_inv isn own peer limit cap live base).

(** What the first half has found stays right as long as nothing is released. *)
Definition held_in_place (e : endpoint) (w : world UdtSocket.t) : Prop :=
  retransmitting e = true → first_kept (sock w) = first_kept (Endpoint.socket e).

Lemma begun_stays e w now to_resend : inv e → advances (Endpoint.socket e) (sock w) → held_in_place e w →
  Endpoint.begun e = Some (now, to_resend) → in_place (sock w) to_resend.
Proof.
  intros He (Hc & _ & _) Hheld E. pose proof (en_begun _ _ _ _ _ _ _ He _ _ E) as Hp.
  unfold held_in_place, retransmitting in Hheld. rewrite E in Hheld.
  destruct to_resend as [[seq offset]|]; [|done]. destruct Hp as [Hseq ->]. simpl in *.
  rewrite (Hheld eq_refl). lia.
Qed.

(** An action that neither writes nor reads. *)
Lemma endpoint_moves (e : endpoint) (live : bool) (w : world UdtSocket.t) begun (prepared : list (list UdtDataPacket.t)) :
  inv e → cinv live (Endpoint.socket e) w →
  (∀ now to_resend, begun = Some (now, to_resend) → in_place (sock w) to_resend) →
  Forall (sendable isn own (sock w)) prepared → to_read (sock w) = to_read (Endpoint.socket e) →
  endpoint_inv isn own peer limit cap (Endpoint.socket e)
    (Endpoint.mk w live begun prepared (Endpoint.written e) (Endpoint.blocks e) (Endpoint.read e)).
Proof.
  intros [_ _ _ Hw Hb Hr] Hinv Hbg Hp Ht. split; try done. unfold Endpoint.socket in *. simpl. by rewrite Ht.
Qed.

(** A method that runs without reading, and keeps the invariant. *)
Lemma endpoint_calls {A} (m : SM A) (live : bool) (e : endpoint) : inv e → all_steps same_read m →
  held_in_place e (m (Endpoint.world e)).2 → cinv live (Endpoint.socket e) (m (Endpoint.world e)).2 →
  endpoint_inv isn own peer limit cap (Endpoint.socket e)
    (Endpoint.mk (m (Endpoint.world e)).2 live (Endpoint.begun e) (Endpoint.prepared e) (Endpoint.written e)
       (Endpoint.blocks e) (Endpoint.read e)).
Proof.
  intros He Hm Hheld Hinv. pose proof (ci_base _ _ _ _ _ _ _ _ Hinv) as Ha.
  apply endpoint_moves; [done|done|intros now to_resend; by apply begun_stays| |apply Hm]. rewrite <- (app_nil_r own).
  eapply prepared_mono; [exact Ha|apply (en_prepared _ _ _ _ _ _ _ He)].
Qed.

Lemma write_inv data e : inv e → held_in_place e (send data (Endpoint.world e)).2 →
  ∃ more, endpoint_inv isn (own ++ more) peer limit cap (Endpoint.socket e) (Endpoint.write data e).
Proof.
  intros He Hheld. pose proof He as [Hc Hbg Hp Hw Hb Hr].
  destruct (send_appends isn own peer limit cap (Endpoint.live e) (Endpoint.socket e) data _ Hc)
    as (more & Hinv & Hbytes & Hbuf).
  exists more. pose proof (read_send data (Endpoint.world e)) as Hread. unfold same_read in Hread.
  pose proof (ci_base _ _ _ _ _ _ _ _ Hinv) as Ha. unfold Endpoint.write, Endpoint.buffered.
  destruct (send data (Endpoint.world e)) as [o w]. cbn [fst snd] in *. split; simpl.
  - done.
  - intros now to_resend. by apply (begun_stays e w).
  - by eapply prepared_mono.
  - by rewrite Hw, block_bytes_app, Hbytes.
  - rewrite Hb, Hbuf, !length_app. lia.
  - unfold Endpoint.socket in *. simpl. by rewrite Hr, Hread.
Qed.

Lemma begin_inv e : inv e → endpoint_inv isn own peer limit cap (Endpoint.socket e) (Endpoint.begin e).
Proof.
  intros He. pose proof He as [Hc _ Hp _ _ _]. unfold Endpoint.begin.
  destruct (Endpoint.begun e) as [x|]; [done|].
  destruct (begin_data_packets_ensures isn own peer limit cap (Endpoint.live e) (Endpoint.socket e) Hown
    (Endpoint.world e) Hc) as [Hinv Hres].
  pose proof (read_begin_data_packets (Endpoint.world e)) as Hread.
  pose proof (ci_base _ _ _ _ _ _ _ _ Hinv) as Ha.
  destruct (begin_data_packets (Endpoint.world e)) as [o w]. cbn [fst snd] in *.
  apply (endpoint_moves e (Endpoint.live e) w); [done|done| | |done].
  - intros now to_resend Ho. destruct o as [r|err|]; [subst r|done..]. by apply (Hres _ w eq_refl).
  - rewrite <- (app_nil_r own). by eapply prepared_mono.
Qed.

Lemma finish_inv e : inv e → endpoint_inv isn own peer limit cap (Endpoint.socket e) (Endpoint.finish e).
Proof.
  intros He. pose proof He as [Hc Hbg Hp _ _ _]. unfold Endpoint.finish.
  destruct (Endpoint.begun e) as [[now to_resend]|]; [|done].
  destruct (finish_data_packets_ensures isn own peer limit cap (Endpoint.live e) (Endpoint.socket e) Hown
    now to_resend (Endpoint.world e) (Hbg _ _ eq_refl) Hc) as [Hinv Hres].
  pose proof (read_finish_data_packets now to_resend (Endpoint.world e)) as Hread.
  pose proof (ci_base _ _ _ _ _ _ _ _ Hinv) as Ha.
  destruct (finish_data_packets now to_resend (Endpoint.world e)) as [o w]. cbn [fst snd] in *.
  apply (endpoint_moves e (Endpoint.live e) w); [done|done|done| |done]. apply Forall_app. split.
  - rewrite <- (app_nil_r own). by eapply prepared_mono.
  - destruct o as [[[packets t]|]|err|]; [|by constructor..]. constructor; [|by constructor].
    by apply (Hres (Some (packets, t)) w).
Qed.

Lemma transmit_inv e : inv e → held_in_place e (Endpoint.world (Endpoint.transmit e)) →
  endpoint_inv isn own peer limit cap (Endpoint.socket e) (Endpoint.transmit e).
Proof.
  intros He Hheld. pose proof He as [Hc _ Hp _ _ _]. unfold Endpoint.transmit in *.
  destruct (Endpoint.prepared e) as [|packets rest] eqn:E; [done|]. apply Forall_cons in Hp as [Hp Hrest].
  pose proof (kept_send_data_packets isn own peer limit cap (Endpoint.live e) (Endpoint.socket e) packets _ Hp Hc) as Hinv.
  pose proof (ci_base _ _ _ _ _ _ _ _ Hinv) as Ha.
  apply endpoint_moves; [done|done|intros now to_resend; by apply begun_stays| |apply read_send_data_packets].
  rewrite <- (app_nil_r own). by eapply prepared_mono.
Qed.

(** What a reading method puts in the empty buffer of its caller is what was next. *)
Lemma endpoint_reads {A} (m : SM A) (filled : A → option ReadBuf.t) room e : inv e →
  held_in_place e (m (Endpoint.world e)).2 →
  delivers isn own peer limit cap (Endpoint.socket e) m filled (ReadBuf.mk [] room) (Endpoint.live e)
    (Endpoint.world e) →
  let '(o, w) := m (Endpoint.world e) in
  endpoint_inv isn own peer limit cap (Endpoint.socket e)
    (Endpoint.mk w (Endpoint.live e) (Endpoint.begun e) (Endpoint.prepared e) (Endpoint.written e) (Endpoint.blocks e)
       (Endpoint.read e ++ match o with
                           | Ok a => match filled a with Some buf => ReadBuf.filled buf | None => [] end
                           | _ => []
                           end)).
Proof.
  intros He Hheld Hm. pose proof He as [Hc Hbg Hp Hw Hb Hr]. destruct (Hm Hc) as (Hinv & Hle & Hres).
  pose proof (ci_base _ _ _ _ _ _ _ _ Hinv) as Ha.
  pose proof (rd_range _ _ _ _ (ci_reading _ _ _ _ _ _ _ _ Hc)) as Hrange.
  destruct (m (Endpoint.world e)) as [o w]. cbn [fst snd] in *. split; try done.
  - intros now to_resend. by apply (begun_stays e w).
  - simpl. rewrite <- (app_nil_r own). by eapply prepared_mono.
  - unfold Endpoint.socket in *. simpl.
    rewrite Hr, (bytes_of_app isn peer isn (to_read (sock (Endpoint.world e))) (to_read (sock w))) by lia. f_equal.
    assert (∀ x, bytes_of isn peer x x = []) as Hnil by (intros x; unfold bytes_of; by rewrite Z.sub_diag).
    destruct o as [a|err|]; [destruct (filled a); [done|]|..]; by rewrite Hres, Hnil.
Qed.

Lemma poll_inv room e : inv e → held_in_place e (Endpoint.world (Endpoint.poll room e)) →
  endpoint_inv isn own peer limit cap (Endpoint.socket e) (Endpoint.poll room e).
Proof.
  intros He Hheld. unfold Endpoint.poll in *.
  pose proof (endpoint_reads (poll_recv (ReadBuf.mk [] room)) (λ r, snd <$> r) room e He) as Hr.
  assert (held_in_place e (poll_recv (ReadBuf.mk [] room) (Endpoint.world e)).2) as Hh by (by destruct (poll_recv _ _)).
  specialize (Hr Hh (delivers_poll_recv _ _ _ _ _ _ _ _ _)). clear Hheld Hh.
  destruct (poll_recv _ _) as [[[[n buf]|]|err|] w]; exact Hr.
Qed.

Lemma recv_inv room e : inv e → held_in_place e (Endpoint.world (Endpoint.recv room e)) →
  endpoint_inv isn own peer limit cap (Endpoint.socket e) (Endpoint.recv room e).
Proof.
  intros He Hheld. unfold Endpoint.recv in *.
  pose proof (endpoint_reads (recv_finish (ReadBuf.mk [] room)) (λ r, Some r.2) room e He) as Hr.
  assert (held_in_place e (recv_finish (ReadBuf.mk [] room) (Endpoint.world e)).2) as Hh by (by destruct (recv_finish _ _)).
  specialize (Hr Hh (delivers_recv_finish _ _ _ _ _ _ _ _ _)). clear Hheld Hh.
  destruct (recv_finish _ _) as [[[n buf]|err|] w]; exact Hr.
Qed.

Lemma call_inv m e : inv e → all_steps same_read m → all_runs quiet m →
  endpoint_inv isn own peer limit cap (Endpoint.socket e) (Endpoint.call m e).
Proof.
  intros He Hm Hq. apply endpoint_calls; [done|done| |].
  - destruct (Hq (Endpoint.world e)) as [((_ & E & _) & _) _]. by intros _.
  - eapply quiet_inv; [apply Hq|apply (en_connection _ _ _ _ _ _ _ He)].
Qed.

(** After a failure the receiving worker no longer relies on its view of what has arrived. *)
Lemma serve_inv m e : inv e → all_steps same_read m → held_in_place e (Endpoint.world (Endpoint.serve m e)) →
  triple (cinv true (Endpoint.socket e)) m (λ _, cinv true (Endpoint.socket e)) (cinv false (Endpoint.socket e)) →
  endpoint_inv isn own peer limit cap (Endpoint.socket e) (Endpoint.serve m e).
Proof.
  intros He Hm Hheld Ht. unfold Endpoint.serve in *. destruct (Endpoint.live e) eqn:El; [|done].
  pose proof (en_connection _ _ _ _ _ _ _ He) as Hc. rewrite El in Hc. specialize (Ht _ Hc).
  pose proof (endpoint_calls m (is_ok (m (Endpoint.world e)).1) e He Hm) as Hcall.
  destruct (m (Endpoint.world e)) as [[a|err|] w]; by apply Hcall.
Qed.

(** What is kept at every run of a method is kept when it fails. *)
Lemma kept_triple {A} (m : SM A) base :
  (∀ w, kept isn own peer limit cap true base m w) → triple (cinv true base) m (λ _, cinv true base) (cinv false base).
Proof.
  intros Hm w Hw. specialize (Hm w Hw). pose proof (λ w, inv_stop isn own peer limit cap base true w) as Hstop.
  destruct (m w) as [[a|err|] w']; eauto.
Qed.

Lemma receive_inv p e : inv e → receivable isn peer limit cap (Endpoint.socket e) p →
  held_in_place e (Endpoint.world (Endpoint.receive p e)) →
  endpoint_inv isn own peer limit cap (Endpoint.socket e) (Endpoint.receive p e).
Proof.
  intros He Hp Hheld. unfold Endpoint.receive in *. destruct (UdtStatus.is_alive _); [|done].
  destruct p as [c|d]; cbn [receivable] in Hp.
  - unfold Endpoint.serve in *. destruct (Endpoint.live e) eqn:El; [|done].
    pose proof (en_connection _ _ _ _ _ _ _ He) as Hc. rewrite El in Hc.
    pose proof (kept_process_ctrl isn own peer limit cap (Endpoint.socket e) c (Endpoint.world e) Hown Hp Hc) as Hinv.
    pose proof (endpoint_calls (process_ctrl c) (is_ok (process_ctrl c (Endpoint.world e)).1) e He
      (read_process_ctrl c)) as Hcall. simpl in Hheld |- *.
    pose proof (inv_stop _ _ _ _ _ _ _ _ Hinv) as Hstop.
    destruct (process_ctrl c (Endpoint.world e)) as [[a|err|] w]; by apply Hcall.
  - destruct Hp as [Hp Hle]. apply serve_inv; [done|apply read_process_data|done|].
    by apply process_data_triple.
Qed.

(** Every action keeps the invariant, if it leaves alone the send buffer under a
    retransmission; only [Write] adds blocks. *)
Lemma perform_inv a e : inv e → held_in_place e (Endpoint.world (Endpoint.perform a e)) → (∀ p, a = Endpoint.Receive p → receivable isn peer limit cap (Endpoint.socket e) p) →
  ∃ more, endpoint_inv isn (own ++ more) peer limit cap (Endpoint.socket e) (Endpoint.perform a e).
Proof.
  intros He Hheld Hp. destruct a; simpl in Hheld; [|exists []; rewrite app_nil_r; simpl..].
  - apply write_inv; [done|]. unfold Endpoint.write in Hheld. by destruct (send _ _).
  - by apply begin_inv.
  - by apply finish_inv.
  - by apply transmit_inv.
  - by apply poll_inv.
  - by apply recv_inv.
  - apply serve_inv; [done|apply read_check_timers|done|]. apply kept_triple. intros w. by apply kept_check_timers.
  - apply call_inv; [done|apply read_close_finish|apply quiet_close_finish].
  - apply call_inv; [done|apply read_set_status|by apply quiet_set_status].
  - pose proof He as [Hc _ _ _ _ _]. apply (endpoint_moves e false (Endpoint.world e)); [done| |apply He|apply He|done].
    by eapply inv_stop.
  - by apply receive_inv; [|apply Hp|].
Qed.
End perform.

(** ** Both ends *)

Lemma pair_inv_sym isn own peer e e' : pair_inv isn own peer e e' → pair_inv isn peer own e' e.
Proof. by intros []. Qed.

(** What an end has sent is bounded by what it has written. *)
Lemma side_limit isn own peer e e' : fits isn own → side_inv isn own peer e e' →
  curr_snd (Endpoint.socket e) < isn + len own.
Proof.
  intros Hown He. pose proof (ci_sending _ _ _ _ _ _ _ _ (en_connection _ _ _ _ _ _ _ He)) as Hs.
  unfold Endpoint.socket. rewrite (sending_curr _ _ _ Hown _ Hs). pose proof (sending_position _ _ _ _ Hs). lia.
Qed.

(** What is in transit may reach the other end. *)
Lemma transit_receivable isn own peer e e' p : fits isn own → fits isn peer → pair_inv isn own peer e e' →
  in_transit e' p →
  receivable isn peer (curr_snd (Endpoint.socket e')) (acked_to (Endpoint.socket e')) (Endpoint.socket e) p.
Proof.
  intros Hown Hpeer [_ He'] [[addr Hp]|Hp]; cycle 1.
  { destruct p as [c|d]; [|done]. unfold forgeable in Hp. simpl. unfold acceptable.
    by destruct (UdtControlPacket.packet_type c). }
  pose proof (en_connection _ _ _ _ _ _ _ He') as Hc.
  pose proof (proj1 (Forall_forall _ _) (ci_trace _ _ _ _ _ _ _ _ Hc) _ Hp) as Hok.
  destruct p as [c|d]; simpl in Hok |- *; [|done].
  pose proof (ci_reading _ _ _ _ _ _ _ _ Hc) as Hr. pose proof (rd_limit _ _ _ _ Hr).
  pose proof (rd_sent _ _ _ _ Hr). unfold control_ok in Hok. unfold acceptable.
  destruct (UdtControlPacket.packet_type c) as [hs| |a|n| | |d|]; try done. unfold Endpoint.socket in *.
  destruct (AckInfo.info a) as [info|]; split; [lia|intros _; lia|lia|by intros []].
Qed.

Section network_inv.
Context `{Profile} `{FloatLib} (env : side → Env) (isn : Z).

(** One end moves; the other sees it move forward. *)
Lemma pair_moves `{Env} own peer a e e' : fits isn own → fits isn peer → pair_inv isn own peer e e' →
  (∀ p, a = Endpoint.Receive p → in_transit e' p) →
  held_in_place e (Endpoint.world (Endpoint.perform a e)) →
  ∃ more, pair_inv isn (own ++ more) peer (Endpoint.perform a e) e'.
Proof.
  intros Hown Hpeer Hpair Ha Hheld. pose proof Hpair as [He He']. pose proof (side_limit _ _ _ _ _ Hown He) as Hl.
  destruct (perform_inv isn own peer (curr_snd (Endpoint.socket e')) (acked_to (Endpoint.socket e')) Hown Hpeer
    (side_limit _ _ _ _ _ Hpeer He') a e He Hheld) as [more Hmore].
  { intros p Hp. eapply transit_receivable; [exact Hown|exact Hpeer|exact Hpair|by apply Ha]. }
  exists more. split; [by eapply endpoint_rebase|].
  destruct (ci_base _ _ _ _ _ _ _ _ (en_connection _ _ _ _ _ _ _ Hmore)) as (? & ? & _).
  by eapply endpoint_grows.
Qed.

(** *** The start *)

Lemma not_lost_new x : ¬ lost LossList.new x.
Proof. by intros (? & ? & ? & ?%elem_of_nil & _). Qed.

Lemma unused_sending s cap : 1 < isn < SEQ_MAX → established isn s → isn <= cap → sending isn [] cap s.
Proof.
  intros Hisn [[[Eb Ep] Hsize (Ef & Ea & Ec & El) _ _] [Hm Hst]] Hcap.
  split; rewrite ?Ef, ?Ea, ?Ep; try done; [|lia|unfold len; simpl; lia|by rewrite Eb, drop_nil].
  split; rewrite ?Ef, ?Ea, ?Ec, ?El, ?Ep; try done; [|unfold valid; lia..|apply wf_new|].
  - split; rewrite ?Eb, ?Ep; unfold len; simpl; (done || lia).
  - by intros x ?%not_lost_new.
Qed.

Lemma unused_receiving s limit : 1 < isn → isn < SEQ_MAX → unused isn s → isn - 1 <= limit →
  reading isn [] limit s ∧ rcv_inv s.
Proof.
  intros Hlo Hhi [_ _ _ (Ep & Er & Ea) (Es & Ec & El)] Hlimit. rewrite (seq_add_small isn (-1)) in Es, Ec by lia.
  assert (rcv_wf (UdtSocket.rcv_buffer s)) as Hwf.
  { split; rewrite ?Ep, ?Er, ?Ea; [constructor|by intros k p ?%elem_of_nil|unfold valid; lia..]. }
  split.
  - split; rewrite ?Ep, ?Er, ?Ea, ?Ec; try done; try lia. by intros k p ?%elem_of_nil.
  - split; rewrite ?Ea, ?Ec, ?El; try done; try lia; [apply wf_new|by intros x ?%not_lost_new].
Qed.

Lemma in_range_fits own peer e e' : side_inv isn own peer e e' → in_range isn e → fits isn own.
Proof.
  intros He. unfold in_range, fits, len. rewrite (en_blocks _ _ _ _ _ _ _ He). done.
Qed.

Lemma fresh_side e e' : fresh isn e → fresh isn e' → in_range isn e → side_inv isn [] [] e e'.
Proof.
  intros (Hs & Ht & Hbg & Hp & Hw & Hb & Hr) ([Hu' _] & _) (Hlo & Hhi & _). rewrite Hb in Hhi.
  pose proof Hu' as [_ _ (_ & _ & Ec & _) (_ & _ & Ea) _]. pose proof Hs as [Hu _].
  rewrite seq_add_small in Ec by lia.
  destruct (unused_receiving _ (curr_snd (Endpoint.socket e')) Hlo ltac:(lia) Hu) as [Hrd Hrv]; [lia|].
  split; rewrite ?Hbg, ?Hp, ?Hw, ?Hb, ?Hr; try done; [split; try done|].
  - apply unused_sending; [lia|done|]. rewrite Ea. lia.
  - eapply Forall_impl; [exact Ht|]. intros. by apply plain_ok.
  - unfold bytes_of. by rewrite drop_nil, firstn_nil.
Qed.

(** Blocks are never forgotten. *)
Lemma perform_blocks `{Env} a e : (Endpoint.blocks e <= Endpoint.blocks (Endpoint.perform a e))%nat.
Proof.
  destruct a; simpl; unfold Endpoint.write, Endpoint.begin, Endpoint.finish, Endpoint.transmit, Endpoint.poll, Endpoint.recv,
    Endpoint.receive, Endpoint.serve; repeat case_match; simpl; lia.
Qed.

Lemma perform_in_range `{Env} a e : in_range isn (Endpoint.perform a e) → in_range isn e.
Proof. unfold in_range. pose proof (perform_blocks a e). lia. Qed.

(** *** The network *)

Definition in_range_system (sys : system) : Prop := in_range isn (client sys) ∧ in_range isn (server sys).
Definition system_inv (sys : system) : Prop := ∃ own peer, pair_inv isn own peer (client sys) (server sys).

Lemma step_in_range sys sys' : step env sys sys' → in_range_system sys' → in_range_system sys.
Proof.
  intros [i a _|i p _] [Hc Hs]; destruct i; split; try done.
  1,3: exact (@perform_in_range (env Client) _ _ Hc).
  all: exact (@perform_in_range (env Server) _ _ Hs).
Qed.

Lemma step_inv sys sys' : calm_step env sys sys' → in_range_system sys → system_inv sys → system_inv sys'.
Proof.
  intros [Hstep Hcalm] [Hc Hs] (own & peer & Hpair). pose proof (in_range_fits _ _ _ _ (proj1 Hpair) Hc) as Hown.
  pose proof (in_range_fits _ _ _ _ (proj2 Hpair) Hs) as Hpeer.
  assert (∀ i a, (∀ p, a = Endpoint.Receive p → in_transit (at_side (other i) sys) p) →
    undisturbed sys (put i (@Endpoint.perform _ (env i) _ a (at_side i sys)) sys) →
    system_inv (put i (@Endpoint.perform _ (env i) _ a (at_side i sys)) sys)) as Hmove.
  { intros i a Ha Hu. specialize (Hu i). destruct i; simpl in *.
    - destruct (@pair_moves (env Client) own peer a _ _ Hown Hpeer Hpair Ha Hu) as [more Hmore]. by exists (own ++ more), peer.
    - destruct (@pair_moves (env Server) peer own a _ _ Hpeer Hown (pair_inv_sym _ _ _ _ _ Hpair) Ha Hu) as [more Hmore].
      exists own, (peer ++ more). by apply pair_inv_sym. }
  destruct Hstep as [i a Ha|i p Hp]; apply Hmove; [by intros p ?%Ha|done|by intros ? [= ->]|done].
Qed.

Lemma run_inv sys sys' : rtc (calm_step env) sys sys' → in_range_system sys' →
  (in_range_system sys → system_inv sys) → system_inv sys'.
Proof.
  intros Hrun. induction Hrun as [sys|sys sys1 sys' Hstep Hrun IH]; [auto|].
  intros Hin Hsys. apply IH; [done|]. intros Hin1.
  pose proof (step_in_range _ _ (proj1 Hstep) Hin1). eauto using step_inv.
Qed.

Lemma fresh_system_inv sys : fresh isn (client sys) → fresh isn (server sys) → in_range_system sys → system_inv sys.
Proof. intros Hc Hs [Hic His]. exists [], []. split; by apply fresh_side. Qed.
End network_inv.

(** ** Reliable, ordered delivery *)

(** What has arrived in order: what the application has read, and what it can read now. *)
Definition delivered (e : endpoint) : list Z :=
  Endpoint.read e ++ payload (readable (UdtSocket.rcv_buffer (Endpoint.socket e))).

(** What the socket still keeps: the blocks that the other end has not acknowledged. *)
Definition retained (e : endpoint) : list Z :=
  block_bytes (SndBuffer.buffer (UdtSocket.snd_buffer (Endpoint.socket e))).

Lemma delivered_value isn own peer e e' : 1 < isn → side_inv isn own peer e e' →
  delivered e = bytes_of isn peer isn (acked_to (Endpoint.socket e)).
Proof.
  intros Hisn He. pose proof (ci_reading _ _ _ _ _ _ _ _ (en_connection _ _ _ _ _ _ _ He)) as Hr.
  unfold delivered. rewrite (en_read _ _ _ _ _ _ _ He). unfold Endpoint.socket in *.
  destruct (readable_prefix _ _ _ _ Hr _ [] (eq_sym (app_nil_r _))) as (_ & -> & _).
  rewrite (readable_length _ _ _ _ Hr). pose proof (rd_range _ _ _ _ Hr).
  rewrite <- bytes_of_app by lia. f_equal. lia.
Qed.

Lemma prefix_bytes isn blocks a : ∃ rest, block_bytes blocks = bytes_of isn blocks isn a ++ rest.
Proof.
  unfold bytes_of. rewrite Z.sub_diag. cbn [Z.to_nat drop]. eexists.
  by rewrite <- block_bytes_app, take_drop.
Qed.

(** Everything written has either been released or is retained; what is released is the
    beginning of what has been delivered, and that of what has been written. *)
Lemma stream_parts `{Profile} `{FloatLib} (env : side → Env) isn sys0 sys i :
  fresh isn (client sys0) → fresh isn (server sys0) → rtc (calm_step env) sys0 sys →
  in_range isn (client sys) → in_range isn (server sys) →
  let sender := at_side i sys in
  let receiver := at_side (other i) sys in
  (∃ in_flight, Endpoint.written sender = delivered receiver ++ in_flight)
  ∧ ∃ released not_released, Endpoint.written sender = released ++ retained sender
    ∧ delivered receiver = released ++ not_released.
Proof.
  intros Hc0 Hs0 Hrun Hc Hs sender receiver.
  destruct (run_inv env isn sys0 sys Hrun (conj Hc Hs) (fresh_system_inv isn sys0 Hc0 Hs0)) as (own & peer & Hpair).
  assert (∃ own peer, pair_inv isn own peer sender receiver) as (b & b' & Hb & Hb').
  { destruct i; [by exists own, peer|exists peer, own; by apply pair_inv_sym]. }
  clearbody sender receiver. clear own peer Hpair. destruct Hc as [Hisn _].
  rewrite (delivered_value _ _ _ _ _ Hisn Hb'), (en_written _ _ _ _ _ _ _ Hb).
  split; [apply prefix_bytes|].
  pose proof (ci_sending _ _ _ _ _ _ _ _ (en_connection _ _ _ _ _ _ _ Hb)) as Hsend.
  pose proof (sg_first _ _ _ _ Hsend). pose proof (sg_released _ _ _ _ Hsend).
  exists (bytes_of isn b isn (first_kept (Endpoint.socket sender))), (bytes_of isn b
    (first_kept (Endpoint.socket sender)) (acked_to (Endpoint.socket receiver))).
  unfold Endpoint.socket in *. split; [|apply bytes_of_app; lia].
  unfold retained, Endpoint.socket. rewrite (sg_buffer _ _ _ _ Hsend). unfold bytes_of. rewrite Z.sub_diag.
  cbn [Z.to_nat drop]. by rewrite <- block_bytes_app, take_drop.
Qed.

(** What [poll_flush] waits for: once it is ready, everything written has arrived. *)
Lemma flushed_parts `{Profile} `{FloatLib} (env : side → Env) isn sys0 sys i :
  fresh isn (client sys0) → fresh isn (server sys0) → rtc (calm_step env) sys0 sys →
  in_range isn (client sys) → in_range isn (server sys) →
  (UdtConnection.poll_flush (Endpoint.world (at_side i sys))).1 = Ok (UdtConnection.Ready (Ok ())) →
  delivered (at_side (other i) sys) = Endpoint.written (at_side i sys).
Proof.
  intros Hc0 Hs0 Hrun Hc Hs Hflush.
  destruct (stream_parts env isn sys0 sys i Hc0 Hs0 Hrun Hc Hs) as ([in_flight Hw] & released & rest & Hk & Hd).
  assert (retained (at_side i sys) = []) as Hr.
  { revert Hflush. unfold retained, UdtConnection.poll_flush, UdtSocket.snd_buffer_is_empty, SndBuffer.is_empty.
    run. unfold Endpoint.socket. by destruct (SndBuffer.buffer _). }
  rewrite Hr, app_nil_r in Hk. rewrite Hk in Hw |- *. rewrite Hd in Hw |- *.
  rewrite <- app_assoc in Hw. rewrite <- (app_nil_r released) in Hw at 1. apply app_inv_head in Hw.
  symmetry in Hw. apply app_nil in Hw as [-> _]. apply app_nil_r.
Qed.

(** ** Concrete runs *)

(** Two ends of a connection whose numbers start at 100. *)
Definition sample_end : endpoint := Endpoint.mk sample_world true None [] [] 0 [].
Definition sample_system : system := System sample_end sample_end.
Definition act (i : side) (a : Endpoint.action) (sys : system) : system :=
  put i (@Endpoint.perform true sample_env sample_float a (at_side i sys)) sys.

(** The packets that an end has sent. *)
Definition sent_packets (e : endpoint) : list UdtPacket :=
  omap (λ ev, match ev with SendTo _ p => Some p | _ => None end) (trace (Endpoint.world e)).

(** The client writes three bytes and sends them. *)
Definition sample_written : system :=
  act Client Endpoint.Transmit (act Client Endpoint.Finish (act Client Endpoint.Begin
    (act Client (Endpoint.Write [1; 2; 3]) sample_system))).

Lemma sample_fresh : fresh 100 sample_end.
Proof. split_and!; try done. split; [|by split]. split; vm_compute; split_and?; (congruence || by right). Qed.
