(* ===== verification/handshake.v ===== *)
(** * From the handshake to the stream

    The handshake leaves both ends [established] with the same initial sequence number,
    which is where [stream.v] starts. *)

From S2P Require Import prelude seq_number time data_packet control_packet packet.
From S2P Require Import btree_map loss_list ack_window rcv_buffer snd_buffer float flow.
From S2P Require Import configuration rate_control socket_state world socket samples.
From S2P Require Import socket_sender socket_receiver socket_status rcv_queue udt stream_invariant stream_sender.
From S2P Require Import stream udp.

(** A socket that has not exchanged data stays one that has not. *)
Definition stays_unused (isn : Z) (w w' : world UdtSocket.t) : Prop :=
  (unused isn (sock w) → unused isn (sock w'))
  ∧ UdtSocket.multiplexer (sock w') = UdtSocket.multiplexer (sock w)
  ∧ ∃ evs, trace w' = trace w ++ evs ∧ Forall plain_event evs.

#[export] Instance stays_unused_preorder isn : PreOrder (stays_unused isn).
Proof.
  split.
  - intros w. split; [done|]. split; [done|]. exists []. by rewrite app_nil_r.
  - intros w1 w2 w3 (H1 & M1 & e1 & E1 & F1) (H2 & M2 & e2 & E2 & F2). split; [auto|]. split; [congruence|].
    exists (e1 ++ e2). rewrite E2, E1, <- app_assoc. split; [done|]. by apply Forall_app.
Qed.

Lemma same_stream_unused isn s s' : same_stream s s' → unused isn s → unused isn s'.
Proof.
  intros ((E1 & E2 & E3 & E4 & E5) & Eb & Es & Ec & El & _) [? ? ? ? ?].
  split; rewrite ?E1, ?E2, ?E3, ?E4, ?E5, ?Eb, ?Es, ?Ec, ?El; done.
Qed.

Section handshake.
Context `{Profile} `{Env} `{FloatLib} (isn : Z).
Local Notation stays m := (all_runs (stays_unused isn) m).

Lemma stays_quiet {A} (m : SM A) : all_runs quiet m → stays m.
Proof.
  intros Hm w. destruct (Hm w) as [Hs Hevs]. split; [by apply same_stream_unused|]. split; [apply Hs|done].
Qed.

Lemma stays_bind {A B} (m : SM A) (f : A → SM B) : stays m → (∀ a, stays (f a)) → stays (m ≫= f).
Proof. apply runs_bind, _. Qed.

Lemma stays_modify f : (∀ s, unused isn s → unused isn (f s)) →
  (∀ s, UdtSocket.multiplexer (f s) = UdtSocket.multiplexer s) → stays (modify f).
Proof. intros Hf Hm w. split; [apply Hf|]. split; [apply Hm|]. exists []. by rewrite app_nil_r. Qed.

Lemma stays_update f : (∀ s s', f s = Ok s' → unused isn s → unused isn s') →
  (∀ s s', f s = Ok s' → UdtSocket.multiplexer s' = UdtSocket.multiplexer s) → stays (update f).
Proof.
  intros Hf Hm w. rewrite update_run. destruct (f (sock w)) as [s'|e|] eqn:E; [|reflexivity..].
  split; [by apply Hf|]. split; [by apply Hm|]. exists []. by rewrite app_nil_r.
Qed.

Ltac unused_fields :=
  intros; repeat match goal with
  | H : _ ≫= _ = Ok _ |- _ => apply bind_is_Ok in H as (? & ? & H); cbv beta in H
  | H : Ok _ = Ok _ |- _ => apply (inj Ok) in H; subst
  | H : unused _ _ |- _ => destruct H
  end; try split; simpl in *; auto; naive_solver.

Ltac stays :=
  unfold_access; repeat match goal with
  | |- ∀ _, _ => intro
  | |- all_runs (stays_unused _) (_ ≫= _) => apply stays_bind
  | |- all_runs (stays_unused _) (modify _) => apply stays_modify; [unfold set_status; unused_fields|done]
  | |- all_runs (stays_unused _) (update _) => apply stays_update; [unused_fields|unused_fields]
  | |- all_runs (stays_unused _) (if ?b then _ else _) => destruct b
  | |- all_runs (stays_unused _) (match ?x with _ => _ end) => destruct x
  | _ => solve [apply stays_quiet; quietly]
  end.

Lemma stays_connect_start : stays connect_start.
Proof. unfold connect_start. stays. Qed.

(** The address of the peer decides the size of the blocks. *)
Lemma set_peer_addr_unused addr s s' : UdtSocket.set_peer_addr addr s = Ok s' →
  (unused isn s → unused isn s') ∧ UdtSocket.multiplexer s' = UdtSocket.multiplexer s.
Proof.
  intros (size & _ & Hs)%bind_is_Ok. apply (inj Ok) in Hs as <-. split; [|done]. by intros [? ? ? ? ?].
Qed.

Lemma stays_connect_request addr : stays (connect_request addr).
Proof.
  unfold connect_request, set_status. apply stays_bind; [stays|intros []]. apply stays_bind; [|stays].
  apply stays_update; by intros s s' [? ?]%set_peer_addr_unused.
Qed.

Lemma stays_on_handshake hs : HandShakeInfo.initial_seq_number hs = isn → stays (on_handshake hs).
Proof. intros E. unfold on_handshake, set_status. rewrite E. stays. Qed.

Lemma stays_connect_on_handshake peer hs : stays (connect_on_handshake peer hs).
Proof. unfold connect_on_handshake, set_status. stays. Qed.

(** *** New sockets *)

Lemma new_unused clock rnd id ty conf :
  0 <= UdtConfiguration.snd_buf_size (default UdtConfiguration.default conf) <= U32_MAX →
  unused isn (UdtSocket.new clock rnd id ty (Some isn) conf).
Proof. intros Hsize. split; simpl; try done; first [by destruct conf|auto]. Qed.

Lemma with_peer_unused peer id s s' : UdtSocket.with_peer peer id s = Ok s' → unused isn s → unused isn s'.
Proof.
  intros (s1 & Hs1 & Hs)%bind_is_Ok. apply (inj Ok) in Hs as <-. intros Hu.
  apply (proj1 (set_peer_addr_unused _ _ _ Hs1)) in Hu. by destruct Hu.
Qed.

(** The socket of the server before it answers. *)
Lemma accepted_socket_unused l id peer hs w s w' ls :
  accepted_socket l id peer hs w = (Ok s, w') → Udt.heap (sock w) !! l = Some ls →
  0 <= UdtConfiguration.snd_buf_size (UdtSocket.configuration ls) <= U32_MAX →
  HandShakeInfo.initial_seq_number hs = isn →
  unused isn s ∧ is_Some (UdtSocket.multiplexer s) ∧ UdtSocket.status s = Opened.
Proof.
  intros Hacc Hl Hsize Hisn. revert Hacc. unfold accepted_socket, deref. run. rewrite Hl. run.
  destruct (UdtSocket.multiplexer ls) as [mux|]; [|done]. destruct (_ >=? _); [done|]. run.
  destruct (UdtSocket.with_peer _ _ _) as [s1|e|] eqn:E; run; [|done..]. intros [= <- _].
  assert (unused isn s1) as [? ? ? ? ?].
  { eapply with_peer_unused; [exact E|]. rewrite Hisn. by apply new_unused. }
  split; [by split|]. split; [by eexists|done].
Qed.
End handshake.

(** What the handshakes of the peer do to a socket that is connecting. *)
Definition client_side (isn : Z) (w w' : world UdtSocket.t) (kind : Z) : Prop :=
  unused isn (sock w') ∧ (kind <= 0 → established isn (sock w') ∧ UdtSocket.status (sock w') = Connected)
  ∧ ∃ evs, trace w' = trace w ++ evs ∧ Forall plain_event evs.

Section established.
Context `{Profile} `{Env} `{FloatLib} (isn : Z).

Lemma process_ctrl_handshake c hs w : UdtControlPacket.packet_type c = Handshake hs →
  process_ctrl c w = on_handshake hs (World (UdtSocket.set_state
    (SocketState.set_rsp 1 (clock (ticks w)) (UdtSocket.state (sock w))) (sock w)) (S (ticks w)) (trace w)).
Proof. intros Hc. unfold process_ctrl, modify_state. run. by rewrite Hc. Qed.

(** C5. The handshake ends where the stream begins.  A connecting socket that has
    exchanged no data, and receives a handshake with its initial sequence number, still
    has exchanged none, has sent nothing but handshakes, and is connected if the handshake
    is an answer; the socket that a listener creates for a handshake is connected once it
    has answered.  Both ends then start both directions at the same number. *)
Theorem handshake_establishes c hs w l id peer ws ls s ws' n :
  (* the connecting end *)
  UdtControlPacket.packet_type c = Handshake hs → HandShakeInfo.initial_seq_number hs = isn →
  UdtSocket.status (sock w) = Connecting → is_Some (UdtSocket.multiplexer (sock w)) → unused isn (sock w) →
  (* the listening end *)
  Udt.heap (sock ws) !! l = Some ls →
  0 <= UdtConfiguration.snd_buf_size (UdtSocket.configuration ls) <= U32_MAX →
  accepted_socket l id peer hs ws = (Ok s, ws') →
  client_side isn w (process_packet (Control c) w).2 (HandShakeInfo.connection_type hs)
  ∧ let r := connect_on_handshake peer hs (World s n []) in
    established isn (sock r.2) ∧ UdtSocket.status (sock r.2) = Connected ∧ Forall plain_event (trace r.2).
Proof.
  intros Hc Hisn Hst Hmux Hu Hl Hsize Hacc. split.
  - simpl. rewrite (process_ctrl_handshake c hs w Hc).
    set (w1 := World _ _ _). assert (unused isn (sock w1)) as Hu1 by (destruct Hu; by split).
    destruct (stays_on_handshake isn hs Hisn w1) as (Hun & Hm & Hevs). specialize (Hun Hu1).
    split; [done|]. split; [|done]. intros Hk.
    assert (UdtSocket.status (sock (on_handshake hs w1).2) = Connected) as Hcon.
    { unfold on_handshake, modify_state, set_status. run. simpl. rewrite Hst. simpl.
      destruct (Z.gtb_spec (HandShakeInfo.connection_type hs) 0); [lia|]. by run. }
    split; [|done]. split; [done|]. by rewrite Hm, Hcon.
  - destruct (accepted_socket_unused isn l id peer hs ws s ws' ls Hacc Hl Hsize Hisn) as (Hus & Hms & _).
    destruct (stays_connect_on_handshake isn peer hs (World s n [])) as (Hun & Hm & evs & Htr & Hevs).
    specialize (Hun Hus). cbn [sock trace] in *. rewrite Htr. simpl.
    assert (UdtSocket.status (sock (connect_on_handshake peer hs (World s n [])).2) = Connected) as Hcon.
    { revert Hms. unfold connect_on_handshake, modify_flow, set_status. run.
      intros [mux Hms]. destruct (UdtSocket.peer_socket_id _); run; [|done]. simpl. rewrite Hms. run.
      unfold mux_send_to. run. by destruct (UdtPacket.serialize _). }
    split_and!; [|done|done]. split; [done|]. by rewrite Hm, Hcon.
Qed.

(** *** The negotiated packet size *)

(** The size of the blocks follows the configured packet size, once the peer is known. *)
Lemma with_peer_size peer id s s' : UdtSocket.with_peer peer id s = Ok s' →
  UdtSocket.get_max_payload_size (UdtSocket.set_peer (Some peer) (UdtSocket.peer_socket_id s) s)
  = Ok (Z.of_nat (SndBuffer.payload_size (UdtSocket.snd_buffer s')))
  ∧ UdtSocket.configuration s' = UdtSocket.configuration s.
Proof.
  intros (s1 & (size & Hsize & Hs1)%bind_is_Ok & Hs)%bind_is_Ok. apply (inj Ok) in Hs as <-, Hs1 as <-. simpl.
  rewrite Hsize. split; [|done]. f_equal. unfold UdtSocket.get_max_payload_size in Hsize.
  apply bind_is_Ok in Hsize as (x & _ & Hsize). apply arith_u_range in Hsize; lia.
Qed.

Lemma connect_on_handshake_sizes peer hs w :
  let s' := sock (connect_on_handshake peer hs w).2 in
  UdtSocket.snd_buffer s' = UdtSocket.snd_buffer (sock w)
  ∧ UdtConfiguration.mss (UdtSocket.configuration s')
    = Z.min (UdtConfiguration.mss (UdtSocket.configuration (sock w))) (HandShakeInfo.max_packet_size hs).
Proof.
  unfold connect_on_handshake, modify_flow, set_status. run. simpl.
  assert (∀ a b, (if a >? b then b else a) = Z.min b a) as Hmin
    by (intros a b; destruct (Z.gtb_spec a b); lia).
  destruct (UdtSocket.peer_socket_id _); run; [|by rewrite Hmin].
  destruct (UdtSocket.multiplexer _); run; [|by rewrite Hmin].
  unfold mux_send_to. run. destruct (UdtPacket.serialize _); run; by rewrite Hmin.
Qed.

(** The bytes that IP and UDP put around a datagram to [peer]. *)
Definition ip_udp_overhead (peer : SocketAddr) : Z := match peer with {| ip := V6 _ |} => 40 | _ => 28 end.

(** C6. The negotiated packet size is ignored.  A listener whose packet size is larger than
    the one the peer announces takes over the smaller one, but still cuts its data into
    blocks of its own size; the packet of a full block is longer than the slots in which
    the peer receives, and what is left of it there parses as a packet with less data, so
    that the peer accepts, acknowledges and delivers a truncated block. *)
Theorem negotiated_size_ignored l id peer hs w ls s w' n :
  Udt.heap (sock w) !! l = Some ls → accepted_socket l id peer hs w = (Ok s, w') →
  let own := UdtConfiguration.mss (UdtSocket.configuration ls) in
  let negotiated := HandShakeInfo.max_packet_size hs in
  let s' := sock (connect_on_handshake peer hs (World s n [])).2 in
  56 <= own <= U32_MAX → 16 <= negotiated < own - ip_udp_overhead peer →
  UdtConfiguration.mss (UdtSocket.configuration s') = negotiated
  ∧ ∀ p raw, UdtDataPacketHeader.wf (UdtDataPacket.header p) →
      length (UdtDataPacket.data p) = SndBuffer.payload_size (UdtSocket.snd_buffer s') →
      UdtPacket.serialize (Data p) = Ok raw →
      len raw = own - ip_udp_overhead peer
      ∧ UdtPacket.deserialize (take (Z.to_nat negotiated) raw) = Ok (Data (UdtDataPacket.mk
          (UdtDataPacket.header p) (take (Z.to_nat negotiated - UDT_DATA_HEADER_SIZE) (UdtDataPacket.data p)))).
Proof.
  intros Hl Hacc own negotiated s' Hown Hneg.
  destruct (connect_on_handshake_sizes peer hs (World s n [])) as [Eb Em]. fold s' in Eb, Em. cbn [sock] in Eb, Em.
  revert Hacc. unfold accepted_socket, deref. run. rewrite Hl. run.
  destruct (UdtSocket.multiplexer ls) as [mux|]; [|done]. destruct (_ >=? _); [done|]. run.
  destruct (UdtSocket.with_peer _ _ _) as [s1|e|] eqn:E; run; [|done..]. intros [= <- _].
  apply with_peer_size in E as [Hsize Hconf]. cbn in Eb, Em, Hconf. rewrite Hconf in Em. cbn in Em.
  split; [rewrite Em; fold own negotiated; unfold ip_udp_overhead in Hneg; repeat case_match; lia|].
  intros p raw Hwf Hlen Hraw. destruct (cut_packet p raw (Z.to_nat negotiated) Hwf Hraw) as [Elen Hcut];
    [unfold UDT_DATA_HEADER_SIZE; lia|]. split; [|done].
  assert (Z.of_nat (SndBuffer.payload_size (UdtSocket.snd_buffer s1)) = own - ip_udp_overhead peer - 16) as Hpay.
  { revert Hsize. unfold UdtSocket.get_max_payload_size. cbn. fold own. unfold ip_udp_overhead, UDT_DATA_HEADER_SIZE.
    assert (∀ a, a = 28 ∨ a = 40 → (x ← arith_u 32 (own - a); arith_u 32 (x - 16)) =
      Ok (Z.of_nat (SndBuffer.payload_size (UdtSocket.snd_buffer s1))) →
      Z.of_nat (SndBuffer.payload_size (UdtSocket.snd_buffer s1)) = own - a - 16) as Ha; [|destruct peer as [[] ?]; apply Ha; auto].
    intros a Ha. rewrite arith_u_ok by lia. cbn [mbind outcome_bind]. rewrite arith_u_ok by lia. by intros [= <-]. }
  unfold len. rewrite Elen, Hlen, Eb. unfold UDT_DATA_HEADER_SIZE. lia.
Qed.
End established.

(** ** Data before the answer

    Nothing keeps the packets of a server that writes at once behind its answer to the
    handshake. *)

(** A computation that returns or panics. *)
Definition no_err {A} (o : outcome A) : Prop := ∀ e, o ≠ Err e.
Definition no_error {A} (m : SM A) : Prop := ∀ w, no_err (m w).1.

Lemma no_err_bind {A B} (o : outcome A) (f : A → outcome B) : no_err o → (∀ a, no_err (f a)) → no_err (o ≫= f).
Proof. intros Ho Hf e. destruct o as [a|e'|]; [apply Hf|by destruct (Ho e')|done]. Qed.

Lemma no_error_bind {A B} (m : SM A) (f : A → SM B) : no_error m → (∀ a, no_error (f a)) → no_error (m ≫= f).
Proof.
  intros Hm Hf w e. specialize (Hm w). rewrite bind_run.
  destruct (m w) as [[a|e'|] w']; [apply Hf|by destruct (Hm e')|done].
Qed.

Lemma no_error_lift {A} (o : outcome A) : no_err o → no_error (lift o).
Proof. by intros Ho w. Qed.

Ltac no_errs := repeat first [progress intros | apply no_err_bind | by intros ? | case_match | progress unfold no_err].

Lemma dur_sum_no_err l : no_err (UdtFlow.dur_sum l).
Proof. induction l as [|d l IH]; [done|]. apply no_err_bind; [done|]. unfold dur_add, duration. no_errs. Qed.
Lemma near_median_no_err l : no_err (UdtFlow.near_median l).
Proof. unfold UdtFlow.near_median, UdtFlow.select_nth, index, unwrap, dur_div, dur_mul, duration. no_errs. Qed.

Section early.
Context `{Profile} `{Env} `{FloatLib}.

Lemma ack_info_no_error : no_error ack_info.
Proof.
  unfold ack_info, gets_state, modify_state, RcvBuffer.get_available_buf_size, UdtFlow.get_pkt_rcv_speed,
    UdtFlow.get_bandwidth, arith_u.
  repeat first [progress intros | apply dur_sum_no_err | apply near_median_no_err | apply no_error_bind
               | apply no_error_lift | apply no_err_bind | by intros ? | by intros ? ? | case_match].
Qed.

(** What an acknowledgement needs, and what it does not change. *)
Definition same_addressee (s s' : UdtSocket.t) : Prop :=
  UdtSocket.peer_socket_id s' = UdtSocket.peer_socket_id s
  ∧ SocketState.last_ack2_received (UdtSocket.state s') = SocketState.last_ack2_received (UdtSocket.state s).
#[local] Instance same_addressee_preorder : PreOrder same_addressee.
Proof. split; [by intros s|]. intros s1 s2 s3 [? ?] [? ?]. unfold same_addressee. split; congruence. Qed.

Ltac addressee := unfold_access; repeat match goal with
  | |- ∀ _, _ => intro
  | |- all_steps _ (_ ≫= _) => apply steps_bind; [apply _|..]
  | |- all_steps _ (modify _) => by apply steps_modify
  | |- all_steps _ (update _) => apply steps_update; [apply _|intros s s' (? & _ & E)%bind_is_Ok; by apply (inj Ok) in E as <-]
  | |- all_steps _ (if ?b then _ else _) => destruct b
  | _ => by intros w
  end.

Lemma ack_info_addressee : all_steps same_addressee ack_info.
Proof. unfold ack_info. addressee. Qed.
Lemma advance_ack_addressee n : all_steps same_addressee (advance_ack n).
Proof. unfold advance_ack, diff. addressee. Qed.

Lemma early_ack_panics w :
  let st := UdtSocket.state (sock w) in
  rcv_inv (sock w) → UdtSocket.peer_socket_id (sock w) = None →
  SocketState.last_sent_ack st < next_to_ack st → valid (SocketState.last_ack2_received st) →
  SocketState.last_ack2_received st < next_to_ack st → (send_ack false w).1 = Panic.
Proof.
  intros st Hinv Hpeer Hsent Hv Hack2. destruct (next_to_ack_spec (sock w) Hinv) as [Hnum _]. fold st in Hnum.
  pose proof (ri_curr _ Hinv) as Hcurr. pose proof (ri_sent _ Hinv). fold st in Hcurr.
  unfold send_ack. run. fold st. rewrite (proj2 (Z.eqb_neq _ _)) by lia. rewrite bind_run.
  destruct (advance_ack_value w Hinv Hsent) as (s' & E & Es).
  pose proof (advance_ack_addressee (next_to_ack st) w) as [Hp Ha]. fold st in E, Es. rewrite E in *. cbn [snd sock] in Hp, Ha.
  unfold send_full_ack, diff, modify_state. run. rewrite Es, Ha. fold st.
  destruct (seq_sub_sign (next_to_ack st) (SocketState.last_ack2_received st)) as (d & -> & Hd & _);
    [unfold valid; lia|done|]. run. rewrite (proj2 (Z.gtb_lt d 0)) by (apply Hd; lia). run.
  match goal with |- context [ack_info ?w] => pose proof (ack_info_no_error w) as Hno; pose proof (ack_info_addressee w) as [Hp2 _];
    destruct (ack_info w) as [[info|e|] w2] end; [|by destruct (Hno e)|done].
  run. cbn in Hp2. by rewrite Hp2, Hp, Hpeer.
Qed.

(** C11. Data must not overtake the answer.  When a socket that does not know the identifier of
    its peer yet, because the answer to its handshake was lost or is late, has received data
    that it has not acknowledged, the acknowledgement timer panics: it takes the receiving
    worker down, and with it every socket of the multiplexer. *)
Theorem early_data_panics w :
  let st := UdtSocket.state (sock w) in
  rcv_inv (sock w) → UdtSocket.peer_socket_id (sock w) = None →
  SocketState.last_sent_ack st < next_to_ack st → valid (SocketState.last_ack2_received st) →
  SocketState.last_ack2_received st < next_to_ack st → SocketState.next_ack_time st < clock (ticks w) →
  (check_timers w).1 = Panic.
Proof.
  intros st Hinv Hpeer Hsent Hv Hack2 Htime. unfold check_timers, cc_update, modify_state. run.
  set (s1 := UdtSocket.set_state _ _). unfold ack_timer. run. change (SocketState.next_ack_time (UdtSocket.state s1))
    with (SocketState.next_ack_time st). rewrite (proj2 (Z.gtb_lt _ _)) by done. cbn [orb]. run.
  pose proof (early_ack_panics (World s1 (S (ticks w)) (trace w))) as Hpanic. cbn [sock] in Hpanic.
  unfold ignore_error. destruct (send_ack false _) as [o w']. cbn [fst] in Hpanic. rewrite Hpanic; try done.
  destruct Hinv. by split.
Qed.
End early.

(** ** Witness *)

(** A socket that has asked for a connection, and the answer of the server. *)
Definition sample_client : world UdtSocket.t :=
  (@connect_request true sample_env sample_addr (World (UdtSocket.open (UdtSocket.set_multiplexer 1
     (UdtSocket.new (@clock sample_env) 0 1 Stream (Some 100) None))) 4 [])).2.
Definition sample_answer : UdtControlPacket.t :=
  UdtControlPacket.new_handshake (HandShakeInfo.mk 4 Stream 100 1500 8192 (-1) 2 0 (V4 [127; 0; 0; 1])) 1.
Definition sample_listener : UdtSocket.t := UdtSocket.set_status Listening sample_socket.
Definition sample_server : world Udt.t := World (Udt.mk [sample_listener] [(1, 0%nat)] [] 77 ∅) 10 [].
Definition sample_accepted : UdtSocket.t :=
  match (@accepted_socket true sample_env 0 77 sample_addr sample_handshake sample_server).1 with
  | Ok s => s
  | _ => sample_socket
  end.

Lemma handshake_establishes_witness :
  established 100 (sock (@process_packet true sample_env sample_float (Control sample_answer) sample_client).2)
  ∧ established 100 (sock (@connect_on_handshake true sample_env sample_addr sample_handshake
      (World sample_accepted 20 [])).2).
Proof.
  destruct (@handshake_establishes true sample_env sample_float 100 sample_answer sample_handshake sample_client
    0 77 sample_addr sample_server sample_listener sample_accepted
    (@accepted_socket true sample_env 0 77 sample_addr sample_handshake sample_server).2 20)
    as ((_ & Hc & _) & Hs & _); try (by vm_compute); try (by exists 1).
  - split; vm_compute; split_and?; (congruence || by right).
  - split; [apply Hc; by vm_compute|done].
Defined.

(** A client whose packets are of 1000 bytes at a listener whose packets are of 1500. *)
Definition small_handshake : HandShakeInfo.t := HandShakeInfo.mk 4 Stream 100 1000 8192 (-1) 2 0 (V4 [127; 0; 0; 1]).
Definition small_accepted : UdtSocket.t :=
  match (@accepted_socket true sample_env 0 77 sample_addr small_handshake sample_server).1 with
  | Ok s => s
  | _ => sample_socket
  end.
Definition full_block : UdtDataPacket.t :=
  UdtDataPacket.mk (UdtDataPacketHeader.mk 100 Only false 0 0 2) (replicate 1456 7).

Lemma negotiated_size_ignored_witness :
  ∃ raw, @UdtPacket.serialize true (Data full_block) = Ok raw ∧ len raw = 1472
  ∧ @UdtPacket.deserialize (take 1000 raw)
    = Ok (Data (UdtDataPacket.mk (UdtDataPacket.header full_block) (replicate 984 7))).
Proof.
  destruct (@negotiated_size_ignored true sample_env 0 77 sample_addr small_handshake sample_server
    sample_listener small_accepted (@accepted_socket true sample_env 0 77 sample_addr small_handshake sample_server).2
    20) as [_ Hcut]; [by vm_compute..|].
  destruct (@UdtPacket.serialize true (Data full_block)) as [raw|e|] eqn:E; [|by vm_compute in E..].
  exists raw. split; [done|].
  destruct (Hcut full_block raw) as [Hlen Hd]; [by vm_compute|by vm_compute|done|]. split; [exact Hlen|exact Hd].
Defined.

(** The first packet of the server reaches the client, its answer does not. *)
Definition early_data : UdtPacket :=
  Data (UdtDataPacket.mk (UdtDataPacketHeader.mk 100 Only false 0 0 1) [1; 2; 3]).
Definition sample_early : world UdtSocket.t := (@process_packet true sample_env sample_float early_data sample_client).2.

Lemma sample_early_inv : rcv_inv (sock sample_early).
Proof.
  assert (UdtSocket.rcv_buffer (sock sample_early) = RcvBuffer.mk [(100, UdtDataPacket.mk
    (UdtDataPacketHeader.mk 100 Only false 0 0 1) [1; 2; 3])] 163840 100 100) as Eb by (by vm_compute).
  assert (rcv_losses (sock sample_early) = []) as El by (by vm_compute).
  assert (curr_rcv (sock sample_early) = 100 ∧ sent_ack (sock sample_early) = 99) as [Ec Es] by (by vm_compute).
  split; unfold received; rewrite ?Eb, ?El, ?Ec, ?Es; cbn; try (unfold SEQ_MAX; lia).
  - split; cbn; [repeat constructor| |by split..]. by intros k p [= -> ->]%list_elem_of_singleton.
  - apply wf_new.
  - by intros x ?%not_lost_new.
  - intros x Hx. right. replace x with 100 by lia. left.
Qed.

Lemma early_data_panics_witness : (@check_timers true sample_env sample_early).1 = Panic.
Proof.
  apply (@early_data_panics true sample_env sample_early); [exact sample_early_inv|by vm_compute..| |by vm_compute|by vm_compute].
  split; vm_compute; congruence.
Defined.
