(* ===== verification/wire_types.v ===== *)
(** * Types of the wire

    What a socket keeps and sends fits the widths of the protocol.  A socket is [typed]
    when its identifiers, its sequence numbers, its loss lists, its message numbers and
    its estimates are in range; a packet is [regular] when its fields are.  The methods of
    a socket are typed in the sense of a type system for effectful programs: [has_type m Q]
    says that [m], run on a typed socket, leaves a typed socket, sends regular packets,
    and returns a value that satisfies [Q]. *)

From stdpp Require Import relations.
From S2P Require Import prelude seq_number time data_packet control_packet packet.
From S2P Require Import btree_map loss_list ack_window rcv_buffer snd_buffer float flow.
From S2P Require Import configuration rate_control socket_state world socket socket_status.
From S2P Require Import socket_control stream_invariant stream samples.

(** ** Numbers *)

Lemma sub_i32_valid `{Profile} s n r : GenericSeqNumber.sub_i32 SEQ_MAX s n = Ok r → valid r.
Proof. unfold GenericSeqNumber.sub_i32. intros (x & _ & Hr)%bind_is_Ok. apply (inj Ok) in Hr as <-. apply seq_add_valid. Qed.

Lemma valid_u32 x : valid x → u32_range x.
Proof. unfold valid, u32_range, SEQ_MAX. lia. Qed.

(** ** Loss lists *)

Definition entries_valid (m : LossList.t) : Prop :=
  ∀ k s e, (k, (s, e)) ∈ m → valid k ∧ valid s ∧ valid e.

Lemma entries_new : entries_valid LossList.new.
Proof. by intros k s e ?%elem_of_nil. Qed.

Lemma entries_remove k m : entries_valid m → entries_valid (BTreeMap.remove k m).
Proof. intros Hm k' s e [Hp _]%elem_of_remove. by apply (Hm k'). Qed.

Lemma entries_insert k s e m : valid k → valid s → valid e → entries_valid m →
  entries_valid (BTreeMap.insert k (s, e) m).
Proof.
  intros Hk Hs He Hm k' s' e' Hp. apply elem_of_insert in Hp as [[= -> -> ->]|[Hp _]]; [done|]. by apply (Hm k').
Qed.

Lemma entries_absorb n1 n2 m : valid n2 → entries_valid m →
  entries_valid (LossList.absorb n1 n2 m).1 ∧ valid (LossList.absorb n1 n2 m).2.
Proof.
  intros Hn Hm. unfold LossList.absorb. destruct (n2 >? n1); [|done]. cbn [fst snd].
  split.
  - generalize ((BTreeMap.range_incl (n1 ⊕ 1) n2 m).*1). intros keys. revert m Hm.
    induction keys as [|k keys IH]; intros m Hm; [done|]. apply IH. by apply entries_remove.
  - assert (Forall (λ p, valid p.2.2) (BTreeMap.range_incl (n1 ⊕ 1) n2 m)) as Hall.
    { apply Forall_forall. intros [k [s e]] Hp. apply elem_of_range_incl in Hp as [Hp _]. apply (Hm k s e Hp). }
    revert Hall. generalize (BTreeMap.range_incl (n1 ⊕ 1) n2 m). intros l Hall. revert n2 Hn.
    induction Hall as [|p l Hp _ IH]; intros n2 Hn; [done|]. apply IH. unfold LossList.extend_end. by case_match.
Qed.

Lemma last_range_to_elem {V} k (m : list (Z * V)) p : last (BTreeMap.range_to k m) = Some p → p ∈ m.
Proof. intros Hl%last_Some_elem_of. by apply list_elem_of_filter in Hl as [_ ?]. Qed.

Lemma head_range_from_elem {V} k (m : list (Z * V)) p : head (BTreeMap.range_from k m) = Some p → p ∈ m.
Proof.
  intros Hl%head_Some_elem_of. by apply list_elem_of_filter in Hl as [_ ?].
Qed.

Lemma entries_place n1 n2 m : valid n1 → valid n2 → entries_valid m → entries_valid (LossList.place n1 n2 m).
Proof.
  intros H1 H2 Hm. unfold LossList.place. destruct (last _) as [[k [s e]]|] eqn:El; [|by apply entries_insert].
  apply last_range_to_elem, Hm in El as (Hk & Hs & He).
  case_match; apply entries_insert; try done. unfold valid in *. lia.
Qed.

Lemma entries_loss_insert fuel n1 n2 m m' : valid n1 → valid n2 → entries_valid m →
  LossList.insert fuel n1 n2 m = Some m' → entries_valid m'.
Proof.
  revert n1 n2 m m'. induction fuel as [|fuel IH]; intros n1 n2 m m' H1 H2 Hm; [done|]. cbn [LossList.insert].
  assert (valid 0 ∧ valid SEQ_MAX) as [? ?] by done. destruct (n1 >? n2).
  - intros (m1 & Hm1 & Hm2)%bind_Some. apply (IH 0 n2 m1 m'); [done|done| |done]. by apply (IH n1 SEQ_MAX m).
  - intros [= <-]. unfold LossList.insert_ordered. pose proof (entries_absorb n1 n2 m H2 Hm) as [Ha Hn].
    destruct (LossList.absorb n1 n2 m) as [m1 n]. by apply entries_place.
Qed.

Lemma entries_loss_remove n m : entries_valid m → entries_valid (LossList.remove n m).
Proof.
  intros Hm. unfold LossList.remove. destruct (last _) as [[k [s e]]|] eqn:El; [|done].
  apply last_range_to_elem, Hm in El as (Hk & Hs & He). pose proof (λ n, seq_add_valid n 1). pose proof (λ n, seq_add_valid n (-1)).
  repeat case_match; repeat apply entries_insert; try apply entries_remove; auto.
Qed.

Lemma entries_loss_remove_all fuel n1 n2 m m' : entries_valid m →
  LossList.remove_all fuel n1 n2 m = Some m' → entries_valid m'.
Proof.
  revert n1 n2 m m'. induction fuel as [|fuel IH]; intros n1 n2 m m' Hm; [done|]. cbn [LossList.remove_all].
  destruct (n1 <=? n2).
  - intros [= <-]. generalize (LossList.numbers_down n1 n2). intros l. revert m Hm.
    induction l as [|x l IHl]; intros m Hm; [done|]. apply IHl. by apply entries_loss_remove.
  - intros (m1 & Hm1 & Hm2)%bind_Some. eapply IH; [|done]. by eapply IH.
Qed.

Lemma peek_after_valid n m x : valid n → entries_valid m → LossList.peek_after n m = Some x → valid x.
Proof.
  intros Hn Hm. unfold LossList.peek_after. destruct (LossList.is_empty m); [done|].
  assert (∀ p : Z * (Z * Z), p ∈ m → valid p.2.1) as Hstart by (intros [k [s e]] Hp; apply (Hm k s e Hp)).
  assert (∀ x, match head (BTreeMap.range_from n m) with
    | Some (_, (start, _)) => Some start | None => (λ p, p.2.1) <$> head m end = Some x → valid x) as Hnext.
  { intros y. destruct (head (BTreeMap.range_from n m)) as [[k [s e]]|] eqn:Eh.
    - intros [= <-]. apply head_range_from_elem in Eh. apply (Hstart _ Eh).
    - intros (p & Hp & ->)%fmap_Some. apply Hstart. by apply head_Some_elem_of in Hp. }
  destruct (last _) as [[k [s e]]|]; [destruct (e >=? n); [by intros [= <-]|]|]; apply Hnext.
Qed.

Lemma pop_after_valid n m r m' : valid n → entries_valid m → LossList.pop_after n m = (r, m') →
  entries_valid m' ∧ ∀ x, r = Some x → valid x.
Proof.
  intros Hn Hm. unfold LossList.pop_after. destruct (LossList.is_empty m); [by intros [= <- <-]|].
  assert (∀ p : Z * (Z * Z), p ∈ m → valid p.2.1) as Hstart by (intros [k [s e]] Hp; apply (Hm k s e Hp)).
  pose proof (λ n, entries_loss_remove n m Hm) as Hrem.
  assert (∀ r m', match head (BTreeMap.range_from n m) with
    | Some (_, (start, _)) => (Some start, LossList.remove start m)
    | None => match head m with Some (_, (start, _)) => (Some start, LossList.remove start m) | None => (None, m) end
    end = (r, m') → entries_valid m' ∧ ∀ x, r = Some x → valid x) as Hnext.
  { intros r' m1. destruct (head (BTreeMap.range_from n m)) as [[k [s e]]|] eqn:Eh.
    - intros [= <- <-]. split; [done|]. intros x [= <-]. apply head_range_from_elem in Eh. apply (Hstart _ Eh).
    - destruct (head m) as [[k [s e]]|] eqn:Eh'; intros [= <- <-]; (split; [done|]); [|done].
      intros x [= <-]. apply head_Some_elem_of in Eh'. apply (Hstart _ Eh'). }
  destruct (last _) as [[k [s e]]|]; [destruct (e >=? n); [|apply Hnext]|apply Hnext].
  intros [= <- <-]. split; [done|]. by intros x [= <-].
Qed.

#[local] Arguments GenericSeqNumber.sub_i32 : simpl never.
#[local] Arguments GenericSeqNumber.add : simpl never.
#[local] Arguments GenericSeqNumber.sub : simpl never.
#[local] Arguments LossList.insert : simpl never.
#[local] Arguments LossList.remove : simpl never.
#[local] Arguments LossList.remove_all : simpl never.
#[local] Arguments LossList.pop_after : simpl never.
#[local] Arguments LossList.peek_after : simpl never.

(** ** Packets *)

(** The fields fit their widths, and the sequence numbers are valid. *)
Definition regular (p : UdtPacket) : Prop :=
  wf_packet p ∧ match p with
                | Data _ => True
                | Control c =>
                    match UdtControlPacket.packet_type c with
                    | Handshake hs => valid (HandShakeInfo.initial_seq_number hs)
                    | Ack a => valid (AckInfo.next_seq_number a) ∧ valid (UdtControlPacket.additional_info c)
                    | Ack2 => valid (UdtControlPacket.additional_info c)
                    | Nak n => nak_ok (NakInfo.loss_info n)
                    | MsgDropRequest d =>
                        valid (DropRequestInfo.first_seq_number d) ∧ valid (DropRequestInfo.last_seq_number d)
                    | _ => True
                    end
                end.

Definition regular_event (e : event) : Prop := match e with SendTo _ p => regular p | _ => True end.

(** ** Sockets *)

Record typed_state (st : SocketState.t) : Prop := {
  ts_sent_ack : valid (SocketState.last_sent_ack st);
  ts_curr_rcv : valid (SocketState.curr_rcv_seq_number st);
  ts_ack_seq : valid (SocketState.last_ack_seq_number st);
  ts_rcv_losses : entries_valid (SocketState.rcv_loss_list st);
  ts_ack_received : valid (SocketState.last_ack_received st);
  ts_ack_processed : valid (SocketState.last_data_ack_processed st);
  ts_curr_snd : valid (SocketState.curr_snd_seq_number st);
  ts_snd_losses : entries_valid (SocketState.snd_loss_list st)
}.

Record typed_flow (f : UdtFlow.t) : Prop := {
  tf_window : u32_range (UdtFlow.flow_window_size f);
  tf_rtt : 0 <= UdtFlow.rtt f;
  tf_rtt_var : 0 <= UdtFlow.rtt_var f
}.

Record typed_buffer (b : SndBuffer.t) : Prop := {
  tb_blocks : Forall (λ x, 0 <= SndBufferBlock.msg_number x <= MSG_MAX) (SndBuffer.buffer b);
  tb_next : 0 <= SndBuffer.next_msg_number b <= MSG_MAX
}.

Record typed_config (c : UdtConfiguration.t) : Prop := {
  tc_mss : u32_range (UdtConfiguration.mss c);
  tc_flight : u32_range (UdtConfiguration.flight_flag_size c);
  tc_rcv_buf : u32_range (UdtConfiguration.rcv_buf_size c)
}.

Record typed (s : UdtSocket.t) : Prop := {
  ty_id : u32_range (UdtSocket.socket_id s);
  ty_peer id : UdtSocket.peer_socket_id s = Some id → u32_range id;
  ty_isn : valid (UdtSocket.initial_seq_number s);
  ty_state : typed_state (UdtSocket.state s);
  ty_flow : typed_flow (UdtSocket.flow s);
  ty_buffer : typed_buffer (UdtSocket.snd_buffer s);
  ty_config : typed_config (UdtSocket.configuration s)
}.

(** ** Methods *)

Definition has_type {A} (m : SM A) (Q : A → Prop) : Prop := ∀ w, typed (sock w) →
  typed (sock (m w).2) ∧ (∃ evs, trace (m w).2 = trace w ++ evs ∧ Forall regular_event evs)
  ∧ ∀ a, (m w).1 = Ok a → Q a.

Section types.
Context `{Profile} `{Env} `{FloatLib}.

Lemma type_still {A} (m : SM A) (Q : A → Prop) : (∀ w, sock (m w).2 = sock w ∧ trace (m w).2 = trace w) →
  (∀ w a, typed (sock w) → (m w).1 = Ok a → Q a) → has_type m Q.
Proof.
  intros Hm HQ w Hw. destruct (Hm w) as [-> ->]. split; [done|]. split; [exists []; by rewrite app_nil_r|eauto].
Qed.

Lemma type_ret {A} (a : A) (Q : A → Prop) : Q a → has_type (mret a) Q.
Proof. intros. apply type_still; [done|]. by intros w b _ [= <-]. Qed.

Lemma type_weaken {A} (m : SM A) (P Q : A → Prop) : has_type m P → (∀ a, P a → Q a) → has_type m Q.
Proof. intros Hm HPQ w Hw. destruct (Hm w Hw) as (? & ? & ?). split_and!; eauto. Qed.

Lemma type_bind {A B} (m : SM A) (f : A → SM B) (P : A → Prop) (Q : B → Prop) :
  has_type m P → (∀ a, P a → has_type (f a) Q) → has_type (m ≫= f) Q.
Proof.
  intros Hm Hf w Hw. destruct (Hm w Hw) as (Hs & (evs & Et & He) & HP). rewrite bind_run.
  destruct (m w) as [[a|e|] w']; cbn [fst snd] in *; [|split_and!; [done|by exists evs|done]..].
  destruct (Hf a (HP a eq_refl) w' Hs) as (? & (evs' & Et' & He') & ?). split_and!; [done| |done].
  exists (evs ++ evs'). rewrite Et', Et, <- app_assoc. split; [done|]. by apply Forall_app.
Qed.

Lemma type_get : has_type get typed.
Proof. apply type_still; [done|]. by intros w a Hw [= <-]. Qed.
Lemma type_gets {A} (f : UdtSocket.t → A) : has_type (gets f) (λ a, ∃ s, typed s ∧ a = f s).
Proof. apply type_still; [done|]. intros w a Hw [= <-]. by eexists. Qed.
Lemma type_lift {A} (o : outcome A) : has_type (lift o) (λ a, o = Ok a).
Proof. by apply type_still. Qed.
Lemma type_throw {A} e (Q : A → Prop) : has_type (throw e) Q.
Proof. by apply type_still. Qed.
Lemma type_now : has_type now (λ _, True).
Proof. by apply type_still. Qed.
Lemma type_udp_writable : has_type udp_writable (λ _, True).
Proof. by apply type_still. Qed.
Lemma type_nows n : has_type (nows n) (λ _, True).
Proof. by apply type_still. Qed.

Lemma type_modify f : (∀ s, typed s → typed (f s)) → has_type (modify f) (λ _, True).
Proof. intros Hf w Hw. split; [by apply Hf|]. split; [exists []; by rewrite app_nil_r|done]. Qed.

Lemma type_update f : (∀ s s', typed s → f s = Ok s' → typed s') → has_type (update f) (λ _, True).
Proof.
  intros Hf w Hw. rewrite update_run. destruct (f (sock w)) as [s'|e|] eqn:E; cbn [fst snd sock trace];
    (split; [eauto|]; split; [exists []; by rewrite app_nil_r|done]).
Qed.

Lemma type_emit e : regular_event e → has_type (emit e) (λ _, True).
Proof. intros He w Hw. split; [done|]. split; [exists [e]; split; [done|by constructor]|done]. Qed.

Lemma type_when b m : (b = true → has_type m (λ _, True)) → has_type (when b m) (λ _, True).
Proof. intros Hm. destruct b; [by apply Hm|by apply type_ret]. Qed.

Lemma type_ignore_error m : has_type m (λ _, True) → has_type (ignore_error m) (λ _, True).
Proof.
  intros Hm w Hw. destruct (Hm w Hw) as (? & ? & _). unfold ignore_error.
  destruct (m w) as [[a|e|] w']; split_and!; done.
Qed.

Lemma type_mux_send_to addr p : regular p → has_type (mux_send_to addr p) (λ _, True).
Proof.
  intros Hp. eapply type_bind; [apply type_lift|]. intros _ _ w Hw. split; [done|]. split; [|done].
  exists [SendTo addr p]. split; [done|]. by constructor.
Qed.

Lemma type_send_to addr p : regular p → has_type (send_to addr p) (λ _, True).
Proof.
  intros Hp. unfold send_to. eapply type_bind; [apply type_gets|]. intros mux _.
  eapply type_bind; [apply type_lift|]. intros _ _. by apply type_mux_send_to.
Qed.

Lemma type_send_packet p : regular p → has_type (send_packet p) (λ _, True).
Proof.
  intros Hp. unfold send_packet. eapply type_bind; [apply type_gets|]. intros [addr|] _; [by apply type_send_to|].
  by apply type_ret.
Qed.
End types.

(** *** Automation *)

Lemma loss_insert_entries n1 n2 m m' : loss_insert n1 n2 m = Ok m' → valid n1 → valid n2 → entries_valid m →
  entries_valid m'.
Proof.
  unfold loss_insert, run_loss, unwrap. destruct (LossList.insert _ _ _ _) eqn:E; [|done].
  intros [= <-] H1 H2 Hm. exact (entries_loss_insert _ _ _ _ _ H1 H2 Hm E).
Qed.

Lemma loss_remove_all_entries n1 n2 m m' : loss_remove_all n1 n2 m = Ok m' → entries_valid m → entries_valid m'.
Proof.
  unfold loss_remove_all, run_loss, unwrap. destruct (LossList.remove_all _ _ _ _) eqn:E; [|done].
  intros [= <-] Hm. exact (entries_loss_remove_all _ _ _ _ _ Hm E).
Qed.

Create HintDb typed discriminated.
#[export] Hint Resolve ty_id ty_isn ty_state ty_flow ty_buffer ty_config ts_sent_ack ts_curr_rcv
  ts_ack_seq ts_rcv_losses ts_ack_received ts_ack_processed ts_curr_snd ts_snd_losses tf_window tf_rtt
  tf_rtt_var tb_blocks tb_next tc_mss tc_flight tc_rcv_buf seq_add_valid
  entries_loss_remove : typed.
#[export] Hint Extern 2 (entries_valid _) => eapply loss_insert_entries; [eassumption|..] : typed.
#[export] Hint Extern 2 (entries_valid _) => eapply loss_remove_all_entries; [eassumption|..] : typed.
#[export] Hint Extern 1 (regular_event _) => exact I : typed.
#[export] Hint Extern 1 (valid _) => eapply sub_i32_valid; eassumption : typed.
#[export] Hint Extern 1 (u32_range _) => eapply ty_peer; eassumption : typed.
#[export] Hint Extern 3 (u32_range _) => apply valid_u32 : typed.

(** An assignment of a typed socket. *)
Ltac fields :=
  intros; repeat match goal with
  | H : _ ≫= _ = Ok _ |- _ => apply bind_is_Ok in H as (? & ? & H); cbv beta zeta in H
  | H : Ok _ = Ok _ |- _ => apply (inj Ok) in H; subst
  | H : (if ?b then _ else _) = Ok _ |- _ => destruct b eqn:?
  end; repeat case_match; subst;
  match goal with Hs : typed ?s |- _ =>
    pose proof (ty_state s Hs); pose proof (ty_flow s Hs); pose proof (ty_buffer s Hs); pose proof (ty_config s Hs);
    split; simpl; try solve [assumption | apply Hs];
    try first [by intros ? [= <-]; eauto 8 with typed | solve [eauto 5 with typed]
              | split; simpl; try solve [by apply ty_state | by apply ty_flow | by apply ty_config | apply (ty_state s Hs)
                | apply (ty_flow s Hs) | apply (ty_buffer s Hs) | apply (ty_config s Hs)]];
    try solve [eauto 8 with typed]
  end.

(** Goes through the body of a method. *)
Ltac types :=
  unfold diff, cc_update, set_status; unfold_access; repeat match goal with
  | |- has_type (_ ≫= _) _ => eapply type_bind
  | |- ∀ _, _ → _ => progress cbv beta
  | |- ∀ _, (∃ _, typed _ ∧ _) → _ => intros ? (? & ? & ->)
  | |- ∀ _, True → _ => intros ? _
  | |- ∀ _, _ => intro
  | |- has_type (when _ _) _ => apply type_when
  | |- has_type (ignore_error _) _ => apply type_ignore_error
  | |- has_type get _ => apply type_get
  | |- has_type (gets _) _ => apply type_gets
  | |- has_type (lift _) _ => apply type_lift
  | |- has_type (throw _) _ => apply type_throw
  | |- has_type now _ => apply type_now
  | |- has_type udp_writable _ => apply type_udp_writable
  | |- has_type (nows _) _ => apply type_nows
  | |- has_type (modify _) _ => apply type_modify; fields
  | |- has_type (update _) _ => apply type_update; fields
  | |- has_type (emit _) _ => apply type_emit; exact I
  | |- has_type (mret _) _ => apply type_ret
  | |- has_type (if ?b then _ else _) _ => destruct b eqn:?
  | |- has_type (let '_ := ?x in _) _ => destruct x eqn:?
  | |- has_type (match ?x with _ => _ end) _ => destruct x eqn:?
  | |- True => exact I
  | _ => solve [exact I | eauto with typed]
  end.

Section methods.
Context `{Profile} `{Env} `{FloatLib}.
Local Notation typed_method m := (has_type m (λ _, True)).

Lemma type_update_snd_queue b : typed_method (update_snd_queue b).
Proof. unfold update_snd_queue. types. Qed.
Lemma type_notify_all : typed_method notify_all.
Proof. unfold notify_all. types. Qed.
Lemma type_cc_update : typed_method cc_update.
Proof. types. Qed.
Lemma type_set_status v : typed_method (set_status v).
Proof. types. Qed.
#[local] Hint Resolve type_update_snd_queue type_notify_all type_set_status : typed.

Lemma regular_plain c : regular (Control c) ↔ wf_control c ∧ match UdtControlPacket.packet_type c with
                    | Handshake hs => valid (HandShakeInfo.initial_seq_number hs)
                    | Ack a => valid (AckInfo.next_seq_number a) ∧ valid (UdtControlPacket.additional_info c)
                    | Ack2 => valid (UdtControlPacket.additional_info c)
                    | Nak n => nak_ok (NakInfo.loss_info n)
                    | MsgDropRequest d =>
                        valid (DropRequestInfo.first_seq_number d) ∧ valid (DropRequestInfo.last_seq_number d)
                    | _ => True
                    end.
Proof. done. Qed.

(** Control packets with fields in range. *)
Lemma regular_control kind info id : wf_packet_type kind → u32_range info → u32_range id →
  match kind with
  | Handshake hs => valid (HandShakeInfo.initial_seq_number hs)
  | Ack a => valid (AckInfo.next_seq_number a) ∧ valid info
  | Ack2 => valid info
  | Nak n => nak_ok (NakInfo.loss_info n)
  | MsgDropRequest d => valid (DropRequestInfo.first_seq_number d) ∧ valid (DropRequestInfo.last_seq_number d)
  | _ => True
  end → regular (Control (UdtControlPacket.mk kind 0 info 0 id)).
Proof.
  intros Hk Hi Hid Hv. split; [|done]. split; [done|]. simpl. split; [lia|].
  repeat constructor; try done; unfold u32_range in *; lia.
Qed.

(** *** Sending *)

Lemma type_take_lost t : has_type (take_lost t) (λ r, ∀ seq offset, r = Some (seq, offset) → valid seq).
Proof.
  unfold take_lost. unfold_access. unfold diff.
  eapply type_bind; [types|]. intros delay _. eapply type_bind; [types|]. intros _ _.
  eapply type_bind; [apply type_gets|]. intros last (s & Hs & ->).
  eapply type_bind; [apply type_gets|]. intros losses (s' & Hs' & ->).
  destruct (LossList.pop_after _ _) as [popped losses] eqn:E.
  apply pop_after_valid in E as [Hl Hp]; [|eauto with typed..].
  eapply type_bind; [types|]. intros _ _. destruct popped as [seq|].
  - eapply type_bind; [apply type_lift|]. intros offset _. apply type_ret. intros x y [= <- <-]. eauto.
  - by apply type_ret.
Qed.

Lemma block_regular now seq id start block : valid seq → u32_range id →
  0 <= SndBufferBlock.msg_number block <= MSG_MAX →
  regular (Data (SndBufferBlock.as_data_packet now seq id start block)).
Proof.
  intros Hs Hid Hm. split; [|done]. split; [done|]. split; [done|]. split; [|done]. simpl.
  change U32_MAX with (Z.ones 32). rewrite Z.land_ones by lia. apply Z.mod_pos_bound. lia.
Qed.

Lemma read_data_typed expiry now offset seq id start b r b' : valid seq → u32_range id → typed_buffer b →
  SndBuffer.read_data expiry now offset seq id start b = (r, b') →
  typed_buffer b' ∧ match r with inl p => regular (Data p) | inr (msg, _) => u32_range msg end.
Proof.
  intros Hs Hid Hb. unfold SndBuffer.read_data.
  destruct (SndBuffer.buffer b !! offset) as [block|] eqn:El; [|by intros [= <- <-]].
  pose proof (tb_blocks b Hb) as Hall. rewrite Forall_lookup in Hall. specialize (Hall offset block El).
  destruct (SndBufferBlock.has_expired expiry block); intros [= <- <-].
  - split; [destruct Hb; by case_match|]. unfold u32_range, MSG_MAX in *. lia.
  - split; [done|]. by apply block_regular.
Qed.

Lemma type_read_block offset seq : valid seq → has_type (read_block offset seq) (λ r,
  match r with inl p => regular (Data p) | inr (msg, _) => u32_range msg end).
Proof.
  intros Hs. unfold read_block.
  eapply type_bind; [apply type_gets|]. intros peer (s & Hty & ->). eapply type_bind; [apply type_lift|]. intros id Hid.
  eapply type_bind; [types|]. intros expiry _. eapply type_bind; [types|]. intros now _.
  assert (u32_range id) as Hu by (destruct (UdtSocket.peer_socket_id s) eqn:E; simplify_eq/=; eauto with typed).
  clear s Hty Hid. intros w Hw. run. destruct (SndBuffer.read_data _ _ _ _ _ _ _) as [r b] eqn:E. run.
  destruct (read_data_typed _ _ _ _ _ _ _ _ _ Hs Hu (ty_buffer _ Hw) E) as [Hb Hr].
  split; [destruct Hw; by split|]. split; [exists []; by rewrite app_nil_r|]. by intros a [= <-].
Qed.

Lemma type_drop_expired seq msg n : valid seq → u32_range msg → typed_method (drop_expired seq msg n).
Proof.
  intros Hs Hm. unfold drop_expired. eapply type_bind; [apply type_lift|]. intros last Hlast%sub_i32_valid.
  eapply type_bind; [apply type_gets|]. intros peer (s & Hty & ->). eapply type_bind; [apply type_lift|]. intros id Hid.
  assert (u32_range id) as Hu by (destruct (UdtSocket.peer_socket_id s) eqn:E; simplify_eq/=; eauto with typed).
  eapply type_bind; [apply type_send_packet|].
  - apply regular_control; try done. simpl. split; by apply valid_u32.
  - types.
Qed.

(** The identifier of the peer, once it is known. *)
Lemma peer_u32 s id : typed s → unwrap (UdtSocket.peer_socket_id s) = Ok id → u32_range id.
Proof. intros Hs. destruct (UdtSocket.peer_socket_id s) eqn:E; [|done]. intros [= <-]. by apply (ty_peer s Hs). Qed.

Lemma fetch_batch_typed clock seq id start b packets b' : u32_range id → typed_buffer b →
  SndBuffer.fetch_batch clock seq id start b = Ok (packets, b') → typed_buffer b' ∧ Forall (λ p, regular (Data p)) packets.
Proof.
  intros Hid Hb. unfold SndBuffer.fetch_batch. destruct (_ >? _); [done|].
  intros (pos & _ & E)%bind_is_Ok. injection E as <- <-. split; [destruct Hb; by split|].
  apply Forall_lookup. intros i p. rewrite list_lookup_imap. intros (block & Hl & ->)%fmap_Some.
  apply block_regular; [apply seq_add_valid|done|]. pose proof (tb_blocks b Hb) as Hall. rewrite Forall_forall in Hall.
  apply Hall. apply lookup_take_Some in Hl as [Hl _].
  rewrite lookup_drop in Hl. by eapply list_elem_of_lookup_2.
Qed.

Lemma type_pace now n : typed_method (pace now n).
Proof. unfold pace. types. Qed.
#[local] Hint Resolve type_pace : typed.

Definition regular_batch (r : option (list UdtDataPacket.t * bool)) : Prop :=
  match r with Some (packets, _) => Forall (λ p, regular (Data p)) packets | None => True end.

Lemma type_fetch_new now : has_type (fetch_new now) regular_batch.
Proof.
  unfold fetch_new, reset_pacing. eapply type_bind; [apply type_get|]. intros s Hs.
  eapply type_bind; [types|]. intros d _. destruct (_ >? _); [types|].
  eapply type_bind; [apply type_lift|]. intros id Hid%peer_u32; [|done].
  eapply type_bind; [apply type_nows|]. intros times _.
  eapply type_bind; [apply type_lift|]. intros [packets b] Hf.
  apply fetch_batch_typed in Hf as [Hb Hp]; [|done|eauto with typed].
  eapply type_bind; [apply type_modify; fields|]. intros _ _. destruct packets as [|p packets]; [types|].
  eapply type_bind; [types|]. intros _ _. eapply type_bind; [types|]. intros _ _. by apply type_ret.
Qed.

(** What the first half of [next_data_packets] leaves to the second one. *)
Definition regular_loss (to_resend : option (Z * Z)) : Prop :=
  match to_resend with Some (seq, _) => valid seq | None => True end.

Lemma type_begin_data_packets : has_type begin_data_packets (λ r,
  match r with Some (_, to_resend) => regular_loss to_resend | None => True end).
Proof.
  unfold begin_data_packets. eapply type_bind; [apply type_gets|]. intros status _.
  destruct (negb _); [by apply type_ret|].
  eapply type_bind; [apply type_now|]. intros now _. eapply type_bind; [apply type_take_lost|].
  intros [[seq offset]|] Hseq; apply type_ret; [by apply (Hseq seq offset)|done].
Qed.

Lemma type_finish_data_packets now to_resend : regular_loss to_resend →
  has_type (finish_data_packets now to_resend) (λ r,
    match r with Some (packets, _) => Forall (λ p, regular (Data p)) packets | None => True end).
Proof.
  intros Hseq. unfold finish_data_packets. destruct to_resend as [[seq offset]|].
  - destruct (offset <? 0); [by apply type_ret|].
    eapply type_bind; [by apply type_read_block|]. intros [p|[msg n]] Hr.
    + eapply type_bind; [apply type_pace|]. intros t _. apply type_ret. by constructor.
    + destruct (n =? 0)%nat; [by apply type_ret|]. eapply type_bind; [by apply type_drop_expired|].
      intros _ _. by apply type_ret.
  - eapply type_bind; [apply type_fetch_new|]. intros [[packets []]|] Hp; [by apply type_ret| |by apply type_ret].
    eapply type_bind; [apply type_pace|]. intros t _. by apply type_ret.
Qed.

Lemma type_next_data_packets : has_type next_data_packets (λ r,
  match r with Some (packets, _) => Forall (λ p, regular (Data p)) packets | None => True end).
Proof.
  unfold next_data_packets. eapply type_bind; [apply type_begin_data_packets|].
  intros [[now to_resend]|] Hl; [by apply type_finish_data_packets|by apply type_ret].
Qed.

Lemma type_send_data_packets packets : Forall (λ p, regular (Data p)) packets →
  typed_method (send_data_packets packets).
Proof.
  intros Hp. unfold send_data_packets. eapply type_bind; [apply type_gets|]. intros [addr|] _; [|by apply type_ret].
  do 4 (eapply type_bind; [types|]; intros ? _).
  induction Hp as [|q packets Hq _ IH]; [by apply type_ret|]. cbn [foldr].
  eapply type_bind; [by apply type_emit|]. intros _ _. exact IH.
Qed.

Lemma add_message_typed now data ttl io b b' : typed_buffer b → SndBuffer.add_message now data ttl io b = Ok b' →
  typed_buffer b'.
Proof.
  intros [Hb Hn]. unfold SndBuffer.add_message. destruct (_ =? _)%nat; [done|]. cbv zeta.
  destruct (_ >? _); [done|]. intros [= <-]. split; simpl.
  - apply Forall_app. split; [done|]. apply Forall_lookup. intros i x. rewrite list_lookup_imap.
    by intros (c & _ & ->)%fmap_Some.
  - unfold GenericSeqNumber.add. pose proof (Z.mod_pos_bound (SndBuffer.next_msg_number b + 1) (MSG_MAX + 1)).
    unfold MSG_MAX in *. lia.
Qed.

Lemma ack_data_typed n b b' : typed_buffer b → SndBuffer.ack_data n b = Ok b' → typed_buffer b'.
Proof.
  unfold SndBuffer.ack_data. generalize (Z.to_nat n). clear n. intros n. revert b.
  induction n as [|n IH]; intros b Hb; [by intros [= <-]|]. cbn [SndBuffer.pop_acked].
  destruct Hb as [Hb Hn]. destruct (SndBuffer.buffer b) as [|x rest] eqn:E.
  - apply IH. split; [by rewrite E|done].
  - apply Forall_cons in Hb as [_ Hb]. intros (pos & _ & Hp)%bind_is_Ok. eapply IH; [|done]. by split.
Qed.

Lemma type_send data : typed_method (send data).
Proof.
  unfold send. types; eapply add_message_typed; eauto with typed.
Qed.

(** *** Control packets *)

Ltac words := match goal with H : wf_handshake _ |- _ => destruct H as (Hwords & ? & ?); rewrite !Forall_cons in Hwords;
  destruct Hwords as (? & ? & ? & ? & ? & ? & _) end.

Lemma regular_handshake version kind isn mss window answer id cookie ip dest :
  u32_range version → valid isn → u32_range mss → u32_range window → - 2 ^ 31 <= answer < 2 ^ 31 →
  u32_range id → u32_range cookie → wf_ip ip → u32_range dest →
  regular (Control (UdtControlPacket.new_handshake
    (HandShakeInfo.mk version kind isn mss window answer id cookie ip) dest)).
Proof.
  intros. apply regular_control; try done. split; [|done]. rewrite !Forall_cons.
  split_and!; try done; by apply valid_u32.
Qed.

Lemma type_on_handshake hs : wf_handshake hs → valid (HandShakeInfo.initial_seq_number hs) →
  typed_method (on_handshake hs).
Proof.
  intros Hwf Hisn. words. unfold on_handshake. eapply type_bind; [apply type_gets|]. intros status _.
  destruct (negb _); [apply type_throw|]. destruct (_ >? 0).
  - eapply type_bind; [apply type_gets|]. intros id (s & Hs & ->). apply type_send_packet, regular_handshake; try done.
    by apply (ty_id s Hs).
  - types.
Qed.

Lemma type_on_light_ack n : valid n → typed_method (on_light_ack n).
Proof. intros Hn. unfold on_light_ack. types. unfold u32_range. by eapply arith_u_range. Qed.

Lemma type_send_ack2 n : valid n → typed_method (send_ack2 n).
Proof.
  intros Hn. unfold send_ack2. eapply type_bind; [types|]. intros t _. eapply type_bind; [types|]. intros b _.
  apply type_when. intros _. eapply type_bind; [apply type_gets|]. intros peer (s & Hs & ->).
  destruct (UdtSocket.peer_socket_id s) as [id|] eqn:E; [|by apply type_ret].
  eapply type_bind; [apply type_send_packet, regular_control; eauto using valid_u32, ty_peer; done|]. types.
Qed.

Lemma type_ack_received n available : valid n → u32_range available → typed_method (ack_received n available).
Proof.
  intros Hn Ha. unfold ack_received. types; try (eapply ack_data_typed; eauto with typed).
Qed.

Lemma duration_nonneg d r : duration d = Ok r → 0 <= r.
Proof. intros [-> [? _]]%duration_inv. done. Qed.
Lemma dur_div_nonneg d n r : 0 <= d → 0 < n → dur_div d n = Ok r → 0 <= r.
Proof. unfold dur_div. intros. case_match; simplify_eq. apply Z.div_pos; lia. Qed.

Lemma update_rtt_typed v f f' : UdtFlow.update_rtt v f = Ok f' → typed_flow f → typed_flow f'.
Proof.
  intros (x & _ & (y & Hy & (z & Hz & E)%bind_is_Ok)%bind_is_Ok)%bind_is_Ok [? ? ?]. apply (inj Ok) in E as <-.
  split; simpl; try done. by eapply dur_div_nonneg; [eapply duration_nonneg| |exact Hz].
Qed.
Lemma update_rtt_var_typed v f f' : UdtFlow.update_rtt_var v f = Ok f' → typed_flow f → typed_flow f'.
Proof.
  intros (x & _ & (y & Hy & (z & Hz & E)%bind_is_Ok)%bind_is_Ok)%bind_is_Ok [? ? ?]. apply (inj Ok) in E as <-.
  split; simpl; try done. by eapply dur_div_nonneg; [eapply duration_nonneg| |exact Hz].
Qed.
Lemma update_rate_typed v f f' : UdtFlow.update_peer_delivery_rate v f = Ok f' → typed_flow f → typed_flow f'.
Proof. intros (x & _ & E)%bind_is_Ok [? ? ?]. apply (inj Ok) in E as <-. by split. Qed.
Lemma update_bandwidth_typed v f f' : UdtFlow.update_bandwidth v f = Ok f' → typed_flow f → typed_flow f'.
Proof. intros (x & _ & E)%bind_is_Ok [? ? ?]. apply (inj Ok) in E as <-. by split. Qed.
#[local] Hint Extern 1 (typed_flow _) =>
  first [eapply update_rtt_typed; [eassumption|] | eapply update_rtt_var_typed; [eassumption|]
        | eapply update_rate_typed; [eassumption|] | eapply update_bandwidth_typed; [eassumption|]] : typed.

Lemma type_ack_statistics n extra : typed_method (ack_statistics n extra).
Proof. unfold ack_statistics. types. Qed.

Lemma type_on_ack c a : regular (Control c) → UdtControlPacket.packet_type c = Ack a → typed_method (on_ack c a).
Proof.
  intros [[Hwf _] Hv] Hc. simpl in Hwf, Hv. rewrite Hc in Hwf, Hv. destruct Hwf as [_ Hinfo], Hv as [Hn Hseq].
  unfold on_ack. destruct (AckInfo.info a) as [extra|]; [|by apply type_on_light_ack].
  rewrite !Forall_cons in Hinfo. destruct Hinfo as (_ & _ & Ha & _).
  eapply type_bind; [apply type_lift|]. intros seq Hs. unfold UdtControlPacket.ack_seq_number in Hs. rewrite Hc in Hs.
  injection Hs as <-. eapply type_bind; [by apply type_send_ack2|]. intros _ _.
  eapply type_bind; [by apply type_ack_received|]. intros fresh _. apply type_when. intros _. apply type_ack_statistics.
Qed.

Lemma type_on_ack2 c : typed_method (on_ack2 c).
Proof. unfold on_ack2. types. Qed.

Lemma nak_interval_typed n1 n2 st b st' : valid n1 → valid n2 → typed_state st →
  nak_interval n1 n2 st = Ok (b, st') → typed_state st'.
Proof.
  intros Hn1 Hn2 Hs. unfold nak_interval. intros (d & _ & E)%bind_is_Ok.
  assert (∀ m losses, loss_insert m n2 (SocketState.snd_loss_list st) = Ok losses → valid m →
    typed_state (SocketState.set_snd (SocketState.curr_snd_seq_number st) losses st)) as Hins.
  { intros m losses Hl Hm. pose proof (loss_insert_entries _ _ _ _ Hl Hm Hn2 (ts_snd_losses st Hs)).
    destruct Hs. by split. }
  apply bind_is_Ok in E as (beyond & _ & E). destruct beyond; [by injection E as _ <-|].
  apply bind_is_Ok in E as (d' & _ & E). destruct (_ >=? _).
  - apply bind_is_Ok in E as (losses & Hl & E). injection E as _ <-. by eapply Hins.
  - apply bind_is_Ok in E as (e & _ & E). destruct (_ >=? _); [|by injection E as _ <-].
    apply bind_is_Ok in E as (losses & Hl & E). injection E as _ <-. eapply Hins; eauto with typed.
Qed.

Lemma land_valid x : valid (Z.land x 2147483647).
Proof.
  change 2147483647 with (Z.ones 31). rewrite Z.land_ones by lia. unfold valid, SEQ_MAX.
  pose proof (Z.mod_pos_bound x (2 ^ 31)). lia.
Qed.

Lemma nak_loop_typed words st b st' : nak_ok words → typed_state st → nak_loop words st = Ok (b, st') → typed_state st'.
Proof.
  remember (length words) as n eqn:Hn. revert words st Hn.
  induction (lt_wf n) as [n _ IH]. intros [|word words] st -> Hok Hs; cbn [nak_ok nak_loop] in Hok |- *.
  { by intros [= _ <-]. }
  assert (∀ n1 n2 rest, (length rest < S (length words))%nat → valid n1 → valid n2 → nak_ok rest →
    (r ← nak_interval n1 n2 st; if r.1 : bool then Ok r else nak_loop rest r.2) = Ok (b, st') → typed_state st') as Hstep.
  { intros n1 n2 rest Hlen Hn1 Hn2 Hrest. intros ([b1 st1] & Hi & Hr)%bind_is_Ok.
    apply nak_interval_typed in Hi; [|done..]. cbn [fst snd] in Hr.
    destruct b1; [by injection Hr as _ <-|]. by eapply (IH (length rest)). }
  destruct (negb _).
  - destruct words as [|last rest]; [by intros [= _ <-]|]. destruct Hok as [Hl Hrest].
    apply Hstep; [simpl; lia|apply land_valid|done|done].
  - destruct Hok as [Hw Hrest]. apply Hstep; [lia|done..].
Qed.

Lemma type_on_nak n : nak_ok (NakInfo.loss_info n) → typed_method (on_nak n).
Proof.
  intros Hok. unfold on_nak. destruct (NakInfo.loss_info n) as [|first words] eqn:En; [by apply type_ret|].
  rewrite <- En in *. eapply type_bind; [types|]. intros _ _. eapply type_bind; [apply type_cc_update|]. intros _ _.
  intros w Hw. unfold modify_state. run. destruct (nak_loop _ _) as [[b st]|e|] eqn:E; run;
    [|split_and!; [done|exists []; by rewrite app_nil_r|done]..].
  apply nak_loop_typed in E; [|done|by apply ty_state].
  set (w' := World _ _ _). assert (typed (sock w')) as Hw' by (destruct Hw; by split).
  destruct b; [apply (type_set_status Broken w' Hw')|apply (type_update_snd_queue true w' Hw')].
Qed.

Lemma type_on_drop_request c d : valid (DropRequestInfo.last_seq_number d) → typed_method (on_drop_request c d).
Proof. intros Hd. unfold on_drop_request. types. Qed.

Lemma type_process_ctrl c : regular (Control c) → typed_method (process_ctrl c).
Proof.
  intros Hc. pose proof Hc as [[Hwf _] Hv]. simpl in Hwf, Hv. unfold process_ctrl.
  eapply type_bind; [types|]. intros t _. eapply type_bind; [types|]. intros _ _.
  destruct (UdtControlPacket.packet_type c) as [hs| |a|n| | |d|] eqn:E.
  - by apply type_on_handshake.
  - by apply type_ret.
  - by apply type_on_ack.
  - by apply type_on_nak.
  - types.
  - apply type_on_ack2.
  - apply type_on_drop_request, Hv.
  - by apply type_still.
Qed.

(** *** Data packets and acknowledgements *)

Lemma lor_u32 x : valid x → u32_range (Z.lor x 2147483648).
Proof.
  unfold valid, u32_range, SEQ_MAX. intros Hx. assert (0 <= Z.lor x 2147483648) as Hpos by (apply Z.lor_nonneg; lia).
  split; [done|]. apply Z.log2_lt_pow2; [|].
  - destruct (Z.eq_dec (Z.lor x 2147483648) 0) as [E|]; [|lia]. by apply Z.lor_eq_0_iff in E as [_ ?].
  - rewrite Z.log2_lor by lia. apply Z.max_lub_lt; [|done].
    destruct (decide (x = 0)) as [->|]; [done|]. apply Z.log2_lt_pow2; lia.
Qed.

Lemma regular_nak first last id : valid first → valid last → u32_range id →
  regular (Control (UdtControlPacket.new_nak (nak_words first last) id)).
Proof.
  intros Hf Hl Hid. unfold nak_words. destruct (Z.eqb_spec first last) as [->|Hne].
  - destruct (interval_word last Hl) as (_ & _ & E). apply regular_control; simpl; rewrite ?E; simpl; try done.
    by repeat constructor; apply valid_u32.
  - destruct (interval_word first Hf) as (E1 & E2 & _). apply regular_control; simpl; rewrite ?E1; simpl; try done.
    rewrite !Forall_cons. split_and!; [|by apply valid_u32|done].
    by apply lor_u32.
Qed.

Lemma type_report_gap seq : valid seq → typed_method (report_gap seq).
Proof.
  intros Hs. unfold report_gap. eapply type_bind; [apply type_gets|]. intros curr (s & Hty & ->).
  eapply type_bind; [apply type_lift|]. intros last Hlast%sub_i32_valid.
  eapply type_bind; [types|]. intros _ _. eapply type_bind; [apply type_gets|]. intros peer (s' & Hty' & ->).
  apply type_send_packet, regular_nak; [apply seq_add_valid|done|].
  destruct (UdtSocket.peer_socket_id s') eqn:E; [by apply (ty_peer s')|done].
Qed.

Lemma type_process_data p : regular (Data p) → typed_method (process_data p).
Proof.
  intros [[Hseq _] _]. unfold process_data, record_arrival, finish_data. cbv zeta.
  types; try (apply type_report_gap; done); try (case_match; types).
Qed.

Lemma type_process_packet p : regular p → typed_method (process_packet p).
Proof. intros Hp. destruct p; [by apply type_process_ctrl|by apply type_process_data]. Qed.

Lemma next_to_ack_valid st : typed_state st → valid (next_to_ack st).
Proof.
  intros Hs. unfold next_to_ack. destruct (LossList.peek_after _ _) eqn:E; [|apply seq_add_valid].
  eapply peek_after_valid; [|apply ts_rcv_losses, Hs|exact E]. apply seq_add_valid.
Qed.

(** The estimates of a full acknowledgement are [u32] values, whatever was measured. *)
Lemma pkt_rcv_speed_u32 f v : UdtFlow.get_pkt_rcv_speed f = Ok v → u32_range v.
Proof.
  unfold UdtFlow.get_pkt_rcv_speed. intros (values & _ & E)%bind_is_Ok. destruct (_ <? _)%nat; [by injection E as <-|].
  apply bind_is_Ok in E as (total & _ & E). injection E as <-. pose proof (per_second_range (length values) total).
  unfold u32_range. lia.
Qed.

Lemma bandwidth_u32 f v : UdtFlow.get_bandwidth f = Ok v → u32_range v.
Proof.
  unfold UdtFlow.get_bandwidth. destruct (UdtFlow.probe_window f) eqn:Ew; [by intros [= <-]|].
  rewrite <- Ew. intros (values & _ & E)%bind_is_Ok. apply bind_is_Ok in E as (total & _ & E).
  destruct (total =? 0); injection E as <-; [done|]. pose proof (per_second_range (length values) total).
  unfold u32_range. lia.
Qed.

Definition wf_info (x : AckOptionalInfo.t) : Prop :=
  Forall u32_range [AckOptionalInfo.rtt x; AckOptionalInfo.rtt_variance x;
    AckOptionalInfo.available_buf_size x; AckOptionalInfo.pack_recv_rate x; AckOptionalInfo.link_capacity x].

Lemma micros_u32 d : 0 <= d → u32_range (Z.min U32_MAX (as_micros d)).
Proof. intros Hd. unfold u32_range, as_micros. pose proof (Z.div_pos d 1000). lia. Qed.

Lemma type_ack_info : has_type ack_info wf_info.
Proof.
  unfold ack_info. eapply type_bind; [apply type_gets|]. intros f (s & Hs & ->).
  eapply type_bind; [apply type_gets|]. intros b _. eapply type_bind; [apply type_lift|]. intros available Ha.
  assert (u32_range (Z.max available 2)) as Hav by (apply arith_u_range in Ha; [unfold u32_range; lia|lia]).
  pose proof (micros_u32 _ (tf_rtt _ (ty_flow s Hs))). pose proof (micros_u32 _ (tf_rtt_var _ (ty_flow s Hs))).
  eapply type_bind; [types|]. intros t _. eapply type_bind; [types|]. intros elapsed _. destruct (_ >? _).
  - eapply type_bind; [apply type_lift|]. intros speed Hspeed%pkt_rcv_speed_u32.
    eapply type_bind; [apply type_lift|]. intros bandwidth Hb%bandwidth_u32.
    eapply type_bind; [types|]. intros t' _. eapply type_bind; [types|]. intros _ _. apply type_ret.
    unfold wf_info. simpl. by repeat (apply Forall_cons; split; [done|]).
  - apply type_ret. unfold wf_info. simpl. by repeat (apply Forall_cons; split; [done|]).
Qed.

Lemma type_send_full_ack : typed_method send_full_ack.
Proof.
  unfold send_full_ack. eapply type_bind; [apply type_gets|]. intros st _. eapply type_bind; [types|]. intros d _.
  apply type_when. intros _. eapply type_bind; [types|]. intros _ _.
  eapply type_bind; [apply type_ack_info|]. intros info Hinfo. eapply type_bind; [apply type_gets|]. intros st' (s & Hs & ->).
  eapply type_bind; [apply type_gets|]. intros peer (s' & Hs' & ->). eapply type_bind; [apply type_lift|].
  intros id Hid%peer_u32; [|done]. eapply type_bind; [apply type_send_packet, regular_control|].
  - split; [eauto with typed|exact Hinfo].
  - eauto with typed.
  - done.
  - split; simpl; eauto with typed.
  - intros _ _. types.
Qed.


Lemma type_advance_ack n : valid n → typed_method (advance_ack n).
Proof. intros Hn. unfold advance_ack. types. Qed.

Lemma type_send_ack light : typed_method (send_ack light).
Proof.
  unfold send_ack. eapply type_bind; [apply type_gets|]. intros st (s & Hs & ->).
  pose proof (next_to_ack_valid _ (ty_state s Hs)) as Hn. destruct (_ =? _); [by apply type_ret|]. destruct light.
  - eapply type_bind; [apply type_gets|]. intros peer (s' & Hs' & ->). eapply type_bind; [apply type_lift|].
    intros id Hid%peer_u32; [|done]. apply type_send_packet, regular_control; try done.
    split; [by apply valid_u32|done].
  - eapply type_bind; [by apply type_advance_ack|]. intros proceed _. apply type_when. intros _. apply type_send_full_ack.
Qed.
#[local] Hint Resolve type_send_ack : typed.

Lemma type_ack_timer t : typed_method (ack_timer t).
Proof. unfold ack_timer. types. Qed.
#[local] Hint Resolve type_ack_timer : typed.

Lemma type_check_timers : typed_method check_timers.
Proof.
  unfold check_timers, exp_timer, resend_or_keep_alive. types.
  apply type_send_packet, regular_control; try done. by eapply ty_peer.
Qed.

(** *** Opening, reading and closing *)

Lemma set_peer_addr_typed addr s s' : UdtSocket.set_peer_addr addr s = Ok s' → typed s → typed s'.
Proof.
  intros (size & _ & E)%bind_is_Ok [? ? ? ? ? [? ?] ?]. apply (inj Ok) in E as <-. by split.
Qed.

Lemma new_typed clock rnd id ty isn conf : u32_range id → valid (default rnd isn) →
  typed_config (default UdtConfiguration.default conf) → typed (UdtSocket.new clock rnd id ty isn conf).
Proof.
  intros Hid Hisn Hc. assert (valid (match isn with Some i => i | None => rnd end)) as Hv by (by destruct isn).
  assert (typed_config (match conf with Some c => c | None => UdtConfiguration.default end)) as Hc' by (by destruct conf).
  split; simpl; try done; (split; simpl; eauto using seq_add_valid, entries_new; done).
Qed.

Lemma type_connect_start : typed_method connect_start.
Proof. unfold connect_start. types. Qed.

Lemma type_connect_request addr : wf_ip (ip addr) → typed_method (connect_request addr).
Proof.
  intros Hip. unfold connect_request. eapply type_bind; [apply type_set_status|]. intros _ _.
  eapply type_bind; [apply type_update; intros s s' Hs Hs'; by eapply set_peer_addr_typed|]. intros _ _.
  eapply type_bind; [apply type_get|]. intros s Hs. eapply type_bind; [apply type_lift|]. intros available Ha.
  apply arith_u_range in Ha; [|done]. pose proof (tf_window _ (ty_flow s Hs)) as Hw.
  apply type_send_to, regular_handshake; try done; eauto with typed. unfold u32_range in *. lia.
Qed.

Lemma type_connect_on_handshake peer hs : wf_ip (ip peer) → wf_handshake hs →
  valid (HandShakeInfo.initial_seq_number hs) → typed_method (connect_on_handshake peer hs).
Proof.
  intros Hip Hwf Hisn. words. unfold connect_on_handshake.
  eapply type_bind; [apply type_gets|]. intros conf (s & Hs & ->). pose proof (ty_config s Hs) as [? ? ?].
  cbv zeta. assert (∀ b : bool, u32_range (if b then UdtConfiguration.mss (UdtSocket.configuration s)
    else HandShakeInfo.max_packet_size hs)) as Hmss by (by intros []).
  eapply type_bind; [apply type_modify; intros s' Hs'; destruct Hs'; split; simpl; try done; split; simpl; try done; apply Hmss|]. intros _ _.
  eapply type_bind; [types|]. intros _ _. eapply type_bind; [apply type_gets|]. intros id (s1 & Hs1 & ->).
  eapply type_bind; [types|]. intros t _. eapply type_bind; [types|]. intros _ _. eapply type_bind; [apply type_set_status|].
  intros _ _. eapply type_bind; [apply type_gets|]. intros peer_id (s2 & Hs2 & ->).
  eapply type_bind; [apply type_lift|]. intros pid Hpid%peer_u32; [|done].
  eapply type_bind; [types|]. intros [mux|] _; [|by apply type_ret].
  eapply type_bind; [types|]. intros _ _. apply type_mux_send_to, regular_handshake; try done; eauto with typed.
  unfold u32_range in *. lia.
Qed.

Lemma type_read_rcv_buffer buf : typed_method (read_rcv_buffer buf).
Proof. unfold read_rcv_buffer. types. Qed.

Lemma type_check_stream : typed_method check_stream.
Proof. unfold check_stream. types. Qed.
Lemma type_check_readable : typed_method check_readable.
Proof. unfold check_readable. types. Qed.

Lemma type_poll_recv buf : typed_method (poll_recv buf).
Proof.
  unfold poll_recv. eapply type_bind; [apply type_check_stream|]. intros _ _.
  eapply type_bind; [apply type_check_readable|]. intros _ _. types. apply type_read_rcv_buffer.
Qed.

Lemma type_recv_finish buf : typed_method (recv_finish buf).
Proof.
  unfold recv_finish. eapply type_bind; [apply type_check_readable|]. intros _ _. apply type_read_rcv_buffer.
Qed.

Lemma type_close_finish : typed_method close_finish.
Proof.
  unfold close_finish. types. apply type_send_packet, regular_control; try done.
  eapply peer_u32; [|eassumption]. done.
Qed.
End methods.

(** ** A network of datagrams *)

(** What the parser makes of a regular packet is regular. *)
Lemma canonical_regular p : regular p → regular (canonical_packet p).
Proof.
  intros [Hwf Hv]. destruct p as [[t r info time id]|d]; [|done]. destruct Hwf as [Ht Hrest]. cbn in Ht, Hrest, Hv.
  destruct t as [[v st isn mps mws ct sid ck addr]| | | | | | |]; try done.
  destruct Ht as (Hw & Hc & Hip). split; [|done]. split; [|done]. split; [done|]. split; [done|]. cbn in *.
  destruct addr as [o|o]; [done|]. destruct Hip as [Hlen Hbytes]. cbn [canonical_ip].
  destruct (forallb _ _); [|done]. split; [rewrite length_take; lia|by apply Forall_take].
Qed.

Section network.
Context `{Profile} `{FloatLib}.

Record typed_end (e : endpoint) : Prop := {
  te_socket : typed (Endpoint.socket e);
  te_begun now to_resend : Endpoint.begun e = Some (now, to_resend) → regular_loss to_resend;
  te_prepared : Forall (Forall (λ p, regular (Data p))) (Endpoint.prepared e);
  te_trace : Forall regular_event (trace (Endpoint.world e))
}.

(** A typed method of the socket of an end. *)
Lemma end_runs {A} (m : SM A) (Q : A → Prop) e live begun written blocks read prepared : typed_end e → has_type m Q →
  (∀ now to_resend, begun = Some (now, to_resend) → (∀ a, (m (Endpoint.world e)).1 = Ok a → Q a) → regular_loss to_resend) →
  (∀ a, (m (Endpoint.world e)).1 = Ok a → Q a → Forall (Forall (λ p, regular (Data p))) prepared) →
  (is_ok (m (Endpoint.world e)).1 = false → Forall (Forall (λ p, regular (Data p))) prepared) →
  typed_end (Endpoint.mk (m (Endpoint.world e)).2 live begun prepared written blocks read).
Proof.
  intros [Hs _ Hp Ht] Hm Hbg Hok Hno. destruct (Hm (Endpoint.world e) Hs) as (Hs' & (evs & Et & He) & HQ).
  split; simpl; [done|intros now to_resend E; by eapply Hbg| |rewrite Et; by apply Forall_app].
  destruct (m (Endpoint.world e)) as [[a|err|] w]; [by eapply Hok; [|by apply HQ]|by apply Hno..].
Qed.

Context `{Env}.

Lemma end_keeps {A} (m : SM A) (Q : A → Prop) e live written blocks read : typed_end e → has_type m Q →
  typed_end (Endpoint.mk (m (Endpoint.world e)).2 live (Endpoint.begun e) (Endpoint.prepared e) written blocks read).
Proof. intros He Hm. apply (end_runs m Q); [done|done|intros now l E _; by eapply te_begun|intros; by apply He..]. Qed.

Lemma perform_typed a e : typed_end e → (∀ p, a = Endpoint.Receive p → regular p) → typed_end (Endpoint.perform a e).
Proof.
  intros He Hp. assert (∀ m, has_type m (λ _, True) → typed_end (Endpoint.serve m e)) as Hserve.
  { intros m Hm. unfold Endpoint.serve. destruct (Endpoint.live e); [|done].
    pose proof (end_keeps m _ e (is_ok (m (Endpoint.world e)).1) (Endpoint.written e) (Endpoint.blocks e)
      (Endpoint.read e) He Hm) as Hk. by destruct (m (Endpoint.world e)) as [o w]. }
  destruct a as [data| | | |room|room| | | | |p]; simpl.
  - unfold Endpoint.write. pose proof (λ l wr b r, end_keeps (send data) _ e l wr b r He (type_send data)) as Hk.
    destruct (send data (Endpoint.world e)) as [o w]. apply Hk.
  - unfold Endpoint.begin. destruct (Endpoint.begun e) as [x|]; [done|].
    pose proof (λ l bg wr b r pr, end_runs begin_data_packets _ e l bg wr b r pr He type_begin_data_packets) as Hk.
    destruct (begin_data_packets (Endpoint.world e)) as [o w]. cbn [fst snd] in Hk.
    pose proof (te_prepared e He). apply Hk; [|done..].
    intros now to_resend Ho Hr. destruct o as [r| |]; [subst r|done..]. by apply (Hr (Some (now, to_resend))).
  - unfold Endpoint.finish. destruct (Endpoint.begun e) as [[now to_resend]|] eqn:Ebg; [|done].
    pose proof (λ l wr b r pr, end_runs (finish_data_packets now to_resend) _ e l None wr b r pr He
      (type_finish_data_packets _ _ (te_begun e He _ _ Ebg))) as Hk.
    destruct (finish_data_packets now to_resend (Endpoint.world e)) as [o w]. cbn [fst snd] in Hk.
    pose proof (te_prepared e He). apply Hk; [done|..].
    + intros r -> Hr. destruct r as [[packets t]|]; apply Forall_app; split; try done; by repeat constructor.
    + intros Hno. apply Forall_app. split; [done|]. by destruct o.
  - unfold Endpoint.transmit. destruct (Endpoint.prepared e) as [|packets rest] eqn:E; [done|].
    pose proof (te_prepared e He) as Hpr. rewrite E in Hpr. apply Forall_cons in Hpr as [Hpk Hrest].
    apply (end_runs _ _ e _ _ _ _ _ rest He (type_send_data_packets packets Hpk)); try done.
    intros now l Ebg _. by eapply te_begun.
  - unfold Endpoint.poll. pose proof (λ l wr b r, end_keeps _ _ e l wr b r He (type_poll_recv (ReadBuf.mk [] room))) as Hk.
    destruct (poll_recv _ (Endpoint.world e)) as [o w]. apply Hk.
  - unfold Endpoint.recv. pose proof (λ l wr b r, end_keeps _ _ e l wr b r He (type_recv_finish (ReadBuf.mk [] room))) as Hk.
    destruct (recv_finish _ (Endpoint.world e)) as [o w]. apply Hk.
  - apply Hserve, type_check_timers.
  - by apply (end_keeps _ _ e _ _ _ _ He type_close_finish).
  - by apply (end_keeps _ _ e _ _ _ _ He (type_set_status Closed)).
  - by destruct He.
  - unfold Endpoint.receive. destruct (UdtStatus.is_alive _); [|done]. by apply Hserve, type_process_packet, Hp.
Qed.
End network.

(** Both ends act; a datagram that an end has sent, or any regular packet, reaches the
    other end as what the parser makes of it. *)
Section datagrams.
Context `{Profile} `{FloatLib} (env : side → Env).

Inductive datagram_step (sys : system) : system → Prop :=
  | datagram_act i a : (∀ p, a ≠ Endpoint.Receive p) →
      datagram_step sys (put i (@Endpoint.perform _ (env i) _ a (at_side i sys)) sys)
  | datagram_deliver i addr p raw p' : SendTo addr p ∈ trace (Endpoint.world (at_side (other i) sys)) →
      UdtPacket.serialize p = Ok raw → UdtPacket.deserialize raw = Ok p' →
      datagram_step sys (put i (@Endpoint.perform _ (env i) _ (Endpoint.Receive p') (at_side i sys)) sys)
  | datagram_forged i p : regular p →
      datagram_step sys (put i (@Endpoint.perform _ (env i) _ (Endpoint.Receive p) (at_side i sys)) sys).

Definition typed_system (sys : system) : Prop := typed_end (client sys) ∧ typed_end (server sys).

Lemma typed_put i e sys : typed_end e → typed_system sys → typed_system (put i e sys).
Proof. intros He [? ?]. by destruct i. Qed.

Lemma datagram_step_typed sys sys' : datagram_step sys sys' → typed_system sys → typed_system sys'.
Proof.
  intros Hstep Hsys. assert (∀ i, typed_end (at_side i sys)) as Hi by (destruct Hsys; by intros []).
  destruct Hstep as [i a Ha|i addr p raw p' Hp Hs Hd|i p Hp]; apply typed_put; try done; apply perform_typed; try done.
  - by intros p ?%Ha.
  - intros q [= <-]. pose proof (te_trace _ (Hi (other i))) as Ht. rewrite Forall_forall in Ht.
    pose proof (Ht _ Hp) as Hr. simpl in Hr. pose proof (packet_survives p (proj1 Hr)) as Hsur.
    rewrite Hs in Hsur. simpl in Hsur. rewrite Hd in Hsur. injection Hsur as ->. by apply canonical_regular.
  - by intros q [= <-].
Qed.

(** C12. Nothing is lost on the wire.  Between two ends whose state fits the widths of the
    protocol, whatever they do and whatever regular packets others inject, every packet
    that is sent is serialised without overflow, and the parser of the other end returns
    it (with the address of a handshake in canonical form); the state of both ends fits
    its widths for ever. *)
Theorem wire_types sys0 sys : typed_system sys0 → rtc datagram_step sys0 sys →
  typed_system sys ∧ ∀ i addr p, SendTo addr p ∈ trace (Endpoint.world (at_side i sys)) →
    regular p ∧ UdtPacket.serialize p ≫= UdtPacket.deserialize = Ok (canonical_packet p).
Proof.
  intros Hsys0 Hrun. assert (typed_system sys) as Hsys.
  { induction Hrun as [|? ? ? Hstep _ IH]; [done|]. by apply IH; eapply datagram_step_typed. }
  split; [done|]. intros i addr p Hp. assert (typed_end (at_side i sys)) as [_ _ _ Ht] by (destruct Hsys; by destruct i).
  rewrite Forall_forall in Ht. pose proof (Ht _ Hp) as Hr. split; [done|]. by apply packet_survives, Hr.
Qed.
End datagrams.

(** *** Witness *)

Lemma sample_typed : typed_end sample_end.
Proof.
  split; [|done|by repeat constructor|by repeat constructor].
  assert (entries_valid []) as Hnil by (intros k s e Hin; inversion Hin).
  assert (Forall (λ x, 0 <= SndBufferBlock.msg_number x <= MSG_MAX) []) as Hblocks by constructor.
  split; [|intros id [= <-]| |split; try exact Hnil|split|split; [exact Hblocks|]|split]; vm_compute; split_and?; congruence.
Qed.

(** The client has written and sent three bytes. *)
Lemma sample_written_steps :
  rtc (@datagram_step true sample_float (λ _, sample_env)) sample_system sample_written.
Proof.
  unfold sample_written.
  do 4 (etransitivity; [|apply rtc_once; eapply (@datagram_act true sample_float (λ _, sample_env) _ Client);
    intros p; discriminate]). reflexivity.
Qed.

Lemma wire_types_witness :
  Forall (λ p, regular p ∧ @UdtPacket.serialize true p ≫= UdtPacket.deserialize = Ok (canonical_packet p))
    (sent_packets (client sample_written))
  ∧ length (sent_packets (client sample_written)) = 1%nat.
Proof.
  assert (∀ sys, rtc (@datagram_step true sample_float (λ _, sample_env)) sample_system sys →
    Forall (λ p, regular p ∧ @UdtPacket.serialize true p ≫= UdtPacket.deserialize = Ok (canonical_packet p))
      (sent_packets (client sys))) as Hsys.
  { intros sys Hrun. destruct (@wire_types true sample_float (λ _, sample_env) sample_system sys
      (conj sample_typed sample_typed) Hrun) as [_ Hsent].
    apply Forall_forall. intros p Hp. apply list_elem_of_omap in Hp as (ev & Hev & Hp).
    destruct ev as [addr q| | | | | |]; try discriminate. injection Hp as ->. exact (Hsent Client addr p Hev). }
  split; [exact (Hsys sample_written sample_written_steps)|by vm_compute].
Defined.
