(* ===== verification/waits.v ===== *)
(** * Waiting for a socket

    The waits of [socket.rs]: for the end of a handshake, for data to read and for an
    acknowledgement.  A task decides under the locks that it must wait and takes its place
    ([Notify::notified]) before it releases them; the methods of other tasks run while it
    sleeps, and some of them notify the sleepers ([Notify::notify_waiters]).  Proved here:
    a sleeper whose condition no longer holds has been notified, the three places that
    break a connection excepted; and those who wait for an acknowledgement of a connection
    that has ended wait for ever. *)

From stdpp Require Import relations.
From S2P Require Import prelude seq_number time data_packet control_packet packet.
From S2P Require Import btree_map loss_list ack_window rcv_buffer snd_buffer float flow.
From S2P Require Import configuration rate_control socket_state world socket samples.
From S2P Require Import socket_status socket_sender socket_receiver stream_invariant stream_sender.
From S2P Require Import wire_types.

#[global] Open Scope Z_scope.

(** ** Tasks that wait *)

Module Waits.
Inductive wait := ForConnection | ForData | ForAck.

Definition notifier (k : wait) : Notifier :=
  match k with ForConnection => ConnectNotify | ForData => RcvNotify | ForAck => AckNotify end.

Definition notifies (n : Notifier) (e : event) : bool :=
  match e with NotifyWaiters n' => bool_decide (n' = n) | _ => false end.

(** How often [notify_waiters] has been called: a [Notified] future is ready once this is
    larger than it was when the future was created. *)
Definition generation (n : Notifier) (tr : list event) : nat :=
  length (filter (λ e, notifies n e = true) tr).

(** The socket and the tasks asleep: what each waits for, and since when. *)
Record t := mk { world : world UdtSocket.t; sleepers : list (wait * nat) }.

Section operations.
Context `{Profile} `{Env} `{FloatLib}.

Definition must (k : wait) : SM bool :=
  match k with
  | ForConnection => must_wait_for_connection
  | ForData => must_wait
  | ForAck => must_wait_for_ack
  end.

(** A waiting method up to its [await]: the [Notified] future, [None] if it returns. *)
Definition start (k : wait) : SM (option nat) := λ w,
  match must k w with
  | (Ok true, w) => (Ok (Some (generation (notifier k) (trace w))), w)
  | (Ok false, w) => (Ok None, w)
  | (Err e, w) => (Err e, w)
  | (Panic, w) => (Panic, w)
  end.

Definition ready (s : wait * nat) (w : world.world UdtSocket.t) : Prop :=
  (s.2 < generation (notifier s.1) (trace w))%nat.

(** What the other tasks run: the application, the two workers, [connect], [close] and
    the cleanup task; the guards are those of the code around the call.  An answer to the
    handshake comes before any data has been acknowledged: otherwise the worker has
    panicked, see [handshake.early_data_panics]. *)
Inductive method (s : UdtSocket.t) : ∀ A, SM A → Prop :=
  | m_send data : method s unit (send data)
  | m_next_data_packets : method s _ next_data_packets
  | m_send_data_packets packets : Forall (λ p, regular (Data p)) packets →
      method s unit (send_data_packets packets)
  | m_poll_recv buf : method s _ (poll_recv buf)
  | m_recv buf : method s _ (recv_finish buf)
  | m_check_timers : UdtStatus.is_alive (UdtSocket.status s) = true → method s unit check_timers
  | m_process_packet p : UdtStatus.is_alive (UdtSocket.status s) = true → regular p →
      (UdtSocket.status s = Connecting → to_read s = acked_to s) → method s unit (process_packet p)
  | m_connect addr : UdtSocket.status s = Opened → wf_ip (ip addr) → method s unit (connect_request addr)
  | m_close : method s unit close_finish
  | m_collect : UdtSocket.status s = Closing → method s unit (set_status Closed).

Inductive step : t → t → Prop :=
  | step_method st A (m : SM A) : method (sock (world st)) A m →
      step st (mk (m (world st)).2 (sleepers st))
  | step_start st k g w : start k (world st) = (Ok (Some g), w) →
      step st (mk w (sleepers st ++ [(k, g)]))
  | step_wake st l1 s l2 : sleepers st = l1 ++ s :: l2 → ready s (world st) →
      step st (mk (world st) (l1 ++ l2)).
End operations.
End Waits.

(** ** What keeps a sleeper asleep *)

Lemma generation_app n tr evs :
  Waits.generation n (tr ++ evs) = (Waits.generation n tr + Waits.generation n evs)%nat.
Proof. unfold Waits.generation. by rewrite filter_app, length_app. Qed.

Lemma generation_pos n evs : NotifyWaiters n ∈ evs → (0 < Waits.generation n evs)%nat.
Proof.
  intros He. unfold Waits.generation.
  assert (NotifyWaiters n ∈ filter (λ e, Waits.notifies n e = true) evs) as Hin.
  { apply list_elem_of_filter. split; [|done]. by apply bool_decide_eq_true_2. }
  destruct (filter _ _); [by apply not_elem_of_nil in Hin|simpl; lia].
Qed.

Definition asleep (k : Waits.wait) (s : UdtSocket.t) : Prop :=
  match k with
  | Waits.ForConnection => UdtSocket.status s = Connecting ∨ UdtSocket.status s = Broken
  | Waits.ForData => UdtSocket.status s = Broken
      ∨ UdtStatus.is_alive (UdtSocket.status s) = true ∧ readable (UdtSocket.rcv_buffer s) = []
  | Waits.ForAck => UdtSocket.snd_buffer_is_empty s = false
  end.

(** Packets enter the receive buffer after what the application may read. *)
Definition reader_ok (s : UdtSocket.t) : Prop :=
  rcv_wf (UdtSocket.rcv_buffer s) ∧ to_read s <= acked_to s
  ∧ (acked_to s <= sent_ack s ∨ to_read s = acked_to s).

Definition announced (k : Waits.wait) (evs : list event) : Prop := NotifyWaiters (Waits.notifier k) ∈ evs.

(** Those whose wait has ended are woken. *)
Definition wakes (w w' : world UdtSocket.t) : Prop :=
  reader_ok (sock w') ∧ ∃ evs, trace w' = trace w ++ evs
    ∧ ∀ k, asleep k (sock w) → asleep k (sock w') ∨ announced k evs.

Lemma wakes_trans w1 w2 w3 : wakes w1 w2 → wakes w2 w3 → wakes w1 w3.
Proof.
  intros (_ & e1 & E1 & Hk1) (Hr & e2 & E2 & Hk2). split; [done|]. exists (e1 ++ e2).
  rewrite E2, E1, <- app_assoc. split; [done|]. unfold announced in *. setoid_rewrite elem_of_app.
  intros k [[?|?]%Hk2|?]%Hk1; auto.
Qed.

(** A method that wakes those whose wait it ends. *)
Definition heeds {A} (m : SM A) : Prop := ∀ w, typed (sock w) → reader_ok (sock w) → wakes w (m w).2.

Lemma heeds_bind {A B} (m : SM A) (f : A → SM B) (Q : A → Prop) :
  has_type m Q → heeds m → (∀ a, Q a → heeds (f a)) → heeds (m ≫= f).
Proof.
  intros Ht Hm Hf w Hw Hr. destruct (Ht w Hw) as (Hs & _ & HQ). specialize (Hm w Hw Hr).
  rewrite bind_run. destruct (m w) as [[a|e|] w']; cbn [fst snd] in *; [|done..].
  eapply wakes_trans; [exact Hm|]. apply (Hf a (HQ a eq_refl) w' Hs). apply Hm.
Qed.

Lemma wakes_refl w n : reader_ok (sock w) → wakes w (World (sock w) n (trace w)).
Proof. intros Hr. split; [done|]. exists []. rewrite app_nil_r. auto. Qed.

Lemma heeds_when b m : (b = true → heeds m) → heeds (when b m).
Proof. intros Hm. destruct b; [by apply Hm|]. intros [s n tr] _ Hr. by apply (wakes_refl (World s n tr)). Qed.

Lemma heeds_ignore_error m : heeds m → heeds (ignore_error m).
Proof. intros Hm w Hw Hr. specialize (Hm w Hw Hr). unfold ignore_error. by destruct (m w) as [[| |] ?]. Qed.

(** ** Calm methods

    They end no wait: the connection stays as it is or breaks, nothing new can be read and
    nothing is released.  They do not announce acknowledgements. *)

Definition calm_socket (s s' : UdtSocket.t) : Prop :=
  (rcv_wf (UdtSocket.rcv_buffer s) → rcv_wf (UdtSocket.rcv_buffer s'))
  ∧ (∀ p, p ∈ RcvBuffer.packets (UdtSocket.rcv_buffer s') → p ∈ RcvBuffer.packets (UdtSocket.rcv_buffer s))
  ∧ to_read s' = to_read s ∧ acked_to s' = acked_to s ∧ sent_ack s' = sent_ack s
  ∧ (UdtSocket.status s' = UdtSocket.status s ∨ UdtSocket.status s' = Broken)
  ∧ (UdtSocket.snd_buffer_is_empty s = false → UdtSocket.snd_buffer_is_empty s' = false).

#[export] Instance calm_socket_preorder : PreOrder calm_socket.
Proof.
  split; [by intros s; unfold calm_socket; auto 10|].
  intros s1 s2 s3 (?&?&?&?&?&Hs1&?) (?&?&?&?&?&Hs2&?). unfold calm_socket. split_and!; auto; try congruence.
  destruct Hs1, Hs2; [left|right|right|right]; congruence.
Qed.

Definition calm_event (e : event) : Prop := e ≠ NotifyWaiters AckNotify.

Notation calm := (evolves calm_socket calm_event).

Lemma readable_nil b : RcvBuffer.next_to_read b <= RcvBuffer.next_to_ack b →
  readable b = [] ↔ ∀ p, p ∈ RcvBuffer.packets b → ¬ (RcvBuffer.next_to_read b <= p.1 < RcvBuffer.next_to_ack b).
Proof.
  intros Hle. unfold readable. rewrite (proj2 (Z.leb_le _ _)) by done. split.
  - intros E p Hp Hr. apply (not_elem_of_nil p). rewrite <- E. by apply elem_of_range.
  - intros Hno. destruct (BTreeMap.range _ _ _) as [|p l] eqn:E; [done|]. exfalso.
    assert (p ∈ p :: l) as Hp by left. rewrite <- E in Hp. apply elem_of_range in Hp as [? ?]. by apply (Hno p).
Qed.

Lemma calm_asleep k s s' : calm_socket s s' → to_read s <= acked_to s → asleep k s → asleep k s'.
Proof.
  intros (_ & Hp & Er & Ea & _ & Hst & Hb) Hle. destruct k; simpl; [| |auto].
  - destruct Hst as [->|]; [done|by right].
  - intros Has. destruct Hst as [->|?]; [|by left]. destruct Has as [?|[Hal Hno]]; [by left|right].
    split; [done|]. rewrite readable_nil in Hno by done. apply readable_nil; [by rewrite Er, Ea|].
    rewrite Er, Ea. intros p Hin. apply Hno, Hp, Hin.
Qed.

Lemma wakes_calm w w' : reader_ok (sock w) → calm w w' → wakes w w'.
Proof.
  intros (Hwf & Hle & Hr) [Hc (evs & Et & _)]. pose proof Hc as (Hwf' & _ & Er & Ea & Es & _).
  split; [unfold reader_ok; rewrite Er, Ea, Es; auto|].
  exists evs. split; [done|]. intros k Hk. left. by eapply calm_asleep.
Qed.

Lemma wakes_then_calm w1 w2 w3 : wakes w1 w2 → calm w2 w3 → wakes w1 w3.
Proof. intros Hw Hc. eapply wakes_trans; [exact Hw|]. apply wakes_calm; [apply Hw|done]. Qed.

Lemma heeds_calm {A} (m : SM A) : all_runs calm m → heeds m.
Proof. intros Hm w _ Hr. apply wakes_calm; [done|apply Hm]. Qed.

Ltac calm_fields :=
  intros; repeat match goal with
  | H : _ ≫= _ = Ok _ |- _ => apply bind_is_Ok in H as (? & ? & H); cbv beta zeta in *
  | H : Ok _ = Ok _ |- _ => apply (inj Ok) in H; subst
  | H : (if ?b then _ else _) = Ok _ |- _ => destruct b
  end; unfold calm_socket; simpl; repeat case_match; simpl; split_and!; solve [auto].
Ltac calmly := unfold_access; evolve ltac:(idtac; calm_fields) ltac:(idtac; first [done | eauto with calm]).

Create HintDb calm discriminated.

(** A calm change, after which a calm method goes on. *)
Lemma calm_world w s n : calm_socket (sock w) s → calm w (World s n (trace w)).
Proof. intros Hs. split; [done|]. exists []. by rewrite app_nil_r. Qed.

Lemma calm_next {A} (m : SM A) w s n : calm_socket (sock w) s → all_runs calm m →
  calm w (m (World s n (trace w))).2.
Proof.
  intros Hs Hm. etransitivity; [|apply Hm]. by apply calm_world.
Qed.

Section calm_methods.
Context `{Profile} `{Env} `{FloatLib}.
Local Notation is_calm m := (all_runs calm m).

Lemma calm_diff a b : is_calm (diff a b).
Proof. apply evolves_lift, _. Qed.
#[local] Hint Resolve calm_diff : calm.
Lemma calm_send_to addr p : is_calm (send_to addr p).
Proof. unfold send_to. calmly. Qed.
#[local] Hint Resolve calm_send_to : calm.
Lemma calm_send_packet p : is_calm (send_packet p).
Proof. unfold send_packet. calmly. Qed.
Lemma calm_update_snd_queue b : is_calm (update_snd_queue b).
Proof. unfold update_snd_queue. calmly. Qed.
Lemma calm_cc_update : is_calm cc_update.
Proof. unfold cc_update. calmly. Qed.
#[local] Hint Resolve calm_send_packet calm_update_snd_queue calm_cc_update : calm.
Lemma calm_broken : is_calm (set_status Broken).
Proof. unfold set_status. calmly. Qed.
#[local] Hint Resolve calm_broken : calm.

Lemma calm_send_full_ack : is_calm send_full_ack.
Proof. unfold send_full_ack, ack_info. calmly. Qed.
Lemma calm_exp_timer t : is_calm (exp_timer t).
Proof. unfold exp_timer, resend_or_keep_alive. calmly. Qed.
Lemma calm_on_light_ack n : is_calm (on_light_ack n).
Proof. unfold on_light_ack. calmly. Qed.
Lemma calm_send_ack2 n : is_calm (send_ack2 n).
Proof. unfold send_ack2. calmly. Qed.
Lemma calm_ack_statistics n extra : is_calm (ack_statistics n extra).
Proof. unfold ack_statistics. calmly. Qed.
Lemma calm_on_ack2 c : is_calm (on_ack2 c).
Proof. unfold on_ack2. calmly. Qed.

Lemma nak_interval_sent n1 n2 st b st' : nak_interval n1 n2 st = Ok (b, st') →
  SocketState.last_sent_ack st' = SocketState.last_sent_ack st.
Proof.
  unfold nak_interval. intros E. repeat match goal with
  | H : _ ≫= _ = Ok _ |- _ => apply bind_is_Ok in H as (? & _ & H); cbv beta in H
  | H : Ok _ = Ok _ |- _ => injection H as <- <-
  | H : (if ?b then _ else _) = Ok _ |- _ => destruct b
  end; done.
Qed.

Lemma nak_loop_sent words st b st' : nak_loop words st = Ok (b, st') →
  SocketState.last_sent_ack st' = SocketState.last_sent_ack st.
Proof.
  remember (length words) as n eqn:Hn. revert words Hn st. induction (lt_wf n) as [n _ IH].
  intros words -> st. assert (∀ rest n1 n2, (length rest < length words)%nat →
    (r ← nak_interval n1 n2 st; if r.1 : bool then Ok r else nak_loop rest r.2) = Ok (b, st') →
    SocketState.last_sent_ack st' = SocketState.last_sent_ack st) as Hstep.
  { intros rest n1 n2 Hlen ([b1 st1] & E1 & E)%bind_is_Ok. apply nak_interval_sent in E1.
    destruct b1; [by injection E as _ <-|]. rewrite <- E1. by eapply (IH (length rest)). }
  destruct words as [|word rest]; [by intros [= _ ->]|]. cbn [nak_loop].
  destruct (negb _); [destruct rest as [|last rest]; [by intros [= _ ->]|]|]; apply Hstep; simpl; lia.
Qed.

Lemma calm_on_nak n : is_calm (on_nak n).
Proof.
  unfold on_nak. destruct (NakInfo.loss_info n) as [|first words] eqn:En; [calmly|]. rewrite <- En.
  unfold_access. apply evolves_bind; [apply _|calmly|intros _].
  apply evolves_bind; [apply _|calmly|intros _]. intros w. run.
  destruct (nak_loop _ _) as [[b st]|e|] eqn:E; run; [|reflexivity..]. apply nak_loop_sent in E.
  apply (calm_next (if b then set_status Broken else update_snd_queue true)); [calm_fields|]. destruct b; calmly.
Qed.
Lemma calm_drop_msg n : is_calm (modify_rcv_buffer (RcvBuffer.drop_msg n)).
Proof.
  apply evolves_modify. intros s. unfold calm_socket. simpl. split_and!; auto with rcv.
  unfold BTreeMap.retain. intros p [_ ?]%list_elem_of_filter. done.
Qed.
#[local] Hint Resolve calm_drop_msg : calm.
Lemma calm_on_drop_request c d : is_calm (on_drop_request c d).
Proof.
  unfold on_drop_request. unfold gets_state, modify_state, update_state. evolve ltac:(idtac; calm_fields)
    ltac:(idtac; eauto with calm).
Qed.
Lemma calm_record_arrival t n : is_calm (record_arrival t n).
Proof. unfold record_arrival. calmly. Qed.
Lemma calm_report_gap n : is_calm (report_gap n).
Proof. unfold report_gap. calmly. Qed.
Lemma calm_finish_data len n : is_calm (finish_data len n).
Proof. unfold finish_data. calmly. Qed.

Lemma calm_snd_buffer s b : SndBuffer.buffer b = SndBuffer.buffer (UdtSocket.snd_buffer s) →
  calm_socket s (UdtSocket.set_snd_buffer b s).
Proof. intros E. unfold calm_socket, UdtSocket.snd_buffer_is_empty, SndBuffer.is_empty. simpl. rewrite E. auto 10. Qed.

Lemma calm_read_block offset seq : is_calm (read_block offset seq).
Proof.
  unfold read_block. intros w. run. destruct (UdtSocket.peer_socket_id _); run; [|reflexivity].
  destruct (SndBuffer.read_data _ _ _ _ _ _ _) as [r b] eqn:E. run.
  apply calm_world, calm_snd_buffer. revert E. unfold SndBuffer.read_data.
  destruct (_ !! offset) as [block|]; [|by intros [= _ <-]]. case_match; intros [= _ <-]; [by case_match|done].
Qed.

Lemma calm_reset_pacing t : is_calm (reset_pacing t).
Proof. unfold reset_pacing. calmly. Qed.
#[local] Hint Resolve calm_read_block calm_reset_pacing : calm.

Lemma calm_fetch_new t : is_calm (fetch_new t).
Proof.
  unfold fetch_new. intros w. run. unfold diff. destruct (_ ⊖ _) as [d|e|]; run; [|reflexivity..].
  assert (is_calm (reset_pacing t ;; mret (@None (list UdtDataPacket.t * bool)))) as Hreset by calmly.
  destruct (d >? _); [apply Hreset|].
  destruct (UdtSocket.peer_socket_id _) as [id|]; run; [|reflexivity].
  destruct (SndBuffer.fetch_batch _ _ _ _ _) as [[packets b]|e|] eqn:E; run;
    [|by apply calm_world..].
  assert (calm_socket (sock w) (UdtSocket.set_snd_buffer b (sock w))) as Hb.
  { apply calm_snd_buffer. revert E. unfold SndBuffer.fetch_batch. destruct (_ >? _); [done|].
    destruct (arith_u _ _); [|done..]. by intros [= _ <-]. }
  destruct packets as [|p packets]; [by apply calm_next|].
  unfold modify_state, modify_rate_control. run. apply calm_world.
  etransitivity; [exact Hb|calm_fields].
Qed.
#[local] Hint Resolve calm_fetch_new : calm.

Lemma calm_next_data_packets : is_calm next_data_packets.
Proof. unfold next_data_packets, begin_data_packets, finish_data_packets, take_lost, drop_expired, pace. calmly. Qed.

Lemma calm_add_message now data ttl io : is_calm (update (λ s,
  b ← SndBuffer.add_message now data ttl io (UdtSocket.snd_buffer s); Ok (UdtSocket.set_snd_buffer b s))).
Proof.
  apply evolves_update; [apply _|]. intros s s' (b & Hb & E)%bind_is_Ok. apply (inj Ok) in E as <-.
  unfold calm_socket. simpl. split_and!; auto. revert Hb. unfold SndBuffer.add_message.
  destruct (_ =? 0)%nat; [done|]. destruct (_ >? _); [done|]. intros [= <-].
  unfold UdtSocket.snd_buffer_is_empty, SndBuffer.is_empty. simpl. by destruct (SndBuffer.buffer _).
Qed.
#[local] Hint Resolve calm_add_message : calm.

Lemma calm_send data : is_calm (send data).
Proof.
  unfold send. unfold modify_state. evolve ltac:(idtac; calm_fields) ltac:(idtac; eauto with calm).
Qed.
Lemma calm_check_readable : is_calm check_readable.
Proof. unfold check_readable. calmly. Qed.
Lemma calm_check_stream : is_calm check_stream.
Proof. unfold check_stream. calmly. Qed.
End calm_methods.

#[export] Hint Resolve calm_diff calm_send_to calm_send_packet calm_update_snd_queue calm_cc_update calm_broken
  calm_send_full_ack calm_exp_timer calm_on_light_ack calm_send_ack2 calm_ack_statistics calm_on_ack2 calm_on_nak
  calm_on_drop_request calm_record_arrival calm_report_gap calm_finish_data calm_next_data_packets calm_send
  calm_check_readable calm_check_stream : calm.

(** ** Methods that end a wait *)

(** The method has emitted [evs]. *)
Ltac heeded evs := split; [|exists evs; split; [by rewrite <- ?app_assoc, ?app_nil_r|]].

(** The rest of the method is calm. *)
Ltac calm_rest :=
  match goal with |- calm ?w (?m ?w).2 => assert (all_runs calm m) as Hrest by calmly; apply Hrest end.

Section methods.
Context `{Profile} `{Env} `{FloatLib}.

(** *** Receiving *)

Lemma heeds_advance_ack seq : valid seq → heeds (advance_ack seq).
Proof.
  intros Hseq w Hw Hr. pose proof Hr as (Hwf & Hle & Hor). unfold advance_ack, gets_state, diff. run.
  destruct (seq_sub_sign seq (sent_ack (sock w))) as (d & -> & Hd & _);
    [done|apply (ts_sent_ack _ (ty_state _ Hw))|]. run.
  destruct (Z.gtb_spec d 0) as [Hpos|Hneg].
  2: { apply wakes_calm; [done|]. calm_rest. }
  unfold RcvBuffer.ack_data, modify_state. run.
  destruct (seq_sub_sign seq (acked_to (sock w))) as (e & -> & He & _); [done|apply Hwf|]. run.
  heeded [NotifyWaiters RcvNotify].
  - destruct Hwf as [? ? ? ?]. unfold reader_ok. simpl. destruct (Z.gtb_spec e 0) as [Hpos'|Hneg']; simpl.
    + split_and!; [by split|lia|left; lia].
    + split_and!; [by split|lia|]. destruct Hor as [Hs|?]; [|by right]. exfalso. apply Hd in Hpos. lia.
  - intros []; simpl; [by left|by right; left|by left].
Qed.

Lemma heeds_send_ack light : heeds (send_ack light).
Proof.
  unfold send_ack. eapply heeds_bind; [apply type_gets|apply heeds_calm; calmly|]. intros st (s & Hs & ->).
  destruct (_ =? _); [apply heeds_calm; calmly|]. destruct light; [apply heeds_calm; calmly|].
  pose proof (next_to_ack_valid _ (ty_state s Hs)).
  eapply heeds_bind; [by apply type_advance_ack|by apply heeds_advance_ack|]. intros proceed _.
  apply heeds_when. intros _. apply heeds_calm. calmly.
Qed.

Lemma heeds_ack_timer t : heeds (ack_timer t).
Proof.
  unfold ack_timer. eapply heeds_bind; [apply type_get|apply heeds_calm; calmly|]. intros s Hs. cbv zeta.
  destruct (_ || _).
  - eapply heeds_bind; [apply type_ignore_error, type_send_ack|apply heeds_ignore_error, heeds_send_ack|].
    intros _ _. apply heeds_calm. calmly.
  - eapply heeds_bind; [apply type_lift|apply heeds_calm; calmly|]. intros n _.
    eapply heeds_bind; [apply type_lift|apply heeds_calm; calmly|]. intros n' _. apply heeds_when. intros _.
    eapply heeds_bind; [apply type_ignore_error, type_send_ack|apply heeds_ignore_error, heeds_send_ack|].
    intros _ _. apply heeds_calm. calmly.
Qed.

Lemma heeds_check_timers : heeds check_timers.
Proof.
  unfold check_timers. eapply heeds_bind; [apply type_cc_update|apply heeds_calm; calmly|]. intros _ _.
  eapply heeds_bind; [apply type_now|apply heeds_calm; calmly|]. intros t _.
  eapply heeds_bind; [apply type_ack_timer|apply heeds_ack_timer|]. intros _ _. apply heeds_calm. calmly.
Qed.

(** A packet after everything acknowledged. *)
Lemma wakes_insert w n p : valid (seq_of p) → sent_ack (sock w) <= seq_of p → reader_ok (sock w) →
  wakes w (World (UdtSocket.set_rcv_buffer (RcvBuffer.insert p (UdtSocket.rcv_buffer (sock w))) (sock w)) n (trace w)).
Proof.
  intros Hv Hseq (Hwf & Hle & Hor). set (b := UdtSocket.rcv_buffer (sock w)) in *.
  assert (RcvBuffer.next_to_read (RcvBuffer.insert p b) = RcvBuffer.next_to_read b
    ∧ RcvBuffer.next_to_ack (RcvBuffer.insert p b) = RcvBuffer.next_to_ack b) as [Er Ea]
    by (unfold RcvBuffer.insert; by destruct (BTreeMap.get _ _)).
  heeded (@nil event).
  - unfold reader_ok. cbn. rewrite Er, Ea. split_and!; [|done|done]. by apply rcv_wf_insert.
  - intros [] Hk; left; [done| |done]. destruct Hk as [?|[Hal Hno]]; [by left|right]. split; [done|].
    change (readable (RcvBuffer.insert p b) = []). rewrite readable_nil in Hno by done. apply readable_nil; rewrite Er, Ea; [done|].
    intros q [Hq|[-> _]]%elem_of_rcv_insert; [by apply Hno|simpl; fold b in Hor; lia|done].
Qed.

Lemma heeds_process_data p : regular (Data p) → heeds (process_data p).
Proof.
  intros Hp. pose proof Hp as [[Hv _] _]. unfold process_data.
  eapply heeds_bind; [apply type_now|apply heeds_calm; calmly|]. intros t _.
  eapply heeds_bind; [types|apply heeds_calm; calmly|]. intros _ _. cbv zeta.
  eapply heeds_bind; [unfold record_arrival; types|apply heeds_calm; calmly|]. intros _ _.
  intros w Hw Hr. unfold gets_state, diff. run.
  destruct (seq_sub_sign (seq_of p) (sent_ack (sock w))) as (d & -> & _ & Hd);
    [done|apply (ts_sent_ack _ (ty_state _ Hw))|]. run.
  destruct (Z.ltb_spec d 0) as [|Hpos]; [by apply wakes_calm|]. run.
  destruct (RcvBuffer.get_available_buf_size _) as [n|e|]; run; [|by apply wakes_calm..].
  destruct (n <? _); [by apply wakes_calm|]. unfold modify_rcv_buffer. rewrite bind_run. cbn [modify].
  eapply wakes_then_calm; [apply (wakes_insert w (ticks w) p); [done|lia|done]|calm_rest].
Qed.

(** *** Acknowledgements *)

Lemma loss_remove_all_runs n1 n2 m : valid n1 → valid n2 → ∃ m', loss_remove_all n1 n2 m = Ok m'.
Proof.
  intros [Hlo Hhi] [Hlo' Hhi']. unfold loss_remove_all, run_loss, LOSS_FUEL. cbn [LossList.remove_all].
  destruct (n1 <=? n2); [by eexists|].
  rewrite (proj2 (Z.leb_le n1 SEQ_MAX)), (proj2 (Z.leb_le 0 n2)) by done. by eexists.
Qed.

Lemma heeds_ack_received seq available : valid seq → u32_range available → heeds (ack_received seq available).
Proof.
  intros Hseq Ha. unfold ack_received.
  eapply heeds_bind; [types|apply heeds_calm; calmly|]. intros curr _.
  eapply heeds_bind; [types|apply heeds_calm; calmly|]. intros ahead _.
  eapply heeds_bind; [types|apply heeds_calm; calmly|]. intros _ _.
  eapply heeds_bind; [types|apply heeds_calm; calmly|]. intros last _.
  eapply heeds_bind; [types|apply heeds_calm; calmly|]. intros newer _.
  eapply heeds_bind; [types|apply heeds_calm; calmly|]. intros _ _.
  intros w Hw Hr. unfold gets_state, diff. run.
  destruct (_ ⊖ _) as [offset|e|]; run; [|by apply wakes_calm..].
  destruct (offset <=? 0); [by apply wakes_calm|]. run.
  destruct (SndBuffer.ack_data _ _) as [b|e|]; run; [|by apply wakes_calm..].
  unfold update_state, modify_state, update_snd_queue. run. rewrite sub_i32_small by lia. run.
  cbn [UdtSocket.state UdtSocket.set_snd_buffer].
  destruct (loss_remove_all_runs (first_kept (sock w)) (seq ⊕ - (1)) (snd_losses (sock w))) as [losses ->];
    [apply (ts_ack_processed _ (ty_state _ Hw))|apply seq_add_valid|]. run. cbn [UdtSocket.multiplexer UdtSocket.set_state].
  destruct (UdtSocket.multiplexer _); run.
  - heeded [SndQueueUpdate (UdtSocket.socket_id (sock w)) false; NotifyWaiters AckNotify]; [done|].
    intros []; [by left|by left|right; right; left].
  - heeded [NotifyWaiters AckNotify]; [done|]. intros []; [by left|by left|right; left].
Qed.

Lemma heeds_on_ack c a : regular (Control c) → UdtControlPacket.packet_type c = Ack a → heeds (on_ack c a).
Proof.
  intros [[Hwf _] Hv] Hc. simpl in Hwf, Hv. rewrite Hc in Hwf, Hv. destruct Hwf as [_ Hinfo], Hv as [Hn Hseq].
  unfold on_ack. destruct (AckInfo.info a) as [extra|]; [|apply heeds_calm; calmly].
  rewrite !Forall_cons in Hinfo. destruct Hinfo as (_ & _ & Ha & _).
  eapply heeds_bind; [apply type_lift|apply heeds_calm; calmly|]. intros seq Hs.
  unfold UdtControlPacket.ack_seq_number in Hs. rewrite Hc in Hs. injection Hs as <-.
  eapply heeds_bind; [by apply type_send_ack2|apply heeds_calm; calmly|]. intros _ _.
  eapply heeds_bind; [by apply type_ack_received|by apply heeds_ack_received|]. intros fresh _.
  apply heeds_calm. calmly.
Qed.

(** *** Opening and closing *)

Lemma wakes_on_handshake hs w : reader_ok (sock w) →
  (UdtSocket.status (sock w) = Connecting → to_read (sock w) = acked_to (sock w)) → wakes w (on_handshake hs w).2.
Proof.
  intros Hr Hnew. pose proof Hr as (Hwf & Hle & _). unfold on_handshake. run.
  destruct (bool_decide_reflect (UdtSocket.status (sock w) = Connecting)) as [Hs|]; run; [|by apply wakes_calm].
  destruct (_ >? 0); run.
  - apply wakes_calm; [done|]. unfold send_packet, send_to. run.
    match goal with |- calm w (?m w).2 => assert (all_runs calm m) as Hrest by calmly; apply Hrest end.
  - unfold modify_state, set_status. run. heeded [NotifyWaiters ConnectNotify].
    + split_and!; [done|done|]. right. by apply Hnew.
    + intros []; simpl; [right; by left| |by left]. rewrite Hs. intros [|[_ Hno]]; [done|]. by left; right.
Qed.

(** [notify_all] after the end of a connection: only the acknowledgements are still awaited. *)
Lemma wakes_closing w : reader_ok (sock w) → wakes w ((set_status Closing ;; notify_all) w).2.
Proof.
  intros Hr. unfold set_status, notify_all. run. rewrite <- !app_assoc.
  heeded [NotifyWaiters AcceptNotify; NotifyWaiters RcvNotify; NotifyWaiters ConnectNotify]; [done|].
  intros [] Hk; [right|right|by left]; unfold announced; set_solver.
Qed.

Lemma wakes_process_packet p w : regular p → typed (sock w) → reader_ok (sock w) →
  (UdtSocket.status (sock w) = Connecting → to_read (sock w) = acked_to (sock w)) →
  wakes w (process_packet p w).2.
Proof.
  intros Hp Hw Hr Hnew. destruct p as [c|d]; [|by apply heeds_process_data].
  unfold process_packet, process_ctrl, modify_state. run.
  set (s := UdtSocket.set_state _ _). set (w1 := World s _ _).
  assert (calm w w1) as Hc by (apply calm_world; unfold s; calm_fields).
  pose proof (wakes_calm w w1 Hr Hc) as Hw1.
  assert (typed (sock w1)) as Ht1 by (unfold w1, s; destruct Hw as [? ? ? [] ? ? ?]; by split).
  eapply wakes_trans; [exact Hw1|]. destruct Hw1 as [Hr1 _].
  pose proof Hp as [_ Hv]. simpl in Hv.
  destruct (UdtControlPacket.packet_type c) as [hs| |a|n| | |d|] eqn:E.
  - by apply wakes_on_handshake.
  - by apply wakes_calm.
  - by apply (heeds_on_ack c a).
  - apply wakes_calm; [done|calm_rest].
  - by apply wakes_closing.
  - apply wakes_calm; [done|calm_rest].
  - apply wakes_calm; [done|calm_rest].
  - by apply wakes_calm.
Qed.

Lemma heeds_close_finish : heeds close_finish.
Proof.
  unfold close_finish. eapply heeds_bind; [apply type_get|apply heeds_calm; calmly|]. intros s Hs.
  eapply heeds_bind; [types|apply heeds_calm; calmly|]. intros _ _.
  eapply heeds_bind; [apply type_get|apply heeds_calm; calmly|]. intros s' Hs'.
  eapply (heeds_bind _ _ (λ _, True)); [|apply heeds_calm; calmly|].
  - apply type_when. intros _. eapply type_bind; [apply type_lift|]. intros id Hid%peer_u32; [|done].
    by apply type_ignore_error, type_send_packet, regular_control.
  - intros _ _ w _ Hr. by apply wakes_closing.
Qed.

Lemma wakes_connect_request addr w : UdtSocket.status (sock w) = Opened → reader_ok (sock w) →
  wakes w (connect_request addr w).2.
Proof.
  intros Hs Hr. unfold connect_request, set_status. rewrite bind_run. cbn [modify].
  eapply (wakes_then_calm _ (World (UdtSocket.set_status Connecting (sock w)) (ticks w) (trace w))).
  - heeded (@nil event); [exact Hr|]. intros k Hk. left.
    destruct k; simpl in *; [by left| |done]. rewrite Hs in Hk. destruct Hk as [|[_ Hno]]; [done|]. by right.
  - match goal with |- calm ?w1 (?m ?w1).2 => assert (all_runs calm m) as Hrest; [|apply Hrest] end.
    apply evolves_bind; [apply _| |intros _; calmly]. apply evolves_update; [apply _|].
    intros s s' (size & _ & E)%bind_is_Ok. apply (inj Ok) in E as <-. calm_fields.
Qed.

(** *** Reading *)

Lemma heeds_read_rcv_buffer buf : heeds (read_rcv_buffer buf).
Proof.
  intros w _ (Hwf & Hle & Hor). unfold read_rcv_buffer. run.
  destruct (read_buffer_value buf (UdtSocket.rcv_buffer (sock w)) Hwf) as (taken & rest & Hsplit & -> & _). run.
  set (b := UdtSocket.rcv_buffer (sock w)) in *.
  assert (RcvBuffer.next_to_read b <= RcvBuffer.next_to_read (consumed taken b) <= RcvBuffer.next_to_ack b) as Hnext.
  { unfold consumed. cbn. destruct (last taken) as [[k p]|] eqn:El; [|lia].
    assert ((k, p) ∈ readable b) as Hin by (rewrite Hsplit; apply elem_of_app; left; by apply last_Some_elem_of).
    unfold readable in Hin. rewrite (proj2 (Z.leb_le _ _)) in Hin by done. apply elem_of_range in Hin as [_ Hk].
    simpl in *. pose proof (rcv_ack_valid b Hwf) as [_ ?]. pose proof (rcv_read_valid b Hwf) as [? _].
    rewrite seq_add_small by lia. lia. }
  heeded (@nil event).
  - split_and!; [by eapply consumed_wf|apply Hnext|]. destruct Hor as [|E]; [by left|right].
    change (RcvBuffer.next_to_read (consumed taken b) = RcvBuffer.next_to_ack b). fold b in E. lia.
  - intros [] Hk; left; [done| |done]. destruct Hk as [?|[Hal Hno]]; [by left|right]. split; [done|].
    change (readable (consumed taken b) = []). fold b in Hno. rewrite readable_nil in Hno by done.
    apply readable_nil; [apply Hnext|]. intros q [Hq _]%elem_of_foldl_remove Hr.
    apply (Hno q Hq). change (RcvBuffer.next_to_ack (consumed taken b)) with (RcvBuffer.next_to_ack b) in Hr. lia.
Qed.

Lemma heeds_recv_finish buf : heeds (recv_finish buf).
Proof.
  unfold recv_finish. eapply heeds_bind; [apply type_check_readable|apply heeds_calm; calmly|].
  intros _ _. apply heeds_read_rcv_buffer.
Qed.

Lemma heeds_poll_recv buf : heeds (poll_recv buf).
Proof.
  unfold poll_recv. eapply heeds_bind; [apply type_check_stream|apply heeds_calm; calmly|]. intros _ _.
  eapply heeds_bind; [apply type_check_readable|apply heeds_calm; calmly|]. intros _ _.
  eapply heeds_bind; [apply type_gets|apply heeds_calm; calmly|]. intros b _.
  eapply heeds_bind; [apply type_lift|apply heeds_calm; calmly|]. intros has_data _.
  destruct (negb has_data); [apply heeds_calm; calmly|]. destruct (_ =? 0)%nat; [apply heeds_calm; calmly|].
  eapply heeds_bind; [apply type_read_rcv_buffer|apply heeds_read_rcv_buffer|]. intros r _. apply heeds_calm. calmly.
Qed.

(** ** Runs *)

Lemma calm_send_data_packets packets : all_runs calm (send_data_packets packets).
Proof.
  unfold send_data_packets. calmly.
  induction packets as [|p packets IH]; simpl; [calmly|]. by apply evolves_bind; [apply _|calmly|intros _].
Qed.

(** Every method that the tasks run. *)
Lemma wakes_method w A (m : SM A) : Waits.method (sock w) A m → typed (sock w) → reader_ok (sock w) →
  typed (sock (m w).2) ∧ wakes w (m w).2.
Proof.
  intros Hm Hw Hr. destruct Hm as [data| |packets Hp|buf|buf|Hal|p Hal Hp Hnew|addr Hs Hip| |Hs].
  - split; [by apply type_send|]. apply wakes_calm; [done|apply calm_send].
  - split; [by apply type_next_data_packets|]. apply wakes_calm; [done|apply calm_next_data_packets].
  - split; [by apply type_send_data_packets|]. apply wakes_calm; [done|apply calm_send_data_packets].
  - split; [by apply type_poll_recv|by apply heeds_poll_recv].
  - split; [by apply type_recv_finish|by apply heeds_recv_finish].
  - split; [by apply type_check_timers|by apply heeds_check_timers].
  - split; [by apply type_process_packet|by apply wakes_process_packet].
  - split; [by apply type_connect_request|by apply wakes_connect_request].
  - split; [by apply type_close_finish|by apply heeds_close_finish].
  - split; [by apply type_set_status|]. heeded (@nil event); [done|].
    intros []; simpl; [rewrite Hs; by intros []|rewrite Hs; by intros [|[]]|by left].
Qed.
End methods.

(** ** Nobody is forgotten *)

Section runs.
Context `{Profile} `{Env} `{FloatLib}.

Record waits_inv (st : Waits.t) : Prop := {
  wi_typed : typed (sock (Waits.world st));
  wi_reader : reader_ok (sock (Waits.world st));
  wi_sleepers k g : (k, g) ∈ Waits.sleepers st →
    (g ≤ Waits.generation (Waits.notifier k) (trace (Waits.world st)))%nat
    ∧ (g = Waits.generation (Waits.notifier k) (trace (Waits.world st)) → asleep k (sock (Waits.world st)))
}.

Lemma must_same k w : (Waits.must k w).2 = w.
Proof.
  destruct k; unfold Waits.must, must_wait_for_connection, must_wait, must_wait_for_ack; run; try done.
  destruct (negb _); run; [done|]. by destruct (RcvBuffer.has_data_to_read _).
Qed.

Lemma must_asleep k w : reader_ok (sock w) → (Waits.must k w).1 = Ok true → asleep k (sock w).
Proof.
  intros (Hwf & _). destruct k; unfold Waits.must, must_wait_for_connection, must_wait, must_wait_for_ack; run.
  - intros [= E%bool_decide_eq_true_1]. by left.
  - destruct (UdtStatus.is_alive _) eqn:Hal; run; [|done]. rewrite has_data_value by done. run.
    intros [= E]. right. split; [done|]. by destruct (readable _).
  - intros [= E]. simpl. by apply negb_true_iff.
Qed.

Lemma asleep_must k w : reader_ok (sock w) → asleep k (sock w) →
  (Waits.must k w).1 = Ok true ∨ UdtSocket.status (sock w) = Broken ∧ k ≠ Waits.ForAck.
Proof.
  intros (Hwf & _). destruct k; unfold Waits.must, must_wait_for_connection, must_wait, must_wait_for_ack; run; simpl.
  - intros [E|E]; [left|by right]. by rewrite bool_decide_eq_true_2.
  - intros [E|[Hal E]]; [by right|left]. rewrite Hal. run. rewrite has_data_value by done. run. by rewrite E.
  - intros ->. by left.
Qed.

Lemma waits_step_inv st st' : Waits.step st st' → waits_inv st → waits_inv st'.
Proof.
  intros Hstep [Hty Hr Hsl]. destruct Hstep as [st A m Hm|st k g w Hst|st l1 s l2 El Hready].
  - destruct (wakes_method _ _ _ Hm Hty Hr) as [Hty' (Hr' & evs & Et & Hk)]. split; [done..|].
    simpl. intros k g Hin. destruct (Hsl k g Hin) as [Hle Has]. rewrite Et, generation_app. split; [lia|].
    intros E. destruct (Hk k (Has ltac:(lia))) as [?|Hann]; [done|].
    apply generation_pos in Hann. lia.
  - unfold Waits.start in Hst. pose proof (must_same k (Waits.world st)) as Hsame.
    destruct (Waits.must k (Waits.world st)) as [[[]|e|] w1] eqn:E; try done. simpl in Hsame. subst w1.
    injection Hst as <- <-. split; [done..|]. simpl. intros k' g' [Hin|Hin%list_elem_of_singleton]%elem_of_app;
      [by apply Hsl|]. injection Hin as -> ->. split; [done|]. intros _. apply must_asleep; [done|]. by rewrite E.
  - split; [done..|]. simpl. intros k g Hin. apply Hsl. rewrite El. rewrite elem_of_app, elem_of_cons.
    apply elem_of_app in Hin. tauto.
Qed.

(** The cleanup task closes a broken socket, which wakes those who wait for data. *)
Lemma close_wakes k g w : UdtSocket.status (sock w) = Broken → k ≠ Waits.ForAck →
  (g ≤ Waits.generation (Waits.notifier k) (trace w))%nat → Waits.ready (k, g) (close [] w).2.
Proof.
  intros Hs Hk Hg. unfold close. run. rewrite Hs. rewrite !bool_decide_eq_false_2 by done. cbn [orb].
  cbn [linger]. unfold lingers. run. rewrite Hs, (bool_decide_eq_false_2 (Broken = Connected)) by done.
  cbn [negb orb]. run. unfold close_finish. run.
  destruct (UdtSocket.multiplexer (sock w)); run; rewrite Hs, bool_decide_eq_false_2 by done; run;
    unfold set_status, notify_all; run; unfold Waits.ready; cbn [trace fst snd]; rewrite <- !app_assoc, generation_app;
    match goal with |- context [Waits.generation _ ?evs] =>
      assert (NotifyWaiters (Waits.notifier k) ∈ evs) as Hann%generation_pos by (destruct k; simpl; set_solver) end; lia.
Qed.

(** C7. No wait is forgotten.  In any interleaving of the tasks around a socket, a task that
    sleeps has been notified, or what it waits for has not happened, or the connection is
    broken; and then the cleanup task, which closes broken sockets, wakes it unless it
    waits for an acknowledgement. *)
Theorem sleepers_are_woken st0 st k g :
  typed (sock (Waits.world st0)) → reader_ok (sock (Waits.world st0)) → Waits.sleepers st0 = [] →
  rtc Waits.step st0 st → (k, g) ∈ Waits.sleepers st →
  Waits.ready (k, g) (Waits.world st)
  ∨ (Waits.must k (Waits.world st)).1 = Ok true
  ∨ UdtSocket.status (sock (Waits.world st)) = Broken ∧ k ≠ Waits.ForAck
    ∧ Waits.ready (k, g) (close [] (Waits.world st)).2.
Proof.
  intros Hty Hr Hno Hrun Hin. assert (waits_inv st) as [Hty' Hr' Hsl].
  { assert (waits_inv st0) as Hinv by (split; [done|done|]; rewrite Hno; by intros ? ? ?%not_elem_of_nil).
    clear Hno Hty Hr Hin. induction Hrun as [|? ? ? Hstep _ IH]; [done|]. eapply IH, waits_step_inv; done. }
  destruct (Hsl k g Hin) as [Hle Has]. unfold Waits.ready at 1. simpl.
  destruct (decide (g = Waits.generation (Waits.notifier k) (trace (Waits.world st)))) as [E|E]; [right|left; lia].
  destruct (asleep_must k _ Hr' (Has E)) as [?|[Hb Hk]]; [by left|right].
  split; [done|]. split; [done|]. by apply close_wakes.
Qed.

(** *** Waiting for an acknowledgement *)

Definition dead (s : UdtSocket.t) : Prop := UdtStatus.is_alive (UdtSocket.status s) = false.
Definition stays_dead (s s' : UdtSocket.t) : Prop := dead s → dead s'.

#[local] Instance stays_dead_preorder : PreOrder stays_dead.
Proof. split; [by intros s Hs|]. intros s1 s2 s3 H12 H23 Hs. by apply H23, H12. Qed.

Notation mute := (evolves stays_dead calm_event).

Lemma calm_mute {A} (m : SM A) : all_runs calm m → all_runs mute m.
Proof.
  intros Hm w. destruct (Hm w) as [(_ & _ & _ & _ & _ & Hs & _) He]. split; [|done]. unfold stays_dead, dead.
  by destruct Hs as [-> | ->].
Qed.

Ltac mutely := evolve ltac:(idtac; intros ?; by unfold stays_dead)
  ltac:(idtac; first [done | apply calm_mute; eauto with calm]).

Lemma mute_read_rcv_buffer buf : all_runs mute (read_rcv_buffer buf).
Proof. unfold read_rcv_buffer. mutely. Qed.
Lemma mute_recv_finish buf : all_runs mute (recv_finish buf).
Proof.
  apply evolves_bind; [apply _|apply calm_mute, calm_check_readable|intros _]. apply mute_read_rcv_buffer.
Qed.
Lemma mute_poll_recv buf : all_runs mute (poll_recv buf).
Proof.
  unfold poll_recv. apply evolves_bind; [apply _|apply calm_mute, calm_check_stream|intros _].
  apply evolves_bind; [apply _|apply calm_mute, calm_check_readable|intros _].
  apply evolves_bind; [apply _|mutely|intros b]. apply evolves_bind; [apply _|mutely|intros has_data].
  destruct (negb has_data); [mutely|]. destruct (_ =? 0)%nat; [mutely|].
  apply evolves_bind; [apply _|apply mute_read_rcv_buffer|intros r]. mutely.
Qed.
Lemma mute_close_finish : all_runs mute close_finish.
Proof. unfold close_finish, set_status, notify_all. mutely. Qed.

(** A method that the tasks run when the connection has ended. *)
Lemma mute_method w A (m : SM A) : Waits.method (sock w) A m → dead (sock w) → mute w (m w).2.
Proof.
  unfold dead. intros Hm Hd. destruct Hm as [data| |packets Hp|buf|buf|Hal|p Hal Hp Hnew|addr Hs Hip| |Hs].
  - apply calm_mute, calm_send.
  - apply calm_mute, calm_next_data_packets.
  - apply calm_mute, calm_send_data_packets.
  - apply mute_poll_recv.
  - apply mute_recv_finish.
  - congruence.
  - congruence.
  - by rewrite Hs in Hd.
  - apply mute_close_finish.
  - by apply evolves_modify.
Qed.

Lemma calm_generation evs : Forall calm_event evs → Waits.generation AckNotify evs = 0%nat.
Proof.
  intros He. unfold Waits.generation. induction He as [|e evs Hne _ IH]; [done|].
  rewrite filter_cons_False; [done|]. unfold calm_event in Hne. destruct e; simpl; try done.
  intros ->%bool_decide_eq_true_1. done.
Qed.

(** C8. Those who wait for an acknowledgement are forgotten.  Once the connection has ended,
    broken, closing or closed, no task ever wakes one that waits for an acknowledgement or
    an empty send buffer: a pending [poll_flush] or [poll_write] never returns, nor does a
    [close] that lingers, whatever its timeout. *)
Theorem ack_waiters_hang st0 st g :
  dead (sock (Waits.world st0)) → (Waits.ForAck, g) ∈ Waits.sleepers st0 →
  ¬ Waits.ready (Waits.ForAck, g) (Waits.world st0) → rtc Waits.step st0 st →
  (Waits.ForAck, g) ∈ Waits.sleepers st ∧ ¬ Waits.ready (Waits.ForAck, g) (Waits.world st).
Proof.
  intros Hd Hin Hready Hrun. induction Hrun as [|st1 st2 st3 Hstep _ IH]; [done|].
  destruct Hstep as [st A m Hm|st k g' w Hst|st l1 s l2 El Hs]; simpl in *.
  - destruct (mute_method _ _ _ Hm Hd) as [Hd' (evs & Et & He)]. apply IH; [by apply Hd'|done|].
    unfold Waits.ready in *. cbn [fst snd Waits.notifier] in *. rewrite Et, generation_app, (calm_generation evs) by done.
    lia.
  - pose proof (must_same k (Waits.world st)) as Hsame. unfold Waits.start in Hst.
    destruct (Waits.must k (Waits.world st)) as [[[]|e|] w1]; try done. simpl in Hsame. subst w1.
    injection Hst as _ <-. apply IH; [done| |done]. apply elem_of_app. by left.
  - apply IH; [done| |done]. rewrite El in Hin. rewrite elem_of_app, elem_of_cons in Hin.
    rewrite elem_of_app. destruct Hin as [?|[<-|?]]; auto. done.
Qed.
End runs.


(** ** Witnesses *)

(** A reader waits; a packet arrives and is acknowledged, which wakes it. *)
Definition sample_data : UdtPacket :=
  Data (UdtDataPacket.mk (UdtDataPacketHeader.mk 100 Only false 0 0 1) [1; 2; 3]).
Definition sample_idle : Waits.t := Waits.mk sample_world [].
Definition sample_reader : Waits.t := Waits.mk sample_world [(Waits.ForData, 0%nat)].
Definition sample_arrived : Waits.t :=
  Waits.mk (@process_packet true sample_env sample_float sample_data sample_world).2 [(Waits.ForData, 0%nat)].
Definition sample_woken : Waits.t :=
  Waits.mk (@check_timers true sample_env (Waits.world sample_arrived)).2 [(Waits.ForData, 0%nat)].

Lemma sample_reader_ok : reader_ok sample_socket.
Proof.
  split; [|split; [by vm_compute|by right]]. split; [constructor|by intros ? ? ?%not_elem_of_nil|by split..].
Qed.

Lemma sample_waits : rtc (@Waits.step true sample_env sample_float) sample_idle sample_woken.
Proof.
  apply (rtc_l _ _ sample_reader).
  { by apply (@Waits.step_start true sample_env sample_float sample_idle Waits.ForData 0%nat sample_world). }
  apply (rtc_l _ _ sample_arrived).
  { apply (@Waits.step_method true sample_env sample_float sample_reader). apply Waits.m_process_packet; [done| |done].
    split; [|done]. split_and!; try done. }
  apply (rtc_l _ _ sample_woken); [|done].
  apply (@Waits.step_method true sample_env sample_float sample_arrived). apply Waits.m_check_timers. by vm_compute.
Qed.

Lemma sleepers_are_woken_witness :
  (Waits.ready (Waits.ForData, 0%nat) (Waits.world sample_woken)
   ∨ (Waits.must Waits.ForData (Waits.world sample_woken)).1 = Ok true
   ∨ UdtSocket.status (sock (Waits.world sample_woken)) = Broken ∧ Waits.ForData ≠ Waits.ForAck
     ∧ Waits.ready (Waits.ForData, 0%nat) (@close true sample_env [] (Waits.world sample_woken)).2)
  ∧ Waits.generation RcvNotify (trace (Waits.world sample_woken)) = 1%nat.
Proof.
  split; [|by vm_compute].
  apply (@sleepers_are_woken true sample_env sample_float sample_idle sample_woken);
    [exact (te_socket _ sample_typed)|exact sample_reader_ok|done|exact sample_waits|left].
Defined.

(** A writer waits on a broken connection. *)
Definition sample_broken : Waits.t :=
  Waits.mk (World (UdtSocket.set_status Broken sample_socket) 10 []) [(Waits.ForAck, 0%nat)].

Lemma ack_waiters_hang_witness :
  let st := Waits.mk (@close_finish true sample_env (Waits.world sample_broken)).2 [(Waits.ForAck, 0%nat)] in
  ¬ Waits.ready (Waits.ForAck, 0%nat) (Waits.world st).
Proof.
  intros st. apply (@ack_waiters_hang true sample_env sample_float sample_broken st 0); [done|left|by vm_compute; lia|].
  apply rtc_once, (@Waits.step_method true sample_env sample_float sample_broken), Waits.m_close.
Defined.
