(* ===== verification/locks.v ===== *)
(** * The locks ([src/socket.rs], [src/queue/], [src/udt.rs], [src/listener.rs])

    The other files run a method of a socket without interruption; here its body is only
    the locks it takes, block by block, and the methods of different tasks interleave
    between any two of them.  A guard lives as long as the block, the statement or the
    condition that Rust ends it with; [drop] and an early return end it as well.  What a
    method asks of the operating system ends by itself, also when the method holds a lock
    (a handshake is answered with the registry and the listener locked).  A panic is not
    modelled: the guards are released, and the locks that it poisons make their next users
    panic instead of wait. *)

From stdpp Require Import list relations.
From S2P Require Import prelude.

Module Locks.
(** The fields of a [UdtSocket] behind a lock, and the locks of a multiplexer with its two
    queues.  There is one registry, and every multiplexer has its own receiving worker. *)
Inductive field :=
  | Status | State | Flow | RateControl | Configuration | SndBuffer | RcvBuffer
  | PeerAddr | PeerSocketId | Multiplexer | QueuedSockets.
Inductive shared := Listener | SndHeap | SndRefs | RcvTimers | RcvRefs | RcvMultiplexer.

Inductive lock := Of (socket : nat) (f : field) | At (m : nat) (g : shared) | Registry.
#[global] Instance field_eq_dec : EqDecision field.
Proof. solve_decision. Defined.
#[global] Instance shared_eq_dec : EqDecision shared.
Proof. solve_decision. Defined.
#[global] Instance lock_eq_dec : EqDecision lock.
Proof. solve_decision. Defined.

(** [read] of an [RwLock]; [write], or [lock] of a [Mutex]. *)
Inductive mode := Read | Write.

(** [Sleep] is a wait for a notification, a channel or a timer; [Io] is a wait for the
    operating system only, which needs no other task: a datagram to be sent, a UDP socket
    to be bound. *)
Inductive action := Acquire (l : lock) (m : mode) | Release (l : lock) | Sleep | Io.

(** ** The locks that a method takes *)

Inductive code :=
  | Skip
  | Return
  | Wait
  | System
  | Seq (c d : code)
  | Alt (c d : code)
  | Guard (l : lock) (m : mode) (c : code)
  | Call (c : code)
  | Loop (c : code).

(** The sequences of actions of a body; [true] for those that end in a [return]. *)
Inductive runs : code → list action → bool → Prop :=
  | RunSkip : runs Skip [] false
  | RunReturn : runs Return [] true
  | RunWait : runs Wait [Sleep] false
  | RunSystem : runs System [Io] false
  | RunSeq c d t u r : runs c t false → runs d u r → runs (Seq c d) (t ++ u) r
  | RunSeqReturn c d t : runs c t true → runs (Seq c d) t true
  | RunLeft c d t r : runs c t r → runs (Alt c d) t r
  | RunRight c d t r : runs d t r → runs (Alt c d) t r
  | RunGuard l m c t r : runs c t r → runs (Guard l m c) (Acquire l m :: t ++ [Release l]) r
  | RunCall c t r : runs c t r → runs (Call c) t false
  | RunLoopEnd c : runs (Loop c) [] false
  | RunLoop c t u r : runs c t false → runs (Loop c) u r → runs (Loop c) (t ++ u) r
  | RunLoopReturn c t : runs c t true → runs (Loop c) t true.

Declare Scope lock_scope.
Delimit Scope lock_scope with lock.
Notation "c ▷ d" := (Seq c d) (at level 60, right associativity) : lock_scope.
Notation "c ∥ d" := (Alt c d) (at level 62, right associativity) : lock_scope.
#[local] Open Scope lock_scope.

Definition maybe (c : code) : code := c ∥ Skip.
(** A guard that ends with its statement. *)
Definition temp (l : lock) (m : mode) : code := Guard l m Skip.
(** [m.await?]. *)
Definition try (c : code) : code := Call c ▷ maybe Return.

Section process.
(** The multiplexer of a socket. *)
Context (mux : nat → nat).

(** *** [queue/snd_queue.rs], of the multiplexer [m] *)

Section queues.
Context (m : nat).

Definition snd_insert : code := temp (At m SndHeap) Write.
Definition snd_remove : code := temp (At m SndHeap) Write.
Definition snd_update : code :=
  maybe (Guard (At m SndHeap) Write (maybe Return)) ▷
  temp (At m SndHeap) Write ▷
  (Call snd_insert ∥ (Call snd_remove ▷ Call snd_insert) ∥ Skip).

(** [get_socket] of both queues, with their maps [refs]; the guard of the registry lives as
    long as the [if let]. *)
Definition get_socket (refs : shared) (s : nat) : code :=
  temp (At m refs) Write ▷
  maybe (Guard Registry Read (maybe (temp (Of s Status) Write) ▷ maybe (temp (At m refs) Write))).
End queues.

(** *** [socket.rs] *)

Section methods.
Context (s : nat).

Definition status : code := temp (Of s Status) Write.
Definition state : code := temp (Of s State) Write.
Definition peer_addr : code := temp (Of s PeerAddr) Write.
Definition peer_socket_id : code := temp (Of s PeerSocketId) Write.
Definition multiplexer : code := temp (Of s Multiplexer) Read.
Definition has_data_to_read : code := temp (Of s RcvBuffer) Write.
Definition snd_buffer_is_empty : code := temp (Of s SndBuffer) Write.

Definition update_snd_queue : code := Call multiplexer ▷ maybe (Call (snd_update (mux s))).
Definition send_to : code := Call multiplexer ▷ System.
Definition send_packet : code := Call peer_addr ▷ maybe (try send_to).
Definition send_data_packets : code := Call peer_addr ▷ maybe (Call multiplexer ▷ maybe (System ▷ maybe Return)).
Definition cc_update : code := Guard (Of s State) Write (temp (Of s RateControl) Read).
Definition get_max_payload_size : code := Guard (Of s Configuration) Read (Call peer_addr).

Definition resend : code :=
  Guard (Of s SndBuffer) Write (Call peer_socket_id) ▷
  maybe (maybe Return ▷ Call peer_socket_id ▷ try send_packet ▷ state ▷ Return).

(** The guards of the state and of the send buffer live until the end of the [match]. *)
Definition fetch_new : code :=
  temp (Of s RateControl) Read ▷
  temp (Of s Flow) Read ▷
  Guard (Of s State) Write
    (maybe Return ▷
     Guard (Of s SndBuffer) Write
       (Call peer_socket_id ▷ (temp (Of s RateControl) Write ∥ Return))).

Definition next_data_packets : code :=
  Call status ▷ maybe (maybe (Call status) ▷ Return) ▷
  state ▷
  ((maybe Return ▷ resend) ∥ fetch_new) ▷
  maybe Return ▷ state.

Definition on_handshake : code :=
  Call status ▷ maybe (Call status ▷ Return) ▷
  (try send_packet
   ∥ Guard (Of s Configuration) Write
       (Guard (Of s State) Write
          (temp (Of s PeerSocketId) Write ▷
           Guard (Of s RateControl) Write (temp (Of s Flow) Read) ▷
           temp (Of s Status) Write))).

Definition on_light_ack : code := Guard (Of s State) Write (maybe (temp (Of s Flow) Write)).

Definition send_ack2 : code :=
  state ▷ maybe (Call peer_socket_id ▷ maybe (try send_packet ▷ state)).

(** The guard of [flow] is still held when [cc_update] is called. *)
Definition on_ack : code :=
  send_ack2 ▷
  Guard (Of s State) Write
    (maybe (temp (Of s Status) Write) ▷
     maybe (temp (Of s Flow) Write) ▷
     (Return ∥ (temp (Of s SndBuffer) Write ▷ Call update_snd_queue))) ▷
  Guard (Of s Flow) Write (temp (Of s RateControl) Write ▷ Call cc_update).

Definition on_ack2 : code := state ▷ maybe (temp (Of s Flow) Write ▷ state).

Definition on_nak : code :=
  Guard (Of s RateControl) Write (maybe Return) ▷
  Call cc_update ▷
  Guard (Of s State) Write ((temp (Of s Status) Write ▷ Return) ∥ Call update_snd_queue).

Definition on_shutdown : code := temp (Of s Status) Write.
Definition on_msg_drop : code := temp (Of s RcvBuffer) Write ▷ state.

Definition process_ctrl : code :=
  state ▷
  (on_handshake ∥ Skip ∥ on_light_ack ∥ on_ack ∥ on_ack2 ∥ on_nak ∥ on_shutdown ∥ on_msg_drop).

Definition process_data : code :=
  state ▷
  temp (Of s Flow) Write ▷
  state ▷ maybe Return ▷
  Guard (Of s RcvBuffer) Write (maybe Return) ▷
  state ▷ maybe (Guard (Of s State) Write (Call peer_socket_id) ▷ try send_packet) ▷
  Call get_max_payload_size ▷ maybe state ▷
  state.

Definition process_packet : code := Call process_ctrl ∥ Call process_data.

(** How far to acknowledge: the three cases of [to_ack.cmp(&0)], the state being dropped
    in the second one before the flow is read. *)
Definition deliver : code :=
  Guard (Of s State) Write (temp (Of s RcvBuffer) Write)
  ∥ (state ▷ Guard (Of s Flow) Read (maybe Return))
  ∥ Guard (Of s State) Write Return.

Definition build_ack : code :=
  state ▷
  maybe
    (Guard (Of s Flow) Read (temp (Of s RcvBuffer) Write) ▷
     state ▷ maybe (Guard (Of s Flow) Read state) ▷
     Guard (Of s State) Write (Call peer_socket_id)).

Definition send_ack : code :=
  Guard (Of s State) Write (maybe Return) ▷
  maybe (Call peer_socket_id ▷ try send_packet ▷ Return) ▷
  deliver ▷
  build_ack ▷
  maybe (try send_packet ▷ state).

Definition exp_timer : code :=
  Guard (Of s State) Write (maybe (temp (Of s Status) Write ▷ Call update_snd_queue ▷ Return)) ▷
  Call snd_buffer_is_empty ▷
  ((Call peer_socket_id ▷ maybe (Call send_packet))
   ∥ (state ▷ temp (Of s RateControl) Write ▷ Call cc_update ▷ Call update_snd_queue)) ▷
  state.

Definition check_timers : code :=
  Call cc_update ▷
  temp (Of s RateControl) Read ▷
  state ▷ maybe state ▷
  ((Call send_ack ▷ temp (Of s RateControl) Read ▷ state)
   ∥ (state ▷ maybe (Call send_ack ▷ state))) ▷
  temp (Of s Flow) Read ▷ state ▷
  maybe exp_timer.

Definition send : code :=
  Call status ▷ maybe Return ▷
  Call snd_buffer_is_empty ▷ maybe state ▷
  Guard (Of s SndBuffer) Write (maybe Return) ▷
  Call update_snd_queue.

Definition wait_for_data_to_read : code :=
  Guard (Of s Status) Write (maybe (Call has_data_to_read)) ▷ maybe Wait.
Definition wait_for_connection : code := Guard (Of s Status) Write Skip ▷ maybe Wait ▷ Call status.
Definition wait_for_ack : code := Guard (Of s SndBuffer) Write Skip ▷ maybe Wait.

(** The checks at the start of [recv] and [poll_recv], and of [recv] after its wait. *)
Definition check_readable : code := Call status ▷ maybe (Call has_data_to_read) ▷ maybe Return.

Definition recv : code :=
  check_readable ▷ maybe Return ▷
  Call wait_for_data_to_read ▷
  check_readable ▷ temp (Of s RcvBuffer) Write.

Definition poll_recv : code :=
  check_readable ▷ Call has_data_to_read ▷ maybe Return ▷ temp (Of s RcvBuffer) Write.

Definition close : code :=
  Call status ▷ maybe Return ▷
  temp (Of s Configuration) Read ▷
  Loop (Call status ▷ Call snd_buffer_is_empty ▷ Call wait_for_ack) ▷
  Call status ▷ maybe (Call snd_buffer_is_empty) ▷
  Call multiplexer ▷
  maybe (Call (snd_remove (mux s)) ▷
         temp (At (mux s) Listener) Read ▷ maybe (temp (At (mux s) Listener) Write)) ▷
  Call status ▷ maybe (Call peer_socket_id ▷ Call send_packet) ▷
  temp (Of s Status) Write.

Definition set_peer_addr : code :=
  temp (Of s PeerAddr) Write ▷ Guard (Of s SndBuffer) Write (Call get_max_payload_size).

Definition connect_request : code :=
  Guard (Of s Configuration) Read (Guard (Of s Flow) Read (Call has_data_to_read)) ▷ try send_to.
End methods.

(** *** [udt.rs], [listener.rs]; the accesses to a socket that is being created are left
    out, since it is not shared yet *)

Definition new_socket : code := temp Registry Write.

Definition update_mux (s : nat) : code :=
  temp (Of s Configuration) Read ▷
  Loop (temp (Of s Configuration) Read ▷ maybe (temp (Of s Multiplexer) Write ▷ Return)) ▷
  temp (Of s Configuration) Read ▷ System ▷ maybe Return ▷
  temp (Of s Multiplexer) Write.

(** The listener [l] is asked for a connection; [peers] are the sockets that the index
    gives for the peer and [old] the one that it is connected to already. *)
Definition new_connection (l : nat) (peers : list nat) (old : nat) : code :=
  foldr (λ p c, Call (peer_addr p) ▷ c) Skip peers ▷
  maybe
    (Call (status old) ▷
     (temp (Of l QueuedSockets) Write
      ∥ (Guard (Of old Configuration) Read Skip ▷ try (send_to old) ▷ Return))) ▷
  temp (Of l Multiplexer) Read ▷ maybe Return ▷
  temp (Of l Configuration) Read ▷
  temp (Of l QueuedSockets) Read ▷ maybe Return ▷
  temp (At (mux l) RcvTimers) Write ▷ maybe Return ▷
  temp (Of l QueuedSockets) Write.

Definition listen_on_handshake (l : nat) (peers : list nat) (old : nat) : code :=
  Call (status l) ▷ maybe Return ▷
  maybe (try (send_to l) ▷ Return) ▷
  maybe Return ▷
  temp (Of l Configuration) Read ▷
  maybe (try (send_to l) ▷ Return) ▷
  Guard Registry Write (Call (new_connection l peers old)).

Definition bind (l : nat) : code :=
  new_socket ▷
  temp (Of l Configuration) Read ▷ maybe Return ▷
  Guard Registry Write
    (Call (status l) ▷ maybe Return ▷ Call (status l) ▷ maybe Return ▷
     try (update_mux l) ▷ temp (Of l Status) Write) ▷
  Call (multiplexer l) ▷
  temp (At (mux l) Listener) Write ▷ temp (Of l Status) Write.

Definition accept (l accepted : nat) : code :=
  temp (Of l Configuration) Read ▷ maybe Return ▷
  Loop (Call (status l) ▷ maybe Return ▷ Guard (Of l QueuedSockets) Write Skip ▷ Wait) ▷
  Call (status l) ▷ maybe Return ▷ Guard (Of l QueuedSockets) Write Skip ▷
  Guard Registry Read (Call (status accepted) ▷ maybe Return ▷ Call (peer_addr accepted)).

(** The sockets of the registry, each with its listener. *)
Definition garbage_collect_sockets (sockets : list (nat * nat)) : code :=
  foldr (λ e c, Call (status e.1) ▷ maybe (temp (Of e.2 QueuedSockets) Write) ▷ c) Skip sockets ▷
  foldr (λ e c, Call (status e.1) ▷ c) Skip sockets ▷
  foldr (λ e c, maybe (temp (Of e.1 Status) Write) ▷ c) Skip sockets.

Definition connect (s : nat) : code :=
  Call (status s) ▷ maybe (Call (status s) ▷ Return) ▷
  temp (Of s Status) Write ▷
  Guard Registry Write (try (update_mux s)) ▷
  temp (Of s Status) Write ▷
  Call (set_peer_addr s) ▷
  connect_request s.

(** *** The workers *)

Section rcv_worker.
Context (m : nat).

Definition to_listener (l : nat) (peers : list nat) (old : nat) : code :=
  temp (At m RcvMultiplexer) Write ▷
  maybe (Guard (At m Listener) Read (maybe (try (listen_on_handshake l peers old)))).

Definition serve (s : nat) : code :=
  Call (get_socket m RcvRefs s) ▷
  maybe (Call (peer_addr s) ▷ maybe (Call (status s)) ▷
         maybe (try (process_packet s) ▷ Call (check_timers s) ▷ temp (At m RcvTimers) Write)).

Definition check_due : code := Guard (At m RcvTimers) Write Skip.
Definition check_socket (s : nat) : code :=
  Call (get_socket m RcvRefs s) ▷
  maybe (Call (status s) ▷ maybe (Call (check_timers s) ▷ temp (At m RcvTimers) Write)).
End rcv_worker.

(** A turn of the sending worker of [mux s] on the socket [s]. *)
Definition send_turn (s : nat) : code :=
  Guard (At (mux s) SndHeap) Write Skip ▷
  maybe Wait ▷
  maybe
    (Call (get_socket (mux s) SndRefs s) ▷
     maybe (try (next_data_packets s) ▷ maybe (Call (snd_insert (mux s)) ▷ Wait))).

(** ** The tasks *)

(** What the receiving worker of the multiplexer [m] does, again and again, as long as it
    meets sockets of [m] only; [unordered_callers_deadlock] shows what happens otherwise. *)
Inductive worker_method (m : nat) : code → Prop :=
  | WorkerWaits : worker_method m Wait
  | WorkerListens l peers old : mux l = m → worker_method m (to_listener m l peers old)
  | WorkerServes s : mux s = m → worker_method m (serve m s)
  | WorkerCollects : worker_method m (check_due m)
  | WorkerChecks s : mux s = m → worker_method m (check_socket m s).

(** What the other tasks do: the sending workers and their sending tasks, the cleanup task
    and the [close]s that it spawns, and the application, on sockets past [connect]. *)
Inductive task_method : code → Prop :=
  | SenderTurn s : task_method (send_turn s)
  | SenderSends s : task_method (Wait ▷ send_data_packets s)
  | Collects sockets : task_method (Guard Registry Write (garbage_collect_sockets sockets))
  | Closes s : task_method (close s)
  | Sends s : task_method (send s)
  | Receives s : task_method (recv s)
  | Polls s : task_method (poll_recv s)
  | Flushes s : task_method (snd_buffer_is_empty s)
  | LooksUp s : task_method (status s)
  | WaitsForData s : task_method (wait_for_data_to_read s)
  | WaitsForConnection s : task_method (wait_for_connection s)
  | WaitsForAck s : task_method (wait_for_ack s)
  | Creates : task_method new_socket
  | Binds l : task_method (bind l)
  | Accepts l accepted : task_method (accept l accepted).
End process.

(** A task with the locks it holds and the actions it has left. *)
Record task := Task { held : list (lock * mode); rest : list action }.

Definition compatible (m m' : mode) : bool :=
  match m, m' with Read, Read => true | _, _ => false end.

(** [l] can be given out in mode [m]. *)
Definition available (l : lock) (m : mode) (ts : list task) : Prop :=
  ∀ t m', t ∈ ts → (l, m') ∈ held t → compatible m m' = true.

Definition dropped (l : lock) (locks : list (lock * mode)) : list (lock * mode) :=
  filter (λ e, e.1 ≠ l) locks.

(** A task takes its next action; a sleep ends at any time, and so does what the operating
    system does for a task. *)
Inductive step (ts : list task) : list task → Prop :=
  | Acquires i h l m r : ts !! i = Some (Task h (Acquire l m :: r)) → available l m ts →
      step ts (<[i := Task ((l, m) :: h) r]> ts)
  | Releases i h l r : ts !! i = Some (Task h (Release l :: r)) →
      step ts (<[i := Task (dropped l h) r]> ts)
  | Wakes i h r : ts !! i = Some (Task h (Sleep :: r)) →
      step ts (<[i := Task h r]> ts)
  | Completes i h r : ts !! i = Some (Task h (Io :: r)) →
      step ts (<[i := Task h r]> ts).

Definition program (cs : list code) : code := foldr (λ c d, Call c ▷ d) Skip cs.

(** Each task is about to run its program. *)
Definition started (programs : list (list code)) (ts : list task) : Prop :=
  Forall2 (λ cs t, held t = [] ∧ runs (program cs) (rest t) false) programs ts.

Definition idle (t : task) : Prop := match rest t with [] | Sleep :: _ => True | _ => False end.

(** The task can go on whatever the policy of the locks: nobody holds the lock it wants. *)
Definition free (t : task) (ts : list task) : Prop :=
  match rest t with
  | Acquire l _ :: _ => ∀ t', t' ∈ ts → l ∉ (held t').*1
  | Release _ :: _ | Io :: _ => True
  | _ => False
  end.

#[global] Instance idle_dec t : Decision (idle t).
Proof. unfold idle. destruct (rest t) as [|[]]; apply _. Defined.
#[global] Instance free_dec t ts : Decision (free t ts).
Proof.
  unfold free. destruct (rest t) as [|[l m|l| |] r]; try apply _.
  refine (cast_if (decide (Forall (λ t', l ∉ (held t').*1) ts))); by rewrite <- Forall_forall.
Defined.
End Locks.

(** ** The order of the locks *)

(** The locks that a task other than a receiving worker asks for while it holds [h]. *)
Definition before_field (f g : Locks.field) : bool :=
  match f with
  | Locks.State => bool_decide (g ∈ [Locks.SndBuffer; Locks.PeerSocketId; Locks.RateControl])
  | Locks.SndBuffer => bool_decide (g ∈ [Locks.PeerSocketId; Locks.RateControl])
  | Locks.Status => bool_decide (g = Locks.RcvBuffer)
  | _ => false
  end.

Definition before (h l : Locks.lock) : bool :=
  match h, l with
  | Locks.Of s f, Locks.Of s' g => bool_decide (s = s') && before_field f g
  | Locks.Registry, Locks.Of _ g =>
      bool_decide (g ∈ [Locks.Status; Locks.RcvBuffer; Locks.Configuration; Locks.Multiplexer;
                        Locks.PeerAddr; Locks.QueuedSockets])
  | Locks.Registry, Locks.At _ g => bool_decide (g = Locks.SndRefs)
  | _, _ => false
  end.

Definition task_order (h l : Locks.lock) : Prop := before h l = true.

Section worker.
Context (mux : nat → nat) (m : nat).

(** The locks of the multiplexer [m] and of its sockets. *)
Definition own (l : Locks.lock) : Prop :=
  match l with Locks.Of s _ => mux s = m | Locks.At m' _ => m' = m | Locks.Registry => False end.

(** A receiving worker takes some locks in both orders, so it follows no order; but no
    chain of the other tasks leads back from what it asks for to what it holds, and it asks
    for what is not its own only as long as it holds nothing but its listener or the
    registry. *)
Definition worker_order (h l : Locks.lock) : Prop :=
  h ≠ l ∧ before l h = false ∧ (own h ∨ h = Locks.Registry)
  ∧ (own l ∨ (h = Locks.Registry ∨ h = Locks.At m Locks.Listener)
             ∧ (l = Locks.Registry ∨ ∃ s f, l = Locks.Of s f)).
End worker.

Lemma before_trans a b c : before a b = true → before b c = true → before a c = true.
Proof.
  destruct a as [s f|m f|], b as [s' g|m' g|], c as [s'' k|m'' k|]; simpl; try done;
    rewrite ?andb_true_iff, ?bool_decide_eq_true.
  - intros [-> Hf] [-> Hg]. split; [done|]. by destruct f, g, k.
  - intros Hg [-> Hk]. destruct g, k; set_solver.
Qed.

(** A chain of requests goes up. *)
Definition rank (l : Locks.lock) : nat :=
  match l with
  | Locks.Registry => 0%nat
  | Locks.Of _ Locks.State | Locks.Of _ Locks.Status => 1%nat
  | Locks.Of _ Locks.SndBuffer => 2%nat
  | _ => 3%nat
  end.

Lemma before_rank a b : before a b = true → (rank a < rank b ≤ 3)%nat.
Proof.
  destruct a as [s f|m f|], b as [s' g|m' g|]; simpl; try done; rewrite ?andb_true_iff; try lia.
  - intros [_ Hg]. destruct f, g; simpl in *; done || lia.
  - intros Hg%bool_decide_eq_true. destruct g; simpl; lia || set_solver.
Qed.

Lemma before_irrefl a : before a a ≠ true.
Proof. intros ?%before_rank. lia. Qed.

(** Every lock is taken in an order [ok], and no task sleeps with a lock; it may wait for
    the operating system with one. *)
Fixpoint ordered (ok : Locks.lock → Locks.lock → Prop) (h : list Locks.lock) (c : Locks.code) : Prop :=
  match c with
  | Locks.Skip | Locks.Return | Locks.System => True
  | Locks.Wait => h = []
  | Locks.Seq c d | Locks.Alt c d => ordered ok h c ∧ ordered ok h d
  | Locks.Guard l _ c => Forall (λ x, ok x l) h ∧ ordered ok (l :: h) c
  | Locks.Call c | Locks.Loop c => ordered ok h c
  end.

Fixpoint safe (ok : Locks.lock → Locks.lock → Prop) (h : list Locks.lock) (t : list Locks.action) : Prop :=
  match t with
  | [] => h = []
  | Locks.Acquire l _ :: t => Forall (λ x, ok x l) h ∧ safe ok (l :: h) t
  | Locks.Release l :: t => safe ok (filter (λ x, x ≠ l) h) t
  | Locks.Sleep :: t => h = [] ∧ safe ok h t
  | Locks.Io :: t => safe ok h t
  end.

Section order.
Context (ok : Locks.lock → Locks.lock → Prop) (Hirrefl : ∀ l, ¬ ok l l).

Lemma ordered_safe c t r : Locks.runs c t r →
  ∀ h u, ordered ok h c → safe ok h u → safe ok h (t ++ u).
Proof.
  induction 1; simpl; intros h v Hc Hv; try rewrite <- app_assoc; try solve [intuition auto].
  destruct Hc as [Hl Hc]. split; [done|]. rewrite <- ?app_assoc. apply IHruns; [done|]. simpl.
  rewrite filter_cons_False by auto. rewrite filter_all; [done|].
  intros x Hx ->. rewrite Forall_forall in Hl. by apply (Hirrefl l), Hl.
Qed.
End order.

(** Checks the locks of a body, block by block. *)
Ltac order := cbn -[worker_order task_order]; repeat match goal with
  | |- _ ∧ _ => split
  | |- Forall _ [] => apply Forall_nil_2
  | |- Forall _ (_ :: _) => apply Forall_cons_2
  | |- worker_order _ _ _ _ =>
      split_and!;
        [congruence|simpl; rewrite ?bool_decide_eq_true_2 by done; reflexivity
        |by (left + right)|by (left + (right; eauto 10))]
  | |- task_order _ _ => unfold task_order; simpl; rewrite ?bool_decide_eq_true_2 by done; reflexivity
  | _ => done
  end.

Lemma ordered_foldr {A} ok h (f : A → Locks.code → Locks.code) d l :
  ordered ok h d → (∀ x c, ordered ok h c → ordered ok h (f x c)) → ordered ok h (foldr f d l).
Proof. intros Hd Hf. induction l; simpl; auto. Qed.

Lemma worker_ordered mux m c : Locks.worker_method mux m c → ordered (worker_order mux m) [] c.
Proof.
  destruct 1; subst; [done|order|order..]. apply ordered_foldr; [done|]. intros p c Hc. order.
Qed.

Lemma task_ordered mux c : Locks.task_method mux c → ordered task_order [] c.
Proof.
  destruct 1; [order|order| |order..].
  split; [order|]. unfold Locks.garbage_collect_sockets. cbn [ordered].
  repeat split; (apply ordered_foldr; [done|]; intros e c Hc; order).
Qed.

(** ** Deadlocks *)

Section deadlocks.
Context (mux : nat → nat) (workers : nat).

(** The first tasks are the receiving workers, one for each multiplexer. *)
Definition order_of (i : nat) : Locks.lock → Locks.lock → Prop :=
  if decide (i < workers)%nat then worker_order mux i else task_order.

Lemma order_of_irrefl i l : ¬ order_of i l l.
Proof. unfold order_of. case_decide; [by intros [? _]|apply before_irrefl]. Qed.

Definition all_safe (ts : list Locks.task) : Prop :=
  ∀ i t, ts !! i = Some t → safe (order_of i) (Locks.held t).*1 (Locks.rest t).

Lemma dropped_locks l h : (Locks.dropped l h).*1 = filter (λ x, x ≠ l) h.*1.
Proof.
  unfold Locks.dropped. induction h as [|[x m] h IH]; [done|]. destruct (decide (x ≠ l)).
  - rewrite filter_cons_True by done. cbn [fmap list_fmap fst]. rewrite filter_cons_True by done. by f_equal.
  - rewrite filter_cons_False by done. cbn [fmap list_fmap fst]. by rewrite filter_cons_False by done.
Qed.

Lemma program_ordered ok cs : Forall (λ c, ordered ok [] c) cs → ordered ok [] (Locks.program cs).
Proof. induction 1; simpl; auto. Qed.

Lemma started_safe programs others ts : length programs = workers →
  (∀ m methods, programs !! m = Some methods → Forall (Locks.worker_method mux m) methods) →
  Forall (Forall (Locks.task_method mux)) others →
  Locks.started (programs ++ others) ts → all_safe ts.
Proof.
  intros Hlen Hw Ho Hs i t Ht. eapply Forall2_lookup_r in Hs as (cs & Hcs & -> & Hr); [|done].
  rewrite <- (app_nil_r (Locks.rest t)). eapply ordered_safe; [apply order_of_irrefl|exact Hr| |done].
  apply program_ordered. unfold order_of. case_decide as Hi.
  - rewrite lookup_app_l in Hcs by lia. eapply Forall_impl; [by apply Hw|]. apply worker_ordered.
  - rewrite lookup_app_r in Hcs by lia. eapply Forall_lookup_1 in Ho; [|exact Hcs].
    eapply Forall_impl; [exact Ho|]. apply task_ordered.
Qed.

Lemma step_safe ts ts' : all_safe ts → Locks.step ts ts' → all_safe ts'.
Proof.
  intros Hs Hstep j t Ht. destruct Hstep as [i h l m r Hi _|i h l r Hi|i h r Hi|i h r Hi];
    destruct (decide (i = j)) as [<-|];
    try (rewrite list_lookup_insert_ne in Ht by done; by apply Hs);
    rewrite list_lookup_insert_eq in Ht by (by eapply lookup_lt_Some); injection Ht as <-;
    apply Hs in Hi; cbn in Hi |- *; try apply Hi.
  by rewrite dropped_locks.
Qed.

Definition holds (t : Locks.task) (l : Locks.lock) : Prop := l ∈ (Locks.held t).*1.

(** A task that cannot go on asks for a lock that is held. *)
Definition blocked (ts : list Locks.task) : Prop := ∀ t, t ∈ ts → ¬ Locks.free t ts.

Lemma blocked_wants ts i t : all_safe ts → blocked ts → ts !! i = Some t →
  (∃ x, holds t x) ∨ ¬ Locks.idle t →
  ∃ l j t', ts !! j = Some t' ∧ holds t' l ∧ (∀ x, holds t x → order_of i x l).
Proof.
  intros Hs Hb Ht Hbusy. pose proof (Hs i t Ht) as Hsafe.
  assert (Hf : ¬ Locks.free t ts) by (eapply Hb, list_elem_of_lookup_2, Ht).
  unfold holds, Locks.free, Locks.idle in *. destruct (Locks.rest t) as [|[l m|l| |] r]; simpl in *; try tauto.
  - rewrite Hsafe in Hbusy. destruct Hbusy as [[x []%not_elem_of_nil]|]; tauto.
  - destruct Hsafe as [Hl _]. rewrite Forall_forall in Hl.
    assert (∃ t', t' ∈ ts ∧ l ∈ (Locks.held t').*1) as (t' & Hin & Hheld).
    { destruct (decide (Exists (λ t', l ∈ (Locks.held t').*1) ts)) as [He|He].
      - by apply Exists_exists in He.
      - destruct Hf. intros t' Hin Hheld. apply He, Exists_exists. by exists t'. }
    apply list_elem_of_lookup_1 in Hin as [j Hj]. by exists l, j, t'.
  - destruct Hsafe as [Hl _]. rewrite Hl in Hbusy. destruct Hbusy as [[x []%not_elem_of_nil]|]; tauto.
Qed.

(** A chain of waits reaches a worker, going up. *)
Lemma chain_reaches_worker ts j t l : all_safe ts → blocked ts → ts !! j = Some t → holds t l →
  ∃ i w x, ts !! i = Some w ∧ (i < workers)%nat ∧ holds w x ∧ (l = x ∨ before l x = true).
Proof.
  intros Hs Hb. remember (4 - rank l)%nat as k eqn:Hk. revert j t l Hk.
  induction k as [k IH] using lt_wf_ind. intros j t l -> Ht Hl.
  destruct (decide (j < workers)%nat) as [Hj|Hj]; [exists j, t, l; auto|].
  destruct (blocked_wants ts j t Hs Hb Ht) as (l' & j' & t' & Ht' & Hl' & Hord); [by left; exists l|].
  specialize (Hord l Hl). unfold order_of in Hord. rewrite decide_False in Hord by done.
  pose proof (before_rank _ _ Hord) as Hrank.
  destruct (IH (4 - rank l')%nat ltac:(lia) j' t' l' eq_refl Ht' Hl') as (i & w & x & Hw & Hi & Hx & [<-|Hlx]).
  - exists i, w, l'. auto.
  - exists i, w, x. split_and!; [done..|]. right. by eapply before_trans.
Qed.

Lemma own_before m l x : own mux m l → l = x ∨ before l x = true → own mux m x.
Proof.
  destruct l as [s f|m1 f|], x as [s1 g|m2 g|]; simpl; intros Hown [Heq|Hbefore]; try done; simplify_eq; try done.
  apply andb_true_iff in Hbefore as [->%bool_decide_eq_true _]. done.
Qed.

(** What a blocked worker waits for is not its own, and another worker is in the way. *)
Lemma worker_waits ts i w y : all_safe ts → blocked ts →
  ts !! i = Some w → (i < workers)%nat → holds w y →
  ∃ l j w' x, ts !! j = Some w' ∧ (j < workers)%nat ∧ holds w' x ∧ (l = x ∨ before l x = true)
  ∧ (l = Locks.Registry ∨ ∃ s f, l = Locks.Of s f)
  ∧ ∀ y, holds w y → (y = Locks.Registry ∨ y = Locks.At i Locks.Listener) ∧ y ≠ l.
Proof.
  intros Hs Hb Hw Hi Hy. destruct (blocked_wants ts i w Hs Hb Hw) as (l & k & t & Ht & Hl & Hord); [by left; exists y|].
  destruct (chain_reaches_worker ts k t l Hs Hb Ht Hl) as (j & w' & x & Hw' & Hj & Hx & Hlx).
  unfold order_of in Hord. rewrite decide_True in Hord by done.
  assert (Hne : i ≠ j).
  { intros ->. assert (w' = w) as -> by congruence. destruct (Hord x Hx) as (Hne & Hbef & _).
    destruct Hlx as [->|?]; congruence. }
  assert (Hout : ¬ own mux i l).
  { intros Hown. apply (own_before i l x) in Hown; [|done].
    destruct (blocked_wants ts j w' Hs Hb Hw') as (l' & _ & _ & _ & _ & Hord'); [by left; exists x|].
    specialize (Hord' x Hx). unfold order_of in Hord'. rewrite decide_True in Hord' by done.
    destruct Hord' as (_ & _ & [Hown'| ->] & _); [|done]. destruct x; simpl in *; congruence. }
  exists l, j, w', x. split_and!; [done..| |].
  - destruct (Hord y Hy) as (_ & _ & _ & [?|[_ ?]]); [done|done].
  - intros z Hz. destruct (Hord z Hz) as (? & _ & _ & [?|[? _]]); done.
Qed.

Lemma registry_passed l i x : l = x ∨ before l x = true → l = Locks.Registry ∨ (∃ s f, l = Locks.Of s f) →
  x = Locks.Registry ∨ x = Locks.At i Locks.Listener → l = Locks.Registry ∧ x = Locks.Registry.
Proof. intros Hlx [->|(s & f & ->)] [->| ->]; destruct Hlx; by simplify_eq. Qed.

Lemma safe_not_blocked ts : all_safe ts → blocked ts → Forall Locks.idle ts.
Proof.
  intros Hs Hb. apply Forall_lookup_2. intros i t Ht.
  destruct (decide (Locks.idle t)) as [|Hidle]; [done|]. exfalso.
  destruct (blocked_wants ts i t Hs Hb Ht) as (l & j & t' & Ht' & Hl & _); [by right|].
  destruct (chain_reaches_worker ts j t' l Hs Hb Ht' Hl) as (i1 & w1 & y & Hw1 & Hi1 & Hy & _).
  destruct (worker_waits ts i1 w1 y) as (l1 & i2 & w2 & x2 & Hw2 & Hi2 & Hx2 & Hl1 & Hk1 & _); [done..|].
  destruct (worker_waits ts i2 w2 x2) as (l2 & i3 & w3 & x3 & Hw3 & Hi3 & Hx3 & Hl2 & Hk2 & Hh2); [done..|].
  destruct (worker_waits ts i3 w3 x3) as (l3 & i4 & w4 & x4 & _ & _ & _ & _ & _ & Hh3); [done..|].
  destruct (registry_passed l1 i2 x2 Hl1 Hk1) as [_ ->]; [by apply Hh2|].
  destruct (registry_passed l2 i3 x3 Hl2 Hk2) as [-> _]; [by apply Hh3|]. by destruct (Hh2 _ Hx2).
Qed.
End deadlocks.

(** Every action is taken once. *)
Definition total (ts : list Locks.task) : nat := sum_list_with (λ t, length (Locks.rest t)) ts.

Lemma total_insert ts i t t' : ts !! i = Some t → length (Locks.rest t) = S (length (Locks.rest t')) →
  total ts = S (total (<[i := t']> ts)).
Proof.
  revert i. induction ts as [|x ts IH]; intros [|i]; simpl; try done.
  - intros [= ->] ->. done.
  - intros Ht Hl. specialize (IH i Ht Hl). unfold total in *. simpl. lia.
Qed.

Lemma step_total ts ts' : Locks.step ts ts' → total ts = S (total ts').
Proof. destruct 1; by eapply total_insert. Qed.

(** A free task can take its action. *)
Lemma free_steps ts t : t ∈ ts → Locks.free t ts → ∃ ts', Locks.step ts ts'.
Proof.
  intros [i Hi]%list_elem_of_lookup_1 Hf. destruct t as [h [|[l m|l| |] r]]; try done.
  - eexists. eapply Locks.Acquires; [done|]. intros t' m' Ht' Hl. destruct (Hf t' Ht').
    apply list_elem_of_fmap. by exists (l, m').
  - eexists. by eapply Locks.Releases.
  - eexists. by eapply Locks.Completes.
Qed.

(** C9. No deadlock.  However any number of receiving workers, the sending workers, the
    cleanup task and any number of tasks of the application interleave on any number of
    connected sockets, provided that each receiving worker meets only sockets of its own
    multiplexer, some task can always go on, since nobody holds the lock it asks for, unless
    every task has finished or sleeps; and each task goes on only as often as it has actions,
    so every method that is called gets all its locks and returns them. *)
Theorem locks_never_deadlock mux workers others ts n ts' :
  (∀ m methods, workers !! m = Some methods → Forall (Locks.worker_method mux m) methods) →
  Forall (Forall (Locks.task_method mux)) others →
  Locks.started (workers ++ others) ts → nsteps Locks.step n ts ts' →
  (n + total ts')%nat = total ts
  ∧ (Forall Locks.idle ts' ∨ ∃ t, t ∈ ts' ∧ Locks.free t ts').
Proof.
  intros Hw Ho Hstart Hrun.
  pose proof (started_safe mux (length workers) workers others ts eq_refl Hw Ho Hstart) as Hsafe.
  clear Hstart. split.
  - induction Hrun as [|n ts ts1 ts2 Hstep _ IH]; [lia|].
    rewrite (step_total ts ts1 Hstep), <- IH by (by eapply step_safe). lia.
  - assert (Hsafe' : all_safe mux (length workers) ts').
    { clear -Hrun Hsafe. induction Hrun; [done|]. eauto using step_safe. }
    destruct (decide (Exists (λ t, Locks.free t ts') ts')) as [He|He].
    + right. by apply Exists_exists in He.
    + left. apply (safe_not_blocked mux (length workers) ts' Hsafe'). intros t Ht Hf.
      apply He, Exists_exists. by exists t.
Qed.

(** ** Callers outside of the order *)

(** The actions of a body, [bs] choosing at each [Alt] and no [Loop] being entered. *)
Fixpoint walk (c : Locks.code) (bs : list bool) : list Locks.action * bool * list bool :=
  match c with
  | Locks.Skip | Locks.Loop _ => ([], false, bs)
  | Locks.Return => ([], true, bs)
  | Locks.Wait => ([Locks.Sleep], false, bs)
  | Locks.System => ([Locks.Io], false, bs)
  | Locks.Seq c d =>
      match walk c bs with
      | (t, true, bs) => (t, true, bs)
      | (t, false, bs) => let '(u, r, bs) := walk d bs in (t ++ u, r, bs)
      end
  | Locks.Alt c d => match bs with true :: bs => walk c bs | _ => walk d (tail bs) end
  | Locks.Guard l m c =>
      let '(t, r, bs) := walk c bs in (Locks.Acquire l m :: t ++ [Locks.Release l], r, bs)
  | Locks.Call c => let '(t, _, bs) := walk c bs in (t, false, bs)
  end.

Lemma walk_runs c bs : Locks.runs c (walk c bs).1.1 (walk c bs).1.2.
Proof.
  revert bs. induction c as [| | | |c IHc d IHd|c IHc d IHd|l m c IH|c IH|c _]; intros bs; try (by constructor); simpl.
  - specialize (IHc bs). destruct (walk c bs) as [[t []] bs']; simpl in *; [by constructor|].
    specialize (IHd bs'). destruct (walk d bs') as [[u r] ?]. by apply Locks.RunSeq.
  - destruct bs as [|[] bs]; [apply Locks.RunRight, IHd|apply Locks.RunLeft, IHc|apply Locks.RunRight, IHd].
  - specialize (IH bs). destruct (walk c bs) as [[t r] ?]. by constructor.
  - specialize (IH bs). destruct (walk c bs) as [[t r] ?]. by eapply Locks.RunCall.
Qed.

(** The tasks at the start of their programs, each with its choices. *)
Definition launch (programs : list (list Locks.code * list bool)) : list Locks.task :=
  (λ p, Locks.Task [] (walk (Locks.program p.1) p.2).1.1) <$> programs.

Lemma launch_started programs : Locks.started programs.*1 (launch programs).
Proof.
  unfold Locks.started, launch. rewrite Forall2_fmap. apply Forall_Forall2_diag, Forall_true.
  intros [cs bs]. split; [done|]. simpl. pose proof (walk_runs (Locks.program cs) bs) as Hr.
  replace (walk (Locks.program cs) bs).1.2 with false in Hr; [done|]. clear Hr.
  revert bs. induction cs as [|c cs IH]; intros bs; [done|]. simpl.
  destruct (walk c bs) as [[t r] bs']. specialize (IH bs'). by destruct (walk (Locks.program cs) bs') as [[u []] ?].
Qed.

Definition availableb (l : Locks.lock) (m : Locks.mode) (ts : list Locks.task) : bool :=
  forallb (λ t, forallb (λ e, bool_decide (e.1 ≠ l) || Locks.compatible m e.2) (Locks.held t)) ts.

Lemma availableb_spec l m ts : availableb l m ts = true ↔ Locks.available l m ts.
Proof.
  unfold availableb, Locks.available. rewrite forallb_forall. setoid_rewrite forallb_forall.
  setoid_rewrite <- list_elem_of_In. split.
  - intros Ha t m' Ht Hl. specialize (Ha t Ht _ Hl). simpl in Ha.
    by rewrite bool_decide_eq_false_2 in Ha by tauto.
  - intros Ha t Ht [l' m'] Hl. simpl. case_bool_decide as Hne; [done|]. simpl.
    apply (Ha t m' Ht). destruct (decide (l' = l)) as [<-|]; [done|tauto].
Qed.

(** The next action of task [i], if it can take one. *)
Definition next (i : nat) (ts : list Locks.task) : option (list Locks.task) :=
  t ← ts !! i;
  match Locks.rest t with
  | [] => None
  | Locks.Acquire l m :: r =>
      if availableb l m ts then Some (<[i := Locks.Task ((l, m) :: Locks.held t) r]> ts) else None
  | Locks.Release l :: r => Some (<[i := Locks.Task (Locks.dropped l (Locks.held t)) r]> ts)
  | (Locks.Sleep | Locks.Io) :: r => Some (<[i := Locks.Task (Locks.held t) r]> ts)
  end.

Lemma next_step ts ts' : Locks.step ts ts' ↔ ∃ i, (i < length ts)%nat ∧ next i ts = Some ts'.
Proof.
  unfold next. split.
  - destruct 1 as [i h l m r Hi Ha|i h l r Hi|i h r Hi|i h r Hi]; exists i; (split; [by eapply lookup_lt_Some|]);
      rewrite Hi; simpl; try done. by rewrite (proj2 (availableb_spec l m ts) Ha).
  - intros (i & _ & Hn). destruct (ts !! i) as [[h [|[l m|l| |] r]]|] eqn:Hi; try done; simpl in Hn.
    + destruct (availableb l m ts) eqn:Ha; [|done]. injection Hn as <-.
      by apply Locks.Acquires, availableb_spec.
    + injection Hn as <-. by apply Locks.Releases.
    + injection Hn as <-. by apply Locks.Wakes.
    + injection Hn as <-. by apply Locks.Completes.
Qed.

(** The tasks in the order of [schedule], as far as it goes. *)
Fixpoint execute (schedule : list nat) (ts : list Locks.task) : list Locks.task :=
  match schedule with
  | [] => ts
  | i :: schedule => match next i ts with Some ts' => execute schedule ts' | None => ts end
  end.

Lemma execute_steps schedule ts : rtc Locks.step ts (execute schedule ts).
Proof.
  revert ts. induction schedule as [|i schedule IH]; intros ts; [done|]. simpl.
  destruct (next i ts) as [ts'|] eqn:Hn; [|done]. eapply rtc_l; [|apply IH].
  apply next_step. exists i. split; [|done]. unfold next in Hn.
  destruct (ts !! i) eqn:Hi; [by eapply lookup_lt_Some|done].
Qed.

(** Some run of the programs ends with no action possible and a task that is not idle. *)
Definition deadlocks (programs : list (list Locks.code)) : Prop :=
  ∃ ts ts', Locks.started programs ts ∧ rtc Locks.step ts ts'
  ∧ ¬ Forall Locks.idle ts' ∧ ∀ ts'', ¬ Locks.step ts' ts''.

Definition stuck (ts : list Locks.task) : bool :=
  negb (bool_decide (Forall Locks.idle ts)) && forallb (λ i, bool_decide (next i ts = None)) (seq 0 (length ts)).

Lemma stuck_deadlocks programs schedule :
  stuck (execute schedule (launch programs)) = true → deadlocks programs.*1.
Proof.
  unfold stuck. rewrite andb_true_iff, negb_true_iff, bool_decide_eq_false, forallb_forall. intros [Hi Hn].
  eexists _, _. split; [apply launch_started|]. split; [apply execute_steps|]. split; [exact Hi|].
  intros ts'' (i & Hlt & E)%next_step. specialize (Hn i). rewrite bool_decide_eq_true, E in Hn.
  discriminate Hn. apply in_seq. lia.
Qed.

(** The write guard that [UdtConnection::rate_control] returns, kept while [c] runs. *)
Definition with_rate_control (s : nat) (c : Locks.code) : Locks.code :=
  Locks.Guard (Locks.Of s Locks.RateControl) Locks.Write (Locks.Call c).

(** C10. The order ends where [locks_never_deadlock] stops.  A socket that is still in
    [connect] can be caught between three tasks: [set_peer_addr] asks for the configuration
    with the send buffer locked, the handshake of the receiving worker for the state with
    the configuration locked, the sending worker for the send buffer with the state locked.
    An application that calls [send] while it keeps the guard that [rate_control] returns
    can wait for the sending worker, which waits for that guard.  And a socket is served by
    the receiving worker of any multiplexer that a datagram for it arrives on: of two of
    them, one has locked the flow for an acknowledgement and asks for the state, the other
    has locked the state for a light acknowledgement and asks for the flow. *)
Theorem unordered_callers_deadlock :
  let s := 0%nat in let mux := λ _, 0%nat in
  deadlocks [[Locks.serve mux 0 s]; [Locks.send_turn mux s]; [Locks.connect s]]
  ∧ deadlocks [[]; [Locks.send_turn mux s]; [with_rate_control s (Locks.send mux s)]]
  ∧ deadlocks [[Locks.serve mux 0 s]; [Locks.serve mux 1 s]].
Proof.
  intros s mux. set (sender := [false; true; false; true; false; false; false; true]). split_and!.
  - apply (stuck_deadlocks
      [([Locks.serve mux 0 s], [false; true; true; true; true; true; false; false]);
       ([Locks.send_turn mux s], sender); ([Locks.connect s], [])]
      (replicate 18 2%nat ++ replicate 11 0%nat ++ replicate 13 1%nat)).
    vm_compute. reflexivity.
  - apply (stuck_deadlocks
      [([], []); ([Locks.send_turn mux s], sender); ([with_rate_control s (Locks.send mux s)], [])]
      (replicate 16 1%nat ++ replicate 3 2%nat)).
    vm_compute. reflexivity.
  - set (found := [false; true; true; true; true]).
    apply (stuck_deadlocks
      [([Locks.serve mux 0 s], found ++ [false; false; false; true]);
       ([Locks.serve mux 1 s], found ++ [false; false; true; true])]
      (replicate 19 0%nat ++ replicate 9 1%nat)).
    vm_compute. reflexivity.
Qed.

(** Two receiving workers and an application. *)
Lemma locks_never_deadlock_witness :
  let mux := λ s, s in
  let programs := [([Locks.check_due 0], []); ([Locks.check_socket mux 1 1], []); ([Locks.send mux 0], [])] in
  let ts := launch programs in
  total ts = 12%nat ∧ (Forall Locks.idle ts ∨ ∃ t, t ∈ ts ∧ Locks.free t ts).
Proof.
  intros mux programs ts.
  destruct (locks_never_deadlock mux [[Locks.check_due 0]; [Locks.check_socket mux 1 1]] [[Locks.send mux 0]]
    ts 0 ts) as [_ Hfree].
  - intros [|[|m]] methods; [intros [= <-]|intros [= <-]|done]; apply Forall_singleton;
      [apply Locks.WorkerCollects|by apply Locks.WorkerChecks].
  - apply Forall_singleton, Forall_singleton, Locks.Sends.
  - apply (launch_started programs).
  - constructor.
  - split; [reflexivity|exact Hfree].
Defined.
