(* ===== verification/repair.v ===== *)
(** * Repairing a gap

    The four methods that take part in the repair of a burst of losses, one after the
    other on the two ends of a connection: the receiver reports the gap, the sender
    records the report, retransmits packet by packet, and the receiver takes the
    retransmitted packets in any order. *)

From S2P Require Import prelude seq_number time data_packet control_packet packet.
From S2P Require Import btree_map loss_list ack_window rcv_buffer snd_buffer float flow.
From S2P Require Import configuration rate_control socket_state world socket samples.
From S2P Require Import socket_sender socket_receiver socket_control.

#[local] Arguments GenericSeqNumber.sub_i32 : simpl never.
#[local] Arguments GenericSeqNumber.add : simpl never.
#[local] Arguments GenericSeqNumber.sub : simpl never.
#[local] Arguments LossList.insert : simpl never.
#[local] Arguments LossList.remove : simpl never.
#[local] Arguments RcvBuffer.insert : simpl never.

Notation seq_of p := (UdtDataPacketHeader.seq_number (UdtDataPacket.header p)).
Notation snd_state s := (UdtSocket.state s).
Notation snd_losses s := (SocketState.snd_loss_list (UdtSocket.state s)).
Notation first_kept s := (SocketState.last_data_ack_processed (UdtSocket.state s)).
Notation credit s := (SocketState.interpacket_time_diff (UdtSocket.state s)).

(** More than five centuries: how long a run may last for the credits of a burst of any
    length to fit in a [Duration]. *)
Definition RUN_MAX : Z := DURATION_MAX / 2 ^ 30.

Section sender.
Context `{Profile} `{Env} `{FloatLib}.

(** The sending worker asks for packets [n] times. *)
Fixpoint resend (n : nat) : SM (list UdtDataPacket.t) :=
  match n with
  | 0%nat => mret []
  | S n => r ← next_data_packets; rest ← resend n;
           mret (match r with Some (packets, _) => packets ++ rest | None => rest end)
  end.

(** A socket that can retransmit what it keeps. *)
Record resendable (s : UdtSocket.t) : Prop := {
  rs_inv : snd_inv s;
  rs_near : near s;
  rs_alive : UdtStatus.is_alive (UdtSocket.status s) = true;
  rs_peer : is_Some (UdtSocket.peer_socket_id s);
  rs_ttl : Forall (λ b, SndBufferBlock.ttl b = None) (SndBuffer.buffer (UdtSocket.snd_buffer s));
  rs_interval : sane (SocketState.interpacket_interval (snd_state s));
  rs_clock i : duration_since (clock i) (SocketState.next_data_target_time (snd_state s)) <= RUN_MAX
}.

(** [p] is packet [x] of the socket. *)
Definition carries (s : UdtSocket.t) (x : Z) (p : UdtDataPacket.t) : Prop :=
  seq_of p = x ∧ ∃ block, SndBuffer.buffer (UdtSocket.snd_buffer s) !! Z.to_nat (x - first_kept s) = Some block
    ∧ UdtDataPacket.data p = SndBufferBlock.data block
    ∧ UdtDataPacketHeader.msg_number (UdtDataPacket.header p) = SndBufferBlock.msg_number block.

Lemma resent_resendable seq delay s s' : resent seq delay s s' → resendable s → resendable s'.
Proof.
  intros Hre [Hi Hn Ha Hp Ht Hs Hc].
  split; [by eapply resent_inv|by eapply resent_near|..];
    destruct Hre as [Eb Es Ep _ _ _ Ei Et _ _]; by rewrite ?Eb, ?Es, ?Ep, ?Ei, ?Et.
Qed.

Lemma resent_carries seq delay s s' x p : resent seq delay s s' → carries s' x p → carries s x p.
Proof. intros [Eb _ _ Ef _ _ _ _ _ _]. unfold carries. by rewrite Eb, Ef. Qed.

(** A burst of losses leaves one packet per call, the oldest first, and the credits of
    the pacing do not overflow. *)
Lemma resend_burst n : ∀ first w, resendable (sock w) →
  0 <= credit (sock w) → credit (sock w) + Z.of_nat n * RUN_MAX <= DURATION_MAX →
  (∀ x, lost (snd_losses (sock w)) x ↔ first <= x < first + Z.of_nat n) →
  ∃ packets w', resend n w = (Ok packets, w') ∧ length packets = n
  ∧ (∀ i p, packets !! i = Some p → carries (sock w) (first + Z.of_nat i) p)
  ∧ resendable (sock w') ∧ UdtSocket.snd_buffer (sock w') = UdtSocket.snd_buffer (sock w)
  ∧ ∀ x, ¬ lost (snd_losses (sock w')) x.
Proof.
  assert (0 <= RUN_MAX) by done.
  induction n as [|n IH]; intros first w Hs Hc Hlong Hl.
  { exists [], w. split_and!; try done. intros x ?%Hl. lia. }
  destruct (rs_peer _ Hs) as [peer Hp].
  destruct (next_data_packets_parts w peer first) as (p & time & w1 & block & Hrun & Hseq & Hb & Hd & Hm & Hre).
  1-4: try apply Hs; done.
  { apply Hl. lia. }
  { intros x ?%Hl. lia. }
  { apply Forall_forall, Hs. }
  { apply Hs. }
  { done. }
  { pose proof (rs_clock _ Hs (ticks w)). lia. }
  pose proof (re_credit _ _ _ _ Hre) as Hc1. pose proof (rs_clock _ Hs (ticks w)).
  destruct (IH (first + 1) w1) as (packets & w' & Hrest & Hlen & Hcar & Hs' & Eb & Hl').
  { by eapply resent_resendable. }
  { apply Hc1. }
  { lia. }
  { intros x. rewrite (re_losses _ _ _ _ Hre).
    rewrite (proj2 (remove_spec _ first (si_losses _ (rs_inv _ Hs)))), Hl. lia. }
  exists (p :: packets), w'. split; [simpl; by rewrite bind_run, Hrun, bind_run, Hrest|].
  split; [simpl; by rewrite Hlen|]. split; [|by rewrite Eb, (re_buffer _ _ _ _ Hre)].
  intros [|i] q Hq; simpl in Hq.
  - injection Hq as <-. rewrite Z.add_0_r. split; [done|]. by exists block.
  - replace (first + Z.of_nat (S i)) with (first + 1 + Z.of_nat i) by lia.
    eapply resent_carries; [exact Hre|by apply Hcar].
Qed.

(** The first word of a report names the first loss. *)
Lemma nak_first first last : valid first → valid last →
  ∃ word rest, nak_words first last = word :: rest ∧ Z.land word 2147483647 = first.
Proof.
  intros Hf Hl. unfold nak_words. destruct (Z.eqb_spec first last) as [<-|]; eexists _, _; (split; [done|]).
  - unfold valid, SEQ_MAX in Hf. change 2147483647 with (Z.ones 31). rewrite Z.land_ones by lia.
    apply Z.mod_small. lia.
  - by apply interval_word.
Qed.

(** A sender with nothing in its loss list records a report, and can retransmit. *)
Lemma nak_recorded first last addressee w rate :
  let s := sock w in
  resendable s → (∀ x, ¬ lost (snd_losses s) x) →
  0 < first → SocketState.last_ack_received (snd_state s) <= first <= last →
  last <= SocketState.curr_snd_seq_number (snd_state s) →
  0 < SndBuffer.current_position (UdtSocket.snd_buffer s) →
  RateControl.on_loss random first (UdtSocket.rate_control s) = Ok rate →
  sane (RateControl.get_pkt_send_period rate) →
  ∃ w', process_packet (Control (UdtControlPacket.new_nak (nak_words first last) addressee)) w = (Ok (), w')
  ∧ resendable (sock w') ∧ UdtSocket.snd_buffer (sock w') = UdtSocket.snd_buffer s
  ∧ first_kept (sock w') = first_kept s ∧ credit (sock w') = credit s
  ∧ ∀ x, lost (snd_losses (sock w')) x ↔ first <= x <= last.
Proof.
  intros s Hs Hnone Hpos Hfirst Hlast Hsent Hrate Hperiod. destruct w as [s0 n tr].
  cbn [sock ticks trace] in *. subst s. rename s0 into s.
  set (s1 := UdtSocket.set_state (SocketState.set_pacing (RateControl.get_pkt_send_period rate)
    (credit s) (SocketState.next_data_target_time (snd_state s))
    (SocketState.set_rsp 1 (clock n) (snd_state s))) (UdtSocket.set_rate_control rate s)).
  assert (snd_inv s1) as Hinv1 by (by eapply (same_sender_inv s), Hs).
  assert (near s1) as Hnear1 by (destruct (rs_near _ Hs); by split).
  destruct (nak_words_value first last s1) as (losses & Hloop & Hinv2 & Hl); [done..|].
  destruct (nak_first first last) as (word & rest & Hwords & Hword).
  { pose proof (rs_near _ Hs) as [? ? ?]. pose proof (curr_near s (rs_inv _ Hs) (rs_near _ Hs) Hsent).
    unfold valid. lia. }
  { pose proof (rs_near _ Hs) as [? ? ?]. pose proof (curr_near s (rs_inv _ Hs) (rs_near _ Hs) Hsent).
    unfold valid. lia. }
  set (s2 := UdtSocket.set_state (SocketState.set_snd (SocketState.curr_snd_seq_number (snd_state s1)) losses
    (snd_state s1)) s1) in *.
  assert (resendable s2) as Hs2.
  { destruct Hs as [_ [? ? ?] Ha Hp Ht _ Hc]. by split. }
  assert (∀ x, lost (snd_losses s2) x ↔ first <= x <= last) as Hl2.
  { intros x. etransitivity; [apply Hl|]. split; [|by right]. intros [[]%Hnone|]; done. }
  unfold process_packet, process_ctrl, on_nak, update_rate_control, cc_update, modify_state, update_snd_queue. run.
  cbn [UdtControlPacket.new_nak UdtControlPacket.packet_type NakInfo.loss_info].
  rewrite Hwords. run. simpl UdtSocket.rate_control. rewrite Hword, Hrate. run.
  match goal with |- context [nak_loop ?l ?st] => change st with (snd_state s1) end.
  rewrite <- Hwords, Hloop. run.
  match goal with |- context [UdtSocket.multiplexer ?s'] => change s' with s2 end.
  destruct (UdtSocket.multiplexer s2); run; (eexists; split; [reflexivity|]); by cbn [sock].
Qed.
End sender.

Section receiver.
Context `{Profile} `{Env} `{FloatLib}.

Fixpoint receive_all (packets : list UdtDataPacket.t) : SM unit :=
  match packets with
  | [] => mret ()
  | p :: rest => process_packet (Data p) ;; receive_all rest
  end.

(** The free places of the receive buffer. *)
Definition room (s : UdtSocket.t) : Z :=
  RcvBuffer.max_size (UdtSocket.rcv_buffer s) - len (RcvBuffer.packets (UdtSocket.rcv_buffer s)).

(** A socket that can take [n] packets up to number [last]. *)
Record can_take (n : nat) (last : Z) (s : UdtSocket.t) : Prop := {
  ct_inv : rcv_inv s;
  ct_mss : 56 <= UdtConfiguration.mss (UdtSocket.configuration s) <= U32_MAX;
  ct_count : 0 <= SocketState.pkt_count (UdtSocket.state s)
    ∧ SocketState.pkt_count (UdtSocket.state s) + Z.of_nat n < 2 ^ 64;
  ct_addr : is_Some (UdtSocket.peer_addr s);
  ct_mux : is_Some (UdtSocket.multiplexer s);
  ct_peer : is_Some (UdtSocket.peer_socket_id s);
  ct_size : RcvBuffer.max_size (UdtSocket.rcv_buffer s) <= U32_MAX;
  ct_room : last - sent_ack s + Z.of_nat n <= room s + 1;
  ct_last : last < SEQ_MAX ∧ last + 1 - sent_ack s < 2 ^ 30
}.

Lemma available_room s : RcvBuffer.max_size (UdtSocket.rcv_buffer s) <= U32_MAX → 0 <= room s →
  RcvBuffer.get_available_buf_size (UdtSocket.rcv_buffer s) = Ok (room s).
Proof.
  unfold room, RcvBuffer.get_available_buf_size, len. intros Hm Hr.
  rewrite wrap_u_small, arith_u_ok by lia. done.
Qed.

Lemma insert_room p b : rcv_wf b →
  RcvBuffer.max_size (RcvBuffer.insert p b) = RcvBuffer.max_size b
  ∧ len (RcvBuffer.packets (RcvBuffer.insert p b)) <= len (RcvBuffer.packets b) + 1.
Proof.
  intros Hb. unfold RcvBuffer.insert. destruct (BTreeMap.get _ _) eqn:E; [lia|]. simpl.
  rewrite len_insert_fresh; [lia|apply Hb|done].
Qed.

(** One packet that is not behind the last acknowledgement. *)
Lemma take_packet n last p w addr peer : can_take (S n) last (sock w) → (∀ i, send_result i = None) →
  UdtSocket.peer_addr (sock w) = Some addr → UdtSocket.peer_socket_id (sock w) = Some peer →
  0 <= seq_of p → sent_ack (sock w) <= seq_of p <= last →
  ∃ w', process_packet (Data p) w = (Ok (), w') ∧ can_take n last (sock w')
  ∧ curr_rcv (sock w') = Z.max (seq_of p) (curr_rcv (sock w))
  ∧ (∀ x, lost (rcv_losses (sock w')) x ↔
       (lost (rcv_losses (sock w)) x ∨ curr_rcv (sock w) < x < seq_of p) ∧ x ≠ seq_of p)
  ∧ (∀ x, received (sock w') x ↔ received (sock w) x ∨ x = seq_of p)
  ∧ sent_ack (sock w') = sent_ack (sock w)
  ∧ trace w' = trace w ++ (if curr_rcv (sock w) + 1 <? seq_of p
                           then [SendTo addr (gap_nak (curr_rcv (sock w)) (seq_of p) peer)] else []).
Proof.
  intros [Hinv Hmss Hcnt Ha [mux Hm] Hp Hsize Hroom Hlast] Hr Haddr Hpeer Hz Hseq.
  pose proof (ri_buffer _ Hinv) as Hb. destruct (insert_room p _ Hb) as [Emax Hlen].
  destruct (process_data_parts p w addr mux peer (room (sock w)))
    as (w' & Hrun & Hinv' & Hc & Hl & Hrec & Ht & Eb & (L1 & L2 & L3 & L4) & Es & Epk);
    [done|lia|lia|lia|apply available_room; [done|lia]|lia|done|lia|done..|].
  exists w'. split; [done|]. split; [|done].
  split; rewrite ?L1, ?L2, ?L3, ?L4, ?Es, ?Epk, ?Eb, ?Emax; try (done || lia).
  unfold room. rewrite Eb, Emax. unfold room in Hroom. lia.
Qed.

(** Packets of the window, each as often as it comes, in any order. *)
Lemma take_packets packets : ∀ last w, can_take (length packets) last (sock w) → (∀ i, send_result i = None) →
  Forall (λ p, 0 <= seq_of p ∧ sent_ack (sock w) <= seq_of p <= last) packets → last <= curr_rcv (sock w) →
  ∃ w', receive_all packets w = (Ok (), w') ∧ rcv_inv (sock w')
  ∧ curr_rcv (sock w') = curr_rcv (sock w) ∧ trace w' = trace w
  ∧ (∀ x, lost (rcv_losses (sock w')) x ↔ lost (rcv_losses (sock w)) x ∧ x ∉ (λ p, seq_of p) <$> packets)
  ∧ (∀ x, received (sock w') x ↔ received (sock w) x ∨ x ∈ (λ p, seq_of p) <$> packets).
Proof.
  induction packets as [|p packets IH]; intros last w Hct Hr Hp Hle.
  { exists w. split_and!; try done; [apply Hct|set_solver..]. }
  apply Forall_cons in Hp as [[Hz Hp] Hps].
  destruct (ct_addr _ _ _ Hct) as [addr Ha]. destruct (ct_peer _ _ _ Hct) as [peer Hpeer].
  destruct (take_packet (length packets) last p w addr peer)
    as (w1 & Hrun & Hct1 & Hc & Hl & Hrec & Es & Ht); [done..|].
  rewrite Z.max_r in Hc by lia. rewrite (proj2 (Z.ltb_ge _ _)), app_nil_r in Ht by lia.
  destruct (IH last w1) as (w' & Hrest & Hinv & Hc' & Ht' & Hl' & Hrec'); [done|done|by rewrite Es|lia|].
  exists w'. split; [cbn [receive_all]; by rewrite bind_run, Hrun|]. split; [done|]. split; [congruence|].
  split; [congruence|]. split; intros x; rewrite fmap_cons.
  - rewrite Hl', Hl, not_elem_of_cons. split; [intros [[[|] ?] ?]; [done|lia]|naive_solver].
  - rewrite Hrec', Hrec, elem_of_cons. tauto.
Qed.
End receiver.

Lemma can_take_le n n' last s : (n' ≤ n)%nat → can_take n last s → can_take n' last s.
Proof. intros Hn [? ? ? ? ? ? ? ? ?]. split; (done || lia). Qed.

Lemma next_to_ack_all s : rcv_inv s → (∀ x, ¬ lost (rcv_losses s) x) →
  next_to_ack (UdtSocket.state s) = curr_rcv s + 1.
Proof.
  intros Hinv Hnone. pose proof (ri_curr _ Hinv). unfold next_to_ack. rewrite seq_add_small by lia.
  pose proof (peek_after_spec (curr_rcv s + 1) (rcv_losses s) (ri_losses _ Hinv)) as Hp.
  destruct (LossList.peek_after _ _) as [x|]; [|done].
  destruct Hp as [[]%Hnone _]. unfold valid. lia.
Qed.

(** The numbers of the packets that arrive. *)
Lemma arrivals_numbers (missing arrivals : list UdtDataPacket.t) first s x : (∀ q, q ∈ arrivals ↔ q ∈ missing) →
  (∀ i q, missing !! i = Some q → carries s (first + Z.of_nat i) q) →
  x ∈ (λ q, seq_of q) <$> arrivals ↔ first <= x < first + len missing.
Proof.
  intros Hin Hcar. rewrite list_elem_of_fmap. unfold len. split.
  - intros (q & -> & [i Hi]%Hin%list_elem_of_lookup_1). destruct (Hcar i q Hi) as [-> _].
    apply lookup_lt_Some in Hi. lia.
  - intros Hx. destruct (lookup_lt_is_Some_2 missing (Z.to_nat (x - first))) as [q Hq]; [lia|].
    exists q. destruct (Hcar _ q Hq) as [-> _]. split; [lia|]. apply Hin. by eapply list_elem_of_lookup_2.
Qed.

Section repair.
Context `{Profile} `{FloatLib} (env_s env_r : Env).

(** C4. A burst of losses is repaired.  The receiver [wr] misses the numbers between the
    largest one it has received and that of [p], which the sender [ws] keeps.  When [p]
    arrives, one report leaves; when the sender has it, its next calls give exactly the
    missing packets, one per call, in order, each from its own block, and its loss list
    is empty again; when these arrive, in any order and as often as the network likes,
    the receiver misses nothing, and what it acknowledges next is past [p]. *)
Theorem gap_repaired ws wr p rate copies :
  let s := sock ws in
  let r := sock wr in
  let first := curr_rcv r + 1 in
  let gap := Z.to_nat (seq_of p - first) in
  can_take (S copies) (seq_of p) r → (∀ i, @send_result env_r i = None) →
  first < seq_of p → (∀ x, ¬ lost (rcv_losses r) x) →
  @resendable env_s s → (∀ x, ¬ lost (snd_losses s) x) → 0 <= credit s <= RUN_MAX →
  SocketState.last_ack_received (snd_state s) <= first →
  seq_of p <= first_kept s + SndBuffer.current_position (UdtSocket.snd_buffer s) →
  RateControl.on_loss (@random env_s) first (UdtSocket.rate_control s) = Ok rate →
  sane (RateControl.get_pkt_send_period rate) →
  ∃ addr nak wr1 ws1 missing ws2,
    @process_packet _ env_r _ (Data p) wr = (Ok (), wr1) ∧ trace wr1 = trace wr ++ [SendTo addr nak]
  ∧ @process_packet _ env_s _ nak ws = (Ok (), ws1)
  ∧ @resend _ env_s gap ws1 = (Ok missing, ws2) ∧ length missing = gap
  ∧ (∀ i q, missing !! i = Some q → carries s (first + Z.of_nat i) q)
  ∧ (∀ x, ¬ lost (snd_losses (sock ws2)) x)
  ∧ ∀ arrivals, (∀ q, q ∈ arrivals ↔ q ∈ missing) → (length arrivals ≤ copies)%nat →
      ∃ wr2, @receive_all _ env_r _ arrivals wr1 = (Ok (), wr2) ∧ rcv_inv (sock wr2)
      ∧ (∀ x, ¬ lost (rcv_losses (sock wr2)) x) ∧ (∀ x, first <= x <= seq_of p → received (sock wr2) x)
      ∧ next_to_ack (UdtSocket.state (sock wr2)) = seq_of p + 1.
Proof.
  intros s r first gap Hct Hsend Hgap Hr Hs Hsl Hcredit Hacked Hkept Hrate Hperiod.
  pose proof (ct_inv _ _ _ Hct : rcv_inv r) as Hinv. pose proof (ri_curr _ Hinv) as Hcurr.
  pose proof (ri_sent _ Hinv). pose proof (ri_acked _ Hinv).
  destruct (ct_addr _ _ _ Hct) as [addr Ha]. destruct (ct_peer _ _ _ Hct) as [peer Hp].
  pose proof (rs_near _ Hs : near s) as [Hrange Hwindow Hnear].
  pose proof (curr_near s (rs_inv _ Hs) (rs_near _ Hs)) as Hsnd.
  assert (2 ^ 30 * RUN_MAX <= DURATION_MAX) as Hlong by done. assert (0 <= RUN_MAX) by done.
  assert (first = curr_rcv r + 1) as Hfirst by done. assert (gap = Z.to_nat (seq_of p - first)) as Egap by done.
  clearbody first gap.
  destruct (@take_packet _ env_r _ copies (seq_of p) p wr addr peer)
    as (wr1 & Hrun1 & Hct1 & Hc1 & Hl1 & Hrec1 & Es1 & Ht1); [done..|lia|fold r; lia|].
  fold r in Hc1, Hl1, Hrec1, Es1, Ht1. rewrite Z.max_l in Hc1 by lia.
  rewrite (proj2 (Z.ltb_lt _ _)) in Ht1 by lia.
  destruct (@nak_recorded _ env_s _ first (seq_of p - 1) peer ws rate)
    as (ws1 & Hrun2 & Hs1 & Eb1 & Ef1 & Ec1 & Hlost1); [done|done|lia|fold s; lia|fold s; lia|fold s; lia|done..|].
  fold s in Eb1, Ef1, Ec1.
  destruct (@resend_burst _ env_s gap first ws1) as (missing & ws2 & Hrun3 & Hlen & Hcar & _ & _ & Hnone).
  { done. }
  { rewrite Ec1. apply Hcredit. }
  { rewrite Ec1. assert (Z.of_nat gap + 1 <= 2 ^ 30) by lia. nia. }
  { intros x. rewrite Hlost1. lia. }
  exists addr, (gap_nak (curr_rcv r) (seq_of p) peer), wr1, ws1, missing, ws2. split_and!; try done.
  { unfold gap_nak. by rewrite <- Hfirst. }
  { intros i q Hq. specialize (Hcar i q Hq). unfold carries in *. by rewrite <- Eb1, <- Ef1. }
  intros arrivals Hin Hcopies.
  assert (∀ x, x ∈ (λ q, seq_of q) <$> arrivals ↔ first <= x < seq_of p) as Hseqs.
  { intros x. rewrite (arrivals_numbers missing arrivals first (sock ws1)) by done.
    unfold len. lia. }
  destruct (@take_packets _ env_r _ arrivals (seq_of p) wr1) as (wr2 & Hrun & Hinv2 & Hc2 & _ & Hl2 & Hrec2).
  { by eapply can_take_le. }
  { done. }
  { apply Forall_forall. intros q Hq. assert (seq_of q ∈ (λ q, seq_of q) <$> arrivals) as Hx%Hseqs
      by (apply list_elem_of_fmap; by exists q). rewrite Es1. lia. }
  { lia. }
  assert (∀ x, ¬ lost (rcv_losses (sock wr2)) x) as Hnone2.
  { intros x [[[Hx|Hx] Hne]%Hl1 Hnot]%Hl2; [by eapply Hr|]. apply Hnot, Hseqs. lia. }
  exists wr2. split_and!; try done.
  - intros x Hx. apply Hrec2. destruct (decide (x = seq_of p)); [left; apply Hrec1; by right|].
    right. apply Hseqs. lia.
  - rewrite next_to_ack_all by done. by rewrite Hc2, Hc1.
Qed.
End repair.

(** ** Witness *)

(** A run of a millisecond. *)
Definition short_env : Env := {|
  clock n := Z.of_nat (n `min` 1000) * 1000; send_result _ := None; writable_result _ := None; random _ := 1; cookie_hash _ _ t := t
|}.

Lemma sample_can_take : can_take 3 102 sample_socket.
Proof.
  split; [apply sample_socket_inv|by vm_compute|by vm_compute|by eexists|by eexists|by eexists|by vm_compute..].
Defined.

Lemma sample_resendable : @resendable short_env (sample_sender 16 []).
Proof.
  split.
  - apply sample_sender_inv. by left.
  - apply sample_sender_near.
  - done.
  - by eexists.
  - by repeat constructor.
  - by vm_compute.
  - intros i. assert (1000000 <= RUN_MAX) by done. unfold duration_since. simpl. lia.
Defined.

(** The rate control of the sender after its first loss. *)
Definition sample_loss_rate : RateControl.t := Eval vm_compute in
  match @RateControl.on_loss true (@random short_env) 100 (UdtSocket.rate_control (sample_sender 16 [])) with
  | Ok rate => rate
  | _ => UdtSocket.rate_control (sample_sender 16 [])
  end.

(** Packets 100 and 101 are lost, 102 arrives; the retransmitted packets arrive in the
    opposite order. *)
Lemma gap_repaired_witness : ∃ wr1 ws1 missing ws2 wr2,
    @process_packet true short_env sample_float (Data (data_packet 102 [3])) sample_world = (Ok (), wr1)
  ∧ @resend true short_env 2 ws1 = (Ok missing, ws2) ∧ length missing = 2%nat
  ∧ @receive_all true short_env sample_float (reverse missing) wr1 = (Ok (), wr2)
  ∧ next_to_ack (UdtSocket.state (sock wr2)) = 103.
Proof.
  destruct (@gap_repaired true sample_float short_env short_env (sender_world 16 []) sample_world
    (data_packet 102 [3]) sample_loss_rate 2) as (addr & nak & wr1 & ws1 & missing & ws2 & Hp & _ & _ & Hs & Hlen & _ & _ & Hrec).
  - apply sample_can_take.
  - done.
  - by vm_compute.
  - by intros x (k & a & e & ?%not_elem_of_nil & _).
  - apply sample_resendable.
  - by intros x (k & a & e & ?%not_elem_of_nil & _).
  - by vm_compute.
  - by vm_compute.
  - by vm_compute.
  - by vm_compute.
  - by vm_compute.
  - destruct (Hrec (reverse missing)) as (wr2 & Hr & _ & _ & _ & Hn).
    + intros q. by rewrite elem_of_reverse.
    + rewrite length_reverse. simpl in Hlen. rewrite Hlen. by vm_compute.
    + exists wr1, ws1, missing, ws2, wr2. split; [exact Hp|]. split; [exact Hs|]. split; [exact Hlen|].
      split; [exact Hr|exact Hn].
Defined.
