(* ===== verification/bounds.v ===== *)
(** * Sizes

    How much an end keeps and how much it sends at once: the send buffer never holds more
    blocks than it was created for, no block is larger than a packet may be, and no
    datagram is larger than a header and a full payload. *)

From stdpp Require Import relations.
From S2P Require Import prelude seq_number time data_packet control_packet packet.
From S2P Require Import btree_map loss_list ack_window rcv_buffer snd_buffer float flow.
From S2P Require Import configuration rate_control socket_state world socket socket_status.
From S2P Require Import bytes stream_invariant stream wire_types samples.

(** ** Packets *)

(** At most [payload] bytes of data, or at most one interval reported lost. *)
Definition small (payload : Z) (p : UdtPacket) : Prop :=
  match p with
  | Data d => len (UdtDataPacket.data d) <= payload
  | Control c => match UdtControlPacket.packet_type c with
                 | Nak n => (length (NakInfo.loss_info n) <= 2)%nat
                 | _ => True
                 end
  end.

Definition small_event (payload : Z) (e : event) : Prop :=
  match e with SendTo _ p => small payload p | _ => True end.

(** The largest control packet is a handshake, of 48 bytes after its header. *)
Lemma control_field_size t : wf_packet_type t →
  match t with Nak n => length (NakInfo.loss_info n) <= 2 | _ => True end%nat →
  (length (ControlPacketType.control_info_field t) <= 48)%nat.
Proof.
  intros Ht Hs. destruct t as [hs| |a|n| | |d|]; cbn [ControlPacketType.control_info_field length]; try lia.
  - destruct Ht as (_ & _ & Hip). unfold HandShakeInfo.serialize.
    rewrite !length_app, length_words, !length_to_be_bytes, length_ip_to_bytes by done. cbn [length]. lia.
  - unfold AckInfo.serialize. destruct (AckInfo.info a); rewrite ?length_words, ?length_to_be_bytes; cbn [length]; lia.
  - unfold NakInfo.serialize. rewrite length_words. lia.
  - unfold DropRequestInfo.serialize. rewrite length_words. cbn [length]. lia.
Qed.

Lemma small_size `{Profile} payload p raw : 48 <= payload → wf_packet p → small payload p →
  UdtPacket.serialize p = Ok raw → len raw <= Z.of_nat UDT_DATA_HEADER_SIZE + payload.
Proof.
  intros Hpay Hwf Hs. unfold UDT_DATA_HEADER_SIZE, len. destruct p as [[t r info time id]|[h d]]; cbn [UdtPacket.serialize].
  - intros [= <-]. unfold UdtControlPacket.serialize. rewrite !length_app, !length_to_be_bytes. destruct Hwf as [Ht _].
    pose proof (control_field_size t Ht Hs). simpl. lia.
  - unfold UdtDataPacket.serialize. intros (hd & Hh & [= <-])%bind_is_Ok.
    unfold UdtDataPacketHeader.serialize in Hh. apply bind_is_Ok in Hh as (b1 & _ & Hh).
    apply bind_is_Ok in Hh as (b2 & _ & Hh). apply (inj Ok) in Hh as <-. rewrite !length_app, !length_to_be_bytes. simpl in Hs. unfold len in Hs. lia.
Qed.

(** ** Sockets *)

Section sockets.
Context `{Profile} `{Env} `{FloatLib} (payload capacity : Z).

Record bounded_buffer (b : SndBuffer.t) : Prop := {
  bb_payload : Z.of_nat (SndBuffer.payload_size b) <= payload;
  bb_blocks : Forall (λ x, len (SndBufferBlock.data x) <= payload) (SndBuffer.buffer b);
  bb_capacity : SndBuffer.max_size b = capacity;
  bb_length : len (SndBuffer.buffer b) <= capacity
}.
Definition bounded (s : UdtSocket.t) : Prop := bounded_buffer (UdtSocket.snd_buffer s).

Definition stays_bounded (s s' : UdtSocket.t) : Prop := bounded s → bounded s'.
#[local] Instance stays_bounded_preorder : PreOrder stays_bounded.
Proof. split; unfold stays_bounded; auto. Qed.
Local Notation modest m := (all_runs (evolves stays_bounded (small_event payload)) m).

(** *** The send buffer *)

Lemma chunks_bounded {A} n (l : list A) c : c ∈ chunks n l → (length c <= n)%nat.
Proof.
  unfold chunks. generalize (length l). intros fuel. revert l.
  induction fuel as [|fuel IH]; intros [|x l]; try by intros ?%not_elem_of_nil.
  rewrite chunks_fuel_cons by done. intros [->|Hc]%elem_of_cons; [rewrite length_take; lia|by eapply IH].
Qed.

Lemma add_message_bounded now data ttl io b b' : SndBuffer.add_message now data ttl io b = Ok b' →
  bounded_buffer b → bounded_buffer b'.
Proof.
  unfold SndBuffer.add_message. destruct (_ =? _)%nat; [done|]. cbv zeta.
  destruct (Z.gtb_spec (len (SndBuffer.buffer b) + len (chunks (SndBuffer.payload_size b) data)) (SndBuffer.max_size b)) as [?|Hle]; [done|].
  intros [= <-] [Hp Hb Hc Hl]. split; simpl; [done| |done|].
  - apply Forall_app. split; [done|]. apply Forall_lookup. intros i x. rewrite list_lookup_imap.
    intros (c & Hin & ->)%fmap_Some. simpl. apply list_elem_of_lookup_2, chunks_bounded in Hin. unfold len. lia.
  - unfold len in *. rewrite length_app, length_imap. lia.
Qed.

Lemma ack_data_bounded n b b' : SndBuffer.ack_data n b = Ok b' → bounded_buffer b → bounded_buffer b'.
Proof.
  unfold SndBuffer.ack_data. generalize (Z.to_nat n). clear n. intros n. revert b.
  induction n as [|n IH]; intros b; [by intros [= <-]|]. cbn [SndBuffer.pop_acked].
  destruct (SndBuffer.buffer b) as [|x rest] eqn:E; [by apply IH|].
  intros (pos & _ & Hp)%bind_is_Ok [Hpay Hb Hc Hl]. eapply IH; [done|]. rewrite E in Hb, Hl.
  apply Forall_cons in Hb as [_ Hb]. split; try done. unfold len in *. simpl in *. lia.
Qed.

(** *** The methods *)

Ltac bounds_fields := intros; unfold stays_bounded, bounded in *;
  repeat match goal with
  | H : _ ≫= _ = Ok _ |- _ => apply bind_is_Ok in H as (? & ? & H); cbv beta in H
  | H : Ok _ = Ok _ |- _ => apply (inj Ok) in H; subst
  end; repeat case_match; simpl in *; eauto using add_message_bounded, ack_data_bounded.
Ltac modestly := unfold_access; evolve ltac:(idtac; bounds_fields) ltac:(idtac; eauto with modest).
Create HintDb modest discriminated.
#[local] Hint Extern 1 (small_event _ _) => exact I : modest.
#[local] Hint Extern 1 (small _ _) => exact I : modest.

Lemma modest_diff a b : modest (diff a b).
Proof. apply evolves_lift, _. Qed.
#[local] Hint Resolve modest_diff : modest.
Lemma modest_send_to addr p : small payload p → modest (send_to addr p).
Proof. intros. unfold send_to. modestly. Qed.
#[local] Hint Resolve modest_send_to : modest.
Lemma modest_send_packet p : small payload p → modest (send_packet p).
Proof. intros. unfold send_packet. modestly. Qed.
Lemma modest_update_snd_queue b : modest (update_snd_queue b).
Proof. unfold update_snd_queue. modestly. Qed.
Lemma modest_notify_all : modest notify_all.
Proof. unfold notify_all. modestly. Qed.
Lemma modest_cc_update : modest cc_update.
Proof. unfold cc_update. modestly. Qed.
Lemma modest_set_status v : modest (set_status v).
Proof. unfold set_status. modestly. Qed.
#[local] Hint Resolve modest_send_packet modest_update_snd_queue modest_notify_all modest_cc_update
  modest_set_status : modest.

Lemma modest_on_handshake hs : modest (on_handshake hs).
Proof. unfold on_handshake. modestly. Qed.
Lemma modest_on_light_ack seq : modest (on_light_ack seq).
Proof. unfold on_light_ack. modestly. Qed.
Lemma modest_send_ack2 n : modest (send_ack2 n).
Proof. unfold send_ack2. modestly. Qed.
Lemma modest_ack_received n available : modest (ack_received n available).
Proof. unfold ack_received. modestly. Qed.
Lemma modest_ack_statistics n extra : modest (ack_statistics n extra).
Proof. unfold ack_statistics. modestly. Qed.
#[local] Hint Resolve modest_on_light_ack modest_send_ack2 modest_ack_received modest_ack_statistics : modest.
Lemma modest_on_ack c a : modest (on_ack c a).
Proof. unfold on_ack. modestly. Qed.
Lemma modest_on_ack2 c : modest (on_ack2 c).
Proof. unfold on_ack2. modestly. Qed.
Lemma modest_on_nak n : modest (on_nak n).
Proof. unfold on_nak. modestly. Qed.
Lemma modest_on_drop_request c d : modest (on_drop_request c d).
Proof. unfold on_drop_request. modestly. Qed.
#[local] Hint Resolve modest_on_handshake modest_on_ack modest_on_ack2 modest_on_nak modest_on_drop_request : modest.
Lemma modest_process_ctrl c : modest (process_ctrl c).
Proof. unfold process_ctrl. modestly. Qed.

Lemma small_nak first last id : small payload (Control (UdtControlPacket.new_nak (nak_words first last) id)).
Proof. simpl. unfold nak_words. destruct (_ =? _); simpl; lia. Qed.
#[local] Hint Resolve small_nak : modest.
Lemma modest_report_gap seq : modest (report_gap seq).
Proof. unfold report_gap. modestly. Qed.
Lemma modest_record_arrival t n : modest (record_arrival t n).
Proof. unfold record_arrival. modestly. Qed.
Lemma modest_finish_data n seq : modest (finish_data n seq).
Proof. unfold finish_data. modestly. Qed.
#[local] Hint Resolve modest_process_ctrl modest_report_gap modest_record_arrival modest_finish_data : modest.
Lemma modest_process_data p : modest (process_data p).
Proof. unfold process_data. modestly. Qed.
#[local] Hint Resolve modest_process_data : modest.
Lemma modest_process_packet p : modest (process_packet p).
Proof. unfold process_packet. modestly. Qed.

Lemma modest_advance_ack n : modest (advance_ack n).
Proof. unfold advance_ack. modestly. Qed.
Lemma modest_ack_info : modest ack_info.
Proof. unfold ack_info. modestly. Qed.
#[local] Hint Resolve modest_advance_ack modest_ack_info : modest.
Lemma modest_send_full_ack : modest send_full_ack.
Proof. unfold send_full_ack. modestly. Qed.
#[local] Hint Resolve modest_send_full_ack : modest.
Lemma modest_send_ack light : modest (send_ack light).
Proof. unfold send_ack. modestly. Qed.
#[local] Hint Resolve modest_send_ack : modest.
Lemma modest_ack_timer t : modest (ack_timer t).
Proof. unfold ack_timer. modestly. Qed.
Lemma modest_exp_timer t : modest (exp_timer t).
Proof. unfold exp_timer, resend_or_keep_alive. modestly. Qed.
#[local] Hint Resolve modest_ack_timer modest_exp_timer : modest.
Lemma modest_check_timers : modest check_timers.
Proof. unfold check_timers. modestly. Qed.

Lemma modest_send data : modest (send data).
Proof. unfold send. modestly. Qed.
Lemma modest_check_readable : modest check_readable.
Proof. unfold check_readable. modestly. Qed.
Lemma modest_check_stream : modest check_stream.
Proof. unfold check_stream. modestly. Qed.
Lemma modest_read_rcv_buffer buf : modest (read_rcv_buffer buf).
Proof. unfold read_rcv_buffer. modestly. Qed.
#[local] Hint Resolve modest_check_readable modest_check_stream modest_read_rcv_buffer : modest.
Lemma modest_poll_recv buf : modest (poll_recv buf).
Proof. unfold poll_recv. modestly. Qed.
Lemma modest_recv_finish buf : modest (recv_finish buf).
Proof. unfold recv_finish. modestly. Qed.
Lemma modest_close_finish : modest close_finish.
Proof. unfold close_finish. modestly. Qed.

Lemma modest_send_data_packets packets : Forall (λ p, small payload (Data p)) packets →
  modest (send_data_packets packets).
Proof.
  intros Hp. unfold send_data_packets. modestly. induction Hp as [|p packets Hp _ IH]; simpl; modestly.
Qed.

(** *** The packets that the sending worker is given *)

(** A method that keeps the bounds of the socket it starts from, and the value it returns. *)
Definition yields {A} (m : SM A) (Q : A → Prop) : Prop := ∀ w, bounded (sock w) →
  evolves stays_bounded (small_event payload) w (m w).2 ∧ ∀ a, (m w).1 = Ok a → Q a.

Lemma yields_modest {A} (m : SM A) : modest m → yields m (λ _, True).
Proof. intros Hm w _. split; [apply Hm|done]. Qed.

Lemma yields_ret {A} (a : A) (Q : A → Prop) : Q a → yields (mret a) Q.
Proof. intros HQ w _. split; [apply evolves_ret, _|]. by intros b [= <-]. Qed.

Lemma yields_lift {A} (o : outcome A) : yields (lift o) (λ a, o = Ok a).
Proof. intros w _. split; [apply evolves_lift, _|]. by intros a Ha. Qed.

Lemma yields_get : yields get bounded.
Proof. intros w Hw. split; [apply evolves_get, _|]. by intros a [= <-]. Qed.

Lemma yields_bind {A B} (m : SM A) (f : A → SM B) (P : A → Prop) (Q : B → Prop) :
  yields m P → (∀ a, P a → yields (f a) Q) → yields (m ≫= f) Q.
Proof.
  intros Hm Hf w Hw. destruct (Hm w Hw) as [He HP]. rewrite bind_run.
  destruct (m w) as [[a|e|] w1]; cbn [fst snd] in *; [|done..].
  destruct (Hf a (HP a eq_refl) w1) as [He' HQ]; [by apply He|]. split; [by etransitivity|done].
Qed.

Lemma yields_weaken {A} (m : SM A) (Q : A → Prop) : modest m → (∀ a, Q a) → yields m Q.
Proof. intros Hm HQ w _. split; [apply Hm|auto]. Qed.

Definition small_batch (packets : list UdtDataPacket.t) : Prop := Forall (λ p, small payload (Data p)) packets.

Lemma buffer_packet_small now seq id start (b : SndBuffer.t) i block : bounded_buffer b →
  SndBuffer.buffer b !! i = Some block →
  small payload (Data (SndBufferBlock.as_data_packet now seq id start block)).
Proof. intros Hb Hi. pose proof (bb_blocks b Hb) as Hall. rewrite Forall_lookup in Hall. by apply (Hall i). Qed.

Lemma yields_read_block offset seq : yields (read_block offset seq) (λ r,
  match r with inl p => small payload (Data p) | inr _ => True end).
Proof.
  unfold read_block. eapply yields_bind; [apply yields_modest; modestly|]. intros peer _.
  eapply yields_bind; [apply yields_lift|]. intros id _.
  eapply yields_bind; [apply yields_modest; modestly|]. intros expiry _.
  eapply yields_bind; [apply yields_modest; modestly|]. intros time _.
  eapply yields_bind; [apply yields_get|]. intros s Hs. unfold SndBuffer.read_data.
  destruct (SndBuffer.buffer (UdtSocket.snd_buffer s) !! offset) as [block|] eqn:El.
  1: destruct (SndBufferBlock.has_expired expiry block).
  all: eapply yields_bind; [|intros _ _; apply yields_ret; by try eapply buffer_packet_small].
  all: apply yields_modest, evolves_modify; intros s' _; destruct Hs as [? ? ? ?].
  all: unfold bounded; simpl; try case_match; by split.
Qed.

Lemma yields_fetch_new now : yields (fetch_new now) (λ r,
  match r with Some (packets, _) => small_batch packets | None => True end).
Proof.
  unfold fetch_new, reset_pacing. eapply yields_bind; [apply yields_get|]. intros s Hs.
  eapply yields_bind; [apply yields_modest; modestly|]. intros d _.
  destruct (_ >? _).
  { eapply yields_bind; [apply yields_modest; modestly|]. intros _ _. by apply yields_ret. }
  eapply yields_bind; [apply yields_lift|]. intros id _.
  eapply yields_bind; [apply yields_modest; modestly|]. intros times _.
  eapply yields_bind; [apply yields_lift|]. intros [packets b] Hf.
  assert (bounded_buffer b ∧ small_batch packets) as [Hb Hp].
  { unfold SndBuffer.fetch_batch in Hf. destruct (_ >? _); [done|]. apply bind_is_Ok in Hf as (pos & _ & [= <- <-]).
    split; [destruct Hs; by split|]. apply Forall_lookup. intros i p. rewrite list_lookup_imap.
    intros (block & Hl & ->)%fmap_Some. apply lookup_take_Some in Hl as [Hl _]. rewrite lookup_drop in Hl.
    by eapply buffer_packet_small. }
  eapply yields_bind; [apply yields_modest, evolves_modify; by intros s' _|]. intros _ _.
  destruct packets as [|p packets].
  - eapply yields_bind; [apply yields_modest; modestly|]. intros _ _. by apply yields_ret.
  - do 2 (eapply yields_bind; [apply yields_modest; modestly|]; intros _ _). by apply yields_ret.
Qed.

Lemma modest_pace now n : modest (pace now n).
Proof. unfold pace. modestly. Qed.
Lemma modest_drop_expired seq msg n : modest (drop_expired seq msg n).
Proof. unfold drop_expired. modestly. Qed.

Lemma modest_begin_data_packets : modest begin_data_packets.
Proof.
  unfold begin_data_packets, take_lost. modestly.
Qed.

Lemma yields_finish_data_packets now to_resend : yields (finish_data_packets now to_resend) (λ r,
  match r with Some (packets, _) => small_batch packets | None => True end).
Proof.
  unfold finish_data_packets. destruct to_resend as [[seq offset]|].
  - destruct (offset <? 0); [by apply yields_ret|].
    eapply yields_bind; [apply yields_read_block|]. intros [p|[msg n]] Hr.
    + eapply yields_bind; [apply yields_modest, modest_pace|]. intros t _. apply yields_ret. by constructor.
    + destruct (n =? 0)%nat; [by apply yields_ret|].
      eapply yields_bind; [apply yields_modest, modest_drop_expired|]. intros _ _. by apply yields_ret.
  - eapply yields_bind; [apply yields_fetch_new|]. intros [[packets []]|] Hp; [by apply yields_ret| |by apply yields_ret].
    eapply yields_bind; [apply yields_modest, modest_pace|]. intros t _. by apply yields_ret.
Qed.

(** ** The two ends *)

Record bounded_end (e : endpoint) : Prop := {
  be_socket : bounded (Endpoint.socket e);
  be_prepared : Forall small_batch (Endpoint.prepared e);
  be_trace : Forall (small_event payload) (trace (Endpoint.world e))
}.

Lemma end_evolves e w live begun prepared written blocks read : bounded_end e →
  evolves stays_bounded (small_event payload) (Endpoint.world e) w → Forall small_batch prepared →
  bounded_end (Endpoint.mk w live begun prepared written blocks read).
Proof.
  intros [Hs _ Ht] [Hw (evs & Et & He)] Hp. split; simpl; [by apply Hw|done|]. rewrite Et. by apply Forall_app.
Qed.

Lemma perform_bounded a e : bounded_end e → bounded_end (Endpoint.perform a e).
Proof.
  intros He. pose proof (be_prepared e He) as Hpr.
  assert (∀ A (m : SM A) live begun written blocks read, modest m →
    bounded_end (Endpoint.mk (m (Endpoint.world e)).2 live begun (Endpoint.prepared e) written blocks read)) as Hkeep
    by (intros; apply (end_evolves e); auto).
  assert (∀ m, modest m → bounded_end (Endpoint.serve m e)) as Hserve.
  { intros m Hm. unfold Endpoint.serve. destruct (Endpoint.live e); [|done].
    pose proof (Hkeep _ m (is_ok (m (Endpoint.world e)).1) (Endpoint.begun e) (Endpoint.written e) (Endpoint.blocks e) (Endpoint.read e) Hm).
    by destruct (m (Endpoint.world e)). }
  destruct a as [data| | | |room|room| | | | |p]; simpl.
  - unfold Endpoint.write. pose proof (λ l bg wr b r, Hkeep _ (send data) l bg wr b r (modest_send data)) as Hk.
    destruct (send data (Endpoint.world e)). apply Hk.
  - unfold Endpoint.begin. destruct (Endpoint.begun e) as [x|]; [done|].
    pose proof (λ l bg wr b r, Hkeep _ begin_data_packets l bg wr b r modest_begin_data_packets) as Hk.
    destruct (begin_data_packets (Endpoint.world e)). apply Hk.
  - unfold Endpoint.finish. destruct (Endpoint.begun e) as [[now to_resend]|]; [|done].
    destruct (yields_finish_data_packets now to_resend (Endpoint.world e) (be_socket e He)) as [Hev Hv].
    destruct (finish_data_packets now to_resend (Endpoint.world e)) as [o w]. cbn [fst snd] in *.
    apply (end_evolves e); [done..|].
    apply Forall_app. split; [done|]. destruct o as [[[packets t]|]|err|]; [|constructor..].
    constructor; [|constructor]. exact (Hv _ eq_refl).
  - unfold Endpoint.transmit. destruct (Endpoint.prepared e) as [|packets rest]; [done|].
    apply Forall_cons in Hpr as [Hp Hrest]. apply (end_evolves e); [done| |done]. by apply modest_send_data_packets.
  - unfold Endpoint.poll. pose proof (λ l bg wr b r, Hkeep _ _ l bg wr b r (modest_poll_recv (ReadBuf.mk [] room))) as Hk.
    destruct (poll_recv _ (Endpoint.world e)). apply Hk.
  - unfold Endpoint.recv. pose proof (λ l bg wr b r, Hkeep _ _ l bg wr b r (modest_recv_finish (ReadBuf.mk [] room))) as Hk.
    destruct (recv_finish _ (Endpoint.world e)). apply Hk.
  - apply Hserve, modest_check_timers.
  - apply Hkeep, modest_close_finish.
  - apply Hkeep, modest_set_status.
  - by destruct He.
  - unfold Endpoint.receive. destruct (UdtStatus.is_alive _); [|done]. by apply Hserve, modest_process_packet.
Qed.
End sockets.

Section datagrams.
Context `{Profile} `{FloatLib} (env : side → Env) (payload capacity : Z).

Definition bounded_system (sys : system) : Prop :=
  bounded_end payload capacity (client sys) ∧ bounded_end payload capacity (server sys).

Lemma bounded_put i e sys : bounded_end payload capacity e → bounded_system sys → bounded_system (put i e sys).
Proof. intros He [? ?]. by destruct i. Qed.

Lemma datagram_step_bounded sys sys' : datagram_step env sys sys' → bounded_system sys → bounded_system sys'.
Proof.
  intros Hstep Hsys. assert (∀ i, bounded_end payload capacity (at_side i sys)) as Hi by (destruct Hsys; by intros []).
  destruct Hstep; apply bounded_put; try done; by apply perform_bounded.
Qed.

(** C34. Nothing outgrows its bounds.  Let the send buffers of both ends be bounded by
    [capacity] blocks, and packets by [payload] bytes of data, at least the 48 of a
    handshake.  Whatever both ends do and whatever regular packets others inject, no send
    buffer ever holds more than [capacity] blocks, and no datagram that is sent is longer
    than the header and [payload] bytes: a loss report never has more than one interval. *)
Theorem sizes_bounded sys0 sys :
  48 <= payload → typed_system sys0 → bounded_system sys0 → rtc (datagram_step env) sys0 sys →
  ∀ i, len (SndBuffer.buffer (UdtSocket.snd_buffer (Endpoint.socket (at_side i sys)))) <= capacity
  ∧ ∀ addr p, SendTo addr p ∈ trace (Endpoint.world (at_side i sys)) →
    ∃ raw, UdtPacket.serialize p = Ok raw ∧ len raw <= Z.of_nat UDT_DATA_HEADER_SIZE + payload.
Proof.
  intros Hpay Ht0 Hb0 Hrun i.
  assert (typed_system sys ∧ bounded_system sys) as [Ht Hb].
  { induction Hrun as [|? ? ? Hstep _ IH]; [done|].
    apply IH; [by eapply datagram_step_typed|by eapply datagram_step_bounded]. }
  assert (typed_end (at_side i sys) ∧ bounded_end payload capacity (at_side i sys)) as [[_ _ _ Hreg] [Hsock _ Htr]]
    by (destruct Ht, Hb; by destruct i).
  split; [by apply (bb_length payload capacity)|]. intros addr p Hp. rewrite Forall_forall in Hreg, Htr.
  pose proof (Hreg _ Hp) as [Hwf _]. pose proof (Htr _ Hp) as Hsm. simpl in Hsm.
  pose proof (packet_survives p Hwf) as Hsur. destruct (UdtPacket.serialize p) as [raw|err|] eqn:E; [|done..].
  exists raw. split; [done|]. by eapply small_size.
Qed.
End datagrams.

(** *** Witness *)

Lemma sample_bounded : bounded_end 1500 DEFAULT_UDT_BUF_SIZE sample_end.
Proof. split; [|by repeat constructor|by repeat constructor]. split; [by vm_compute|by apply Forall_nil_2|done|by vm_compute]. Qed.

Lemma sizes_bounded_witness :
  Forall (λ p, ∃ raw, @UdtPacket.serialize true p = Ok raw ∧ len raw <= 1516) (sent_packets (client sample_written))
  ∧ length (sent_packets (client sample_written)) = 1%nat.
Proof.
  assert (∀ sys, rtc (@datagram_step true sample_float (λ _, sample_env)) sample_system sys →
    Forall (λ p, ∃ raw, @UdtPacket.serialize true p = Ok raw ∧ len raw <= 1516) (sent_packets (client sys))) as Hsys.
  { intros sys Hrun. destruct (@sizes_bounded true sample_float (λ _, sample_env) 1500 DEFAULT_UDT_BUF_SIZE sample_system sys ltac:(lia)
      (conj sample_typed sample_typed) (conj sample_bounded sample_bounded) Hrun Client) as [_ Hsent].
    apply Forall_forall. intros p Hp. apply list_elem_of_omap in Hp as (ev & Hev & Hp).
    destruct ev as [addr q| | | | | |]; try discriminate. injection Hp as ->. exact (Hsent addr p Hev). }
  split; [exact (Hsys sample_written sample_written_steps)|by vm_compute].
Defined.
