(* ===== verification/datagram_stream.v ===== *)
(** * A connection over UDP

    The network of [stream] carries packets; here it carries datagrams.  A datagram is
    written to a slot of the buffer of the other end, which cuts what is too long, and what
    the parser makes of the slot is delivered.  When the slots of both ends are large
    enough for the packets of both, as they are when both ends are configured for the same
    packet size, nothing is cut ([bounds], [wire_types]), and the stream is reliable. *)

From stdpp Require Import relations.
From S2P Require Import prelude seq_number time data_packet control_packet packet.
From S2P Require Import btree_map loss_list ack_window rcv_buffer snd_buffer float flow.
From S2P Require Import configuration rate_control socket_state world socket samples.
From S2P Require Import stream_invariant stream listener wire_types bounds.

(** ** The network *)

Section network.
Context `{Profile} `{FloatLib} (env : side → Env) (slot : side → nat).

(** [slot i]: the size of the slots in which the multiplexer of end [i] receives. *)
Inductive slot_step (sys : system) : system → Prop :=
  | slot_act i a : (∀ p, a ≠ Endpoint.Receive p) →
      slot_step sys (put i (@Endpoint.perform _ (env i) _ a (at_side i sys)) sys)
  | slot_deliver i addr p raw p' : SendTo addr p ∈ trace (Endpoint.world (at_side (other i) sys)) →
      UdtPacket.serialize p = Ok raw → UdtPacket.deserialize (take (slot i) raw) = Ok p' →
      slot_step sys (put i (@Endpoint.perform _ (env i) _ (Endpoint.Receive p') (at_side i sys)) sys)
  | slot_forged i p : forgeable p → regular p →
      slot_step sys (put i (@Endpoint.perform _ (env i) _ (Endpoint.Receive p) (at_side i sys)) sys).

(** No acknowledgement moves the send buffer under a retransmission. *)
Definition calm_slot_step (sys sys' : system) : Prop := slot_step sys sys' ∧ undisturbed sys sys'.

(** What the parser makes of a whole packet is the packet, or a handshake that anyone may
    send. *)
Lemma canonical_forgeable p : canonical_packet p = p ∨ forgeable (canonical_packet p).
Proof.
  destruct p as [[t r info time id]|d]; [|by left].
  destruct t as [hs| | | | | | |]; [right; by destruct hs|by left..].
Qed.

Context (payload capacity : Z).
Hypothesis Hpayload : 48 <= payload.
Hypothesis Hslot : ∀ i, Z.of_nat UDT_DATA_HEADER_SIZE + payload <= Z.of_nat (slot i).

(** Datagrams that fit arrive whole. *)
Lemma slot_step_whole sys sys' : typed_system sys → bounded_system payload capacity sys →
  slot_step sys sys' → step env sys sys' ∧ datagram_step env sys sys'.
Proof.
  intros Ht Hb [i a Ha|i addr p raw p' Hp Hs Hd|i p Hf Hr].
  - split; by constructor.
  - assert (typed_end (at_side (other i) sys) ∧ bounded_end payload capacity (at_side (other i) sys))
      as [[_ _ _ Hreg] [_ _ Hsm]] by (destruct Ht, Hb; by destruct i).
    rewrite Forall_forall in Hreg, Hsm. pose proof (Hreg _ Hp) as [Hwf _]. pose proof (Hsm _ Hp) as Hsmall. simpl in Hsmall.
    pose proof (small_size payload p raw Hpayload Hwf Hsmall Hs) as Hsize. unfold len in Hsize. specialize (Hslot i).
    rewrite take_ge in Hd by lia. split; [|by eapply datagram_deliver].
    pose proof (packet_survives p Hwf) as Hsur. rewrite Hs in Hsur. simpl in Hsur. rewrite Hd in Hsur.
    injection Hsur as ->. apply step_deliver.
    destruct (canonical_forgeable p) as [->|Hf]; [left; by exists addr|by right].
  - split; [|by apply datagram_forged]. apply step_deliver. by right.
Qed.

Lemma slot_run_whole sys0 sys : typed_system sys0 → bounded_system payload capacity sys0 →
  rtc calm_slot_step sys0 sys → rtc (calm_step env) sys0 sys.
Proof.
  intros Ht Hb Hrun. induction Hrun as [|sys0 sys1 sys [Hstep Hcalm] _ IH]; [done|].
  destruct (slot_step_whole _ _ Ht Hb Hstep) as [Hstep' Hd]. eapply rtc_l; [by split|].
  apply IH; [by eapply datagram_step_typed|by eapply datagram_step_bounded].
Qed.
End network.

(** Two ends of a new connection, whose fields fit their widths, whose blocks are at most
    [payload] bytes long, and whose slots hold a packet of either end. *)
Record new_connection (isn payload capacity : Z) (slot : side → nat) (sys : system) : Prop := {
  nc_client : fresh isn (client sys);
  nc_server : fresh isn (server sys);
  nc_typed : typed_system sys;
  nc_bounded : bounded_system payload capacity sys;
  nc_payload : 48 <= payload;
  nc_slot i : Z.of_nat UDT_DATA_HEADER_SIZE + payload <= Z.of_nat (slot i)
}.

(** ** Reliable, ordered delivery *)

(** C1. Reliable, ordered delivery.  Two ends with a new connection exchange datagrams over
    a network that loses, repeats, delays and reorders them, and into which others forge
    any control packet except an acknowledgement, a request to drop a message and a
    malformed loss report, while their applications write, read and close and their workers
    run or stop in any order.  At every moment what has arrived in order at an end (what
    its application has read, then what it can read) is a beginning of what the
    application of the other end has written; and nothing is lost: the blocks that the
    sender no longer keeps are among those that have arrived in order.

    The hypotheses: both ends have slots for the packets of both; fewer numbers are given
    out than are left before the wrap-around point ([in_range]); and no acknowledgement
    releases blocks while the sending worker is between the two locks of a retransmission
    ([undisturbed]), without which the conclusion fails ([resend_race_corrupts]). *)
Theorem reliable_stream `{Profile} `{FloatLib} (env : side → Env) slot payload capacity isn sys0 sys i :
  new_connection isn payload capacity slot sys0 → rtc (calm_slot_step env slot) sys0 sys →
  in_range isn (client sys) → in_range isn (server sys) →
  let sender := at_side i sys in
  let receiver := at_side (other i) sys in
  (∃ in_flight, Endpoint.written sender = delivered receiver ++ in_flight)
  ∧ ∃ released not_released, Endpoint.written sender = released ++ retained sender
    ∧ delivered receiver = released ++ not_released.
Proof.
  intros [Hc0 Hs0 Ht Hb Hp Hsl] Hrun. apply (stream_parts env isn sys0 sys i Hc0 Hs0).
  by apply (slot_run_whole env slot payload capacity Hp Hsl).
Qed.

(** C2. What [poll_flush] waits for is worth waiting for: in the runs of [reliable_stream],
    and under its hypotheses (no forged acknowledgement, whole datagrams, no wrap-around,
    no acknowledgement between the two locks of a retransmission), once it is ready,
    everything that the application has written has arrived at the other end, in order: it
    has been read or can be read. *)
Theorem flushed_is_delivered `{Profile} `{FloatLib} (env : side → Env) slot payload capacity isn sys0 sys i :
  new_connection isn payload capacity slot sys0 → rtc (calm_slot_step env slot) sys0 sys →
  in_range isn (client sys) → in_range isn (server sys) →
  (UdtConnection.poll_flush (Endpoint.world (at_side i sys))).1 = Ok (UdtConnection.Ready (Ok ())) →
  delivered (at_side (other i) sys) = Endpoint.written (at_side i sys).
Proof.
  intros [Hc0 Hs0 Ht Hb Hp Hsl] Hrun. apply (flushed_parts env isn sys0 sys i Hc0 Hs0).
  by apply (slot_run_whole env slot payload capacity Hp Hsl).
Qed.

(** ** Witnesses *)

Definition sample_slot (i : side) : nat := 1516.

Local Notation sample_step := (@calm_slot_step true sample_float (λ _, sample_env) sample_slot).

(** Neither end is in the middle of a retransmission. *)
Definition settled (sys : system) : bool := negb (retransmitting (client sys)) && negb (retransmitting (server sys)).

Lemma settled_undisturbed sys sys' : settled sys = true → undisturbed sys sys'.
Proof.
  intros [Hc%negb_true_iff Hs%negb_true_iff]%andb_true_iff i Hi. destruct i; simpl in Hi; congruence.
Qed.

(** A run, as a script: an end acts, or packet [n] of those that the other end has sent
    arrives in its datagram. *)
Inductive move := Act (i : side) (a : Endpoint.action) | Deliver (i : side) (n : nat).

Definition deliver (i : side) (n : nat) (sys : system) : system :=
  match sent_packets (at_side (other i) sys) !! n with
  | Some p =>
      match UdtPacket.serialize (H := true) p ≫= λ raw, UdtPacket.deserialize (take (sample_slot i) raw) with
      | Ok p' => act i (Endpoint.Receive p') sys
      | _ => sys
      end
  | None => sys
  end.

Definition play_move (m : move) (sys : system) : system :=
  match m with
  | Act _ (Endpoint.Receive _) => sys
  | Act i a => act i a sys
  | Deliver i n => deliver i n sys
  end.

Fixpoint play (ms : list move) (sys : system) : system :=
  match ms with [] => sys | m :: ms => play ms (play_move m sys) end.

Lemma sent_in_trace e n p : sent_packets e !! n = Some p → ∃ addr, SendTo addr p ∈ trace (Endpoint.world e).
Proof.
  intros (ev & Hev & Hp)%list_elem_of_lookup_2%list_elem_of_omap.
  destruct ev as [addr q| | | | | |]; try done. injection Hp as ->. by exists addr.
Qed.

Lemma play_move_step m sys :
  play_move m sys = sys ∨ @slot_step true sample_float (λ _, sample_env) sample_slot sys (play_move m sys).
Proof.
  destruct m as [i a|i n]; simpl.
  - destruct a; try (right; by apply (@slot_act true sample_float (λ _, sample_env) sample_slot sys i)). by left.
  - unfold deliver. destruct (sent_packets _ !! n) as [p|] eqn:E; [|by left].
    destruct (UdtPacket.serialize p) as [raw| |] eqn:Er; [|by left..]. cbn [mbind outcome_bind].
    destruct (UdtPacket.deserialize _) as [p'| |] eqn:Ed; [|by left..].
    destruct (sent_in_trace _ _ _ E) as [addr Hp]. right.
    by apply (@slot_deliver true sample_float (λ _, sample_env) sample_slot sys i addr p raw p').
Qed.

Lemma play_steps ms sys : rtc (@slot_step true sample_float (λ _, sample_env) sample_slot) sys (play ms sys).
Proof.
  revert sys. induction ms as [|m ms IH]; intros sys; [done|]. simpl.
  destruct (play_move_step m sys) as [E|Hs]; [rewrite E; apply IH|]. eapply rtc_l; [exact Hs|apply IH].
Qed.

(** A script that lets every retransmission finish before anything else. *)
Fixpoint all_settled (ms : list move) (sys : system) : bool :=
  match ms with [] => true | m :: ms => settled sys && all_settled ms (play_move m sys) end.

Lemma play_calm ms sys : all_settled ms sys = true → rtc sample_step sys (play ms sys).
Proof.
  revert sys. induction ms as [|m ms IH]; intros sys; [done|]. simpl. intros [Hs Hms]%andb_true_iff.
  destruct (play_move_step m sys) as [E|Hstep]; [rewrite E in *; by apply IH|].
  eapply rtc_l; [|by apply IH]. split; [exact Hstep|by apply settled_undisturbed].
Qed.

(** The client writes, the packet arrives twice, it is acknowledged and read. *)
Definition sample_script : list move :=
  [Act Client (Endpoint.Write [1; 2; 3]); Act Client Endpoint.Begin; Act Client Endpoint.Finish;
   Act Client Endpoint.Transmit; Deliver Server 0; Deliver Server 0; Act Server Endpoint.Timers;
   Act Server (Endpoint.Recv 2000); Deliver Client 0].
Definition sample_run : system := play sample_script sample_system.

Lemma sample_new_connection : new_connection 100 1500 DEFAULT_UDT_BUF_SIZE sample_slot sample_system.
Proof.
  split; [apply sample_fresh|apply sample_fresh|split; apply sample_typed|split; apply sample_bounded|lia|].
  intros i. unfold sample_slot, UDT_DATA_HEADER_SIZE. lia.
Qed.

Lemma sample_run_calm : rtc sample_step sample_system sample_run.
Proof. apply play_calm. vm_compute. reflexivity. Qed.

Lemma reliable_stream_witness :
  (∃ in_flight, Endpoint.written (client sample_run) = delivered (server sample_run) ++ in_flight)
  ∧ Endpoint.written (client sample_run) = [1; 2; 3]
  ∧ Endpoint.read (server sample_run) = [1; 2; 3] ∧ retained (client sample_run) = [].
Proof.
  assert (∀ sys, rtc sample_step sample_system sys → in_range 100 (client sys) → in_range 100 (server sys) →
    ∃ in_flight, Endpoint.written (client sys) = delivered (server sys) ++ in_flight) as Hsys.
  { intros sys Hrun Hc Hs. destruct (@reliable_stream true sample_float (λ _, sample_env) sample_slot
      1500 DEFAULT_UDT_BUF_SIZE 100 sample_system sys Client sample_new_connection Hrun Hc Hs) as [Hprefix _]. exact Hprefix. }
  split; [|by vm_compute]. apply (Hsys sample_run sample_run_calm); by vm_compute.
Defined.

Lemma flushed_is_delivered_witness :
  Endpoint.written (client sample_run) = [1; 2; 3]
  ∧ delivered (server sample_run) = Endpoint.written (client sample_run).
Proof.
  assert (∀ sys, rtc sample_step sample_system sys → in_range 100 (client sys) → in_range 100 (server sys) →
    (UdtConnection.poll_flush (Endpoint.world (client sys))).1 = Ok (UdtConnection.Ready (Ok ())) →
    delivered (server sys) = Endpoint.written (client sys)) as Hsys.
  { intros sys Hrun Hc Hs He. exact (@flushed_is_delivered true sample_float (λ _, sample_env) sample_slot
      1500 DEFAULT_UDT_BUF_SIZE 100 sample_system sys Client sample_new_connection Hrun Hc Hs He). }
  split; [by vm_compute|]. apply (Hsys sample_run sample_run_calm); by vm_compute.
Defined.
