(* ===== verification/resend_race.v ===== *)
(** * An acknowledgement between the two locks of a retransmission

    [next_data_packets] takes a lost number from the state, computes its place in the send
    buffer, unlocks the state and only then locks the send buffer.  An acknowledgement that
    the receiving worker processes in between moves the buffer: the place is that of a
    later block. *)

From stdpp Require Import relations.
From S2P Require Import prelude seq_number time data_packet control_packet packet.
From S2P Require Import btree_map loss_list ack_window rcv_buffer snd_buffer float flow.
From S2P Require Import configuration rate_control socket_state world socket samples.
From S2P Require Import stream_invariant stream listener wire_types bounds datagram_stream.

(** Three blocks are sent; the second packet is late, so that the other end reports it
    lost and acknowledges the first one.  The report arrives and the sending worker begins
    the retransmission; the acknowledgement arrives; the sending worker goes on. *)
Definition race_script : list move :=
  [Act Client (Endpoint.Write [1]); Act Client (Endpoint.Write [2]); Act Client (Endpoint.Write [3]);
   Act Client Endpoint.Begin; Act Client Endpoint.Finish; Act Client Endpoint.Transmit;
   Deliver Server 0; Deliver Server 2; Act Server Endpoint.Timers;
   Deliver Client 0; Act Client Endpoint.Begin; Deliver Client 1; Act Client Endpoint.Finish;
   Act Client Endpoint.Transmit; Deliver Server 3; Act Server Endpoint.Timers;
   Act Server (Endpoint.Recv 2000); Deliver Client 2].

(** C3. The race corrupts the stream.  Without [undisturbed] the conclusions of
    [reliable_stream] and [flushed_is_delivered] fail, on a network that forges nothing:
    the number of the second block goes out with the bytes of the third one, the other end
    accepts, acknowledges and reads them in the place of the second block, and the flush
    of the sender reports success. *)
Theorem resend_race_corrupts : ∃ sys,
    rtc (@slot_step true sample_float (λ _, sample_env) sample_slot) sample_system sys
  ∧ new_connection 100 1500 DEFAULT_UDT_BUF_SIZE sample_slot sample_system
  ∧ in_range 100 (client sys) ∧ in_range 100 (server sys)
  ∧ (UdtConnection.poll_flush (Endpoint.world (client sys))).1 = Ok (UdtConnection.Ready (Ok ()))
  ∧ Endpoint.written (client sys) = [1; 2; 3] ∧ Endpoint.read (server sys) = [1; 3; 3].
Proof.
  exists (play race_script sample_system). split; [apply play_steps|]. split; [apply sample_new_connection|].
  by vm_compute.
Qed.
